(* ===== verification/_CoqProject ===== *)
-Q . S2P
Prelude.v
Store.v
Committee.v
Messages.v
Aggregator.v
Network.v
Core.v
Ideal.v
CoreInv.v
Safety.v
Progress.v
Faults.v
Tasks.v
Node.v
Transport.v
Mempool.v
Primality.v
Scalars.v
Blst.v
BlstIdeal.v
Polynomial.v
Threshold.v
Processes.v
IoCommittee.v
Dkg.v
DkgIdeal.v
DkgSound.v
DkgHonest.v
DkgSign.v
Operator.v
Notifications.v
DvfCore.v
Doppelganger.v
KeyCache.v
KeyFiles.v
InitializedValidators.v
ValidatorUpdates.v
ValidatorStore.v
Elgamal.v
Database.v
Contract.v
NodeCommands.v
NodeRuns.v
NodeValidators.v
Registration.v
Initiators.v
BeaconNodes.v
Services.v
ServicesIdeal.v
BlockService.v
Duties.v
SyncDuties.v
SyncService.v
PreparationService.v
AttestationService.v
