(* ===== verification/Prelude.v ===== *)
(** * SafeStake operator: verification library

    ** The program

    An Ethereum validator is run by a committee of operators, none of which
    holds the validator's key.  Every operator runs, per validator, an instance
    of a HotStuff consensus (the crates under [hotstuff/]) with a mempool, a
    store and a network layer, and takes part in a threshold BLS scheme (the
    modules under [src/crypto], [src/math], [src/network] and [src/utils]): keys
    are split, or generated by all operators together, and enough partial
    signatures are combined to the signature of the validator.  The validator
    client of an operator (the modules under [src/validation]) asks for
    signatures of duties: the operator checks them against slashing and
    doppelganger protection, stores its partial signature, has the consensus
    order the duty and collects the partial signatures of the others.  A node
    (the modules under [src/node]) follows the contract on the chain: its events
    become commands in a database, and a loop executes them, which registers,
    starts, stops and removes validators and runs key generations.

    ** The files

    The consensus:
    - [Prelude]: machine integers, outcomes and small monads, lists and sums.
    - [Store] ([hotstuff/store/src/lib.rs]): [Store.t] is the database with the
      waiting readers, [Store.exec] one command of the task's loop.
    - [Committee] ([consensus/src/config.rs], [leader.rs] and
      [mempool/src/config.rs]): stakes, quorum thresholds, the leader.
    - [Messages] ([hotstuff/crypto/src/lib.rs], [consensus/src/messages.rs],
      [error.rs]): blocks, votes, timeouts and certificates with their hashes and
      [verify] methods.
    - [Aggregator] ([aggregator.rs]): votes and timeouts become certificates.
    - [Network] ([dvf_message.rs], [dvf_version]): the envelope of a message.
    - [Core] ([core.rs]): [Core.t] is the mutable state of the [Core] struct with
      the list of what it handed to other parts; one definition per handler.
    - [Tasks] ([proposer.rs], [synchronizer.rs], [mempool.rs], [helper.rs] and
      the dispatcher of [consensus.rs]): a module per task, a function per turn
      of its [select!].
    - [Node] ([consensus.rs]): the instance, its tasks joined by channels, and
      the system of all instances.
    - [Transport] ([network/src]): receiver, reliable and simple senders.
    - [Mempool] ([hotstuff/mempool/src]): batches from transactions to storage.
    - [Ideal]: concrete serialisation for the witnesses.
    - [CoreInv], [Safety], [Progress], [Faults]: the proofs about [Core].

    The threshold scheme:
    - [Primality], [Scalars] ([src/crypto/define.rs], [src/math/bigint_ext.rs]):
      the curve order is prime; the field of residues and interpolation.
    - [Blst] ([src/utils/blst_utils.rs], [error.rs]): the interface of the
      pairing library as a class with its laws, and the wrappers; [BlstIdeal] is
      a concrete instance for the witnesses.
    - [Polynomial] ([src/math/polynomial.rs]): evaluation and commitments.
    - [Threshold] ([src/crypto/generic_threshold.rs], [impls/blst.rs]): key
      splitting and the aggregation of signatures.
    - [Processes]: sequential processes that send, receive and draw random
      bytes, networks of them, and rounds.
    - [IoCommittee] ([src/network/io_committee.rs]): plain and secure channels.
    - [Dkg] ([src/crypto/dkg.rs]): both key generation protocols and the signer;
      [DkgIdeal] instantiates the encodings; [DkgSound], [DkgHonest] and
      [DkgSign] are the proofs.

    The duties of a validator:
    - [Operator] ([src/validation/operator.rs], [impls/hotstuff.rs],
      [operator_committees.rs], the addresses of [src/node/config.rs]): local and
      remote operators, and the committee that collects their signatures.
    - [Notifications] ([impls/hotstuff.rs]): concurrent calls of
      [OperatorCommittee::consensus] as a machine with an event per await point.
    - [DvfCore] ([src/node/dvfcore.rs], [signing_method.rs]): the signer of a
      validator, the service of its partial signatures, and the task that turns
      committed blocks into notifications.
    - [Doppelganger] ([doppelganger_service.rs]): registration and detection.
    - [KeyCache] ([key_cache.rs]): the encrypted file of decrypted keys.
    - [KeyFiles] ([account_utils], [validator_definitions.rs], [share_builder.rs],
      [keystore_share.rs]): the disk, paths, keystore shares and definitions.
    - [InitializedValidators] ([initialized_validators.rs]): the definitions and
      the validators that run, every operation on them, and their invariant;
      [ValidatorUpdates] is what runs after an operation.
    - [ValidatorStore] ([validator_store.rs]): the signing requests of a client,
      with the slashing protection database as a class with its laws.

    The services of the validator client:
    - [BeaconNodes] ([beacon_node_fallback.rs], [check_synced.rs]): the candidates
      with their shared statuses, and requests with fallback, with a rule for them.
    - [Services]: the state that the services share, the requests to a beacon node
      as a class, and the law that other tasks change the validator store only by
      requests to it; [ServicesIdeal] is a concrete world for the witnesses.
    - [BlockService] ([block_service.rs], [graffiti_file.rs]): proposals.
    - [Duties] ([duties_service.rs]): the duties, their polls and notifications.
    - [AttestationService] ([attestation_service.rs]): attestations and aggregates.
    - [SyncDuties] ([duties_service/sync.rs]): the members of the sync committees and
      their selection proofs; [SyncService] ([sync_committee_service.rs]): their
      messages, contributions and subscriptions.
    - [PreparationService] ([preparation_service.rs], [fee_recipient_file.rs]): the fee
      recipients of proposers and the registrations with builders.

    The node:
    - [Elgamal] ([src/crypto/elgamal.rs]): encryption of shares for an operator.
    - [Database] ([src/node/db.rs]): a record of tables and a function per
      statement, the queue of commands and the keys of initiators.
    - [Contract] ([src/node/contract.rs]): the events, their handlers and the loop
      over the logs, and the monitor of paid accounts.
    - [NodeCommands] ([src/node/node.rs]): the loop over the commands, a function
      per command, and the monitor of addresses; [Node] is the store, the disk,
      the handlers and the database of an operator.
    - [NodeRuns], [NodeValidators], [Registration], [Initiators]: the proofs about
      the commands.

    ** What is shown

    Agreement ([Node.agreement]): whatever the network and the operators of at
    most [f] stake do, two blocks that honest instances deliver are on one
    chain.  It rests on [Safety.honest_votes_once], on the refinement of the
    whole instances to the cores ([Node.instances_refine_cores]) and on the
    quorum arithmetic of [Committee].  [Progress] shows that every handler
    returns, which panics are possible, and what a commit delivers.

    The parts by themselves: certificates are made once per quorum
    ([Aggregator]); verification accepts exactly what it should and hashed bytes
    are unambiguous ([Messages]); the tasks neither lose nor repeat blocks
    ([Tasks]); connections keep order ([Transport]); batches reach storage with a
    quorum ([Mempool]); store requests are answered once ([Store]).

    The threshold scheme: an aggregation of partial signatures is decided
    exactly, and fewer shares than the threshold hide the key ([Threshold]); a
    party that finishes the key generation holds keys consistent with the
    published commitments, whatever the others send, and disputes are judged as
    they were raised ([DkgSound]); an honest run ends under every schedule with
    the keys of the sum of all secrets ([DkgHonest]), and these keys sign as one
    ([DkgSign]).

    The duties: a committee never signs two messages that are slashable together
    ([ValidatorStore.committee_never_slashable]); what is proposed is notified in
    order once it is committed, a call that waits for its message returns, and a
    duty is signed when a threshold of operators is available ([DvfCore],
    [Notifications], [Operator]); a validator signs only after an epoch in which
    it was silent ([Doppelganger]).

    The services: a request to the beacon nodes is answered by the first usable node
    ([BeaconNodes.first_success_answers]); the poll of proposer duties notifies each
    proposer once ([Duties]); whatever the nodes answer and however the tasks are
    interleaved, block and attestation services make only requests for their duties,
    publish only what was signed for them, and no two messages they sign are slashable
    together ([BlockService], [AttestationService]).  The messages of the sync
    committees are those of their members, one for each ([SyncService]), polls ask for
    the selection proofs of an epoch once ([SyncDuties]), and registrations are signed
    when they are not cached ([PreparationService]).

    The node: reliable answers of the chain are handled once and in order and paid
    accounts are followed ([Contract]); the commands of an owner are executed in
    order and once ([NodeRuns]); what runs follows the commands, with the handlers
    of exactly the enabled validators ([NodeValidators]), over the invariant of
    [InitializedValidators]; a validator registered on the contract signs
    ([Registration]), which composes the decryption of the share ([Elgamal]), the
    files, the definitions, the signer and the validator store; deposits are signed
    with the generated keys ([Initiators]); a saved key cache is read back
    ([KeyCache]).

    Some theorems state behaviour that the code does not withstand: [Faults],
    [Transport.refused_message_is_resolved],
    [Mempool.timed_out_batch_still_delivered], [DkgSound.accused_panics],
    [Notifications.second_caller_starves],
    [DvfCore.malformed_transaction_stops_signing],
    [Contract.unreliable_node_loses_or_repeats_events],
    [NodeRuns.failed_command_dropped], [BlockService.not_leader_loses_nodes] and
    [Doppelganger.detection_without_effect].

    ** Assumptions and bounds

    Third-party code is a class whose fields are its functions and whose laws
    are named hypotheses: RocksDB, [bincode], SHA-512 and secp256k1, [blst] and
    the [bls] crate, AES-GCM and SHA-256, SQLite's choice among rows, the decoding
    of events and of commands, keystores, and the slashing protection database,
    beacon chain types and HTTP client of the [lighthouse] submodule.  Signatures of honest operators are
    not forged and digests do not collide where agreement needs it; the concrete
    instances of [Ideal], [BlstIdeal], [DkgIdeal], [IoCommittee], [Elgamal],
    [Database], [Contract], [KeyCache], [KeyFiles] and [ServicesIdeal] show that the
    laws can hold together.

    Integers have their width ([u32], [u64] wrap as in a release build); where a
    theorem needs that a round does not overflow it says so.  Hash maps are
    finite maps; where the order of iteration could matter it is the order of
    [map_to_list] or an argument.  Two recursions have fuel: the loop of
    [Core::prune], for which [Progress.handlers_return] gives fuel that is enough, and
    the batches of [PreparationService], where the length of the list is.  Handlers
    are atomic, as every task is a sequential loop; channels between tasks are
    unbounded queues.  The services of the validator client yield to other tasks at
    every request to a beacon node and at every signature; the cache of registrations
    is private to its service, which the theorem on it takes as a law.  An honest key
    generation is shown for at most [2 ^ 20] parties and coefficients, so that every message fits the cipher, and for
    random choices that give no share equal to 0, which the code answers with a
    panic.

    ** What is not modelled

    Sockets, the discovery protocol and the start of tasks, with the loops that
    sleep between the polls of duties; remote signers; the discovery of local keystores
    and wallets; the HTTP interface, the command line, the simulator
    and the binaries. *)

From stdpp Require Export prelude gmap sorting strings.
From Stdlib Require Export ZArith Lia.

#[global] Open Scope Z_scope.

(** ** Hint database and small tactics *)

Create HintDb dvf.

(** Splits every conjunction, pair equation and existential of the context. *)
Ltac break :=
  repeat match goal with
  | H : _ /\ _ |- _ => destruct H
  | H : exists _, _ |- _ => destruct H
  | H : (_, _) = (_, _) |- _ => injection H as H; subst
  | H : Some _ = Some _ |- _ => injection H as H; subst
  end.

(** Case analysis on every [match] and [if], with the equations kept. *)
Ltac cases := repeat case_match; simplify_eq/=.

(** ** Machine integers

    The crates are built without [overflow-checks], so a release build wraps
    [u32], [u64] and [usize] arithmetic; values are kept as [Z] and every
    addition the source makes is written with one of these functions. *)

Definition u64_max : Z := 2 ^ 64 - 1.
Definition u32_max : Z := 2 ^ 32 - 1.
Definition u64 (x : Z) : Z := x mod 2 ^ 64.
Definition u32 (x : Z) : Z := x mod 2 ^ 32.

Definition is_u64 (x : Z) : Prop := 0 <= x <= u64_max.
Definition is_u32 (x : Z) : Prop := 0 <= x <= u32_max.

Lemma u64_id x : is_u64 x -> u64 x = x.
Proof. unfold is_u64, u64_max, u64. intros. apply Z.mod_small. lia. Qed.

Lemma u32_id x : is_u32 x -> u32 x = x.
Proof. unfold is_u32, u32_max, u32. intros. apply Z.mod_small. lia. Qed.

Lemma u64_is_u64 x : is_u64 (u64 x).
Proof.
  unfold is_u64, u64_max, u64.
  pose proof (Z.mod_pos_bound x (2 ^ 64) ltac:(lia)). lia.
Qed.

Lemma u32_is_u32 x : is_u32 (u32 x).
Proof.
  unfold is_u32, u32_max, u32.
  pose proof (Z.mod_pos_bound x (2 ^ 32) ltac:(lia)). lia.
Qed.

(** [r + 1] on a [u64] below the maximum. *)
Lemma u64_succ x : 0 <= x < u64_max -> u64 (x + 1) = x + 1.
Proof. intros. apply u64_id. unfold is_u64. lia. Qed.

#[export] Hint Resolve u64_is_u64 u32_is_u32 : dvf.

(** ** Outcomes and programs

    An asynchronous Rust method [async fn f(&mut self, ..) -> Result<A, E>]
    either returns [Ok], returns [Err], or panics ([expect], an index out of
    range); whatever it did to [self] before stays.  [Diverged] is the outcome
    of a loop whose fuel is exhausted. *)

Inductive outcome (E A : Type) : Type :=
| Ok (a : A)
| Err (e : E)
| Panic (msg : string)
| Diverged.
Arguments Ok {E A} a.
Arguments Err {E A} e.
Arguments Panic {E A} msg.
Arguments Diverged {E A}.

(** Pure fallible code: the sequencing of [?]. *)
#[global] Instance outcome_ret {E} : MRet (outcome E) := fun A a => Ok a.
#[global] Instance outcome_bind {E} : MBind (outcome E) := fun A B k m =>
  match m with
  | Ok a => k a
  | Err e => Err e
  | Panic msg => Panic msg
  | Diverged => Diverged
  end.

(** The [ensure!] macro. *)
Definition ensure {E} (cond : bool) (e : E) : outcome E () :=
  if cond then Ok () else Err e.

(** Stateful fallible code. *)
Definition prog (S E A : Type) : Type := S -> outcome E A * S.

#[global] Instance prog_ret {S E} : MRet (prog S E) := fun A a s => (Ok a, s).
#[global] Instance prog_bind {S E} : MBind (prog S E) := fun A B k m s =>
  match m s with
  | (Ok a, s') => k a s'
  | (Err e, s') => (Err e, s')
  | (Panic msg, s') => (Panic msg, s')
  | (Diverged, s') => (Diverged, s')
  end.

Definition get {S E} : prog S E S := fun s => (Ok s, s).
Definition gets {S E A} (f : S -> A) : prog S E A := fun s => (Ok (f s), s).
Definition modify {S E} (f : S -> S) : prog S E () := fun s => (Ok (), f s).
Definition fail {S E A} (e : E) : prog S E A := fun s => (Err e, s).
Definition panic {S E A} (msg : string) : prog S E A := fun s => (Panic msg, s).
Definition lift {S E A} (m : outcome E A) : prog S E A := fun s => (m, s).

(** [x.expect(msg)] on an [Option]. *)
Definition expect {S E A} (o : option A) (msg : string) : prog S E A :=
  match o with Some a => mret a | None => panic msg end.

(** A [match] on the result of a call. *)
Definition caught {S E E' A} (m : prog S E A) : prog S E' (E + A) := fun s =>
  match m s with
  | (Ok a, s') => (Ok (inr a), s')
  | (Err e, s') => (Ok (inl e), s')
  | (Panic msg, s') => (Panic msg, s')
  | (Diverged, s') => (Diverged, s')
  end.

(** [Result::map_err]. *)
Definition map_err {S E E' A} (f : E -> E') (m : prog S E A) : prog S E' A :=
  r ← caught m;
  match r with
  | inr a => mret a
  | inl e => fail (f e)
  end.

(** [wp m Q s]: running [m] from [s] ends in an outcome and a state that
    satisfy [Q]. *)
Definition wp {S E A} (m : prog S E A) (Q : outcome E A -> S -> Prop) (s : S)
  : Prop := Q (fst (m s)) (snd (m s)).

(** The postcondition carried through a sequencing point. *)
Definition bind_post {S E A B} (k : A -> prog S E B)
  (Q : outcome E B -> S -> Prop) (r : outcome E A) (s : S) : Prop :=
  match r with
  | Ok a => wp (k a) Q s
  | Err e => Q (Err e) s
  | Panic msg => Q (Panic msg) s
  | Diverged => Q Diverged s
  end.

Section wp_rules.
Context {S E : Type}.
Implicit Types s : S.

Lemma wp_bind {A B} (m : prog S E A) (k : A -> prog S E B) Q s :
  wp m (bind_post k Q) s -> wp (m ≫= k) Q s.
Proof.
  unfold wp, bind_post, mbind, prog_bind.
  destruct (m s) as [[a|e|msg|] s']; simpl; auto.
Qed.

Lemma wp_ret {A} (a : A) Q s : Q (Ok a) s -> wp (mret a : prog S E A) Q s.
Proof. done. Qed.

Lemma wp_gets {A} (f : S -> A) (Q : outcome E A -> S -> Prop) s :
  Q (Ok (f s)) s -> wp (gets f) Q s.
Proof. done. Qed.

Lemma wp_modify f (Q : outcome E () -> S -> Prop) s :
  Q (Ok ()) (f s) -> wp (modify f) Q s.
Proof. done. Qed.

Lemma wp_lift {A} (m : outcome E A) (Q : outcome E A -> S -> Prop) s :
  Q m s -> wp (lift m) Q s.
Proof. done. Qed.

Lemma wp_fail {A} e (Q : outcome E A -> S -> Prop) s :
  Q (Err e) s -> wp (fail e) Q s.
Proof. done. Qed.

Lemma wp_panic {A} msg (Q : outcome E A -> S -> Prop) s :
  Q (Panic msg) s -> wp (panic msg) Q s.
Proof. done. Qed.

Lemma wp_expect {A} (o : option A) msg (Q : outcome E A -> S -> Prop) s :
  (forall a, o = Some a -> Q (Ok a) s) ->
  (o = None -> Q (Panic msg) s) ->
  wp (expect o msg) Q s.
Proof. destruct o; cbv [wp expect mret prog_ret panic]; simpl; auto. Qed.

Lemma wp_mono {A} (m : prog S E A) (Q Q' : outcome E A -> S -> Prop) s :
  (forall r s', Q r s' -> Q' r s') -> wp m Q s -> wp m Q' s.
Proof. unfold wp. auto. Qed.

Lemma wp_run {A} (m : prog S E A) (Q : outcome E A -> S -> Prop) s r s' :
  wp m Q s -> m s = (r, s') -> Q r s'.
Proof. unfold wp. intros HQ Hm. by rewrite Hm in HQ. Qed.
End wp_rules.

(** Running the first part of a sequence. *)
Lemma run_bind {S E A B} (m : prog S E A) (k : A -> prog S E B) s a s' :
  m s = (Ok a, s') -> (m ≫= k) s = k a s'.
Proof. unfold mbind, prog_bind. by intros ->. Qed.

Lemma wp_caught {S E E' A} (m : prog S E A) (Q : outcome E' (E + A) -> S -> Prop) s :
  wp m (fun r s' =>
    match r with
    | Ok a => Q (Ok (inr a)) s'
    | Err e => Q (Ok (inl e)) s'
    | Panic msg => Q (Panic msg) s'
    | Diverged => Q Diverged s'
    end) s ->
  wp (caught m) Q s.
Proof. unfold wp, caught. by destruct (m s) as [[] ?]. Qed.

Lemma wp_map_err {S E E' A} (f : E -> E') (m : prog S E A) (Q : outcome E' A -> S -> Prop) s :
  wp m (fun r s' =>
    match r with
    | Ok a => Q (Ok a) s'
    | Err e => Q (Err (f e)) s'
    | Panic msg => Q (Panic msg) s'
    | Diverged => Q Diverged s'
    end) s ->
  wp (map_err f m) Q s.
Proof. unfold wp, map_err, caught, mbind, prog_bind. by destruct (m s) as [[] ?]. Qed.

(** ** The keys of a map in order *)

Section sorted_keys.
Context {A : Type} (m : gmap Z A).

Definition sorted_keys : list Z := merge_sort Z.le (map fst (map_to_list m)).

Lemma sorted_keys_perm : sorted_keys ≡ₚ map fst (map_to_list m).
Proof. apply merge_sort_Permutation. Qed.

Lemma sorted_keys_length : length sorted_keys = size m.
Proof. rewrite sorted_keys_perm, length_fmap. apply length_map_to_list. Qed.

Lemma sorted_keys_NoDup : NoDup sorted_keys.
Proof. rewrite sorted_keys_perm. apply NoDup_fst_map_to_list. Qed.

Lemma elem_of_sorted_keys k : k ∈ sorted_keys <-> is_Some (m !! k).
Proof.
  rewrite sorted_keys_perm, list_elem_of_fmap. split.
  - intros [[y a] [-> Hy%elem_of_map_to_list]]. eauto.
  - intros [a Ha]. exists (k, a). by rewrite elem_of_map_to_list.
Qed.
End sorted_keys.

(** ** Rotation

    Picking the entry at a number modulo the length takes every entry exactly
    once in as many consecutive numbers. *)

Lemma rotation_unique {A} (l : list A) x (a : Z) :
  NoDup l -> x ∈ l ->
  exists! r, a <= r < a + Z.of_nat (length l) /\
             l !! Z.to_nat (r mod Z.of_nat (length l)) = Some x.
Proof.
  intros Hnd [i Hi]%list_elem_of_lookup. pose proof (lookup_lt_Some _ _ _ Hi) as Hlt.
  set (n := Z.of_nat (length l)) in *. exists (a + (Z.of_nat i - a) mod n). split.
  - pose proof (Z.mod_pos_bound (Z.of_nat i - a) n ltac:(lia)). split; [lia|].
    rewrite Zplus_mod_idemp_r.
    replace (a + (Z.of_nat i - a)) with (Z.of_nat i) by lia.
    rewrite Z.mod_small by lia. by rewrite Nat2Z.id.
  - intros r [Hrange Hl]. pose proof (Z.mod_pos_bound r n ltac:(lia)).
    pose proof (NoDup_lookup _ _ _ _ Hnd Hl Hi) as He.
    assert (r mod n = Z.of_nat i) as Hri by lia.
    rewrite <- Hri, <- Zminus_mod_idemp_l, Z.mod_mod, Zminus_mod_idemp_l by lia.
    rewrite (Z.mod_small (r - a)) by lia. lia.
Qed.

(** ** Sums of stakes over lists and finite sets *)

Definition zsum {A} (f : A -> Z) (l : list A) : Z :=
  foldr (fun x acc => f x + acc) 0 l.

Section zsum.
Context {A : Type} (f : A -> Z).

Lemma zsum_app l1 l2 : zsum f (l1 ++ l2) = zsum f l1 + zsum f l2.
Proof. induction l1 as [|x l1 IH]; simpl; lia. Qed.

#[global] Instance zsum_perm : Proper ((≡ₚ) ==> (=)) (zsum f).
Proof. intros l1 l2 Hp. induction Hp; simpl; lia. Qed.

Lemma zsum_nonneg l : (forall x, x ∈ l -> 0 <= f x) -> 0 <= zsum f l.
Proof.
  induction l as [|x l IH]; intros Hf; simpl; [lia|].
  pose proof (Hf x ltac:(set_solver)).
  assert (0 <= zsum f l) by (apply IH; set_solver). lia.
Qed.

Lemma zsum_submseteq l1 l2 :
  (forall x, x ∈ l2 -> 0 <= f x) -> l1 ⊆+ l2 -> zsum f l1 <= zsum f l2.
Proof.
  intros Hf [l Hl]%submseteq_Permutation.
  rewrite Hl, zsum_app.
  assert (0 <= zsum f l); [|lia].
  apply zsum_nonneg. intros x Hx. apply Hf. rewrite Hl. set_solver.
Qed.

Lemma zsum_map {B} (g : B -> A) l : zsum f (map g l) = zsum (f ∘ g) l.
Proof. induction l; simpl; [done|]. unfold compose in *. lia. Qed.

Lemma zsum_ext (g : A -> Z) l :
  (forall x, x ∈ l -> f x = g x) -> zsum f l = zsum g l.
Proof.
  induction l as [|x l IH]; intros Hfg; simpl; [done|].
  rewrite (Hfg x) by set_solver. rewrite IH by set_solver. done.
Qed.
End zsum.

(** Total weight of a finite set. *)
Definition weight_of `{Countable A} (f : A -> Z) (X : gset A) : Z :=
  zsum f (elements X).

Section weight_of.
Context `{Countable A} (f : A -> Z).
Implicit Types X Y : gset A.

Lemma weight_of_disj X Y :
  X ## Y -> weight_of f (X ∪ Y) = weight_of f X + weight_of f Y.
Proof.
  intros Hd. unfold weight_of.
  rewrite (elements_disj_union X Y Hd). apply zsum_app.
Qed.

Lemma weight_of_split X Y :
  weight_of f X = weight_of f (X ∩ Y) + weight_of f (X ∖ Y).
Proof.
  rewrite <- weight_of_disj by set_solver.
  f_equal. apply set_eq. intros x.
  destruct (decide (x ∈ Y)); set_solver.
Qed.

Lemma weight_of_singleton x : weight_of f {[x]} = f x.
Proof. unfold weight_of. rewrite elements_singleton. simpl. lia. Qed.

Lemma weight_of_list l :
  NoDup l -> weight_of f (list_to_set l) = zsum f l.
Proof.
  intros Hnd. unfold weight_of. by rewrite (elements_list_to_set l Hnd).
Qed.

Context (f_nonneg : forall x, 0 <= f x).

Lemma weight_of_nonneg X : 0 <= weight_of f X.
Proof. apply zsum_nonneg. auto. Qed.

Lemma weight_of_mono X Y : X ⊆ Y -> weight_of f X <= weight_of f Y.
Proof.
  intros HXY. rewrite (weight_of_split Y X).
  replace (Y ∩ X) with X by (apply set_eq; set_solver).
  pose proof (weight_of_nonneg (Y ∖ X)). lia.
Qed.

(** Two sets heavier together than the set that contains both intersect in
    at least the difference. *)
Lemma weight_of_inter X Y U :
  X ⊆ U -> Y ⊆ U ->
  weight_of f X + weight_of f Y - weight_of f U <= weight_of f (X ∩ Y).
Proof.
  intros HX HY.
  assert (weight_of f (X ∪ Y) <= weight_of f U)
    by (apply weight_of_mono; set_solver).
  assert (weight_of f (X ∪ Y) = weight_of f X + weight_of f (Y ∖ X)) as HU.
  { rewrite <- weight_of_disj by set_solver. f_equal. apply set_eq.
    intros x. destruct (decide (x ∈ X)); set_solver. }
  pose proof (weight_of_split Y X) as HY'.
  replace (X ∩ Y) with (Y ∩ X) by (apply set_eq; set_solver). lia.
Qed.

(** A set heavier than another has an element outside of it. *)
Lemma weight_of_outside X Y :
  weight_of f Y < weight_of f X -> exists x, x ∈ X /\ x ∉ Y.
Proof.
  intros Hlt. destruct (decide (X ⊆ Y)) as [Hsub|Hsub].
  - pose proof (weight_of_mono X Y Hsub). lia.
  - destruct (set_choose_or_empty (X ∖ Y)) as [[x Hx]|Hemp];
      [exists x; set_solver|].
    exfalso. apply Hsub. intros x Hx.
    destruct (decide (x ∈ Y)); [done|]. set_solver.
Qed.
End weight_of.

(** ** Ordered pairs of a list *)

Lemma ForallOrdPairs_snoc {A} (R : A -> A -> Prop) l x :
  ForallOrdPairs R l -> Forall (fun y => R y x) l -> ForallOrdPairs R (l ++ [x]).
Proof.
  induction 1 as [|y l Hy Hl IH]; intros Hx; simpl; [repeat constructor|].
  apply Forall_cons in Hx as [Hyx Hx]. constructor; [|by apply IH].
  apply Forall_app. auto.
Qed.

(** Two elements of a list with ordered pairs, one way or the other. *)
Lemma ForallOrdPairs_elem {A} (R : A -> A -> Prop) l x y :
  ForallOrdPairs R l -> x ∈ l -> y ∈ l -> x = y \/ R x y \/ R y x.
Proof.
  induction 1 as [|z l Hz Hl IH]; [by intros ?%elem_of_nil|].
  rewrite Forall_forall in Hz. rewrite !elem_of_cons.
  intros [->|Hx] [->|Hy]; auto.
Qed.

Lemma ForallOrdPairs_app_cons {A} (R : A -> A -> Prop) l1 x l2 y :
  ForallOrdPairs R (l1 ++ x :: l2) -> y ∈ l1 -> R y x.
Proof.
  induction l1 as [|z l1 IH]; simpl; [by intros _ ?%elem_of_nil|].
  intros Hp. inversion Hp as [|? ? Hz Hl]; subst. rewrite Forall_forall in Hz.
  intros [->|Hy]%elem_of_cons; [|by apply IH]. apply Hz, elem_of_app. right.
  apply list_elem_of_here.
Qed.

(** ** Filters that keep all or nothing *)

Section list_filter.
Context {A : Type} (P : A -> Prop) `{!forall x, Decision (P x)}.

Lemma list_filter_all (l : list A) : (forall x, x ∈ l -> P x) -> filter P l = l.
Proof.
  induction l as [|x l IH]; intros Hl; [done|].
  rewrite filter_cons_True by (apply Hl; apply list_elem_of_here). f_equal. apply IH.
  intros y Hy. apply Hl. by apply list_elem_of_further.
Qed.

Lemma list_filter_none (l : list A) : (forall x, x ∈ l -> ~ P x) -> filter P l = [].
Proof.
  induction l as [|x l IH]; intros Hl; [done|].
  rewrite filter_cons_False by (apply Hl; apply list_elem_of_here). apply IH.
  intros y Hy. apply Hl. by apply list_elem_of_further.
Qed.
End list_filter.

Lemma list_filter_iff_on {A} (P Q : A -> Prop) `{!forall x, Decision (P x)}
  `{!forall x, Decision (Q x)} (l : list A) :
  (forall x, x ∈ l -> P x <-> Q x) -> filter P l = filter Q l.
Proof.
  induction l as [|x l IH]; intros Hl; [done|]. rewrite !filter_cons.
  rewrite (decide_ext (P x) (Q x)) by (apply Hl, list_elem_of_here).
  rewrite IH; [done|]. intros y Hy. by apply Hl, list_elem_of_further.
Qed.

Lemma filter_bool_cons {A} (f : A -> bool) x l :
  filter f (x :: l) = if f x then x :: filter f l else filter f l.
Proof. rewrite filter_cons. destruct (f x) eqn:Hx; by case_decide. Qed.

Lemma head_app {A} (l l' : list A) :
  head (l ++ l') = match head l with Some x => Some x | None => head l' end.
Proof. by destruct l. Qed.

(** ** [omap] on lists *)

Section list_omap.
Context {A B : Type}.

Lemma list_omap_map {C} (f : A -> option B) (g : C -> A) (l : list C) :
  omap f (map g l) = omap (fun x => f (g x)) l.
Proof. induction l as [|x l IH]; csimpl; [done|]. by rewrite IH. Qed.

Lemma list_omap_ext_on (f g : A -> option B) (l : list A) :
  (forall x, x ∈ l -> f x = g x) -> omap f l = omap g l.
Proof.
  induction l as [|x l IH]; intros Hl; csimpl; [done|].
  rewrite Hl, IH; [done| |apply list_elem_of_here].
  intros y Hy. by apply Hl, list_elem_of_further.
Qed.

Lemma list_omap_none (f : A -> option B) (l : list A) :
  (forall x, x ∈ l -> f x = None) -> omap f l = [].
Proof.
  induction l as [|x l IH]; intros Hl; csimpl; [done|].
  rewrite Hl, IH; [done| |apply list_elem_of_here].
  intros y Hy. by apply Hl, list_elem_of_further.
Qed.

Lemma list_omap_app (f : A -> option B) (l1 l2 : list A) :
  omap f (l1 ++ l2) = omap f l1 ++ omap f l2.
Proof. induction l1 as [|x l1 IH]; csimpl; [done|]. rewrite IH. by destruct (f x). Qed.
End list_omap.

(** A fold whose every step keeps the start. *)
Lemma foldl_same {A B} (f : A -> B -> A) (a : A) (l : list B) :
  (forall x, x ∈ l -> f a x = a) -> foldl f a l = a.
Proof.
  induction l as [|x l IH]; intros Hl; simpl; [done|].
  rewrite Hl by apply list_elem_of_here. apply IH.
  intros y Hy. by apply Hl, list_elem_of_further.
Qed.
