(* ===== verification/Store.v ===== *)
(** * The persistent store

    Models [hotstuff/store/src/lib.rs]: the task that owns the RocksDB handle
    and serves the commands of its channel one after the other, and the methods
    of [Store].  RocksDB itself is the class [Rocksdb]; keys and values are
    parameters.  A oneshot channel is the number of its sender: the replies of a
    command are the pairs of a sender and what was sent, and a sender that is
    dropped without an answer is a [Dropped] reply. *)

From S2P Require Import Prelude.

Inductive StoreError : Type :=
| RocksdbError
| OtherError (msg : string).

(** What the store uses of the [rocksdb] crate. *)
Class Rocksdb (K V : Type) := {
  db : Type;
  db_get : db -> K -> StoreError + option V;
  db_put : db -> K -> V -> db;
  db_delete : db -> K -> db;
  db_destroy : db -> bool
}.
Arguments db : clear implicits.
Arguments db K V {_}.

(** RocksDB does not invent values: a value that is read was put under the same
    key, whether or not a put or a delete succeeded. *)
Class RocksdbSafe (K V : Type) `{Rocksdb K V} := {
  put_get_ne d k v k' : k <> k' -> db_get (db_put d k v) k' = db_get d k';
  put_get_eq d k v v' :
    db_get (db_put d k v) k = inr (Some v') ->
    v' = v \/ db_get d k = inr (Some v');
  delete_get d k k' v :
    db_get (db_delete d k) k' = inr (Some v) -> db_get d k' = inr (Some v);
  delete_get_ne d k k' : k <> k' -> db_get (db_delete d k) k' = db_get d k'
}.

(** RocksDB without I/O errors. *)
Class RocksdbReliable (K V : Type) `{Rocksdb K V} := {
  get_total d k : exists o, db_get d k = inr o;
  put_get d k v : db_get (db_put d k v) k = inr (Some v);
  put_get_other d k v k' : k <> k' -> db_get (db_put d k v) k' = db_get d k';
  delete_get_eq d k : db_get (db_delete d k) k = inr None;
  delete_get_other d k k' : k <> k' -> db_get (db_delete d k) k' = db_get d k'
}.

Lemma rocksdb_reliable_safe {K V} `{EqDecision K} `{Rocksdb K V} :
  RocksdbReliable K V -> RocksdbSafe K V.
Proof.
  intros Hr. split.
  - intros. by apply put_get_other.
  - intros d k v v' Hg. rewrite put_get in Hg. naive_solver.
  - intros d k k' v Hg. destruct (decide (k = k')) as [<-|Hne].
    + rewrite delete_get_eq in Hg. discriminate.
    + by rewrite delete_get_other in Hg.
  - intros. by apply delete_get_other.
Qed.

Module Store.
Section store.
Context {K V : Type} `{Countable K} `{Rocksdb K V}.

(** [oneshot::Sender]. *)
Abbreviation sender := Z (only parsing).

Inductive StoreCommand : Type :=
| Write (key : K) (value : V)
| Read (key : K) (s : sender)
| NotifyRead (key : K) (s : sender)
| NotifyDestroy (s : sender)
| Delete (key : K)
| Exit (s : sender).

Inductive Reply : Type :=
| ReplyRead (r : StoreError + option V)
| ReplyNotify (r : StoreError + V)
| ReplyDestroy (ok : bool)
| ReplyExit
| Dropped.

(** The state of the task: the handle, the pending [notify_read]s of each key in
    arrival order, and whether the loop is still running. *)
Record t := mk {
  data : db K V;
  obligations : gmap K (list sender);
  running : bool
}.

Definition new (d : db K V) : t := mk d ∅ true.

(** The senders still waiting. *)
Definition pending (o : gmap K (list sender)) : list sender :=
  concat (map snd (map_to_list o)).

(** The loop breaks: the queues are dropped with the task. *)
Definition stop (st : t) : t * list (sender * Reply) :=
  (mk (data st) ∅ false, map (fun s => (s, Dropped)) (pending (obligations st))).

(** One iteration of the loop; a command sent to a stopped task is dropped. *)
Definition exec (command : StoreCommand) (st : t) : t * list (sender * Reply) :=
  if negb (running st) then
    match command with
    | Write _ _ | Delete _ => (st, [])
    | Read _ s | NotifyRead _ s | NotifyDestroy s | Exit s => (st, [(s, Dropped)])
    end
  else
    match command with
    | Write key value =>
        (mk (db_put (data st) key value) (delete key (obligations st)) true,
         map (fun s => (s, ReplyNotify (inr value)))
           (default [] (obligations st !! key)))
    | Read key s => (st, [(s, ReplyRead (db_get (data st) key))])
    | NotifyRead key s =>
        match db_get (data st) key with
        | inr None =>
            (mk (data st)
               (<[key := default [] (obligations st !! key) ++ [s]]> (obligations st))
               true, [])
        | inr (Some v) => (st, [(s, ReplyNotify (inr v))])
        | inl e => (st, [(s, ReplyNotify (inl e))])
        end
    | NotifyDestroy s =>
        let '(st', dropped) := stop st in
        (st', (s, ReplyDestroy (db_destroy (data st))) :: dropped)
    | Delete key => (mk (db_delete (data st) key) (obligations st) true, [])
    | Exit s =>
        let '(st', dropped) := stop st in (st', (s, ReplyExit) :: dropped)
    end.

Fixpoint exec_all (commands : list StoreCommand) (st : t)
  : t * list (sender * Reply) :=
  match commands with
  | [] => (st, [])
  | command :: commands =>
      let '(st1, r1) := exec command st in
      let '(st2, r2) := exec_all commands st1 in
      (st2, r1 ++ r2)
  end.

(** [Store::read]: the reply, or an error when the task is gone. *)
Definition read (st : t) (key : K) : StoreError + option V :=
  match snd (exec (Read key 0) st) with
  | [(_, ReplyRead r)] => r
  | _ => inl (OtherError "Failed to receive reply to Read command from store")
  end.

(** [Store::write] and [Store::delete] as the caller sees them. *)
Definition write (st : t) (key : K) (value : V) : t * list (sender * Reply) :=
  exec (Write key value) st.
Definition delete_key (st : t) (key : K) : t := fst (exec (Delete key) st).

(** The answer of [Store::notify_read] once its sender has been used. *)
Definition notify_result (r : Reply) : StoreError + V :=
  match r with
  | ReplyNotify r => r
  | _ => inl (OtherError "Failed to receive reply to NotifyRead command from store")
  end.

(** ** Every request is answered exactly once *)

Definition issued (command : StoreCommand) : list sender :=
  match command with
  | Write _ _ | Delete _ => []
  | Read _ s | NotifyRead _ s | NotifyDestroy s | Exit s => [s]
  end.

Lemma pending_insert key l o :
  o !! key = None -> pending (<[key := l]> o) ≡ₚ l ++ pending o.
Proof.
  intros Hk. unfold pending. by rewrite (map_to_list_insert o key l Hk).
Qed.

Lemma pending_delete key o :
  pending o ≡ₚ default [] (o !! key) ++ pending (delete key o).
Proof.
  destruct (o !! key) as [l|] eqn:Hk; simpl.
  - rewrite <- (insert_delete_id o key l Hk) at 1.
    apply pending_insert, lookup_delete_eq.
  - by rewrite delete_id.
Qed.

Lemma pending_push key s o :
  pending (<[key := default [] (o !! key) ++ [s]]> o) ≡ₚ pending o ++ [s].
Proof.
  rewrite <- insert_delete_eq, pending_insert by apply lookup_delete_eq.
  rewrite (pending_delete key o). rewrite <- !app_assoc.
  apply Permutation_app_head, Permutation_app_comm.
Qed.

Lemma senders_map (r : Reply) (l : list sender) :
  map fst (map (fun s => (s, r)) l) = l.
Proof. induction l; simpl; by f_equal. Qed.

Lemma pending_empty : pending ∅ = [].
Proof. unfold pending. by rewrite map_to_list_empty. Qed.

Lemma exec_conserves command st :
  map fst (snd (exec command st)) ++ pending (obligations (fst (exec command st)))
  ≡ₚ pending (obligations st) ++ issued command.
Proof.
  unfold exec. destruct (running st); simpl.
  - destruct command as [key v|key s|key s|s|key|s]; simpl.
    + rewrite senders_map, app_nil_r. symmetry. apply pending_delete.
    + by rewrite Permutation_app_comm.
    + destruct (db_get (data st) key) as [e|[v|]]; simpl;
        [by rewrite Permutation_app_comm..|]. apply pending_push.
    + rewrite senders_map, pending_empty, app_nil_r. by rewrite Permutation_app_comm.
    + by rewrite app_nil_r.
    + rewrite senders_map, pending_empty, app_nil_r. by rewrite Permutation_app_comm.
  - destruct command; simpl; rewrite ?app_nil_r; try done;
      by rewrite Permutation_app_comm.
Qed.

Lemma exec_all_conserves commands st :
  map fst (snd (exec_all commands st)) ++ pending (obligations (fst (exec_all commands st)))
  ≡ₚ pending (obligations st) ++ concat (map issued commands).
Proof.
  revert st. induction commands as [|c commands IH]; intros st; simpl.
  - by rewrite app_nil_r.
  - pose proof (exec_conserves c st) as Hc.
    destruct (exec c st) as [st1 r1] eqn:He. simpl in Hc. specialize (IH st1).
    destruct (exec_all commands st1) as [st2 r2]. simpl in *.
    rewrite map_app, <- app_assoc, IH, (assoc (++)), Hc. by rewrite <- (assoc (++)).
Qed.

(** A waiting [notify_read] means that the key is absent. *)
Definition obligations_absent (st : t) : Prop :=
  forall key l, obligations st !! key = Some l ->
    running st = true /\ db_get (data st) key = inr None.

Lemma exec_obligations_absent `{!RocksdbReliable K V} command st :
  obligations_absent st -> obligations_absent (fst (exec command st)).
Proof.
  intros Hinv key l. unfold exec. destruct (running st) eqn:Hrun; simpl.
  2: { destruct command; simpl; apply Hinv. }
  destruct command as [k v|k s|k s|s|k|s]; simpl; try done.
  - intros [Hne Hl]%lookup_delete_Some. split; [done|].
    rewrite put_get_other by done. by eapply Hinv.
  - apply Hinv.
  - destruct (db_get (data st) k) as [e|[v|]] eqn:Hg; simpl; try apply Hinv.
    intros [[<- _]|[Hne Hl]]%lookup_insert_Some; [done|].
    split; [done|]. by eapply Hinv.
  - intros Hl. split; [done|]. destruct (Hinv key l Hl) as [_ Hg].
    destruct (decide (k = key)) as [<-|Hne]; [apply delete_get_eq|].
    by rewrite delete_get_other.
Qed.

Lemma exec_all_obligations_absent `{!RocksdbReliable K V} commands st :
  obligations_absent st -> obligations_absent (fst (exec_all commands st)).
Proof.
  revert st. induction commands as [|c commands IH]; intros st Hinv; [done|].
  simpl. pose proof (exec_obligations_absent c st Hinv) as Hc.
  destruct (exec c st) as [st1 r1]. specialize (IH st1 Hc).
  by destruct (exec_all commands st1).
Qed.

(** ** Reads and writes *)

Lemma read_running st key : running st = true -> read st key = db_get (data st) key.
Proof. intros Hr. unfold read, exec. by rewrite Hr. Qed.

Lemma read_some st key v :
  read st key = inr (Some v) -> running st = true /\ db_get (data st) key = inr (Some v).
Proof. unfold read, exec. destruct (running st); simpl; [done|discriminate]. Qed.

(** What can be read after a write or a delete was there before, or is the
    value just written. *)
Lemma read_write_some `{!RocksdbSafe K V} st key v key' v' :
  read (fst (write st key v)) key' = inr (Some v') ->
  (key' = key /\ v' = v) \/ read st key' = inr (Some v').
Proof.
  intros [Hr Hg]%read_some. revert Hr Hg. unfold write, exec.
  destruct (running st) eqn:Hrun; simpl; [|congruence]. intros _ Hg.
  rewrite (read_running st key' Hrun).
  destruct (decide (key = key')) as [<-|Hne].
  - apply put_get_eq in Hg as [->|Hg]; auto.
  - rewrite put_get_ne in Hg by done. auto.
Qed.

Lemma read_delete_some `{!RocksdbSafe K V} st key key' v :
  read (delete_key st key) key' = inr (Some v) -> read st key' = inr (Some v).
Proof.
  intros [Hr Hg]%read_some. revert Hr Hg. unfold delete_key, exec.
  destruct (running st) eqn:Hrun; simpl; [|congruence]. intros _ Hg.
  rewrite (read_running st key' Hrun). by eapply delete_get.
Qed.

Lemma read_delete_ne `{!RocksdbSafe K V} st key key' :
  key <> key' -> read (delete_key st key) key' = read st key'.
Proof.
  intros Hne. unfold read, delete_key, exec. destruct (running st) eqn:Hrun; simpl;
    [|by rewrite Hrun]. by apply delete_get_ne.
Qed.

(** C35: with distinct oneshot channels, however the commands of the clients
    interleave, every request has been answered exactly once or is still waiting
    exactly once, nobody else is answered, and a [notify_read] waits only while
    the task runs and its key is absent: no wake-up is lost. *)
Theorem requests_answered_once `{!RocksdbReliable K V} commands d :
  NoDup (concat (map issued commands)) ->
  forall st replies, exec_all commands (new d) = (st, replies) ->
  NoDup (map fst replies ++ pending (obligations st)) /\
  map fst replies ++ pending (obligations st) ≡ₚ concat (map issued commands) /\
  (forall key l, obligations st !! key = Some l ->
     running st = true /\ db_get (data st) key = inr None).
Proof.
  intros Hnd st replies He.
  pose proof (exec_all_conserves commands (new d)) as Hc.
  pose proof (exec_all_obligations_absent commands (new d)) as Ho.
  rewrite He in Hc, Ho. simpl in Hc. rewrite pending_empty in Hc. simpl in Hc.
  split; [by rewrite Hc|]. split; [done|].
  apply Ho. intros key l Hl. simpl in Hl. by rewrite lookup_empty in Hl.
Qed.

(** After [write] a running store reads back the value, reads the other keys
    as before, has answered the [notify_read]s of the key in arrival order with
    the value, and keeps the others waiting. *)
Theorem write_read_notify `{!RocksdbReliable K V} st key v :
  running st = true ->
  forall st' replies, write st key v = (st', replies) ->
  read st' key = inr (Some v) /\
  (forall key', key <> key' -> read st' key' = read st key' /\
     obligations st' !! key' = obligations st !! key') /\
  replies = map (fun s => (s, ReplyNotify (inr v))) (default [] (obligations st !! key)) /\
  obligations st' !! key = None.
Proof.
  intros Hrun st' replies. unfold write, exec. rewrite Hrun. simpl. intros [= <- <-].
  rewrite read_running by done. simpl. split; [apply put_get|]. split; [|split].
  - intros key' Hne. rewrite !read_running by done. simpl. split.
    + by apply put_get_other.
    + by apply lookup_delete_ne.
  - done.
  - apply lookup_delete_eq.
Qed.

End store.
Arguments StoreCommand : clear implicits.
Arguments Reply : clear implicits.
Arguments t : clear implicits.
Arguments t K V {_ _ _}.
End Store.

(** ** A store in memory, as an instance *)

Definition memory_db {K V} `{Countable K} : Rocksdb K V := {|
  db := gmap K V;
  db_get d k := inr (d !! k);
  db_put d k v := <[k := v]> d;
  db_delete d k := delete k d;
  db_destroy _ := true
|}.

Lemma memory_db_reliable {K V} `{Countable K} : @RocksdbReliable K V memory_db.
Proof.
  split; simpl; intros; eauto; f_equal.
  - apply lookup_insert_eq.
  - by apply lookup_insert_ne.
  - apply lookup_delete_eq.
  - by apply lookup_delete_ne.
Qed.

Lemma memory_db_safe {K V} `{Countable K} : @RocksdbSafe K V memory_db.
Proof. apply rocksdb_reliable_safe, memory_db_reliable. Qed.

Section witnesses.
Import Store.
#[local] Existing Instances memory_db memory_db_reliable.

Definition demo_db : db Z Z := (∅ : gmap Z Z).

Definition demo_commands : list (StoreCommand Z Z) :=
  [NotifyRead 1 10; NotifyRead 2 11; NotifyRead 1 12; Write 1 99; Read 1 13].

Definition demo_waiting : t Z Z := mk demo_db {[1 := [10; 12]]} true.

Lemma requests_answered_once_witness :
  NoDup (map fst (snd (exec_all demo_commands (new demo_db)))
    ++ pending (obligations (fst (exec_all demo_commands (new demo_db))))).
Proof.
  eapply (requests_answered_once demo_commands demo_db).
  - vm_compute. repeat (constructor; [set_solver|]). constructor.
  - apply surjective_pairing.
Defined.

Lemma write_read_notify_witness :
  read (fst (write demo_waiting 1 99)) 1 = inr (Some 99).
Proof.
  eapply (write_read_notify demo_waiting 1 99).
  - reflexivity.
  - apply surjective_pairing.
Defined.

End witnesses.
