(* ===== verification/Committee.v ===== *)
(** * Committees, quorums and the round-robin leader

    Models [hotstuff/consensus/src/config.rs], [hotstuff/consensus/src/leader.rs]
    and the committee of [hotstuff/mempool/src/config.rs].  A [HashMap] is a
    [gmap]; its iteration order, which Rust leaves unspecified, is the order of
    [map_to_list], and the lemmas show where the order does not matter. *)

From S2P Require Import Prelude.

(** [crypto::PublicKey] is 33 bytes ordered lexicographically: the big-endian
    number of the bytes, with the order of the numbers. *)
Abbreviation PublicKey := Z (only parsing).
Abbreviation Stake := Z (only parsing).
Abbreviation Round := Z (only parsing).

(** [std::net::SocketAddr]: an address and a port. *)
Record SocketAddr := mkSocketAddr { ip : Z; port : Z }.
#[global] Instance SocketAddr_eq_dec : EqDecision SocketAddr.
Proof. solve_decision. Defined.
#[global] Instance SocketAddr_countable : Countable SocketAddr.
Proof.
  apply (inj_countable' (fun a => (ip a, port a)) (fun '(i, p) => mkSocketAddr i p)).
  by intros [].
Defined.

(** The stake of a committee and the weight of a quorum, shared by the
    committees of the two crates. *)
Definition sum_stakes (l : list Stake) : Stake :=
  foldl (fun acc x => u32 (acc + x)) 0 l.

Definition threshold_of (total_votes : Stake) : Stake :=
  u32 (u32 (2 * total_votes) / 3 + 1).

(** ** [consensus::config] *)

Module Authority.

Record t := mk { stake : Stake; address : SocketAddr }.

End Authority.

Module Committee.

Record t := mk {
  authorities : gmap PublicKey Authority.t;
  epoch : Z
}.

Definition new (info : list (PublicKey * Stake * SocketAddr)) (epoch : Z) : t :=
  mk (foldl (fun m '(name, stake, address) =>
               <[name := Authority.mk stake address]> m) ∅ info)
     epoch.

Definition size (c : t) : Z := Z.of_nat (size (authorities c)).

Definition stake (c : t) (name : PublicKey) : Stake :=
  match authorities c !! name with Some x => Authority.stake x | None => 0 end.

Definition quorum_threshold (c : t) : Stake :=
  threshold_of
    (sum_stakes (map (fun kv => Authority.stake kv.2) (map_to_list (authorities c)))).

Definition address (c : t) (name : PublicKey) : option SocketAddr :=
  match authorities c !! name with
  | Some x => Some (Authority.address x)
  | None => None
  end.

Definition broadcast_addresses (c : t) (myself : PublicKey)
  : list (PublicKey * SocketAddr) :=
  map (fun kv => (kv.1, Authority.address kv.2))
    (filter (fun kv => kv.1 <> myself) (map_to_list (authorities c))).

End Committee.

(** ** [consensus::leader::RRLeaderElector] *)

Module RRLeaderElector.

(** [keys.sort(); keys[round as usize % size]] on the keys in the order the map
    yields them; [None] is the panic on an empty committee. *)
Definition pick (keys : list PublicKey) (size : Z) (round : Round)
  : option PublicKey :=
  if size =? 0 then None
  else merge_sort Z.le keys !! Z.to_nat (round mod size).

Definition get_leader (c : Committee.t) (round : Round) : option PublicKey :=
  pick (map fst (map_to_list (Committee.authorities c))) (Committee.size c) round.

End RRLeaderElector.

(** ** [mempool::config] *)

Module MempoolAuthority.

Record t := mk {
  stake : Stake;
  transactions_address : SocketAddr;
  mempool_address : SocketAddr;
  signature_address : SocketAddr
}.

End MempoolAuthority.

Module MempoolCommittee.

Record t := mk {
  authorities : gmap PublicKey MempoolAuthority.t;
  epoch : Z
}.

Definition new
  (info : list (PublicKey * Stake * SocketAddr * SocketAddr * SocketAddr))
  (epoch : Z) : t :=
  mk (foldl (fun m '(name, stake, transactions_address, mempool_address,
                     signature_address) =>
               <[name := MempoolAuthority.mk stake transactions_address
                           mempool_address signature_address]> m) ∅ info)
     epoch.

Definition stake (c : t) (name : PublicKey) : Stake :=
  match authorities c !! name with
  | Some x => MempoolAuthority.stake x
  | None => 0
  end.

Definition quorum_threshold (c : t) : Stake :=
  threshold_of
    (sum_stakes
       (map (fun kv => MempoolAuthority.stake kv.2) (map_to_list (authorities c)))).

Definition transactions_address (c : t) (name : PublicKey) : option SocketAddr :=
  match authorities c !! name with
  | Some x => Some (MempoolAuthority.transactions_address x)
  | None => None
  end.

Definition mempool_address (c : t) (name : PublicKey) : option SocketAddr :=
  match authorities c !! name with
  | Some x => Some (MempoolAuthority.mempool_address x)
  | None => None
  end.

Definition broadcast_addresses (c : t) (myself : PublicKey)
  : list (PublicKey * SocketAddr) :=
  map (fun kv => (kv.1, MempoolAuthority.mempool_address kv.2))
    (filter (fun kv => kv.1 <> myself) (map_to_list (authorities c))).

Definition signature_address (c : t) (name : PublicKey) : option SocketAddr :=
  match authorities c !! name with
  | Some x => Some (MempoolAuthority.signature_address x)
  | None => None
  end.

Definition broadcast_signature_addresses (c : t) (myself : PublicKey)
  : list SocketAddr :=
  map (fun kv => MempoolAuthority.signature_address kv.2)
    (filter (fun kv => kv.1 <> myself) (map_to_list (authorities c))).

End MempoolCommittee.

(** ** Arithmetic of the threshold *)

Section threshold.

Lemma sum_stakes_mod l a :
  foldl (fun acc x => u32 (acc + x)) (u32 a) l = u32 (a + zsum id l).
Proof.
  revert a. induction l as [|x l IH]; intros a; simpl; [f_equal; lia|].
  replace (u32 (u32 a + x)) with (u32 (a + x)).
  - rewrite IH. f_equal. unfold id. lia.
  - unfold u32. by rewrite Zplus_mod_idemp_l.
Qed.

Lemma sum_stakes_wrap l : sum_stakes l = u32 (zsum id l).
Proof. unfold sum_stakes. change 0 with (u32 0) at 1. by rewrite sum_stakes_mod. Qed.

Lemma threshold_of_small total :
  0 <= total < 2 ^ 31 -> threshold_of total = 2 * total / 3 + 1.
Proof.
  intros Ht. unfold threshold_of.
  rewrite (u32_id (2 * total)) by (unfold is_u32, u32_max; lia).
  apply u32_id. unfold is_u32, u32_max.
  assert (2 * total / 3 <= 2 * total) by (apply Z.div_le_upper_bound; lia).
  assert (0 <= 2 * total / 3) by (apply Z.div_pos; lia). lia.
Qed.

End threshold.

(** ** Quorum systems

    What the rest of the development uses of a committee: the stake of every
    member and the threshold computed from the stakes.  Both committees of the
    code are instances. *)

Class QuorumSystem (C : Type) := {
  qs_stakes : C -> gmap PublicKey Stake;
  qs_quorum : C -> Stake;
  qs_quorum_spec c :
    qs_quorum c = threshold_of (sum_stakes (map snd (map_to_list (qs_stakes c))))
}.

Lemma stakes_permutation {A} (f : A -> Stake) (m : gmap PublicKey A) :
  map snd (map_to_list (f <$> m)) ≡ₚ map (fun kv => f kv.2) (map_to_list m).
Proof.
  rewrite (map_to_list_fmap f m).
  induction (map_to_list m) as [|[k a] l IH]; simpl; [done|by rewrite IH].
Qed.

#[global, refine] Instance Committee_quorum : QuorumSystem Committee.t := {|
  qs_stakes c := Authority.stake <$> Committee.authorities c;
  qs_quorum := Committee.quorum_threshold
|}.
Proof.
  intros c. unfold Committee.quorum_threshold. f_equal.
  rewrite !sum_stakes_wrap. f_equal. apply zsum_perm. symmetry.
  apply stakes_permutation.
Defined.

#[global, refine] Instance MempoolCommittee_quorum
  : QuorumSystem MempoolCommittee.t := {|
  qs_stakes c := MempoolAuthority.stake <$> MempoolCommittee.authorities c;
  qs_quorum := MempoolCommittee.quorum_threshold
|}.
Proof.
  intros c. unfold MempoolCommittee.quorum_threshold. f_equal.
  rewrite !sum_stakes_wrap. f_equal. apply zsum_perm. symmetry.
  apply stakes_permutation.
Defined.

Section quorum_system.
Context `{QuorumSystem C}.
Implicit Types (c : C) (X Y : gset PublicKey).

Definition members c : gset PublicKey := dom (qs_stakes c).
Definition stake_of c (name : PublicKey) : Stake := default 0 (qs_stakes c !! name).
Definition weight c X : Z := weight_of (stake_of c) X.
Definition total_stake c : Z := zsum snd (map_to_list (qs_stakes c)).

(** Stakes are [u32] values whose doubled sum fits. *)
Definition well_formed c : Prop :=
  (forall name s, qs_stakes c !! name = Some s -> 0 <= s) /\
  0 < total_stake c < 2 ^ 31.

(** The largest stake [f] with [3 f < N]. *)
Definition max_faulty c : Z := (total_stake c - 1) / 3.

Lemma stake_of_nonneg c name : well_formed c -> 0 <= stake_of c name.
Proof.
  intros [Hs _]. unfold stake_of.
  destruct (qs_stakes c !! name) eqn:He; simpl; eauto. lia.
Qed.

Lemma stake_of_pos_member c name : 0 < stake_of c name -> name ∈ members c.
Proof.
  unfold stake_of, members. destruct (qs_stakes c !! name) eqn:He; simpl; [|lia].
  intros _. apply elem_of_dom. eauto.
Qed.

Lemma total_stake_weight c : total_stake c = weight c (members c).
Proof.
  unfold weight, weight_of, members, total_stake.
  assert (elements (dom (qs_stakes c)) ≡ₚ map fst (map_to_list (qs_stakes c))) as ->.
  { apply NoDup_Permutation; [apply NoDup_elements|apply NoDup_fst_map_to_list|].
    intros x. rewrite elem_of_elements, elem_of_dom, list_elem_of_fmap.
    split.
    - intros [s Hs]. exists (x, s). by rewrite elem_of_map_to_list.
    - intros [[y s] [-> Hy%elem_of_map_to_list]]. by exists s. }
  rewrite zsum_map. apply zsum_ext. intros [x s] Hx%elem_of_map_to_list.
  unfold compose, stake_of. simpl. by rewrite Hx.
Qed.

Lemma quorum_value c : well_formed c -> qs_quorum c = 2 * total_stake c / 3 + 1.
Proof.
  intros [_ Ht]. rewrite qs_quorum_spec, sum_stakes_wrap.
  replace (zsum id (map snd (map_to_list (qs_stakes c)))) with (total_stake c)
    by (rewrite zsum_map; done).
  rewrite u32_id by (unfold is_u32, u32_max; lia).
  apply threshold_of_small. lia.
Qed.

Lemma quorum_pos c : well_formed c -> 0 < qs_quorum c.
Proof.
  intros Hc. rewrite (quorum_value c Hc). destruct Hc as [_ Ht].
  assert (0 <= 2 * total_stake c / 3) by (apply Z.div_pos; lia). lia.
Qed.

Lemma weight_le_total c X : well_formed c -> X ⊆ members c -> weight c X <= total_stake c.
Proof.
  intros Hc HX. rewrite total_stake_weight. apply weight_of_mono; [|done].
  intros. by apply stake_of_nonneg.
Qed.

Lemma quorum_overlap c X Y :
  well_formed c -> X ⊆ members c -> Y ⊆ members c ->
  qs_quorum c <= weight c X -> qs_quorum c <= weight c Y ->
  max_faulty c < weight c (X ∩ Y).
Proof.
  intros Hc HX HY HqX HqY.
  pose proof (weight_of_inter (stake_of c)
    (fun n => stake_of_nonneg c n Hc) X Y (members c) HX HY) as Hi.
  fold (weight c X) (weight c Y) (weight c (members c)) (weight c (X ∩ Y)) in Hi.
  rewrite <- total_stake_weight in Hi. rewrite (quorum_value c Hc) in *.
  unfold max_faulty. destruct Hc as [_ Ht].
  pose proof (Z.div_mod (2 * total_stake c) 3 ltac:(lia)).
  pose proof (Z.mod_pos_bound (2 * total_stake c) 3 ltac:(lia)).
  pose proof (Z.div_mod (total_stake c - 1) 3 ltac:(lia)).
  pose proof (Z.mod_pos_bound (total_stake c - 1) 3 ltac:(lia)). lia.
Qed.

(** Two quorums share a member outside any set of at most [f] stake. *)
Lemma quorum_common_honest c X Y byz :
  well_formed c -> X ⊆ members c -> Y ⊆ members c ->
  weight c byz <= max_faulty c ->
  qs_quorum c <= weight c X -> qs_quorum c <= weight c Y ->
  exists name, name ∈ X /\ name ∈ Y /\ name ∉ byz.
Proof.
  intros Hc HX HY Hb HqX HqY.
  pose proof (quorum_overlap c X Y Hc HX HY HqX HqY) as Ho.
  destruct (weight_of_outside (stake_of c) (fun n => stake_of_nonneg c n Hc)
    (X ∩ Y) byz) as [n Hn]; [unfold weight in *; lia|].
  exists n. set_solver.
Qed.

End quorum_system.

#[export] Hint Resolve stake_of_nonneg quorum_pos : dvf.

(** ** The threshold of the consensus committee *)

Lemma Committee_stake_of c name : stake_of c name = Committee.stake c name.
Proof.
  unfold stake_of, Committee.stake. simpl. rewrite lookup_fmap.
  by destruct (Committee.authorities c !! name).
Qed.

Lemma Committee_quorum_value (c : Committee.t) :
  well_formed c -> Committee.quorum_threshold c = 2 * total_stake c / 3 + 1.
Proof. exact (quorum_value c). Qed.

Lemma Committee_quorum_pos (c : Committee.t) :
  well_formed c -> 0 < Committee.quorum_threshold c.
Proof. exact (quorum_pos c). Qed.

(** C30: [quorum_threshold] of a committee whose doubled stake fits in a [u32] is
    [N - f] with [f = (N - 1) / 3], the formula of the comment in the code: the
    honest stake alone reaches it and any two quorums overlap in more than [f]
    stake. *)
Theorem quorum_threshold_is_N_minus_f (c : Committee.t) :
  well_formed c ->
  Committee.quorum_threshold c = total_stake c - max_faulty c /\
  (forall X Y, X ⊆ members c -> Y ⊆ members c ->
     Committee.quorum_threshold c <= weight c X ->
     Committee.quorum_threshold c <= weight c Y ->
     max_faulty c < weight c (X ∩ Y)).
Proof.
  intros Hc. split; [|intros; by apply (quorum_overlap c)].
  change (Committee.quorum_threshold c) with (qs_quorum c).
  rewrite (quorum_value c Hc). unfold max_faulty.
  pose proof (Z.div_mod (2 * total_stake c) 3 ltac:(lia)).
  pose proof (Z.mod_pos_bound (2 * total_stake c) 3 ltac:(lia)).
  pose proof (Z.div_mod (total_stake c - 1) 3 ltac:(lia)).
  pose proof (Z.mod_pos_bound (total_stake c - 1) 3 ltac:(lia)). lia.
Qed.

(** Four operators of stake one, as [OperatorCommittee] builds them. *)
Definition demo_committee : Committee.t :=
  Committee.new [(11, 1, mkSocketAddr 1 1); (12, 1, mkSocketAddr 2 1);
                 (13, 1, mkSocketAddr 3 1); (14, 1, mkSocketAddr 4 1)] 1.

Lemma demo_committee_well_formed : well_formed demo_committee.
Proof.
  split; [|vm_compute; done].
  intros name s Hs.
  assert (map_Forall (fun _ s => 0 <= s) (qs_stakes demo_committee)) as Hf
    by (apply map_Forall_to_list; vm_compute; repeat constructor; discriminate).
  exact (Hf name s Hs).
Qed.

Lemma quorum_threshold_is_N_minus_f_witness :
  Committee.quorum_threshold demo_committee = 4 - 1.
Proof.
  destruct (quorum_threshold_is_N_minus_f demo_committee
    demo_committee_well_formed) as [H _]. exact H.
Defined.

(** ** The leader schedule *)

Section leader.
Implicit Types c : Committee.t.

Lemma get_leader_lookup c round name :
  RRLeaderElector.get_leader c round = Some name ->
  sorted_keys (Committee.authorities c) !! Z.to_nat (round mod Committee.size c) = Some name.
Proof. unfold RRLeaderElector.get_leader, RRLeaderElector.pick. by case_match. Qed.

Lemma get_leader_member c round name :
  RRLeaderElector.get_leader c round = Some name ->
  is_Some (Committee.authorities c !! name).
Proof.
  intros Hl%get_leader_lookup%list_elem_of_lookup_2.
  by apply elem_of_sorted_keys.
Qed.

Lemma get_leader_total c round :
  Committee.size c <> 0 ->
  exists name, RRLeaderElector.get_leader c round = Some name.
Proof.
  intros Hs. unfold RRLeaderElector.get_leader, RRLeaderElector.pick.
  case_match eqn:Hz; [lia|].
  apply lookup_lt_is_Some_2. fold (sorted_keys (Committee.authorities c)). rewrite sorted_keys_length.
  assert (0 < Committee.size c) as Hpos by (unfold Committee.size in *; lia).
  pose proof (Z.mod_pos_bound round _ Hpos). unfold Committee.size in *. lia.
Qed.

(** The order in which the [HashMap] yields its keys does not matter: every
    node computes the same leader. *)
Lemma pick_order_irrelevant keys keys' size round :
  keys ≡ₚ keys' ->
  RRLeaderElector.pick keys size round = RRLeaderElector.pick keys' size round.
Proof.
  intros Hp. unfold RRLeaderElector.pick. case_match; [done|]. f_equal.
  apply (Sorted_unique Z.le); try apply Sorted_merge_sort; try apply _.
  by rewrite !merge_sort_Permutation.
Qed.

(** The leader is a member of the committee, the order in which the
    [HashMap] yields its keys has no influence on it, and in any [size]
    consecutive rounds every member is the leader of exactly one. *)
Theorem leader_round_robin c round name (keys : list PublicKey) :
  0 <= round -> name ∈ members c ->
  keys ≡ₚ map fst (map_to_list (Committee.authorities c)) ->
  (forall r, RRLeaderElector.pick keys (Committee.size c) r
             = RRLeaderElector.get_leader c r) /\
  (forall r l, RRLeaderElector.get_leader c r = Some l -> l ∈ members c) /\
  exists! r, round <= r < round + Committee.size c /\
             RRLeaderElector.get_leader c r = Some name.
Proof.
  intros Hr Hm Hk. split; [|split].
  { intros r. by apply pick_order_irrelevant. }
  { intros r l Hl%get_leader_member. unfold members. simpl.
    rewrite dom_fmap. by apply elem_of_dom. }
  unfold members in Hm. simpl in Hm. rewrite dom_fmap in Hm.
  apply elem_of_dom, elem_of_sorted_keys in Hm.
  unfold RRLeaderElector.get_leader, RRLeaderElector.pick. fold (sorted_keys (Committee.authorities c)).
  unfold Committee.size. rewrite <- (sorted_keys_length (Committee.authorities c)).
  assert ((Z.of_nat (length (sorted_keys (Committee.authorities c))) =? 0) = false) as ->.
  { destruct (sorted_keys (Committee.authorities c)); [by apply elem_of_nil in Hm|simpl; lia]. }
  by apply rotation_unique; [apply sorted_keys_NoDup|].
Qed.

End leader.

Lemma leader_round_robin_witness :
  exists! r, 7 <= r < 7 + Committee.size demo_committee /\
             RRLeaderElector.get_leader demo_committee r = Some 13.
Proof.
  apply (leader_round_robin demo_committee 7 13
    (map fst (map_to_list (Committee.authorities demo_committee)))).
  - lia.
  - unfold members. apply elem_of_dom. vm_compute. eauto.
  - reflexivity.
Defined.
