(* ===== verification/Messages.v ===== *)
(** * Digests, signatures and the messages of the consensus

    Models [hotstuff/crypto/src/lib.rs] (digests, ECDSA verification, the batch
    check, the signature service), [hotstuff/consensus/src/messages.rs] and the
    error type of [hotstuff/consensus/src/error.rs].  SHA-512 and secp256k1 are
    not part of the sources: they are the fields of the class [Crypto], and what
    the protocol relies on is stated as named hypotheses where it is used. *)

From S2P Require Import Prelude Committee Store.

(** ** Digests and signatures *)

(** [crypto::Digest]: 32 bytes, as the big-endian number. *)
Abbreviation Digest := Z (only parsing).
Definition Digest_default : Digest := 0.

(** [crypto::Signature]: the two halves of a compact ECDSA signature. *)
Record Signature := mkSignature { part1 : Z; part2 : Z }.
#[global] Instance Signature_eq_dec : EqDecision Signature.
Proof. solve_decision. Defined.
Definition Signature_default : Signature := mkSignature 0 0.

(** What the messages feed to [Sha512::update]: a public key, a digest or the
    little-endian bytes of a [u64]. *)
Inductive chunk : Type :=
| CKey (k : PublicKey)
| CDigest (d : Digest)
| CU64 (n : Z).
#[global] Instance chunk_eq_dec : EqDecision chunk.
Proof. solve_decision. Defined.

(** Little-endian and big-endian bytes of a number, [n] bytes wide. *)
Fixpoint le_bytes (n : nat) (x : Z) : list Z :=
  match n with
  | O => []
  | S n => x mod 256 :: le_bytes n (x / 256)
  end.
Definition be_bytes (n : nat) (x : Z) : list Z := rev (le_bytes n x).

(** The bytes of one [update] call. *)
Definition chunk_bytes (x : chunk) : list Z :=
  match x with
  | CKey k => be_bytes 33 k
  | CDigest d => be_bytes 32 d
  | CU64 n => le_bytes 8 n
  end.

(** The input the hash sees. *)
Definition transcript_bytes (t : list chunk) : list Z := concat (map chunk_bytes t).

(** The errors of [secp256k1] that reach the consensus. *)
Inductive CryptoError : Type :=
| IncorrectSignature
| InvalidSignatureEncoding
| InvalidPublicKey.

(** The primitives: the first 32 bytes of SHA-512 over a sequence of updates,
    the parsers of compact signatures and keys, ECDSA verification, and the
    signature under the secret key that belongs to a public key. *)
Class Crypto := {
  sha512_32 : list chunk -> Digest;
  from_compact : Signature -> bool;
  key_from_slice : PublicKey -> bool;
  verify_ecdsa : Digest -> Signature -> PublicKey -> bool;
  sign_ecdsa : PublicKey -> Digest -> Signature
}.

(** ECDSA correctness: what the holder of a valid key signs, verifies. *)
Definition signing_correct `{Crypto} : Prop :=
  forall pk d, key_from_slice pk = true ->
    from_compact (sign_ecdsa pk d) = true /\ verify_ecdsa d (sign_ecdsa pk d) pk = true.

(** Collision resistance, idealised. *)
Definition collision_free `{Crypto} : Prop :=
  forall t1 t2, sha512_32 t1 = sha512_32 t2 -> t1 = t2.

Module Signature.
Section with_crypto.
Context `{Crypto}.

(** [Signature::verify]: malformed input panics, a wrong signature is an error. *)
Definition verify (s : Signature) (digest : Digest) (public_key : PublicKey)
  : outcome CryptoError () :=
  if negb (from_compact s) then Panic "compact signatures are 64 bytes"
  else if negb (key_from_slice public_key) then Panic "public keys must be 33 bytes"
  else if verify_ecdsa digest s public_key then Ok ()
  else Err IncorrectSignature.

(** [Signature::verify_batch]: one signature after the other, errors only. *)
Fixpoint verify_batch (digest : Digest) (votes : list (PublicKey * Signature))
  : outcome CryptoError () :=
  match votes with
  | [] => Ok ()
  | (key, sig) :: votes =>
      if negb (from_compact sig) then Err InvalidSignatureEncoding
      else if negb (key_from_slice key) then Err InvalidPublicKey
      else if verify_ecdsa digest sig key then verify_batch digest votes
      else Err IncorrectSignature
  end.

(** [SignatureService::request_signature] of the node that owns [name]. *)
Definition request_signature (name : PublicKey) (digest : Digest) : Signature :=
  sign_ecdsa name digest.

End with_crypto.
End Signature.

(** A signature of [pk] on [d] that passes every check. *)
Definition valid_sig `{Crypto} (pk : PublicKey) (d : Digest) (s : Signature) : bool :=
  from_compact s && key_from_slice pk && verify_ecdsa d s pk.

(** ** Messages *)

Module QC.

Record t := mk {
  hash : Digest;
  round : Round;
  payload_size : Z;
  votes : list (PublicKey * Signature)
}.

Definition genesis : t := mk Digest_default 0 0 [].

(** [PartialEq for QC]. *)
Definition eqb (a b : t) : bool := (hash a =? hash b) && (round a =? round b).

Definition timeout (qc : t) : bool :=
  (hash qc =? Digest_default) && negb (round qc =? 0).

Definition transcript (qc : t) : list chunk :=
  [CDigest (hash qc); CU64 (round qc); CU64 (payload_size qc)].
Definition digest `{Crypto} (qc : t) : Digest := sha512_32 (transcript qc).

End QC.

Module TC.

Record t := mk {
  round : Round;
  votes : list (PublicKey * Signature * Round * Round)
}.

Definition default : t := mk 0 [].

(** [PartialEq for TC]. *)
Definition eqb (a b : t) : bool := round a =? round b.

Definition high_qc_rounds (tc : t) : list Round :=
  map (fun '(_, _, r, _) => r) (votes tc).

(** The digest that the author of an entry signed. *)
Definition vote_transcript (round high_qc_round high_tc_round : Round) : list chunk :=
  [CU64 round; CU64 high_qc_round; CU64 high_tc_round].

End TC.

Module Block.

Record t := mk {
  qc : QC.t;
  tc : option TC.t;
  author : PublicKey;
  round : Round;
  payload : list Digest;
  signature : Signature
}.

Definition genesis : t := mk QC.genesis None 0 0 [] Signature_default.

Definition parent (b : t) : Digest := QC.hash (qc b).

(** [PartialEq for Block]. *)
Definition eqb (a b : t) : bool :=
  QC.eqb (qc a) (qc b) && (author a =? author b) && (round a =? round b)
  && bool_decide (payload a = payload b).

Definition transcript (b : t) : list chunk :=
  CKey (author b) :: CU64 (round b) :: map CDigest (payload b) ++ [CDigest (QC.hash (qc b))].
Definition digest `{Crypto} (b : t) : Digest := sha512_32 (transcript b).

Definition new `{Crypto} (qc : QC.t) (tc : option TC.t) (author : PublicKey)
  (round : Round) (payload : list Digest) : t :=
  let block := mk qc tc author round payload Signature_default in
  mk qc tc author round payload (Signature.request_signature author (digest block)).

End Block.

Module Vote.

Record t := mk {
  hash : Digest;
  round : Round;
  payload_size : Z;
  author : PublicKey;
  signature : Signature
}.

Definition transcript (v : t) : list chunk :=
  [CDigest (hash v); CU64 (round v); CU64 (payload_size v)].
Definition digest `{Crypto} (v : t) : Digest := sha512_32 (transcript v).

Definition new `{Crypto} (block : Block.t) (author : PublicKey) : t :=
  let vote := mk (Block.digest block) (Block.round block)
                 (u64 (Z.of_nat (length (Block.payload block)))) author
                 Signature_default in
  mk (hash vote) (round vote) (payload_size vote) author
     (Signature.request_signature author (digest vote)).

End Vote.

Module Timeout.

Record t := mk {
  high_qc : QC.t;
  high_tc : TC.t;
  round : Round;
  author : PublicKey;
  signature : Signature
}.

Definition transcript (x : t) : list chunk :=
  [CU64 (round x); CU64 (QC.round (high_qc x)); CU64 (TC.round (high_tc x))].
Definition digest `{Crypto} (x : t) : Digest := sha512_32 (transcript x).

Definition new `{Crypto} (high_qc : QC.t) (high_tc : TC.t) (round : Round)
  (author : PublicKey) : t :=
  let timeout := mk high_qc high_tc round author Signature_default in
  mk high_qc high_tc round author
     (Signature.request_signature author (digest timeout)).

End Timeout.

(** [consensus::ConsensusMessage]. *)
Inductive ConsensusMessage : Type :=
| Propose (b : Block.t)
| VoteMsg (v : Vote.t)
| TimeoutMsg (x : Timeout.t)
| TCMsg (tc : TC.t)
| SyncRequest (missing : Digest) (origin : PublicKey).

(** ** Errors *)

Inductive ConsensusError : Type :=
| NetworkError
| SerializationError
| StoreErr (e : StoreError)
| NotInCommittee (name : PublicKey)
| InvalidSignature (e : CryptoError)
| AuthorityReuse (digest : Digest) (author : PublicKey) (round : Round) (t : string)
| UnknownAuthority (name : PublicKey)
| QCRequiresQuorum
| TCRequiresQuorum
| MalformedBlock (digest : Digest)
| WrongLeader (digest : Digest) (leader : PublicKey) (round : Round)
| InvalidPayload
| StoreReadTimeout (wait_on : Digest) (deliver : Block.t).

(** [?] on a [Result<_, CryptoError>]: [#[from] CryptoError]. *)
Definition from_crypto {A} (r : outcome CryptoError A) : outcome ConsensusError A :=
  match r with
  | Ok a => Ok a
  | Err e => Err (InvalidSignature e)
  | Panic msg => Panic msg
  | Diverged => Diverged
  end.

(** ** Verification *)

Section verify.
Context `{Crypto}.
Implicit Types c : Committee.t.

(** The loop of [QC::verify] and [TC::verify] over the names of the votes. *)
Fixpoint tally c (reuse : PublicKey -> ConsensusError) (names : list PublicKey)
  (used : gset PublicKey) (weight : Stake) : outcome ConsensusError Stake :=
  match names with
  | [] => Ok weight
  | name :: names =>
      ensure (negb (bool_decide (name ∈ used))) (reuse name) ≫= fun _ =>
      let voting_rights := Committee.stake c name in
      ensure (0 <? voting_rights) (UnknownAuthority name) ≫= fun _ =>
      tally c reuse names ({[name]} ∪ used) (u32 (weight + voting_rights))
  end.

Definition QC_verify c (qc : QC.t) : outcome ConsensusError () :=
  tally c (fun name => AuthorityReuse (QC.hash qc) name (QC.round qc) "QC-verify")
    (map fst (QC.votes qc)) ∅ 0 ≫= fun weight =>
  ensure (Committee.quorum_threshold c <=? weight) QCRequiresQuorum ≫= fun _ =>
  from_crypto (Signature.verify_batch (QC.digest qc) (QC.votes qc)).

Fixpoint TC_verify_signatures (round : Round)
  (votes : list (PublicKey * Signature * Round * Round)) : outcome ConsensusError () :=
  match votes with
  | [] => Ok ()
  | (author, signature, high_qc_round, high_tc_round) :: votes =>
      let digest := sha512_32 (TC.vote_transcript round high_qc_round high_tc_round) in
      from_crypto (Signature.verify signature digest author) ≫= fun _ =>
      TC_verify_signatures round votes
  end.

Definition TC_verify c (tc : TC.t) : outcome ConsensusError () :=
  tally c (fun name => AuthorityReuse Digest_default name (TC.round tc) "TC-verify")
    (map (fun '(name, _, _, _) => name) (TC.votes tc)) ∅ 0 ≫= fun weight =>
  ensure (Committee.quorum_threshold c <=? weight) TCRequiresQuorum ≫= fun _ =>
  TC_verify_signatures (TC.round tc) (TC.votes tc).

Definition Block_verify c (b : Block.t) : outcome ConsensusError () :=
  ensure (0 <? Committee.stake c (Block.author b))
    (UnknownAuthority (Block.author b)) ≫= fun _ =>
  from_crypto (Signature.verify (Block.signature b) (Block.digest b) (Block.author b))
    ≫= fun _ =>
  (if QC.eqb (Block.qc b) QC.genesis then Ok () else QC_verify c (Block.qc b))
    ≫= fun _ =>
  match Block.tc b with
  | Some tc => TC_verify c tc
  | None => Ok ()
  end.

Definition Vote_verify c (v : Vote.t) : outcome ConsensusError () :=
  ensure (0 <? Committee.stake c (Vote.author v))
    (UnknownAuthority (Vote.author v)) ≫= fun _ =>
  from_crypto (Signature.verify (Vote.signature v) (Vote.digest v) (Vote.author v)).

Definition Timeout_verify c (x : Timeout.t) : outcome ConsensusError () :=
  ensure (0 <? Committee.stake c (Timeout.author x))
    (UnknownAuthority (Timeout.author x)) ≫= fun _ =>
  from_crypto (Signature.verify (Timeout.signature x) (Timeout.digest x)
    (Timeout.author x)) ≫= fun _ =>
  (if QC.eqb (Timeout.high_qc x) QC.genesis then Ok ()
   else QC_verify c (Timeout.high_qc x)) ≫= fun _ =>
  (if TC.eqb (Timeout.high_tc x) TC.default then Ok ()
   else TC_verify c (Timeout.high_tc x)).

End verify.

(** ** The hashed bytes are unambiguous *)

Section transcripts.

Definition chunk_in_range (x : chunk) : Prop :=
  match x with
  | CKey k => 0 <= k < 256 ^ 33
  | CDigest d => 0 <= d < 256 ^ 32
  | CU64 n => 0 <= n < 256 ^ 8
  end.

Definition same_shape (x y : chunk) : bool :=
  match x, y with
  | CKey _, CKey _ | CDigest _, CDigest _ | CU64 _, CU64 _ => true
  | _, _ => false
  end.

(** What a node hashes in order to sign or to name a block. *)
Inductive hashed : list chunk -> Prop :=
| hashed_block b : hashed (Block.transcript b)
| hashed_vote v : hashed (Vote.transcript v)
| hashed_timeout x : hashed (Timeout.transcript x).

Lemma le_bytes_length n x : length (le_bytes n x) = n.
Proof. revert x. induction n; intros x; simpl; auto. Qed.

Lemma le_bytes_inj n x y :
  0 <= x < 256 ^ Z.of_nat n -> 0 <= y < 256 ^ Z.of_nat n ->
  le_bytes n x = le_bytes n y -> x = y.
Proof.
  revert x y. induction n as [|n IH]; intros x y Hx Hy He.
  - simpl in *. lia.
  - cbn [le_bytes] in He. injection He as Hm Hd.
    rewrite Nat2Z.inj_succ, Z.pow_succ_r in Hx, Hy by lia.
    assert (x / 256 = y / 256).
    { apply IH; [| |done]; split;
        first [apply Z.div_pos; lia | apply Z.div_lt_upper_bound; lia]. }
    rewrite (Z.div_mod x 256), (Z.div_mod y 256) by lia. lia.
Qed.

Lemma chunk_bytes_inj x y :
  same_shape x y = true -> chunk_in_range x -> chunk_in_range y ->
  chunk_bytes x = chunk_bytes y -> x = y.
Proof.
  destruct x, y; simpl; try done; intros _ Hx Hy He; f_equal;
    unfold be_bytes in He; try apply rev_inj in He.
  - by apply (le_bytes_inj 33).
  - by apply (le_bytes_inj 32).
  - by apply (le_bytes_inj 8).
Qed.

Lemma chunk_bytes_shape x y :
  same_shape x y = true -> length (chunk_bytes x) = length (chunk_bytes y).
Proof.
  destruct x, y; try done; intros _; unfold chunk_bytes, be_bytes;
    by rewrite ?length_rev, !le_bytes_length.
Qed.

Lemma transcript_bytes_inj t1 t2 :
  Forall2 (fun x y => same_shape x y = true) t1 t2 ->
  Forall chunk_in_range t1 -> Forall chunk_in_range t2 ->
  transcript_bytes t1 = transcript_bytes t2 -> t1 = t2.
Proof.
  unfold transcript_bytes. intros Hs. induction Hs as [|x y t1 t2 Hxy _ IH]; [done|].
  intros [Hx Ht1]%Forall_cons_1 [Hy Ht2]%Forall_cons_1 He. simpl in He.
  apply app_inj_1 in He as [He1 He2]; [|by apply chunk_bytes_shape].
  f_equal; [by apply chunk_bytes_inj|by apply IH].
Qed.

Lemma transcript_bytes_length t :
  length (transcript_bytes t) = sum_list_with (fun x => length (chunk_bytes x)) t.
Proof.
  unfold transcript_bytes. induction t as [|x t IH]; [done|].
  simpl. by rewrite length_app, IH.
Qed.

Lemma chunk_length x :
  length (chunk_bytes x) =
  match x with CKey _ => 33 | CDigest _ => 32 | CU64 _ => 8 end%nat.
Proof. destruct x; unfold chunk_bytes, be_bytes; by rewrite ?length_rev, le_bytes_length. Qed.

Lemma block_bytes_length b :
  length (transcript_bytes (Block.transcript b)) = (73 + 32 * length (Block.payload b))%nat.
Proof.
  rewrite transcript_bytes_length. unfold Block.transcript. cbn [sum_list_with].
  rewrite !chunk_length, sum_list_with_app. cbn [sum_list_with].
  rewrite chunk_length. assert (sum_list_with (fun x => length (chunk_bytes x))
    (map CDigest (Block.payload b)) = 32 * length (Block.payload b))%nat as ->; [|lia].
  induction (Block.payload b) as [|d l IH]; [done|].
  cbn [map sum_list_with length]. rewrite IH, chunk_length. lia.
Qed.

Lemma block_same_shape b b' :
  length (Block.payload b) = length (Block.payload b') ->
  Forall2 (fun x y => same_shape x y = true) (Block.transcript b) (Block.transcript b').
Proof.
  intros Hl. unfold Block.transcript. repeat (constructor; [done|]).
  apply Forall2_app; [|by repeat constructor].
  apply Forall2_fmap, Forall2_same_length_lookup_2; [done|]. done.
Qed.

(** C31: the bytes that blocks, votes (and so quorum certificates) and timeouts
    feed to SHA-512 determine the hashed fields, and two messages of different
    kinds never feed the same bytes: the three formats have no tag, but their
    lengths are [73 + 32 n], 48 and 24 bytes. *)
Theorem hashed_bytes_unambiguous t1 t2 :
  hashed t1 -> hashed t2 ->
  Forall chunk_in_range t1 -> Forall chunk_in_range t2 ->
  transcript_bytes t1 = transcript_bytes t2 -> t1 = t2.
Proof.
  intros H1 H2 Hr1 Hr2 He. apply transcript_bytes_inj; [|done..].
  apply (f_equal length) in He.
  destruct H1 as [b|v|x], H2 as [b'|v'|x'];
    rewrite ?block_bytes_length in He; try (by repeat constructor);
    try (rewrite !transcript_bytes_length in He; cbn in He; lia).
  apply block_same_shape. lia.
Qed.

End transcripts.

Lemma hashed_bytes_unambiguous_witness :
  Vote.transcript (Vote.mk 5 7 1 11 Signature_default)
  = QC.transcript (QC.mk 5 7 1 []).
Proof.
  apply hashed_bytes_unambiguous.
  - apply hashed_vote.
  - apply (hashed_vote (Vote.mk 5 7 1 12 Signature_default)).
  - repeat constructor; vm_compute; done.
  - repeat constructor; vm_compute; done.
  - reflexivity.
Defined.

(** ** What a verified certificate contains *)

Section certificates.
Context `{Crypto}.
Implicit Types c : Committee.t.

(** The names of a certificate: distinct members whose stake is a quorum. *)
Definition quorum_names c (names : list PublicKey) : Prop :=
  NoDup names /\ (forall n, n ∈ names -> 0 < Committee.stake c n) /\
  Committee.quorum_threshold c <= weight c (list_to_set names).

Lemma ensure_ok {E A} b (e : E) (k : () -> outcome E A) (a : A) :
  (ensure b e ≫= k) = Ok a <-> b = true /\ k () = Ok a.
Proof. destruct b; simpl; naive_solver. Qed.

Lemma outcome_bind_ok {E A B} (m : outcome E A) (k : A -> outcome E B) b :
  (m ≫= k) = Ok b <-> exists a, m = Ok a /\ k a = Ok b.
Proof. destruct m; simpl; naive_solver. Qed.

Lemma outcome_seq_ok {E B} (m : outcome E ()) (k : () -> outcome E B) b :
  (m ≫= k) = Ok b <-> m = Ok () /\ k () = Ok b.
Proof. destruct m as [[]| | |]; simpl; naive_solver. Qed.

Lemma tally_ok c reuse names used w w' :
  tally c reuse names used w = Ok w' <->
  NoDup names /\ (forall n, n ∈ names -> n ∉ used /\ 0 < Committee.stake c n) /\
  w' = foldl (fun acc n => u32 (acc + Committee.stake c n)) w names.
Proof.
  revert used w. induction names as [|n names IH]; intros used w; simpl.
  - split; [|naive_solver]. intros [= ->]. split; [constructor|].
    split; [|done]. intros n Hn. set_solver.
  - rewrite !ensure_ok, negb_true_iff, bool_decide_eq_false, Z.ltb_lt, IH, NoDup_cons.
    set_solver.
Qed.

Lemma names_weight c names :
  well_formed c -> NoDup names -> (forall n, n ∈ names -> 0 < Committee.stake c n) ->
  foldl (fun acc n => u32 (acc + Committee.stake c n)) 0 names
  = weight c (list_to_set names).
Proof.
  intros Hc Hnd Hpos.
  assert (forall l w, foldl (fun acc n => u32 (acc + Committee.stake c n)) (u32 w) l
    = u32 (w + zsum (stake_of c) l)) as Hf.
  { induction l as [|n l IH]; intros w; simpl; [f_equal; lia|].
    rewrite <- Committee_stake_of.
    replace (u32 (u32 w + stake_of c n)) with (u32 (w + stake_of c n))
      by (unfold u32; by rewrite Zplus_mod_idemp_l).
    rewrite IH. f_equal. lia. }
  change 0 with (u32 0) at 1. rewrite Hf. unfold weight.
  rewrite (weight_of_list (stake_of c) names Hnd). simpl.
  assert (weight c (list_to_set names) <= total_stake c) as Hle.
  { apply weight_le_total; [done|]. intros n Hn%elem_of_list_to_set.
    apply stake_of_pos_member. rewrite Committee_stake_of. auto. }
  unfold weight in Hle. rewrite (weight_of_list (stake_of c) names Hnd) in Hle.
  destruct Hc as [Hs Ht]. apply u32_id. unfold is_u32, u32_max. split; [|lia].
  apply zsum_nonneg. intros n Hn. rewrite Committee_stake_of. specialize (Hpos n Hn). lia.
Qed.

Lemma verify_batch_ok d votes :
  Signature.verify_batch d votes = Ok () <->
  forall pk s, (pk, s) ∈ votes -> valid_sig pk d s = true.
Proof.
  unfold valid_sig. induction votes as [|[k s] votes IH]; simpl.
  - split; [|done]. intros _ pk s Hin. set_solver.
  - destruct (from_compact s) eqn:E1, (key_from_slice k) eqn:E2,
      (verify_ecdsa d s k) eqn:E3; simpl;
      try (split; [discriminate|]; intros Hall;
           specialize (Hall k s ltac:(set_solver)); rewrite E1, E2, ?E3 in Hall;
           discriminate).
    rewrite IH. split.
    + intros Hall pk s' [[= -> ->]|Hin]%elem_of_cons; [|auto].
      by rewrite E1, E2, E3.
    + intros Hall pk s' Hin. apply Hall. set_solver.
Qed.

Lemma sig_verify_ok s d pk :
  Signature.verify s d pk = Ok () <-> valid_sig pk d s = true.
Proof.
  unfold Signature.verify, valid_sig.
  destruct (from_compact s), (key_from_slice pk), (verify_ecdsa d s pk); simpl; naive_solver.
Qed.

Lemma from_crypto_ok {A} (r : outcome CryptoError A) a :
  from_crypto r = Ok a <-> r = Ok a.
Proof. destruct r; simpl; naive_solver. Qed.

Lemma quorum_names_tally c reuse names :
  well_formed c ->
  (exists w, tally c reuse names ∅ 0 = Ok w /\ Committee.quorum_threshold c <= w)
  <-> quorum_names c names.
Proof.
  intros Hc. unfold quorum_names. split.
  - intros (w & Ht & Hq). apply tally_ok in Ht as (Hnd & Hn & ->).
    rewrite names_weight in Hq; naive_solver.
  - intros (Hnd & Hpos & Hq). rewrite <- (names_weight c names Hc Hnd Hpos) in Hq.
    eexists. split; [|exact Hq]. apply tally_ok. set_solver.
Qed.

Lemma TC_verify_signatures_ok r votes :
  TC_verify_signatures r votes = Ok () <->
  forall pk s q t, (pk, s, q, t) ∈ votes ->
    valid_sig pk (sha512_32 (TC.vote_transcript r q t)) s = true.
Proof.
  induction votes as [|[[[pk s] q] t] votes IH]; simpl.
  - split; [|done]. intros _ ???? Hin. set_solver.
  - rewrite outcome_seq_ok, from_crypto_ok, sig_verify_ok. split.
    + intros [Hs Hr]. rewrite IH in Hr.
      intros pk' s' q' t' [[= -> -> -> ->]|Hin]%elem_of_cons; auto.
    + intros Hall. rewrite IH. split.
      * apply Hall. set_solver.
      * intros pk' s' q' t' Hin. apply Hall. set_solver.
Qed.

Definition TC_names (tc : TC.t) : list PublicKey :=
  map (fun '(name, _, _, _) => name) (TC.votes tc).

Definition QC_valid c (qc : QC.t) : Prop :=
  quorum_names c (map fst (QC.votes qc)) /\
  forall pk s, (pk, s) ∈ QC.votes qc -> valid_sig pk (QC.digest qc) s = true.

Definition TC_valid c (tc : TC.t) : Prop :=
  quorum_names c (TC_names tc) /\
  forall pk s q t, (pk, s, q, t) ∈ TC.votes tc ->
    valid_sig pk (sha512_32 (TC.vote_transcript (TC.round tc) q t)) s = true.

Lemma QC_verify_ok c qc : well_formed c -> QC_verify c qc = Ok () <-> QC_valid c qc.
Proof.
  intros Hc. unfold QC_verify, QC_valid.
  rewrite <- (quorum_names_tally c (fun name =>
    AuthorityReuse (QC.hash qc) name (QC.round qc) "QC-verify")), outcome_bind_ok by done.
  setoid_rewrite ensure_ok. setoid_rewrite Z.leb_le.
  rewrite <- verify_batch_ok. setoid_rewrite from_crypto_ok. naive_solver.
Qed.

Lemma TC_verify_ok c tc : well_formed c -> TC_verify c tc = Ok () <-> TC_valid c tc.
Proof.
  intros Hc. unfold TC_verify, TC_valid, TC_names.
  rewrite <- (quorum_names_tally c (fun name =>
    AuthorityReuse Digest_default name (TC.round tc) "TC-verify")), outcome_bind_ok by done.
  setoid_rewrite ensure_ok. setoid_rewrite Z.leb_le.
  rewrite <- TC_verify_signatures_ok. naive_solver.
Qed.

(** The QC of a proposal or a timeout: genesis or a verified certificate. *)
Definition QC_accepted c (qc : QC.t) : Prop :=
  QC.eqb qc QC.genesis = true \/ QC_valid c qc.

Lemma Block_verify_ok c b :
  well_formed c ->
  Block_verify c b = Ok () <->
  0 < Committee.stake c (Block.author b) /\
  valid_sig (Block.author b) (Block.digest b) (Block.signature b) = true /\
  QC_accepted c (Block.qc b) /\
  (forall tc, Block.tc b = Some tc -> TC_valid c tc).
Proof.
  intros Hc. unfold Block_verify, QC_accepted.
  rewrite ensure_ok, Z.ltb_lt, !outcome_seq_ok, from_crypto_ok, sig_verify_ok.
  setoid_rewrite <- TC_verify_ok; [|done].
  rewrite <- QC_verify_ok by done.
  destruct (QC.eqb (Block.qc b) QC.genesis); destruct (Block.tc b); naive_solver.
Qed.

Lemma Vote_verify_ok c v :
  Vote_verify c v = Ok () <->
  0 < Committee.stake c (Vote.author v) /\
  valid_sig (Vote.author v) (Vote.digest v) (Vote.signature v) = true.
Proof.
  unfold Vote_verify. by rewrite ensure_ok, Z.ltb_lt, from_crypto_ok, sig_verify_ok.
Qed.

Lemma Timeout_verify_ok c x :
  well_formed c ->
  Timeout_verify c x = Ok () <->
  0 < Committee.stake c (Timeout.author x) /\
  valid_sig (Timeout.author x) (Timeout.digest x) (Timeout.signature x) = true /\
  QC_accepted c (Timeout.high_qc x) /\
  (TC.eqb (Timeout.high_tc x) TC.default = true \/ TC_valid c (Timeout.high_tc x)).
Proof.
  intros Hc. unfold Timeout_verify, QC_accepted.
  rewrite ensure_ok, Z.ltb_lt, !outcome_seq_ok, from_crypto_ok, sig_verify_ok.
  rewrite <- QC_verify_ok, <- TC_verify_ok by done.
  destruct (QC.eqb _ _), (TC.eqb _ _); naive_solver.
Qed.

(** [Block::verify] accepts a proposal exactly when its author has stake and
    signed the digest, its QC is the genesis QC or carries signatures of
    distinct members with a quorum of stake on the certified digest, and its TC,
    if any, carries signatures of distinct members with a quorum of stake on the
    round and the reported high-QC and high-TC rounds. *)
Theorem Block_verify_accepts c b :
  well_formed c ->
  Block_verify c b = Ok () <->
  0 < Committee.stake c (Block.author b) /\
  valid_sig (Block.author b) (Block.digest b) (Block.signature b) = true /\
  (QC.eqb (Block.qc b) QC.genesis = true \/
   quorum_names c (map fst (QC.votes (Block.qc b))) /\
   forall pk s, (pk, s) ∈ QC.votes (Block.qc b) ->
     valid_sig pk (QC.digest (Block.qc b)) s = true) /\
  (forall tc, Block.tc b = Some tc ->
   quorum_names c (TC_names tc) /\
   forall pk s q t, (pk, s, q, t) ∈ TC.votes tc ->
     valid_sig pk (sha512_32 (TC.vote_transcript (TC.round tc) q t)) s = true).
Proof. apply Block_verify_ok. Qed.

End certificates.

(** ** Ideal primitives, as an instance

    The digest of a transcript is a number that encodes it, and a signature is
    the pair of the digest and the signer. *)

#[global] Instance chunk_countable : Countable chunk.
Proof.
  refine (inj_countable'
    (fun x => match x with CKey k => (0, k) | CDigest d => (1, d) | CU64 n => (2, n) end)
    (fun '(t, n) => if decide (t = 0) then CKey n
                    else if decide (t = 1) then CDigest n else CU64 n) _).
  by intros [].
Defined.

Definition ideal_crypto : Crypto := {|
  sha512_32 t := Zpos (encode t);
  from_compact _ := true;
  key_from_slice _ := true;
  verify_ecdsa d s pk := (part1 s =? d) && (part2 s =? pk);
  sign_ecdsa pk d := mkSignature d pk
|}.

Lemma ideal_signing_correct : @signing_correct ideal_crypto.
Proof. intros pk d _. simpl. by rewrite !Z.eqb_refl. Qed.

Lemma ideal_collision_free : @collision_free ideal_crypto.
Proof. intros t1 t2 [= He]. by apply (inj encode) in He. Qed.

Section witness.
#[local] Existing Instance ideal_crypto.

(** A proposal of member 12 for round 1 on top of the genesis block. *)
Definition demo_block : Block.t := Block.new QC.genesis None 12 1 [].

Lemma Block_verify_accepts_witness :
  0 < Committee.stake demo_committee (Block.author demo_block).
Proof.
  apply (Block_verify_accepts demo_committee demo_block demo_committee_well_formed).
  vm_compute. reflexivity.
Defined.

End witness.
