(* ===== verification/Aggregator.v ===== *)
(** * The vote and timeout aggregator

    Models [hotstuff/consensus/src/aggregator.rs].  [QCMaker] and [TCMaker] do
    the same bookkeeping on entries of two types, which is [accumulate] here. *)

From S2P Require Import Prelude Store Committee Messages.

(** The fields of [QCMaker] and [TCMaker]. *)
Record maker (A : Type) := mkMaker {
  weight_acc : Stake;
  entries : list A;
  used : gset PublicKey
}.
Arguments mkMaker {A} _ _ _.
Arguments weight_acc {A} _.
Arguments entries {A} _.
Arguments used {A} _.

Definition maker_new {A} : maker A := mkMaker 0 [] ∅.

(** The body of both [append] methods up to the construction of the certificate,
    which is made of the entries returned. *)
Definition accumulate {A} (c : Committee.t) (author : PublicKey) (entry : A)
  (reuse : ConsensusError) : prog (maker A) ConsensusError (option (list A)) := fun m =>
  if bool_decide (author ∈ used m) then (Err reuse, m)
  else
    let votes := entries m ++ [entry] in
    let weight := u32 (weight_acc m + Committee.stake c author) in
    let used' := {[author]} ∪ used m in
    if Committee.quorum_threshold c <=? weight
    then (Ok (Some votes), mkMaker 0 votes used')
    else (Ok None, mkMaker weight votes used').

Module QCMaker.

Abbreviation t := (maker (PublicKey * Signature)).

Definition append (c : Committee.t) (vote : Vote.t)
  : prog t ConsensusError (option QC.t) :=
  let author := Vote.author vote in
  accumulate c author (author, Vote.signature vote)
    (AuthorityReuse (Vote.hash vote) author (Vote.round vote) "QC") ≫= fun r =>
  mret (match r with
        | Some votes =>
            Some (QC.mk (Vote.hash vote) (Vote.round vote) (Vote.payload_size vote) votes)
        | None => None
        end).

End QCMaker.

Module TCMaker.

Abbreviation t := (maker (PublicKey * Signature * Round * Round)).

Definition append (c : Committee.t) (timeout : Timeout.t)
  : prog t ConsensusError (option TC.t) :=
  let author := Timeout.author timeout in
  accumulate c author
    (author, Timeout.signature timeout, QC.round (Timeout.high_qc timeout),
     TC.round (Timeout.high_tc timeout))
    (AuthorityReuse (QC.hash (Timeout.high_qc timeout)) author (Timeout.round timeout) "TC")
    ≫= fun r =>
  mret (match r with
        | Some votes => Some (TC.mk (Timeout.round timeout) votes)
        | None => None
        end).

End TCMaker.

Module Aggregator.
Section aggregator.
Context `{Crypto}.

Record t := mk {
  votes_aggregators : gmap Round (gmap Digest QCMaker.t);
  timeouts_aggregators : gmap Round TCMaker.t
}.

Definition new : t := mk ∅ ∅.

Definition add_vote (c : Committee.t) (vote : Vote.t)
  : prog t ConsensusError (option QC.t) := fun a =>
  let by_digest := default ∅ (votes_aggregators a !! Vote.round vote) in
  let m := default maker_new (by_digest !! Vote.digest vote) in
  let '(r, m') := QCMaker.append c vote m in
  (r, mk (<[Vote.round vote := <[Vote.digest vote := m']> by_digest]> (votes_aggregators a))
         (timeouts_aggregators a)).

Definition add_timeout (c : Committee.t) (timeout : Timeout.t)
  : prog t ConsensusError (option TC.t) := fun a =>
  let m := default maker_new (timeouts_aggregators a !! Timeout.round timeout) in
  let '(r, m') := TCMaker.append c timeout m in
  (r, mk (votes_aggregators a)
         (<[Timeout.round timeout := m']> (timeouts_aggregators a))).

Definition cleanup (round : Round) (a : t) : t :=
  mk (filter (fun kv => round <= kv.1) (votes_aggregators a))
     (filter (fun kv => round <= kv.1) (timeouts_aggregators a)).

End aggregator.
End Aggregator.

(** ** Invariant of a maker *)

Section maker_inv.
Context {A : Type} (c : Committee.t) (Hc : well_formed c).
Context (name : A -> PublicKey) (P : A -> Prop).
Implicit Types m : maker A.

Definition names m : list PublicKey := map name (entries m).

Record maker_inv m : Prop := {
  maker_NoDup : NoDup (names m);
  maker_used : used m = list_to_set (names m);
  maker_entries : forall e, e ∈ entries m -> P e /\ 0 < Committee.stake c (name e);
  maker_weight : 0 <= weight_acc m <= weight c (list_to_set (names m))
}.

Lemma maker_inv_new : maker_inv maker_new.
Proof using Type. clear Hc. split; simpl; [constructor|done|set_solver|done]. Qed.

Lemma names_member l :
  (forall n, n ∈ l -> 0 < Committee.stake c n) ->
  list_to_set l ⊆ members (C := Committee.t) c.
Proof.
  intros Hl n Hn%elem_of_list_to_set. apply stake_of_pos_member.
  rewrite Committee_stake_of. auto.
Qed.

Lemma weight_cons n l :
  n ∉ l -> weight c (list_to_set (l ++ [n]))
           = weight c (list_to_set l) + Committee.stake c n.
Proof.
  intros Hn. unfold weight. rewrite list_to_set_app_L. simpl.
  rewrite union_empty_r_L, weight_of_disj by set_solver.
  by rewrite weight_of_singleton, Committee_stake_of.
Qed.

(** The maker after an accepted entry, before the threshold test. *)
Lemma accumulate_step m author entry :
  maker_inv m -> author ∉ used m -> name entry = author ->
  P entry -> 0 < Committee.stake c author ->
  let votes := entries m ++ [entry] in
  let w := weight c (list_to_set (map name votes)) in
  NoDup (map name votes) /\
  (forall e, e ∈ votes -> P e /\ 0 < Committee.stake c (name e)) /\
  w = weight c (list_to_set (names m)) + Committee.stake c author /\
  w <= total_stake c /\
  u32 (weight_acc m + Committee.stake c author) = weight_acc m + Committee.stake c author.
Proof using Hc.
  intros [Hnd Hu He Hw] Hn <- HP Hs votes w.
  assert (name entry ∉ names m) as Hn' by (rewrite Hu in Hn; set_solver).
  assert (forall e, e ∈ votes -> P e /\ 0 < Committee.stake c (name e)) as Hall.
  { intros e [Hin| ->%list_elem_of_singleton]%elem_of_app; auto. }
  assert (w = weight c (list_to_set (names m)) + Committee.stake c (name entry)) as Hww.
  { unfold w, votes. rewrite map_app. by apply weight_cons. }
  assert (w <= total_stake c) as Hle.
  { apply weight_le_total; [done|]. apply names_member.
    intros n (e & -> & Hin)%list_elem_of_fmap. by apply Hall. }
  split_and!; [|done..|].
  - unfold votes. rewrite map_app. apply NoDup_app. split_and!; [done| |].
    + intros x Hx Hx'%list_elem_of_singleton. by subst.
    + apply NoDup_singleton.
  - destruct Hc as [_ Ht]. apply u32_id. unfold is_u32, u32_max. lia.
Qed.

(** Appending an acceptable entry keeps the invariant; the entries handed out
    form a quorum of distinct members. *)
Lemma accumulate_spec m author entry reuse :
  maker_inv m -> name entry = author -> P entry -> 0 < Committee.stake c author ->
  wp (accumulate c author entry reuse) (fun r m' =>
    maker_inv m' /\
    match r with
    | Ok (Some votes) =>
        quorum_names c (map name votes) /\ (forall e, e ∈ votes -> P e)
    | Ok None => True
    | Err e => e = reuse /\ author ∈ used m
    | _ => False
    end) m.
Proof using Hc.
  intros Hm Hname HP Hs. unfold wp, accumulate.
  case_bool_decide as Hin; [simpl; auto|].
  destruct (accumulate_step m author entry Hm Hin Hname HP Hs)
    as (Hnd & He & Hw & Hle & Hwrap).
  rewrite Hwrap. pose proof (maker_weight _ Hm) as Hmw.
  assert ({[author]} ∪ used m = list_to_set (map name (entries m ++ [entry]))) as Hu.
  { rewrite (maker_used _ Hm), map_app, list_to_set_app_L. simpl. rewrite Hname.
    unfold names. set_solver. }
  case_match eqn:Hq; simpl.
  - split; [split; simpl; auto|].
    { split; [lia|]. apply weight_of_nonneg. intros. by apply stake_of_nonneg. }
    split; [|naive_solver]. split; [done|]. split.
    + intros n (e & -> & Hin')%list_elem_of_fmap. by apply He.
    + rewrite Hw. lia.
  - split; [split; [done..|]|done]. unfold names at 1. simpl. rewrite Hw. lia.
Qed.

End maker_inv.

(** ** Invariant of the aggregator

    [U pk d] is any fact known of the pair of a signer and a digest whenever a
    verified vote or timeout of [pk] on [d] reaches the aggregator. *)

Section aggregator_inv.
Context `{Crypto} (c : Committee.t) (Hc : well_formed c).
Implicit Types (U : PublicKey -> Digest -> Prop) (a : Aggregator.t).

Definition signed U (pk : PublicKey) (d : Digest) (s : Signature) : Prop :=
  valid_sig pk d s = true /\ U pk d.

Definition vote_entry U (d : Digest) (e : PublicKey * Signature) : Prop :=
  signed U e.1 d e.2.

Definition entry_name (e : PublicKey * Signature * Round * Round) : PublicKey :=
  let '(pk, _, _, _) := e in pk.

Definition timeout_entry U (r : Round) (e : PublicKey * Signature * Round * Round) : Prop :=
  let '(pk, s, q, t) := e in signed U pk (sha512_32 (TC.vote_transcript r q t)) s.

Definition QC_good U (qc : QC.t) : Prop :=
  quorum_names c (map fst (QC.votes qc)) /\
  forall e, e ∈ QC.votes qc -> vote_entry U (QC.digest qc) e.

Definition TC_good U (tc : TC.t) : Prop :=
  quorum_names c (TC_names tc) /\
  forall e, e ∈ TC.votes tc -> timeout_entry U (TC.round tc) e.

(** The maker that a vote, respectively a timeout, goes to. *)
Definition maker_at a (r : Round) (d : Digest) : QCMaker.t :=
  default maker_new (default ∅ (Aggregator.votes_aggregators a !! r) !! d).
Definition timeout_maker_at a (r : Round) : TCMaker.t :=
  default maker_new (Aggregator.timeouts_aggregators a !! r).

Record agg_inv U a : Prop := {
  agg_votes r d : maker_inv c fst (vote_entry U d) (maker_at a r d);
  agg_timeouts r : maker_inv c entry_name (timeout_entry U r) (timeout_maker_at a r)
}.

Lemma maker_inv_mono {A} (name : A -> PublicKey) (P P' : A -> Prop) m :
  (forall e, P e -> P' e) -> maker_inv c name P m -> maker_inv c name P' m.
Proof. intros HP [? ? He ?]. split; auto. intros e Hin. destruct (He e Hin). auto. Qed.

Lemma agg_inv_mono U U' a :
  (forall pk d, U pk d -> U' pk d) -> agg_inv U a -> agg_inv U' a.
Proof.
  intros HU [Hv Ht]. split.
  - intros. eapply maker_inv_mono; [|by eapply Hv]. unfold vote_entry, signed. naive_solver.
  - intros. eapply maker_inv_mono; [|by eapply Ht].
    intros [[[pk s] q] t]. unfold timeout_entry, signed. naive_solver.
Qed.

Lemma QC_good_mono U U' qc :
  (forall pk d, U pk d -> U' pk d) -> QC_good U qc -> QC_good U' qc.
Proof. intros HU [Hq He]. split; [done|]. unfold vote_entry, signed in *. naive_solver. Qed.

Lemma TC_good_mono U U' tc :
  (forall pk d, U pk d -> U' pk d) -> TC_good U tc -> TC_good U' tc.
Proof.
  intros HU [Hq He]. split; [done|]. intros [[[pk s] q] t] Hin.
  specialize (He _ Hin). unfold timeout_entry, signed in *. naive_solver.
Qed.

Lemma QC_good_valid U qc : QC_good U qc -> QC_valid c qc.
Proof. intros [Hq He]. split; [done|]. intros pk s Hin. apply (He _ Hin). Qed.

Lemma TC_good_valid U tc : TC_good U tc -> TC_valid c tc.
Proof. intros [Hq He]. split; [done|]. intros pk s q t Hin. apply (He _ Hin). Qed.

Lemma maker_at_new r d : maker_at Aggregator.new r d = maker_new.
Proof. unfold maker_at. simpl. by rewrite lookup_empty. Qed.

Lemma agg_inv_new U : agg_inv U Aggregator.new.
Proof.
  split; intros.
  - rewrite maker_at_new. apply maker_inv_new.
  - unfold timeout_maker_at. simpl. rewrite lookup_empty. apply maker_inv_new.
Qed.

Lemma maker_at_cleanup a k r d :
  maker_at (Aggregator.cleanup k a) r d
  = if decide (k <= r) then maker_at a r d else maker_new.
Proof.
  unfold maker_at, Aggregator.cleanup. simpl. rewrite map_lookup_filter.
  destruct (Aggregator.votes_aggregators a !! r) as [b|]; simpl;
    repeat (case_guard || case_decide); simpl in *; done || lia.
Qed.

Lemma agg_inv_cleanup U k a : agg_inv U a -> agg_inv U (Aggregator.cleanup k a).
Proof.
  intros [Hv Ht]. split.
  - intros r d. rewrite maker_at_cleanup. case_decide; [done|apply maker_inv_new].
  - intros r. specialize (Ht r). unfold timeout_maker_at, Aggregator.cleanup in *. simpl.
    rewrite map_lookup_filter.
    destruct (Aggregator.timeouts_aggregators a !! r); simpl; [|done].
    case_guard; [done|apply maker_inv_new].
Qed.

Lemma add_vote_maker v a r a' :
  Aggregator.add_vote c v a = (r, a') ->
  exists m', QCMaker.append c v (maker_at a (Vote.round v) (Vote.digest v)) = (r, m') /\
  (forall k, timeout_maker_at a' k = timeout_maker_at a k) /\
  (forall k d, maker_at a' k d =
     if decide (k = Vote.round v /\ d = Vote.digest v) then m' else maker_at a k d).
Proof.
  unfold Aggregator.add_vote. fold (maker_at a (Vote.round v) (Vote.digest v)).
  destruct (QCMaker.append _ _ _) as [r' m'] eqn:Ha. intros [= <- <-].
  exists m'. split; [done|]. split; [done|]. intros k d. unfold maker_at. simpl.
  destruct (decide (k = Vote.round v)) as [->|Hk].
  - rewrite lookup_insert_eq. simpl. destruct (decide (d = Vote.digest v)) as [->|Hd].
    + rewrite lookup_insert_eq. by rewrite decide_True.
    + rewrite lookup_insert_ne by done. rewrite decide_False by naive_solver. done.
  - rewrite lookup_insert_ne by done. rewrite decide_False by naive_solver. done.
Qed.

(** A verified vote keeps the invariant, and a QC that comes out certifies the
    block of the vote with signatures of a quorum. *)
Lemma add_vote_spec U v a :
  agg_inv U a -> 0 < Committee.stake c (Vote.author v) ->
  signed U (Vote.author v) (Vote.digest v) (Vote.signature v) ->
  wp (Aggregator.add_vote c v) (fun r a' =>
    agg_inv U a' /\
    match r with
    | Ok (Some qc) => QC_good U qc /\ QC.hash qc = Vote.hash v /\
        QC.round qc = Vote.round v /\ QC.payload_size qc = Vote.payload_size v
    | Ok None => True
    | Err e => e = AuthorityReuse (Vote.hash v) (Vote.author v) (Vote.round v) "QC"
    | _ => False
    end) a.
Proof using Hc.
  intros Hinv Hs Hsig. unfold wp.
  destruct (Aggregator.add_vote c v a) as [r a'] eqn:Ha. simpl.
  apply add_vote_maker in Ha as (m' & Happ & Ht & Hv).
  pose proof (accumulate_spec c Hc fst (vote_entry U (Vote.digest v))
    (maker_at a (Vote.round v) (Vote.digest v)) (Vote.author v)
    (Vote.author v, Vote.signature v)
    (AuthorityReuse (Vote.hash v) (Vote.author v) (Vote.round v) "QC")
    (agg_votes _ _ Hinv _ _) eq_refl Hsig Hs) as Hacc.
  unfold wp in Hacc. unfold QCMaker.append, mbind, prog_bind, mret, prog_ret in Happ.
  destruct (accumulate _ _ _ _ _) as [r0 m0] eqn:Hm0. simpl in Hacc.
  destruct Hacc as [Hm0i Hr].
  assert (m0 = m') as -> by (destruct r0; simplify_eq/=; done).
  split.
  - split; [|intros k; rewrite Ht; apply Hinv].
    intros k d. rewrite Hv. case_decide as Hkd; [|apply Hinv]. by destruct Hkd as [-> ->].
  - destruct r0 as [[votes|]| | |]; simplify_eq/=; try done. by destruct Hr as [-> _].
Qed.

Lemma add_timeout_spec U x a :
  agg_inv U a -> 0 < Committee.stake c (Timeout.author x) ->
  signed U (Timeout.author x) (Timeout.digest x) (Timeout.signature x) ->
  wp (Aggregator.add_timeout c x) (fun r a' =>
    agg_inv U a' /\
    match r with
    | Ok (Some tc) => TC_good U tc /\ TC.round tc = Timeout.round x
    | Ok None => True
    | Err e => e = AuthorityReuse (QC.hash (Timeout.high_qc x)) (Timeout.author x)
                     (Timeout.round x) "TC"
    | _ => False
    end) a.
Proof using Hc.
  intros Hinv Hs Hsig. unfold wp, Aggregator.add_timeout.
  fold (timeout_maker_at a (Timeout.round x)).
  pose proof (accumulate_spec c Hc entry_name (timeout_entry U (Timeout.round x))
    (timeout_maker_at a (Timeout.round x)) (Timeout.author x)
    (Timeout.author x, Timeout.signature x, QC.round (Timeout.high_qc x),
     TC.round (Timeout.high_tc x))
    (AuthorityReuse (QC.hash (Timeout.high_qc x)) (Timeout.author x) (Timeout.round x) "TC")
    (agg_timeouts _ _ Hinv _) eq_refl Hsig Hs) as Hacc.
  unfold wp in Hacc. unfold TCMaker.append, mbind, prog_bind, mret, prog_ret.
  destruct (accumulate _ _ _ _ _) as [r0 m0] eqn:Hm0. simpl in Hacc.
  destruct Hacc as [Hm0i Hr].
  assert (forall r1 : outcome ConsensusError (option TC.t),
    agg_inv U (Aggregator.mk (Aggregator.votes_aggregators a)
      (<[Timeout.round x := m0]> (Aggregator.timeouts_aggregators a)))) as Hi.
  { intros _. split; [apply Hinv|]. intros k. unfold timeout_maker_at. simpl.
    destruct (decide (k = Timeout.round x)) as [->|Hk].
    - by rewrite lookup_insert_eq.
    - rewrite lookup_insert_ne by done. apply Hinv. }
  destruct r0 as [[votes|]| | |]; simpl; try done;
    (split; [by apply Hi; constructor|]); [|done|by destruct Hr as [-> _]].
  split; [|done]. destruct Hr as [Hq He]. split; [|done].
  unfold TC_names. simpl. by rewrite (map_ext _ entry_name) by (by intros [[[? ?] ?] ?]).
Qed.

End aggregator_inv.

(** ** A quorum certificate is made once, as soon as there is a quorum *)

Section made_once.
Context `{Crypto} (c : Committee.t) (Hc : well_formed c).
Implicit Types (vs : list Vote.t) (a : Aggregator.t).

(** The certificates that come out when the votes arrive in this order. *)
Fixpoint feed vs a : list QC.t * Aggregator.t :=
  match vs with
  | [] => ([], a)
  | v :: vs =>
      let '(r, a1) := Aggregator.add_vote c v a in
      let '(qcs, a2) := feed vs a1 in
      (match r with Ok (Some qc) => qc :: qcs | _ => qcs end, a2)
  end.

(** Who voted for a digest in a round. *)
Definition authors_of (r : Round) (d : Digest) vs : gset PublicKey :=
  list_to_set (map Vote.author
    (filter (fun v => Vote.round v = r /\ Vote.digest v = d) vs)).

Definition qcs_of (r : Round) (d : Digest) (qcs : list QC.t) : list QC.t :=
  filter (fun qc => QC.round qc = r /\ QC.digest qc = d) qcs.

(** A maker that has seen the authors [A] and emitted [k] times. *)
Definition tallied (A : gset PublicKey) (k : nat) (m : QCMaker.t) : Prop :=
  used m = A /\ A ⊆ members (C := Committee.t) c /\
  0 <= weight_acc m < Committee.quorum_threshold c /\
  exists spent, weight_acc m + spent = weight c A /\
    Z.of_nat k * Committee.quorum_threshold c <= spent /\ (k = O -> spent = 0).

Lemma weight_add (A : gset PublicKey) n :
  n ∉ A -> weight c ({[n]} ∪ A) = weight c A + Committee.stake c n.
Proof using Type.
  clear Hc. intros Hn. unfold weight. rewrite weight_of_disj by set_solver.
  rewrite weight_of_singleton, Committee_stake_of. lia.
Qed.

Lemma tallied_append A k m v r m' :
  tallied A k m -> 0 < Committee.stake c (Vote.author v) ->
  QCMaker.append c v m = (r, m') ->
  match r with
  | Ok (Some qc) => tallied ({[Vote.author v]} ∪ A) (S k) m' /\
      QC.round qc = Vote.round v /\ QC.digest qc = Vote.digest v
  | _ => tallied ({[Vote.author v]} ∪ A) k m'
  end.
Proof using Hc.
  intros (Hu & HA & Hw & spent & Hsp & Hk & Hk0) Hs.
  unfold QCMaker.append, accumulate, mbind, prog_bind, mret, prog_ret.
  case_bool_decide as Hin.
  - intros [= <- <-].
    replace ({[Vote.author v]} ∪ A) with A by (apply set_eq; set_solver).
    split_and!; try (done || lia). by exists spent.
  - rewrite Hu in Hin.
    assert ({[Vote.author v]} ∪ A ⊆ members (C := Committee.t) c) as HA'.
    { apply union_least; [|done]. apply singleton_subseteq_l, stake_of_pos_member.
      by rewrite Committee_stake_of. }
    pose proof (weight_add A _ Hin) as Hadd.
    pose proof (weight_le_total c _ Hc HA') as Hle.
    assert (0 <= spent) by (pose proof (Committee_quorum_pos c Hc); nia).
    rewrite u32_id by (destruct Hc as [_ Ht]; unfold is_u32, u32_max; lia).
    pose proof (Committee_quorum_pos c Hc) as Hqp.
    destruct (_ <=? _) eqn:Hq; intros [= <- <-]; unfold tallied; simpl.
    + split; [|done]. split_and!; try done; try lia; [by rewrite Hu|].
      exists (weight c ({[Vote.author v]} ∪ A)).
      rewrite Nat2Z.inj_succ, Z.mul_succ_l. split_and!; [lia|lia|done].
    + split_and!; try done; try lia; [by rewrite Hu|]. exists spent.
      split_and!; [lia|done|done].
Qed.

Lemma tallied_count A k m :
  tallied A k m ->
  k = if decide (Committee.quorum_threshold c <= weight c A) then 1%nat else 0%nat.
Proof using Hc.
  intros (Hu & HA & Hw & spent & Hsp & Hk & Hk0).
  pose proof (weight_le_total c A Hc HA) as Hle.
  pose proof (Committee_quorum_value c Hc) as Hq.
  pose proof (Z.div_mod (2 * total_stake c) 3 ltac:(lia)).
  pose proof (Z.mod_pos_bound (2 * total_stake c) 3 ltac:(lia)).
  assert (forall j, 0 <= Z.of_nat j * Committee.quorum_threshold c) as Hj
    by (intros; apply Z.mul_nonneg_nonneg; lia).
  destruct Hc as [_ Ht]. case_decide.
  - destruct k as [|[|k]]; [specialize (Hk0 eq_refl); lia|done|].
    specialize (Hj k). rewrite !Nat2Z.inj_succ, !Z.mul_succ_l in Hk. lia.
  - destruct k as [|k]; [done|].
    specialize (Hj k). rewrite Nat2Z.inj_succ, Z.mul_succ_l in Hk. lia.
Qed.

Lemma authors_of_cons r d v vs :
  authors_of r d (v :: vs) =
  if decide (Vote.round v = r /\ Vote.digest v = d)
  then {[Vote.author v]} ∪ authors_of r d vs else authors_of r d vs.
Proof using Type. unfold authors_of. rewrite filter_cons. by case_decide. Qed.

Lemma feed_tallied r d vs :
  (forall v, v ∈ vs -> 0 < Committee.stake c (Vote.author v)) ->
  forall a A k, tallied A k (maker_at a r d) ->
  tallied (authors_of r d vs ∪ A) (length (qcs_of r d (fst (feed vs a))) + k)
    (maker_at (snd (feed vs a)) r d).
Proof using Hc.
  induction vs as [|v vs IH]; intros Hs a A k Hm; simpl.
  { unfold authors_of. simpl. by rewrite union_empty_l_L. }
  destruct (Aggregator.add_vote c v a) as [o a1] eqn:Ha.
  apply add_vote_maker in Ha as (m' & Happ & _ & Hat).
  specialize (IH ltac:(set_solver) a1). rewrite authors_of_cons.
  destruct (feed vs a1) as [qcs a2] eqn:Hf. simpl in *.
  specialize (Hat r d).
  destruct (decide (r = Vote.round v /\ d = Vote.digest v)) as [[-> ->]|Hne].
  - rewrite decide_True by done.
    pose proof (tallied_append A k _ v o m' Hm (Hs v ltac:(set_solver)) Happ) as Hstep.
    rewrite <- Hat in Hstep.
    replace ({[Vote.author v]} ∪ authors_of (Vote.round v) (Vote.digest v) vs ∪ A)
      with (authors_of (Vote.round v) (Vote.digest v) vs ∪ ({[Vote.author v]} ∪ A))
      by (apply set_eq; set_solver).
    destruct o as [[qc|]| | |]; try by apply IH.
    destruct Hstep as (Hstep & Hr & Hd). unfold qcs_of. rewrite filter_cons_True by done.
    simpl. rewrite <- Nat.add_succ_r. by apply IH.
  - rewrite decide_False by naive_solver. rewrite <- Hat in Hm. specialize (IH _ _ Hm).
    destruct o as [[qc|]| | |]; try done.
    unfold qcs_of. rewrite filter_cons_False; [done|].
    unfold QCMaker.append, mbind, prog_bind, mret, prog_ret in Happ.
    destruct (accumulate _ _ _ _ _) as [[[vts|]| | |] m0]; simplify_eq/=. naive_solver.
Qed.

Lemma feed_good U vs :
  (forall v, v ∈ vs -> 0 < Committee.stake c (Vote.author v) /\
     signed U (Vote.author v) (Vote.digest v) (Vote.signature v)) ->
  forall a, agg_inv c U a -> forall qc, qc ∈ fst (feed vs a) -> QC_good c U qc.
Proof using Hc.
  induction vs as [|v vs IH]; intros Hv a Ha qc; simpl;
    [by intros ?%elem_of_nil|].
  destruct (Hv v (list_elem_of_here _ _)) as [Hs Hsig].
  pose proof (add_vote_spec c Hc U v a Ha Hs Hsig) as Hadd. unfold wp in Hadd.
  destruct (Aggregator.add_vote c v a) as [o a1]. simpl in Hadd.
  destruct Hadd as [Ha1 Ho]. 
  specialize (IH (fun v' Hin => Hv v' (list_elem_of_further _ _ _ Hin)) a1 Ha1).
  destruct (feed vs a1) as [qcs a2]. simpl in *.
  destruct o as [[qc'|]| | |]; auto.
  intros [->|Hin]%elem_of_cons; [apply Ho|auto].
Qed.

(** C24: whatever verified votes reach the aggregator and in whatever order
    (repeated votes are refused), for every round and digest exactly one QC is
    made once the voters hold a quorum of stake and none before, as the comment
    in [QCMaker::append] promises, and every QC that is made passes
    [QC::verify]. *)
Theorem qc_made_once r d vs :
  (forall v, v ∈ vs -> Vote_verify c v = Ok ()) ->
  length (qcs_of r d (fst (feed vs Aggregator.new)))
    = (if decide (Committee.quorum_threshold c <= weight c (authors_of r d vs))
       then 1%nat else 0%nat) /\
  forall qc, qc ∈ fst (feed vs Aggregator.new) -> QC_verify c qc = Ok ().
Proof using Hc.
  intros Hv. setoid_rewrite Vote_verify_ok in Hv. split.
  - assert (tallied ∅ 0 (maker_at Aggregator.new r d)) as H0.
    { rewrite maker_at_new. pose proof (Committee_quorum_pos c Hc) as Hq.
      split_and!; [done|apply empty_subseteq|done|done|by exists 0]. }
    pose proof (feed_tallied r d vs ltac:(naive_solver) _ _ _ H0) as Hf.
    apply tallied_count in Hf. by rewrite Nat.add_0_r, union_empty_r_L in Hf.
  - intros qc Hqc. apply QC_verify_ok; [done|].
    apply (QC_good_valid c (fun _ _ => True)).
    eapply (feed_good (fun _ _ => True) vs); [|apply agg_inv_new|done].
    intros v Hin. destruct (Hv v Hin). by split.
Qed.

End made_once.

Section witness.
#[local] Existing Instance ideal_crypto.

Definition demo_votes : list Vote.t :=
  [Vote.new demo_block 11; Vote.new demo_block 12; Vote.new demo_block 11;
   Vote.new demo_block 14; Vote.new demo_block 13].

Lemma qc_made_once_witness :
  length (qcs_of 1 (Vote.digest (Vote.new demo_block 11))
    (fst (feed demo_committee demo_votes Aggregator.new))) = 1%nat.
Proof.
  destruct (qc_made_once demo_committee demo_committee_well_formed 1
    (Vote.digest (Vote.new demo_block 11)) demo_votes) as [H _].
  - unfold demo_votes. intros v.
    rewrite !elem_of_cons, elem_of_nil.
    intros [-> | [-> | [-> | [-> | [-> | []]]]]]; vm_compute; reflexivity.
  - rewrite H. vm_compute. reflexivity.
Defined.

End witness.
