(* ===== verification/Network.v ===== *)
(** * The network crate

    Models [hotstuff/network/src/dvf_message.rs] and
    [common/dvf_version/src/lib.rs]: the envelope of every message between
    operators. *)

From S2P Require Import Prelude Committee.

(** [Bytes], [Vec<u8>]. *)
Abbreviation bytes := (list Z) (only parsing).

Definition ROOT_VERSION : Z := 1.
Definition MAJOR_VERSION : Z := 2.
Definition MINOR_VERSION : Z := 0.
Definition VERSION : Z :=
  ROOT_VERSION * 1000000000000 + MAJOR_VERSION * 1000000 + MINOR_VERSION.

Record DvfMessage := mkDvfMessage {
  version : Z;
  validator_id : Z;
  message : bytes
}.
