(* ===== verification/Core.v ===== *)
(** * The consensus core

    Models [hotstuff/consensus/src/core.rs] with the parts of
    [synchronizer.rs] and [mempool.rs] that run inside its handlers.  [t] is the
    mutable state of [Core]; [out] records, in order, what the handlers hand to
    the signature service, the network, the other tasks and the application.
    [gone] are the receivers that other tasks have dropped: a send to one of them
    panics, except that of a committed block, which only warns.
    The immutable fields ([name], [committee], [validator_id]) are variables of
    the section.  A store key is the digest itself ([to_vec] copies its bytes). *)

From S2P Require Import Prelude Store Committee Messages Aggregator Network.

(** [bincode], for the values that are stored or sent. *)
Class Bincode := {
  ser_block : Block.t -> bytes;
  de_block : bytes -> option Block.t;
  ser_message : ConsensusMessage -> bytes;
  de_message : bytes -> option ConsensusMessage;
  ser_dvf : DvfMessage -> bytes;
  de_dvf : bytes -> option DvfMessage
}.

(** Deserialising inverts serialising. *)
Class BincodeRoundTrip `{Bincode} := {
  de_ser_block b : de_block (ser_block b) = Some b;
  de_ser_message m : de_message (ser_message m) = Some m;
  de_ser_dvf m : de_dvf (ser_dvf m) = Some m
}.

(** [proposer::ProposerMessage]. *)
Inductive ProposerMessage : Type :=
| Make (round : Round) (qc : QC.t) (tc : option TC.t)
| CleanupProposer (digests : list Digest).

(** [mempool::ConsensusMempoolMessage]. *)
Inductive ConsensusMempoolMessage : Type :=
| Synchronize (missing : list Digest) (target : PublicKey)
| CleanupMempool (round : Round).

(** [mempool::PayloadWaiterMessage]. *)
Inductive PayloadWaiterMessage : Type :=
| Wait (missing : list Digest) (block : Block.t)
| CleanupWaiter (round : Round).

(** What the core does to its environment. *)
Inductive event : Type :=
| SignVote (block : Block.t) (vote : Vote.t)
| SignTimeout (timeout : Timeout.t)
| Broadcast (addresses : list SocketAddr) (data : bytes)
| ToProposer (m : ProposerMessage)
| Commit (block : Block.t)
| ToMempool (m : ConsensusMempoolMessage)
| ToPayloadWaiter (m : PayloadWaiterMessage)
| ToSynchronizer (block : Block.t)
| StoreReplies (replies : list (Z * Store.Reply bytes))
| TimerReset
| Sleep (ms : Z).

(** The receiving ends of the channels that the core cannot do without, and the
    reply of the signature service. *)
Inductive receiver : Type :=
| RxProposer | RxSynchronizer | RxMempool | RxPayloadWaiter | RxSignature | RxSignatureReply.

#[global] Instance receiver_eq_dec : EqDecision receiver.
Proof. solve_decision. Defined.

(** What wakes the loop of [Core::run]. *)
Inductive input : Type :=
| Received (m : ConsensusMessage)
| Loopback (block : Block.t)
| TimerFired.

Module Core.
Section core.
Context `{Crypto} `{Bincode} `{Rocksdb Digest bytes}.
Context (name : PublicKey) (committee : Committee.t) (vid : Z).

Record t := mk {
  store : Store.t Digest bytes;
  round : Round;
  last_voted_round : Round;
  last_committed_round : Round;
  high_qc : QC.t;
  aggregator : Aggregator.t;
  recover_count : Z;
  high_tc : TC.t;
  prune_depth : Z;
  fast_commit_request : Z;
  out : list event;
  gone : list receiver
}.

(** The state built by [Core::spawn]. *)
Definition spawn (st : Store.t Digest bytes) : t :=
  mk st 1 0 0 QC.genesis Aggregator.new 0 TC.default 15 0 [] [].

Definition set_store st s := mk st (round s) (last_voted_round s)
  (last_committed_round s) (high_qc s) (aggregator s) (recover_count s) (high_tc s)
  (prune_depth s) (fast_commit_request s) (out s) (gone s).
Definition set_round r s := mk (store s) r (last_voted_round s)
  (last_committed_round s) (high_qc s) (aggregator s) (recover_count s) (high_tc s)
  (prune_depth s) (fast_commit_request s) (out s) (gone s).
Definition set_last_voted_round r s := mk (store s) (round s) r
  (last_committed_round s) (high_qc s) (aggregator s) (recover_count s) (high_tc s)
  (prune_depth s) (fast_commit_request s) (out s) (gone s).
Definition set_last_committed_round r s := mk (store s) (round s) (last_voted_round s)
  r (high_qc s) (aggregator s) (recover_count s) (high_tc s)
  (prune_depth s) (fast_commit_request s) (out s) (gone s).
Definition set_high_qc qc s := mk (store s) (round s) (last_voted_round s)
  (last_committed_round s) qc (aggregator s) (recover_count s) (high_tc s)
  (prune_depth s) (fast_commit_request s) (out s) (gone s).
Definition set_aggregator a s := mk (store s) (round s) (last_voted_round s)
  (last_committed_round s) (high_qc s) a (recover_count s) (high_tc s)
  (prune_depth s) (fast_commit_request s) (out s) (gone s).
Definition set_high_tc tc s := mk (store s) (round s) (last_voted_round s)
  (last_committed_round s) (high_qc s) (aggregator s) (recover_count s) tc
  (prune_depth s) (fast_commit_request s) (out s) (gone s).
Definition set_fast_commit_request n s := mk (store s) (round s) (last_voted_round s)
  (last_committed_round s) (high_qc s) (aggregator s) (recover_count s) (high_tc s)
  (prune_depth s) n (out s) (gone s).
Definition set_out o s := mk (store s) (round s) (last_voted_round s)
  (last_committed_round s) (high_qc s) (aggregator s) (recover_count s) (high_tc s)
  (prune_depth s) (fast_commit_request s) o (gone s).
(** A receiver is dropped: its task has ended. *)
Definition set_gone g s := mk (store s) (round s) (last_voted_round s)
  (last_committed_round s) (high_qc s) (aggregator s) (recover_count s) (high_tc s)
  (prune_depth s) (fast_commit_request s) (out s) g.

Abbreviation M := (prog t ConsensusError).

Definition emit (e : event) : M () := modify (fun s => set_out (out s ++ [e]) s).

(** The panic on a closed channel. *)
Definition reach (r : receiver) (msg : string) : M () := fun s =>
  if bool_decide (r ∈ gone s) then (Panic msg, s) else (Ok (), s).

(** [tx.send(..).await.expect(msg)]; a full channel only delays the core. *)
Definition send (r : receiver) (msg : string) (e : event) : M () := reach r msg;; emit e.

(** [SignatureService::request_signature], for a vote or a time-out. *)
Definition request_signature (e : event) : M () :=
  reach RxSignature "Failed to send message Signature Service";;
  reach RxSignatureReply "Failed to receive signature from Signature Service";;
  emit e.

(** [self.network.broadcast] of a message in its envelope. *)
Definition broadcast (m : ConsensusMessage) : M () :=
  emit (Broadcast (map snd (Committee.broadcast_addresses committee name))
          (ser_dvf (mkDvfMessage VERSION vid (ser_message m)))).

(** [self.leader_elector.get_leader(round)]. *)
Definition get_leader (round : Round) : M PublicKey :=
  expect (RRLeaderElector.get_leader committee round)
    "attempt to calculate the remainder with a divisor of zero".

Definition store_block (block : Block.t) : M () := fun s =>
  let '(st, replies) := Store.write (store s) (Block.digest block) (ser_block block) in
  emit (StoreReplies replies) (set_store st s).

Definition remove_block (block : Block.t) : M () :=
  modify (fun s => set_store (Store.delete_key (store s) (Block.digest block)) s).

Definition get_parent_block (block : Block.t) : M (option Block.t) :=
  if QC.eqb (Block.qc block) QC.genesis then mret (Some Block.genesis)
  else
    st ← gets store;
    match Store.read st (Block.parent block) with
    | inr (Some data) =>
        b ← expect (de_block data) "Failed to deserialize block"; mret (Some b)
    | _ => mret None
    end.

Definition increase_last_voted_round (target : Round) : M () :=
  modify (fun s => set_last_voted_round (Z.max (last_voted_round s) target) s).

(** [iter().max()] on a list of rounds. *)
Definition max_round (l : list Round) : option Round :=
  match l with [] => None | r :: l => Some (foldl Z.max r l) end.

Definition make_vote (block : Block.t) : M (option Vote.t) :=
  lvr ← gets last_voted_round;
  let safety_rule_1 := lvr <? Block.round block in
  let qc_round := QC.round (Block.qc block) in
  let safety_rule_2 := u64 (qc_round + 1) =? Block.round block in
  safety_rule_2 ←
    match Block.tc block with
    | Some tc =>
        highest ← expect (max_round (TC.high_qc_rounds tc)) "Empty TC";
        let can_extend := (u64 (TC.round tc + 1) =? Block.round block)
                          && (highest <=? qc_round) in
        mret (safety_rule_2 || can_extend)
    | None => mret safety_rule_2
    end;
  if negb (safety_rule_1 && safety_rule_2) then mret None
  else
    increase_last_voted_round (Block.round block);;
    let vote := Vote.new block name in
    request_signature (SignVote block vote);;
    mret (Some vote).

(** The [loop] of [prune], at most [fuel] times. *)
Fixpoint prune_loop (fuel : nat) (parent : Block.t) (i : Z) : M () :=
  match fuel with
  | O => fun s => (Diverged, s)
  | S fuel =>
      ancestor ← get_parent_block parent;
      match ancestor with
      | Some ancestor =>
          if Block.eqb parent Block.genesis then mret ()
          else
            let i := u64 (i + 1) in
            depth ← gets prune_depth;
            (if depth <=? i then remove_block ancestor else mret ());;
            prune_loop fuel ancestor i
      | None => mret ()
      end
  end.

Definition prune (fuel : nat) (block : Block.t) : M () := prune_loop fuel block 0.

(** The [while] of [commit]: [heuristic_history_rounds] counts down, [to_commit]
    is the deque, front first. *)
Fixpoint commit_ancestors (heuristic_history_rounds : nat) (parent : Block.t)
  (to_commit : list Block.t) : M (list Block.t) :=
  match heuristic_history_rounds with
  | O => mret to_commit
  | S heuristic_history_rounds =>
      lcr ← gets last_committed_round;
      if u64 (lcr + 1) <? Block.round parent then
        ancestor ← get_parent_block parent;
        match ancestor with
        | Some ancestor =>
            commit_ancestors heuristic_history_rounds ancestor (ancestor :: to_commit)
        | None => mret to_commit
        end
      else mret to_commit
  end.

(** [while let Some(block) = to_commit.pop_back()], last element first. *)
Fixpoint deliver (blocks : list Block.t) : M () :=
  match blocks with
  | [] => mret ()
  | block :: blocks =>
      (if bool_decide (Block.payload block = []) then mret () else emit (Commit block));;
      deliver blocks
  end.

Definition commit (fuel : nat) (block : Block.t) : M () :=
  lcr ← gets last_committed_round;
  if Block.round block <=? lcr then mret ()
  else
    to_commit ← commit_ancestors 13 block [];
    let to_commit := block :: to_commit in
    modify (set_last_committed_round (Block.round block));;
    prune fuel block;;
    deliver (rev to_commit).

Definition update_high_qc (qc : QC.t) : M () :=
  modify (fun s => if QC.round (high_qc s) <? QC.round qc then set_high_qc qc s else s).

Definition update_high_tc (tc : TC.t) : M () :=
  modify (fun s => if TC.round (high_tc s) <? TC.round tc then set_high_tc tc s else s).

Definition advance_round (r : Round) : M () :=
  cur ← gets round;
  if r <? cur then mret ()
  else
    emit TimerReset;;
    modify (set_round (u64 (r + 1)));;
    modify (fun s => set_aggregator (Aggregator.cleanup (round s) (aggregator s)) s).

Definition generate_proposal (tc : option TC.t) : M () :=
  s ← get;
  send RxProposer "Failed to send message to proposer"
    (ToProposer (Make (round s) (high_qc s) tc)).

Definition process_qc (qc : QC.t) : M () :=
  advance_round (QC.round qc);; update_high_qc qc.

Definition process_tc (tc : TC.t) : M () :=
  advance_round (TC.round tc);; update_high_tc tc.

(** [self.aggregator.add_vote(..)?] and [self.aggregator.add_timeout(..)?]. *)
Definition with_aggregator {A} (m : prog Aggregator.t ConsensusError A) : M A := fun s =>
  let '(r, a) := m (aggregator s) in (r, set_aggregator a s).

Definition handle_vote (vote : Vote.t) : M () :=
  cur ← gets round;
  if Vote.round vote <? cur then mret ()
  else
    lift (Vote_verify committee vote);;
    made ← with_aggregator (Aggregator.add_vote committee vote);
    match made with
    | None => mret ()
    | Some qc =>
        process_qc qc;;
        cur ← gets round;
        leader ← get_leader cur;
        if bool_decide (name = leader) then
          fcr ← gets fast_commit_request;
          if (0 <? Vote.payload_size vote) || (0 <? fcr) then
            modify (fun s => set_fast_commit_request (fast_commit_request s - 1) s);;
            generate_proposal None;;
            (if 0 <? Vote.payload_size vote then modify (set_fast_commit_request 2)
             else mret ())
          else
            emit (Sleep 200);;
            generate_proposal None
        else mret ()
    end.

Definition handle_timeout (timeout : Timeout.t) : M () :=
  cur ← gets round;
  if Timeout.round timeout <? cur then mret ()
  else
    lift (Timeout_verify committee timeout);;
    process_qc (Timeout.high_qc timeout);;
    process_tc (Timeout.high_tc timeout);;
    made ← with_aggregator (Aggregator.add_timeout committee timeout);
    match made with
    | None => mret ()
    | Some tc =>
        process_tc tc;;
        broadcast (TCMsg tc);;
        cur ← gets round;
        leader ← get_leader cur;
        if bool_decide (name = leader) then generate_proposal (Some tc) else mret ()
    end.

Definition local_timeout_round : M () :=
  cur ← gets round;
  increase_last_voted_round cur;;
  s ← get;
  let timeout := Timeout.new (high_qc s) (high_tc s) (round s) name in
  request_signature (SignTimeout timeout);;
  emit TimerReset;;
  broadcast (TimeoutMsg timeout);;
  handle_timeout timeout.

Definition cleanup_proposer (b0 b1 block : Block.t) : M () :=
  let digests := Block.payload b0 ++ Block.payload b1 ++ Block.payload block in
  if bool_decide (digests = []) then mret ()
  else send RxProposer "Failed to send message to proposer"
         (ToProposer (CleanupProposer digests)).

(** [Synchronizer::get_parent_block] and [Synchronizer::get_ancestors]. *)
Definition sync_get_parent_block (block : Block.t) : M (option Block.t) :=
  if QC.eqb (Block.qc block) QC.genesis then mret (Some Block.genesis)
  else
    st ← gets store;
    match Store.read st (Block.parent block) with
    | inl e => fail (StoreErr e)
    | inr (Some data) =>
        match de_block data with
        | Some b => mret (Some b)
        | None => fail SerializationError
        end
    | inr None =>
        send RxSynchronizer "Failed to send request to synchronizer" (ToSynchronizer block);;
        mret None
    end.

Definition get_ancestors (block : Block.t) : M (option (Block.t * Block.t)) :=
  b1 ← sync_get_parent_block block;
  match b1 with
  | None => mret None
  | Some b1 =>
      b0 ← sync_get_parent_block b1;
      match b0 with
      | None => mret None
      | Some b0 => mret (Some (b0, b1))
      end
  end.

(** [MempoolDriver::verify] and [MempoolDriver::cleanup]. *)
Fixpoint missing_payload (payload missing : list Digest) : M (list Digest) :=
  match payload with
  | [] => mret missing
  | x :: payload =>
      st ← gets store;
      match Store.read st x with
      | inl e => fail (StoreErr e)
      | inr None => missing_payload payload (missing ++ [x])
      | inr (Some _) => missing_payload payload missing
      end
  end.

Definition mempool_verify (block : Block.t) : M bool :=
  missing ← missing_payload (Block.payload block) [];
  if bool_decide (missing = []) then mret true
  else
    send RxMempool "Failed to send sync message"
      (ToMempool (Synchronize missing (Block.author block)));;
    send RxPayloadWaiter "Failed to send message to payload waiter"
      (ToPayloadWaiter (Wait missing block));;
    mret false.

Definition mempool_cleanup (r : Round) : M () :=
  send RxMempool "Failed to send cleanup message" (ToMempool (CleanupMempool r));;
  send RxPayloadWaiter "Failed to send cleanup message" (ToPayloadWaiter (CleanupWaiter r)).

Definition process_block (fuel : nat) (block : Block.t) : M () :=
  store_block block;;
  ancestors ← get_ancestors block;
  match ancestors with
  | None => mret ()
  | Some (b0, b1) =>
      cleanup_proposer b0 b1 block;;
      (if u64 (Block.round b0 + 1) =? Block.round b1 then
         mempool_cleanup (Block.round b0);;
         commit fuel b0
       else mret ());;
      cur ← gets round;
      if negb (Block.round block =? cur) then mret ()
      else
        vote ← make_vote block;
        match vote with
        | None => mret ()
        | Some vote => handle_vote vote;; broadcast (VoteMsg vote)
        end
  end.

Definition handle_proposal (fuel : nat) (block : Block.t) : M () :=
  leader ← get_leader (Block.round block);
  lift (ensure (bool_decide (Block.author block = leader))
          (WrongLeader (Block.digest block) (Block.author block) (Block.round block)));;
  lift (Block_verify committee block);;
  process_qc (Block.qc block);;
  match Block.tc block with Some tc => process_tc tc | None => mret () end;;
  available ← mempool_verify block;
  if negb available then mret () else process_block fuel block.

Definition handle_tc (tc : TC.t) : M () :=
  process_tc tc;;
  cur ← gets round;
  leader ← get_leader cur;
  if bool_decide (name = leader) then generate_proposal (Some tc) else mret ().

(** The first lines of [run], before the loop. *)
Definition boot : M () :=
  emit TimerReset;;
  cur ← gets round;
  leader ← get_leader cur;
  if bool_decide (name = leader) then generate_proposal None else mret ().

(** One iteration of the loop of [run]; an error is logged, a panic ends the
    task. *)
Definition handle (fuel : nat) (i : input) : M () :=
  match i with
  | Received (Propose block) => handle_proposal fuel block
  | Received (VoteMsg vote) => handle_vote vote
  | Received (TimeoutMsg timeout) => handle_timeout timeout
  | Received (TCMsg tc) => handle_tc tc
  | Received (SyncRequest _ _) => panic "Unexpected protocol message"
  | Loopback block => process_block fuel block
  | TimerFired => local_timeout_round
  end.

End core.
End Core.
