(* ===== verification/Ideal.v ===== *)
(** * Ideal serialisation, as an instance

    A serialiser in the place of [bincode]: the fields of a value in order, a
    sequence after its length.  Together with the ideal primitives of [Messages]
    and the store in memory of [Store] it instantiates the parameters of the
    consensus model, so that its hypotheses can be met and its definitions run. *)

From S2P Require Import Prelude Store Committee Messages Network Core.

(** Writing a value, and reading it back from the front of a list. *)
Class Flat (A : Type) := {
  put : A -> bytes;
  take_front : bytes -> option (A * bytes);
  take_put a l : take_front (put a ++ l) = Some (a, l)
}.

#[global, refine] Instance flat_Z : Flat Z := {|
  put z := [z];
  take_front l := match l with z :: l => Some (z, l) | [] => None end
|}.
Proof. done. Defined.

#[global, refine] Instance flat_prod `{Flat A} `{Flat B} : Flat (A * B) := {|
  put x := put x.1 ++ put x.2;
  take_front l :=
    match take_front l with
    | Some (a, l) =>
        match take_front l with Some (b, l) => Some ((a, b), l) | None => None end
    | None => None
    end
|}.
Proof. intros [a b] l. simpl. by rewrite <- app_assoc, take_put, take_put. Defined.

#[global, refine] Instance flat_option `{Flat A} : Flat (option A) := {|
  put x := match x with Some a => 1 :: put a | None => [0] end;
  take_front l :=
    match l with
    | 1 :: l => match take_front l with Some (a, l) => Some (Some a, l) | None => None end
    | _ :: l => Some (None, l)
    | [] => None
    end
|}.
Proof. intros [a|] l; simpl; [by rewrite take_put|done]. Defined.

Fixpoint take_times `{Flat A} (n : nat) (l : bytes) : option (list A * bytes) :=
  match n with
  | O => Some ([], l)
  | S n =>
      match take_front l with
      | Some (a, l) =>
          match take_times n l with Some (x, l) => Some (a :: x, l) | None => None end
      | None => None
      end
  end.

#[global, refine] Instance flat_list `{Flat A} : Flat (list A) := {|
  put x := Z.of_nat (length x) :: concat (map put x);
  take_front l := match l with n :: l => take_times (Z.to_nat n) l | [] => None end
|}.
Proof.
  intros x l. simpl. rewrite Nat2Z.id.
  induction x as [|a x IH]; simpl; [done|]. by rewrite <- app_assoc, take_put, IH.
Defined.

(** A type with the fields of another one. *)
#[refine] Definition flat_iso {A B} `{Flat B} (f : A -> B) (g : B -> A)
  (Hgf : forall a, g (f a) = a) : Flat A := {|
  put a := put (f a);
  take_front l := match take_front l with Some (b, l) => Some (g b, l) | None => None end
|}.
Proof. intros a l. simpl. by rewrite take_put, Hgf. Defined.

#[global] Instance flat_Signature : Flat Signature.
Proof.
  refine (flat_iso (fun s => (part1 s, part2 s)) (fun '(a, b) => mkSignature a b) _).
  by intros [].
Defined.

#[global] Instance flat_QC : Flat QC.t.
Proof.
  refine (flat_iso
    (fun x => (QC.hash x, QC.round x, QC.payload_size x, QC.votes x))
    (fun '(a, b, p, v) => QC.mk a b p v) _).
  by intros [].
Defined.

#[global] Instance flat_TC : Flat TC.t.
Proof.
  refine (flat_iso (fun x => (TC.round x, TC.votes x)) (fun '(a, b) => TC.mk a b) _).
  by intros [].
Defined.

#[global] Instance flat_Block : Flat Block.t.
Proof.
  refine (flat_iso
    (fun x => (Block.qc x, Block.tc x, Block.author x, Block.round x, Block.payload x,
               Block.signature x))
    (fun '(a, b, p, r, l, s) => Block.mk a b p r l s) _).
  by intros [].
Defined.

#[global] Instance flat_Vote : Flat Vote.t.
Proof.
  refine (flat_iso
    (fun x => (Vote.hash x, Vote.round x, Vote.payload_size x, Vote.author x,
               Vote.signature x))
    (fun '(a, b, p, r, s) => Vote.mk a b p r s) _).
  by intros [].
Defined.

#[global] Instance flat_Timeout : Flat Timeout.t.
Proof.
  refine (flat_iso
    (fun x => (Timeout.high_qc x, Timeout.high_tc x, Timeout.round x, Timeout.author x,
               Timeout.signature x))
    (fun '(a, b, p, r, s) => Timeout.mk a b p r s) _).
  by intros [].
Defined.

#[global, refine] Instance flat_ConsensusMessage : Flat ConsensusMessage := {|
  put m :=
    match m with
    | Propose b => 0 :: put b
    | VoteMsg v => 1 :: put v
    | TimeoutMsg x => 2 :: put x
    | TCMsg tc => 3 :: put tc
    | SyncRequest d p => [4; d; p]
    end;
  take_front l :=
    match l with
    | 0 :: l => match take_front l with Some (b, l) => Some (Propose b, l) | None => None end
    | 1 :: l => match take_front l with Some (v, l) => Some (VoteMsg v, l) | None => None end
    | 2 :: l => match take_front l with Some (x, l) => Some (TimeoutMsg x, l) | None => None end
    | 3 :: l => match take_front l with Some (x, l) => Some (TCMsg x, l) | None => None end
    | 4 :: d :: p :: l => Some (SyncRequest d p, l)
    | _ => None
    end
|}.
Proof. intros [] l; cbn -[take_front put]; by rewrite ?take_put. Defined.

#[global] Instance flat_DvfMessage : Flat DvfMessage.
Proof.
  refine (flat_iso (fun m => (version m, validator_id m, message m))
    (fun '(a, b, p) => mkDvfMessage a b p) _).
  by intros [].
Defined.

Definition flat_de `{Flat A} (l : bytes) : option A :=
  match take_front l with Some (a, []) => Some a | _ => None end.

Lemma flat_de_put `{Flat A} (a : A) : flat_de (put a) = Some a.
Proof. unfold flat_de. by rewrite <- (app_nil_r (put a)), take_put. Qed.

Definition ideal_bincode : Bincode := {|
  ser_block := put; de_block := flat_de;
  ser_message := put; de_message := flat_de;
  ser_dvf := put; de_dvf := flat_de
|}.

Lemma ideal_round_trip : @BincodeRoundTrip ideal_bincode.
Proof. split; intros; apply flat_de_put. Qed.

(** An empty store in memory. *)
Definition empty_store : @Store.t Digest bytes _ _ memory_db :=
  @Store.new Digest bytes _ _ memory_db (∅ : gmap Digest bytes).
