(* ===== verification/CoreInv.v ===== *)
(** * Invariant of one consensus node

    What every handler of [Core] keeps true of an honest node, whatever the
    messages it receives: certificates it holds carry the signatures they need,
    it votes at most once per round and in increasing rounds, only under the
    voting rules, and it never signs a timeout that hides the certificates it
    has seen.  The agreement proof combines these facts across nodes. *)

From S2P Require Import Prelude Store Committee Messages Aggregator Network Core.

(** [d] is the digest of an ancestor of the block with the second digest, or of
    the block itself; the parent is named by the hash in the QC. *)
Inductive ancestor `{Crypto} (d : Digest) : Digest -> Prop :=
| ancestor_refl : ancestor d d
| ancestor_parent b : ancestor d (QC.hash (Block.qc b)) -> ancestor d (Block.digest b).

Lemma ancestor_trans `{Crypto} d1 d2 d3 : ancestor d1 d2 -> ancestor d2 d3 -> ancestor d1 d3.
Proof. intros H12 H23. induction H23; [done|by apply ancestor_parent]. Qed.

Lemma ancestor_of_parent `{Crypto} b : ancestor (QC.hash (Block.qc b)) (Block.digest b).
Proof. apply ancestor_parent, ancestor_refl. Qed.

(** The digest that a signing event hands to the signature service. *)
Definition signed_digest `{Crypto} (e : event) : option Digest :=
  match e with
  | SignVote _ v => Some (Vote.digest v)
  | SignTimeout x => Some (Timeout.digest x)
  | _ => None
  end.

Definition has_signed `{Crypto} (l : list event) (d : Digest) : Prop :=
  exists e, e ∈ l /\ signed_digest e = Some d.

(** What must hold of two signing events of an honest node in this order. *)
Definition compat (e1 e2 : event) : Prop :=
  match e1, e2 with
  | SignVote b1 _, SignVote b2 _ => Block.round b1 < Block.round b2
  | SignTimeout x1, SignVote b2 _ => Timeout.round x1 < Block.round b2
  | SignVote b1 _, SignTimeout x2 =>
      QC.round (Block.qc b1) <= QC.round (Timeout.high_qc x2)
  | _, _ => True
  end.

Section definitions.
Context `{Crypto} `{Rocksdb Digest bytes} (c : Committee.t) (name : PublicKey).
Implicit Types (U : PublicKey -> Digest -> Prop) (b : Block.t).

(** The genesis QC or a certificate of a quorum. *)
Definition QC_ok U (qc : QC.t) : Prop :=
  QC.eqb qc QC.genesis = true \/ QC_good c U qc.

Definition is_round (r : Round) : Prop := 0 <= r < u64_max.

(** A block that the node may process: its QC is certified and not newer than
    round [hq], it is the leader's, and its TC is certified unless it is a block
    of the node itself. *)
Record block_ok U (hq : Round) b : Prop := {
  bo_qc : QC_ok U (Block.qc b);
  bo_qc_round : 0 <= QC.round (Block.qc b) <= hq;
  bo_leader : RRLeaderElector.get_leader c (Block.round b) = Some (Block.author b);
  bo_tc tc : Block.tc b = Some tc ->
    is_round (TC.round tc) /\ (Block.author b = name \/ TC_good c U tc)
}.

(** The voting rules. *)
Definition vote_ok U b : Prop :=
  block_ok U (Block.round b - 1) b /\ Block.round b <= u64_max /\
  (QC.round (Block.qc b) + 1 = Block.round b \/
   exists tc, Block.tc b = Some tc /\ TC.round tc + 1 = Block.round b /\
     forall q, q ∈ TC.high_qc_rounds tc -> q <= QC.round (Block.qc b)).

(** [b] is the head [b0] of a certified 2-chain, or one of its ancestors. *)
Definition committed U b : Prop :=
  exists b0 b1 qc1,
    QC_good c U qc1 /\ QC.hash qc1 = Block.digest b1 /\
    QC_good c U (Block.qc b1) /\ QC.hash (Block.qc b1) = Block.digest b0 /\
    u64 (Block.round b0 + 1) = Block.round b1 /\
    ancestor (Block.digest b) (Block.digest b0).

Definition event_ok U (s : Core.t) (e : event) : Prop :=
  match e with
  | SignVote b v =>
      v = Vote.new b name /\ vote_ok U b /\
      Block.round b <= Core.last_voted_round s /\
      QC.round (Block.qc b) <= QC.round (Core.high_qc s)
  | SignTimeout x => Timeout.round x <= Core.last_voted_round s
  | ToProposer (Make r qc tc) =>
      QC_ok U qc /\ 0 <= QC.round qc <= QC.round (Core.high_qc s) /\
      RRLeaderElector.get_leader c r = Some name /\
      (forall x, tc = Some x -> is_round (TC.round x))
  | ToSynchronizer b | ToPayloadWaiter (Wait _ b) =>
      block_ok U (QC.round (Core.high_qc s)) b
  | Commit b => committed U b
  | _ => True
  end.

(** A key that is not the digest of a block: the mempool's batches. *)
Definition foreign (d : Digest) : Prop := forall b, Block.digest b <> d.

End definitions.

(** ** The facts only grow *)

Section monotone.
Context `{Crypto} `{Rocksdb Digest bytes} (c : Committee.t) (name : PublicKey).
Context (U U' : PublicKey -> Digest -> Prop) (HU : forall pk d, U pk d -> U' pk d).

Lemma QC_ok_mono qc : QC_ok c U qc -> QC_ok c U' qc.
Proof. intros [?|?]; [by left|right]. by eapply QC_good_mono. Qed.

Lemma block_ok_mono hq hq' b :
  hq <= hq' -> block_ok c name U hq b -> block_ok c name U' hq' b.
Proof.
  intros Hle [Hq Hr Hl Ht]. split; [by apply QC_ok_mono|lia|done|].
  intros tc Htc. destruct (Ht tc Htc) as [? [?|?]]; split; auto.
  right. by eapply TC_good_mono.
Qed.

Lemma vote_ok_mono b : vote_ok c name U b -> vote_ok c name U' b.
Proof. intros [Hb Hr]. split; [|done]. eapply block_ok_mono; [|done]. lia. Qed.

Lemma committed_mono b : committed c U b -> committed c U' b.
Proof.
  intros (b0 & b1 & qc1 & Hq1 & He1 & Hq0 & Hrest). exists b0, b1, qc1.
  split_and!; try apply Hrest; try done; by eapply QC_good_mono.
Qed.

(** The part of the state that event facts mention, growing. *)
Definition grows (s s' : Core.t) : Prop :=
  Core.round s <= Core.round s' /\
  Core.last_voted_round s <= Core.last_voted_round s' /\
  QC.round (Core.high_qc s) <= QC.round (Core.high_qc s').

Lemma event_ok_mono s s' e :
  grows s s' -> event_ok c name U s e -> event_ok c name U' s' e.
Proof.
  intros (Hr & Hv & Hq). destruct e as [b v|x| |[r qc tc|]|b| |[m b|]|b| | |]; simpl;
    try done.
  - intros (Hv1 & Hok & ? & ?). split_and!; [done|by apply vote_ok_mono|lia..].
  - lia.
  - intros (? & ? & ? & ?). split_and!; try done; [by apply QC_ok_mono|lia..].
  - apply committed_mono.
  - by apply block_ok_mono.
  - by apply block_ok_mono.
Qed.

End monotone.

(** ** The invariant *)

Section invariant.
Context `{Crypto} `{Bincode} `{!BincodeRoundTrip}.
Context `{Rocksdb Digest bytes} `{!RocksdbSafe Digest bytes}.
Context (c : Committee.t) (Hc : well_formed c) (name : PublicKey) (vid : Z).
Context (Hcf : collision_free).
(** The honest nodes, and what the other honest nodes have signed. *)
Context (honest : gset PublicKey) (Uo : PublicKey -> Digest -> Prop).
Context (Hhonest : weight c (members (C := Committee.t) c ∖ honest)
                   < Committee.quorum_threshold c).

(** Digests that an honest node signs are those of votes and timeouts. *)
Definition signable (pk : PublicKey) (d : Digest) : Prop :=
  (exists b, d = Vote.digest (Vote.new b pk)) \/ (exists x, d = Timeout.digest x).

Context (Huo : forall pk d, pk ∈ honest -> Uo pk d -> signable pk d).

(** What the signatures that the node has verified mean: an honest signer has
    really signed the digest. *)
Definition knows (l : list event) (pk : PublicKey) (d : Digest) : Prop :=
  pk ∈ honest -> if decide (pk = name) then has_signed l d else Uo pk d.

Abbreviation K s := (knows (Core.out s)).

Record inv (s : Core.t) : Prop := {
  inv_round : 0 <= QC.round (Core.high_qc s) < Core.round s;
  inv_round_max : Core.round s <= u64_max;
  inv_voted : 0 <= Core.last_voted_round s;
  inv_committed : 0 <= Core.last_committed_round s;
  inv_high_tc : is_round (TC.round (Core.high_tc s));
  inv_high_qc : QC_ok c (K s) (Core.high_qc s);
  inv_agg : agg_inv c (K s) (Core.aggregator s);
  inv_store d v : Store.read (Core.store s) d = inr (Some v) ->
    foreign d \/
    exists b, v = ser_block b /\ Block.digest b = d /\
      block_ok c name (K s) (QC.round (Core.high_qc s)) b;
  inv_events e : e ∈ Core.out s -> event_ok c name (K s) s e;
  inv_trace : ForallOrdPairs compat (Core.out s)
}.

(** Progress of a node between two states. *)
Definition le (s s' : Core.t) : Prop :=
  grows s s' /\ Core.last_committed_round s <= Core.last_committed_round s' /\
  exists l, Core.out s' = Core.out s ++ l.

Lemma le_refl s : le s s.
Proof. split; [unfold grows; lia|]. split; [lia|]. exists []. by rewrite app_nil_r. Qed.

Lemma le_trans s1 s2 s3 : le s1 s2 -> le s2 s3 -> le s1 s3.
Proof.
  intros ((? & ? & ?) & ? & l & Hl) ((? & ? & ?) & ? & l' & Hl').
  split; [unfold grows; lia|]. split; [lia|]. exists (l ++ l').
  by rewrite Hl', Hl, app_assoc.
Qed.

Lemma knows_app l l' pk d : knows l pk d -> knows (l ++ l') pk d.
Proof.
  unfold knows, has_signed. intros HK Hh. specialize (HK Hh). case_decide; [|done].
  destruct HK as (e & He & Hd). exists e. split; [|done]. apply elem_of_app. auto.
Qed.

Lemma le_knows s s' pk d : le s s' -> K s pk d -> K s' pk d.
Proof. intros (_ & _ & l & ->). apply knows_app. Qed.

(** The knowledge of a state concerns votes and timeouts only. *)
Lemma knows_signable s pk d : inv s -> pk ∈ honest -> K s pk d -> signable pk d.
Proof.
  intros Hs Hh HK. specialize (HK Hh). case_decide as Hn; [|by apply Huo]. subst pk.
  destruct HK as (e & He & Hd). pose proof (inv_events _ Hs e He) as Hok.
  destruct e; simpl in Hd; simplify_eq.
  - left. exists block. f_equal. apply Hok.
  - right. by eexists.
Qed.

Lemma quorum_has_honest names :
  quorum_names c names -> exists pk, pk ∈ names /\ pk ∈ honest.
Proof.
  intros (Hnd & Hpos & Hq).
  destruct (weight_of_outside (stake_of c) (fun n => stake_of_nonneg c n Hc)
    (list_to_set names) (members (C := Committee.t) c ∖ honest)) as [pk [Hin Hout]].
  { unfold weight in *. lia. }
  apply elem_of_list_to_set in Hin. exists pk. split; [done|].
  destruct (decide (pk ∈ honest)); [done|]. exfalso. apply Hout.
  apply elem_of_difference. split; [|done]. apply stake_of_pos_member.
  rewrite Committee_stake_of. auto.
Qed.

(** A certificate of a quorum names the digest of a block. *)
Lemma QC_good_block s qc :
  inv s -> QC_good c (K s) qc -> exists b, Block.digest b = QC.hash qc.
Proof.
  intros Hs [Hq He]. destruct (quorum_has_honest _ Hq) as (pk & Hpk & Hh).
  apply list_elem_of_fmap in Hpk as ([pk' sg] & -> & Hin).
  destruct (He _ Hin) as [_ HK]. apply (knows_signable s _ _ Hs Hh) in HK.
  destruct HK as [[b Hb]|[x Hx]].
  - apply Hcf in Hb. injection Hb as Hb _ _. by exists b.
  - apply Hcf in Hx. discriminate.
Qed.

Lemma eqb_genesis qc : QC.eqb qc QC.genesis = true <-> QC.hash qc = 0 /\ QC.round qc = 0.
Proof.
  unfold QC.eqb. rewrite andb_true_iff, !Z.eqb_eq. done.
Qed.

(** What the store returns for the parent of a block. *)
Lemma inv_read s qc v :
  inv s -> QC_ok c (K s) qc -> QC.eqb qc QC.genesis = false ->
  Store.read (Core.store s) (QC.hash qc) = inr (Some v) ->
  exists b, de_block v = Some b /\ Block.digest b = QC.hash qc /\
    block_ok c name (K s) (QC.round (Core.high_qc s)) b /\ QC_good c (K s) qc.
Proof.
  intros Hs [Hg|Hg] Hne Hr; [congruence|].
  destruct (inv_store _ Hs _ _ Hr) as [Hf|(b & -> & Hd & Hb)].
  - destruct (QC_good_block s qc Hs Hg) as [b Hb]. by destruct (Hf b).
  - exists b. by rewrite de_ser_block.
Qed.

(** ** State changes that keep the invariant *)

(** A change that emits nothing. *)
Lemma inv_silent s s' :
  inv s -> Core.out s' = Core.out s -> grows s s' ->
  QC.round (Core.high_qc s') < Core.round s' <= u64_max ->
  0 <= Core.last_committed_round s' -> is_round (TC.round (Core.high_tc s')) ->
  QC_ok c (K s) (Core.high_qc s') ->
  agg_inv c (K s) (Core.aggregator s') ->
  (forall d v, Store.read (Core.store s') d = inr (Some v) ->
     Store.read (Core.store s) d = inr (Some v) \/
     exists b, v = ser_block b /\ Block.digest b = d /\
       block_ok c name (K s) (QC.round (Core.high_qc s')) b) ->
  inv s'.
Proof.
  intros [Hr Hm Hv Hl Htc Hq Ha Hst He Ht] Ho Hg Hr' Hl' Htc' Hq' Ha' Hst'.
  pose proof Hg as (Hg1 & Hg2 & Hg3).
  split; rewrite ?Ho; try done; try lia.
  - intros d v Hread. destruct (Hst' d v Hread) as [Hold|Hnew]; [|by right].
    destruct (Hst d v Hold) as [?|(b & ? & ? & ?)]; [by left|right].
    exists b. split_and!; [done..|]. eapply block_ok_mono; [..|done]; [done|lia].
  - intros e Hin. eapply event_ok_mono; [..|by apply He]; done.
Qed.

(** One more event. *)
Lemma inv_event s e :
  inv s -> event_ok c name (knows (Core.out s ++ [e])) s e ->
  (forall e0, e0 ∈ Core.out s -> compat e0 e) ->
  inv (Core.set_out (Core.out s ++ [e]) s).
Proof.
  intros [Hr Hm Hv Hl Htc Hq Ha Hst He Ht] Hok Hcompat.
  assert (forall pk d, K s pk d -> knows (Core.out s ++ [e]) pk d) as HU
    by (intros; by apply knows_app).
  split; simpl; try done.
  - by eapply QC_ok_mono.
  - by eapply agg_inv_mono.
  - intros d v Hread. destruct (Hst d v Hread) as [?|(b & ? & ? & ?)]; [by left|right].
    exists b. split_and!; [done..|]. eapply block_ok_mono; [..|done]; [done|lia].
  - intros e0 [Hin| ->%list_elem_of_singleton]%elem_of_app.
    + eapply (event_ok_mono _ _ _ _ HU s); [|by apply He]. unfold grows. simpl. lia.
    + eapply (event_ok_mono _ _ _ _ (fun _ _ H => H) s); [|done]. unfold grows. simpl. lia.
  - apply ForallOrdPairs_snoc; [done|]. by apply Forall_forall.
Qed.

Lemma compat_silent e0 e : signed_digest e = None -> compat e0 e.
Proof. by destruct e0, e. Qed.

Lemma le_set_out s e : le s (Core.set_out (Core.out s ++ [e]) s).
Proof. split; [unfold grows; simpl; lia|]. split; [simpl; lia|]. by exists [e]. Qed.

Lemma le_silent s s' :
  grows s s' -> Core.last_committed_round s <= Core.last_committed_round s' ->
  Core.out s' = Core.out s -> le s s'.
Proof.
  intros Hg Hl Ho. split; [done|]. split; [done|]. exists []. by rewrite Ho, app_nil_r.
Qed.

(** ** Reasoning about handlers *)

(** From [s0], the invariant holds and [Q] if the handler returns a value. *)
Definition post (s0 : Core.t) {A} (Q : A -> Core.t -> Prop)
  (r : outcome ConsensusError A) (s : Core.t) : Prop :=
  inv s /\ le s0 s /\ match r with Ok a => Q a s | _ => True end.

Lemma post_bind {A B} s0 s (m : prog Core.t ConsensusError A)
  (k : A -> prog Core.t ConsensusError B) Q R :
  wp m (post s0 Q) s ->
  (forall a s1, inv s1 -> le s0 s1 -> Q a s1 -> wp (k a) (post s0 R) s1) ->
  wp (m ≫= k) (post s0 R) s.
Proof.
  intros Hm Hk. apply wp_bind. eapply wp_mono; [|exact Hm].
  intros [a|e|msg|] s1 (Hi & Hl & HQ); simpl; [by apply Hk|by split_and!..].
Qed.

Lemma post_from {A} s0 s (m : prog Core.t ConsensusError A) Q Q' :
  le s0 s -> wp m (post s Q) s -> (forall a s', le s s' -> Q a s' -> Q' a s') ->
  wp m (post s0 Q') s.
Proof.
  intros Hle Hm HQ. eapply wp_mono; [|exact Hm]. intros r s' (Hi & Hl & Hr).
  split_and!; [done|by eapply le_trans|]. destruct r; auto.
Qed.

Lemma post_ret {A} s0 s (a : A) Q :
  inv s -> le s0 s -> Q a s -> wp (mret a) (post s0 Q) s.
Proof. by intros. Qed.

Lemma post_gets {A} s0 s (f : Core.t -> A) :
  inv s -> le s0 s -> wp (gets f) (post s0 (fun a s' => s' = s /\ a = f s)) s.
Proof. by intros. Qed.

Lemma post_get s0 s : inv s -> le s0 s -> wp get (post s0 (fun a s' => s' = s /\ a = s)) s.
Proof. by intros. Qed.

Lemma post_lift {A} s0 s (m : outcome ConsensusError A) :
  inv s -> le s0 s -> wp (lift m) (post s0 (fun a s' => s' = s /\ m = Ok a)) s.
Proof. intros Hi Hl. split_and!; [done..|]. simpl. by destruct m. Qed.

Lemma post_leader s0 s r :
  inv s -> le s0 s -> wp (Core.get_leader c r)
    (post s0 (fun l s' => s' = s /\ RRLeaderElector.get_leader c r = Some l)) s.
Proof.
  intros Hi Hl. unfold Core.get_leader. apply wp_expect; intros; by split_and!.
Qed.

Lemma post_emit s0 s e :
  inv s -> le s0 s -> signed_digest e = None ->
  event_ok c name (knows (Core.out s ++ [e])) s e ->
  wp (Core.emit e) (post s0 (fun _ s' => s' = Core.set_out (Core.out s ++ [e]) s)) s.
Proof.
  intros Hi Hl Hd He. unfold Core.emit. apply wp_modify. split_and!; [|by eapply le_trans,
    le_set_out|done].
  apply inv_event; [done|done|]. intros. by apply compat_silent.
Qed.

Lemma post_reach s0 s r msg :
  inv s -> le s0 s -> wp (Core.reach r msg) (post s0 (fun _ s' => s' = s)) s.
Proof.
  intros Hs Hl. unfold wp, Core.reach. case_bool_decide; by split_and!.
Qed.

Lemma post_send s0 s r msg e :
  inv s -> le s0 s -> signed_digest e = None ->
  event_ok c name (knows (Core.out s ++ [e])) s e ->
  wp (Core.send r msg e) (post s0 (fun _ s' => s' = Core.set_out (Core.out s ++ [e]) s)) s.
Proof.
  intros Hs Hl Hd He. unfold Core.send.
  eapply post_bind; [by apply post_reach|]. intros [] s1 _ _ ->. by apply post_emit.
Qed.

Lemma post_modify s0 s f (Q : () -> Core.t -> Prop) :
  inv (f s) -> le s0 (f s) -> Q () (f s) -> wp (modify f) (post s0 Q) s.
Proof. by intros. Qed.

(** ** Storage *)

Lemma read_same_keeps s st :
  (forall d v, Store.read st d = inr (Some v) ->
     Store.read (Core.store s) d = inr (Some v) \/
     exists b, v = ser_block b /\ Block.digest b = d /\
       block_ok c name (K s) (QC.round (Core.high_qc s)) b) ->
  inv s -> inv (Core.set_store st s).
Proof.
  intros Hst Hs. pose proof Hs as [Hr Hm Hv Hl Htc Hq Ha _ He Ht].
  apply (inv_silent s); try done; simpl; lia.
Qed.

Lemma post_store_block s0 s b :
  inv s -> le s0 s -> block_ok c name (K s) (QC.round (Core.high_qc s)) b ->
  wp (Core.store_block b) (post s0 (fun _ _ => True)) s.
Proof.
  intros Hs Hl Hb. unfold wp, Core.store_block.
  destruct (Store.write (Core.store s) (Block.digest b) (ser_block b)) as [st rs] eqn:Hw.
  assert (inv (Core.set_store st s)) as Hs'.
  { apply read_same_keeps; [|done]. intros d v Hread.
    assert (Store.read (fst (Store.write (Core.store s) (Block.digest b) (ser_block b))) d
      = inr (Some v)) as Hread' by (by rewrite Hw).
    apply Store.read_write_some in Hread' as [[-> ->]|?]; [right; eauto|by left]. }
  change (wp (Core.emit (StoreReplies rs)) (post s0 (fun _ _ => True)) (Core.set_store st s)).
  eapply post_from; [|apply post_emit; [done|apply le_refl|done|done]|done].
  eapply le_trans; [done|]. apply le_silent; [unfold grows; simpl; lia|simpl; lia|done].
Qed.

Lemma post_remove_block s0 s b :
  inv s -> le s0 s -> wp (Core.remove_block b) (post s0 (fun _ _ => True)) s.
Proof.
  intros Hs Hl. unfold Core.remove_block. apply post_modify; [|..|done].
  - apply read_same_keeps; [|done]. intros d v Hr. left. by eapply Store.read_delete_some.
  - eapply le_trans; [done|]. apply le_silent; [unfold grows; simpl; lia|simpl; lia|done].
Qed.

(** What the parent of a block can be. *)
Definition parent_of (s : Core.t) (b anc : Block.t) : Prop :=
  (QC.eqb (Block.qc b) QC.genesis = true /\ anc = Block.genesis) \/
  (QC.eqb (Block.qc b) QC.genesis = false /\
   Block.digest anc = QC.hash (Block.qc b) /\ QC_good c (K s) (Block.qc b) /\
   block_ok c name (K s) (QC.round (Core.high_qc s)) anc).

Lemma post_get_parent_block s0 s b :
  inv s -> le s0 s -> QC_ok c (K s) (Block.qc b) ->
  wp (Core.get_parent_block b) (post s0 (fun o s' =>
    s' = s /\ forall anc, o = Some anc -> parent_of s b anc)) s.
Proof.
  intros Hs Hl Hq. unfold Core.get_parent_block, parent_of.
  destruct (QC.eqb (Block.qc b) QC.genesis) eqn:Hg.
  { apply post_ret; [done..|]. split; [done|]. intros ? [= <-]. by left. }
  eapply post_bind; [by apply post_gets|]. intros st s1 Hs1 Hl1 [-> ->].
  destruct (Store.read (Core.store s) (Block.parent b)) as [e|[v|]] eqn:Hr;
    [by apply post_ret| |by apply post_ret].
  destruct (inv_read s _ _ Hs Hq Hg Hr) as (anc & Hde & Hd & Hb & Hgood).
  rewrite Hde. simpl. apply post_ret; [done..|]. split; [done|].
  intros ? [= <-]. right. by split_and!.
Qed.

Lemma parent_of_qc s b anc : parent_of s b anc -> QC_ok c (K s) (Block.qc anc).
Proof. intros [[_ ->]|(_ & _ & _ & Hb)]; [by left|by apply Hb]. Qed.

Lemma QC_ok_le s s' qc : le s s' -> QC_ok c (K s) qc -> QC_ok c (K s') qc.
Proof. intros Hl. apply QC_ok_mono. intros. by eapply le_knows. Qed.

Lemma block_ok_le s s' b :
  le s s' -> block_ok c name (K s) (QC.round (Core.high_qc s)) b ->
  block_ok c name (K s') (QC.round (Core.high_qc s')) b.
Proof.
  intros Hl. apply block_ok_mono; [|apply Hl]. intros. by eapply le_knows.
Qed.

Lemma committed_le s s' b : le s s' -> committed c (K s) b -> committed c (K s') b.
Proof. intros Hl. apply committed_mono. intros. by eapply le_knows. Qed.

(** ** Commit *)

Lemma post_prune_loop fuel s0 s b i :
  inv s -> le s0 s -> QC_ok c (K s) (Block.qc b) ->
  wp (Core.prune_loop fuel b i) (post s0 (fun _ _ => True)) s.
Proof.
  revert s b i. induction fuel as [|fuel IH]; intros s b i Hs Hl Hq; [by split_and!|].
  cbn [Core.prune_loop].
  eapply post_bind; [by apply post_get_parent_block|].
  intros [anc|] s1 Hs1 Hl1 [-> Hp]; [|by apply post_ret].
  destruct (Block.eqb b Block.genesis); [by apply post_ret|].
  eapply post_bind; [by apply post_gets|]. intros depth s2 _ _ [-> ->].
  specialize (Hp _ eq_refl). apply parent_of_qc in Hp.
  eapply (post_bind _ _ _ _ (fun _ s' => le s s')).
  - destruct (_ <=? _); [|apply post_ret; [done..|apply le_refl]].
    apply (post_from s0 s _ (fun _ _ => True)); [done| |done].
    apply post_remove_block; [done|apply le_refl].
  - intros [] s3 Hs3 Hl3 Hss. apply IH; [done..|]. by eapply QC_ok_le.
Qed.

(** A block to deliver: without payload, or an ancestor of the committed one. *)
Definition deliverable (b0 b : Block.t) : Prop :=
  Block.payload b = [] \/ ancestor (Block.digest b) (Block.digest b0).

Lemma post_commit_ancestors n s0 s b0 parent acc :
  inv s -> le s0 s -> QC_ok c (K s) (Block.qc parent) ->
  parent = Block.genesis \/ ancestor (Block.digest parent) (Block.digest b0) ->
  (forall b, b ∈ acc -> deliverable b0 b) ->
  wp (Core.commit_ancestors n parent acc)
    (post s0 (fun l s' => s' = s /\ forall b, b ∈ l -> deliverable b0 b)) s.
Proof.
  revert parent acc. induction n as [|n IH]; intros parent acc Hs Hl Hq Hp Hacc;
    cbn [Core.commit_ancestors]; [by apply post_ret|].
  eapply post_bind; [by apply post_gets|]. intros lcr s1 _ _ [-> ->].
  destruct (_ <? _) eqn:Hlt; [|by apply post_ret].
  eapply post_bind; [by apply post_get_parent_block|].
  intros [anc|] s1 _ _ [-> Hpar]; [|by apply post_ret].
  specialize (Hpar _ eq_refl). apply IH; try done.
  - by eapply parent_of_qc.
  - destruct Hpar as [[_ ->]|(_ & Hd & _)]; [by left|]. right.
    destruct Hp as [->|Hp].
    + apply Z.ltb_lt in Hlt. simpl in Hlt.
      pose proof (u64_is_u64 (Core.last_committed_round s + 1)) as [? _]. lia.
    + rewrite Hd. eapply ancestor_trans; [apply ancestor_of_parent|done].
  - intros b [->|Hb]%elem_of_cons; [|by apply Hacc].
    destruct Hpar as [[_ ->]|(_ & Hd & _)]; [by left|]. right. destruct Hp as [->|Hp].
    + apply Z.ltb_lt in Hlt. simpl in Hlt.
      pose proof (u64_is_u64 (Core.last_committed_round s + 1)) as [? _]. lia.
    + rewrite Hd. eapply ancestor_trans; [apply ancestor_of_parent|done].
Qed.

Lemma post_deliver s0 s l :
  inv s -> le s0 s ->
  (forall b, b ∈ l -> Block.payload b = [] \/ committed c (K s) b) ->
  wp (Core.deliver l) (post s0 (fun _ _ => True)) s.
Proof.
  revert s. induction l as [|b l IH]; intros s Hs Hl Hall; cbn [Core.deliver];
    [by apply post_ret|].
  eapply (post_bind _ _ _ _ (fun _ s' => le s s')).
  - case_bool_decide as Hp; [apply post_ret; [done..|apply le_refl]|].
    destruct (Hall b (list_elem_of_here _ _)) as [?|Hb]; [done|].
    eapply post_from; [done|apply post_emit; [done|apply le_refl|done|]|done].
    simpl. eapply committed_mono; [|done]. intros. by apply knows_app.
  - intros [] s1 Hs1 Hl1 Hss. apply IH; [done..|].
    intros b' Hb'. destruct (Hall b' (list_elem_of_further _ _ _ Hb')); [by left|right].
    by eapply committed_le.
Qed.

(** The certificates that allow to commit [b0]. *)
Definition two_chain (s : Core.t) (b0 : Block.t) : Prop :=
  exists b1 qc1,
    QC_good c (K s) qc1 /\ QC.hash qc1 = Block.digest b1 /\
    QC_good c (K s) (Block.qc b1) /\ QC.hash (Block.qc b1) = Block.digest b0 /\
    u64 (Block.round b0 + 1) = Block.round b1.

Lemma two_chain_le s s' b : le s s' -> two_chain s b -> two_chain s' b.
Proof.
  intros Hl (b1 & qc1 & Hq1 & Hd1 & Hq0 & Hd0 & Hr). exists b1, qc1.
  split_and!; try done; (eapply QC_good_mono; [|done]);
    intros; by eapply le_knows.
Qed.

Lemma two_chain_committed s b0 b :
  two_chain s b0 -> ancestor (Block.digest b) (Block.digest b0) -> committed c (K s) b.
Proof. intros (b1 & qc1 & Hrest) Ha. exists b0, b1, qc1. naive_solver. Qed.

Lemma post_commit fuel s0 s b0 :
  inv s -> le s0 s -> QC_ok c (K s) (Block.qc b0) ->
  (0 < Block.round b0 -> two_chain s b0) ->
  wp (Core.commit fuel b0) (post s0 (fun _ _ => True)) s.
Proof.
  intros Hs Hl Hq Hch. unfold Core.commit.
  eapply post_bind; [by apply post_gets|]. intros lcr s1 _ _ [-> ->].
  destruct (_ <=? _) eqn:Hle; [by apply post_ret|].
  pose proof (inv_committed _ Hs) as Hlc. specialize (Hch ltac:(lia)).
  eapply post_bind.
  { apply (post_commit_ancestors 13 s0 s b0); try done; [right; apply ancestor_refl|].
    by intros b ?%elem_of_nil. }
  intros to_commit s1 _ _ [-> Hd].
  set (s1 := Core.set_last_committed_round (Block.round b0) s).
  assert (inv s1) as Hs1.
  { pose proof Hs as [? ? ? ? ? ? ? ? ? ?].
    apply (inv_silent s); simpl; first [done | lia | unfold grows; simpl; lia | by auto]. }
  assert (le s s1) as Hss1 by (apply le_silent; [unfold grows; simpl; lia|simpl; lia|done]).
  eapply (post_bind _ _ _ _ (fun _ s' => s' = s1)).
  { apply post_modify; [done|by eapply le_trans|done]. }
  intros [] s2 _ Hl1 ->.
  eapply (post_bind _ _ _ _ (fun _ s' => le s1 s')).
  { apply (post_from s0 s1 _ (fun _ _ => True)); [done| |done].
    apply post_prune_loop; [done|apply le_refl|]. by apply (QC_ok_le s). }
  intros [] s2 Hs2 Hl2 Hs12. apply post_deliver; [done..|].
  assert (two_chain s2 b0) as Hch' 
    by (apply (two_chain_le s); [by apply (le_trans s s1)|done]).
  intros b Hb. apply list_elem_of_In in Hb. rewrite <- in_rev in Hb.
  apply list_elem_of_In in Hb.
  apply elem_of_cons in Hb as [->|Hb].
  - right. eapply two_chain_committed; [done|apply ancestor_refl].
  - destruct (Hd b Hb) as [?|?]; [by left|right]. by eapply two_chain_committed.
Qed.

(** ** Rounds and certificates *)

Lemma post_advance_round s0 s r :
  inv s -> le s0 s -> is_round r ->
  wp (Core.advance_round r) (post s0 (fun _ s' =>
    r < Core.round s' /\ Core.high_qc s' = Core.high_qc s /\ le s s')) s.
Proof.
  intros Hs Hl Hr. unfold Core.advance_round.
  eapply post_bind; [by apply post_gets|]. intros cur s1 _ _ [-> ->].
  destruct (r <? Core.round s) eqn:Hlt.
  { apply post_ret; [done..|]. split_and!; [lia|done|apply le_refl]. }
  eapply post_bind; [by apply (post_emit _ _ TimerReset)|]. intros [] s1 Hs1 Hl1 ->.
  set (s1 := Core.set_out (Core.out s ++ [TimerReset]) s) in *.
  set (s2 := Core.set_round (u64 (r + 1)) s1).
  set (s3 := Core.set_aggregator (Aggregator.cleanup (Core.round s2) (Core.aggregator s2)) s2).
  assert (Core.round s2 = r + 1) as Hr2 by (simpl; by rewrite u64_succ by apply Hr).
  pose proof (inv_round _ Hs) as Hrd.
  assert (grows s1 s3) as Hg by (unfold grows; simpl; simpl in Hr2; lia).
  assert (inv s3) as Hs3.
  { pose proof Hs1 as [? ? ? ? ? ? ? ? ? ?]. unfold is_round in Hr.
    apply (inv_silent s1); simpl; try done; simpl in Hr2; try lia; [|by auto].
    by apply agg_inv_cleanup. }
  assert (le s1 s3) as Hl3 by (apply le_silent; [done|simpl; lia|done]).
  change (wp (modify (Core.set_round (u64 (r + 1))) ≫= fun _ =>
    modify (fun s => Core.set_aggregator
      (Aggregator.cleanup (Core.round s) (Core.aggregator s)) s))
    (post s0 (fun _ s' => r < Core.round s' /\ Core.high_qc s' = Core.high_qc s /\ le s s')) s1).
  unfold wp. simpl. fold s2. fold s3. split_and!; [done|by apply (le_trans s0 s1)|..].
  - simpl. simpl in Hr2. lia.
  - done.
  - apply (le_trans s s1); [apply le_set_out|done].
Qed.

Lemma post_update_high_qc s0 s qc :
  inv s -> le s0 s -> QC_ok c (K s) qc -> 0 <= QC.round qc < Core.round s ->
  wp (Core.update_high_qc qc) (post s0 (fun _ s' =>
    QC.round qc <= QC.round (Core.high_qc s') /\ Core.round s' = Core.round s /\ le s s')) s.
Proof.
  intros Hs Hl Hq Hr. unfold Core.update_high_qc.
  destruct (QC.round (Core.high_qc s) <? QC.round qc) eqn:Hlt.
  - assert (grows s (Core.set_high_qc qc s)) as Hg by (unfold grows; simpl; lia).
    assert (le s (Core.set_high_qc qc s)) as Hl' by (apply le_silent; [done|simpl; lia|done]).
    apply post_modify; rewrite ?Hlt.
    + pose proof Hs as [? ? ? ? ? ? ? ? ? ?].
      apply (inv_silent s); simpl; try done; try lia. by auto.
    + by apply (le_trans s0 s).
    + split_and!; simpl; [lia|done|done].
  - apply post_modify; rewrite ?Hlt; [done..|]. split_and!; [lia|done|apply le_refl].
Qed.

Lemma post_update_high_tc s0 s tc :
  inv s -> le s0 s -> is_round (TC.round tc) ->
  wp (Core.update_high_tc tc) (post s0 (fun _ s' =>
    Core.round s' = Core.round s /\ Core.high_qc s' = Core.high_qc s /\ le s s')) s.
Proof.
  intros Hs Hl Htc. unfold Core.update_high_tc.
  destruct (TC.round (Core.high_tc s) <? TC.round tc) eqn:Hlt.
  - assert (grows s (Core.set_high_tc tc s)) as Hg by (unfold grows; simpl; lia).
    assert (le s (Core.set_high_tc tc s)) as Hl' by (apply le_silent; [done|simpl; lia|done]).
    apply post_modify; rewrite ?Hlt; [|by apply (le_trans s0 s)|done].
    pose proof Hs as [? ? ? ? ? ? ? ? ? ?].
    apply (inv_silent s); simpl; try done; try lia. by auto.
  - apply post_modify; rewrite ?Hlt; [done..|]. split_and!; [done|done|apply le_refl].
Qed.

Lemma post_process_qc s0 s qc :
  inv s -> le s0 s -> QC_ok c (K s) qc -> is_round (QC.round qc) ->
  wp (Core.process_qc qc) (post s0 (fun _ s' =>
    QC.round qc <= QC.round (Core.high_qc s') /\ le s s')) s.
Proof.
  intros Hs Hl Hq Hr. unfold Core.process_qc.
  eapply post_bind; [by apply post_advance_round|]. intros [] s1 Hs1 Hl1 (Hlt & _ & Hs01).
  eapply post_from; [done| |].
  - apply post_update_high_qc; [done|apply le_refl|by apply (QC_ok_le s)|].
    unfold is_round in Hr. lia.
  - simpl. intros [] s2 Hl2 (? & _ & _). split; [done|]. by apply (le_trans s s1).
Qed.

Lemma post_process_tc s0 s tc :
  inv s -> le s0 s -> is_round (TC.round tc) ->
  wp (Core.process_tc tc) (post s0 (fun _ s' => le s s')) s.
Proof.
  intros Hs Hl Hr. unfold Core.process_tc.
  eapply post_bind; [by apply post_advance_round|]. intros [] s1 Hs1 Hl1 (_ & _ & Hs01).
  eapply post_from; [done|by apply post_update_high_tc; [|apply le_refl|]|].
  simpl. intros [] s2 Hl2 _. by apply (le_trans s s1).
Qed.

Lemma post_generate_proposal s0 s tc :
  inv s -> le s0 s -> RRLeaderElector.get_leader c (Core.round s) = Some name ->
  (forall x, tc = Some x -> is_round (TC.round x)) ->
  wp (Core.generate_proposal tc) (post s0 (fun _ _ => True)) s.
Proof.
  intros Hs Hl Hlead Htc. unfold Core.generate_proposal.
  eapply post_bind; [by apply post_get|]. intros x s1 _ _ [-> ->].
  eapply post_from; [done|apply post_send; [done|apply le_refl|done|]|done].
  pose proof (inv_round _ Hs). simpl. split_and!; try done; try lia.
  eapply QC_ok_mono; [|apply (inv_high_qc _ Hs)]. intros. by apply knows_app.
Qed.

(** The leader test followed by a proposal. *)
Lemma post_propose_if_leader s0 s tc :
  inv s -> le s0 s -> (forall x, tc = Some x -> is_round (TC.round x)) ->
  wp (cur ← gets Core.round;
      leader ← Core.get_leader c cur;
      if bool_decide (name = leader) then Core.generate_proposal tc else mret ())
    (post s0 (fun _ _ => True)) s.
Proof.
  intros Hs Hl Htc.
  eapply post_bind; [by apply post_gets|]. intros cur s1 _ _ [-> ->].
  eapply post_bind; [by apply post_leader|]. intros leader s1 _ _ [-> Hlead].
  case_bool_decide as Hn; [subst leader|by apply post_ret].
  by apply post_generate_proposal.
Qed.

Lemma post_set_fast s0 s n :
  inv s -> le s0 s ->
  inv (Core.set_fast_commit_request n s) /\ le s0 (Core.set_fast_commit_request n s).
Proof.
  intros Hs Hl. split.
  - pose proof Hs as [? ? ? ? ? ? ? ? ? ?].
    apply (inv_silent s); simpl; try done; try lia. by auto.
  - apply (le_trans s0 s); [done|]. apply le_silent; [unfold grows; simpl; lia|simpl; lia|done].
Qed.

Lemma post_broadcast s0 s m :
  inv s -> le s0 s -> wp (Core.broadcast name c vid m) (post s0 (fun _ s' => le s s')) s.
Proof.
  intros Hs Hl. unfold Core.broadcast.
  eapply post_from; [done|apply post_emit; [done|apply le_refl|done|done]|done].
Qed.

(** ** Votes and timeouts *)

Definition sig_known (U : PublicKey -> Digest -> Prop) pk d sg : Prop :=
  valid_sig pk d sg = true -> U pk d.

Definition qc_known (U : PublicKey -> Digest -> Prop) (qc : QC.t) : Prop :=
  forall pk sg, (pk, sg) ∈ QC.votes qc -> sig_known U pk (QC.digest qc) sg.

Definition tc_known (U : PublicKey -> Digest -> Prop) (tc : TC.t) : Prop :=
  forall pk sg q t, (pk, sg, q, t) ∈ TC.votes tc ->
    sig_known U pk (sha512_32 (TC.vote_transcript (TC.round tc) q t)) sg.

Lemma QC_accepted_ok U qc : QC_accepted c qc -> qc_known U qc -> QC_ok c U qc.
Proof.
  intros [Hg|[Hq Hv]] Hk; [by left|]. right. split; [done|].
  intros [pk sg] Hin. split; [by apply Hv|]. by eapply Hk, Hv.
Qed.

Lemma TC_valid_good U tc : TC_valid c tc -> tc_known U tc -> TC_good c U tc.
Proof.
  intros [Hq Hv] Hk. split; [done|]. intros [[[pk sg] q] t] Hin.
  split; [by apply Hv|]. by eapply Hk, Hv.
Qed.

Lemma post_with_aggregator {A} s0 s (m : prog Aggregator.t ConsensusError A) (Q : A -> Prop) :
  inv s -> le s0 s ->
  wp m (fun r a => agg_inv c (K s) a /\ match r with Ok x => Q x | _ => True end)
    (Core.aggregator s) ->
  wp (Core.with_aggregator m) (post s0 (fun x s' => Q x /\ le s s' /\
    Core.high_qc s' = Core.high_qc s)) s.
Proof.
  intros Hs Hl Hm. unfold wp, Core.with_aggregator in *.
  destruct (m (Core.aggregator s)) as [r a]. simpl in *. destruct Hm as [Ha Hr].
  assert (le s (Core.set_aggregator a s)) as Hl'
    by (apply le_silent; [unfold grows; simpl; lia|simpl; lia|done]).
  split_and!; [|by apply (le_trans s0 s)|by destruct r].
  pose proof Hs as [? ? ? ? ? ? ? ? ? ?].
  apply (inv_silent s); simpl; try done; try lia. by auto.
Qed.

Lemma post_handle_vote s0 s v :
  inv s -> le s0 s -> is_round (Vote.round v) ->
  sig_known (K s) (Vote.author v) (Vote.digest v) (Vote.signature v) ->
  wp (Core.handle_vote name c v) (post s0 (fun _ _ => True)) s.
Proof.
  intros Hs Hl Hr Hk. unfold Core.handle_vote.
  eapply post_bind; [by apply post_gets|]. intros cur s1 _ _ [-> ->].
  destruct (_ <? _); [by apply post_ret|].
  eapply post_bind; [by apply post_lift|]. intros [] s1 _ _ [-> Hv].
  apply Vote_verify_ok in Hv as [Hst Hv].
  eapply post_bind.
  { apply (post_with_aggregator s0 s _ (fun o => forall qc, o = Some qc ->
      QC_good c (K s) qc /\ QC.round qc = Vote.round v)); [done..|].
    eapply wp_mono; [|apply add_vote_spec; [done|apply (inv_agg _ Hs)|done|]].
    - intros r a [Ha Ho]. split; [done|]. destruct r as [[qc|]| | |]; try done.
      intros ? [= <-]. naive_solver.
    - split; [done|]. by apply Hk. }
  intros made s1 Hs1 Hl1 (Hmade & Hss1 & _).
  destruct made as [qc|]; [|by apply post_ret].
  destruct (Hmade _ eq_refl) as [Hgood Hqr].
  eapply post_bind.
  { apply post_process_qc; [done..| |by rewrite Hqr]. right.
    eapply QC_good_mono; [|done]. intros. by apply (le_knows s). }
  intros [] s2 Hs2 Hl2 _.
  eapply post_bind; [by apply post_gets|]. intros cur s3 _ _ [-> ->].
  eapply post_bind; [by apply post_leader|]. intros leader s3 _ _ [-> Hlead].
  case_bool_decide as Hn; [subst leader|by apply post_ret].
  eapply post_bind; [by apply post_gets|]. intros fcr s3 _ _ [-> ->].
  destruct (_ || _).
  - destruct (post_set_fast s0 s2 (Core.fast_commit_request s2 - 1) Hs2 Hl2) as [Hs3 Hl3].
    eapply (post_bind _ _ _ _ (fun _ s' =>
      s' = Core.set_fast_commit_request (Core.fast_commit_request s2 - 1) s2)).
    { by apply post_modify. }
    intros [] s3 _ _ ->.
    eapply post_bind; [by apply post_generate_proposal|]. intros [] s4 Hs4 Hl4 _.
    destruct (_ <? _); [|by apply post_ret].
    destruct (post_set_fast s0 s4 2 Hs4 Hl4). by apply post_modify.
  - eapply post_bind; [by apply (post_emit _ _ (Sleep 200))|]. intros [] s3 Hs3 Hl3 ->.
    by apply post_generate_proposal.
Qed.

(** What is known of the signatures in a timeout. *)
Definition timeout_known (U : PublicKey -> Digest -> Prop) (x : Timeout.t) : Prop :=
  sig_known U (Timeout.author x) (Timeout.digest x) (Timeout.signature x) /\
  qc_known U (Timeout.high_qc x) /\
  is_round (Timeout.round x) /\ is_round (QC.round (Timeout.high_qc x)) /\
  is_round (TC.round (Timeout.high_tc x)).

Lemma sig_known_le s s' pk d sg :
  le s s' -> sig_known (K s) pk d sg -> sig_known (K s') pk d sg.
Proof. intros Hl Hk Hv. by apply (le_knows s), Hk. Qed.

Lemma post_handle_timeout s0 s x :
  inv s -> le s0 s -> timeout_known (K s) x \/
    (QC_ok c (K s) (Timeout.high_qc x) /\
     sig_known (K s) (Timeout.author x) (Timeout.digest x) (Timeout.signature x) /\
     is_round (Timeout.round x) /\ is_round (QC.round (Timeout.high_qc x)) /\
     is_round (TC.round (Timeout.high_tc x))) ->
  wp (Core.handle_timeout name c vid x) (post s0 (fun _ _ => True)) s.
Proof.
  intros Hs Hl Hx. unfold Core.handle_timeout.
  eapply post_bind; [by apply post_gets|]. intros cur s1 _ _ [-> ->].
  destruct (_ <? _); [by apply post_ret|].
  eapply post_bind; [by apply post_lift|]. intros [] s1 _ _ [-> Hv].
  apply Timeout_verify_ok in Hv as (Hst & Hv & Hacc & _); [|done].
  assert (QC_ok c (K s) (Timeout.high_qc x) /\
     sig_known (K s) (Timeout.author x) (Timeout.digest x) (Timeout.signature x) /\
     is_round (Timeout.round x) /\ is_round (QC.round (Timeout.high_qc x)) /\
     is_round (TC.round (Timeout.high_tc x))) as (Hq & Hk & Hr & Hqr & Htr).
  { destruct Hx as [(? & ? & ? & ? & ?)|Hx]; [|done]. split_and!; try done.
    by apply QC_accepted_ok. }
  clear Hx.
  eapply post_bind; [by apply post_process_qc|]. intros [] s1 Hs1 Hl1 [_ Hss1].
  eapply post_bind; [by apply post_process_tc|]. intros [] s2 Hs2 Hl2 Hs12.
  assert (le s s2) as Hss2 by by apply (le_trans s s1).
  eapply post_bind.
  { apply (post_with_aggregator s0 s2 _ (fun o => forall tc, o = Some tc ->
      TC.round tc = Timeout.round x)); [done..|].
    eapply wp_mono; [|apply add_timeout_spec; [done|apply (inv_agg _ Hs2)|done|]].
    - intros r a [Ha Ho]. split; [done|]. destruct r as [[tc|]| | |]; try done.
      intros ? [= <-]. naive_solver.
    - split; [done|]. apply (le_knows s); [done|]. by apply Hk. }
  intros made s3 Hs3 Hl3 (Hmade & Hss3 & _).
  destruct made as [tc|]; [|by apply post_ret]. specialize (Hmade _ eq_refl).
  eapply post_bind; [apply post_process_tc; [done..|by rewrite Hmade]|].
  intros [] s4 Hs4 Hl4 _.
  eapply post_bind; [by apply post_broadcast|]. intros [] s5 Hs5 Hl5 _.
  apply post_propose_if_leader; [done..|]. intros ? [= <-]. by rewrite Hmade.
Qed.

(** Signing: the state before, the raised [last_voted_round] and the event. *)
Lemma post_sign {A} s0 s r e (k : prog Core.t ConsensusError A) Q :
  inv s -> le s0 s -> 0 <= r ->
  let s1 := Core.set_last_voted_round (Z.max (Core.last_voted_round s) r) s in
  let s2 := Core.set_out (Core.out s1 ++ [e]) s1 in
  event_ok c name (knows (Core.out s ++ [e])) s1 e ->
  (forall e0, e0 ∈ Core.out s -> compat e0 e) ->
  (inv s2 -> le s s2 -> wp k (post s0 Q) s2) ->
  wp (Core.request_signature e;; k) (post s0 Q) s1.
Proof.
  intros Hs Hl Hr s1 s2 He Hco Hk.
  assert (inv s1) as Hs1.
  { pose proof Hs as [? ? ? ? ? ? ? ? ? ?].
    apply (inv_silent s); simpl; try done; try lia; [unfold grows; simpl; lia|by auto]. }
  assert (le s s1) as Hl1 by (apply le_silent; [unfold grows; simpl; lia|simpl; lia|done]).
  assert (le s s2) as Hl2 by (apply (le_trans s s1); [done|apply le_set_out]).
  assert (inv s2) as Hs2 by by apply inv_event.
  eapply (post_bind _ _ _ _ (fun _ s' => s' = s2)); [|intros [] ? _ _ ->; auto].
  unfold Core.request_signature.
  eapply post_bind; [by apply post_reach; [|apply (le_trans s0 s)]|]. intros [] ? _ _ ->.
  eapply post_bind; [by apply post_reach; [|apply (le_trans s0 s)]|]. intros [] ? _ _ ->.
  apply post_modify; [done|by apply (le_trans s0 s)|done].
Qed.

Lemma post_local_timeout s0 s :
  inv s -> le s0 s -> Core.round s < u64_max ->
  wp (Core.local_timeout_round name c vid) (post s0 (fun _ _ => True)) s.
Proof.
  intros Hs Hl Hmax. pose proof (inv_round _ Hs) as Hr.
  set (x := Timeout.new (Core.high_qc s) (Core.high_tc s) (Core.round s) name).
  apply (post_sign s0 s (Core.round s) (SignTimeout x)); [done..|lia|simpl; lia| |].
  { intros e0 He0. pose proof (inv_events _ Hs e0 He0) as Hok.
    destruct e0; simpl in *; try done. by apply Hok. }
  intros Hs2 Hl2. set (s2 := Core.set_out _ _) in Hs2, Hl2 |- *.
  assert (le s0 s2) as Hl02 by by apply (le_trans s0 s).
  assert (K s2 name (Timeout.digest x)) as HK.
  { intros _. rewrite decide_True by done. exists (SignTimeout x). split; [|done].
    apply elem_of_app. right. apply list_elem_of_here. }
  eapply post_bind; [by apply (post_emit _ _ TimerReset)|]. intros [] s3 Hs3 Hl3 ->.
  eapply post_bind; [by apply post_broadcast|]. intros [] s4 Hs4 Hl4 Hl34.
  assert (le s2 s4) as Hl24 by (eapply le_trans; [apply le_set_out|done]).
  apply post_handle_timeout; [done..|]. right. simpl. split_and!.
  - apply (QC_ok_le s2); [done|]. apply (inv_high_qc _ Hs2).
  - intros _. by apply (le_knows s2).
  - unfold is_round. lia.
  - unfold is_round. lia.
  - apply (inv_high_tc _ Hs).
Qed.

Lemma foldl_max_le l r q : q ∈ r :: l -> q <= foldl Z.max r l.
Proof.
  revert r q. induction l as [|r' l IH]; intros r q Hq; simpl.
  - apply list_elem_of_singleton in Hq. lia.
  - assert (Z.max r r' <= foldl Z.max (Z.max r r') l) by apply IH, list_elem_of_here.
    rewrite !elem_of_cons in Hq. destruct Hq as [->|[->|Hq]]; [lia..|].
    apply IH. by apply list_elem_of_further.
Qed.

Lemma max_round_le l m q : Core.max_round l = Some m -> q ∈ l -> q <= m.
Proof. destruct l as [|r l]; [done|]. simpl. intros [= <-]. apply foldl_max_le. Qed.

Lemma post_make_vote s0 s b :
  inv s -> le s0 s -> block_ok c name (K s) (QC.round (Core.high_qc s)) b ->
  Block.round b = Core.round s ->
  wp (Core.make_vote name b) (post s0 (fun o s' => forall v, o = Some v ->
    v = Vote.new b name /\ K s' name (Vote.digest v))) s.
Proof.
  intros Hs Hl Hb Hround. unfold Core.make_vote. pose proof (inv_round _ Hs) as Hr.
  pose proof (inv_round_max _ Hs) as Hmax.
  eapply post_bind; [by apply post_gets|]. intros lvr s1 _ _ [-> ->].
  set (rule := QC.round (Block.qc b) + 1 = Block.round b \/
    exists tc, Block.tc b = Some tc /\ TC.round tc + 1 = Block.round b /\
      forall q, q ∈ TC.high_qc_rounds tc -> q <= QC.round (Block.qc b)).
  assert (u64 (QC.round (Block.qc b) + 1) = QC.round (Block.qc b) + 1) as Hu.
  { apply u64_succ. destruct (bo_qc_round _ _ _ _ _ Hb). lia. }
  eapply (post_bind _ _ _ _ (fun r2 s' => s' = s /\ (r2 = true -> rule))).
  - destruct (Block.tc b) as [tc|] eqn:Htc.
    + destruct (bo_tc _ _ _ _ _ Hb tc Htc) as [Htr _].
      destruct (Core.max_round (TC.high_qc_rounds tc)) as [m|] eqn:Hm; [|by split_and!].
      apply post_ret; [done..|]. split; [done|]. rewrite Hu, u64_succ by apply Htr.
      intros [?%Z.eqb_eq|[?%Z.eqb_eq ?%Z.leb_le]%andb_true_iff]%orb_true_iff; [by left|].
      right. exists tc. split_and!; [done..|]. intros q Hq.
      pose proof (max_round_le _ _ _ Hm Hq). lia.
    + apply post_ret; [done..|]. split; [done|]. rewrite Hu.
      intros ?%Z.eqb_eq. by left.
  - intros r2 s1 _ _ [-> Hrule].
    destruct (Core.last_voted_round s <? Block.round b) eqn:Hr1, r2; simpl;
      try by apply post_ret.
    specialize (Hrule eq_refl). apply Z.ltb_lt in Hr1.
    set (v := Vote.new b name).
    apply (post_sign s0 s (Block.round b) (SignVote b v)); [done..|lia| | |].
    { simpl. split_and!; [done| |lia|apply (bo_qc_round _ _ _ _ _ Hb)].
      split; [|split; [lia|done]]. eapply block_ok_mono; [..|done].
      - intros. by apply knows_app.
      - lia. }
    { intros e0 He0. pose proof (inv_events _ Hs e0 He0) as Hok.
      destruct e0; simpl in *; try done; lia. }
    intros Hs2 Hl2. set (s2 := Core.set_out _ _) in Hs2, Hl2 |- *.
    change (post s0 (fun o s' => forall v, o = Some v ->
      v = Vote.new b name /\ K s' name (Vote.digest v)) (Ok (Some v)) s2).
    split_and!; [done|by apply (le_trans s0 s)|]. intros ? [= <-]. split; [done|].
    intros _. rewrite decide_True by done. exists (SignVote b v). split; [|done].
    apply elem_of_app. right. apply list_elem_of_here.
Qed.

(** ** Blocks *)

Lemma post_sync_get_parent_block s0 s b :
  inv s -> le s0 s ->
  b = Block.genesis \/ block_ok c name (K s) (QC.round (Core.high_qc s)) b ->
  wp (Core.sync_get_parent_block b) (post s0 (fun o s' =>
    forall anc, o = Some anc -> s' = s /\ parent_of s b anc)) s.
Proof.
  intros Hs Hl Hb. unfold Core.sync_get_parent_block, parent_of.
  destruct (QC.eqb (Block.qc b) QC.genesis) eqn:Hg.
  { apply post_ret; [done..|]. intros ? [= <-]. split; [done|by left]. }
  destruct Hb as [->|Hb]; [done|].
  eapply post_bind; [by apply post_gets|]. intros st s1 _ _ [-> ->].
  destruct (Store.read (Core.store s) (Block.parent b)) as [e|[v|]] eqn:Hr.
  - by split_and!.
  - destruct (inv_read s _ _ Hs (bo_qc _ _ _ _ _ Hb) Hg Hr) as (anc & Hde & Hd & Hanc & Hgood).
    rewrite Hde. apply post_ret; [done..|]. intros ? [= <-]. split; [done|]. right.
    by split_and!.
  - eapply post_bind.
    { apply post_send; [done..|]. simpl. eapply block_ok_mono; [..|done]; [|lia].
      intros. by apply knows_app. }
    intros [] s1 Hs1 Hl1 _. by apply post_ret.
Qed.

Lemma post_get_ancestors s0 s b :
  inv s -> le s0 s -> block_ok c name (K s) (QC.round (Core.high_qc s)) b ->
  wp (Core.get_ancestors b) (post s0 (fun o s' =>
    forall b0 b1, o = Some (b0, b1) -> s' = s /\ parent_of s b b1 /\ parent_of s b1 b0)) s.
Proof.
  intros Hs Hl Hb. unfold Core.get_ancestors.
  eapply post_bind; [apply post_sync_get_parent_block; [done..|by right]|].
  intros [b1|] s1 Hs1 Hl1 Hp1; [|by apply post_ret].
  destruct (Hp1 _ eq_refl) as [-> Hpar1].
  eapply post_bind.
  { apply post_sync_get_parent_block; [done..|].
    destruct Hpar1 as [[_ ->]|(_ & _ & _ & ?)]; auto. }
  intros [b0|] s2 Hs2 Hl2 Hp2; [|by apply post_ret].
  destruct (Hp2 _ eq_refl) as [-> Hpar2].
  apply post_ret; [done..|]. by intros ?? [= <- <-].
Qed.

Lemma parent_two_chain s b b1 b0 :
  parent_of s b b1 -> parent_of s b1 b0 ->
  u64 (Block.round b0 + 1) = Block.round b1 -> 0 < Block.round b0 -> two_chain s b0.
Proof.
  intros [[_ ->]|(_ & Hd1 & Hg1 & _)] [[Hg0 ->]|(Hng & Hd0 & Hg0 & _)] Hr Hpos;
    simpl in *; try lia; [done|].
  exists b1, (Block.qc b). by split_and!.
Qed.

Lemma post_cleanup_proposer s0 s b0 b1 b :
  inv s -> le s0 s ->
  wp (Core.cleanup_proposer b0 b1 b) (post s0 (fun _ s' => le s s')) s.
Proof.
  intros Hs Hl. unfold Core.cleanup_proposer.
  case_bool_decide; [apply post_ret; [done..|apply le_refl]|].
  eapply post_from; [done|apply post_send; [done|apply le_refl|done|done]|done].
Qed.

Lemma post_mempool_cleanup s0 s r :
  inv s -> le s0 s -> wp (Core.mempool_cleanup r) (post s0 (fun _ s' => le s s')) s.
Proof.
  intros Hs Hl. unfold Core.mempool_cleanup.
  eapply post_bind; [by apply (post_send _ _ RxMempool _ (ToMempool _))|]. intros [] s4 Hs4 Hl4 ->.
  eapply post_from; [done|by apply (post_send _ _ RxPayloadWaiter _ (ToPayloadWaiter (CleanupWaiter _)));
    [|apply le_refl|..]|].
  intros [] s5 Hl5 _. eapply le_trans; [apply le_set_out|done].
Qed.

Lemma parent_of_le s s' b anc : le s s' -> parent_of s b anc -> parent_of s' b anc.
Proof.
  intros Hl [?|(? & ? & Hg & Hok)]; [by left|right]. split_and!; [done..| |].
  - eapply QC_good_mono; [|done]. intros. by eapply le_knows.
  - by eapply block_ok_le.
Qed.

Lemma post_process_block fuel s0 s b :
  inv s -> le s0 s -> block_ok c name (K s) (QC.round (Core.high_qc s)) b ->
  is_round (Block.round b) ->
  wp (Core.process_block name c vid fuel b) (post s0 (fun _ _ => True)) s.
Proof.
  intros Hs Hl Hb Hr. unfold Core.process_block.
  eapply (post_bind _ _ _ _ (fun _ s' => le s s')).
  { eapply (post_from _ _ _ (fun _ _ => True)); [done| |done].
    apply post_store_block; [done|apply le_refl|done]. }
  intros [] s1 Hs1 Hl1 Hl01. assert (block_ok c name (K s1)
    (QC.round (Core.high_qc s1)) b) as Hb1 by by apply (block_ok_le s).
  eapply post_bind; [by apply post_get_ancestors|].
  intros [[b0 b1]|] s2 Hs2 Hl2 Hanc; [|by apply post_ret].
  destruct (Hanc _ _ eq_refl) as (-> & Hp1 & Hp0).
  eapply post_bind; [by apply post_cleanup_proposer|]. intros [] s3 Hs3 Hl3 Hl13.
  eapply (post_bind _ _ _ _ (fun _ s' => le s1 s')).
  { destruct (_ =? _) eqn:Hchain; [|by apply post_ret].
    apply Z.eqb_eq in Hchain.
    eapply post_bind; [by apply post_mempool_cleanup|].
    intros [] s4 Hs4 Hl4 Hl34. assert (le s1 s4) as Hl14 by by apply (le_trans s1 s3).
    eapply (post_from _ _ _ (fun _ _ => True)); [done| |intros [] ? ? _; by apply (le_trans s1 s4)].
    apply post_commit; [done|apply le_refl|apply (QC_ok_le s1); [done|]; by eapply parent_of_qc|].
    intros Hpos. apply (two_chain_le s1); [done|]. by apply (parent_two_chain s1 b b1 b0). }
  intros [] s4 Hs4 Hl4 Hl14.
  eapply post_bind; [by apply post_gets|]. intros cur s5 _ _ [-> ->].
  destruct (Block.round b =? Core.round s4) eqn:Hcur; simpl; [|by apply post_ret].
  apply Z.eqb_eq in Hcur.
  eapply post_bind; [apply post_make_vote; [done..|by apply (block_ok_le s1)|done]|].
  intros [v|] s5 Hs5 Hl5 Hv; [|by apply post_ret].
  destruct (Hv _ eq_refl) as [-> HK].
  eapply post_bind; [by apply post_handle_vote; [..|intros _]|].
  intros [] s6 Hs6 Hl6 _.
  eapply post_from; [done|by apply post_broadcast; [|apply le_refl]|done].
Qed.

Lemma post_missing_payload s0 s l acc :
  inv s -> le s0 s ->
  wp (Core.missing_payload l acc) (post s0 (fun _ s' => s' = s)) s.
Proof.
  revert acc. induction l as [|x l IH]; intros acc Hs Hl; cbn [Core.missing_payload];
    [by apply post_ret|].
  eapply post_bind; [by apply post_gets|]. intros st s1 _ _ [-> ->].
  destruct (Store.read (Core.store s) x) as [e|[v|]]; [by split_and!|auto..].
Qed.

Lemma post_mempool_verify s0 s b :
  inv s -> le s0 s -> block_ok c name (K s) (QC.round (Core.high_qc s)) b ->
  wp (Core.mempool_verify b) (post s0 (fun _ s' => le s s')) s.
Proof.
  intros Hs Hl Hb. unfold Core.mempool_verify.
  eapply post_bind; [by apply post_missing_payload|]. intros missing s1 _ _ ->.
  case_bool_decide; [apply post_ret; [done..|apply le_refl]|].
  eapply post_bind; [by apply (post_send _ _ RxMempool _ (ToMempool _))|]. intros [] s1 Hs1 Hl1 ->.
  eapply post_bind.
  { apply (post_send _ _ RxPayloadWaiter _ (ToPayloadWaiter _)); [done..|]. simpl.
    eapply block_ok_mono; [..|done]; [|simpl; lia]. intros. by apply knows_app, knows_app. }
  intros [] s2 Hs2 Hl2 ->. apply post_ret; [done..|].
  eapply le_trans; apply le_set_out.
Qed.

(** What is known of the signatures in a proposal. *)
Definition proposal_known (U : PublicKey -> Digest -> Prop) (b : Block.t) : Prop :=
  qc_known U (Block.qc b) /\ is_round (QC.round (Block.qc b)) /\
  is_round (Block.round b) /\
  forall tc, Block.tc b = Some tc -> tc_known U tc /\ is_round (TC.round tc).

Lemma post_handle_proposal fuel s0 s b :
  inv s -> le s0 s -> proposal_known (K s) b ->
  wp (Core.handle_proposal name c vid fuel b) (post s0 (fun _ _ => True)) s.
Proof.
  intros Hs Hl (Hk & Hqr & Hbr & Htc). unfold Core.handle_proposal.
  eapply post_bind; [by apply post_leader|]. intros leader s1 _ _ [-> Hlead].
  eapply post_bind; [by apply post_lift|]. intros [] s1 _ _ [-> Hen].
  unfold ensure in Hen. case_bool_decide as Hauth; [subst leader|done].
  eapply post_bind; [by apply post_lift|]. intros [] s1 _ _ [-> Hv].
  apply Block_verify_ok in Hv as (_ & _ & Hacc & Htcv); [|done].
  assert (QC_ok c (K s) (Block.qc b)) as Hq by by apply QC_accepted_ok.
  eapply post_bind; [by apply post_process_qc|]. intros [] s1 Hs1 Hl1 [Hhq Hl01].
  eapply (post_bind _ _ _ _ (fun _ s' => le s1 s')).
  { destruct (Block.tc b) as [tc|] eqn:Hb; [|apply post_ret; [done..|apply le_refl]].
    apply post_process_tc; [done..|]. by apply Htc. }
  intros [] s2 Hs2 Hl2 Hl12. assert (le s s2) as Hl02 by by apply (le_trans s s1).
  assert (block_ok c name (K s2) (QC.round (Core.high_qc s2)) b) as Hb.
  { split; [by apply (QC_ok_le s)| |done|].
    - destruct Hl12 as ((_ & _ & ?) & _). unfold is_round in Hqr. lia.
    - intros tc Hb. destruct (Htc tc Hb) as [Hkn Htr]. split; [done|]. right.
      apply (TC_good_mono c (K s)); [intros; by apply (le_knows s)|].
      apply TC_valid_good; auto. }
  eapply post_bind; [by apply post_mempool_verify|]. intros ok s3 Hs3 Hl3 Hl23.
  destruct ok; simpl; [|by apply post_ret].
  apply post_process_block; [done..|by apply (block_ok_le s2)|done].
Qed.

Lemma post_handle_tc s0 s tc :
  inv s -> le s0 s -> is_round (TC.round tc) ->
  wp (Core.handle_tc name c tc) (post s0 (fun _ _ => True)) s.
Proof.
  intros Hs Hl Htc. unfold Core.handle_tc.
  eapply post_bind; [by apply post_process_tc|]. intros [] s1 Hs1 Hl1 _.
  apply post_propose_if_leader; [done..|]. by intros ? [= <-].
Qed.

Lemma post_boot s0 s :
  inv s -> le s0 s -> wp (Core.boot name c) (post s0 (fun _ _ => True)) s.
Proof.
  intros Hs Hl. unfold Core.boot.
  eapply post_bind; [by apply (post_emit _ _ TimerReset)|]. intros [] s1 Hs1 Hl1 ->.
  apply post_propose_if_leader; [done..|]. done.
Qed.

(** ** One iteration of the loop *)

(** Where the blocks on the loopback channel come from: the synchronizer and the
    payload waiter return what they were given, the proposer makes the blocks
    that the core asked for. *)
Definition loopback_source (l : list event) (b : Block.t) : Prop :=
  ToSynchronizer b ∈ l \/
  (exists missing, ToPayloadWaiter (Wait missing b) ∈ l) \/
  (exists r qc tc payload, ToProposer (Make r qc tc) ∈ l /\
     b = Block.new qc tc name r payload).

(** The inputs of an honest node: an honest signature that verifies was made by
    its owner, and no round number is about to overflow. *)
Definition input_ok (s : Core.t) (i : input) : Prop :=
  match i with
  | Received (Propose b) => proposal_known (K s) b
  | Received (VoteMsg v) =>
      sig_known (K s) (Vote.author v) (Vote.digest v) (Vote.signature v) /\
      is_round (Vote.round v)
  | Received (TimeoutMsg x) => timeout_known (K s) x
  | Received (TCMsg tc) => is_round (TC.round tc)
  | Received (SyncRequest _ _) => True
  | Loopback b => loopback_source (Core.out s) b /\ is_round (Block.round b)
  | TimerFired => Core.round s < u64_max
  end.

Lemma loopback_block_ok s b :
  inv s -> loopback_source (Core.out s) b ->
  block_ok c name (K s) (QC.round (Core.high_qc s)) b.
Proof.
  intros Hs [Hin|[[m Hin]|(r & qc & tc & payload & Hin & ->)]];
    pose proof (inv_events _ Hs _ Hin) as Hok; [done..|].
  simpl in Hok. destruct Hok as (Hq & Hr & Hlead & Htc). split; simpl; try done.
  intros x Hx. split; [by apply Htc|by left].
Qed.

Lemma post_handle fuel s i :
  inv s -> input_ok s i ->
  wp (Core.handle name c vid fuel i) (post s (fun _ _ => True)) s.
Proof.
  intros Hs Hi. pose proof (le_refl s) as Hl.
  destruct i as [[b|v|x|tc|m o]|b|]; simpl in *.
  - by apply post_handle_proposal.
  - destruct Hi. by apply post_handle_vote.
  - apply post_handle_timeout; [done..|by left].
  - by apply post_handle_tc.
  - by split_and!.
  - destruct Hi as [Hsrc Hr]. apply post_process_block; try done.
    by apply loopback_block_ok.
  - by apply post_local_timeout.
Qed.

Lemma inv_spawn st :
  (forall d v, Store.read st d = inr (Some v) -> foreign d) -> inv (Core.spawn st).
Proof.
  intros Hst. split; simpl; try done.
  - by left.
  - apply agg_inv_new.
  - intros d v Hr. left. by eapply Hst.
  - by intros e ?%elem_of_nil.
  - constructor.
Qed.

(** The end of another task. *)
Lemma inv_gone s g : inv s -> inv (Core.set_gone g s).
Proof. intros []. by split. Qed.

(** A write of the mempool: the digest of a batch is not that of a block. *)
Lemma inv_foreign_write s d v :
  inv s -> foreign d -> inv (Core.set_store (fst (Store.write (Core.store s) d v)) s).
Proof.
  intros Hs Hf. pose proof Hs as [? ? ? ? ? ? ? Hst ? ?]. split; simpl; try done.
  intros d' v' Hr. apply Store.read_write_some in Hr as [[-> ->]|Hr]; [by left|].
  by apply Hst.
Qed.

End invariant.

(** What the other nodes have signed only grows. *)
Lemma inv_others `{Crypto} `{Bincode} `{Rocksdb Digest bytes} c name honest
  (Uo Uo' : PublicKey -> Digest -> Prop) s :
  (forall pk d, pk <> name -> Uo pk d -> Uo' pk d) ->
  inv c name honest Uo s -> inv c name honest Uo' s.
Proof.
  intros HU [? ? ? ? ? Hq Ha Hst He ?].
  assert (forall pk d, knows name honest Uo (Core.out s) pk d ->
    knows name honest Uo' (Core.out s) pk d) as HK.
  { unfold knows. intros pk d HK Hh. specialize (HK Hh). case_decide; auto. }
  split; try done.
  - by eapply QC_ok_mono.
  - by eapply agg_inv_mono.
  - intros d v Hr. destruct (Hst d v Hr) as [?|(b & ? & ? & ?)]; [by left|right].
    exists b. split_and!; [done..|]. eapply block_ok_mono; [done| |done]. lia.
  - intros e Hin. eapply event_ok_mono; [done| |by apply He]. unfold grows. lia.
Qed.
