(* ===== verification/Safety.v ===== *)
(** * Agreement

    The system: honest operators run [Core], the others do anything that does
    not forge the signatures of the honest ones, and the network delivers,
    delays, drops, duplicates and reorders messages.  The blocks that honest
    operators commit are all on one chain. *)

From S2P Require Import Prelude Store Committee Messages Aggregator Network Core Ideal CoreInv.

(** ** The chain *)

Section chain.
Context `{Crypto} (Hcf : collision_free).

Lemma digest_inj b1 b2 :
  Block.digest b1 = Block.digest b2 ->
  Block.round b1 = Block.round b2 /\ QC.hash (Block.qc b1) = QC.hash (Block.qc b2).
Proof.
  intros He%Hcf. unfold Block.transcript in He. injection He as _ Hr Hp. split; [done|].
  by apply app_inj_2 in Hp as [_ [= ?]].
Qed.

(** The ancestors of a block are on one line. *)
Lemma ancestor_linear d1 d2 d :
  ancestor d1 d -> ancestor d2 d -> ancestor d1 d2 \/ ancestor d2 d1.
Proof.
  intros Ha Hb. induction Ha as [|b Ha IH]; [by right|].
  inversion Hb as [Heq|b' Hb' Heq].
  - left. by apply ancestor_parent.
  - apply digest_inj in Heq as [_ Hh]. apply IH. congruence.
Qed.

End chain.

(** ** The voting argument *)

Section voting.
Context `{Crypto} (Hcf : collision_free) (Hnz : forall t, sha512_32 t <> Digest_default).
Context (c : Committee.t) (Hc : well_formed c) (honest : gset PublicKey).

Definition byzantine : gset PublicKey := members (C := Committee.t) c ∖ honest.

(** At most [f] faulty stake, and every quorum has an honest member besides any
    single operator. *)
Definition fault_bound : Prop :=
  weight c byzantine <= max_faulty c /\
  forall p, weight c byzantine + Committee.stake c p < Committee.quorum_threshold c.

Context (Hfault : fault_bound).

(** What honest nodes have voted for and which timeouts they have signed. *)
Context (voted : PublicKey -> Block.t -> Prop) (timed : PublicKey -> Timeout.t -> Prop).

Definition is_quorum (Q : gset PublicKey) : Prop :=
  Q ⊆ members (C := Committee.t) c /\ Committee.quorum_threshold c <= weight c Q.

Definition certified (d : Digest) (r : Round) : Prop :=
  exists Q, is_quorum Q /\ forall p, p ∈ Q -> p ∈ honest ->
    exists b, voted p b /\ Block.digest b = d /\ Block.round b = r.

Context (vote_once : forall p b1 b2, p ∈ honest -> voted p b1 -> voted p b2 ->
  Block.round b1 = Block.round b2 -> Block.digest b1 = Block.digest b2).
Context (vote_qc : forall p b, p ∈ honest -> voted p b ->
  0 <= QC.round (Block.qc b) < Block.round b /\
  (QC.eqb (Block.qc b) QC.genesis = true \/
   certified (QC.hash (Block.qc b)) (QC.round (Block.qc b)))).
Context (vote_rule : forall p b, p ∈ honest -> voted p b ->
  RRLeaderElector.get_leader c (Block.round b) = Some (Block.author b) /\
  (QC.round (Block.qc b) + 1 = Block.round b \/ Block.author b = p \/
   exists Q, is_quorum Q /\ forall g, g ∈ Q -> g ∈ honest ->
     exists x, timed g x /\ Timeout.round x + 1 = Block.round b /\
       QC.round (Timeout.high_qc x) <= QC.round (Block.qc b))).
Context (vote_timeout : forall p b x, p ∈ honest -> voted p b -> timed p x ->
  Block.round b <= Timeout.round x ->
  QC.round (Block.qc b) <= QC.round (Timeout.high_qc x)).

Lemma honest_of_member p : p ∈ members (C := Committee.t) c -> p ∉ byzantine -> p ∈ honest.
Proof using Type.
  unfold byzantine. intros Hm Hb. destruct (decide (p ∈ honest)); [done|].
  by destruct Hb; apply elem_of_difference.
Qed.

Lemma quorums_meet Q1 Q2 :
  is_quorum Q1 -> is_quorum Q2 -> exists p, p ∈ Q1 /\ p ∈ Q2 /\ p ∈ honest.
Proof using Hc Hfault.
  intros [H1 Hw1] [H2 Hw2]. destruct Hfault as [Hb _].
  destruct (quorum_common_honest c Q1 Q2 byzantine Hc H1 H2 Hb Hw1 Hw2)
    as (p & Hp1 & Hp2 & Hp). exists p. split_and!; [done..|].
  apply honest_of_member; [|done]. by apply H1.
Qed.

Lemma quorum_honest_but Q l :
  is_quorum Q -> exists p, p ∈ Q /\ p ∈ honest /\ p <> l.
Proof using Hc Hfault.
  clear -Hc Hfault. intros [HQ Hw]. destruct Hfault as [_ Hb].
  destruct (weight_of_outside (stake_of c) (fun n => stake_of_nonneg c n Hc)
    Q (byzantine ∪ {[l]})) as (p & Hp & Hout).
  - assert (weight c (byzantine ∪ {[l]}) <= weight c byzantine + Committee.stake c l).
    { pose proof (weight_of_split (stake_of c) (byzantine ∪ {[l]}) byzantine) as Hs.
      replace ((byzantine ∪ {[l]}) ∩ byzantine) with byzantine in Hs
        by (apply set_eq; set_solver).
      assert (weight_of (stake_of c) ((byzantine ∪ {[l]}) ∖ byzantine)
        <= weight_of (stake_of c) {[l]}).
      { apply weight_of_mono; [intros; by apply stake_of_nonneg|set_solver]. }
      rewrite weight_of_singleton, Committee_stake_of in *. unfold weight. lia. }
    specialize (Hb l). unfold weight in *. lia.
  - exists p. split_and!; [done| |set_solver].
    apply honest_of_member; [by apply HQ|set_solver].
Qed.

(** A digest is certified for one round, that of its block, and is not the name
    of the genesis block. *)
Lemma certified_round d r1 r2 : certified d r1 -> certified d r2 -> r1 = r2.
Proof using Hcf Hc Hfault.
  intros (Q1 & HQ1 & Hv1) (Q2 & HQ2 & Hv2).
  destruct (quorums_meet Q1 Q2 HQ1 HQ2) as (p & Hp1 & Hp2 & Hh).
  destruct (Hv1 p Hp1 Hh) as (b1 & _ & Hd1 & <-).
  destruct (Hv2 p Hp2 Hh) as (b2 & _ & Hd2 & <-).
  apply (digest_inj Hcf). congruence.
Qed.

Lemma certified_block d r :
  certified d r -> exists p b, p ∈ honest /\ voted p b /\ Block.digest b = d /\
    Block.round b = r /\ 0 < r /\ d <> Digest_default.
Proof using Hnz Hc Hfault vote_qc.
  intros (Q & HQ & Hv). destruct (quorums_meet Q Q HQ HQ) as (p & Hp & _ & Hh).
  destruct (Hv p Hp Hh) as (b & Hvb & Hd & Hr). exists p, b. split_and!; try done.
  - destruct (vote_qc p b Hh Hvb). lia.
  - rewrite <- Hd. apply Hnz.
Qed.

(** The QC of a voted block on top of a certified one has its round. *)
Lemma vote_parent_round p b d r :
  p ∈ honest -> voted p b -> QC.hash (Block.qc b) = d -> certified d r ->
  QC.round (Block.qc b) = r.
Proof using Hcf Hnz Hc Hfault vote_qc.
  intros Hh Hv Hd Hcert. destruct (vote_qc p b Hh Hv) as [_ [Hg|Hq]].
  - apply eqb_genesis in Hg as [Hz _].
    destruct (certified_block _ _ Hcert) as (_ & _ & _ & _ & _ & _ & _ & Hne).
    unfold Digest_default in Hne. congruence.
  - rewrite Hd in Hq. by eapply certified_round.
Qed.

(** Once a block and a child of the next round are certified, every block
    certified from then on descends from it. *)
Lemma two_chain_safe b1 d0 r :
  certified d0 r -> certified (Block.digest b1) (r + 1) -> QC.hash (Block.qc b1) = d0 ->
  forall n r' d', r <= r' < r + Z.of_nat n -> certified d' r' -> ancestor d0 d'.
Proof.
  intros H0 H1 Hp. induction n as [|n IH]; [lia|]. intros r' d' Hr' H'.
  pose proof H0 as (Q0 & HQ0 & Hv0). pose proof H1 as (Q1 & HQ1 & Hv1).
  pose proof H' as (Q' & HQ' & Hv').
  destruct (decide (r' = r)) as [->|Hne0].
  { destruct (quorums_meet Q0 Q' HQ0 HQ') as (p & Hp0 & Hp' & Hh).
    destruct (Hv0 p Hp0 Hh) as (x & Hx & <- & Hrx).
    destruct (Hv' p Hp' Hh) as (y & Hy & <- & Hry).
    rewrite (vote_once p x y Hh Hx Hy) by lia. apply ancestor_refl. }
  destruct (decide (r' = r + 1)) as [->|Hne1].
  { destruct (quorums_meet Q1 Q' HQ1 HQ') as (p & Hp1 & Hp' & Hh).
    destruct (Hv1 p Hp1 Hh) as (x & Hx & Hdx & Hrx).
    destruct (Hv' p Hp' Hh) as (y & Hy & <- & Hry).
    rewrite <- (vote_once p x y Hh Hx Hy), Hdx, <- Hp by lia. apply ancestor_of_parent. }
  destruct (RRLeaderElector.get_leader c r') as [l|] eqn:Hl.
  2: { destruct (quorums_meet Q' Q' HQ' HQ') as (p & Hp' & _ & Hh).
       destruct (Hv' p Hp' Hh) as (y & Hy & _ & <-).
       destruct (vote_rule p y Hh Hy). congruence. }
  destruct (quorum_honest_but Q' l HQ') as (p & Hp' & Hh & Hpl).
  destruct (Hv' p Hp' Hh) as (y & Hy & <- & Hry).
  destruct (certified_block _ _ H0) as (_ & _ & _ & _ & _ & _ & Hrpos & _).
  destruct (vote_qc p y Hh Hy) as [Hqr Hq].
  assert (r <= QC.round (Block.qc y)) as Hge.
  { destruct (vote_rule p y Hh Hy) as [Hlead [Hc1|[Hown|(Qt & HQt & Ht)]]].
    - lia.
    - rewrite Hry, Hl in Hlead. congruence.
    - destruct (quorums_meet Q1 Qt HQ1 HQt) as (g & Hg1 & Hgt & Hgh).
      destruct (Hv1 g Hg1 Hgh) as (x & Hx & Hdx & Hrx).
      destruct (Ht g Hgt Hgh) as (t & Htg & Htr & Hthq).
      pose proof (vote_timeout g x t Hgh Hx Htg ltac:(lia)) as Hle.
      apply (digest_inj Hcf) in Hdx as [_ Hhx].
      rewrite (vote_parent_round g x d0 r Hgh Hx) in Hle; [lia|congruence|done]. }
  apply ancestor_parent. destruct Hq as [Hg|Hq].
  - apply eqb_genesis in Hg as [_ Hz]. lia.
  - eapply IH; [|exact Hq]. lia.
Qed.

(** The head of a 2-chain. *)
Definition chain_head (b0 b1 : Block.t) : Prop :=
  certified (Block.digest b0) (Block.round b0) /\
  certified (Block.digest b1) (Block.round b1) /\
  QC.hash (Block.qc b1) = Block.digest b0 /\ Block.round b0 + 1 = Block.round b1.

Lemma chain_heads_agree b0 b1 b0' b1' :
  chain_head b0 b1 -> chain_head b0' b1' ->
  ancestor (Block.digest b0) (Block.digest b0') \/
  ancestor (Block.digest b0') (Block.digest b0).
Proof.
  intros (H0 & H1 & Hp & Hr) (H0' & H1' & Hp' & Hr'). rewrite <- Hr in H1.
  rewrite <- Hr' in H1'. destruct (decide (Block.round b0 <= Block.round b0')).
  - left. eapply (two_chain_safe b1 _ _ H0 H1 Hp
      (S (Z.to_nat (Block.round b0' - Block.round b0)))); [|exact H0']. lia.
  - right. eapply (two_chain_safe b1' _ _ H0' H1' Hp'
      (S (Z.to_nat (Block.round b0 - Block.round b0')))); [|exact H0]. lia.
Qed.

End voting.

(** ** The system *)

Section system.
Context `{Crypto} `{Bincode} `{!BincodeRoundTrip}.
Context `{Rocksdb Digest bytes} `{!RocksdbSafe Digest bytes}.
Context (c : Committee.t) (vid : Z) (honest : gset PublicKey).

(** The cores of the honest nodes, and the nodes whose task has ended. *)
Record world := mkWorld {
  node : PublicKey -> Core.t;
  dead : gset PublicKey
}.

(** What the owner of a key has signed so far. *)
Definition signed_by (w : world) (pk : PublicKey) (d : Digest) : Prop :=
  has_signed (Core.out (node w pk)) d.

Definition set_node (w : world) (h : PublicKey) (s : Core.t) : PublicKey -> Core.t :=
  fun p => if decide (p = h) then s else node w p.

(** A panic or an endless loop ends the task. *)
Definition ended {A} (r : outcome ConsensusError A) : bool :=
  match r with Ok _ | Err _ => false | _ => true end.

(** A store that holds no block. *)
Definition fresh (st : Store.t Digest bytes) : Prop :=
  forall d v, Store.read st d = inr (Some v) -> foreign d.

(** Each honest node boots on a fresh store. *)
Definition initial (w : world) : Prop :=
  dead w = ∅ /\ forall h, h ∈ honest ->
    exists st, fresh st /\ node w h = snd (Core.boot h c (Core.spawn st)).

(** An honest node handles an input that forges no honest signature, its mempool
    writes to the shared store, or a task that it sends to ends. *)
Inductive step (w : world) : world -> Prop :=
| step_handle h fuel i r s' :
    h ∈ honest -> h ∉ dead w ->
    input_ok h honest (signed_by w) (node w h) i ->
    Core.handle h c vid fuel i (node w h) = (r, s') ->
    step w (mkWorld (set_node w h s') (if ended r then {[h]} ∪ dead w else dead w))
| step_batch h d v :
    h ∈ honest -> foreign d ->
    step w (mkWorld (set_node w h
      (Core.set_store (fst (Store.write (Core.store (node w h)) d v)) (node w h))) (dead w))
| step_gone h g :
    h ∈ honest ->
    step w (mkWorld (set_node w h (Core.set_gone g (node w h))) (dead w)).

Definition reachable (w : world) : Prop := exists w0, initial w0 /\ rtc step w0 w.

Context (Hc : well_formed c) (Hcf : collision_free).
Context (Hnz : forall t, sha512_32 t <> Digest_default) (Hfault : fault_bound c honest).

Definition world_inv (w : world) : Prop :=
  forall h, h ∈ honest -> inv c h honest (signed_by w) (node w h).

Lemma honest_weight :
  weight c (members (C := Committee.t) c ∖ honest) < Committee.quorum_threshold c.
Proof using Hc Hfault.
  destruct Hfault as [_ Hb]. specialize (Hb 0). unfold byzantine in Hb.
  pose proof (stake_of_nonneg c 0 Hc). rewrite Committee_stake_of in *. lia.
Qed.

Lemma inv_signable h Uo s d :
  inv c h honest Uo s -> has_signed (Core.out s) d -> signable h d.
Proof using Type.
  intros Hs (e & He & Hd). pose proof (inv_events _ _ _ _ _ Hs e He) as Hok.
  destruct e; simpl in Hd; simplify_eq.
  - left. exists block. f_equal. apply Hok.
  - right. by eexists.
Qed.

Lemma world_inv_update w h s' d' :
  world_inv w -> h ∈ honest -> inv c h honest (signed_by w) s' ->
  (exists l, Core.out s' = Core.out (node w h) ++ l) ->
  world_inv (mkWorld (set_node w h s') d').
Proof using Type.
  intros Hw Hh Hs' [l Hl] g Hg. unfold set_node. simpl.
  assert (forall pk d, signed_by w pk d ->
    signed_by (mkWorld (set_node w h s') d') pk d) as Hmono.
  { intros pk d (e & He & Hd). exists e. split; [|done]. simpl. unfold set_node.
    case_decide as Hpk; [|done]. subst. rewrite Hl. apply elem_of_app. by left. }
  case_decide as Hgh.
  - subst g. eapply inv_others; [|exact Hs']. auto.
  - eapply inv_others; [|by apply Hw]. auto.
Qed.

Lemma world_inv_initial w : initial w -> world_inv w.
Proof using All.
  intros [_ Hi] h Hh. destruct (Hi h Hh) as (st & Hf & Hn). rewrite Hn.
  pose proof (post_boot c h honest (fun _ _ => False) (Core.spawn st) (Core.spawn st)) as Hb.
  eapply inv_others; [|apply Hb; [by apply inv_spawn|apply le_refl]]. done.
Qed.

Lemma world_inv_step w w' : world_inv w -> step w w' -> world_inv w'.
Proof using All.
  intros Hw Hst. destruct Hst as [h fuel i r s' Hh Hd Hi Hrun|h d v Hh Hf|h g Hh].
  - pose proof (post_handle c Hc h vid Hcf honest (signed_by w) honest_weight) as Hp.
    specialize (Hp (fun pk d Hpk Hs => inv_signable pk _ _ d (Hw pk Hpk) Hs)
      fuel (node w h) i (Hw h Hh) Hi).
    unfold wp in Hp. rewrite Hrun in Hp. destruct Hp as (Hs' & Hl & _).
    apply world_inv_update; [done..|]. apply Hl.
  - apply world_inv_update; [done..| |].
    + apply inv_foreign_write; [by apply Hw|done].
    + exists []. by rewrite app_nil_r.
  - apply world_inv_update; [done..|by apply inv_gone, Hw|]. exists []. by rewrite app_nil_r.
Qed.

Lemma world_inv_reachable w : reachable w -> world_inv w.
Proof using All.
  intros (w0 & Hi & Hr). apply world_inv_initial in Hi.
  induction Hr; [done|]. apply IHHr. by eapply world_inv_step.
Qed.

(** ** From the invariant of the nodes to the voting argument *)

Definition voted (w : world) (p : PublicKey) (b : Block.t) : Prop :=
  exists v, SignVote b v ∈ Core.out (node w p).
Definition timed (w : world) (p : PublicKey) (x : Timeout.t) : Prop :=
  SignTimeout x ∈ Core.out (node w p).

Lemma knows_signed w h pk d :
  pk ∈ honest -> knows h honest (signed_by w) (Core.out (node w h)) pk d ->
  signed_by w pk d.
Proof using Type. intros Hpk HK. specialize (HK Hpk). case_decide; [by subst|done]. Qed.

Lemma quorum_names_quorum names : quorum_names c names -> is_quorum c (list_to_set names).
Proof using Type. intros (Hnd & Hpos & Hq). split; [by apply names_member|done]. Qed.

Lemma good_certified w h qc :
  world_inv w -> QC_good c (knows h honest (signed_by w) (Core.out (node w h))) qc ->
  certified c honest (voted w) (QC.hash qc) (QC.round qc).
Proof using All.
  intros Hw [Hq He]. exists (list_to_set (map fst (QC.votes qc))).
  split; [by apply quorum_names_quorum|]. intros p Hp Hph.
  apply elem_of_list_to_set, list_elem_of_fmap in Hp as ([p' sg] & -> & Hin).
  destruct (He _ Hin) as [_ HK]. apply knows_signed in HK as (e & Hev & Hd); [|done].
  pose proof (inv_events _ _ _ _ _ (Hw _ Hph) e Hev) as Hok.
  destruct e as [b v|x| | | | | | | | |]; simpl in Hd; simplify_eq.
  - destruct Hok as [-> _]. apply Hcf in Hd. injection Hd as Hh Hr _.
    exists b. split_and!; [by eexists|done|done].
  - apply Hcf in Hd. discriminate.
Qed.

Lemma good_timeouts w h tc :
  world_inv w -> TC_good c (knows h honest (signed_by w) (Core.out (node w h))) tc ->
  exists Q, is_quorum c Q /\ forall g, g ∈ Q -> g ∈ honest ->
    exists x, timed w g x /\ Timeout.round x = TC.round tc /\
      QC.round (Timeout.high_qc x) ∈ TC.high_qc_rounds tc.
Proof using All.
  intros Hw [Hq He]. exists (list_to_set (TC_names tc)).
  split; [by apply quorum_names_quorum|]. intros g Hg Hgh.
  apply elem_of_list_to_set, list_elem_of_fmap in Hg as ([[[g' sg] q] t] & -> & Hin).
  destruct (He _ Hin) as [_ HK]. apply knows_signed in HK as (e & Hev & Hd); [|done].
  pose proof (inv_events _ _ _ _ _ (Hw _ Hgh) e Hev) as Hok.
  destruct e as [b v|x| | | | | | | | |]; simpl in Hd; simplify_eq.
  - apply Hcf in Hd. discriminate.
  - apply Hcf in Hd. injection Hd as Hr Hhq _. exists x. split_and!; [done|done|].
    apply list_elem_of_fmap. exists (g', sg, q, t). split; [|done]. done.
Qed.

Lemma world_vote_ok w p b :
  world_inv w -> p ∈ honest -> voted w p b ->
  vote_ok c p (knows p honest (signed_by w) (Core.out (node w p))) b.
Proof using Type.
  intros Hw Hp [v Hv]. by destruct (inv_events _ _ _ _ _ (Hw p Hp) _ Hv) as (_ & ? & _).
Qed.

Lemma world_vote_once w p b1 b2 :
  world_inv w -> p ∈ honest -> voted w p b1 -> voted w p b2 ->
  Block.round b1 = Block.round b2 -> Block.digest b1 = Block.digest b2.
Proof using Type.
  intros Hw Hp [v1 Hv1] [v2 Hv2] Hr.
  destruct (ForallOrdPairs_elem _ _ _ _ (inv_trace _ _ _ _ _ (Hw p Hp)) Hv1 Hv2)
    as [Heq|[Hco|Hco]]; [congruence|simpl in Hco; lia..].
Qed.

Lemma world_vote_qc w p b :
  world_inv w -> p ∈ honest -> voted w p b ->
  0 <= QC.round (Block.qc b) < Block.round b /\
  (QC.eqb (Block.qc b) QC.genesis = true \/
   certified c honest (voted w) (QC.hash (Block.qc b)) (QC.round (Block.qc b))).
Proof using All.
  intros Hw Hp Hv. destruct (world_vote_ok w p b Hw Hp Hv) as ([Hq Hr _ _] & _).
  split; [lia|]. destruct Hq as [?|Hq]; [by left|right]. by apply (good_certified w p).
Qed.

Lemma world_vote_rule w p b :
  world_inv w -> p ∈ honest -> voted w p b ->
  RRLeaderElector.get_leader c (Block.round b) = Some (Block.author b) /\
  (QC.round (Block.qc b) + 1 = Block.round b \/ Block.author b = p \/
   exists Q, is_quorum c Q /\ forall g, g ∈ Q -> g ∈ honest ->
     exists x, timed w g x /\ Timeout.round x + 1 = Block.round b /\
       QC.round (Timeout.high_qc x) <= QC.round (Block.qc b)).
Proof using All.
  intros Hw Hp Hv. destruct (world_vote_ok w p b Hw Hp Hv) as ([_ _ Hl Ht] & _ & Hrule).
  split; [done|]. destruct Hrule as [?|(tc & Htc & Htr & Hhq)]; [by left|].
  destruct (Ht tc Htc) as [_ [?|Hgood]]; [by right; left|]. right; right.
  destruct (good_timeouts w p tc Hw Hgood) as (Q & HQ & Hx). exists Q. split; [done|].
  intros g Hg Hgh. destruct (Hx g Hg Hgh) as (x & ? & ? & ?). exists x.
  split_and!; [done|lia|by apply Hhq].
Qed.

Lemma world_vote_timeout w p b x :
  world_inv w -> p ∈ honest -> voted w p b -> timed w p x ->
  Block.round b <= Timeout.round x ->
  QC.round (Block.qc b) <= QC.round (Timeout.high_qc x).
Proof using Type.
  intros Hw Hp [v Hv] Hx Hr.
  destruct (ForallOrdPairs_elem _ _ _ _ (inv_trace _ _ _ _ _ (Hw p Hp)) Hv Hx)
    as [Heq|[Hco|Hco]]; [done|done|simpl in Hco; lia].
Qed.

(** A certified digest is the digest of a voted block of the certified round. *)
Lemma certified_digest w b r :
  world_inv w -> certified c honest (voted w) (Block.digest b) r ->
  r = Block.round b /\ 0 < r <= u64_max.
Proof using All.
  intros Hw Hcert.
  destruct (certified_block Hnz c Hc honest Hfault (voted w)
    (fun p b Hp Hv => world_vote_qc w p b Hw Hp Hv) _ _ Hcert)
    as (p & b' & Hp & Hv & Hd & Hr & Hpos & _).
  destruct (world_vote_ok w p b' Hw Hp Hv) as (_ & Hmax & _).
  apply (digest_inj Hcf) in Hd as [Hround _]. lia.
Qed.

Lemma committed_head w h b :
  world_inv w -> h ∈ honest -> Commit b ∈ Core.out (node w h) ->
  exists b0 b1, chain_head c honest (voted w) b0 b1 /\
    ancestor (Block.digest b) (Block.digest b0).
Proof using All.
  intros Hw Hh Hin.
  destruct (inv_events _ _ _ _ _ (Hw h Hh) _ Hin)
    as (b0 & b1 & qc1 & Hg1 & Hd1 & Hg0 & Hd0 & Hr & Ha).
  apply (good_certified w h _ Hw) in Hg1, Hg0. rewrite Hd1 in Hg1. rewrite Hd0 in Hg0.
  destruct (certified_digest w b1 _ Hw Hg1) as [Hr1 Hpos1].
  destruct (certified_digest w b0 _ Hw Hg0) as [Hr0 Hpos0].
  rewrite Hr1 in Hg1, Hpos1. rewrite Hr0 in Hg0, Hpos0.
  exists b0, b1. split; [|done]. split_and!; try done.
  destruct (decide (Block.round b0 = u64_max)) as [Hm|Hm].
  - rewrite Hm in Hr. change (u64 (u64_max + 1)) with 0 in Hr. lia.
  - rewrite u64_succ in Hr; lia.
Qed.

(** Blocks that honest cores deliver are on one chain. *)
Lemma cores_agree w h1 h2 b1 b2 :
  reachable w -> h1 ∈ honest -> h2 ∈ honest ->
  Commit b1 ∈ Core.out (node w h1) -> Commit b2 ∈ Core.out (node w h2) ->
  ancestor (Block.digest b1) (Block.digest b2) \/
  ancestor (Block.digest b2) (Block.digest b1).
Proof using All.
  intros Hr Hh1 Hh2 Hc1 Hc2. apply world_inv_reachable in Hr as Hw.
  destruct (committed_head w h1 b1 Hw Hh1 Hc1) as (x0 & x1 & Hx & Hax).
  destruct (committed_head w h2 b2 Hw Hh2 Hc2) as (y0 & y1 & Hy & Hay).
  destruct (chain_heads_agree Hcf Hnz c Hc honest Hfault (voted w) (timed w)
    (fun p a b Hp Ha Hb => world_vote_once w p a b Hw Hp Ha Hb)
    (fun p b Hp Hv => world_vote_qc w p b Hw Hp Hv)
    (fun p b Hp Hv => world_vote_rule w p b Hw Hp Hv)
    (fun p b x Hp Hv Hx => world_vote_timeout w p b x Hw Hp Hv Hx)
    x0 x1 y0 y1 Hx Hy) as [Hxy|Hyx].
  - apply (ancestor_linear Hcf _ _ (Block.digest y0)); [|done].
    by eapply ancestor_trans.
  - apply (ancestor_linear Hcf _ _ (Block.digest x0)); [done|].
    by eapply ancestor_trans.
Qed.

(** C5: an honest operator never signs votes for two different blocks of one
    round, votes only in increasing rounds, and after it has signed a timeout of
    a round never votes in that round or an earlier one. *)
Theorem honest_votes_once w h b1 v1 b2 v2 :
  reachable w -> h ∈ honest ->
  SignVote b1 v1 ∈ Core.out (node w h) -> SignVote b2 v2 ∈ Core.out (node w h) ->
  (Block.round b1 = Block.round b2 -> Block.digest b1 = Block.digest b2) /\
  (forall l1 l2, Core.out (node w h) = l1 ++ SignVote b2 v2 :: l2 ->
     forall e, e ∈ l1 ->
     match e with
     | SignVote b _ => Block.round b < Block.round b2
     | SignTimeout x => Timeout.round x < Block.round b2
     | _ => True
     end).
Proof using All.
  intros Hr Hh Hv1 Hv2. apply world_inv_reachable in Hr as Hw. split.
  - intros Hround. apply (world_vote_once w h); try done; by eexists.
  - intros l1 l2 Hl e He. pose proof (inv_trace _ _ _ _ _ (Hw h Hh)) as Ht.
    rewrite Hl in Ht. pose proof (ForallOrdPairs_app_cons _ _ _ _ e Ht He). by destruct e.
Qed.

End system.

(** ** An execution *)

Section witness.
#[local] Existing Instances ideal_crypto ideal_bincode ideal_round_trip memory_db
  memory_db_safe.

(** Operator 11 is faulty; 12 and 13 vote for two blocks, and 12 commits the
    first when the third arrives. *)
Definition demo_honest : gset PublicKey := {[12; 13; 14]}.

Definition demo_qc (b : Block.t) : QC.t :=
  QC.mk (Block.digest b) (Block.round b) (u64 (Z.of_nat (length (Block.payload b))))
    (map (fun p => (p, Vote.signature (Vote.new b p))) [11; 12; 13]).

Definition demo_b1 : Block.t := Block.new QC.genesis None 12 1 [0].
Definition demo_b2 : Block.t := Block.new (demo_qc demo_b1) None 13 2 [].
Definition demo_b3 : Block.t := Block.new (demo_qc demo_b2) None 14 3 [].

Definition demo_w0 : world :=
  mkWorld (fun h => snd (Core.boot h demo_committee (Core.spawn empty_store))) ∅.

Definition demo_write (w : world) (h : PublicKey) : world :=
  mkWorld (set_node w h (Core.set_store (fst (Store.write (Core.store (node w h)) 0 []))
    (node w h))) (dead w).

Definition demo_deliver (w : world) (h : PublicKey) (b : Block.t) : world :=
  let '(r, s') := Core.handle h demo_committee 7 5 (Received (Propose b)) (node w h) in
  mkWorld (set_node w h s') (if ended r then {[h]} ∪ dead w else dead w).

Definition demo_w1 := demo_write (demo_write demo_w0 12) 13.
Definition demo_w2 := demo_deliver (demo_deliver demo_w1 12 demo_b1) 13 demo_b1.
Definition demo_w3 := demo_deliver (demo_deliver demo_w2 12 demo_b2) 13 demo_b2.
Definition demo_w4 := demo_deliver demo_w3 12 demo_b3.

Definition has_signed_b (l : list event) (d : Digest) : bool :=
  existsb (fun e => match signed_digest e with Some d' => d' =? d | None => false end) l.

Lemma has_signed_b_ok l d : has_signed_b l d = true -> has_signed l d.
Proof.
  intros (e & He & Hd)%existsb_exists. exists e. split; [by apply list_elem_of_In|].
  destruct (signed_digest e); [|done]. f_equal. lia.
Qed.

Lemma demo_foreign : foreign 0.
Proof. intros b Hb. discriminate. Qed.

Lemma demo_fault : fault_bound demo_committee demo_honest.
Proof.
  split; [vm_compute; discriminate|]. intros p.
  assert (Committee.stake demo_committee p <= 1) as Hp.
  { unfold Committee.stake.
    assert (map_Forall (fun _ a => Authority.stake a <= 1)
      (Committee.authorities demo_committee)) as Hall.
    { apply map_Forall_to_list. vm_compute. repeat constructor; discriminate. }
    destruct (Committee.authorities demo_committee !! p) eqn:He; [|lia].
    by apply (Hall p). }
  assert (weight demo_committee (byzantine demo_committee demo_honest) = 1) as ->
    by (vm_compute; reflexivity).
  assert (Committee.quorum_threshold demo_committee = 3) as -> by (vm_compute; reflexivity).
  lia.
Qed.

Lemma demo_input w h b :
  is_round (QC.round (Block.qc b)) -> is_round (Block.round b) -> Block.tc b = None ->
  (forall p sg, (p, sg) ∈ QC.votes (Block.qc b) -> p = 11 \/
     has_signed_b (Core.out (node w p)) (QC.digest (Block.qc b)) = true) ->
  input_ok h demo_honest (signed_by w) (node w h) (Received (Propose b)).
Proof.
  intros Hq Hr Htc Hs. split_and!; try done; [|by rewrite Htc].
  intros p sg Hin _ Hp. destruct (Hs p sg Hin) as [->|Hb%has_signed_b_ok].
  - exfalso. revert Hp. vm_compute. discriminate.
  - case_decide; [by subst|done].
Qed.

Lemma demo_step w h b :
  h ∈ demo_honest -> dead w = ∅ ->
  input_ok h demo_honest (signed_by w) (node w h) (Received (Propose b)) ->
  step demo_committee 7 demo_honest w (demo_deliver w h b).
Proof.
  intros Hh Hd Hi. unfold demo_deliver.
  destruct (Core.handle _ _ _ _ _ _) as [r s'] eqn:Hrun.
  by apply (step_handle _ _ _ _ _ 5 (Received (Propose b))); [..|rewrite Hd| |].
Qed.

Lemma demo_batch w h :
  h ∈ demo_honest -> step demo_committee 7 demo_honest w (demo_write w h).
Proof. intros Hh. apply step_batch; [done|apply demo_foreign]. Qed.

Lemma demo_input_qc w h b b' :
  Block.qc b = demo_qc b' ->
  is_round (Block.round b') -> is_round (Block.round b) -> Block.tc b = None ->
  has_signed_b (Core.out (node w 12)) (QC.digest (demo_qc b')) = true ->
  has_signed_b (Core.out (node w 13)) (QC.digest (demo_qc b')) = true ->
  input_ok h demo_honest (signed_by w) (node w h) (Received (Propose b)).
Proof.
  intros Hq Hr' Hr Htc H12 H13. apply demo_input; rewrite ?Hq; try done.
  intros p sg Hin. apply list_elem_of_fmap in Hin as (q & [= -> _] & Hin).
  rewrite !elem_of_cons, elem_of_nil in Hin.
  destruct Hin as [->|[->|[->|[]]]]; auto.
Qed.

Lemma demo_step_qc w h b b' :
  h ∈ demo_honest -> dead w = ∅ -> Block.qc b = demo_qc b' ->
  is_round (Block.round b') -> is_round (Block.round b) -> Block.tc b = None ->
  has_signed_b (Core.out (node w 12)) (QC.digest (demo_qc b')) = true ->
  has_signed_b (Core.out (node w 13)) (QC.digest (demo_qc b')) = true ->
  step demo_committee 7 demo_honest w (demo_deliver w h b).
Proof. intros Hh Hd Hq Hr' Hr Htc H12 H13. by eapply demo_step, demo_input_qc. Qed.

Lemma demo_first_step w h :
  h ∈ demo_honest -> dead w = ∅ ->
  step demo_committee 7 demo_honest w (demo_deliver w h demo_b1).
Proof. intros. apply demo_step, demo_input; try done. by intros p sg ?%elem_of_nil. Qed.

Lemma demo_member h : h = 12 \/ h = 13 -> h ∈ demo_honest.
Proof. unfold demo_honest. set_solver. Qed.

Lemma demo_reachable : reachable demo_committee 7 demo_honest demo_w4.
Proof.
  exists demo_w0. split.
  { split; [done|]. intros h _. exists empty_store. split; [|done].
    intros d v Hr. vm_compute in Hr. discriminate. }
  assert (12 ∈ demo_honest) as H12 by (apply demo_member; auto).
  assert (13 ∈ demo_honest) as H13 by (apply demo_member; auto).
  eapply rtc_r; [|apply (demo_step_qc demo_w3 12 demo_b3 demo_b2); try done;
    vm_compute; reflexivity].
  eapply rtc_r; [|apply (demo_step_qc (demo_deliver demo_w2 12 demo_b2) 13 demo_b2 demo_b1);
    try done; vm_compute; reflexivity].
  eapply rtc_r; [|apply (demo_step_qc demo_w2 12 demo_b2 demo_b1);
    try done; vm_compute; reflexivity].
  eapply rtc_r; [|apply (demo_first_step (demo_deliver demo_w1 12 demo_b1) 13);
    [done|vm_compute; reflexivity]].
  eapply rtc_r; [|apply (demo_first_step demo_w1 12); [done|vm_compute; reflexivity]].
  eapply rtc_r; [|apply (demo_batch (demo_write demo_w0 12) 13); done].
  eapply rtc_r; [|apply (demo_batch demo_w0 12); done].
  apply rtc_refl.
Qed.

Lemma demo_commits : Commit demo_b1 ∈ Core.out (node demo_w4 12).
Proof. apply list_elem_of_In. vm_compute. tauto. Qed.

Lemma demo_nonzero t : @sha512_32 ideal_crypto t <> Digest_default.
Proof. discriminate. Qed.

Lemma honest_votes_once_witness : Block.round demo_b1 < Block.round demo_b2.
Proof.
  refine (proj2 (honest_votes_once demo_committee 7 demo_honest demo_committee_well_formed
    ideal_collision_free demo_nonzero demo_fault demo_w4 12
    demo_b1 (Vote.new demo_b1 12) demo_b2 (Vote.new demo_b2 12) _ _ _ _)
    (take 11 (Core.out (node demo_w4 12))) (drop 12 (Core.out (node demo_w4 12))) _
    (SignVote demo_b1 (Vote.new demo_b1 12)) _).
  - exact demo_reachable.
  - apply demo_member. auto.
  - apply list_elem_of_In. vm_compute. tauto.
  - apply list_elem_of_In. vm_compute. tauto.
  - symmetry. apply take_drop_middle. vm_compute. reflexivity.
  - apply list_elem_of_In. vm_compute. tauto.
Defined.

End witness.
