(* ===== verification/Progress.v ===== *)
(** * The handlers return

    [Core::run] handles one message after the other, so a handler that does not
    return, or that panics, ends the consensus task of the validator.  In every
    reachable state of the system the only loop without a static bound, the one
    of [Core::prune], ends, because the rounds of a certified chain decrease; and
    the only panics are those on a signature or key that does not parse, on a
    time-out certificate without votes, on a message that the dispatcher never
    forwards, and of a send to a task that has ended. *)

From S2P Require Import Prelude Store Committee Messages Aggregator Network Core Ideal.
From S2P Require Import CoreInv Safety.

(** The panics that remain possible. *)
Definition known_panics : list string :=
  ["compact signatures are 64 bytes"; "public keys must be 33 bytes"; "Empty TC";
   "Unexpected protocol message"].

(** The panics of a send to a task that has ended. *)
Definition send_panics (r : receiver) : list string :=
  match r with
  | RxProposer => ["Failed to send message to proposer"]
  | RxSynchronizer => ["Failed to send request to synchronizer"]
  | RxMempool => ["Failed to send sync message"; "Failed to send cleanup message"]
  | RxPayloadWaiter =>
      ["Failed to send message to payload waiter"; "Failed to send cleanup message"]
  | RxSignature => ["Failed to send message Signature Service"]
  | RxSignatureReply => ["Failed to receive signature from Signature Service"]
  end.

(** An outcome while the receivers [gone] are closed. *)
Definition returns (gone : list receiver) {E A} (r : outcome E A) : Prop :=
  match r with
  | Ok _ | Err _ => True
  | Panic msg => msg ∈ known_panics \/ exists rx, rx ∈ gone /\ msg ∈ send_panics rx
  | Diverged => False
  end.

(** Running [m] from [s] returns and closes no channel. *)
Definition runs {S E A} (gone : S -> list receiver) (g : list receiver) (m : prog S E A) (s : S)
  : Prop := returns g (fst (m s)) /\ gone (snd (m s)) = g.

(** A program that does so from every state. *)
Definition total {S E A} (gone : S -> list receiver) (m : prog S E A) : Prop :=
  forall s, runs gone (gone s) m s.

Lemma returns_bind {E A B} g (m : outcome E A) (k : A -> outcome E B) :
  returns g m -> (forall a, returns g (k a)) -> returns g (m ≫= k).
Proof. destruct m; simpl; auto. Qed.

Lemma runs_seq {S E A B} (gone : S -> list receiver) g (m : prog S E A)
  (k : A -> prog S E B) s :
  runs gone g m s ->
  (forall a s', m s = (Ok a, s') -> gone s' = g -> runs gone g (k a) s') ->
  runs gone g (m ≫= k) s.
Proof.
  unfold runs, mbind, prog_bind. destruct (m s) as [[a|e|msg|] s'] eqn:Hm; simpl; try done.
  intros [_ Hg] Hk. by apply Hk.
Qed.

Section total.
Context {S E : Type} {gone : S -> list receiver}.

Lemma total_at {A} (m : prog S E A) s g :
  total gone m -> gone s = g -> runs gone g m s.
Proof. intros Hm <-. apply Hm. Qed.

Lemma total_bind {A B} (m : prog S E A) (k : A -> prog S E B) :
  total gone m -> (forall a, total gone (k a)) -> total gone (m ≫= k).
Proof. intros Hm Hk s. apply runs_seq; [done|]. intros a s' _ <-. apply Hk. Qed.

Lemma total_ret {A} (a : A) : total gone (mret a : prog S E A).
Proof. by intros s. Qed.

Lemma total_get : total gone (get : prog S E S).
Proof. by intros s. Qed.

Lemma total_gets {A} (f : S -> A) : total gone (gets f : prog S E A).
Proof. by intros s. Qed.

Lemma total_modify (f : S -> S) :
  (forall s, gone (f s) = gone s) -> total gone (modify f : prog S E ()).
Proof. intros Hf s. by split; [|apply Hf]. Qed.

Lemma total_fail {A} (e : E) : total gone (fail e : prog S E A).
Proof. by intros s. Qed.

Lemma total_lift {A} (m : outcome E A) :
  (forall g, returns g m) -> total gone (lift m : prog S E A).
Proof. by intros Hm s. Qed.

End total.

Create HintDb total.
#[export] Hint Resolve total_bind total_ret total_get total_gets total_fail total_lift : total.
#[export] Hint Extern 1 (total _ (modify _)) =>
  (apply total_modify; intros s; by repeat case_match) : total.

(** Decides [total] of a program by its shape. *)
Ltac total_step :=
  lazymatch goal with
  | |- total _ (_ ≫= _) => apply total_bind; [|intros]
  | |- total _ (match ?x with _ => _ end) => destruct x
  | |- total _ _ => solve [auto with total]
  end.
Ltac total_tac := repeat total_step.

(** ** Verification *)

Section verification.
Context `{Crypto} (c : Committee.t) (g : list receiver).

Lemma returns_ensure {E} b (e : E) : returns g (ensure b e).
Proof. by destruct b. Qed.

Lemma returns_crypto {A} (r : outcome CryptoError A) : returns g r -> returns g (from_crypto r).
Proof. by destruct r. Qed.

Lemma returns_sig s d pk : returns g (Signature.verify s d pk).
Proof.
  unfold Signature.verify. destruct (from_compact s); simpl;
    [destruct (key_from_slice pk); simpl; [by destruct (verify_ecdsa d s pk)|]|];
    left; unfold known_panics; set_solver.
Qed.

Lemma returns_batch d votes : returns g (Signature.verify_batch d votes).
Proof.
  induction votes as [|[k sg] votes IH]; [done|]. cbn [Signature.verify_batch].
  repeat case_match; done.
Qed.

Lemma returns_tally reuse names used w : returns g (tally c reuse names used w).
Proof.
  revert used w. induction names as [|n names IH]; intros used w; [done|].
  cbn [tally]. apply returns_bind; [apply returns_ensure|]. intros _.
  apply returns_bind; [apply returns_ensure|]. intros _. apply IH.
Qed.

Lemma returns_QC_verify qc : returns g (QC_verify c qc).
Proof.
  apply returns_bind; [apply returns_tally|]. intros w.
  apply returns_bind; [apply returns_ensure|]. intros _.
  apply returns_crypto, returns_batch.
Qed.

Lemma returns_TC_signatures r votes : returns g (TC_verify_signatures r votes).
Proof.
  induction votes as [|[[[p sg] q] t] votes IH]; [done|]. cbn [TC_verify_signatures].
  apply returns_bind; [apply returns_crypto, returns_sig|]. done.
Qed.

Lemma returns_TC_verify tc : returns g (TC_verify c tc).
Proof.
  apply returns_bind; [apply returns_tally|]. intros w.
  apply returns_bind; [apply returns_ensure|]. intros _. apply returns_TC_signatures.
Qed.

Lemma returns_Vote_verify v : returns g (Vote_verify c v).
Proof.
  apply returns_bind; [apply returns_ensure|]. intros _. apply returns_crypto, returns_sig.
Qed.

Lemma returns_Block_verify b : returns g (Block_verify c b).
Proof.
  apply returns_bind; [apply returns_ensure|]. intros _.
  apply returns_bind; [apply returns_crypto, returns_sig|]. intros _.
  apply returns_bind; [case_match; [done|apply returns_QC_verify]|]. intros _.
  case_match; [apply returns_TC_verify|done].
Qed.

Lemma returns_Timeout_verify x : returns g (Timeout_verify c x).
Proof.
  apply returns_bind; [apply returns_ensure|]. intros _.
  apply returns_bind; [apply returns_crypto, returns_sig|]. intros _.
  apply returns_bind; [case_match; [done|apply returns_QC_verify]|]. intros _.
  case_match; [done|apply returns_TC_verify].
Qed.

End verification.
#[export] Hint Resolve returns_ensure returns_Vote_verify returns_Block_verify
  returns_Timeout_verify : total.

(** ** Handlers that never loop *)

Section handlers.
Context `{Crypto} `{Bincode} `{Rocksdb Digest bytes}.
Context (name : PublicKey) (c : Committee.t) (vid : Z) (Hc : well_formed c).

Lemma size_nonzero : Committee.size c <> 0.
Proof.
  destruct Hc as [_ [Hpos _]]. unfold total_stake in Hpos. intros Hz.
  unfold Committee.size in Hz. rewrite <- Nat2Z.inj_0 in Hz. apply Nat2Z.inj in Hz.
  apply map_size_empty_inv in Hz. simpl in Hpos. rewrite Hz in Hpos. simpl in Hpos.
  rewrite fmap_empty, map_to_list_empty in Hpos. simpl in Hpos. lia.
Qed.

Lemma total_leader r : total Core.gone (Core.get_leader c r).
Proof.
  unfold Core.get_leader. destruct (get_leader_total c r size_nonzero) as [l ->].
  by intros s.
Qed.
Hint Resolve total_leader : total.

Lemma total_emit e : total Core.gone (Core.emit e).
Proof. by intros s. Qed.

Lemma total_reach r msg : msg ∈ send_panics r -> total Core.gone (Core.reach r msg).
Proof.
  intros Hm s. unfold runs, Core.reach. case_bool_decide; [|done]. split; [|done]. right. by exists r.
Qed.

Lemma total_send r msg e : msg ∈ send_panics r -> total Core.gone (Core.send r msg e).
Proof. intros Hm. apply total_bind; [by apply total_reach|intros; apply total_emit]. Qed.
Hint Resolve total_emit total_reach total_send : total.
Hint Extern 1 (_ ∈ send_panics _) => (simpl; set_solver) : total.

Lemma total_request e : total Core.gone (Core.request_signature e).
Proof. unfold Core.request_signature. total_tac. Qed.
Hint Resolve total_request : total.

Lemma total_broadcast m : total Core.gone (Core.broadcast name c vid m).
Proof. apply total_emit. Qed.
Hint Resolve total_broadcast : total.

Lemma total_advance r : total Core.gone (Core.advance_round r).
Proof. unfold Core.advance_round. total_tac. Qed.
Hint Resolve total_advance : total.

Lemma total_process_qc qc : total Core.gone (Core.process_qc qc).
Proof. unfold Core.process_qc, Core.update_high_qc. total_tac. Qed.

Lemma total_process_tc tc : total Core.gone (Core.process_tc tc).
Proof. unfold Core.process_tc, Core.update_high_tc. total_tac. Qed.

Lemma total_proposal tc : total Core.gone (Core.generate_proposal tc).
Proof. unfold Core.generate_proposal. total_tac. Qed.
Hint Resolve total_process_qc total_process_tc total_proposal : total.

(** The aggregator sends nothing. *)
Abbreviation quiet := (total (fun _ => [])).

Lemma quiet_accumulate {A} author (x : A) e : quiet (accumulate c author x e).
Proof. intros m. unfold runs, accumulate. by repeat case_match. Qed.

Lemma quiet_add_vote v : quiet (Aggregator.add_vote c v).
Proof.
  intros a. split; [|done]. unfold Aggregator.add_vote.
  destruct (QCMaker.append c v _) as [r m] eqn:Hr.
  change (returns [] r). replace r with (fst (QCMaker.append c v
    (default maker_new (default ∅ (Aggregator.votes_aggregators a !! Vote.round v)
      !! Vote.digest v)))) by by rewrite Hr.
  eapply (total_at (gone := fun _ => [])); [|done].
  apply total_bind; [apply quiet_accumulate|intros; apply total_ret].
Qed.

Lemma quiet_add_timeout x : quiet (Aggregator.add_timeout c x).
Proof.
  intros a. split; [|done]. unfold Aggregator.add_timeout.
  destruct (TCMaker.append c x _) as [r m] eqn:Hr.
  change (returns [] r). replace r with (fst (TCMaker.append c x
    (default maker_new (Aggregator.timeouts_aggregators a !! Timeout.round x))))
    by by rewrite Hr.
  eapply (total_at (gone := fun _ => [])); [|done].
  apply total_bind; [apply quiet_accumulate|intros; apply total_ret].
Qed.

Lemma total_with_aggregator {A} (m : prog Aggregator.t ConsensusError A) :
  quiet m -> total Core.gone (Core.with_aggregator m).
Proof.
  intros Hm s. destruct (Hm (Core.aggregator s)) as [Hr _]. unfold runs, Core.with_aggregator.
  destruct (m _) as [[a|e|msg|] a']; try done. split; [|done]. left.
  by destruct Hr as [?|(rx & []%elem_of_nil & _)].
Qed.
Hint Resolve quiet_add_vote quiet_add_timeout total_with_aggregator : total.

Lemma total_handle_vote v : total Core.gone (Core.handle_vote name c v).
Proof. unfold Core.handle_vote. total_tac. Qed.

Lemma total_handle_timeout x : total Core.gone (Core.handle_timeout name c vid x).
Proof. unfold Core.handle_timeout. total_tac. Qed.
Hint Resolve total_handle_vote total_handle_timeout : total.

Lemma total_local_timeout : total Core.gone (Core.local_timeout_round name c vid).
Proof. unfold Core.local_timeout_round, Core.increase_last_voted_round. total_tac. Qed.

Lemma total_handle_tc tc : total Core.gone (Core.handle_tc name c tc).
Proof. unfold Core.handle_tc. total_tac. Qed.

Lemma total_make_vote b : total Core.gone (Core.make_vote name b).
Proof.
  unfold Core.make_vote, Core.increase_last_voted_round. total_step; [total_step|].
  total_step; [|total_tac]. destruct (Block.tc b) as [tc|]; [|total_tac].
  total_step; [|total_tac]. destruct (Core.max_round _); [by intros s|].
  intros s. split; [|done]. left. unfold known_panics. set_solver.
Qed.

Lemma total_store_block b : total Core.gone (Core.store_block b).
Proof. intros s. unfold runs, Core.store_block. by destruct (Store.write _ _ _). Qed.

Lemma total_sync_parent b : total Core.gone (Core.sync_get_parent_block b).
Proof. unfold Core.sync_get_parent_block. total_tac. Qed.
Hint Resolve total_make_vote total_store_block total_sync_parent : total.

Lemma total_get_ancestors b : total Core.gone (Core.get_ancestors b).
Proof. unfold Core.get_ancestors. total_tac. Qed.

Lemma total_deliver l : total Core.gone (Core.deliver l).
Proof. induction l; cbn [Core.deliver]; total_tac. Qed.

Lemma total_missing_payload l acc : total Core.gone (Core.missing_payload l acc).
Proof. revert acc. induction l; intros acc; cbn [Core.missing_payload]; total_tac. Qed.
Hint Resolve total_get_ancestors total_deliver total_missing_payload : total.

Lemma total_mempool_verify b : total Core.gone (Core.mempool_verify b).
Proof. unfold Core.mempool_verify. total_tac. Qed.

Lemma total_mempool_cleanup r : total Core.gone (Core.mempool_cleanup r).
Proof. unfold Core.mempool_cleanup. total_tac. Qed.

Lemma total_cleanup_proposer b0 b1 b : total Core.gone (Core.cleanup_proposer b0 b1 b).
Proof. unfold Core.cleanup_proposer. total_tac. Qed.

End handlers.

(** ** What [commit] and [prune] walk over *)

Section reference.
Context `{Crypto} `{Bincode} `{Rocksdb Digest bytes}.
Implicit Types (st : Store.t Digest bytes) (b : Block.t).

(** The parent that a store holds. *)
Definition parent_in st b : option Block.t :=
  if QC.eqb (Block.qc b) QC.genesis then Some Block.genesis
  else match Store.read st (Block.parent b) with
       | inr (Some data) => de_block data
       | _ => None
       end.

(** The ancestors of a block, the parent first, up to the genesis block. *)
Fixpoint lineage st (n : nat) b : list Block.t :=
  match n with
  | O => []
  | S n => if Block.eqb b Block.genesis then []
           else match parent_in st b with
                | Some anc => anc :: lineage st n anc
                | None => []
                end
  end.

(** The ancestors that are not committed yet, the parent first, [n] at most. *)
Fixpoint history st (last_committed : Round) (n : nat) b : list Block.t :=
  match n with
  | O => []
  | S n => if u64 (last_committed + 1) <? Block.round b then
             match parent_in st b with
             | Some anc => anc :: history st last_committed n anc
             | None => []
             end
           else []
  end.

End reference.

(** ** Blocks *)

Section system.
Context `{Crypto} `{Bincode} `{!BincodeRoundTrip}.
Context `{Rocksdb Digest bytes} `{!RocksdbSafe Digest bytes}.
Context (c : Committee.t) (vid : Z) (honest : gset PublicKey).
Context (Hc : well_formed c) (Hcf : collision_free).
Context (Hnz : forall t, sha512_32 t <> Digest_default) (Hfault : fault_bound c honest).

Abbreviation K w h := (knows h honest (signed_by w) (Core.out (node w h))).
Abbreviation parent w h := (parent_of c h honest (signed_by w) (node w h)).
Abbreviation cert w := (certified c honest (voted w)).

(** A block below the genesis block and the blocks above it: certified, with a
    certified parent. *)
Definition linked (w : world) (h : PublicKey) (b : Block.t) : Prop :=
  cert w (Block.digest b) (Block.round b) /\ QC_ok c (K w h) (Block.qc b).

Definition on_chain (w : world) (h : PublicKey) (b : Block.t) : Prop :=
  b = Block.genesis \/ linked w h b.

Lemma good_linked w h qc b :
  world_inv c honest w -> QC_good c (K w h) qc -> Block.digest b = QC.hash qc ->
  QC_ok c (K w h) (Block.qc b) ->
  linked w h b /\ 0 < Block.round b /\ Block.round b = QC.round qc.
Proof using All.
  intros Hw Hg Hd Hq.
  pose proof (good_certified c vid honest Hc Hcf Hnz Hfault w h qc Hw Hg) as Hcert.
  rewrite <- Hd in Hcert.
  destruct (certified_digest c vid honest Hc Hcf Hnz Hfault w b _ Hw Hcert) as [Hr Hpos].
  unfold linked. rewrite Hr in *. auto with lia.
Qed.

(** The parent of a block on the chain has a lower round. *)
Lemma linked_parent w h b anc :
  world_inv c honest w -> linked w h b -> parent w h b anc ->
  anc = Block.genesis \/
  linked w h anc /\ 0 < Block.round anc /\ Block.round anc < Block.round b.
Proof using All.
  intros Hw [Hcert _] [[_ ->]|(_ & Hd & Hg & Hok)]; [by left|right].
  destruct (good_linked w h _ anc Hw Hg Hd (bo_qc _ _ _ _ _ Hok)) as (Hl & Hpos & Hr).
  split_and!; [done..|]. pose proof Hl as [Hca _].
  destruct (certified_block Hnz c Hc honest Hfault (voted w)
    (fun p b Hp Hv => world_vote_qc c vid honest Hc Hcf Hnz Hfault w p b Hw Hp Hv) _ _ Hcert)
    as (p & y & Hp & Hv & Hdy & Hry & _ & _).
  destruct (world_vote_qc c vid honest Hc Hcf Hnz Hfault w p y Hw Hp Hv) as [Hlt _].
  apply (digest_inj Hcf) in Hdy as [_ Hh].
  rewrite (vote_parent_round Hcf Hnz c Hc honest Hfault (voted w)
    (fun p b Hp Hv => world_vote_qc c vid honest Hc Hcf Hnz Hfault w p b Hw Hp Hv)
    p y (Block.digest anc) (Block.round anc) Hp Hv) in Hlt; [lia|congruence|done].
Qed.

(** [s] holds no more than the store of the node in [w]. *)
Definition shrunk (w : world) (h : PublicKey) (s : Core.t) : Prop :=
  forall d v, Store.read (Core.store s) d = inr (Some v) ->
    Store.read (Core.store (node w h)) d = inr (Some v).

Lemma get_parent_returns w h s b :
  world_inv c honest w -> h ∈ honest -> shrunk w h s -> on_chain w h b ->
  Core.get_parent_block b s = (Ok (parent_in (Core.store s) b), s) /\
  forall anc, parent_in (Core.store s) b = Some anc ->
    parent_in (Core.store (node w h)) b = Some anc /\
    (anc = Block.genesis \/
     linked w h anc /\ 0 < Block.round anc /\ Block.round anc < Block.round b).
Proof using All.
  intros Hw Hh Hs Hb. unfold Core.get_parent_block, parent_in.
  destruct (QC.eqb (Block.qc b) QC.genesis) eqn:Hg.
  { split; [done|]. intros anc [= <-]. auto. }
  destruct Hb as [->|Hb]; [done|]. unfold mbind, prog_bind, gets.
  destruct (Store.read (Core.store s) (Block.parent b)) as [e|[v|]] eqn:Hr; [done| |done].
  destruct (inv_read c Hc h Hcf honest (signed_by w)
    (honest_weight c honest Hc Hfault)
    (fun pk d Hpk Hsg => inv_signable c honest pk _ _ d (Hw pk Hpk) Hsg)
    (node w h) (Block.qc b) v (Hw h Hh) (proj2 Hb) Hg (Hs _ _ Hr))
    as (anc & Hde & Hd & Hok & Hgood).
  rewrite Hde. split; [done|]. intros ? [= <-]. rewrite (Hs _ _ Hr). split; [done|].
  apply linked_parent; [done..|]. right. by split_and!.
Qed.

Lemma linked_round w h b :
  world_inv c honest w -> linked w h b -> 0 < Block.round b <= u64_max.
Proof using All.
  intros Hw [Hb _].
  by apply (certified_digest c vid honest Hc Hcf Hnz Hfault w b _ Hw) in Hb as [_ ?].
Qed.

Lemma prune_genesis fuel i s : Core.prune_loop (S fuel) Block.genesis i s = (Ok (), s).
Proof using Type.
  assert (Block.eqb Block.genesis Block.genesis = true) as Hg by done.
  cbn [Core.prune_loop]. unfold Core.get_parent_block.
  change (QC.eqb (Block.qc Block.genesis) QC.genesis) with true. cbv iota.
  unfold mbind, prog_bind, mret, prog_ret. by rewrite Hg.
Qed.

(** The loop of [prune] ends and deletes only ancestors at the prune depth or
    deeper. *)
Lemma prune_returns w h fuel b i s :
  world_inv c honest w -> h ∈ honest -> shrunk w h s -> on_chain w h b ->
  Block.round b + 2 <= Z.of_nat fuel -> 0 <= i -> i + Block.round b <= u64_max ->
  exists st, Core.prune_loop fuel b i s = (Ok (), Core.set_store st s) /\
    forall d, d ∉ map Block.digest (drop (Z.to_nat (Core.prune_depth s - 1 - i))
      (lineage (Core.store (node w h)) fuel b)) ->
      Store.read st d = Store.read (Core.store s) d.
Proof using All.
  intros Hw Hh. revert b i s. induction fuel as [|fuel IH]; intros b i s Hs Hb Hf Hi Hmax.
  { destruct Hb as [->|Hb]; [simpl in Hf; lia|].
    apply (linked_round w h b Hw) in Hb. lia. }
  destruct (get_parent_returns w h s b Hw Hh Hs Hb) as (Ho & Hanc).
  assert (s = Core.set_store (Core.store s) s) as Hsame by by destruct s.
  cbn [Core.prune_loop lineage]. unfold mbind at 1, prog_bind at 1. rewrite Ho.
  destruct (parent_in (Core.store s) b) as [anc|] eqn:Hp;
    [|exists (Core.store s); by rewrite <- Hsame].
  destruct (Hanc _ eq_refl) as [-> Hon].
  destruct (Block.eqb b Block.genesis) eqn:Hg; [exists (Core.store s); by rewrite <- Hsame|].
  destruct Hb as [->|Hb]; [done|]. apply (linked_round w h b Hw) in Hb as Hrb.
  rewrite u64_succ by lia. unfold mbind at 1, prog_bind at 1, gets.
  set (st1 := if Core.prune_depth s <=? i + 1
              then Store.delete_key (Core.store s) (Block.digest anc) else Core.store s).
  assert ((if Core.prune_depth s <=? i + 1 then Core.remove_block anc else mret ()) s
    = (Ok (), Core.set_store st1 s)) as Hrm.
  { unfold st1. case_match; [done|]. by rewrite <- Hsame. }
  unfold mbind at 1, prog_bind at 1. rewrite Hrm.
  assert (shrunk w h (Core.set_store st1 s)) as Hs1.
  { intros d v Hr. apply Hs. simpl in Hr. unfold st1 in Hr. case_match; [|done].
    exact (Store.read_delete_some _ _ _ _ Hr). }
  destruct (IH anc (i + 1) (Core.set_store st1 s) Hs1) as (st & Hst & Hread).
  { destruct Hon as [->|(? & _)]; [by left|by right]. }
  { destruct Hon as [->|(? & ? & ?)]; simpl; lia. }
  { lia. }
  { destruct Hon as [->|(? & ? & ?)]; simpl; lia. }
  exists st. split; [done|]. intros d Hd. simpl in Hread.
  rewrite Hread; unfold st1; case_match.
  - apply Store.read_delete_ne. intros <-. apply Hd.
    replace (Z.to_nat (Core.prune_depth s - 1 - i)) with O by lia. apply list_elem_of_here.
  - done.
  - replace (Z.to_nat (Core.prune_depth s - 1 - (i + 1))) with O by lia.
    replace (Z.to_nat (Core.prune_depth s - 1 - i)) with O in Hd by lia.
    simpl in *. intros ?. apply Hd. by apply list_elem_of_further.
  - replace (Z.to_nat (Core.prune_depth s - 1 - i)) with
      (S (Z.to_nat (Core.prune_depth s - 1 - (i + 1)))) in Hd by lia. done.
Qed.
Lemma commit_ancestors_returns w h n b acc :
  world_inv c honest w -> h ∈ honest -> on_chain w h b ->
  Core.commit_ancestors n b acc (node w h)
  = (Ok (rev (history (Core.store (node w h)) (Core.last_committed_round (node w h)) n b)
         ++ acc), node w h).
Proof using All.
  intros Hw Hh. revert b acc. induction n as [|n IH]; intros b acc Hb; [done|].
  cbn [Core.commit_ancestors history].
  destruct (get_parent_returns w h (node w h) b Hw Hh (fun _ _ H => H) Hb) as (Ho & Hanc).
  unfold mbind, prog_bind, gets. case_match; [|done]. rewrite Ho.
  destruct (parent_in (Core.store (node w h)) b) as [anc|]; [|done].
  simpl. rewrite <- app_assoc. simpl. apply IH.
  destruct (Hanc _ eq_refl) as [_ [?|(? & _)]]; [by left|by right].
Qed.

Lemma deliver_out l s :
  Core.deliver l s
  = (Ok (), Core.set_out (Core.out s ++ map Commit (filter (fun b => Block.payload b <> []) l)) s).
Proof using Type.
  revert s. induction l as [|b l IH]; intros s; cbn [Core.deliver].
  - simpl. rewrite app_nil_r. by destruct s.
  - unfold mbind, prog_bind. case_bool_decide as Hp.
    + rewrite filter_cons_False by (intros Hn; by apply Hn). apply IH.
    + rewrite filter_cons_True by done. simpl. rewrite IH. simpl. by rewrite <- app_assoc.
Qed.

(** [commit] returns, whatever the certified block. *)
Lemma commit_returns w h fuel b :
  world_inv c honest w -> h ∈ honest -> on_chain w h b ->
  Core.last_committed_round (node w h) < Block.round b ->
  Block.round b + 2 <= Z.of_nat fuel ->
  let s := node w h in
  exists st,
    Core.commit fuel b s
    = (Ok (), Core.set_out (Core.out s ++ map Commit (filter (fun b => Block.payload b <> [])
          (history (Core.store s) (Core.last_committed_round s) 13 b ++ [b])))
        (Core.set_store st (Core.set_last_committed_round (Block.round b) s))) /\
    forall d, d ∉ map Block.digest (drop (Z.to_nat (Core.prune_depth s - 1))
      (lineage (Core.store s) fuel b)) -> Store.read st d = Store.read (Core.store s) d.
Proof using All.
  intros Hw Hh Hb Hlt Hf s. subst s. unfold Core.commit.
  unfold mbind at 1, prog_bind at 1, gets. rewrite (proj2 (Z.leb_gt _ _)) by done.
  unfold mbind at 1, prog_bind at 1. rewrite (commit_ancestors_returns w h 13 b [] Hw Hh Hb).
  rewrite app_nil_r. unfold mbind at 1, prog_bind at 1, modify.
  destruct (prune_returns w h fuel b 0
    (Core.set_last_committed_round (Block.round b) (node w h)) Hw Hh (fun _ _ H => H) Hb Hf)
    as (st & Hst & Hread).
  { lia. }
  { destruct Hb as [->|Hb%(linked_round w h b Hw)]; simpl; [done|lia]. }
  exists st. split; [|by rewrite Z.sub_0_r in Hread].
  unfold mbind, prog_bind, Core.prune. rewrite Hst, deliver_out. simpl. by rewrite rev_involutive.
Qed.



(** The system with the core of one node in a state it reaches in a handler. *)
Definition at_state (w : world) (h : PublicKey) (s : Core.t) : world :=
  mkWorld (set_node w h s) (dead w).

Lemma at_state_inv w h s :
  world_inv c honest w -> h ∈ honest -> inv c h honest (signed_by w) s ->
  le (node w h) s ->
  world_inv c honest (at_state w h s) /\ node (at_state w h s) h = s /\
  forall pk d, knows h honest (signed_by w) (Core.out s) pk d -> K (at_state w h s) h pk d.
Proof using Type.
  intros Hw Hh Hs Hl. assert (node (at_state w h s) h = s) as Hn
    by (simpl; unfold set_node; by rewrite decide_True).
  split_and!; [|done|].
  - apply world_inv_update; try done. apply Hl.
  - intros pk d HK Hpk. rewrite Hn. specialize (HK Hpk). case_decide; [done|].
    unfold signed_by in *. simpl. unfold set_node. by rewrite decide_False.
Qed.

Lemma parent_on_chain w h s b b1 b0 :
  world_inv c honest w -> h ∈ honest -> inv c h honest (signed_by w) s ->
  le (node w h) s ->
  parent_of c h honest (signed_by w) s b b1 -> parent_of c h honest (signed_by w) s b1 b0 ->
  u64 (Block.round b0 + 1) = Block.round b1 -> 0 <= QC.round (Block.qc b) ->
  on_chain (at_state w h s) h b0 /\ Block.round b0 <= QC.round (Block.qc b).
Proof using All.
  intros Hw Hh Hs Hl Hp1 Hp0 Hr Hq.
  destruct (at_state_inv w h s Hw Hh Hs Hl) as (Hw' & Hn & HK).
  destruct Hp1 as [[_ ->]|(Hng & Hd1 & Hg1 & Hok1)].
  { destruct Hp0 as [[_ ->]|(? & _)]; [|done]. vm_compute in Hr. discriminate. }
  destruct (good_linked (at_state w h s) h _ b1 Hw' (QC_good_mono c _ _ _ HK Hg1) Hd1
    (QC_ok_mono c _ _ HK _ (bo_qc _ _ _ _ _ Hok1))) as (Hl1 & Hpos1 & Hr1).
  assert (parent (at_state w h s) h b1 b0) as Hp0'.
  { destruct Hp0 as [?|(? & ? & Hg & Hok)]; [by left|right]. rewrite Hn.
    rewrite Hn in HK. split_and!; [done..| |].
    - by eapply QC_good_mono.
    - apply (block_ok_mono c h _ _ HK _ _ _ (Z.le_refl _) Hok). }
  destruct (linked_parent _ _ _ _ Hw' Hl1 Hp0') as [->|(Hl0 & Hpos0 & Hlt)].
  - split; [by left|]. simpl. lia.
  - split; [by right|]. lia.
Qed.

Lemma commit_in_handler w h s fuel b b1 b0 :
  world_inv c honest w -> h ∈ honest -> inv c h honest (signed_by w) s ->
  le (node w h) s ->
  parent_of c h honest (signed_by w) s b b1 -> parent_of c h honest (signed_by w) s b1 b0 ->
  u64 (Block.round b0 + 1) = Block.round b1 -> 0 <= QC.round (Block.qc b) ->
  QC.round (Block.qc b) + 2 <= Z.of_nat fuel ->
  runs Core.gone (Core.gone s) (Core.commit fuel b0) s.
Proof using All.
  intros Hw Hh Hs Hl Hp1 Hp0 Hr Hq Hf.
  destruct (parent_on_chain w h s b b1 b0 Hw Hh Hs Hl Hp1 Hp0 Hr Hq) as [Hon Hle].
  destruct (at_state_inv w h s Hw Hh Hs Hl) as (Hw' & Hn & _). rewrite <- Hn.
  destruct (Z.lt_ge_cases (Core.last_committed_round (node (at_state w h s) h))
    (Block.round b0)) as [Hlt|Hge].
  - destruct (commit_returns _ h fuel b0 Hw' Hh Hon Hlt) as (st & Hst & _); [lia|].
    unfold runs. by rewrite Hst.
  - unfold runs, Core.commit, mbind, prog_bind, gets. by rewrite (proj2 (Z.leb_le _ _) Hge).
Qed.

Abbreviation invs w h s := (inv c h honest (signed_by w) s).

(** What a completed step of a handler leaves. *)
Lemma step_post {A} w h s0 s s' (m : prog Core.t ConsensusError A) a Q :
  wp m (post c h honest (signed_by w) s0 Q) s -> m s = (Ok a, s') ->
  invs w h s' /\ le s0 s' /\ Q a s'.
Proof using Type. intros Hm Hr. by apply (wp_run _ _ _ _ _ Hm Hr). Qed.

Lemma process_block_returns w h s fuel b :
  world_inv c honest w -> h ∈ honest -> invs w h s -> le (node w h) s ->
  block_ok c h (knows h honest (signed_by w) (Core.out s)) (QC.round (Core.high_qc s)) b ->
  QC.round (Block.qc b) + 2 <= Z.of_nat fuel ->
  runs Core.gone (Core.gone s) (Core.process_block h c vid fuel b) s.
Proof using All.
  intros Hw Hh Hs Hl Hb Hf. unfold Core.process_block.
  pose proof (fun pk d Hpk Hsg => inv_signable c honest pk _ _ d (Hw pk Hpk) Hsg) as Hsig.
  apply runs_seq; [eapply total_at; [by eapply total_store_block|done]|].
  intros [] s1 E1 G1.
  destruct (step_post w h s s s1 _ _ _ (post_store_block c h honest _ s s b Hs (le_refl s) Hb) E1)
    as (Hs1 & Hl1 & _).
  apply runs_seq; [eapply total_at; [by eapply total_get_ancestors|done]|].
  intros o s2 E2 G2.
  apply (block_ok_le c h honest (signed_by w) s s1 b Hl1) in Hb as Hb1.
  destruct (step_post w h s s1 s2 _ _ _ (post_get_ancestors c Hc h Hcf honest _
    (honest_weight c honest Hc Hfault) Hsig s s1 b Hs1 Hl1 Hb1) E2) as (_ & _ & Hanc).
  destruct o as [[b0 b1]|]; [|done]. destruct (Hanc _ _ eq_refl) as (-> & Hp1 & Hp0).
  apply runs_seq; [eapply total_at; [by eapply total_cleanup_proposer|done]|].
  intros [] s3 E3 G3.
  destruct (step_post w h s s1 s3 _ _ _
    (post_cleanup_proposer c h honest _ s s1 b0 b1 b Hs1 Hl1) E3) as (Hs3 & Hl3 & Hl13).
  apply runs_seq.
  - destruct (_ =? _) eqn:Hr; [|done]. apply Z.eqb_eq in Hr.
    apply runs_seq; [eapply total_at; [by eapply total_mempool_cleanup|done]|].
    intros [] s4 E4 G4.
    destruct (step_post w h s s3 s4 _ _ _
      (post_mempool_cleanup c h honest _ s s3 (Block.round b0) Hs3 Hl3) E4)
      as (Hs4 & Hl4 & Hl34).
    assert (le s1 s4) as Hl14 by (by eapply le_trans).
    rewrite <- G4. apply (commit_in_handler w h s4 fuel b b1 b0); try done.
    + by eapply le_trans.
    + by eapply parent_of_le.
    + by eapply parent_of_le.
    + apply (bo_qc_round _ _ _ _ _ Hb).
  - intros [] s4 _ G4. eapply total_at; [|done].
    apply total_bind; [apply total_gets|]. intros cur. case_match; [apply total_ret|].
    apply total_bind; [by eapply total_make_vote|]. intros [v|]; [|apply total_ret].
    apply total_bind; [by eapply total_handle_vote|intros; apply total_broadcast].
Qed.

(** The fuel that the loop of [prune] needs for an input. *)
Definition fuel_for (i : input) : Z :=
  match i with
  | Received (Propose b) | Loopback b => QC.round (Block.qc b) + 2
  | _ => 0
  end.

Lemma proposal_returns w h fuel b :
  world_inv c honest w -> h ∈ honest ->
  proposal_known (knows h honest (signed_by w) (Core.out (node w h))) b ->
  QC.round (Block.qc b) + 2 <= Z.of_nat fuel ->
  runs Core.gone (Core.gone (node w h)) (Core.handle_proposal h c vid fuel b) (node w h).
Proof using All.
  intros Hw Hh (Hk & Hqr & Hbr & Htc) Hf. unfold Core.handle_proposal.
  pose proof (Hw h Hh) as Hs. pose proof (le_refl (node w h)) as Hl0.
  apply runs_seq; [eapply total_at; [by eapply total_leader|done]|].
  intros l s0 E0 G0.
  destruct (step_post w h _ _ s0 _ _ _
    (post_leader c h honest _ (node w h) (node w h) _ Hs Hl0) E0) as (_ & _ & -> & Hlead).
  apply runs_seq; [split; [apply returns_ensure|done]|].
  intros [] s1 [= Hen <-] _.
  unfold ensure in Hen. case_bool_decide as Hauth; [subst l|done].
  apply runs_seq; [split; [apply returns_Block_verify|done]|].
  intros [] s1 [= Hv <-] _.
  apply Block_verify_ok in Hv as (_ & _ & Hacc & Htcv); [|done].
  pose proof (QC_accepted_ok c _ _ Hacc Hk) as Hq.
  apply runs_seq; [eapply total_at; [by eapply total_process_qc|done]|].
  intros [] s1 E1 G1.
  destruct (step_post w h _ _ s1 _ _ _ (post_process_qc c h honest _ (node w h) (node w h)
    (Block.qc b) Hs Hl0 Hq Hqr) E1) as (Hs1 & Hl1 & Hhq & _).
  apply runs_seq; [destruct (Block.tc b); [eapply total_at; [by eapply total_process_tc|done]|done]|].
  intros [] s2 E2 G2.
  assert (invs w h s2 /\ le s1 s2) as [Hs2 Hl12].
  { destruct (Block.tc b) as [tc|] eqn:Htcb; [|injection E2 as <-; by auto using le_refl].
    destruct (step_post w h _ _ s2 _ _ _ (post_process_tc c h honest _ (node w h) s1 tc Hs1 Hl1
      (proj2 (Htc tc eq_refl))) E2) as (? & ? & ?). done. }
  assert (le (node w h) s2) as Hl2 by by eapply le_trans.
  assert (block_ok c h (knows h honest (signed_by w) (Core.out s2))
    (QC.round (Core.high_qc s2)) b) as Hb.
  { split; [by apply (QC_ok_le c h honest _ (node w h))| |done|].
    - destruct Hl12 as ((_ & _ & ?) & _). unfold is_round in Hqr. lia.
    - intros tc Hb. destruct (Htc tc Hb) as [Hkn Htr]. split; [done|]. right.
      apply (TC_good_mono c (knows h honest (signed_by w) (Core.out (node w h))));
        [intros; by apply (le_knows h honest _ (node w h))|]. apply TC_valid_good; auto. }
  apply runs_seq; [eapply total_at; [by eapply total_mempool_verify|done]|].
  intros ok s3 E3 G3.
  destruct (step_post w h _ _ s3 _ _ _
    (post_mempool_verify c h honest _ (node w h) s2 b Hs2 Hl2 Hb) E3) as (Hs3 & Hl3 & Hl23).
  destruct ok; simpl; [|done].
  rewrite <- G3. apply (process_block_returns w); try done. by eapply block_ok_le.
Qed.

Lemma handle_runs w h fuel i :
  world_inv c honest w -> h ∈ honest ->
  input_ok h honest (signed_by w) (node w h) i -> fuel_for i <= Z.of_nat fuel ->
  runs Core.gone (Core.gone (node w h)) (Core.handle h c vid fuel i) (node w h).
Proof using All.
  intros Hw Hh Hi Hf. destruct i as [[b|v|x|tc|m o]|b|]; simpl in *.
  - by apply proposal_returns.
  - eapply total_at; [by eapply total_handle_vote|done].
  - eapply total_at; [by eapply total_handle_timeout|done].
  - eapply total_at; [by eapply total_handle_tc|done].
  - split; [|done]. left. unfold known_panics. set_solver.
  - destruct Hi as [Hsrc Hbr]. apply (process_block_returns w); try done; [by apply Hw|apply le_refl|].
    apply loopback_block_ok; [by apply Hw|done].
  - eapply total_at; [by eapply total_local_timeout|done].
Qed.


(** C13: in every reachable state of the system, tasks that have ended included,
    the core handles every input to the end: [prune], its only loop without a
    static bound, stops within the round of the certified block it starts from.
    A panic is one of [Signature::verify] on bytes that are no signature or key,
    of [make_vote] on a time-out certificate without votes, on a message of a kind
    that the dispatcher does not forward, or of a send to a task whose receiver
    is gone; while every receiver exists, only the first three are possible. *)
Theorem handlers_return w h fuel i :
  reachable c vid honest w -> h ∈ honest ->
  input_ok h honest (signed_by w) (node w h) i -> fuel_for i <= Z.of_nat fuel ->
  match fst (Core.handle h c vid fuel i (node w h)) with
  | Ok _ | Err _ => True
  | Panic msg => msg ∈ known_panics \/
      exists rx, rx ∈ Core.gone (node w h) /\ msg ∈ send_panics rx
  | Diverged => False
  end.
Proof using All.
  intros Hr Hh Hi Hf.
  pose proof (world_inv_reachable c vid honest Hc Hcf Hnz Hfault w Hr) as Hw.
  apply (handle_runs w h fuel i Hw Hh Hi Hf).
Qed.

End system.

(** ** The execution of [Safety], continued *)

Section witness.
#[local] Existing Instances ideal_crypto ideal_bincode ideal_round_trip memory_db
  memory_db_safe.




Lemma handlers_return_witness :
  match fst (Core.handle 13 demo_committee 7 4 (Received (Propose demo_b3))
               (node demo_w4 13)) with
  | Ok _ | Err _ => True
  | Panic msg => msg ∈ known_panics \/
      exists rx, rx ∈ Core.gone (node demo_w4 13) /\ msg ∈ send_panics rx
  | Diverged => False
  end.
Proof.
  apply (handlers_return demo_committee 7 demo_honest demo_committee_well_formed
    ideal_collision_free demo_nonzero demo_fault demo_w4 13 4 (Received (Propose demo_b3))).
  - exact demo_reachable.
  - apply demo_member. auto.
  - apply (demo_input_qc demo_w4 13 demo_b3 demo_b2); try done; vm_compute; reflexivity.
  - vm_compute. discriminate.
Defined.

End witness.
