(* ===== verification/Faults.v ===== *)
(** * Inputs that the consensus core does not withstand

    Three behaviours of [core.rs] and [crypto/src/lib.rs] that the safety theorem
    has to exclude by its assumptions: a message with an unparsable signature ends
    the task, a time-out certificate is used without verification, and a restart
    forgets the last voted round. *)

From S2P Require Import Prelude Store Committee Messages Aggregator Network Core Ideal.
From S2P Require Import CoreInv Safety Progress.

Section faults.
Context `{Crypto} `{Bincode} `{Rocksdb Digest bytes}.
Context (name : PublicKey) (c : Committee.t) (vid : Z).

(** A vote, timeout or proposal that names a member of the committee and
    whose 64 signature bytes are not a signature makes [Signature::verify] panic
    inside the handler, which ends the consensus task; nobody has to hold a key to
    send it. *)
Theorem malformed_signature_panics fuel m s :
  match m with
  | Propose b =>
      RRLeaderElector.get_leader c (Block.round b) = Some (Block.author b) /\
      0 < Committee.stake c (Block.author b) /\ from_compact (Block.signature b) = false
  | VoteMsg v =>
      Core.round s <= Vote.round v /\
      0 < Committee.stake c (Vote.author v) /\ from_compact (Vote.signature v) = false
  | TimeoutMsg x =>
      Core.round s <= Timeout.round x /\
      0 < Committee.stake c (Timeout.author x) /\ from_compact (Timeout.signature x) = false
  | _ => False
  end ->
  Core.handle name c vid fuel (Received m) s
  = (Panic "compact signatures are 64 bytes", s).
Proof.
  destruct m as [b|v|x|tc|ms o]; [| | |done..]; intros (Hr & Hs & Hf);
    apply Z.ltb_lt in Hs.
  - unfold Core.handle, Core.handle_proposal, Core.get_leader, mbind, prog_bind. rewrite Hr.
    simpl. rewrite bool_decide_true by done. simpl. unfold lift, Block_verify, mbind,
      outcome_bind, ensure. rewrite Hs. unfold Signature.verify. by rewrite Hf.
  - unfold Core.handle, Core.handle_vote, mbind, prog_bind, gets.
    rewrite (proj2 (Z.ltb_ge _ _)) by done. unfold lift, Vote_verify, mbind,
      outcome_bind, ensure. rewrite Hs. unfold Signature.verify. by rewrite Hf.
  - unfold Core.handle, Core.handle_timeout, mbind, prog_bind, gets.
    rewrite (proj2 (Z.ltb_ge _ _)) by done. unfold lift, Timeout_verify, mbind,
      outcome_bind, ensure. rewrite Hs. unfold Signature.verify. by rewrite Hf.
Qed.

(** C39: [handle_tc] does not verify the certificate: a TC without a single vote
    moves the node past any round that it names, modulo the width of the
    integer, and becomes its high TC. *)
Theorem unverified_tc_moves_round fuel r s :
  Core.round s <= r -> TC.round (Core.high_tc s) < r ->
  let s' := snd (Core.handle name c vid fuel (Received (TCMsg (TC.mk r []))) s) in
  Core.round s' = u64 (r + 1) /\ Core.high_tc s' = TC.mk r [].
Proof.
  intros Hr Htc. unfold Core.handle, Core.handle_tc, Core.process_tc, Core.advance_round,
    mbind, prog_bind, gets. simpl.
  rewrite (proj2 (Z.ltb_ge _ _)) by done. simpl. rewrite (proj2 (Z.ltb_lt _ _)) by done.
  unfold Core.get_leader, expect, panic.
  destruct (RRLeaderElector.get_leader c _); simpl; [|done].
  case_bool_decide; [|done]. unfold Core.generate_proposal, Core.send, Core.reach, mbind,
    prog_bind. simpl. by case_bool_decide.
Qed.

(** ** Restarting *)

(** Nothing that the core has done is undone. *)
Definition extends {A} (m : prog Core.t ConsensusError A) : Prop :=
  forall s, Core.out s `prefix_of` Core.out (snd (m s)).

Lemma extends_bind {A B} (m : prog Core.t ConsensusError A)
  (k : A -> prog Core.t ConsensusError B) :
  extends m -> (forall a, extends (k a)) -> extends (m ≫= k).
Proof.
  intros Hm Hk s. specialize (Hm s). unfold mbind, prog_bind.
  destruct (m s) as [[a|e|msg|] s']; simpl in *; [|done..]. etrans; [done|apply Hk].
Qed.

Lemma extends_silent {A} (m : prog Core.t ConsensusError A) :
  (forall s, Core.out (snd (m s)) = Core.out s) -> extends m.
Proof. intros Hm s. by rewrite Hm. Qed.

Lemma extends_emit e : extends (Core.emit e).
Proof. intros s. by eexists. Qed.

Lemma extends_reach r msg : extends (Core.reach r msg).
Proof. apply extends_silent. intros s. unfold Core.reach. by case_bool_decide. Qed.

Lemma extends_with_aggregator {A} (m : prog Aggregator.t ConsensusError A) :
  extends (Core.with_aggregator m).
Proof. apply extends_silent. intros s. unfold Core.with_aggregator. by destruct (m _). Qed.

(** Decides [extends] by the shape of the program. *)
Ltac extends_tac :=
  repeat first
    [ apply extends_bind; [|intros]
    | apply extends_emit | apply extends_reach | apply extends_with_aggregator
    | lazymatch goal with |- extends (match ?x with _ => _ end) => destruct x end
    | apply extends_silent; intros ?s; by repeat (simpl; case_match) ].

Lemma extends_handle_vote v : extends (Core.handle_vote name c v).
Proof.
  unfold Core.handle_vote, Core.process_qc, Core.update_high_qc, Core.advance_round,
    Core.generate_proposal, Core.send, Core.get_leader, expect. extends_tac.
Qed.

(** The node after a crash: [Core::spawn] on the store it left. *)
Definition restart (s : Core.t) : Core.t := Core.spawn (Core.store s).

(** A state of the restarted node in a round, before it has voted. *)
Definition waking (st : Store.t Digest bytes) (r : Round) (s : Core.t) : Prop :=
  Core.store s = st /\ Core.round s = r /\ Core.last_voted_round s = 0 /\ Core.gone s = [].

Lemma waking_qc st qc :
  0 <= QC.round qc -> QC.round qc + 1 <= u64_max ->
  exists s, Core.process_qc qc (Core.spawn st) = (Ok (), s) /\ waking st (QC.round qc + 1) s.
Proof.
  intros Hq Hmax. unfold Core.process_qc, Core.advance_round, mbind, prog_bind, gets. simpl.
  destruct (Z.ltb_spec (QC.round qc) 1); simpl; (eexists; split; [reflexivity|]);
    unfold waking; (case_match; split_and!; simpl; try done); rewrite ?u64_succ; lia.
Qed.

Lemma waking_payload st r s payload acc :
  waking st r s -> (forall d, d ∈ payload -> exists v, Store.read st d = inr (Some v)) ->
  Core.missing_payload payload acc s = (Ok acc, s).
Proof.
  intros [Hst _]. revert acc. induction payload as [|d payload IH]; intros acc Hp; [done|].
  cbn [Core.missing_payload]. unfold mbind, prog_bind, gets. rewrite Hst.
  destruct (Hp d) as [v ->]; [apply list_elem_of_here|].
  apply IH. intros d' Hd. apply Hp. by apply list_elem_of_further.
Qed.

Lemma waking_store st r s b :
  waking st r s ->
  exists s', Core.store_block b s = (Ok (), s') /\
    waking (fst (Store.write st (Block.digest b) (ser_block b))) r s'.
Proof.
  intros (<- & Hr & Hl & Hg). unfold Core.store_block.
  destruct (Store.write _ _ _) as [st' replies]. eexists. by split.
Qed.

Lemma waking_parent st r s b anc :
  waking st r s -> parent_in st b = Some anc ->
  Core.sync_get_parent_block b s = (Ok (Some anc), s).
Proof.
  intros [Hst _]. unfold parent_in, Core.sync_get_parent_block.
  destruct (QC.eqb _ _); [by intros [= ->]|]. unfold mbind, prog_bind, gets. rewrite Hst.
  destruct (Store.read _ _) as [e|[data|]]; try done. by intros ->.
Qed.

Lemma waking_ancestors st r s b b1 b0 :
  waking st r s -> parent_in st b = Some b1 -> parent_in st b1 = Some b0 ->
  Core.get_ancestors b s = (Ok (Some (b0, b1)), s).
Proof.
  intros Hs Hp1 Hp0. unfold Core.get_ancestors, mbind, prog_bind.
  by rewrite (waking_parent _ _ _ _ _ Hs Hp1), (waking_parent _ _ _ _ _ Hs Hp0).
Qed.

Lemma waking_cleanup st r s b0 b1 b :
  waking st r s -> exists s', Core.cleanup_proposer b0 b1 b s = (Ok (), s') /\ waking st r s'.
Proof.
  intros (Hst & Hr & Hl & Hg). unfold Core.cleanup_proposer.
  case_bool_decide; [by exists s|]. unfold Core.send, Core.reach, mbind, prog_bind.
  rewrite Hg, bool_decide_false by apply not_elem_of_nil. by eexists.
Qed.

Lemma waking_vote st r s b :
  waking st r s -> Block.tc b = None -> 0 < Block.round b ->
  u64 (QC.round (Block.qc b) + 1) = Block.round b ->
  exists s', Core.make_vote name b s = (Ok (Some (Vote.new b name)), s') /\
    SignVote b (Vote.new b name) ∈ Core.out s'.
Proof.
  intros (Hst & Hr & Hl & Hg) Htc Hpos Hrule.
  unfold Core.make_vote, mbind, prog_bind, gets. rewrite Htc, Hl, Hrule, Z.eqb_refl.
  rewrite (proj2 (Z.ltb_lt _ _)) by done. simpl.
  unfold Core.request_signature, Core.reach, mbind, prog_bind. simpl.
  rewrite Hg, bool_decide_false by apply not_elem_of_nil. simpl.
  rewrite Hg, bool_decide_false by apply not_elem_of_nil.
  eexists. split; [reflexivity|]. simpl. apply elem_of_app. right. apply list_elem_of_here.
Qed.

(** C40: the last voted round is not written to the store.  A node that restarts
    on its store, whatever it has voted for before, votes for every valid proposal
    that carries the certificate of the round before, whose payload and two
    ancestors it holds and with which nothing is committed; so it votes a second
    time in a round for which it gets two such proposals. *)
Theorem restart_votes_twice fuel s b b1 b0 :
  let st := fst (Store.write (Core.store s) (Block.digest b) (ser_block b)) in
  RRLeaderElector.get_leader c (Block.round b) = Some (Block.author b) ->
  Block_verify c b = Ok () -> Block.tc b = None ->
  0 <= QC.round (Block.qc b) -> QC.round (Block.qc b) + 1 = Block.round b ->
  Block.round b <= u64_max ->
  (forall d, d ∈ Block.payload b -> exists v, Store.read (Core.store s) d = inr (Some v)) ->
  parent_in st b = Some b1 -> parent_in st b1 = Some b0 ->
  u64 (Block.round b0 + 1) <> Block.round b1 ->
  SignVote b (Vote.new b name)
  ∈ Core.out (snd (Core.handle name c vid fuel (Received (Propose b)) (restart s))).
Proof.
  intros st Hlead Hv Htc Hq Hround Hmax Hpay Hp1 Hp0 Hnc. unfold restart.
  destruct (waking_qc (Core.store s) (Block.qc b) Hq) as (s1 & E1 & W1); [lia|].
  destruct (waking_store _ _ _ b W1) as (s2 & E2 & W2). fold st in W2.
  destruct (waking_cleanup _ _ _ b0 b1 b W2) as (s3 & E3 & W3).
  destruct (waking_vote _ _ _ b W3 Htc) as (s4 & E4 & Hin);
    [lia|rewrite u64_succ; lia|].
  unfold Core.handle, Core.handle_proposal.
  erewrite run_bind; [|unfold Core.get_leader; by rewrite Hlead].
  erewrite run_bind; [|by rewrite bool_decide_true].
  erewrite run_bind; [|unfold lift; by rewrite Hv].
  erewrite run_bind; [|exact E1]. rewrite Htc. erewrite run_bind; [|done].
  erewrite run_bind; [|unfold Core.mempool_verify;
    by (erewrite run_bind; [|by eapply waking_payload])]. cbn [negb].
  unfold Core.process_block. erewrite run_bind; [|exact E2].
  erewrite run_bind; [|by eapply waking_ancestors]. cbv iota.
  erewrite run_bind; [|exact E3]. rewrite (proj2 (Z.eqb_neq _ _)) by done.
  erewrite run_bind; [|done]. destruct W3 as (_ & Hr3 & _).
  erewrite run_bind; [|done]. rewrite Hr3, Hround, Z.eqb_refl. cbn [negb].
  erewrite run_bind; [|exact E4]. cbv iota. eapply elem_of_prefix; [exact Hin|].
  apply extends_bind; [apply extends_handle_vote|intros; apply extends_emit].
Qed.

End faults.

(** ** Concrete inputs *)

Section witness.
#[local] Existing Instances ideal_bincode memory_db.

(** A library that rejects the zero bytes as a signature. *)
Definition strict_crypto : Crypto := {|
  sha512_32 t := Zpos (encode t);
  from_compact s := negb ((part1 s =? 0) && (part2 s =? 0));
  key_from_slice _ := true;
  verify_ecdsa d s pk := (part1 s =? d) && (part2 s =? pk);
  sign_ecdsa pk d := mkSignature d pk
|}.
#[local] Existing Instance strict_crypto.

Definition zero_vote : Vote.t := Vote.mk 5 1 0 12 (mkSignature 0 0).

Lemma malformed_signature_panics_witness :
  fst (Core.handle 12 demo_committee 7 0 (Received (VoteMsg zero_vote)) (Core.spawn empty_store))
  = Panic "compact signatures are 64 bytes".
Proof.
  rewrite (malformed_signature_panics 12 demo_committee 7 0 (VoteMsg zero_vote)
    (Core.spawn empty_store)); [reflexivity|].
  split_and!; vm_compute; [discriminate|reflexivity|reflexivity].
Defined.

Lemma unverified_tc_moves_round_witness :
  Core.round (snd (Core.handle 12 demo_committee 7 0 (Received (TCMsg (TC.mk u64_max [])))
    (Core.spawn empty_store))) = 0.
Proof.
  rewrite (proj1 (unverified_tc_moves_round 12 demo_committee 7 0 u64_max
    (Core.spawn empty_store) ltac:(vm_compute; discriminate) ltac:(vm_compute; reflexivity))).
  reflexivity.
Defined.

End witness.

Section restart.
#[local] Existing Instances ideal_crypto ideal_bincode memory_db.

Definition demo_empty : Block.t := Block.new QC.genesis None 12 1 [].
Definition demo_full : Block.t := Block.new QC.genesis None 12 1 [3].

(** Operator 13 votes for a block of round 1, restarts and votes for another. *)
Lemma restart_votes_twice_witness :
  let s0 := Core.spawn (fst (Store.write empty_store 3 [])) in
  let s1 := snd (Core.handle 13 demo_committee 7 5 (Received (Propose demo_empty)) s0) in
  let s2 := snd (Core.handle 13 demo_committee 7 5 (Received (Propose demo_full)) (restart s1)) in
  SignVote demo_empty (Vote.new demo_empty 13) ∈ Core.out s1 /\
  SignVote demo_full (Vote.new demo_full 13) ∈ Core.out s2 /\
  Block.round demo_empty = Block.round demo_full /\
  Block.digest demo_empty <> Block.digest demo_full.
Proof.
  split_and!; [apply list_elem_of_In; vm_compute; tauto| |done|vm_compute; discriminate].
  apply (restart_votes_twice 13 demo_committee 7 5 _ demo_full Block.genesis Block.genesis);
    try (vm_compute; congruence).
  intros d ->%list_elem_of_singleton. exists []. vm_compute. reflexivity.
Defined.

End restart.
