(* ===== verification/Tasks.v ===== *)
(** * The tasks beside the consensus core

    Models the loops of [proposer.rs], [synchronizer.rs], [mempool.rs] (the
    payload waiter), [helper.rs] and the [dispatch] of [consensus.rs].  A step of
    a task is one turn of its [select!]; the futures of a [FuturesUnordered] are a
    list, and which of them completes, and how, is an argument of the step: every
    order and every end is admitted, as [notify_read] may return at any time.  The
    clock, the order in which a [HashMap] or [HashSet] is traversed and the
    outcome of network calls are arguments as well. *)

From S2P Require Import Prelude Store Committee Messages Aggregator Network Core Ideal.

(** Calls of the [SimpleSender] of a task. *)
Inductive net : Type :=
| NetSend (address : SocketAddr) (data : bytes)
| NetFeed (address : SocketAddr) (data : bytes)
| NetBroadcast (addresses : list SocketAddr) (data : bytes)
| NetBroadcastFeed (addresses : list SocketAddr) (data : bytes)
| NetFlush (addresses : list SocketAddr).

(** A consensus message in the envelope of its validator. *)
Definition envelope `{Bincode} (vid : Z) (m : ConsensusMessage) : bytes :=
  ser_dvf (mkDvfMessage VERSION vid (ser_message m)).

(** ** [proposer.rs] *)

Module Proposer.
Section proposer.
Context `{Crypto} `{Bincode} (name : PublicKey) (committee : Committee.t) (vid : Z).

Record t := mk { buffer : gset Digest }.

Definition spawn : t := mk ∅.

(** [payload] is a list that [self.buffer.drain().collect()] may return. *)
Definition drains (p : t) (payload : list Digest) : Prop :=
  NoDup payload /\ list_to_set payload = buffer p.

Definition make_block (round : Round) (qc : QC.t) (tc : option TC.t)
  (payload : list Digest) (p : t) : t * Block.t * net :=
  let block := Block.new qc tc name round payload in
  (mk ∅, block,
   NetBroadcast (map snd (Committee.broadcast_addresses committee name))
     (envelope vid (Propose block))).

(** The two receivers of [run]. *)
Definition on_digest (digest : Digest) (p : t) : t := mk ({[digest]} ∪ buffer p).

Definition on_message (m : ProposerMessage) (payload : list Digest) (p : t)
  : t * list Block.t * list net :=
  match m with
  | Make round qc tc =>
      let '(p', block, sent) := make_block round qc tc payload p in (p', [block], [sent])
  | CleanupProposer digests =>
      (mk (foldl (fun b x => b ∖ {[x]}) (buffer p) digests), [], [])
  end.

End proposer.
End Proposer.

(** ** [synchronizer.rs] *)

Module Synchronizer.
Section synchronizer.
Context `{Crypto} `{Bincode} (name : PublicKey) (committee : Committee.t) (vid : Z).

Definition TIMER_ACCURACY : Z := 5000.

Record t := mk {
  waiting : list Block.t;
  pending : gset Digest;
  requests : gmap Digest Z
}.

Definition new : t := mk [] ∅ ∅.

(** [Some(block) = rx_inner.recv()]. *)
Definition on_block (now : Z) (block : Block.t) : prog t ConsensusError (list net) := fun s =>
  if bool_decide (Block.digest block ∈ pending s) then (Ok [], s)
  else
    let parent := Block.parent block in
    let s := mk (waiting s ++ [block]) ({[Block.digest block]} ∪ pending s) (requests s) in
    match requests s !! parent with
    | Some _ => (Ok [], s)
    | None =>
        let s := mk (waiting s) (pending s) (<[parent := now]> (requests s)) in
        match Committee.address committee (Block.author block) with
        | None => (Panic "Author of valid block is not in the committee", s)
        | Some address =>
            (Ok [NetFeed address (envelope vid (SyncRequest parent name))], s)
        end
    end.

(** How the future [waiter] ends: [notify_read] returned, failed, or the 20
    seconds passed. *)
Inductive waited : Type := Found | Failed (e : StoreError) | TimedOut.

Definition waiter (block : Block.t) (w : waited) : outcome ConsensusError Block.t :=
  match w with
  | Found => Ok block
  | Failed e => Err (StoreErr e)
  | TimedOut => Err (StoreReadTimeout (Block.parent block) block)
  end.

(** [Some(result) = waiting.next()], for the waiter at index [i]. *)
Definition on_result (i : nat) (w : waited) (s : t) : t * list Block.t :=
  match waiting s !! i with
  | None => (s, [])
  | Some block =>
      let rest := delete i (waiting s) in
      match waiter block w with
      | Ok block =>
          (mk rest (pending s ∖ {[Block.digest block]})
             (delete (Block.parent block) (requests s)), [block])
      | Err (StoreReadTimeout wait_on deliver) =>
          (mk rest (pending s ∖ {[Block.digest deliver]}) (delete wait_on (requests s)), [])
      | _ => (mk rest (pending s) (requests s), [])
      end
  end.

(** [() = &mut timer]: [flushed] is whether the first flush ended in time,
    [order] the order in which [requests.iter_mut()] yields the keys, each with
    the time at which it is visited. *)
Definition retry (sync_retry_delay : Z) (addresses : list SocketAddr)
  (visit : Digest * Z) (acc : t * list net) : t * list net :=
  let '(digest, now) := visit in
  let '(s, sent) := acc in
  match requests s !! digest with
  | Some timestamp =>
      if (timestamp + sync_retry_delay <? now) && negb (bool_decide (digest ∈ pending s)) then
        (mk (waiting s) (pending s) (<[digest := now]> (requests s)),
         sent ++ [NetBroadcastFeed addresses (envelope vid (SyncRequest digest name))])
      else acc
  | None => acc
  end.

Definition on_timer (sync_retry_delay : Z) (flushed : bool) (order : list (Digest * Z)) (s : t)
  : t * list net :=
  let addresses := map snd (Committee.broadcast_addresses committee name) in
  if flushed then
    let '(s', sent) := foldl (fun acc v => retry sync_retry_delay addresses v acc)
      (s, []) order in
    (s', [NetFlush addresses] ++ sent ++ [NetFlush addresses])
  else (s, [NetFlush addresses]).

End synchronizer.
End Synchronizer.

(** ** [mempool.rs]: the payload waiter *)

Module PayloadWaiter.
Section payload_waiter.
Context `{Crypto}.

(** A waiter: the digests it waits for, the block it delivers and the channel
    that cancels it, which closes when its sender leaves [pending]. *)
Record t := mk {
  waiting : list (list Digest * Block.t * Z);
  pending : gmap Digest (Round * Z);
  next_channel : Z
}.

Definition new : t := mk [] ∅ 0.

Definition on_message (m : PayloadWaiterMessage) (s : t) : t :=
  match m with
  | Wait missing block =>
      let block_digest := Block.digest block in
      match pending s !! block_digest with
      | Some _ => s
      | None =>
          mk (waiting s ++ [(missing, block, next_channel s)])
             (<[block_digest := (Block.round block, next_channel s)]> (pending s))
             (next_channel s + 1)
      end
  | CleanupWaiter round =>
      mk (waiting s) (filter (fun kv => round < kv.2.1) (pending s)) (next_channel s)
  end.

(** How the future [waiter] ends. *)
Inductive waited : Type := Arrived | Failed (e : StoreError) | Cancelled.

Definition on_result (i : nat) (w : waited) (s : t) : t * list Block.t :=
  match waiting s !! i with
  | None => (s, [])
  | Some (_, block, _) =>
      let rest := delete i (waiting s) in
      match w with
      | Arrived => (mk rest (delete (Block.digest block) (pending s)) (next_channel s), [block])
      | _ => (mk rest (pending s) (next_channel s), [])
      end
  end.

End payload_waiter.
End PayloadWaiter.

(** ** [helper.rs] *)

Module Helper.
Section helper.
Context `{Crypto} `{Bincode} `{Rocksdb Digest bytes} (committee : Committee.t) (vid : Z).

Definition on_request (st : Store.t Digest bytes) (digest : Digest) (origin : PublicKey)
  : outcome ConsensusError (list net) :=
  match Committee.address committee origin with
  | None => Ok []
  | Some address =>
      match Store.read st digest with
      | inl _ => Panic "Failed to read from storage"
      | inr None => Ok []
      | inr (Some data) =>
          match de_block data with
          | None => Panic "Failed to deserialize our own block"
          | Some block => Ok [NetSend address (envelope vid (Propose block))]
          end
      end
  end.

End helper.
End Helper.

(** ** [consensus.rs]: the dispatch of a received message *)

Module ConsensusReceiverHandler.
Section handler.
Context `{Bincode}.

(** Where a message goes, and the reply to its sender. *)
Inductive routed : Type :=
| ToHelper (missing : Digest) (origin : PublicKey)
| ToCore (ack : bool) (m : ConsensusMessage).

Definition dispatch (serialized : bytes) : outcome ConsensusError routed :=
  match de_message serialized with
  | None => Err SerializationError
  | Some (SyncRequest missing origin) => Ok (ToHelper missing origin)
  | Some (Propose b) => Ok (ToCore true (Propose b))
  | Some m => Ok (ToCore false m)
  end.

End handler.
End ConsensusReceiverHandler.

(** ** The synchronizer delivers every block once *)

Section synchronizer.
Context `{Crypto} `{Bincode} (name : PublicKey) (committee : Committee.t) (vid : Z).
Import Synchronizer.

Inductive sync_input : Type :=
| SBlock (now : Z) (block : Block.t)
| SResult (i : nat) (w : waited)
| STimer (delay : Z) (flushed : bool) (order : list (Digest * Z)).

(** What goes in and out of the task: the blocks handed to it that were not
    pending, the blocks it sent back on the loopback channel, the blocks whose wait
    ran into the time-out, and what it sent over the network. *)
Record sync_log := mkSyncLog {
  accepted : list Block.t;
  looped : list Block.t;
  expired : list Block.t;
  asked : list net
}.

Definition sync_turn (x : sync_input) (sl : t * sync_log) : t * sync_log :=
  let '(s, l) := sl in
  match x with
  | SBlock now block =>
      let '(r, s') := on_block name committee vid now block s in
      (s', mkSyncLog
             (accepted l ++ if bool_decide (Block.digest block ∈ pending s) then [] else [block])
             (looped l) (expired l) (asked l ++ match r with Ok sent => sent | _ => [] end))
  | SResult i w =>
      let '(s', blocks) := on_result i w s in
      (s', mkSyncLog (accepted l) (looped l ++ blocks)
             (expired l ++ match waiting s !! i, w with
                           | Some block, TimedOut => [block] | _, _ => [] end) (asked l))
  | STimer delay flushed order =>
      let '(s', sent) := on_timer name committee vid delay flushed order s in
      (s', mkSyncLog (accepted l) (looped l) (expired l) (asked l ++ sent))
  end.

Definition sync_run (xs : list sync_input) : t * sync_log :=
  foldl (fun sl x => sync_turn x sl) (new, mkSyncLog [] [] [] []) xs.

(** No read of the store fails, and the author of a block is in the committee:
    the core verifies a block before it hands it over. *)
Definition regular (x : sync_input) : Prop :=
  match x with
  | SBlock _ block => is_Some (Committee.address committee (Block.author block))
  | SResult _ (Failed _) => False
  | _ => True
  end.

(** [m] asks for the block [d], the author of a child or everybody. *)
Definition requests_block (d : Digest) (m : net) : Prop :=
  exists data, data = envelope vid (SyncRequest d name) /\
    ((exists address, m = NetFeed address data) \/
     exists addresses, m = NetBroadcastFeed addresses data).

Record sync_inv (sl : t * sync_log) : Prop := {
  si_nodup : NoDup (map Block.digest (waiting (fst sl)));
  si_pending : pending (fst sl) = list_to_set (map Block.digest (waiting (fst sl)));
  si_requests d : is_Some (requests (fst sl) !! d) ->
    d ∈ map Block.parent (waiting (fst sl)) /\ Exists (requests_block d) (asked (snd sl));
  si_once : accepted (snd sl)
    ≡ₚ looped (snd sl) ++ expired (snd sl) ++ waiting (fst sl);
  si_asked m : m ∈ asked (snd sl) ->
    (exists addresses, m = NetFlush addresses) \/
    exists b, b ∈ accepted (snd sl) /\ requests_block (Block.parent b) m;
  si_answered b : b ∈ accepted (snd sl) ->
    Exists (requests_block (Block.parent b)) (asked (snd sl))
}.

(** The messages of a retry ask for blocks with an open request. *)
Definition retries (s : t) (sent : list net) : Prop :=
  forall m, m ∈ sent -> exists d, is_Some (requests s !! d) /\ requests_block d m.

Lemma retry_keeps delay addresses v acc s0 :
  (forall d, is_Some (requests (fst acc) !! d) -> is_Some (requests s0 !! d)) ->
  retries s0 (snd acc) ->
  let r := retry name vid delay addresses v acc in
  waiting (fst r) = waiting (fst acc) /\ pending (fst r) = pending (fst acc) /\
  (forall d, is_Some (requests (fst r) !! d) -> is_Some (requests s0 !! d)) /\
  retries s0 (snd r).
Proof using Type.
  destruct v as [digest now], acc as [s sent]. simpl. intros Hs Hsent.
  destruct (requests s !! digest) as [ts|] eqn:Hd; [|done]. case_match; [|done].
  simpl. split_and!; [done..| |].
  - intros d. destruct (decide (d = digest)) as [->|Hne]; [intros _; apply Hs; by rewrite Hd|].
    rewrite lookup_insert_ne by done. apply Hs.
  - intros m [Hm| ->%list_elem_of_singleton]%elem_of_app; [by apply Hsent|].
    exists digest. split; [apply Hs; by rewrite Hd|]. eexists. split; [done|]. right. by eexists.
Qed.

Lemma on_timer_keeps delay flushed order s s' sent :
  on_timer name committee vid delay flushed order s = (s', sent) ->
  waiting s' = waiting s /\ pending s' = pending s /\
  (forall d, is_Some (requests s' !! d) -> is_Some (requests s !! d)) /\
  forall m, m ∈ sent -> (exists addresses, m = NetFlush addresses) \/
    exists d, is_Some (requests s !! d) /\ requests_block d m.
Proof using Type.
  unfold on_timer. destruct flushed.
  2: { intros [= <- <-]. split_and!; [done..|]. intros m ->%list_elem_of_singleton. eauto. }
  set (l := map snd (Committee.broadcast_addresses committee name)).
  assert (forall acc,
    (forall d, is_Some (requests (fst acc) !! d) -> is_Some (requests s !! d)) ->
    retries s (snd acc) ->
    let r := foldl (fun acc v => retry name vid delay l v acc) acc order in
    waiting (fst r) = waiting (fst acc) /\ pending (fst r) = pending (fst acc) /\
    (forall d, is_Some (requests (fst r) !! d) -> is_Some (requests s !! d)) /\
    retries s (snd r)) as Hf.
  { induction order as [|v order IH]; intros acc Hr Hsent; [done|]. simpl.
    destruct (retry_keeps delay l v acc s Hr Hsent) as (Hw & Hp & Hr' & Hsent').
    destruct (IH _ Hr' Hsent') as (-> & -> & ?). done. }
  destruct (Hf (s, [])) as (Hw & Hp & Hr & Hsent); [done|by intros m ?%elem_of_nil|].
  destruct (foldl _ _ _) as [s1 sent1]. intros [= <- <-]. split_and!; [done..|].
  intros m [->|[Hm| ->%list_elem_of_singleton]%elem_of_app]%elem_of_cons; eauto.
Qed.

Lemma delete_perm {A} (l : list A) i x : l !! i = Some x -> l ≡ₚ x :: delete i l.
Proof using Type.
  intros Hi. rewrite delete_take_drop. rewrite <- (take_drop_middle l i x Hi) at 1.
  by rewrite <- Permutation_middle.
Qed.

Lemma sync_leave s i block :
  NoDup (map Block.digest (waiting s)) -> waiting s !! i = Some block ->
  pending s = list_to_set (map Block.digest (waiting s)) ->
  (forall d, is_Some (requests s !! d) -> d ∈ map Block.parent (waiting s)) ->
  NoDup (map Block.digest (delete i (waiting s))) /\
  pending s ∖ {[Block.digest block]} = list_to_set (map Block.digest (delete i (waiting s))) /\
  forall d, is_Some (delete (Block.parent block) (requests s) !! d) ->
    d ∈ map Block.parent (delete i (waiting s)).
Proof using Type.
  intros Hnd Hi Hp Hr. pose proof (delete_perm _ _ _ Hi) as Hperm.
  rewrite (fmap_Permutation Block.digest _ _ Hperm) in Hnd. simpl in Hnd.
  apply NoDup_cons in Hnd as [Hnin Hnd]. split_and!; [done| |].
  - rewrite Hp. apply set_eq. intros d. rewrite elem_of_difference, !elem_of_list_to_set.
    rewrite (fmap_Permutation Block.digest _ _ Hperm). simpl.
    rewrite elem_of_cons, elem_of_singleton. split; [naive_solver|].
    intros Hd. split; [by right|]. intros ->. by apply Hnin.
  - intros d [x Hx]. apply lookup_delete_Some in Hx as [Hne Hx].
    specialize (Hr d (ex_intro _ x Hx)).
    rewrite (fmap_Permutation Block.parent _ _ Hperm) in Hr. simpl in Hr.
    apply elem_of_cons in Hr as [->|?]; done.
Qed.

Lemma asked_more d (l l' : list net) :
  Exists (requests_block d) l -> Exists (requests_block d) (l ++ l').
Proof using Type. intros ?. apply Exists_app. by left. Qed.

(** A block that is not pending is taken in. *)
Lemma sync_inv_block now block s l :
  is_Some (Committee.address committee (Block.author block)) ->
  sync_inv (s, l) -> sync_inv (sync_turn (SBlock now block) (s, l)).
Proof using Type.
  intros [address Ha] Hs. unfold sync_turn, on_block. pose proof Hs as [Hnd Hp Hr Ho Hm Hb].
  simpl in *. case_bool_decide as Hin; [by rewrite !app_nil_r; destruct l|].
  assert (Block.digest block ∉ map Block.digest (waiting s)) as Hnin
    by (intros Hd; apply Hin; rewrite Hp; by apply elem_of_list_to_set).
  assert (NoDup (map Block.digest (waiting s ++ [block])) /\
    {[Block.digest block]} ∪ pending s
      = list_to_set (map Block.digest (waiting s ++ [block])) /\
    accepted l ++ [block] ≡ₚ looped l ++ expired l ++ waiting s ++ [block])
    as (Hnd' & Hp' & Ho').
  { rewrite map_app. simpl. split_and!.
    - apply NoDup_app. split_and!; [done| |apply NoDup_singleton].
      by intros d Hd ->%list_elem_of_singleton.
    - rewrite list_to_set_app_L, <- Hp. simpl. rewrite union_empty_r_L. apply union_comm_L.
    - rewrite Ho. by rewrite <- !app_assoc. }
  simpl. destruct (requests s !! Block.parent block) as [ts|] eqn:Hreq.
  - rewrite app_nil_r. destruct (Hr (Block.parent block)) as [_ Hasked]; [by rewrite Hreq|].
    split; simpl; try done.
    + intros d [Hd ?]%Hr. split; [|done]. rewrite map_app. apply elem_of_app. by left.
    + intros m [?|(b & ? & ?)]%Hm; [by left|right]. exists b. split; [|done].
      apply elem_of_app. by left.
    + intros b [?| ->%list_elem_of_singleton]%elem_of_app; auto.
  - rewrite Ha. simpl.
    assert (requests_block (Block.parent block)
      (NetFeed address (envelope vid (SyncRequest (Block.parent block) name)))) as Hnew
      by (eexists; split; [done|]; left; by eexists).
    split; simpl; try done.
    + intros d Hd. rewrite map_app, elem_of_app, Exists_app, Exists_cons.
      destruct (decide (d = Block.parent block)) as [->|Hne].
      * split; [right; apply list_elem_of_here|auto].
      * rewrite lookup_insert_ne in Hd by done. destruct (Hr d Hd). auto.
    + intros m [[?|(b & ? & ?)]%Hm| ->%list_elem_of_singleton]%elem_of_app; [by left|right..].
      * exists b. split; [|done]. apply elem_of_app. by left.
      * exists block. split; [|done]. apply elem_of_app. right. apply list_elem_of_here.
    + intros b [?%Hb| ->%list_elem_of_singleton]%elem_of_app; [by apply asked_more|].
      rewrite Exists_app, Exists_cons. auto.
Qed.

Lemma sync_inv_turn x sl : regular x -> sync_inv sl -> sync_inv (sync_turn x sl).
Proof using Type.
  destruct sl as [s l]. intros Hx Hs. pose proof Hs as [Hnd Hp Hr Ho Hm Hb]. simpl in *.
  destruct x as [now block|i w|delay f order]; [by apply sync_inv_block|..]; simpl.
  - unfold on_result. destruct (waiting s !! i) as [block|] eqn:Hi.
    2: { rewrite !app_nil_r. by destruct l. }
    destruct (sync_leave s i block Hnd Hi Hp (fun d Hd => proj1 (Hr d Hd))) as (Hnd' & Hp' & Hr').
    pose proof (delete_perm _ _ _ Hi) as Hperm.
    assert (forall d, is_Some (delete (Block.parent block) (requests s) !! d) ->
      Exists (requests_block d) (asked l)) as Hask
      by (intros d [x Hd]; apply lookup_delete_Some in Hd as [_ Hd]; apply Hr; by eexists).
    destruct w as [|e|]; [|done|]; simpl; split; simpl; auto; rewrite Ho, Hperm at 1;
      rewrite <- !app_assoc; try done. apply Permutation_app_head.
    simpl. symmetry. apply (Permutation_middle (expired l) (delete i (waiting s)) block).
  - destruct (on_timer _ _ _ _ _ _ _) as [s' sent] eqn:Ht.
    apply on_timer_keeps in Ht as (Hw' & Hp' & Hr' & Hsent).
    split; simpl; rewrite ?Hw', ?Hp'; auto.
    + intros d [? ?]%Hr'%Hr. split; [done|by apply asked_more].
    + intros m [?|[?|(d & Hd & Hreq)]%Hsent]%elem_of_app; [by auto|by left|right].
      destruct (Hr d Hd) as [(b & -> & Hin)%list_elem_of_fmap _]. exists b. split; [|done].
      rewrite Ho, !elem_of_app. auto.
    + intros b ?%Hb. by apply asked_more.
Qed.

(** C33: over any sequence of turns in which no read of the store fails and the
    authors of the blocks are members, every block that the core hands to the
    synchronizer and that is not already pending is sent back on the loopback
    channel exactly once, is given up after the time-out, or still waits; the
    pending set is exactly the set of the waiting blocks, none twice; the parent of
    every block taken in has been asked for over the network, and nothing else
    ever is; and the parents asked for again on the timer are those that some
    block still waits for. *)
Theorem synchronizer_exactly_once xs :
  Forall regular xs ->
  let s := fst (sync_run xs) in
  let l := snd (sync_run xs) in
  accepted l ≡ₚ looped l ++ expired l ++ waiting s /\
  NoDup (map Block.digest (waiting s)) /\
  pending s = list_to_set (map Block.digest (waiting s)) /\
  (forall b, b ∈ accepted l -> Exists (requests_block (Block.parent b)) (asked l)) /\
  (forall m, m ∈ asked l -> (exists addresses, m = NetFlush addresses) \/
     exists b, b ∈ accepted l /\ requests_block (Block.parent b) m) /\
  (forall d, is_Some (requests s !! d) -> d ∈ map Block.parent (waiting s)).
Proof using Type.
  intros Hxs. assert (sync_inv (sync_run xs)) as [Hnd Hp Hr Ho Hm Hb].
  { unfold sync_run. assert (sync_inv (new, mkSyncLog [] [] [] [])) as Hinit.
    { split; simpl; try done; [constructor|by intros d [x Hx]|..]; by intros ? ?%elem_of_nil. }
    revert Hinit. generalize (new, mkSyncLog [] [] [] []).
    induction Hxs as [|x xs Hx Hxs IH]; intros sl Hsl; [done|]. simpl.
    apply IH. by apply sync_inv_turn. }
  split_and!; [done..|]. intros d Hd. by apply Hr.
Qed.

End synchronizer.

(** ** The payload waiter *)

Section payload_waiter.
Context `{Crypto}.
Import PayloadWaiter.

Inductive payload_input : Type :=
| PMessage (m : PayloadWaiterMessage)
| PResult (i : nat) (w : waited).

Record payload_log := mkPayloadLog {
  registered : list (list Digest * Block.t * Z);
  ended_waits : list (list Digest * Block.t * Z);
  returned : list Block.t
}.

Definition payload_turn (x : payload_input) (sl : t * payload_log) : t * payload_log :=
  let '(s, l) := sl in
  match x with
  | PMessage m =>
      let s' := on_message m s in
      (s', mkPayloadLog (registered l ++ drop (length (waiting s)) (waiting s'))
             (ended_waits l) (returned l))
  | PResult i w =>
      let '(s', blocks) := on_result i w s in
      (s', mkPayloadLog (registered l)
             (ended_waits l ++ match waiting s !! i with Some x => [x] | None => [] end)
             (returned l ++ blocks))
  end.

Definition payload_run (xs : list payload_input) : t * payload_log :=
  foldl (fun sl x => payload_turn x sl) (new, mkPayloadLog [] [] []) xs.

Abbreviation chan x := (snd x).
Abbreviation block_of x := (snd (fst x)).

(** The cancel channel of a waiter is open while its sender is in [pending]. *)
Definition open_channel (s : t) (ch : Z) : Prop := exists d r, pending s !! d = Some (r, ch).

Record payload_inv (sl : t * payload_log) : Prop := {
  pi_fresh x : x ∈ registered (snd sl) -> chan x < next_channel (fst sl);
  pi_nodup : NoDup (map snd (registered (snd sl)));
  pi_once : registered (snd sl) ≡ₚ ended_waits (snd sl) ++ waiting (fst sl);
  pi_returned : returned (snd sl) ⊆+ map (fun x => block_of x) (ended_waits (snd sl));
  pi_pending d r ch : pending (fst sl) !! d = Some (r, ch) ->
    exists x, x ∈ registered (snd sl) /\ chan x = ch /\
      Block.digest (block_of x) = d /\ Block.round (block_of x) = r
}.

Lemma payload_inv_turn x sl : payload_inv sl -> payload_inv (payload_turn x sl).
Proof using Type.
  destruct sl as [s l]. intros [Hf Hnd Ho Hret Hp]. simpl in *.
  destruct x as [[missing b|r]|i w]; simpl.
  - destruct (pending s !! Block.digest b) as [p|] eqn:Hd; simpl.
    { rewrite drop_all, app_nil_r. by split. }
    rewrite drop_app_length. split; simpl.
    + intros x [Hx| ->%list_elem_of_singleton]%elem_of_app; [|simpl; lia].
      specialize (Hf x Hx). lia.
    + rewrite map_app. apply NoDup_app. split_and!; [done| |apply NoDup_singleton].
      intros ch (x & -> & Hx)%list_elem_of_fmap Hch%list_elem_of_singleton.
      specialize (Hf x Hx). simpl in Hch. lia.
    + rewrite Ho. by rewrite <- app_assoc.
    + done.
    + intros d r ch Hl. destruct (decide (d = Block.digest b)) as [->|Hne].
      * rewrite lookup_insert_eq in Hl. injection Hl as <- <-.
        exists (missing, b, next_channel s). split_and!; try done.
        apply elem_of_app. right. apply list_elem_of_here.
      * rewrite lookup_insert_ne in Hl by done. destruct (Hp d r ch Hl) as (x & Hx & ?).
        exists x. split; [|done]. apply elem_of_app. by left.
  - rewrite drop_all, app_nil_r. split; simpl; try done.
    intros d r' ch [Hl _]%map_lookup_filter_Some. by apply Hp.
  - unfold on_result. destruct (waiting s !! i) as [[[m b] ch]|] eqn:Hi; simpl.
    2: { rewrite !app_nil_r. by split. }
    assert (registered l ≡ₚ (ended_waits l ++ [(m, b, ch)]) ++ delete i (waiting s)) as Ho'.
    { rewrite Ho, (delete_perm _ _ _ Hi) at 1. by rewrite <- app_assoc. }
    assert (forall blocks, blocks = [] \/ blocks = [b] ->
      returned l ++ blocks ⊆+ map (fun x => block_of x) (ended_waits l ++ [(m, b, ch)])) as Hr.
    { intros blocks Hb. rewrite map_app. apply submseteq_app; [done|].
      destruct Hb as [->| ->]; simpl; [apply submseteq_nil_l|done]. }
    destruct w; simpl; split; simpl; try done; auto.
    intros d r' ch' [_ Hl]%lookup_delete_Some. by apply Hp.
Qed.

(** Over any sequence of turns, every wait that the core registers ends at most
    once and so returns its block at most once, and after a cleanup for a round the
    cancel channel of every waiter of that round or an earlier one is closed. *)
Theorem payload_waiter_cancels xs r :
  (let '(s, l) := payload_run xs in
   NoDup (map snd (registered l)) /\ registered l ≡ₚ ended_waits l ++ waiting s /\
   returned l ⊆+ map (fun x => block_of x) (ended_waits l)) /\
  (let '(s, _) := payload_run (xs ++ [PMessage (CleanupWaiter r)]) in
   forall x, x ∈ waiting s -> Block.round (block_of x) <= r -> ~ open_channel s (chan x)).
Proof using Type.
  assert (payload_inv (payload_run xs)) as Hinv.
  { unfold payload_run. assert (payload_inv (new, mkPayloadLog [] [] [])) as Hinit.
    { split; simpl; try done; [by intros ? ?%elem_of_nil|constructor]. }
    revert Hinit. generalize (new, mkPayloadLog [] [] []).
    induction xs as [|x xs IH]; intros sl Hsl; [done|]. simpl.
    apply IH. by apply payload_inv_turn. }
  unfold payload_run in *. rewrite foldl_app. destruct (foldl _ _ xs) as [s l] eqn:Hs.
  destruct Hinv as [Hf Hnd Ho Hret Hp]. simpl in *. split; [done|].
  intros x Hx Hr (d & r' & [Hd Hlt]%map_lookup_filter_Some). simpl in Hlt.
  destruct (Hp d r' _ Hd) as (y & Hy & Hch & _ & Hround).
  assert (x ∈ registered l) as Hxr by (rewrite Ho; apply elem_of_app; by right).
  assert (y = x) as ->.
  { apply list_elem_of_lookup in Hy as [j Hj]. apply list_elem_of_lookup in Hxr as [k Hk].
    assert (j = k) as ->.
    { apply (NoDup_lookup (map snd (registered l)) j k (chan x)); [done|..];
        rewrite list_lookup_fmap, ?Hj, ?Hk; simpl; by f_equal. }
    congruence. }
  lia.
Qed.

End payload_waiter.

(** ** The proposer *)

Section proposer.
Context `{Crypto} `{Bincode} (name : PublicKey) (committee : Committee.t) (vid : Z).
Import Proposer.

Lemma elem_of_removed (digests : list Digest) (b : gset Digest) d :
  d ∈ foldl (fun b x => b ∖ {[x]}) b digests <-> d ∈ b /\ d ∉ digests.
Proof using Type.
  revert b. induction digests as [|x digests IH]; intros b; simpl.
  - rewrite elem_of_nil. tauto.
  - rewrite IH, elem_of_difference, elem_of_singleton, elem_of_cons. tauto.
Qed.

(** The block made for the core extends the QC and TC it was asked for in its
    round, carries each waiting digest exactly once, verifies as to its signature,
    reaches the core and every other member of the committee, and empties the
    buffer; a cleanup removes exactly the digests of the certified blocks. *)
Theorem proposer_block_carries_buffer (Hsign : signing_correct) round qc tc payload p digests :
  key_from_slice name = true -> drains p payload ->
  (let '(p', blocks, out) := on_message name committee vid (Make round qc tc) payload p in
   buffer p' = ∅ /\
   exists b, blocks = [b] /\ Block.qc b = qc /\ Block.tc b = tc /\ Block.round b = round /\
     Block.author b = name /\ NoDup (Block.payload b) /\
     (forall d, d ∈ Block.payload b <-> d ∈ buffer p) /\
     Signature.verify (Block.signature b) (Block.digest b) name = Ok () /\
     out = [NetBroadcast (map snd (Committee.broadcast_addresses committee name))
              (envelope vid (Propose b))]) /\
  (let '(p', blocks, out) := on_message name committee vid (CleanupProposer digests) payload p in
   blocks = [] /\ out = [] /\ forall d, d ∈ buffer p' <-> d ∈ buffer p /\ d ∉ digests).
Proof using Type.
  intros Hk [Hnd Hset]. split; simpl.
  - split; [done|]. eexists. split_and!; try done.
    + intros d. simpl. rewrite <- Hset. by rewrite elem_of_list_to_set.
    + destruct (Hsign name (Block.digest (Block.new qc tc name round payload)) Hk) as [Hc Hv].
      assert (Block.signature (Block.new qc tc name round payload)
        = sign_ecdsa name (Block.digest (Block.new qc tc name round payload))) as -> by done.
      unfold Signature.verify.
      by rewrite Hc, Hk, Hv.
  - split_and!; [done..|]. intros d. apply elem_of_removed.
Qed.

End proposer.

(** ** The helper *)

Section helper.
Context `{Crypto} `{Bincode} `{!BincodeRoundTrip} `{Rocksdb Digest bytes}.
Context (committee : Committee.t) (vid : Z).

(** A member that asks for a stored block receives it as a proposal that its
    own dispatcher forwards to its core; for an absent block the helper is silent,
    for a stranger as well; and a request for a stored value that is not a block,
    such as a batch of the mempool in the shared store, makes the helper panic. *)
Theorem helper_answers st digest origin :
  (Committee.address committee origin = None ->
   Helper.on_request committee vid st digest origin = Ok []) /\
  forall address, Committee.address committee origin = Some address ->
  (forall b, Store.read st digest = inr (Some (ser_block b)) ->
     Helper.on_request committee vid st digest origin
     = Ok [NetSend address (envelope vid (Propose b))] /\
     exists m, de_dvf (envelope vid (Propose b)) = Some m /\ version m = VERSION /\
       validator_id m = vid /\ ConsensusReceiverHandler.dispatch (message m)
       = Ok (ConsensusReceiverHandler.ToCore true (Propose b))) /\
  (Store.read st digest = inr None ->
   Helper.on_request committee vid st digest origin = Ok []) /\
  (forall v, Store.read st digest = inr (Some v) -> de_block v = None ->
   Helper.on_request committee vid st digest origin
   = Panic "Failed to deserialize our own block").
Proof using All.
  unfold Helper.on_request. split; [by intros ->|]. intros address ->. split_and!.
  - intros b ->. rewrite de_ser_block. split; [done|]. eexists. unfold envelope.
    rewrite de_ser_dvf. split_and!; try done. simpl.
    unfold ConsensusReceiverHandler.dispatch. by rewrite de_ser_message.
  - by intros ->.
  - by intros v -> ->.
Qed.

End helper.

(** ** Concrete runs *)

Section witness.
#[local] Existing Instances ideal_crypto ideal_bincode ideal_round_trip memory_db.

(** Two blocks on one missing parent: one is given up, the other delivered. *)
Definition demo_child (payload : list Digest) : Block.t :=
  Block.new (QC.mk 77 4 0 []) None 12 5 payload.
Definition demo_turns : list sync_input :=
  [SBlock 0 (demo_child [1]); SBlock 10 (demo_child [2]); SBlock 20 (demo_child [1]);
   STimer 5 true [(77, 30)]; SResult 1 Synchronizer.TimedOut; SResult 0 Synchronizer.Found].

Lemma synchronizer_exactly_once_witness :
  [demo_child [1]; demo_child [2]]
  ≡ₚ looped (snd (sync_run 13 demo_committee 7 demo_turns))
     ++ expired (snd (sync_run 13 demo_committee 7 demo_turns))
     ++ Synchronizer.waiting (fst (sync_run 13 demo_committee 7 demo_turns)).
Proof.
  assert ([demo_child [1]; demo_child [2]]
    = accepted (snd (sync_run 13 demo_committee 7 demo_turns))) as -> by (vm_compute; reflexivity).
  apply (synchronizer_exactly_once 13 demo_committee 7 demo_turns).
  repeat constructor; vm_compute; by eexists.
Defined.

Lemma proposer_block_carries_buffer_witness :
  8 ∈ Block.payload (Block.new QC.genesis None 12 1 [8; 9])
  <-> 8 ∈ Proposer.buffer (Proposer.mk {[8; 9]}).
Proof.
  assert (Proposer.drains (Proposer.mk {[8; 9]}) [8; 9]) as Hd
    by (apply (bool_decide_unpack _); vm_compute; exact I).
  destruct (proposer_block_carries_buffer 12 demo_committee 7 ideal_signing_correct 1 QC.genesis
    None [8; 9] (Proposer.mk {[8; 9]}) [] eq_refl Hd) as [[_ (b & Hb & _ & _ & _ & _ & _ & Hp & _)] _].
  injection Hb as <-. apply Hp.
Defined.

(** A batch under key 5 of the shared store. *)
Lemma helper_answers_witness :
  Helper.on_request demo_committee 7 (fst (Store.write empty_store 5 [])) 5 12
  = Panic "Failed to deserialize our own block".
Proof.
  assert (exists a, Committee.address demo_committee 12 = Some a) as [a Ha]
    by (eexists; vm_compute; reflexivity).
  apply (proj2 (proj2 (proj2 (helper_answers demo_committee 7
    (fst (Store.write empty_store 5 [])) 5 12) a Ha)) []); vm_compute; reflexivity.
Defined.

End witness.
