(* ===== verification/Node.v ===== *)
(** * A validator's consensus instance, and the system of all of them

    Models [Consensus::spawn] of [hotstuff/consensus/src/consensus.rs]: the core
    and the tasks of [Tasks], joined by the channels of the instance.  The theorems
    discharge what [CoreInv] assumes of the blocks on the loopback channel and lift
    the agreement of the cores to the whole instances. *)

From S2P Require Import Prelude Store Committee Messages Aggregator Network Core Ideal.
From S2P Require Import CoreInv Safety Tasks.

(** One turn of one task, or the arrival of a message. *)
Inductive action : Type :=
| Arrive (data : bytes)
| CoreMessage (fuel : nat)
| CoreLoopback (fuel : nat)
| CoreTimer (fuel : nat)
| ProposerDigest (digest : Digest)
| ProposerStep (payload : list Digest)
| SyncBlock (now : Z)
| SyncResult (i : nat) (w : Synchronizer.waited)
| SyncTimer (delay : Z) (flushed : bool) (order : list (Digest * Z))
| PayloadStep
| PayloadResult (i : nat) (w : PayloadWaiter.waited)
| HelperStep
| Batch (digest : Digest) (data : bytes)
| Ends (r : receiver).

Section instance.
Context `{Crypto} `{Bincode} `{Rocksdb Digest bytes}.
Context (name : PublicKey) (committee : Committee.t) (vid : Z).

(** The tasks of an instance and the contents of its channels, oldest first. *)
Record instance := mkInstance {
  core : Core.t;
  core_alive : bool;
  proposer : Proposer.t;
  synchronizer : Synchronizer.t;
  payload_waiter : PayloadWaiter.t;
  helper_alive : bool;
  rx_consensus : list ConsensusMessage;
  rx_loopback : list Block.t;
  rx_proposer : list ProposerMessage;
  rx_synchronizer : list Block.t;
  rx_payload_waiter : list PayloadWaiterMessage;
  rx_helper : list (Digest * PublicKey);
  sent : list net
}.

(** [Consensus::spawn]; the core runs up to its loop. *)
Definition spawn_instance (st : Store.t Digest bytes) : instance :=
  let s := snd (Core.boot name committee (Core.spawn st)) in
  mkInstance s true Proposer.spawn Synchronizer.new PayloadWaiter.new true
    [] [] (omap (fun e => match e with ToProposer m => Some m | _ => None end) (Core.out s))
    [] [] [] [].

Definition set_core s n := mkInstance s (core_alive n) (proposer n) (synchronizer n)
  (payload_waiter n) (helper_alive n) (rx_consensus n) (rx_loopback n)
  (rx_proposer n) (rx_synchronizer n) (rx_payload_waiter n) (rx_helper n) (sent n).

(** The messages among the new events of the core reach the channels. *)
Definition to_proposer (e : event) : option ProposerMessage :=
  match e with ToProposer m => Some m | _ => None end.
Definition to_synchronizer (e : event) : option Block.t :=
  match e with ToSynchronizer b => Some b | _ => None end.
Definition to_payload_waiter (e : event) : option PayloadWaiterMessage :=
  match e with ToPayloadWaiter m => Some m | _ => None end.

Definition run_core (fuel : nat) (i : input) (n : instance) : instance :=
  let '(r, s') := Core.handle name committee vid fuel i (core n) in
  let events := drop (length (Core.out (core n))) (Core.out s') in
  mkInstance s' (negb (ended r)) (proposer n) (synchronizer n)
    (payload_waiter n) (helper_alive n) (rx_consensus n) (rx_loopback n)
    (rx_proposer n ++ omap to_proposer events)
    (rx_synchronizer n ++ omap to_synchronizer events)
    (rx_payload_waiter n ++ omap to_payload_waiter events) (rx_helper n) (sent n).

Definition set_rx_consensus q n := mkInstance (core n) (core_alive n) (proposer n)
  (synchronizer n) (payload_waiter n) (helper_alive n) q (rx_loopback n)
  (rx_proposer n) (rx_synchronizer n) (rx_payload_waiter n) (rx_helper n) (sent n).
Definition set_rx_loopback q n := mkInstance (core n) (core_alive n) (proposer n)
  (synchronizer n) (payload_waiter n) (helper_alive n) (rx_consensus n) q
  (rx_proposer n) (rx_synchronizer n) (rx_payload_waiter n) (rx_helper n) (sent n).

(** A task runs as long as its receiver exists; when it ends, by a panic or by
    the exit signal, the core finds the channel closed. *)
Definition alive (r : receiver) (n : instance) : bool :=
  bool_decide (r ∉ Core.gone (core n)).
Definition end_if (b : bool) (r : receiver) (s : Core.t) : Core.t :=
  if b then Core.set_gone (r :: Core.gone s) s else s.

(** Sending a block to a core that has ended is a panic of the sender. *)
Definition no_loopback (blocks : list Block.t) (n : instance) : bool :=
  negb (core_alive n) && negb (bool_decide (blocks = [])).

(** [None] when the action is not possible. *)
Definition act (a : action) (n : instance) : option instance :=
  match a with
  | Arrive data =>
      match ConsensusReceiverHandler.dispatch data with
      | Ok (ConsensusReceiverHandler.ToCore _ m) =>
          Some (set_rx_consensus (rx_consensus n ++ [m]) n)
      | Ok (ConsensusReceiverHandler.ToHelper d p) =>
          Some (mkInstance (core n) (core_alive n) (proposer n) (synchronizer n)
            (payload_waiter n) (helper_alive n) (rx_consensus n)
            (rx_loopback n) (rx_proposer n) (rx_synchronizer n) (rx_payload_waiter n)
            (rx_helper n ++ [(d, p)]) (sent n))
      | _ => Some n
      end
  | CoreMessage fuel =>
      match core_alive n, rx_consensus n with
      | true, m :: q => Some (run_core fuel (Received m) (set_rx_consensus q n))
      | _, _ => None
      end
  | CoreLoopback fuel =>
      match core_alive n, rx_loopback n with
      | true, b :: q => Some (run_core fuel (Loopback b) (set_rx_loopback q n))
      | _, _ => None
      end
  | CoreTimer fuel => if core_alive n then Some (run_core fuel TimerFired n) else None
  | ProposerDigest digest =>
      if alive RxProposer n then
        Some (mkInstance (core n) (core_alive n) (Proposer.on_digest digest (proposer n))
          (synchronizer n) (payload_waiter n) (helper_alive n)
          (rx_consensus n) (rx_loopback n) (rx_proposer n) (rx_synchronizer n)
          (rx_payload_waiter n) (rx_helper n) (sent n))
      else None
  | ProposerStep payload =>
      match alive RxProposer n, rx_proposer n with
      | true, m :: q =>
          if decide (Proposer.drains (proposer n) payload) then
            let '(p, blocks, out) := Proposer.on_message name committee vid m payload (proposer n) in
            Some (mkInstance (end_if (no_loopback blocks n) RxProposer (core n)) (core_alive n) p
              (synchronizer n) (payload_waiter n) (helper_alive n) (rx_consensus n)
              (rx_loopback n ++ blocks) q (rx_synchronizer n) (rx_payload_waiter n) (rx_helper n)
              (sent n ++ out))
          else None
      | _, _ => None
      end
  | SyncBlock now =>
      match alive RxSynchronizer n, rx_synchronizer n with
      | true, b :: q =>
          let '(r, s) := Synchronizer.on_block name committee vid now b (synchronizer n) in
          Some (mkInstance (end_if (ended r) RxSynchronizer (core n)) (core_alive n) (proposer n) s
            (payload_waiter n) (helper_alive n) (rx_consensus n) (rx_loopback n) (rx_proposer n) q
            (rx_payload_waiter n) (rx_helper n)
            (sent n ++ match r with Ok out => out | _ => [] end))
      | _, _ => None
      end
  | SyncResult i w =>
      if alive RxSynchronizer n then
        let '(s, blocks) := Synchronizer.on_result i w (synchronizer n) in
        Some (mkInstance (end_if (no_loopback blocks n) RxSynchronizer (core n)) (core_alive n)
          (proposer n) s (payload_waiter n) (helper_alive n) (rx_consensus n)
          (rx_loopback n ++ blocks) (rx_proposer n) (rx_synchronizer n) (rx_payload_waiter n)
          (rx_helper n) (sent n))
      else None
  | SyncTimer delay flushed order =>
      if alive RxSynchronizer n then
        let '(s, out) :=
          Synchronizer.on_timer name committee vid delay flushed order (synchronizer n) in
        Some (mkInstance (core n) (core_alive n) (proposer n) s (payload_waiter n)
          (helper_alive n) (rx_consensus n) (rx_loopback n) (rx_proposer n) (rx_synchronizer n)
          (rx_payload_waiter n) (rx_helper n) (sent n ++ out))
      else None
  | PayloadStep =>
      match alive RxPayloadWaiter n, rx_payload_waiter n with
      | true, m :: q =>
          Some (mkInstance (core n) (core_alive n) (proposer n) (synchronizer n)
            (PayloadWaiter.on_message m (payload_waiter n))
            (helper_alive n) (rx_consensus n) (rx_loopback n) (rx_proposer n)
            (rx_synchronizer n) q (rx_helper n) (sent n))
      | _, _ => None
      end
  | PayloadResult i w =>
      if alive RxPayloadWaiter n then
        let '(s, blocks) := PayloadWaiter.on_result i w (payload_waiter n) in
        Some (mkInstance (end_if (no_loopback blocks n) RxPayloadWaiter (core n)) (core_alive n)
          (proposer n) (synchronizer n) s (helper_alive n) (rx_consensus n)
          (rx_loopback n ++ blocks) (rx_proposer n) (rx_synchronizer n) (rx_payload_waiter n)
          (rx_helper n) (sent n))
      else None
  | HelperStep =>
      match helper_alive n, rx_helper n with
      | true, (d, p) :: q =>
          let r := Helper.on_request committee vid (Core.store (core n)) d p in
          Some (mkInstance (core n) (core_alive n) (proposer n) (synchronizer n)
            (payload_waiter n) (negb (ended r)) (rx_consensus n)
            (rx_loopback n) (rx_proposer n) (rx_synchronizer n) (rx_payload_waiter n) q
            (sent n ++ match r with Ok out => out | _ => [] end))
      | _, _ => None
      end
  | Batch digest data =>
      Some (set_core (Core.set_store (fst (Store.write (Core.store (core n)) digest data))
        (core n)) n)
  | Ends r => Some (set_core (end_if true r (core n)) n)
  end.

End instance.

(** ** The system *)

Section system.
Context `{Crypto} `{Bincode} `{!BincodeRoundTrip}.
Context `{Rocksdb Digest bytes} `{!RocksdbSafe Digest bytes}.
Context (c : Committee.t) (vid : Z) (honest : gset PublicKey).

(** The instances of the honest operators. *)
Abbreviation system := (PublicKey -> instance).

Definition set_instance (n : system) (h : PublicKey) (i : instance) : system :=
  fun p => if decide (p = h) then i else n p.

(** A signature of an honest operator that verifies was made by its core. *)
Definition known (n : system) (pk : PublicKey) (d : Digest) : Prop :=
  pk ∈ honest -> has_signed (Core.out (core (n pk))) d.

Definition message_ok (U : PublicKey -> Digest -> Prop) (m : ConsensusMessage) : Prop :=
  match m with
  | Propose b => proposal_known U b
  | VoteMsg v =>
      sig_known U (Vote.author v) (Vote.digest v) (Vote.signature v) /\ is_round (Vote.round v)
  | TimeoutMsg x => timeout_known U x
  | TCMsg tc => is_round (TC.round tc)
  | SyncRequest _ _ => True
  end.

(** The assumptions on the environment: no arriving message forges an honest
    signature, no round number is about to overflow, and a batch of the mempool
    is not stored under the digest of a block. *)
Definition admissible (n : system) (h : PublicKey) (a : action) : Prop :=
  match a with
  | Arrive data => forall m, de_message data = Some m -> message_ok (known n) m
  | CoreLoopback _ => forall b q, rx_loopback (n h) = b :: q -> is_round (Block.round b)
  | CoreTimer _ => Core.round (core (n h)) < u64_max
  | Batch digest _ => foreign digest
  | _ => True
  end.

Inductive system_step (n : system) : system -> Prop :=
| system_act h a i :
    h ∈ honest -> admissible n h a -> act h c vid a (n h) = Some i ->
    system_step n (set_instance n h i).

Definition system_initial (n : system) : Prop :=
  forall h, h ∈ honest -> exists st, fresh st /\ n h = spawn_instance h c st.

Definition system_reachable (n : system) : Prop :=
  exists n0, system_initial n0 /\ rtc system_step n0 n.

(** ** The channels carry what the core sent *)

Definition synced (out : list event) (b : Block.t) : Prop := ToSynchronizer b ∈ out.
Definition awaited (out : list event) (b : Block.t) : Prop :=
  exists missing, ToPayloadWaiter (Wait missing b) ∈ out.

Definition is_sync_request (m : ConsensusMessage) : bool :=
  match m with SyncRequest _ _ => true | _ => false end.

Record channels_ok (U : PublicKey -> Digest -> Prop) (h : PublicKey) (i : instance) : Prop := {
  ch_consensus m : m ∈ rx_consensus i -> message_ok U m /\ is_sync_request m = false;
  ch_loopback b : b ∈ rx_loopback i -> loopback_source h (Core.out (core i)) b;
  ch_proposer m : m ∈ rx_proposer i -> ToProposer m ∈ Core.out (core i);
  ch_synchronizer b : b ∈ rx_synchronizer i -> synced (Core.out (core i)) b;
  ch_payload m : m ∈ rx_payload_waiter i -> ToPayloadWaiter m ∈ Core.out (core i);
  ch_waiting b : b ∈ Synchronizer.waiting (synchronizer i) -> synced (Core.out (core i)) b;
  ch_payload_waiting x :
    x ∈ PayloadWaiter.waiting (payload_waiter i) -> awaited (Core.out (core i)) (snd (fst x))
}.

Lemma message_ok_mono (U U' : PublicKey -> Digest -> Prop) m :
  (forall pk d, U pk d -> U' pk d) -> message_ok U m -> message_ok U' m.
Proof using Type.
  intros HU. assert (forall pk d sg, sig_known U pk d sg -> sig_known U' pk d sg) as Hs
    by (unfold sig_known; auto).
  destruct m as [b|v|x|tc|d o]; simpl; try done.
  - intros (Hq & ? & ? & Htc). split_and!; try done.
    + intros pk sg Hin. by apply Hs, Hq.
    + intros tc Ht. destruct (Htc tc Ht) as [Hk ?]. split; [|done].
      intros pk sg q t Hin. by apply Hs, Hk.
  - intros [? ?]. auto.
  - intros (? & Hq & Hr & Hqr & Htr). split_and!; auto. intros pk sg Hin. by apply Hs, Hq.
Qed.

Lemma channels_mono (U U' : PublicKey -> Digest -> Prop) h i :
  (forall pk d, U pk d -> U' pk d) -> channels_ok U h i -> channels_ok U' h i.
Proof using Type.
  intros HU [Hc ? ? ? ? ? ?]. split; try done. intros m Hm. destruct (Hc m Hm).
  split; [by apply (message_ok_mono U)|done].
Qed.

Lemma on_block_waiting h now b s b' :
  b' ∈ Synchronizer.waiting (snd (Synchronizer.on_block h c vid now b s)) ->
  b' ∈ Synchronizer.waiting s \/ b' = b.
Proof using Type.
  unfold Synchronizer.on_block. case_bool_decide; [by left|]. simpl.
  repeat case_match; simpl; rewrite elem_of_app, list_elem_of_singleton; auto.
Qed.

Lemma on_result_waiting i w s :
  (forall b, b ∈ Synchronizer.waiting (fst (Synchronizer.on_result i w s)) ->
     b ∈ Synchronizer.waiting s) /\
  (forall b, b ∈ snd (Synchronizer.on_result i w s) -> b ∈ Synchronizer.waiting s).
Proof using Type.
  unfold Synchronizer.on_result. destruct (Synchronizer.waiting s !! i) as [b|] eqn:Hi.
  2: { split; [done|]. by intros b ?%elem_of_nil. }
  assert (forall b', b' ∈ delete i (Synchronizer.waiting s) -> b' ∈ Synchronizer.waiting s)
    as Hdel by (intros b'; apply sublist_subseteq, sublist_delete).
  apply list_elem_of_lookup_2 in Hi.
  destruct w; simpl; split; intros b'; auto;
    rewrite ?list_elem_of_singleton; try (by intros ?%elem_of_nil); by intros ->.
Qed.

Lemma retry_waiting h delay l v acc :
  Synchronizer.waiting (fst (Synchronizer.retry h vid delay l v acc))
  = Synchronizer.waiting (fst acc).
Proof using Type. destruct v, acc as [s sent]. simpl. by repeat case_match. Qed.

Lemma on_timer_waiting h delay f order s :
  Synchronizer.waiting (fst (Synchronizer.on_timer h c vid delay f order s))
  = Synchronizer.waiting s.
Proof using Type.
  unfold Synchronizer.on_timer. destruct f; [|done].
  set (l := map snd (Committee.broadcast_addresses c h)).
  assert (forall acc, Synchronizer.waiting (fst (foldl
    (fun acc v => Synchronizer.retry h vid delay l v acc) acc order))
    = Synchronizer.waiting (fst acc)) as Hf.
  { induction order as [|v order IH]; intros acc; [done|]. simpl. by rewrite IH, retry_waiting. }
  specialize (Hf (s, [])). by destruct (foldl _ _ _).
Qed.

Lemma payload_message_waiting m s x :
  x ∈ PayloadWaiter.waiting (PayloadWaiter.on_message m s) ->
  x ∈ PayloadWaiter.waiting s \/ exists missing b, m = Wait missing b /\ snd (fst x) = b.
Proof using Type.
  destruct m as [missing b|r]; simpl; [|by left]. case_match; [by left|]. simpl.
  rewrite elem_of_app, list_elem_of_singleton. intros [?| ->]; [by left|]. right. eauto.
Qed.

Lemma payload_result_waiting i w s :
  (forall x, x ∈ PayloadWaiter.waiting (fst (PayloadWaiter.on_result i w s)) ->
     x ∈ PayloadWaiter.waiting s) /\
  (forall b, b ∈ snd (PayloadWaiter.on_result i w s) ->
     exists x, x ∈ PayloadWaiter.waiting s /\ snd (fst x) = b).
Proof using Type.
  unfold PayloadWaiter.on_result.
  destruct (PayloadWaiter.waiting s !! i) as [[[m b] ch]|] eqn:Hi.
  2: { split; [done|]. by intros b ?%elem_of_nil. }
  assert (forall x, x ∈ delete i (PayloadWaiter.waiting s) -> x ∈ PayloadWaiter.waiting s)
    as Hdel by (intros x; apply sublist_subseteq, sublist_delete).
  apply list_elem_of_lookup_2 in Hi.
  destruct w; simpl; (split; [by auto|]); intros b';
    rewrite ?list_elem_of_singleton; try (by intros ?%elem_of_nil). intros ->. by eexists.
Qed.

Lemma proposer_blocks h m payload p b :
  b ∈ snd (fst (Proposer.on_message h c vid m payload p)) ->
  exists r qc tc, m = Make r qc tc /\ b = Block.new qc tc h r payload.
Proof using Type.
  destruct m as [r qc tc|ds]; simpl; [|by intros ?%elem_of_nil].
  intros ->%list_elem_of_singleton. eauto.
Qed.

Definition runs_core (a : action) : bool :=
  match a with CoreMessage _ | CoreLoopback _ | CoreTimer _ => true | _ => false end.

Lemma end_if_out b r s : Core.out (end_if b r s) = Core.out s.
Proof using Type. by destruct b. Qed.

Lemma act_channels U h a i i' :
  runs_core a = false ->
  (forall data m, a = Arrive data -> de_message data = Some m -> message_ok U m) ->
  channels_ok U h i -> act h c vid a i = Some i' ->
  channels_ok U h i' /\ Core.out (core i') = Core.out (core i).
Proof using Type.
  intros Ha Harr [Hc Hl Hp Hs Hw Hsw Hpw] Hact.
  destruct a as [data|fuel|fuel|fuel|d|payload|now|k w|dl f o| |k w| |d v|r]; try done; simpl in Hact.
  - specialize (Harr data). revert Hact. unfold ConsensusReceiverHandler.dispatch.
    destruct (de_message data) as [m|] eqn:Hm; [|intros [= <-]; by split].
    specialize (Harr m eq_refl eq_refl).
    destruct m; intros [= <-]; (split; [|done]); split; simpl; try done;
      intros m' [Hin| ->%list_elem_of_singleton]%elem_of_app; auto.
  - case_match; [|done]. injection Hact as <-. split; [|done]. by split.
  - destruct (alive RxProposer i); [|done].
    destruct (rx_proposer i) as [|m q] eqn:Hq; [done|]. case_decide; [|done].
    pose proof (proposer_blocks h m payload (proposer i)) as Hb.
    destruct (Proposer.on_message _ _ _ _ _ _) as [[p blocks] out]. simpl in Hb.
    injection Hact as <-. split; [|by simpl; rewrite ?end_if_out].
    split; simpl; intros ?x; rewrite ?end_if_out; revert x; try done.
    + intros b [Hin|Hin]%elem_of_app; [by apply Hl|].
      destruct (Hb b Hin) as (r & qc & tc & -> & ->). right. right.
      exists r, qc, tc, payload. split; [|done]. apply Hp, list_elem_of_here.
    + intros m' Hin. apply Hp. by apply list_elem_of_further.
  - destruct (alive RxSynchronizer i); [|done].
    destruct (rx_synchronizer i) as [|b q] eqn:Hq; [done|].
    pose proof (on_block_waiting h now b (synchronizer i)) as Hb.
    destruct (Synchronizer.on_block _ _ _ _ _ _) as [r s]. simpl in Hb.
    injection Hact as <-. split; [|by simpl; rewrite ?end_if_out].
    split; simpl; intros ?x; rewrite ?end_if_out; revert x; try done.
    + intros b' Hin. apply Hs. by apply list_elem_of_further.
    + intros b' [Hin| ->]%Hb; [by apply Hsw|]. apply Hs, list_elem_of_here.
  - destruct (alive RxSynchronizer i); [|done].
    destruct (on_result_waiting k w (synchronizer i)) as [Hb1 Hb2].
    destruct (Synchronizer.on_result _ _ _) as [s blocks]. simpl in Hb1, Hb2.
    injection Hact as <-. split; [|by simpl; rewrite ?end_if_out].
    split; simpl; intros ?x; rewrite ?end_if_out; revert x; try done; [|by auto].
    intros b [Hin|Hin]%elem_of_app; [by apply Hl|]. left. by apply Hsw, Hb2.
  - destruct (alive RxSynchronizer i); [|done].
    pose proof (on_timer_waiting h dl f o (synchronizer i)) as Hb.
    destruct (Synchronizer.on_timer _ _ _ _ _ _ _) as [s out]. simpl in Hb.
    injection Hact as <-. split; [|by simpl; rewrite ?end_if_out].
    split; simpl; intros ?x; rewrite ?end_if_out; revert x; try done. by rewrite Hb.
  - destruct (alive RxPayloadWaiter i); [|done]. destruct (rx_payload_waiter i) as [|m q] eqn:Hq; [done|].
    injection Hact as <-. split; [|by simpl; rewrite ?end_if_out].
    split; simpl; intros ?x; rewrite ?end_if_out; revert x; try done.
    + intros m' Hin. apply Hw. by apply list_elem_of_further.
    + intros x [Hin|(missing & b & -> & <-)]%payload_message_waiting; [by apply Hpw|].
      exists missing. apply Hw, list_elem_of_here.
  - destruct (alive RxPayloadWaiter i); [|done].
    destruct (payload_result_waiting k w (payload_waiter i)) as [Hb1 Hb2].
    destruct (PayloadWaiter.on_result _ _ _) as [s blocks]. simpl in Hb1, Hb2.
    injection Hact as <-. split; [|by simpl; rewrite ?end_if_out].
    split; simpl; intros ?x; rewrite ?end_if_out; revert x; try done; [|by auto].
    intros b [Hin|Hin]%elem_of_app; [by apply Hl|].
    destruct (Hb2 b Hin) as (x & Hx & <-). right. left. by apply Hpw.
  - destruct (helper_alive i); [|done]. destruct (rx_helper i) as [|[d p] q]; [done|].
    injection Hact as <-. split; [|done]. by split.
  - injection Hact as <-. split; [|done]. by split.
  - injection Hact as <-. split; [|done]. by split.
Qed.

(** A turn of the core whose events extend the old ones. *)
Lemma run_core_channels U h fuel x i s' r l :
  channels_ok U h i -> Core.handle h c vid fuel x (core i) = (r, s') ->
  Core.out s' = Core.out (core i) ++ l -> channels_ok U h (run_core h c vid fuel x i).
Proof using Type.
  intros [Hc Hl Hp Hs Hw Hsw Hpw] Hrun Hout. unfold run_core. rewrite Hrun.
  assert (drop (length (Core.out (core i))) (Core.out s') = l) as ->
    by by rewrite Hout, drop_app_length.
  assert (forall e, e ∈ Core.out (core i) -> e ∈ Core.out s') as Hold
    by (intros e He; rewrite Hout; apply elem_of_app; by left).
  assert (forall e, e ∈ l -> e ∈ Core.out s') as Hnew
    by (intros e He; rewrite Hout; apply elem_of_app; by right).
  split; simpl.
  - done.
  - intros b Hb. destruct (Hl b Hb) as [Hb'|[[m Hb']|(rr & qc & tc & pl & Hb' & ->)]];
      [left; by apply Hold|right; left; exists m; by apply Hold|right; right].
    exists rr, qc, tc, pl. split; [by apply Hold|done].
  - intros m [Hm|(e & He & Hm)%list_elem_of_omap]%elem_of_app; [by apply Hold, Hp|].
    destruct e; simpl in Hm; simplify_eq. by apply Hnew.
  - intros m [Hm|(e & He & Hm)%list_elem_of_omap]%elem_of_app; [by apply Hold, Hs|].
    destruct e; simpl in Hm; simplify_eq. by apply Hnew.
  - intros m [Hm|(e & He & Hm)%list_elem_of_omap]%elem_of_app; [by apply Hold, Hw|].
    destruct e; simpl in Hm; simplify_eq. by apply Hnew.
  - intros b Hb. by apply Hold, Hsw.
  - intros x' Hx. destruct (Hpw x' Hx) as [m Hm]. exists m. by apply Hold.
Qed.

(** ** Refinement *)

Context (Hc : well_formed c) (Hcf : collision_free).
Context (Hnz : forall t, sha512_32 t <> Digest_default) (Hfault : fault_bound c honest).

(** A state of the system of cores shows the cores of the instances. *)
Definition shows (w : world) (n : system) : Prop :=
  (forall p, node w p = core (n p)) /\
  (forall p, p ∈ dead w -> core_alive (n p) = false).

Definition system_inv (n : system) : Prop :=
  (exists w, reachable c vid honest w /\ shows w n) /\
  forall h, h ∈ honest -> channels_ok (known n) h (n h).

Lemma shows_known w n h pk d :
  shows w n -> known n pk d -> knows h honest (signed_by w) (Core.out (node w h)) pk d.
Proof using Type.
  intros [Hs _] HK Hpk. specialize (HK Hpk). unfold signed_by. rewrite !Hs.
  case_decide; [by subst|done].
Qed.

Lemma set_instance_known n h i l pk d :
  Core.out (core i) = Core.out (core (n h)) ++ l -> known n pk d ->
  known (set_instance n h i) pk d.
Proof using Type.
  intros Hout HK Hpk. destruct (HK Hpk) as (e & He & Hd). exists e. split; [|done].
  unfold set_instance. case_decide; [|done]. subst. rewrite Hout. apply elem_of_app. by left.
Qed.

Lemma set_instance_channels n h i l :
  (forall g, g ∈ honest -> channels_ok (known n) g (n g)) ->
  channels_ok (known n) h i -> Core.out (core i) = Core.out (core (n h)) ++ l ->
  forall g, g ∈ honest -> channels_ok (known (set_instance n h i)) g (set_instance n h i g).
Proof using Type.
  intros Hn Hi Hout g Hg. apply (channels_mono (known n)).
  { intros pk d. by eapply set_instance_known. }
  unfold set_instance. case_decide; [by subst|by apply Hn].
Qed.

(** A turn of the core is a step of the system of cores. *)
Lemma run_core_refines n h fuel x i :
  system_inv n -> h ∈ honest -> core_alive (n h) = true -> core i = core (n h) ->
  channels_ok (known n) h i ->
  (forall w, reachable c vid honest w -> shows w n ->
     input_ok h honest (signed_by w) (node w h) x) ->
  system_inv (set_instance n h (run_core h c vid fuel x i)).
Proof using All.
  intros [(w & Hw & Hs) Hch] Hh Halive Hcore Hi Hx. pose proof Hs as [Hsn Hsd].
  specialize (Hx w Hw Hs).
  pose proof (world_inv_reachable c vid honest Hc Hcf Hnz Hfault w Hw) as Hinv.
  destruct (Core.handle h c vid fuel x (core i)) as [r s'] eqn:Hrun.
  assert (Core.handle h c vid fuel x (node w h) = (r, s')) as Hrun' by by rewrite Hsn, <- Hcore.
  pose proof (post_handle c Hc h vid Hcf honest (signed_by w) (honest_weight c honest Hc Hfault)
    (fun pk d Hpk Hsg => inv_signable c honest pk _ _ d (Hinv pk Hpk) Hsg)
    fuel (node w h) x (Hinv h Hh) Hx) as Hp.
  apply (wp_run _ _ _ _ _ Hp) in Hrun' as Hq. destruct Hq as (_ & (_ & _ & l & Hl) & _).
  rewrite Hsn, <- Hcore in Hl.
  assert (core (run_core h c vid fuel x i) = s' /\
    core_alive (run_core h c vid fuel x i) = negb (ended r)) as [Hcs Hca]
    by (unfold run_core; by rewrite Hrun).
  split.
  - exists (mkWorld (set_node w h s') (if ended r then {[h]} ∪ dead w else dead w)). split.
    + destruct Hw as (w0 & Hi0 & Hr0). exists w0. split; [done|]. eapply rtc_r; [done|].
      eapply step_handle; try done. intros Hd. apply Hsd in Hd. congruence.
    + split; intros p; simpl; unfold set_node, set_instance; [by case_decide|].
      intros Hd. case_decide as Hph.
      * subst p. rewrite Hca. destruct (ended r); [done|]. apply Hsd in Hd. congruence.
      * apply Hsd. destruct (ended r); [|done].
        apply elem_of_union in Hd as [->%elem_of_singleton|?]; done.
  - eapply set_instance_channels; [done|by eapply run_core_channels|].
    rewrite Hcs, <- Hcore. exact Hl.
Qed.

Lemma same_gone (s : Core.t) : exists g, s = Core.set_gone g s.
Proof using Type. exists (Core.gone s). by destruct s. Qed.

Lemma end_if_gone b r s : exists g, end_if b r s = Core.set_gone g s.
Proof using Type. destruct b; [by eexists|apply same_gone]. Qed.

(** The other actions leave the core alone, but for the batches in its store and
    the channels that they close. *)
Lemma act_core h a i i' :
  runs_core a = false -> act h c vid a i = Some i' ->
  core_alive i' = core_alive i /\
  ((exists g, core i' = Core.set_gone g (core i)) \/
   exists d v, a = Batch d v /\
     core i' = Core.set_store (fst (Store.write (Core.store (core i)) d v)) (core i)).
Proof using Type.
  intros Ha Hact.
  destruct a as [data|fuel|fuel|fuel|d|payload|now|k w|dl f o| |k w| |d v|r]; try done;
    simpl in Hact; repeat case_match; simplify_eq/=; eauto 6 using same_gone, end_if_gone.
Qed.

Lemma task_refines n h a i :
  system_inv n -> h ∈ honest -> admissible n h a -> runs_core a = false ->
  act h c vid a (n h) = Some i -> system_inv (set_instance n h i).
Proof using All.
  intros [(w & Hw & Hs) Hch] Hh Hadm Ha Hact. pose proof Hs as [Hsn Hsd].
  destruct (act_channels (known n) h a (n h) i Ha) as [Hci Hout]; try done; [|by apply Hch|].
  { intros data m -> Hm. by apply Hadm. }
  destruct (act_core h a (n h) i Ha Hact) as [Hal Hcore].
  split.
  - destruct Hcore as [[g Hcore]|(d & v & -> & Hcore)].
    + exists (mkWorld (set_node w h (Core.set_gone g (node w h))) (dead w)). split.
      * destruct Hw as (w0 & Hi0 & Hr0). exists w0. split; [done|]. eapply rtc_r; [done|].
        by apply step_gone.
      * split; intros p; simpl; unfold set_node, set_instance; case_decide; subst; auto.
        -- by rewrite Hcore, Hsn.
        -- rewrite Hal. auto.
    + exists (mkWorld (set_node w h (Core.set_store
        (fst (Store.write (Core.store (node w h)) d v)) (node w h))) (dead w)). split.
      * destruct Hw as (w0 & Hi0 & Hr0). exists w0. split; [done|]. eapply rtc_r; [done|].
        by apply step_batch.
      * split; intros p; simpl; unfold set_node, set_instance; case_decide; subst; auto.
        -- by rewrite Hcore, Hsn.
        -- rewrite Hal. auto.
  - eapply set_instance_channels; [done..|]. by rewrite Hout, app_nil_r.
Qed.

Lemma system_inv_initial n : system_initial n -> system_inv n.
Proof using All.
  intros Hn. split.
  - exists (mkWorld (fun h => core (n h)) ∅). split; [|done].
    exists (mkWorld (fun h => core (n h)) ∅). split; [|apply rtc_refl]. split; [done|].
    intros h Hh. destruct (Hn h Hh) as (st & Hf & Hsp). exists st. split; [done|].
    simpl. by rewrite Hsp.
  - intros h Hh. destruct (Hn h Hh) as (st & Hf & ->).
    split; simpl; try by (intros ? ?%elem_of_nil).
    intros m (e & He & Hm)%list_elem_of_omap. destruct e; simpl in Hm; by simplify_eq.
Qed.

Lemma message_input w n h m :
  shows w n -> message_ok (known n) m ->
  input_ok h honest (signed_by w) (node w h) (Received m).
Proof using Type.
  intros Hs Hm. assert (message_ok (knows h honest (signed_by w) (Core.out (node w h))) m)
    as Hm' by (eapply message_ok_mono; [|done]; intros; by eapply shows_known).
  by destruct m.
Qed.

Lemma system_inv_step n n' : system_inv n -> system_step n n' -> system_inv n'.
Proof using All.
  intros Hn Hst. destruct Hst as [h a i Hh Hadm Hact].
  destruct (runs_core a) eqn:Ha; [|by eapply task_refines].
  pose proof (proj2 Hn h Hh) as Hch.
  destruct a as [data|fuel|fuel|fuel|d|payload|now|k w|dl f o| |k w| |d v|r]; try done;
    simpl in Hact; destruct (core_alive (n h)) eqn:Halive; try done.
  - destruct (rx_consensus (n h)) as [|m q] eqn:Hq; [done|]. injection Hact as <-.
    pose proof Hch as [Hc1 Hc2 Hc3 Hc4 Hc5 Hc6 Hc7].
    destruct (Hc1 m) as [Hm Hns]; [rewrite Hq; apply list_elem_of_here|].
    apply run_core_refines; try done.
    + split; simpl; try done. intros m' Hin. apply Hc1. rewrite Hq. by apply list_elem_of_further.
    + intros w Hw Hs. by eapply message_input.
  - destruct (rx_loopback (n h)) as [|b q] eqn:Hq; [done|]. injection Hact as <-.
    pose proof Hch as [Hc1 Hc2 Hc3 Hc4 Hc5 Hc6 Hc7].
    apply run_core_refines; try done.
    + split; simpl; try done. intros b' Hin. apply Hc2. rewrite Hq. by apply list_elem_of_further.
    + intros w Hw [Hs _]. split; [|by apply (Hadm b q)]. rewrite Hs. apply Hc2. rewrite Hq.
      apply list_elem_of_here.
  - injection Hact as <-. apply run_core_refines; try done.
    intros w Hw [Hs _]. simpl. by rewrite Hs.
Qed.

Lemma system_inv_reachable n : system_reachable n -> system_inv n.
Proof using All.
  intros (n0 & Hi & Hr). apply system_inv_initial in Hi.
  induction Hr; [done|]. apply IHHr. by eapply system_inv_step.
Qed.

(** C6: the composition refines the system of cores: in every reachable state of
    the full instances, with their proposer, synchronizer, payload waiter, helper
    and channels, the cores are in a reachable state of the abstract system; a
    block on a loopback channel is one that the core itself handed to the
    synchronizer or the payload waiter, or one the proposer made at its request;
    and no sync request reaches a core. *)
Theorem instances_refine_cores n :
  system_reachable n ->
  (exists w, reachable c vid honest w /\ forall p, node w p = core (n p)) /\
  (forall h b, h ∈ honest -> b ∈ rx_loopback (n h) ->
     loopback_source h (Core.out (core (n h))) b) /\
  (forall h m, h ∈ honest -> m ∈ rx_consensus (n h) -> is_sync_request m = false).
Proof using All.
  intros [(w & Hw & Hs & _) Hch]%system_inv_reachable. split_and!.
  - by exists w.
  - intros h b Hh. apply (ch_loopback _ _ _ (Hch h Hh)).
  - intros h m Hh Hm. by apply (ch_consensus _ _ _ (Hch h Hh)).
Qed.

(** C1: agreement.  If the faulty operators hold at most [f] stake, then in every
    execution of the honest consensus instances against an arbitrary network and
    arbitrary faulty operators that cannot forge honest signatures, any two blocks
    that honest operators deliver to their applications are on one chain: one is
    the other or an ancestor of it. *)
Theorem agreement n h1 h2 b1 b2 :
  system_reachable n -> h1 ∈ honest -> h2 ∈ honest ->
  Commit b1 ∈ Core.out (core (n h1)) -> Commit b2 ∈ Core.out (core (n h2)) ->
  ancestor (Block.digest b1) (Block.digest b2) \/
  ancestor (Block.digest b2) (Block.digest b1).
Proof using All.
  intros [(w & Hw & Hs & _) _]%system_inv_reachable Hh1 Hh2. rewrite <- !Hs. intros Hb1 Hb2.
  by apply (cores_agree c vid honest Hc Hcf Hnz Hfault w h1 h2).
Qed.

End system.

(** ** An execution of the instances *)

Section witness.
#[local] Existing Instances ideal_crypto ideal_bincode ideal_round_trip memory_db
  memory_db_safe.

Definition demo_act (n : PublicKey -> instance) (h : PublicKey) (a : action)
  : PublicKey -> instance :=
  match act h demo_committee 7 a (n h) with
  | Some i => set_instance n h i
  | None => n
  end.

(** A block arrives and the core handles it. *)
Definition demo_receive (n : PublicKey -> instance) (h : PublicKey) (b : Block.t)
  : PublicKey -> instance :=
  demo_act (demo_act n h (Arrive (ser_message (Propose b)))) h (CoreMessage 5).

Definition demo_n0 : PublicKey -> instance := fun h => spawn_instance h demo_committee empty_store.
Definition demo_n1 := demo_act (demo_act demo_n0 12 (Batch 0 [])) 13 (Batch 0 []).
Definition demo_n2 := demo_receive (demo_receive demo_n1 12 demo_b1) 13 demo_b1.
Definition demo_n3 := demo_receive (demo_receive demo_n2 12 demo_b2) 13 demo_b2.
Definition demo_n4 := demo_receive demo_n3 12 demo_b3.

Lemma demo_act_step n h a :
  h ∈ demo_honest -> admissible demo_honest n h a -> act h demo_committee 7 a (n h) <> None ->
  system_step demo_committee 7 demo_honest n (demo_act n h a).
Proof.
  intros Hh Ha Hs. unfold demo_act. destruct (act _ _ _ _ _) as [i|] eqn:Hi; [|done].
  by apply (system_act _ _ _ _ _ a).
Qed.

Lemma demo_message n b :
  is_round (QC.round (Block.qc b)) -> is_round (Block.round b) -> Block.tc b = None ->
  (forall p sg, (p, sg) ∈ QC.votes (Block.qc b) -> p = 11 \/
     has_signed_b (Core.out (core (n p))) (QC.digest (Block.qc b)) = true) ->
  message_ok (known demo_honest n) (Propose b).
Proof.
  intros Hq Hr Htc Hs. split_and!; try done; [|by rewrite Htc].
  intros p sg Hin _ Hp. destruct (Hs p sg Hin) as [->|Hb%has_signed_b_ok]; [|done].
  exfalso. revert Hp. vm_compute. discriminate.
Qed.

Lemma demo_receive_steps n h b :
  h ∈ demo_honest -> core_alive (n h) = true -> message_ok (known demo_honest n) (Propose b) ->
  rtc (system_step demo_committee 7 demo_honest) n (demo_receive n h b).
Proof.
  intros Hh Hal Hm. assert (de_message (ser_message (Propose b)) = Some (Propose b)) as Hde
    by apply de_ser_message.
  assert (ConsensusReceiverHandler.dispatch (ser_message (Propose b))
    = Ok (ConsensusReceiverHandler.ToCore true (Propose b))) as Hd
    by (unfold ConsensusReceiverHandler.dispatch; by rewrite Hde).
  unfold demo_receive.
  assert (demo_act n h (Arrive (ser_message (Propose b)))
    = set_instance n h (set_rx_consensus (rx_consensus (n h) ++ [Propose b]) (n h))) as Hn
    by (unfold demo_act, act; by rewrite Hd).
  eapply rtc_l, rtc_once; (apply demo_act_step; [done| |]).
  - intros m Hm'. rewrite Hde in Hm'. by injection Hm' as <-.
  - unfold act. by rewrite Hd.
  - done.
  - rewrite Hn. unfold set_instance. rewrite decide_True by done. unfold act.
    change (core_alive (set_rx_consensus (rx_consensus (n h) ++ [Propose b]) (n h)))
      with (core_alive (n h)). rewrite Hal.
    change (rx_consensus (set_rx_consensus (rx_consensus (n h) ++ [Propose b]) (n h)))
      with (rx_consensus (n h) ++ [Propose b]). by destruct (rx_consensus (n h)).
Qed.

Lemma demo_receive_qc n h b b' :
  h ∈ demo_honest -> core_alive (n h) = true -> Block.qc b = demo_qc b' ->
  is_round (Block.round b') -> is_round (Block.round b) -> Block.tc b = None ->
  has_signed_b (Core.out (core (n 12))) (QC.digest (demo_qc b')) = true ->
  has_signed_b (Core.out (core (n 13))) (QC.digest (demo_qc b')) = true ->
  rtc (system_step demo_committee 7 demo_honest) n (demo_receive n h b).
Proof.
  intros Hh Hal Hq Hr' Hr Htc H12 H13. apply demo_receive_steps; [done..|].
  apply demo_message; rewrite ?Hq; try done.
  intros p sg Hin. apply list_elem_of_fmap in Hin as (q & [= -> _] & Hin).
  rewrite !elem_of_cons, elem_of_nil in Hin.
  destruct Hin as [->|[->|[->|[]]]]; auto.
Qed.

Lemma demo_receive_first n h :
  h ∈ demo_honest -> core_alive (n h) = true ->
  rtc (system_step demo_committee 7 demo_honest) n (demo_receive n h demo_b1).
Proof.
  intros. apply demo_receive_steps; [done..|]. apply demo_message; try done.
  by intros p sg ?%elem_of_nil.
Qed.

Ltac demo_tac :=
  lazymatch goal with
  | |- _ ∈ _ => done
  | |- is_round _ => done
  | |- Block.qc _ = _ => reflexivity
  | |- Block.tc _ = _ => reflexivity
  | |- _ => vm_compute; reflexivity
  end.

Lemma demo_system_reachable : system_reachable demo_committee 7 demo_honest demo_n4.
Proof.
  assert (12 ∈ demo_honest) as H12 by (apply demo_member; auto).
  assert (13 ∈ demo_honest) as H13 by (apply demo_member; auto).
  exists demo_n0. split.
  { intros h _. exists empty_store. split; [|done].
    intros d v Hr. vm_compute in Hr. discriminate. }
  eapply rtc_l; [apply (demo_act_step demo_n0 12 (Batch 0 [])); [done|apply demo_foreign|done]|].
  eapply rtc_l; [apply (demo_act_step (demo_act demo_n0 12 (Batch 0 [])) 13 (Batch 0 []));
    [done|apply demo_foreign|done]|].
  fold demo_n1. transitivity demo_n2.
  { transitivity (demo_receive demo_n1 12 demo_b1).
    - apply demo_receive_first; demo_tac.
    - unfold demo_n2. apply demo_receive_first; demo_tac. }
  transitivity demo_n3.
  { transitivity (demo_receive demo_n2 12 demo_b2).
    - apply (demo_receive_qc _ _ _ demo_b1); demo_tac.
    - unfold demo_n3. apply (demo_receive_qc _ _ _ demo_b1); demo_tac. }
  unfold demo_n4. apply (demo_receive_qc _ _ _ demo_b2); demo_tac.
Qed.

Lemma agreement_witness :
  ancestor (Block.digest demo_b1) (Block.digest demo_b1) \/
  ancestor (Block.digest demo_b1) (Block.digest demo_b1).
Proof.
  apply (agreement demo_committee 7 demo_honest demo_committee_well_formed
    ideal_collision_free demo_nonzero demo_fault demo_n4 12 12).
  - exact demo_system_reachable.
  - apply demo_member. auto.
  - apply demo_member. auto.
  - apply list_elem_of_In. vm_compute. tauto.
  - apply list_elem_of_In. vm_compute. tauto.
Defined.

Lemma instances_refine_cores_witness :
  exists w, reachable demo_committee 7 demo_honest w /\ node w 12 = core (demo_n4 12).
Proof.
  destruct (instances_refine_cores demo_committee 7 demo_honest demo_committee_well_formed
    ideal_collision_free demo_nonzero demo_fault demo_n4 demo_system_reachable)
    as [(w & Hw & Hn) _].
  exists w. split; [exact Hw|apply Hn].
Defined.

End witness.
