(* ===== verification/Transport.v ===== *)
(** * Senders and receiver of the network crate

    Models [hotstuff/network/src/receiver.rs], [reliable_sender.rs] and
    [simple_sender.rs].  TCP is the environment: whether a connection is made, a
    frame is sent or read, and when a caller drops its handle are arguments of the
    steps. *)

From S2P Require Import Prelude Store Committee Messages Aggregator Network Core Ideal Tasks.

(** ** [receiver.rs] *)

Module Receiver.
Section receiver.
Context `{Bincode} {Handler : Type}.

(** [MessageHandler::dispatch]: the replies written, and whether it is [Ok]. *)
Context (dispatch : Handler -> bytes -> list string * bool).

Definition INVALID_MESSAGE_DELAY : Z := 10.

(** What [reader.next()] yields. *)
Inductive frame : Type := Frame (data : bytes) | ReadError.

(** What the runner of a connection does with a frame: the replies, the messages
    dispatched, and whether it keeps the connection. *)
Definition on_frame (handler_map : gmap Z Handler) (f : frame)
  : list string * list (Handler * bytes) * bool :=
  match f with
  | ReadError => ([], [], false)
  | Frame data =>
      match de_dvf data with
      | Some dvf_message =>
          if negb (version dvf_message =? VERSION) then (["Version mismatch"], [], false)
          else
            match handler_map !! validator_id dvf_message with
            | Some handler =>
                let msg := message dvf_message in
                let '(replies, ok) := dispatch handler msg in
                (replies, [(handler, msg)], ok)
            | None => (["No handler found"], [], false)
            end
      | None => (["Invalid message"], [], false)
      end
  end.

(** [spawn_runner]: the frames of a connection, each with the handlers that are
    registered when it is handled. *)
Fixpoint spawn_runner (frames : list (gmap Z Handler * frame))
  : list string * list (Handler * bytes) :=
  match frames with
  | [] => ([], [])
  | (handler_map, f) :: frames =>
      let '(replies, dispatched, continue) := on_frame handler_map f in
      if (continue : bool) then
        let '(replies', dispatched') := spawn_runner frames in
        (replies ++ replies', dispatched ++ dispatched')
      else (replies, dispatched)
  end.

End receiver.
End Receiver.

(** ** [reliable_sender.rs]: a connection *)

Module Connection.

Definition RETRY_DELAY : Z := 200.
Definition MAX_DELAY : Z := 60000.

(** Before [TcpStream::connect], in the ['waiter] loop after a failed one, in
    [keep_alive], after [return]. *)
Inductive status : Type := Connecting | Backoff | Connected | Stopped.

(** A message and the number of its [cancel_handler]; [cancelled] are the handlers
    that the callers dropped, [dropped] those whose message went down with the
    connection. *)
Record t := mk {
  receiver : list (bytes * Z);
  buffer : list (bytes * Z);
  pending_replies : list (bytes * Z);
  delay : Z;
  st : status;
  cancelled : gset Z;
  resolved : list (Z * bytes);
  submitted : list Z;
  dropped : list Z
}.

Definition spawn : t := mk [] [] [] RETRY_DELAY Connecting ∅ [] [] [].

Inductive event : Type :=
| Submit (data : bytes) (handler : Z)
| DropHandle (handler : Z)
| ConnectOk
| ConnectFailed
| TimerFired
| Receive
| TransmitOk
| TransmitFailed
| Reply (data : bytes)
| ReplyFailed
| Exit.

(** [handler.is_closed()]. *)
Definition is_closed (c : t) (m : bytes * Z) : bool := bool_decide (snd m ∈ cancelled c).

(** The end of [keep_alive]: unacknowledged messages return to the buffer. *)
Definition disconnect (c : t) : t :=
  mk (receiver c) (pending_replies c ++ buffer c) [] (delay c) Connecting (cancelled c)
    (resolved c) (submitted c) (dropped c).

(** One step; [None] when the code is not at a point where it can happen.  In
    [keep_alive] the buffer is sent before anything is received.  [Exit] is the
    signal that [ReliableSender::drop] fires: the task returns and its channel,
    its buffer and the unanswered messages are dropped with it; nothing can be
    submitted afterwards, because the sender is gone. *)
Definition step (e : event) (c : t) : option t :=
  match e with
  | Submit data handler =>
      match st c with
      | Stopped => None
      | _ => Some (mk (receiver c ++ [(data, handler)]) (buffer c) (pending_replies c) (delay c)
               (st c) (cancelled c) (resolved c) (submitted c ++ [handler]) (dropped c))
      end
  | DropHandle handler =>
      Some (mk (receiver c) (buffer c) (pending_replies c) (delay c) (st c)
        ({[handler]} ∪ cancelled c) (resolved c) (submitted c) (dropped c))
  | ConnectOk =>
      match st c with
      | Connecting => Some (mk (receiver c) (buffer c) [] RETRY_DELAY Connected (cancelled c)
                        (resolved c) (submitted c) (dropped c))
      | _ => None
      end
  | ConnectFailed =>
      match st c with
      | Connecting => Some (mk (receiver c) (buffer c) (pending_replies c) (delay c) Backoff
                        (cancelled c) (resolved c) (submitted c) (dropped c))
      | _ => None
      end
  | TimerFired =>
      match st c with
      | Backoff => Some (mk (receiver c) (buffer c) (pending_replies c)
                     (Z.min (2 * delay c) MAX_DELAY) Connecting (cancelled c) (resolved c)
                     (submitted c) (dropped c))
      | _ => None
      end
  | Receive =>
      match st c, receiver c with
      | Backoff, m :: q =>
          Some (mk q (filter (fun m => is_closed c m = false) (buffer c ++ [m]))
            (pending_replies c) (delay c) Backoff (cancelled c) (resolved c) (submitted c) (dropped c))
      | Connected, m :: q =>
          match buffer c with
          | [] => Some (mk q [m] (pending_replies c) (delay c) Connected (cancelled c)
                    (resolved c) (submitted c) (dropped c))
          | _ => None
          end
      | _, _ => None
      end
  | TransmitOk =>
      match st c, buffer c with
      | Connected, m :: b =>
          Some (mk (receiver c) b
            (if is_closed c m then pending_replies c else pending_replies c ++ [m])
            (delay c) Connected (cancelled c) (resolved c) (submitted c) (dropped c))
      | _, _ => None
      end
  | TransmitFailed =>
      match st c, buffer c with
      | Connected, m :: b => if is_closed c m then None else Some (disconnect c)
      | _, _ => None
      end
  | Reply data =>
      match st c, buffer c with
      | Connected, [] =>
          match pending_replies c with
          | [] => Some (disconnect c)
          | (_, handler) :: p =>
              Some (mk (receiver c) [] p (delay c) Connected (cancelled c)
                (resolved c ++ [(handler, data)]) (submitted c) (dropped c))
          end
      | _, _ => None
      end
  | ReplyFailed =>
      match st c, buffer c with
      | Connected, [] => Some (disconnect c)
      | _, _ => None
      end
  | Exit =>
      match st c with
      | Stopped | Connecting => None
      | _ => Some (mk [] [] [] (delay c) Stopped (cancelled c) (resolved c) (submitted c)
               (map snd (pending_replies c ++ buffer c ++ receiver c)))
      end
  end.

Fixpoint run (es : list event) (c : t) : option t :=
  match es with
  | [] => Some c
  | e :: es => match step e c with Some c' => run es c' | None => None end
  end.

(** The handlers of the messages on their way, the oldest first. *)
Definition in_flight (c : t) : list Z :=
  map snd (pending_replies c ++ buffer c ++ receiver c).

End Connection.

(** ** [simple_sender.rs] *)

Module SimpleSender.

Inductive Command : Type := Send (data : bytes) | Feed (data : bytes) | Flush.

(** The queue of each connection of the map, by address; [None] when its task has
    ended and the channel is closed. *)
Abbreviation t := (gmap SocketAddr (option (list Command))) (only parsing).

(** [execute]; [spawned] is whether the new connection accepts the command. *)
Definition execute (spawned : bool) (address : SocketAddr) (cmd : Command) (s : t) : t :=
  match s !! address with
  | Some (Some queue) => <[address := Some (queue ++ [cmd])]> s
  | _ => if spawned then <[address := Some [cmd]]> s else s
  end.

Definition send spawned address data s := execute spawned address (Send data) s.
Definition feed spawned address data s := execute spawned address (Feed data) s.
Definition flush spawned address s := execute spawned address Flush s.

Definition broadcast (spawned : SocketAddr -> bool) (addresses : list SocketAddr)
  (data : bytes) (s : t) : t :=
  foldl (fun s a => send (spawned a) a data s) s addresses.
Definition broadcast_feed (spawned : SocketAddr -> bool) (addresses : list SocketAddr)
  (data : bytes) (s : t) : t :=
  foldl (fun s a => feed (spawned a) a data s) s addresses.
Definition broadcast_flush (spawned : SocketAddr -> bool) (addresses : list SocketAddr)
  (s : t) : t :=
  foldl (fun s a => flush (spawned a) a s) s addresses.

End SimpleSender.

(** ** A reliable connection keeps order and loses nothing *)

Section connection.
Import Connection.

(** The handlers that the connection has dealt with or still deals with, in order. *)
Definition accounted (c : t) : list Z := map fst (resolved c) ++ dropped c ++ in_flight c.

Record conn_inv (c : t) : Prop := {
  ci_order : accounted c `sublist_of` submitted c;
  ci_kept h : h ∈ submitted c -> h ∈ cancelled c \/ h ∈ accounted c;
  ci_delay : RETRY_DELAY <= delay c <= MAX_DELAY;
  ci_pending : st c <> Connected -> pending_replies c = [];
  ci_dropped : st c <> Stopped -> dropped c = [];
  ci_stopped : st c = Stopped -> in_flight c = []
}.

(** A step that moves messages along without changing their sequence. *)
Lemma conn_inv_same (c c' : t) :
  conn_inv c -> st c <> Stopped -> st c' <> Stopped ->
  resolved c' = resolved c -> dropped c' = dropped c -> in_flight c' = in_flight c ->
  submitted c' = submitted c -> cancelled c ⊆ cancelled c' ->
  RETRY_DELAY <= delay c' <= MAX_DELAY -> (st c' <> Connected -> pending_replies c' = []) ->
  conn_inv c'.
Proof.
  intros [Ho Hk Hd Hp Hdr Hst] Hn Hn' Hr Hdd Hf Hs Hc Hd' Hp'.
  assert (accounted c' = accounted c) as Ha by (unfold accounted; congruence).
  split; rewrite ?Ha, ?Hs; try done; [|rewrite Hdd; auto].
  intros h Hh. destruct (Hk h Hh) as [Hin|?]; [left; by apply Hc|by right].
Qed.

(** A step that drops messages whose caller is gone. *)
Lemma conn_inv_drop (c c' : t) :
  conn_inv c -> st c <> Stopped -> st c' <> Stopped ->
  resolved c' = resolved c -> dropped c' = dropped c -> submitted c' = submitted c ->
  cancelled c' = cancelled c -> delay c' = delay c ->
  (st c' <> Connected -> pending_replies c' = []) ->
  in_flight c' `sublist_of` in_flight c ->
  (forall h, h ∈ in_flight c -> h ∈ in_flight c' \/ h ∈ cancelled c) -> conn_inv c'.
Proof.
  intros [Ho Hk Hd Hp Hdr Hst] Hn Hn' Hr Hdd Hs Hc Hdl Hp' Hf Hin. unfold accounted in *.
  split; unfold accounted; rewrite ?Hr, ?Hdd, ?Hs, ?Hc, ?Hdl; auto; [| |done].
  - etransitivity; [|exact Ho]. by repeat apply sublist_app.
  - intros h Hh. rewrite !elem_of_app.
    destruct (Hk h Hh) as [?|[?|[?|Hi]%elem_of_app]%elem_of_app]; [by auto..|].
    destruct (Hin h Hi); auto.
Qed.

Lemma conn_inv_disconnect c : conn_inv c -> st c <> Stopped -> conn_inv (disconnect c).
Proof.
  intros Hc Hn. apply (conn_inv_same c); try done; [|apply (ci_delay _ Hc)].
  unfold in_flight, disconnect. simpl. by rewrite app_assoc.
Qed.

Lemma in_flight_filter (P : bytes * Z -> Prop) `{!forall m, Decision (P m)} p b q :
  map snd (p ++ filter P b ++ q) `sublist_of` map snd (p ++ b ++ q).
Proof.
  rewrite !map_app. apply sublist_app; [done|]. apply sublist_app; [|done].
  induction b as [|m b IH]; [done|]. rewrite filter_cons. case_decide; simpl.
  - by apply sublist_skip.
  - by apply sublist_cons.
Qed.

(** The steps of the callers and the two that take or answer a message. *)
Lemma conn_inv_submit data h c c' :
  conn_inv c -> step (Submit data h) c = Some c' -> conn_inv c'.
Proof.
  intros [Ho Hk Hd Hp Hdr Hst] Hs. simpl in Hs.
  assert (st c <> Stopped) as Hn by (intros E; by rewrite E in Hs).
  assert (c' = mk (receiver c ++ [(data, h)]) (buffer c) (pending_replies c) (delay c) (st c)
    (cancelled c) (resolved c) (submitted c ++ [h]) (dropped c)) as ->
    by (destruct (st c); by simplify_eq).
  assert (accounted (mk (receiver c ++ [(data, h)]) (buffer c) (pending_replies c) (delay c)
    (st c) (cancelled c) (resolved c) (submitted c ++ [h]) (dropped c)) = accounted c ++ [h]) as Ha
    by (unfold accounted, in_flight; simpl; by rewrite !map_app, <- !app_assoc).
  split; rewrite ?Ha; simpl; try done.
  - by apply sublist_app.
  - intros h' [Hin|Hin]%elem_of_app; rewrite elem_of_app; [|by auto].
    destruct (Hk h' Hin); auto.
Qed.

Lemma conn_inv_receive c c' : conn_inv c -> step Receive c = Some c' -> conn_inv c'.
Proof.
  intros Hc Hs. pose proof Hc as [Ho Hk Hd Hp Hdr Hst]. simpl in Hs.
  destruct (st c) eqn:Hst'; try done; destruct (receiver c) as [|m q] eqn:Hq; try done.
  - injection Hs as <-. assert (in_flight c = map snd (pending_replies c
      ++ (buffer c ++ [m]) ++ q)) as Hfl by (unfold in_flight; by rewrite Hq, <- app_assoc).
    apply (conn_inv_drop c); try done; simpl; [congruence|..].
    + rewrite Hfl. apply in_flight_filter.
    + rewrite Hfl. unfold in_flight. simpl. intros h Hh.
      rewrite !map_app, !elem_of_app in Hh. rewrite !map_app, !elem_of_app.
      destruct Hh as [?|[Hh|?]]; [auto| |auto].
      assert (h ∈ map snd (buffer c ++ [m])) as Hin by (rewrite map_app, elem_of_app; tauto).
      apply list_elem_of_fmap in Hin as (x & -> & Hx).
      destruct (is_closed c x) eqn:Hcl.
      * right. by apply bool_decide_eq_true in Hcl.
      * left. right. left. apply list_elem_of_fmap. exists x. split; [done|].
        by apply list_elem_of_filter.
  - destruct (buffer c) eqn:Hb; [|done]. injection Hs as <-.
    apply (conn_inv_same c); try done; [congruence|]. unfold in_flight. simpl. by rewrite Hb, Hq.
Qed.

Lemma conn_inv_transmit c c' : conn_inv c -> step TransmitOk c = Some c' -> conn_inv c'.
Proof.
  intros Hc Hs. pose proof Hc as [Ho Hk Hd Hp Hdr Hst]. simpl in Hs.
  destruct (st c) eqn:Hst'; try done; destruct (buffer c) as [|m b] eqn:Hb; try done.
  injection Hs as <-. destruct (is_closed c m) eqn:Hcl.
  - assert (in_flight c = map snd (pending_replies c) ++ snd m :: map snd (b ++ receiver c))
      as Hfl by (unfold in_flight; by rewrite Hb, map_app).
    apply (conn_inv_drop c); try done; try congruence; rewrite Hfl; unfold in_flight; simpl;
      rewrite (map_app snd (pending_replies c)).
    + apply sublist_app; [done|]. by apply sublist_cons.
    + intros h. rewrite !elem_of_app, elem_of_cons. intros [?|[->|?]]; [auto| |auto].
      right. by apply bool_decide_eq_true in Hcl.
  - apply (conn_inv_same c); try done; [congruence|]. unfold in_flight. simpl.
    by rewrite Hb, <- app_assoc.
Qed.

Lemma conn_inv_reply data c c' : conn_inv c -> step (Reply data) c = Some c' -> conn_inv c'.
Proof.
  intros Hc Hs. pose proof Hc as [Ho Hk Hd Hp Hdr Hst]. simpl in Hs.
  destruct (st c) eqn:Hst'; try done; destruct (buffer c) as [|m b] eqn:Hb; try done.
  destruct (pending_replies c) as [|[d h] p] eqn:Hpr; injection Hs as <-;
    [apply conn_inv_disconnect; [done|congruence]|].
  assert (accounted (mk (receiver c) [] p (delay c) Connected (cancelled c)
    (resolved c ++ [(h, data)]) (submitted c) (dropped c)) = accounted c) as Heq.
  { unfold accounted, in_flight. simpl. rewrite Hpr, Hb, map_app, Hdr by done. simpl.
    by rewrite <- app_assoc. }
  split; rewrite ?Heq; simpl; done.
Qed.

Lemma conn_inv_exit c c' : conn_inv c -> step Exit c = Some c' -> conn_inv c'.
Proof.
  intros [Ho Hk Hd Hp Hdr Hst] Hs. simpl in Hs.
  assert (st c <> Stopped) as Hn by (intros E; by rewrite E in Hs).
  assert (c' = mk [] [] [] (delay c) Stopped (cancelled c) (resolved c) (submitted c)
    (in_flight c)) as -> by (destruct (st c); by simplify_eq).
  assert (accounted (mk [] [] [] (delay c) Stopped (cancelled c) (resolved c) (submitted c)
    (in_flight c)) = accounted c) as Ha.
  { unfold accounted. simpl. rewrite (Hdr Hn). unfold in_flight at 2. simpl.
    by rewrite app_nil_r. }
  split; rewrite ?Ha; simpl; done.
Qed.

Lemma conn_inv_step e c c' : conn_inv c -> step e c = Some c' -> conn_inv c'.
Proof.
  intros Hc Hs. pose proof Hc as [Ho Hk Hd Hp Hdr Hst].
  destruct e as [data h|h| | | | | | |data| |];
    [by eapply conn_inv_submit| | | | |by apply conn_inv_receive in Hs
    |by apply conn_inv_transmit in Hs| |by apply conn_inv_reply in Hs| |by apply conn_inv_exit in Hs];
    simpl in Hs.
  - injection Hs as <-. split; simpl; try done.
    intros h' Hh. destruct (Hk h' Hh); [left; set_solver|by right].
  - destruct (st c) eqn:Hst'; try done. injection Hs as <-.
    apply (conn_inv_same c); try done; simpl; [congruence|].
    unfold in_flight. simpl. by rewrite Hp by congruence.
  - destruct (st c) eqn:Hst'; try done. injection Hs as <-.
    apply (conn_inv_same c); try done; [congruence|]. intros _. by apply Hp.
  - destruct (st c) eqn:Hst'; try done. injection Hs as <-.
    apply (conn_inv_same c); try done; simpl; [congruence| |].
    + unfold RETRY_DELAY, MAX_DELAY in *; lia.
    + intros _. by apply Hp.
  - destruct (st c) eqn:Hst'; try done; destruct (buffer c) as [|m b] eqn:Hb; try done.
    destruct (is_closed c m); [done|]. injection Hs as <-.
    apply conn_inv_disconnect; [done|congruence].
  - destruct (st c) eqn:Hst'; try done; destruct (buffer c) as [|m b] eqn:Hb; try done.
    injection Hs as <-. apply conn_inv_disconnect; [done|congruence].
Qed.

(** C34: whatever the network does, the messages of a reliable connection that are
    answered, awaiting an answer, buffered and queued are, in this sequence, in the
    order of submission, and a submitted message is among them unless its caller
    dropped the handle; the delay between connection attempts stays between 200 ms
    and one minute.  This lasts until the sender is dropped: then the connection
    ends, and the messages that are not answered by then, in the order of
    submission, are dropped with it. *)
Theorem reliable_connection_keeps_order es c :
  run es spawn = Some c ->
  map fst (resolved c) ++ dropped c ++ in_flight c `sublist_of` submitted c /\
  (forall h, h ∈ submitted c ->
     h ∈ cancelled c \/ h ∈ map fst (resolved c) ++ dropped c ++ in_flight c) /\
  (st c <> Stopped -> dropped c = []) /\ (st c = Stopped -> in_flight c = []) /\
  RETRY_DELAY <= delay c <= MAX_DELAY.
Proof.
  assert (forall c0, conn_inv c0 -> run es c0 = Some c -> conn_inv c) as Hrun.
  { induction es as [|e es IH]; intros c0 Hc0; simpl; [by intros [= <-]|].
    destruct (step e c0) as [c1|] eqn:Hs; [|done]. apply IH. by eapply conn_inv_step. }
  intros [Ho Hk Hd _ Hdr Hst]%Hrun; [done|].
  split; simpl; try done. intros h ?%elem_of_nil. done.
Qed.

(** Every reply resolves the oldest unanswered message, whatever it says:
    after the refusals "Version mismatch" and "No handler found" the message is
    neither kept nor sent again. *)
Theorem refused_message_is_resolved c data h p reply :
  st c = Connected -> buffer c = [] -> pending_replies c = (data, h) :: p ->
  NoDup (in_flight c) ->
  exists c', step (Reply reply) c = Some c' /\
    resolved c' = resolved c ++ [(h, reply)] /\ h ∉ in_flight c' /\
    h ∉ in_flight (disconnect c').
Proof.
  intros Hst Hb Hp Hnd. simpl. rewrite Hst, Hb, Hp. eexists. split; [done|]. simpl.
  split; [done|]. unfold in_flight, disconnect in *. rewrite Hb, Hp in Hnd. simpl in *.
  apply NoDup_cons in Hnd as [Hn _]. rewrite app_nil_r. auto.
Qed.

End connection.

(** ** The receiver hands each message to the handler of its validator *)

Section receiver.
Context `{Bincode} `{!BincodeRoundTrip} {Handler : Type}.
Context (dispatch : Handler -> bytes -> list string * bool).
Import Receiver.

(** A message in its envelope, for a registered validator. *)
Record delivery := mkDelivery {
  handlers : gmap Z Handler;
  target : Z;
  handler : Handler;
  payload : bytes
}.

Definition deliverable (d : delivery) : Prop :=
  handlers d !! target d = Some (handler d) /\ snd (dispatch (handler d) (payload d)) = true.

Definition wire (d : delivery) : gmap Z Handler * frame :=
  (handlers d, Frame (ser_dvf (mkDvfMessage VERSION (target d) (payload d)))).

Lemma on_frame_dispatched handler_map f h msg :
  (h, msg) ∈ snd (fst (on_frame dispatch handler_map f)) ->
  exists data m, f = Frame data /\ de_dvf data = Some m /\ version m = VERSION /\
    handler_map !! validator_id m = Some h /\ message m = msg.
Proof using Type.
  destruct f as [data|]; simpl; [|by intros ?%elem_of_nil].
  destruct (de_dvf data) as [m|] eqn:Hm; [|by intros ?%elem_of_nil].
  destruct (version m =? VERSION) eqn:Hv; simpl; [|by intros ?%elem_of_nil].
  destruct (handler_map !! validator_id m) as [h'|] eqn:Hh; [|by intros ?%elem_of_nil].
  destruct (dispatch h' (message m)). simpl. intros [= -> ->]%list_elem_of_singleton.
  exists data, m. split_and!; try done. lia.
Qed.

Lemma on_frame_wire d replies :
  deliverable d -> fst (dispatch (handler d) (payload d)) = replies ->
  on_frame dispatch (fst (wire d)) (snd (wire d)) = (replies, [(handler d, payload d)], true).
Proof using All.
  intros [Hh Hd] Hr. simpl. rewrite de_ser_dvf. simpl. rewrite Hh.
  destruct (dispatch (handler d) (payload d)) as [rs ok]. simpl in *. by subst.
Qed.

(** Messages in a current envelope for registered validators are dispatched to
    the handlers of their own validators, all of them and in order, as long as the
    handlers accept them; and whatever a peer sends, a handler only ever sees the
    content of an envelope of the current version that names its validator. *)
Theorem receiver_dispatches_by_validator ds rest :
  Forall deliverable ds ->
  (let '(replies, dispatched) := spawn_runner dispatch rest in
   spawn_runner dispatch (map wire ds ++ rest)
   = (concat (map (fun d => fst (dispatch (handler d) (payload d))) ds) ++ replies,
      map (fun d => (handler d, payload d)) ds ++ dispatched)) /\
  (forall h msg, (h, msg) ∈ snd (spawn_runner dispatch rest) ->
     exists handler_map data m, (handler_map, Frame data) ∈ rest /\
       de_dvf data = Some m /\ version m = VERSION /\
       handler_map !! validator_id m = Some h /\ message m = msg).
Proof using All.
  intros Hds. split.
  - destruct (spawn_runner dispatch rest) as [replies dispatched] eqn:Hrest.
    induction Hds as [|d ds Hd Hds IH]; [done|].
    pose proof (on_frame_wire d _ Hd eq_refl) as Hf. destruct (wire d) as [hm f] eqn:Hw.
    cbn [map app]. rewrite Hw. cbn [spawn_runner]. simpl in Hf. rewrite Hf, IH. simpl.
    by rewrite <- app_assoc.
  - clear Hds. intros h msg. induction rest as [|[hm f] rest IH]; simpl; [by intros ?%elem_of_nil|].
    pose proof (on_frame_dispatched hm f h msg) as Hf.
    destruct (on_frame dispatch hm f) as [[rs dsp] cont]. simpl in Hf.
    assert ((h, msg) ∈ dsp -> exists handler_map data m,
      (handler_map, Frame data) ∈ (hm, f) :: rest /\ de_dvf data = Some m /\
      version m = VERSION /\ handler_map !! validator_id m = Some h /\ message m = msg) as Hhd.
    { intros (data & m & -> & ?)%Hf. exists hm, data, m. split; [apply list_elem_of_here|done]. }
    destruct cont; [|done]. destruct (spawn_runner dispatch rest) as [rs' ds']. simpl.
    intros [Hin|Hin]%elem_of_app; [by apply Hhd|].
    destruct (IH Hin) as (hm' & data & m & Hm & ?). exists hm', data, m.
    split; [by apply list_elem_of_further|done].
Qed.

End receiver.

(** ** Broadcast over simple connections *)

Section simple.
Import SimpleSender.

(** The queue that [execute] leaves at the addressed connection. *)
Definition queued (spawned : bool) (cmd : Command) (o : option (option (list Command)))
  : option (option (list Command)) :=
  match o with
  | Some (Some queue) => Some (Some (queue ++ [cmd]))
  | _ => if spawned then Some (Some [cmd]) else o
  end.

Lemma execute_lookup spawned address cmd s a :
  execute spawned address cmd s !! a
  = if decide (a = address) then queued spawned cmd (s !! a) else s !! a.
Proof.
  unfold execute, queued. case_decide as Ha; [subst a|].
  - destruct (s !! address) as [[q|]|] eqn:Hs;
      [by rewrite lookup_insert_eq|destruct spawned; [by rewrite lookup_insert_eq|done]..].
  - destruct (s !! address) as [[q|]|];
      [by rewrite lookup_insert_ne|destruct spawned; [by rewrite lookup_insert_ne|done]..].
Qed.

(** A broadcast queues the message exactly once at the connection of every
    address of the list, after what is queued there, opening the connections that
    are missing or closed, and touches no other connection. *)
Theorem simple_broadcast_once spawned addresses data s a :
  NoDup addresses ->
  broadcast spawned addresses data s !! a
  = if decide (a ∈ addresses) then queued (spawned a) (Send data) (s !! a) else s !! a.
Proof.
  unfold broadcast, send. revert s.
  induction addresses as [|b addresses IH]; intros s Hnd; cbn [foldl].
  - by rewrite decide_False by apply not_elem_of_nil.
  - apply NoDup_cons in Hnd as [Hb Hnd]. rewrite IH by done. rewrite execute_lookup.
    destruct (decide (a = b)) as [->|Hne].
    + rewrite decide_False by done. by rewrite decide_True by apply list_elem_of_here.
    + destruct (decide (a ∈ addresses)).
      * by rewrite decide_True by by apply list_elem_of_further.
      * rewrite decide_False; [done|]. by intros [->|?]%elem_of_cons.
Qed.

End simple.

(** ** Concrete runs *)

Section witness.
#[local] Existing Instances ideal_bincode ideal_round_trip.

(** Two messages, a broken connection, an answer. *)
Definition demo_events : list Connection.event :=
  [Connection.Submit [1] 1; Connection.Submit [2] 2; Connection.ConnectOk; Connection.Receive;
   Connection.TransmitOk; Connection.ReplyFailed; Connection.ConnectFailed;
   Connection.Receive; Connection.TimerFired; Connection.ConnectOk; Connection.TransmitOk;
   Connection.TransmitOk; Connection.Reply [7]].

Definition demo_connection : Connection.t :=
  default Connection.spawn (Connection.run demo_events Connection.spawn).

Lemma reliable_connection_keeps_order_witness :
  map fst (Connection.resolved demo_connection) ++ Connection.in_flight demo_connection
  `sublist_of` [1; 2].
Proof.
  assert (Connection.run demo_events Connection.spawn = Some demo_connection) as Hrun
    by (vm_compute; reflexivity).
  assert (Connection.submitted demo_connection = [1; 2]) as Hs by (vm_compute; reflexivity).
  pose proof (proj1 (reliable_connection_keeps_order demo_events demo_connection Hrun)) as Ho.
  rewrite Hs in Ho. exact Ho.
Defined.

Lemma refused_message_is_resolved_witness :
  exists c', Connection.step (Connection.Reply [3]) demo_connection = Some c' /\
    2 ∉ Connection.in_flight c'.
Proof.
  destruct (refused_message_is_resolved demo_connection [2] 2 [] [3] eq_refl eq_refl eq_refl)
    as (c' & Hs & _ & Hn & _).
  - apply NoDup_singleton.
  - exists c'. exact (conj Hs Hn).
Defined.

Definition demo_handler (h : Z) (msg : bytes) : list string * bool := (["Ack"], true).

Definition demo_delivery : delivery (Handler := Z) := mkDelivery {[7 := 70]} 7 70 [1; 2].

Lemma receiver_dispatches_by_validator_witness :
  snd (Receiver.spawn_runner demo_handler [wire demo_delivery; ({[7 := 70]}, Receiver.ReadError)])
  = [(70, [1; 2])].
Proof.
  assert (Forall (deliverable demo_handler) [demo_delivery]) as Hd
    by (repeat constructor; vm_compute; reflexivity).
  pose proof (proj1 (receiver_dispatches_by_validator demo_handler [demo_delivery]
    [({[7 := 70]}, Receiver.ReadError)] Hd)) as Hr.
  cbn [map app] in Hr. rewrite Hr. vm_compute. reflexivity.
Defined.

Lemma simple_broadcast_once_witness :
  SimpleSender.broadcast (fun _ => true) [mkSocketAddr 1 80; mkSocketAddr 2 80] [5] ∅
    !! mkSocketAddr 2 80 = Some (Some [SimpleSender.Send [5]]).
Proof.
  rewrite (simple_broadcast_once (fun _ => true) [mkSocketAddr 1 80; mkSocketAddr 2 80] [5] ∅
    (mkSocketAddr 2 80)); [vm_compute; reflexivity|].
  apply (bool_decide_unpack _). vm_compute. exact I.
Defined.

End witness.
