(* ===== verification/Mempool.v ===== *)
(** * The mempool crate

    Models [hotstuff/mempool/src]: transactions become batches ([BatchMaker]),
    batches are broadcast and wait for a quorum of acknowledgements
    ([QuorumWaiter]), are hashed and stored ([Processor]) and announced to the
    consensus; missing batches are requested from other operators
    ([Synchronizer]) and served ([Helper]). *)

From S2P Require Import Prelude Store Committee Messages Aggregator Network Core Ideal Tasks.

Abbreviation Transaction := bytes (only parsing).
Abbreviation Batch := (list bytes) (only parsing).

Inductive MempoolMessage : Type :=
| BatchMsg (batch : Batch)
| BatchRequest (missing : list Digest) (origin : PublicKey).

(** [bincode] for the mempool messages, and the SHA-512 prefix of a serialised
    batch. *)
Class MempoolCodec := {
  ser_mempool : MempoolMessage -> bytes;
  de_mempool : bytes -> option MempoolMessage;
  batch_digest : bytes -> Digest
}.

Class MempoolCodecRoundTrip `{MempoolCodec} := {
  de_ser_mempool m : de_mempool (ser_mempool m) = Some m
}.

Definition mempool_envelope `{Bincode} (vid : Z) (serialized : bytes) : bytes :=
  ser_dvf (mkDvfMessage VERSION vid serialized).

(** [mempool::config::Parameters]. *)
Module Parameters.

Record t := mk {
  gc_depth : Z;
  sync_retry_delay : Z;
  sync_retry_nodes : Z;
  batch_size : Z;
  max_batch_delay : Z
}.

Definition default : t := mk 50 5000 3 500000 100.

End Parameters.

(** ** [batch_maker.rs] *)

Module BatchMaker.
Section batch_maker.
Context `{MempoolCodec} `{Bincode}.
Context (batch_size : Z) (mempool_addresses : list (PublicKey * SocketAddr)) (vid : Z).

Record t := mk { current_batch : Batch; current_batch_size : Z }.

Definition spawn : t := mk [] 0.

(** A sealed batch: what is broadcast, and the message to the quorum waiter, with
    the members whose acknowledgements are awaited. *)
Record sealed := mkSealed {
  content : Batch;
  serialized : bytes;
  addresses : list SocketAddr;
  sent : bytes;
  handlers : list PublicKey
}.

Definition seal (s : t) : t * sealed :=
  let batch := current_batch s in
  let serialized := ser_mempool (BatchMsg batch) in
  (mk [] 0,
   mkSealed batch serialized (map snd mempool_addresses) (mempool_envelope vid serialized)
     (map fst mempool_addresses)).

Inductive input : Type := Transact (transaction : Transaction) | Timer.

Definition turn (i : input) (s : t) : t * list sealed :=
  match i with
  | Transact transaction =>
      let s := mk (current_batch s ++ [transaction])
                 (u64 (current_batch_size s + Z.of_nat (length transaction))) in
      if batch_size <=? current_batch_size s then
        let '(s', b) := seal s in (s', [b])
      else (s, [])
  | Timer =>
      if bool_decide (current_batch s = []) then (s, [])
      else let '(s', b) := seal s in (s', [b])
  end.

Fixpoint run (inputs : list input) (s : t) : t * list sealed :=
  match inputs with
  | [] => (s, [])
  | i :: inputs =>
      let '(s1, b1) := turn i s in
      let '(s2, b2) := run inputs s1 in
      (s2, b1 ++ b2)
  end.

End batch_maker.
End BatchMaker.

(** ** [quorum_waiter.rs] *)

Module QuorumWaiter.
Section quorum_waiter.
Context (committee : MempoolCommittee.t).

(** What a [CancelHandler] yields: the reply of the peer, or an error. *)
Definition waiter (wait_for : option string) (deliver : Stake) : Stake :=
  match wait_for with
  | Some ack => if bool_decide (ack = "Ack") then deliver else 0
  | None => 0
  end.

(** The loop of the spawned task over the handlers in the order in which they
    complete: whether the batch is delivered. *)
Fixpoint wait (total_stake : Stake) (completed : list (PublicKey * option string)) : bool :=
  match completed with
  | [] => false
  | (name, result) :: completed =>
      let total_stake := u32 (total_stake + waiter result (MempoolCommittee.stake committee name)) in
      if MempoolCommittee.quorum_threshold committee <=? total_stake then true
      else wait total_stake completed
  end.

(** The task as a whole: the batch that [run] waits for, and the spawned tasks with
    their totals.  [timeout] drops the handle of a task, which detaches it. *)
Record t := mk {
  current : option Z;
  tasks : gmap Z (bytes * Stake);
  next_task : Z
}.

Definition spawn : t := mk None ∅ 0.

Inductive input : Type :=
| Receive (batch : bytes)
| Complete (task : Z) (name : PublicKey) (result : option string)
| Exhausted (task : Z)
| TimedOut.

(** A turn, with the batches sent to the processor. *)
Definition turn (stake : Stake) (i : input) (s : t) : t * list bytes :=
  match i with
  | Receive batch =>
      match current s with
      | None => (mk (Some (next_task s)) (<[next_task s := (batch, stake)]> (tasks s))
                  (next_task s + 1), [])
      | Some _ => (s, [])
      end
  | Complete task name result =>
      match tasks s !! task with
      | Some (batch, total_stake) =>
          let total_stake :=
            u32 (total_stake + waiter result (MempoolCommittee.stake committee name)) in
          if MempoolCommittee.quorum_threshold committee <=? total_stake then
            (mk (if bool_decide (current s = Some task) then None else current s)
               (delete task (tasks s)) (next_task s), [batch])
          else (mk (current s) (<[task := (batch, total_stake)]> (tasks s)) (next_task s), [])
      | None => (s, [])
      end
  | Exhausted task =>
      (mk (if bool_decide (current s = Some task) then None else current s)
         (delete task (tasks s)) (next_task s), [])
  | TimedOut => (mk None (tasks s) (next_task s), [])
  end.

End quorum_waiter.
End QuorumWaiter.

(** ** [processor.rs] *)

Module Processor.
Section processor.
Context `{MempoolCodec} `{Rocksdb Digest bytes}.

(** The batch is stored, then its digest goes to the consensus. *)
Definition turn (batch : bytes) (st : Store.t Digest bytes)
  : Store.t Digest bytes * Digest :=
  let digest := batch_digest batch in
  (fst (Store.write st digest batch), digest).

Fixpoint run (batches : list bytes) (st : Store.t Digest bytes)
  : Store.t Digest bytes * list Digest :=
  match batches with
  | [] => (st, [])
  | batch :: batches =>
      let '(st1, d) := turn batch st in
      let '(st2, ds) := run batches st1 in
      (st2, d :: ds)
  end.

End processor.
End Processor.

(** ** [helper.rs] *)

Module MempoolHelper.
Section helper.
Context `{Bincode} `{Rocksdb Digest bytes} (committee : MempoolCommittee.t) (vid : Z).

Definition on_request (st : Store.t Digest bytes) (digests : list Digest) (origin : PublicKey)
  : list net :=
  match MempoolCommittee.mempool_address committee origin with
  | None => []
  | Some address =>
      omap (fun digest =>
              match Store.read st digest with
              | inr (Some data) => Some (NetFeed address (mempool_envelope vid data))
              | _ => None
              end) digests
      ++ [NetFlush [address]]
  end.

End helper.
End MempoolHelper.

(** ** [mempool.rs]: the dispatch of received messages *)

Module MempoolReceiverHandler.
Section handler.
Context `{MempoolCodec}.

Inductive routed : Type :=
| ToProcessor (serialized : bytes)
| ToHelper (missing : list Digest) (requestor : PublicKey).

(** The acknowledgement is sent before the message is parsed. *)
Definition dispatch (serialized : bytes) : list string * list routed :=
  (["Ack"],
   match de_mempool serialized with
   | Some (BatchMsg _) => [ToProcessor serialized]
   | Some (BatchRequest missing requestor) => [ToHelper missing requestor]
   | None => []
   end).

End handler.
End MempoolReceiverHandler.

Module TxReceiverHandler.

Definition dispatch (message : bytes) : list Transaction := [message].

End TxReceiverHandler.

(** ** [synchronizer.rs] *)

Module BatchSynchronizer.
Section synchronizer.
Context `{MempoolCodec} `{Bincode}.
Context (name : PublicKey) (committee : MempoolCommittee.t) (vid gc_depth sync_retry_delay : Z).

Definition TIMER_RESOLUTION : Z := 2000.

(** A waiter is its digest and cancel channel; [pending] holds the round of the
    registration, the sender of the channel and the time of the last request. *)
Record t := mk {
  round : Round;
  waiting : list (Digest * Z);
  pending : gmap Digest (Round * Z * Z);
  next_channel : Z
}.

Definition spawn : t := mk 0 [] ∅ 0.

(** The loop over the digests of [Synchronize]. *)
Fixpoint register (now : Z) (digests : list Digest) (s : t) : t * list Digest :=
  match digests with
  | [] => (s, [])
  | digest :: digests =>
      match pending s !! digest with
      | Some _ => register now digests s
      | None =>
          let s1 := mk (round s) (waiting s ++ [(digest, next_channel s)])
                      (<[digest := (round s, next_channel s, now)]> (pending s))
                      (next_channel s + 1) in
          let '(s2, missing) := register now digests s1 in
          (s2, digest :: missing)
      end
  end.

Definition request (address : SocketAddr) (missing : list Digest) : net :=
  NetFeed address (mempool_envelope vid (ser_mempool (BatchRequest missing name))).

Definition on_message (now : Z) (m : ConsensusMempoolMessage) (s : t) : t * list net :=
  match m with
  | Synchronize digests target =>
      let '(s, missing) := register now digests s in
      match MempoolCommittee.mempool_address committee target with
      | Some address => (s, [request address missing])
      | None => (s, [])
      end
  | CleanupMempool r =>
      let s := mk r (waiting s) (pending s) (next_channel s) in
      if r <? gc_depth then (s, [])
      else
        let gc_round := r - gc_depth in
        (mk r (waiting s) (filter (fun kv => gc_round < kv.2.1.1) (pending s))
           (next_channel s), [])
  end.

Inductive waited : Type := Arrived | Cancelled | Failed (e : StoreError).

Definition on_result (i : nat) (w : waited) (s : t) : t :=
  match waiting s !! i with
  | None => s
  | Some (digest, _) =>
      let rest := delete i (waiting s) in
      match w with
      | Arrived => mk (round s) rest (delete digest (pending s)) (next_channel s)
      | _ => mk (round s) rest (pending s) (next_channel s)
      end
  end.

(** The timer: [flushed] is whether the flush ended in time, [order] the order in
    which the map is traversed, [lucky] the addresses that the random choice
    leaves. *)
Definition overdue (now : Z) (s : t) (digest : Digest) : bool :=
  match pending s !! digest with
  | Some (_, _, timestamp) => timestamp + sync_retry_delay <? now
  | None => false
  end.

Definition on_timer (now : Z) (flushed : bool) (order : list Digest) (lucky : list SocketAddr)
  (s : t) : t * list net :=
  let addresses := map snd (MempoolCommittee.broadcast_addresses committee name) in
  if flushed then
    let retry := filter (fun d => overdue now s d = true) order in
    (mk (round s) (waiting s)
       ((fun p => if p.2 + sync_retry_delay <? now then (p.1, now) else p) <$> pending s)
       (next_channel s),
     NetFlush addresses ::
     (if bool_decide (retry = []) then []
      else [NetBroadcastFeed lucky
              (mempool_envelope vid (ser_mempool (BatchRequest retry name)))]))
  else (s, [NetFlush addresses]).

End synchronizer.
End BatchSynchronizer.

(** ** Batches partition the transactions *)

Section batches.
Context `{MempoolCodec} `{!MempoolCodecRoundTrip} `{Bincode} `{!BincodeRoundTrip}.
Context (batch_size : Z) (mempool_addresses : list (PublicKey * SocketAddr)) (vid : Z).
Import BatchMaker.

Definition transactions (inputs : list input) : list Transaction :=
  omap (fun i => match i with Transact tx => Some tx | Timer => None end) inputs.

Definition size_of (b : Batch) : Z := zsum (fun tx => Z.of_nat (length tx)) b.

(** The open batch has not reached its size. *)
Definition open_ok (s : t) : Prop :=
  current_batch_size s = size_of (current_batch s) /\ size_of (current_batch s) < batch_size.

(** A sealed batch: not empty, below its size before the last transaction, and
    decoded by every receiver to what was sealed. *)
Definition sealed_ok (b : sealed) : Prop :=
  content b <> [] /\ size_of (removelast (content b)) < batch_size /\
  addresses b = map snd mempool_addresses /\ handlers b = map fst mempool_addresses /\
  exists m, de_dvf (sent b) = Some m /\ version m = VERSION /\ validator_id m = vid /\
    message m = serialized b /\ de_mempool (message m) = Some (BatchMsg (content b)).

Lemma size_of_nonneg b : 0 <= size_of b.
Proof using Type. apply zsum_nonneg. lia. Qed.

Lemma seal_ok s :
  current_batch s <> [] -> size_of (removelast (current_batch s)) < batch_size ->
  sealed_ok (snd (seal mempool_addresses vid s)).
Proof using All.
  intros Hne Hsz. split_and!; try done. eexists. simpl. unfold mempool_envelope.
  rewrite de_ser_dvf. split_and!; try done. simpl. apply de_ser_mempool.
Qed.

Lemma turn_ok i s :
  0 < batch_size < 2 ^ 63 ->
  (forall tx, i = Transact tx -> Z.of_nat (length tx) < 2 ^ 63) -> open_ok s ->
  let '(s', bs) := turn batch_size mempool_addresses vid i s in
  open_ok s' /\ Forall sealed_ok bs /\
  concat (map content bs) ++ current_batch s' = current_batch s ++ transactions [i].
Proof using All.
  intros Hb Hlen [Hsz Hlt]. pose proof (size_of_nonneg (current_batch s)) as Hnn.
  assert (open_ok (BatchMaker.mk [] 0)) as Hnew by (split; [done|simpl; lia]).
  destruct i as [tx|]; simpl.
  - specialize (Hlen tx eq_refl).
    assert (u64 (current_batch_size s + Z.of_nat (length tx))
      = size_of (current_batch s ++ [tx])) as Hu.
    { unfold size_of. rewrite zsum_app. simpl. rewrite Z.add_0_r. fold (size_of (current_batch s)).
      rewrite Hsz. apply u64_id. unfold is_u64, u64_max. lia. }
    rewrite Hu. destruct (batch_size <=? _) eqn:Hfull.
    + split; [done|]. split.
      * constructor; [|done]. apply (seal_ok (BatchMaker.mk (current_batch s ++ [tx])
          (size_of (current_batch s ++ [tx])))); simpl.
        -- by destruct (current_batch s).
        -- by rewrite removelast_last.
      * simpl. by rewrite !app_nil_r.
    + split; [|by split]. split; simpl; [done|lia].
  - case_bool_decide as He.
    + split; [done|]. split; [done|]. by rewrite app_nil_r.
    + split; [done|]. split.
      * constructor; [|done]. apply seal_ok; [done|].
        assert (size_of (removelast (current_batch s)) <= size_of (current_batch s)); [|lia].
        rewrite (app_removelast_last [] He) at 2. unfold size_of. rewrite zsum_app. simpl. lia.
      * simpl. by rewrite !app_nil_r.
Qed.

Lemma run_partition inputs s :
  0 < batch_size < 2 ^ 63 ->
  open_ok s ->
  Forall (fun tx => Z.of_nat (length tx) < 2 ^ 63) (transactions inputs) ->
  let '(s', bs) := run batch_size mempool_addresses vid inputs s in
  concat (map content bs) ++ current_batch s' = current_batch s ++ transactions inputs /\
  Forall sealed_ok bs /\ open_ok s'.
Proof.
  intros Hb. revert s. induction inputs as [|i inputs IH]; intros s Hs Htx.
  { simpl. rewrite app_nil_r. done. }
  cbn [run]. assert (forall tx, i = Transact tx -> Z.of_nat (length tx) < 2 ^ 63) as Hi.
  { intros tx ->. by apply Forall_cons in Htx as [? _]. }
  pose proof (turn_ok i s Hb Hi Hs) as Ht.
  destruct (turn batch_size mempool_addresses vid i s) as [s1 b1].
  destruct Ht as (Hs1 & Hb1 & He1).
  assert (transactions (i :: inputs) = transactions [i] ++ transactions inputs) as Htr
    by by destruct i.
  specialize (IH s1 Hs1). destruct (run batch_size mempool_addresses vid inputs s1) as [s2 b2].
  destruct IH as (He2 & Hb2 & Hs2).
  { rewrite Htr in Htx. by apply Forall_app in Htx as [_ ?]. }
  split_and!; [|by apply Forall_app|done].
  rewrite map_app, concat_app, <- app_assoc, He2, app_assoc, He1, Htr. by rewrite app_assoc.
Qed.

(** C32: whatever the sequence of transactions and timer ticks, the contents of the
    sealed batches followed by the open batch are exactly the transactions in the
    order of their arrival; no sealed batch is empty, each was below the preferred
    size before its last transaction, and every receiver of its broadcast decodes
    it to its contents. *)
Theorem batches_partition_transactions inputs :
  0 < batch_size < 2 ^ 63 ->
  Forall (fun tx => Z.of_nat (length tx) < 2 ^ 63) (transactions inputs) ->
  let '(s, bs) := run batch_size mempool_addresses vid inputs spawn in
  concat (map content bs) ++ current_batch s = transactions inputs /\
  Forall sealed_ok bs /\ open_ok s.
Proof.
  intros Hb Htx. apply (run_partition inputs spawn Hb); [|done]. split; [done|simpl; lia].
Qed.

End batches.

(** ** A delivered batch is held by a quorum *)

Section quorum.
Context (c : MempoolCommittee.t) (Hc : well_formed c).
Import QuorumWaiter.

(** The members that acknowledged with "Ack". *)
Definition acked (completed : list (PublicKey * option string)) : list PublicKey :=
  map fst (filter (fun x => x.2 = Some "Ack") completed).

Lemma stake_of_mempool name : stake_of c name = MempoolCommittee.stake c name.
Proof using Type.
  unfold stake_of, MempoolCommittee.stake. simpl. rewrite lookup_fmap.
  by destruct (MempoolCommittee.authorities c !! name).
Qed.

Lemma waiter_stake name r :
  waiter r (MempoolCommittee.stake c name)
  = if decide (r = Some "Ack") then stake_of c name else 0.
Proof using Type.
  rewrite stake_of_mempool. destruct r as [ack|]; simpl; [|done].
  case_bool_decide; case_decide; simplify_eq; try done.
Qed.

(** The stake of a sequence of completions. *)
Definition gained (completed : list (PublicKey * option string)) : Z :=
  zsum (fun x => waiter x.2 (MempoolCommittee.stake c x.1)) completed.

Lemma gained_acked completed : gained completed = zsum (stake_of c) (acked completed).
Proof using Type.
  unfold gained, acked. induction completed as [|[name r] completed IH]; [done|]. simpl.
  rewrite filter_cons, waiter_stake. simpl. case_decide; simpl; lia.
Qed.

Lemma gained_nonneg completed : 0 <= gained completed.
Proof using Hc.
  rewrite gained_acked. apply zsum_nonneg. intros. by apply stake_of_nonneg.
Qed.

Lemma wait_spec total completed :
  0 <= total -> total + gained completed <= u32_max ->
  wait c total completed = true <->
  completed <> [] /\ MempoolCommittee.quorum_threshold c <= total + gained completed.
Proof using Hc.
  revert total. induction completed as [|[name r] completed IH]; intros total H0 Hmax.
  { split; [done|]. by intros [? _]. }
  pose proof (gained_nonneg completed) as Hg. cbn [wait].
  assert (0 <= waiter r (MempoolCommittee.stake c name)) as Hw.
  { rewrite waiter_stake. case_decide; [by apply stake_of_nonneg|lia]. }
  assert (gained ((name, r) :: completed)
    = waiter r (MempoolCommittee.stake c name) + gained completed) as Hgc by done.
  rewrite Hgc in Hmax |- *. rewrite u32_id by (unfold is_u32; lia).
  destruct (_ <=? _) eqn:Hq.
  - apply Z.leb_le in Hq. split; [|done]. intros _. split; [done|lia].
  - apply Z.leb_gt in Hq. rewrite IH by lia. split.
    + intros [_ ?]. split; [done|lia].
    + intros [_ Hle]. split; [|lia]. intros ->. unfold gained in *. simpl in *. lia.
Qed.

(** The quorum waiter hands a batch to the processor exactly when some peer has
    answered and the member itself together with the peers that answered "Ack"
    holds a quorum; and then, whichever members of at most [f] stake are faulty,
    more than [f] stake of correct members holds the batch. *)
Theorem delivered_batch_has_quorum own completed :
  own ∈ members c -> NoDup (own :: map fst completed) ->
  (forall name, name ∈ map fst completed -> name ∈ members c) ->
  let holders : gset PublicKey := {[own]} ∪ list_to_set (acked completed) in
  (wait c (MempoolCommittee.stake c own) completed = true <->
   completed <> [] /\ MempoolCommittee.quorum_threshold c <= weight c holders) /\
  (wait c (MempoolCommittee.stake c own) completed = true ->
   forall faulty, weight c faulty <= max_faulty c ->
   max_faulty c < weight c (holders ∖ faulty)).
Proof using Hc.
  intros Hown Hnd Hmem holders.
  assert (NoDup (own :: acked completed)) as Hnd'.
  { apply NoDup_cons in Hnd as [Hn Hnd]. apply NoDup_cons. unfold acked.
    assert (map fst (filter (fun x => x.2 = Some "Ack") completed)
      `sublist_of` map fst completed) as Hsub by apply (fmap_sublist fst), sublist_filter.
    split; [|by eapply sublist_NoDup]. intros Hin. apply Hn.
    by eapply sublist_subseteq. }
  assert (weight c holders = MempoolCommittee.stake c own + gained completed) as Hweight.
  { unfold holders, weight. change ({[own]} ∪ list_to_set (acked completed) : gset PublicKey)
      with (list_to_set (own :: acked completed) : gset PublicKey).
    rewrite (weight_of_list (stake_of c)) by done. simpl.
    by rewrite gained_acked, stake_of_mempool. }
  assert (holders ⊆ members c) as Hsub.
  { unfold holders. intros x [->%elem_of_singleton|Hx%elem_of_list_to_set]%elem_of_union; [done|].
    apply Hmem. unfold acked in Hx. eapply sublist_subseteq; [|exact Hx].
    apply (fmap_sublist fst), sublist_filter. }
  pose proof (weight_le_total c holders Hc Hsub) as Htot.
  destruct Hc as [_ Hrange]. pose proof (stake_of_nonneg c own Hc) as Hpos.
  rewrite stake_of_mempool in Hpos.
  assert (wait c (MempoolCommittee.stake c own) completed = true <->
   completed <> [] /\ MempoolCommittee.quorum_threshold c <= weight c holders) as Hiff.
  { rewrite Hweight. apply wait_spec; [done|]. rewrite <- Hweight. unfold u32_max. lia. }
  split; [done|]. intros [_ Hq]%Hiff faulty Hf.
  pose proof (weight_of_split (stake_of c) holders faulty) as Hsplit.
  assert (weight_of (stake_of c) (holders ∩ faulty) <= weight_of (stake_of c) faulty) as Hle.
  { apply weight_of_mono; [intros; by apply stake_of_nonneg|]. apply intersection_subseteq_r. }
  pose proof (quorum_value c Hc) as Hqv. simpl in Hqv. unfold max_faulty, weight in *.
  set (n := total_stake c) in *. clearbody n.
  assert (2 * n / 3 + 1 - (n - 1) / 3 > (n - 1) / 3); [|lia].
  Z.div_mod_to_equations. lia.
Qed.

(** A timeout does not drop the batch: the spawned task keeps counting
    acknowledgements, so a batch whose quorum completes after the twelve seconds
    is delivered all the same. *)
Theorem timed_out_batch_still_delivered stake s task batch total name :
  tasks s !! task = Some (batch, total) -> current s = Some task ->
  MempoolCommittee.quorum_threshold c <= u32 (total + MempoolCommittee.stake c name) ->
  let s' := fst (turn c stake TimedOut s) in
  current s' = None /\
  snd (turn c stake (Complete task name (Some "Ack")) s') = [batch].
Proof using Type.
  intros Ht Hcur Hq. simpl. split; [done|]. rewrite Ht. simpl.
  by rewrite (proj2 (Z.leb_le _ _) Hq).
Qed.

End quorum.

(** ** Requests for missing batches *)

Section requests.
Context `{MempoolCodec} `{Bincode}.
Context (name : PublicKey) (committee : MempoolCommittee.t) (vid gc_depth sync_retry_delay : Z).
Import BatchSynchronizer.

Lemma register_spec now digests s :
  let '(s', missing) := register now digests s in
  NoDup missing /\
  (forall d, d ∈ missing <-> d ∈ digests /\ pending s !! d = None) /\
  (forall d p, pending s !! d = Some p -> pending s' !! d = Some p) /\
  (forall d, is_Some (pending s' !! d) <-> is_Some (pending s !! d) \/ d ∈ digests) /\
  map fst (waiting s') = map fst (waiting s) ++ missing /\ round s' = round s /\
  (forall d, d ∈ missing -> exists ch, pending s' !! d = Some (round s, ch, now)).
Proof using Type.
  revert s. induction digests as [|d digests IH]; intros s; cbn [register].
  { split_and!; try done; try constructor; rewrite ?app_nil_r; try done.
    - by intros ?%elem_of_nil.
    - by intros [?%elem_of_nil _].
    - by left.
    - by intros [?|?%elem_of_nil].
    - by intros d ?%elem_of_nil. }
  destruct (pending s !! d) as [p|] eqn:Hd.
  - specialize (IH s). destruct (register now digests s) as [s' missing].
    destruct IH as (Hnd & Hm & Hk & Hp & Hw & Hr & Hnew). split_and!; try done.
    + intros d'. rewrite Hm, elem_of_cons. split; [naive_solver|].
      intros [[->|?] ?]; [congruence|done].
    + intros d'. rewrite Hp, elem_of_cons. split; [naive_solver|].
      intros [?|[->|?]]; [by left|left; by eexists|by right].
  - set (s1 := mk (round s) (waiting s ++ [(d, next_channel s)])
      (<[d:=(round s, next_channel s, now)]> (pending s)) (next_channel s + 1)).
    specialize (IH s1). destruct (register now digests s1) as [s' missing].
    destruct IH as (Hnd & Hm & Hk & Hp & Hw & Hr & Hnew). simpl in *.
    assert (forall d', pending s1 !! d' = None <-> d' <> d /\ pending s !! d' = None) as Hs1.
    { intros d'. simpl. rewrite lookup_insert_None. naive_solver. }
    split_and!; try done.
    + apply NoDup_cons. split; [|done]. intros [_ Hn]%Hm. apply Hs1 in Hn as [? _]. done.
    + intros d'. rewrite elem_of_cons, Hm, elem_of_cons. simpl in Hs1. rewrite Hs1.
      destruct (decide (d' = d)) as [->|]; naive_solver.
    + intros d' p Hd'. apply Hk. rewrite lookup_insert_ne; [done|]. congruence.
    + intros d'. rewrite Hp, elem_of_cons. destruct (decide (d' = d)) as [->|Hne].
      * rewrite lookup_insert_eq. naive_solver.
      * rewrite lookup_insert_ne by done. naive_solver.
    + rewrite Hw, map_app. simpl. by rewrite <- app_assoc.
    + intros d' [->|Hd']%elem_of_cons; [|by apply Hnew]. exists (next_channel s).
      apply Hk. apply lookup_insert_eq.
Qed.

(** The mempool asks for each missing batch once: a request of the consensus
    is sent to the named operator for exactly the digests that are not pending yet,
    each of them once, and all of them are pending afterwards; a cleanup for round
    [r] forgets exactly the digests registered [gc_depth] rounds before; and the
    timer repeats a request only for a pending digest whose last request is older
    than the retry delay. *)
Theorem batch_requests_once now s :
  (forall digests target address,
     MempoolCommittee.mempool_address committee target = Some address ->
     let '(s', out) := on_message name committee vid gc_depth now (Synchronize digests target) s in
     exists missing, out = [request name vid address missing] /\ NoDup missing /\
       (forall d, d ∈ missing <-> d ∈ digests /\ pending s !! d = None) /\
       (forall d, is_Some (pending s' !! d) <-> is_Some (pending s !! d) \/ d ∈ digests) /\
       map fst (waiting s') = map fst (waiting s) ++ missing) /\
  (forall r d p,
     let s' := fst (on_message name committee vid gc_depth now (CleanupMempool r) s) in
     round s' = r /\
     (pending s' !! d = Some p <->
      pending s !! d = Some p /\ (r < gc_depth \/ r - gc_depth < p.1.1))) /\
  (forall flushed order lucky addresses data,
     NetBroadcastFeed addresses data
       ∈ snd (on_timer name committee vid sync_retry_delay now flushed order lucky s) ->
     addresses = lucky /\ exists retry, retry <> [] /\
       data = mempool_envelope vid (ser_mempool (BatchRequest retry name)) /\
       forall d, d ∈ retry -> d ∈ order /\
         exists r ch ts, pending s !! d = Some (r, ch, ts) /\ ts + sync_retry_delay < now).
Proof using Type.
  split_and!.
  - intros digests target address Ha. simpl. pose proof (register_spec now digests s) as Hr.
    destruct (register now digests s) as [s' missing]. rewrite Ha.
    destruct Hr as (Hnd & Hm & _ & Hp & Hw & _ & _). by exists missing.
  - intros r d p. simpl. destruct (r <? gc_depth) eqn:Hr; simpl.
    + split; [done|]. apply Z.ltb_lt in Hr. naive_solver.
    + apply Z.ltb_ge in Hr. split; [done|]. rewrite map_lookup_filter_Some. simpl.
      split; [naive_solver|]. intros [? [?|?]]; [lia|done].
  - intros flushed order lucky addresses data. unfold on_timer. destruct flushed; simpl.
    2: { by intros [= ]%list_elem_of_singleton. }
    intros [[= ]|Hin]%elem_of_cons. case_bool_decide as Hne; [by apply elem_of_nil in Hin|].
    apply list_elem_of_singleton in Hin. injection Hin as -> ->. split; [done|].
    eexists. split; [exact Hne|]. split; [done|].
    intros d [Ho Hd]%list_elem_of_filter. split; [done|]. unfold overdue in Ho.
    destruct (pending s !! d) as [[[r ch] ts]|]; [|done]. apply Z.ltb_lt in Ho. eauto 6.
Qed.

End requests.

(** ** A requested batch arrives under its digest *)

Section batch_round_trip.
Context `{MempoolCodec} `{!MempoolCodecRoundTrip} `{Bincode} `{!BincodeRoundTrip}.
Context `{Rocksdb Digest bytes} `{!RocksdbReliable Digest bytes}.
Context (committee : MempoolCommittee.t) (vid : Z).

(** From the transactions to the store of another operator: the processor
    stores a batch before it announces its digest; a member that asks the helper
    for the digest is sent the batch; its own dispatcher hands the bytes to its
    processor, which stores them under the same digest. *)
Theorem requested_batch_arrives st st' origin address batch :
  Store.running st = true -> Store.running st' = true ->
  MempoolCommittee.mempool_address committee origin = Some address ->
  let data := ser_mempool (BatchMsg batch) in
  let '(holder, digest) := Processor.turn data st in
  Store.read holder digest = inr (Some data) /\
  exists sent m,
    MempoolHelper.on_request committee vid holder [digest] origin
    = [NetFeed address sent; NetFlush [address]] /\
    de_dvf sent = Some m /\ version m = VERSION /\ validator_id m = vid /\
    snd (MempoolReceiverHandler.dispatch (message m))
    = [MempoolReceiverHandler.ToProcessor data] /\
    let '(asker, digest') := Processor.turn data st' in
    digest' = digest /\ Store.read asker digest = inr (Some data).
Proof using All.
  intros Hr Hr' Ha data. simpl.
  assert (forall s, Store.running s = true ->
    Store.read (fst (Store.write s (batch_digest data) data)) (batch_digest data)
    = inr (Some data)) as Hread.
  { intros s Hs. unfold Store.read, Store.write, Store.exec. rewrite Hs.
    destruct (Store.obligations s !! batch_digest data); simpl; by rewrite put_get. }
  split; [by apply Hread|]. exists (mempool_envelope vid data).
  eexists. unfold MempoolHelper.on_request. rewrite Ha. simpl. rewrite Hread by done.
  unfold mempool_envelope. rewrite de_ser_dvf. split_and!; try done.
  - simpl. unfold data. by rewrite de_ser_mempool.
  - by apply Hread.
Qed.

End batch_round_trip.

(** ** Concrete runs *)

Section witness.
#[local] Existing Instances ideal_bincode ideal_round_trip memory_db memory_db_reliable.

#[local, refine] Instance flat_MempoolMessage : Flat MempoolMessage := {|
  put m :=
    match m with
    | BatchMsg b => 0 :: put b
    | BatchRequest d p => 1 :: put (d, p)
    end;
  take_front l :=
    match l with
    | 0 :: l => match take_front l with Some (b, l) => Some (BatchMsg b, l) | None => None end
    | 1 :: l =>
        match take_front l with Some ((d, p), l) => Some (BatchRequest d p, l) | None => None end
    | _ => None
    end
|}.
Proof. intros [] l; cbn -[take_front put]; by rewrite ?take_put. Defined.

Definition ideal_mempool : MempoolCodec := {|
  ser_mempool := put; de_mempool := flat_de; batch_digest l := Zpos (encode l)
|}.
#[local] Existing Instance ideal_mempool.

Lemma ideal_mempool_round_trip : MempoolCodecRoundTrip.
Proof. split. intros m. apply (flat_de_put m). Qed.
#[local] Existing Instance ideal_mempool_round_trip.

Definition demo_addresses : list (PublicKey * SocketAddr) := [(12, mkSocketAddr 1 80)].
Definition demo_inputs : list BatchMaker.input :=
  [BatchMaker.Transact [1; 2]; BatchMaker.Transact [3; 4]; BatchMaker.Timer;
   BatchMaker.Transact [5]; BatchMaker.Timer].

Lemma batches_partition_transactions_witness :
  concat (map BatchMaker.content (snd (BatchMaker.run 4 demo_addresses 7 demo_inputs BatchMaker.spawn)))
  = [[1; 2]; [3; 4]; [5]].
Proof.
  pose proof (batches_partition_transactions 4 demo_addresses 7 demo_inputs) as Hp.
  rewrite (surjective_pairing (BatchMaker.run 4 demo_addresses 7 demo_inputs BatchMaker.spawn))
    in Hp. destruct Hp as [Hp _].
  - split; vm_compute; reflexivity.
  - change (transactions demo_inputs) with [[1; 2]; [3; 4]; [5]].
    repeat (apply Forall_cons; split; [vm_compute; reflexivity|]). apply Forall_nil. exact I.
  - replace (BatchMaker.current_batch (fst (BatchMaker.run 4 demo_addresses 7 demo_inputs
      BatchMaker.spawn))) with ([] : Batch) in Hp by (vm_compute; reflexivity).
    rewrite app_nil_r in Hp. exact Hp.
Defined.

Definition demo_mempool : MempoolCommittee.t :=
  MempoolCommittee.new (map (fun n => (n, 1, mkSocketAddr n 1, mkSocketAddr n 2, mkSocketAddr n 3))
    [11; 12; 13; 14]) 1.

Lemma demo_mempool_well_formed : well_formed demo_mempool.
Proof.
  split; [|vm_compute; split; reflexivity]. intros name s Hs.
  assert (map_Forall (fun _ s => 0 <= s) (qs_stakes demo_mempool)) as Hall.
  { apply map_Forall_to_list. vm_compute. repeat constructor; discriminate. }
  by apply (Hall name).
Qed.

Definition demo_acks : list (PublicKey * option string) :=
  [(12, Some "Ack"); (13, Some "No handler found"); (14, Some "Ack")].

Lemma delivered_batch_has_quorum_witness :
  MempoolCommittee.quorum_threshold demo_mempool
  <= weight demo_mempool ({[11]} ∪ list_to_set (acked demo_acks)).
Proof.
  apply (delivered_batch_has_quorum demo_mempool demo_mempool_well_formed 11 demo_acks).
  - apply (bool_decide_unpack _). vm_compute. exact I.
  - apply (bool_decide_unpack _). vm_compute. exact I.
  - intros name Hn. unfold demo_acks in Hn. simpl in Hn. rewrite !elem_of_cons in Hn.
    destruct Hn as [->|[->|[->|Hn]]]; [..|by apply elem_of_nil in Hn];
      apply (bool_decide_unpack _); vm_compute; exact I.
  - vm_compute. reflexivity.
Defined.

Definition demo_waiter : QuorumWaiter.t := QuorumWaiter.mk (Some 0) {[0 := ([9], 2)]} 1.

Lemma timed_out_batch_still_delivered_witness :
  snd (QuorumWaiter.turn demo_mempool 1 (QuorumWaiter.Complete 0 14 (Some "Ack"))
    (fst (QuorumWaiter.turn demo_mempool 1 QuorumWaiter.TimedOut demo_waiter))) = [[9]].
Proof.
  apply (timed_out_batch_still_delivered demo_mempool 1 demo_waiter 0 [9] 2 14).
  - vm_compute. reflexivity.
  - reflexivity.
  - vm_compute. discriminate.
Defined.

Lemma requested_batch_arrives_witness :
  Store.read (fst (Processor.turn (ser_mempool (BatchMsg [[1]])) empty_store))
    (batch_digest (ser_mempool (BatchMsg [[1]]))) = inr (Some (ser_mempool (BatchMsg [[1]]))).
Proof.
  exact (proj1 (requested_batch_arrives demo_mempool 7 empty_store empty_store 12
    (mkSocketAddr 12 2) [[1]] eq_refl eq_refl ltac:(vm_compute; reflexivity))).
Defined.

End witness.
