(* ===== verification/Primality.v ===== *)
(** * A primality test

    Lucas' test, as a computation: [n] is prime when the powers of a base
    modulo [n] are 1 at the exponent [n - 1] and differ from 1, in every prime
    factor of [n], at the exponents [(n - 1) / p] for the prime factors [p] of
    [n - 1].  The factorisation is given as a tree of prime powers, the small
    primes are checked by trial division and the powers are computed on machine
    words.  It serves the curve order of the threshold signatures. *)

From Stdlib Require Import Zmod Zcong Zdivisibility.
From Bignums Require Import BigN.BigN.
From S2P Require Import Prelude.

#[local] Open Scope Z_scope.

(** ** Powers modulo a number *)

(** [a ^ e mod n] by squaring. *)
Fixpoint big_pow_mod (a n : BigN.t) (e : positive) : BigN.t :=
  match e with
  | xH => BigN.modulo a n
  | xO e => let s := big_pow_mod a n e in BigN.modulo (BigN.mul s s) n
  | xI e =>
      let s := big_pow_mod a n e in
      BigN.modulo (BigN.mul a (BigN.modulo (BigN.mul s s) n)) n
  end.

Lemma big_pow_mod_spec a n e :
  BigN.to_Z (big_pow_mod a n e) = BigN.to_Z a ^ Zpos e mod BigN.to_Z n.
Proof.
  induction e as [e IH|e IH|]; simpl big_pow_mod;
    rewrite !BigN.spec_modulo, ?BigN.spec_mul, ?BigN.spec_modulo,
      ?BigN.spec_mul, ?IH.
  - rewrite <- Zmult_mod, Zmult_mod_idemp_r.
    f_equal. rewrite Pos2Z.inj_xI, Z.pow_add_r, Z.pow_twice_r by lia. lia.
  - rewrite <- Zmult_mod. f_equal.
    rewrite Pos2Z.inj_xO, Z.pow_twice_r. lia.
  - by rewrite Z.pow_1_r.
Qed.

Definition pos_pow_mod (a n : Z) (e : positive) : Z :=
  BigN.to_Z (big_pow_mod (BigN.of_N (Z.to_N a)) (BigN.of_N (Z.to_N n)) e).

Lemma pos_pow_mod_spec a n e :
  0 <= a -> 0 <= n -> pos_pow_mod a n e = a ^ Zpos e mod n.
Proof.
  intros Ha Hn. unfold pos_pow_mod.
  by rewrite big_pow_mod_spec, !BigN.spec_of_N, !Z2N.id by done.
Qed.

(** ** Prime numbers *)

(** Trial division by the numbers from [d] on. *)
Fixpoint no_divisor (fuel : nat) (d n : Z) : bool :=
  match fuel with
  | O => true
  | S fuel => negb (n mod d =? 0) && no_divisor fuel (d + 1) n
  end.

Definition trial_prime (n : Z) : bool :=
  (1 <? n) && no_divisor (Z.to_nat (Z.sqrt n - 1)) 2 n.

Lemma no_divisor_spec fuel d n k :
  no_divisor fuel d n = true -> d <= k < d + Z.of_nat fuel -> ~ (k | n).
Proof.
  revert d. induction fuel as [|fuel IH]; intros d; [lia|]. simpl.
  intros [Hd Hn]%andb_true_iff Hk Hdiv. destruct (decide (k = d)) as [->|].
  - apply negb_true_iff, Z.eqb_neq in Hd. by apply Hd, Z.mod0_divide.
  - apply (IH (d + 1) Hn); [lia|done].
Qed.

Lemma trial_prime_spec n : trial_prime n = true -> Z.prime n.
Proof.
  intros [Hn Ht]%andb_true_iff. apply Z.ltb_lt in Hn. split; [done|].
  intros k Hk [j Hj]. pose proof (Z.sqrt_spec n ltac:(lia)) as Hs.
  pose proof (Z.sqrt_nonneg n).
  assert (2 <= j) by nia.
  destruct (Z.le_gt_cases k (Z.sqrt n)); [|assert (j <= Z.sqrt n)].
  2: { destruct (Z.le_gt_cases j (Z.sqrt n)); [done|].
       pose proof (Z.mul_le_mono_nonneg (Z.sqrt n + 1) j (Z.sqrt n + 1) k
         ltac:(lia) ltac:(lia) ltac:(lia) ltac:(lia)).
       rewrite <- Hj in *. unfold Z.succ in Hs. lia. }
  - eapply (no_divisor_spec _ 2 n k Ht); [lia|]. exists j. lia.
  - eapply (no_divisor_spec _ 2 n j Ht); [lia|]. exists k. lia.
Qed.

Lemma prime_or_divisor n : 1 < n -> Z.prime n \/ exists k, 1 < k < n /\ (k | n).
Proof.
  intros Hn. destruct (decide (Exists (fun k => n mod k = 0) (seqZ 2 (n - 2))))
    as [(k & Hk & Hm)%Exists_exists|Hno].
  - right. exists k. apply elem_of_seqZ in Hk. split; [lia|].
    apply Z.mod_divide; [lia|done].
  - left. split; [done|]. intros k Hk Hd. apply Hno, Exists_exists.
    exists k. split; [apply elem_of_seqZ; lia|by apply Z.mod0_divide].
Qed.

Lemma prime_divisor n : 1 < n -> exists p, Z.prime p /\ (p | n).
Proof.
  intros Hn. revert Hn. pattern n. apply (well_founded_ind (Z.lt_wf 0)).
  clear n. intros n IH Hn.
  destruct (prime_or_divisor n Hn) as [Hp|(k & Hk & Hd)].
  - exists n. split; [done|apply Z.divide_refl].
  - destruct (IH k ltac:(lia) ltac:(lia)) as (p & Hp & Hpk).
    exists p. split; [done|by etransitivity].
Qed.

Section lucas.
Context (n a : Z) (Hn : 1 < n) (Hone : a ^ (n - 1) mod n = 1).
Context (Hother : forall p, Z.prime p -> (p | n - 1) ->
  Z.gcd (a ^ ((n - 1) / p) - 1) n = 1).

Lemma pow_one_mod (q e : Z) :
  0 <= e -> 1 < q ->
  Zmod.pow (Zmod.of_Z q a) e = Zmod.one <-> (q | a ^ e - 1).
Proof.
  intros He Hq. rewrite <- Zmod.to_Z_inj_iff, Zmod.to_Z_1_pos by lia.
  rewrite Zmod.to_Z_pow_nonneg_r, Zmod.to_Z_of_Z, Z.mod_pow_l by lia.
  rewrite <- Z.mod_divide by lia. rewrite Zminus_mod, (Z.mod_small 1) by lia.
  pose proof (Z.mod_pos_bound (a ^ e) q ltac:(lia)).
  split; [intros ->; by rewrite Z.mod_0_l by lia|]. intros Hz.
  destruct (decide (a ^ e mod q = 0)) as [E|].
  - rewrite E in Hz. replace (0 - 1) with (-1) in Hz by lia.
    apply Z.mod_divide, Z.divide_opp_r, Z.divide_1_r in Hz; lia.
  - rewrite Z.mod_small in Hz; lia.
Qed.

(** Modulo a prime factor [q] of [n], the exponents of [a] that give 1 include
    the greatest common divisor of [n - 1] and [q - 1]. *)
Lemma pow_gcd_one q :
  Z.prime q -> (q | n) ->
  Z.gcd (Zmod.to_Z (Zmod.of_Z q a)) q = 1 /\
  Zmod.pow (Zmod.of_Z q a) (Z.gcd (n - 1) (q - 1)) = Zmod.one.
Proof.
  intros Hq Hqn. pose proof (Z.prime_ge_2 _ Hq) as Hq2.
  pose (A := Zmod.of_Z q a). fold A.
  assert (Zmod.pow A (n - 1) = Zmod.one) as HA1.
  { apply pow_one_mod; [lia..|]. transitivity n; [done|].
    apply Z.mod_divide; [lia|].
    by rewrite Zminus_mod, Hone, (Z.mod_small 1), Z.mod_small by lia. }
  assert (A <> Zmod.zero) as HA0.
  { intros E. rewrite E, Zmod.pow_0_l in HA1 by lia.
    symmetry in HA1. revert HA1. apply Zmod.one_neq_zero. lia. }
  assert (Zmod.pow A (q - 1) = Zmod.one) as HA2.
  { rewrite <- (Zmod.fermat_nz A HA0 Hq). f_equal. }
  assert (Z.gcd (Zmod.to_Z A) q = 1) as Hcop.
  { rewrite Z.gcd_comm. apply Z.coprime_prime_small; [done|].
    apply Zmod.to_Z_nz in HA0. pose proof (Zmod.to_Z_range A). lia. }
  split; [done|].
  destruct (Z.gcd_bezout (n - 1) (q - 1) _ eq_refl) as (u & v & Huv).
  rewrite <- Huv, (Z.mul_comm u), (Z.mul_comm v).
  rewrite Zmod.pow_add_r_coprime, !Zmod.pow_mul_r_coprime by done.
  rewrite HA1, HA2, !Zmod.pow_1_l. apply Zmod.mul_1_l.
Qed.

Lemma lucas_prime : Z.prime n.
Proof.
  destruct (prime_divisor n Hn) as (q & Hq & Hqn).
  pose proof (Z.prime_ge_2 _ Hq) as Hq2.
  destruct (pow_gcd_one q Hq Hqn) as [Hcop HAg].
  destruct (Z.gcd_divide_l (n - 1) (q - 1)) as [c Hc].
  pose proof (Z.gcd_divide_r (n - 1) (q - 1)) as Hr.
  pose proof (Z.gcd_nonneg (n - 1) (q - 1)).
  assert (Z.gcd (n - 1) (q - 1) <> 0) by (intros ?%Z.gcd_eq_0; lia).
  set (g := Z.gcd (n - 1) (q - 1)) in *. destruct (decide (c = 1)) as [->|Hc1].
  { rewrite Z.mul_1_l in Hc. rewrite <- Hc in Hr.
    apply Z.divide_pos_le in Hr; [|lia].
    assert (q <= n) by (apply Z.divide_pos_le; [lia|done]).
    by replace n with q by lia. }
  exfalso. destruct (prime_divisor c ltac:(nia)) as (p & Hp & [d Hd]).
  pose proof (Z.prime_ge_2 _ Hp).
  assert (p | n - 1) as Hpl by (rewrite Hc, Hd; exists (d * g); lia).
  specialize (Hother p Hp Hpl).
  assert ((n - 1) / p = g * d) as E.
  { rewrite Hc, Hd. replace (d * p * g) with (g * d * p) by lia.
    by rewrite Z.div_mul by lia. }
  assert (q | a ^ ((n - 1) / p) - 1) as Hdiv.
  { apply pow_one_mod; [nia|lia|].
    by rewrite E, Zmod.pow_mul_r_coprime, HAg, Zmod.pow_1_l by done. }
  pose proof (Z.gcd_greatest _ _ _ Hdiv Hqn) as Hgq. rewrite Hother in Hgq.
  apply Z.divide_pos_le in Hgq; lia.
Qed.
End lucas.

(** ** The test

    A factorisation, as a tree: the powers of the base for the leaves share
    the powers of the inner nodes. *)
Inductive ftree :=
| FLeaf (p k : Z)
| FNode (l r : ftree).

Fixpoint ftree_prod (t : ftree) : Z :=
  match t with
  | FLeaf p k => p ^ k
  | FNode l r => ftree_prod l * ftree_prod r
  end.

(** [b] is the base raised to the product of the factors outside of [t]. *)
Fixpoint ftree_test (n b : Z) (t : ftree) : bool :=
  match t with
  | FLeaf p k =>
      trial_prime p && (1 <=? k) &&
      (Z.gcd (pos_pow_mod b n (Z.to_pos (p ^ (k - 1))) - 1) n =? 1)
  | FNode l r =>
      (0 <? ftree_prod l) && (0 <? ftree_prod r) &&
      ftree_test n (pos_pow_mod b n (Z.to_pos (ftree_prod r))) l &&
      ftree_test n (pos_pow_mod b n (Z.to_pos (ftree_prod l))) r
  end.

Definition lucas_test (n a : Z) (t : ftree) : bool :=
  (1 <? n) && (0 <=? a) && (ftree_prod t =? n - 1) &&
  (pos_pow_mod a n (Z.to_pos (n - 1)) =? 1) && ftree_test n (a mod n) t.

Lemma pos_pow_mod_pow n a e m :
  0 < n -> 0 < m -> 0 <= e ->
  pos_pow_mod (a ^ e mod n) n (Z.to_pos m) = a ^ (e * m) mod n.
Proof.
  intros Hn Hm He. pose proof (Z.mod_pos_bound (a ^ e) n Hn).
  rewrite pos_pow_mod_spec, Z2Pos.id by lia. by rewrite Z.mod_pow_l, Z.pow_mul_r by lia.
Qed.

Lemma gcd_pred_mod x n : 0 < n -> Z.gcd (x mod n - 1) n = Z.gcd (x - 1) n.
Proof.
  intros Hn. rewrite !(Z.gcd_comm _ n).
  by rewrite <- Z.gcd_mod, Zminus_mod_idemp_l, Z.gcd_mod by lia.
Qed.

Lemma ftree_test_spec n a t e p :
  1 < n -> 0 <= e -> ftree_test n (a ^ e mod n) t = true ->
  Z.prime p -> (p | ftree_prod t) ->
  Z.gcd (a ^ (e * (ftree_prod t / p)) - 1) n = 1.
Proof.
  intros Hn He Ht Hp. pose proof (Z.prime_ge_2 _ Hp) as Hp2. revert e He Ht.
  induction t as [q k|l IHl r IHr]; intros e He; simpl;
    rewrite !andb_true_iff; intros Ht.
  - destruct Ht as [[Hq%trial_prime_spec Hk%Z.leb_le] Hg%Z.eqb_eq]. intros Hd.
    pose proof (Z.prime_ge_2 _ Hq).
    apply (Z.divide_prime_pp p q k Hp Hq ltac:(lia)) in Hd as ->.
    assert (0 < q ^ (k - 1)) by (apply Z.pow_pos_nonneg; lia).
    rewrite pos_pow_mod_pow, gcd_pred_mod in Hg by lia.
    replace (q ^ k) with (q ^ (k - 1) * q).
    2: { replace k with (k - 1 + 1) at 2 by lia.
         rewrite Z.pow_add_r, Z.pow_1_r by lia. done. }
    by rewrite Z.div_mul by lia.
  - destruct Ht as [[[Hl%Z.ltb_lt Hr%Z.ltb_lt] Htl] Htr].
    rewrite pos_pow_mod_pow in Htl, Htr by lia.
    intros [Hd|Hd]%Z.divide_prime_mul; [| |done].
    + specialize (IHl (e * ftree_prod r) ltac:(nia) Htl Hd).
      rewrite (Z.mul_comm (ftree_prod l)), Z.divide_div_mul_exact by (lia || done). by rewrite Z.mul_assoc.
    + specialize (IHr (e * ftree_prod l) ltac:(nia) Htr Hd).
      rewrite Z.divide_div_mul_exact by (lia || done). by rewrite Z.mul_assoc.
Qed.

Lemma lucas_test_prime n a t : lucas_test n a t = true -> Z.prime n.
Proof.
  unfold lucas_test. rewrite !andb_true_iff, !Z.eqb_eq, Z.ltb_lt, Z.leb_le.
  intros [[[[Hn Ha] Hp] H1] H2].
  rewrite pos_pow_mod_spec, Z2Pos.id in H1 by lia.
  apply (lucas_prime n a Hn H1). intros p Hpr Hd.
  rewrite <- (Z.pow_1_r a) in H2 at 1. rewrite <- Hp in Hd |- *.
  rewrite <- (Z.mul_1_l (_ / _)). by apply ftree_test_spec.
Qed.
