(* ===== verification/Scalars.v ===== *)
(** * The scalar field of the threshold scheme

    Models the curve order of [src/crypto/define.rs] and the reduction of
    [src/math/bigint_ext.rs].  The curve order is shown to be prime (Lucas'
    test with the factorisation of its predecessor), so that the residues form
    the field [Fr] of the interpolation lemmas: a polynomial with more roots
    than coefficients vanishes, and the Lagrange coefficients at 0 recover the
    constant coefficient of a polynomial from enough of its values. *)

From Stdlib Require Import Zmod Zcong Zdivisibility Field.
From S2P Require Import Prelude Primality.

(** ** Code *)

(** The constant of [lazy_static! MODULUS]. *)
Definition MODULUS : Z :=
  0x73eda753299d7d483339d80809a1d80553bda402fffe5bfeffffffff00000001.

(** [<BigInt as Ring>::reduce]: the remainder of [BigInt] has the sign of the
    dividend. *)
Definition reduce (a m : Z) : Z :=
  let result := Z.rem a m in
  if result <? 0 then result + m else result.

Lemma reduce_mod a m : 0 < m -> reduce a m = a mod m.
Proof.
  intros Hm. unfold reduce. pose proof (Z.rem_bound_abs a m ltac:(lia)).
  pose proof (Z.quot_rem' a m) as Hq.
  destruct (Z.ltb_spec (Z.rem a m) 0).
  - apply (Z.mod_unique _ _ (Z.quot a m - 1)); lia.
  - apply (Z.mod_unique _ _ (Z.quot a m)); lia.
Qed.

(** ** The curve order is prime *)

(** The prime factors of [MODULUS - 1]. *)
Definition modulus_factors : ftree :=
  FNode
    (FNode (FNode (FNode (FLeaf 3 1) (FLeaf 11 1)) (FNode (FLeaf 19 1) (FLeaf 10177 1)))
       (FNode (FNode (FLeaf 125527 1) (FLeaf 859267 1)) (FLeaf 2 32)))
    (FNode (FNode (FNode (FLeaf 2508409 1) (FLeaf 2529403 1)) (FLeaf 906349 2))
       (FNode (FLeaf 52437899 1) (FLeaf 254760293 2))).

Lemma modulus_test : lucas_test MODULUS 7 modulus_factors = true.
Proof. vm_cast_no_check (eq_refl true). Qed.

(** The comment on [CURVE_ORDER] holds: it is a prime of 255 bits. *)
Lemma modulus_prime : Z.prime MODULUS.
Proof. exact (lucas_test_prime _ _ _ modulus_test). Qed.

Lemma modulus_bits : 2 ^ 254 <= MODULUS < 2 ^ 255.
Proof. unfold MODULUS. lia. Qed.

(** ** The field of residues *)

Abbreviation Fr := (Zmod MODULUS).
Definition fr (z : Z) : Fr := Zmod.of_Z MODULUS z.

#[local] Open Scope Zmod_scope.

#[export] Instance Fr_eq_dec : EqDecision Fr.
Proof.
  intros x y. destruct (decide (Zmod.to_Z x = Zmod.to_Z y)) as [E|E].
  - left. by apply Zmod.to_Z_inj.
  - right. intros ->. by apply E.
Defined.

Add Field Fr_field : (Zmod.field_theory MODULUS modulus_prime).

Lemma fr_add a b : fr (a + b)%Z = fr a + fr b.
Proof. apply Zmod.of_Z_add. Qed.

Lemma fr_mul a b : fr (a * b)%Z = fr a * fr b.
Proof. apply Zmod.of_Z_mul. Qed.

Lemma fr_sub a b : fr (a - b)%Z = fr a - fr b.
Proof. apply Zmod.of_Z_sub. Qed.

Lemma fr_mod a : fr (a mod MODULUS)%Z = fr a.
Proof. unfold fr. apply Zmod.of_Z_mod. Qed.

Lemma fr_eq a b : fr a = fr b <-> (a mod MODULUS = b mod MODULUS)%Z.
Proof. unfold fr. rewrite <- Zmod.to_Z_inj_iff, !Zmod.to_Z_of_Z. done. Qed.

Lemma fr_small_inj a b :
  (0 <= a < MODULUS)%Z -> (0 <= b < MODULUS)%Z -> fr a = fr b -> a = b.
Proof. intros Ha Hb E%fr_eq. by rewrite !Z.mod_small in E. Qed.

Lemma fr_integral (x y : Fr) : x * y = Zmod.zero -> x = Zmod.zero \/ y = Zmod.zero.
Proof. apply Zmod.mul_0_iff_prime, modulus_prime. Qed.

(** ** Polynomial functions

    [deg_lt n f]: [f] is given by a polynomial of at most [n] coefficients. *)

Fixpoint deg_lt (n : nat) (f : Fr -> Fr) : Prop :=
  match n with
  | O => forall x, f x = Zmod.zero
  | S n => exists a g, deg_lt n g /\ forall x, f x = a + x * g x
  end.

Lemma deg_lt_ext n f g : (forall x, f x = g x) -> deg_lt n f -> deg_lt n g.
Proof.
  destruct n; simpl; intros Hfg; [intros Hf x; by rewrite <- Hfg|].
  intros (a & h & Hh & Hf). exists a, h. split; [done|].
  intros x. by rewrite <- Hfg.
Qed.

Lemma deg_lt_scale n f c : deg_lt n f -> deg_lt n (fun x => c * f x).
Proof.
  revert f. induction n as [|n IH]; intros f; simpl.
  - intros Hf x. rewrite Hf. ring.
  - intros (a & g & Hg & Hf). exists (c * a), (fun x => c * g x).
    split; [by apply IH|]. intros x. rewrite Hf. ring.
Qed.

Lemma deg_lt_add n f g :
  deg_lt n f -> deg_lt n g -> deg_lt n (fun x => f x + g x).
Proof.
  revert f g. induction n as [|n IH]; intros f g; simpl.
  - intros Hf Hg x. rewrite Hf, Hg. ring.
  - intros (a & f' & Hf' & Hf) (b & g' & Hg' & Hg).
    exists (a + b), (fun x => f' x + g' x). split; [by apply IH|].
    intros x. rewrite Hf, Hg. ring.
Qed.

Lemma deg_lt_S n f : deg_lt n f -> deg_lt (S n) f.
Proof.
  revert f. induction n as [|n IH]; intros f; simpl deg_lt.
  - intros Hf. exists Zmod.zero, (fun _ => Zmod.zero). split; [done|].
    intros x. rewrite Hf. ring.
  - intros (a & g & Hg & Hf). exists a, g. split; [by apply IH|done].
Qed.

Lemma deg_lt_le n m f : (n <= m)%nat -> deg_lt n f -> deg_lt m f.
Proof. induction 1; [done|]. intros Hf. by apply deg_lt_S, IHle. Qed.

(** Division by [x - a]. *)
Lemma deg_lt_divide n f a :
  deg_lt (S n) f ->
  exists g, deg_lt n g /\ forall x, f x = f a + (x - a) * g x.
Proof.
  revert f. induction n as [|n IH]; intros f (b & h & Hh & Hf).
  - exists (fun _ => Zmod.zero). split; [done|]. intros x.
    rewrite !Hf. simpl in Hh. rewrite !Hh. ring.
  - destruct (IH h Hh) as (g & Hg & Hd).
    exists (fun x => h x + a * g x). split.
    + apply deg_lt_add; [done|]. by apply deg_lt_S, deg_lt_scale.
    + intros x. rewrite !Hf, (Hd x). ring.
Qed.

(** A polynomial with as many roots as coefficients is zero. *)
Lemma deg_lt_roots n f l :
  deg_lt n f -> NoDup l -> (n <= length l)%nat ->
  (forall x, x ∈ l -> f x = Zmod.zero) -> forall x, f x = Zmod.zero.
Proof.
  revert f l. induction n as [|n IH]; intros f l Hf; [done|].
  destruct l as [|a l]; simpl; [lia|].
  intros [Ha Hl]%NoDup_cons Hlen Hr x.
  destruct (deg_lt_divide n f a Hf) as (g & Hg & Hd).
  rewrite Hd, (Hr a) by set_solver. rewrite (IH g l Hg Hl); [ring|lia|].
  intros y Hy. pose proof (Hd y) as E.
  rewrite !Hr in E by set_solver.
  assert ((y - a) * g y = Zmod.zero) as [E'|E']%fr_integral.
  - rewrite E. ring.
  - exfalso. apply Ha. rewrite Zmod.sub_eq_0_iff in E'. by subst.
  - done.
Qed.

(** ** Lagrange interpolation *)

(** The basis polynomial of [a] among [xs]. *)
Fixpoint lagrange (a : Fr) (xs : list Fr) (x : Fr) : Fr :=
  match xs with
  | [] => Zmod.one
  | y :: xs =>
      if decide (y = a) then lagrange a xs x
      else (y - x) * Zmod.inv (y - a) * lagrange a xs x
  end.

Definition fsum {A} (f : A -> Fr) (l : list A) : Fr :=
  foldr (fun x acc => f x + acc) Zmod.zero l.

Lemma lagrange_deg a xs :
  NoDup xs -> deg_lt (S (length (filter (fun y => y <> a) xs))) (lagrange a xs).
Proof.
  induction 1 as [|y xs Hy Hxs IH].
  - exists Zmod.one, (fun _ => Zmod.zero). split; [done|]. intros x. simpl. ring.
  - rewrite filter_cons. simpl lagrange. destruct (decide (y = a)) as [->|Hya].
    + rewrite decide_False by auto. done.
    + rewrite decide_True by auto. simpl length.
      set (n := length _) in *.
      apply (deg_lt_ext _ (fun x =>
        (y * Zmod.inv (y - a)) * lagrange a xs x
        + - Zmod.inv (y - a) * (x * lagrange a xs x))).
      { intros x. ring. }
      apply deg_lt_add; [by apply deg_lt_S, deg_lt_scale|].
      apply deg_lt_scale. exists Zmod.zero, (lagrange a xs). split; [done|].
      intros x. ring.
Qed.

Lemma filter_ne_length `{EqDecision A} (a : A) xs :
  NoDup xs -> a ∈ xs -> S (length (filter (fun y => y <> a) xs)) = length xs.
Proof.
  induction 1 as [|y xs Hy Hxs IH]; [by intros ?%elem_of_nil|].
  rewrite filter_cons. intros [->|Ha]%elem_of_cons.
  - rewrite decide_False by auto. simpl. f_equal.
    clear IH. induction xs as [|z xs IH]; [done|]. rewrite filter_cons.
    apply not_elem_of_cons in Hy as [Hyz Hy]. apply NoDup_cons in Hxs as [_ Hxs].
    rewrite decide_True by auto. simpl. by rewrite IH.
  - rewrite decide_True by (intros ->; done). simpl. by rewrite IH.
Qed.

Lemma lagrange_same a xs : lagrange a xs a = Zmod.one.
Proof.
  induction xs as [|y xs IH]; simpl; [done|]. destruct (decide (y = a)); [done|].
  rewrite IH. field. by rewrite Zmod.sub_eq_0_iff.
Qed.

Lemma lagrange_other a b xs : b ∈ xs -> b <> a -> lagrange a xs b = Zmod.zero.
Proof.
  induction xs as [|y xs IH]; [by intros ?%elem_of_nil|].
  intros [->|Hb]%elem_of_cons Hba; simpl.
  - rewrite decide_False by done. ring.
  - rewrite IH by done. destruct (decide (y = a)); ring.
Qed.

Lemma fsum_deg {A} n (f : A -> Fr -> Fr) l :
  (forall a, a ∈ l -> deg_lt n (f a)) -> deg_lt n (fun x => fsum (fun a => f a x) l).
Proof.
  induction l as [|a l IH]; simpl; intros Hf.
  - apply (deg_lt_le 0); [lia|]. done.
  - apply deg_lt_add; [apply Hf|apply IH; intros; apply Hf]; set_solver.
Qed.

Lemma fsum_zero {A} (f : A -> Fr) l :
  (forall a, a ∈ l -> f a = Zmod.zero) -> fsum f l = Zmod.zero.
Proof.
  induction l as [|a l IH]; simpl; intros Hf; [done|].
  rewrite Hf, IH by set_solver. ring.
Qed.

Lemma fsum_single {A} (f : A -> Fr) l b :
  NoDup l -> b ∈ l -> (forall a, a ∈ l -> a <> b -> f a = Zmod.zero) ->
  fsum f l = f b.
Proof.
  induction 1 as [|a l Ha Hl IH]; [by intros ?%elem_of_nil|].
  intros [->|Hb]%elem_of_cons Hf; simpl.
  - rewrite fsum_zero; [ring|]. intros c Hc. apply Hf; [set_solver|].
    intros ->. done.
  - rewrite IH, Hf by set_solver. ring.
Qed.

(** A polynomial is the combination of its values at as many points as it has
    coefficients. *)
Lemma lagrange_interpolation f xs x :
  NoDup xs -> deg_lt (length xs) f ->
  fsum (fun a => f a * lagrange a xs x) xs = f x.
Proof.
  intros Hnd Hf. rewrite <- Zmod.sub_eq_0_iff. revert x.
  apply (deg_lt_roots (length xs) _ xs); [|done|done|].
  - apply (deg_lt_ext _ (fun x => fsum (fun a => f a * lagrange a xs x) xs
      + - Zmod.one * f x)); [intros; ring|].
    apply deg_lt_add; [|by apply deg_lt_scale].
    apply fsum_deg. intros a Ha. apply deg_lt_scale.
    rewrite <- (filter_ne_length a xs Hnd Ha). by apply lagrange_deg.
  - intros b Hb. rewrite (fsum_single _ _ b Hnd Hb).
    + rewrite lagrange_same. ring.
    + intros a _ Hab. rewrite lagrange_other by done. ring.
Qed.

(** The reduction of [BigInt] values computes in a prime field: the
    modulus is a prime of 255 bits, as the comment on it says, [reduce] maps
    every integer, negative ones included, to the one congruent value below
    the modulus, and every value that does not reduce to 0 has an inverse. *)
Theorem reduction_in_prime_field (a : Z) :
  Z.prime MODULUS /\ (2 ^ 254 <= MODULUS < 2 ^ 255)%Z /\
  (0 <= reduce a MODULUS < MODULUS)%Z /\ (MODULUS | a - reduce a MODULUS)%Z /\
  (reduce a MODULUS <> 0%Z ->
   exists b, (0 <= b < MODULUS)%Z /\ reduce (a * b) MODULUS = 1%Z).
Proof.
  split; [apply modulus_prime|]. split; [apply modulus_bits|].
  rewrite !reduce_mod by done. split; [by apply Z.mod_pos_bound|]. split.
  - exists (a / MODULUS)%Z. pose proof (Z.div_mod a MODULUS ltac:(done)). lia.
  - intros Ha. exists (Z.invmod a MODULUS). split.
    + rewrite <- Z.mod_invmod. by apply Z.mod_pos_bound.
    + rewrite reduce_mod, Z.mul_comm by done. by apply Z.invmod_prime; [apply modulus_prime|].
Qed.
