(* ===== verification/Blst.v ===== *)
(** * The pairing library and its wrappers

    The curve arithmetic is the [blst] crate and the key and signature types
    are those of the [bls] crate; neither is part of the repository.  [Blst]
    lists the functions of theirs the sources call, [BlstLaws] their documented
    behaviour: points form abelian groups, a multiplication takes the low bits
    of a scalar, scalar functions compute modulo the curve order, encodings
    round-trip, and a signature verifies exactly when it is the multiple of the
    hashed message by the secret key.

    The definitions model [src/utils/blst_utils.rs], the byte conversions it is
    built on, and the errors of [src/utils/error.rs]. *)

From Stdlib Require Import Zmod.
From stdpp Require Import list_numbers.
From S2P Require Import Prelude Network Primality Scalars.

(** ** Abelian groups with integer multiples *)

Class ZModule (G : Type) := {
  g0 : G;
  gadd : G -> G -> G;
  gmul : Z -> G -> G
}.

Class ZModuleLaws (G : Type) `{ZModule G} : Prop := {
  gadd_comm (x y : G) : gadd x y = gadd y x;
  gadd_assoc (x y z : G) : gadd x (gadd y z) = gadd (gadd x y) z;
  gadd_0_l (x : G) : gadd g0 x = x;
  gmul_0_l (x : G) : gmul 0 x = g0;
  gmul_1_l (x : G) : gmul 1 x = x;
  gmul_add_l a b (x : G) : gmul (a + b) x = gadd (gmul a x) (gmul b x);
  gmul_add_r a (x y : G) : gmul a (gadd x y) = gadd (gmul a x) (gmul a y);
  gmul_mul a b (x : G) : gmul (a * b) x = gmul a (gmul b x)
}.

Definition gsum {G} `{ZModule G} (l : list G) : G := foldr gadd g0 l.

(** The subgroup of prime order. *)
Definition torsion {G} `{ZModule G} (x : G) : Prop := gmul MODULUS x = g0.

Section zmodule.
Context {G : Type} `{ZModuleLaws G}.
Implicit Types x y : G.

Lemma gadd_0_r x : gadd x g0 = x.
Proof. by rewrite gadd_comm, gadd_0_l. Qed.

Lemma gmul_0_r a : gmul a (g0 : G) = g0.
Proof. by rewrite <- (gmul_0_l g0), <- gmul_mul, Z.mul_0_r, gmul_0_l. Qed.

Lemma gadd_cancel_l x y z : gadd x y = gadd x z -> y = z.
Proof.
  intros E. rewrite <- (gadd_0_l y), <- (gadd_0_l z), <- (gmul_0_l x).
  replace 0 with (-1 + 1) by lia. rewrite gmul_add_l, gmul_1_l.
  by rewrite <- !gadd_assoc, E.
Qed.

Lemma gmul_torsion a x : torsion x -> torsion (gmul a x).
Proof.
  unfold torsion. intros Hx.
  by rewrite <- gmul_mul, Z.mul_comm, gmul_mul, Hx, gmul_0_r.
Qed.

Lemma torsion_0 : torsion (g0 : G).
Proof. apply gmul_0_r. Qed.

Lemma torsion_add x y : torsion x -> torsion y -> torsion (gadd x y).
Proof. unfold torsion. intros Hx Hy. by rewrite gmul_add_r, Hx, Hy, gadd_0_l. Qed.

Lemma gmul_mod a x : torsion x -> gmul (a mod MODULUS) x = gmul a x.
Proof.
  intros Hx. rewrite (Z.div_mod a MODULUS) at 2 by done.
  rewrite gmul_add_l, Z.mul_comm, gmul_mul, Hx, gmul_0_r. by rewrite gadd_0_l.
Qed.

Lemma gmul_fr a b x : torsion x -> fr a = fr b -> gmul a x = gmul b x.
Proof.
  intros Hx E%fr_eq. by rewrite <- (gmul_mod a), <- (gmul_mod b), E.
Qed.

(** A point of prime order determines its multiples' factors. *)
Lemma gmul_inj a b x : torsion x -> x <> g0 -> gmul a x = gmul b x -> fr a = fr b.
Proof.
  intros Hx Hnz E. destruct (decide (fr (a - b) = Zmod.zero)) as [Hz|Hz].
  { rewrite fr_sub in Hz. by apply Zmod.sub_eq_0_iff. }
  exfalso. apply Hnz.
  assert (gmul (a - b) x = g0) as Hd.
  { apply (gadd_cancel_l (gmul b x)). rewrite <- gmul_add_l, gadd_0_r, <- E.
    f_equal. lia. }
  rewrite <- (gmul_1_l x).
  rewrite (gmul_fr 1 (Zmod.to_Z (Zmod.inv (fr (a - b))) * (a - b)) x Hx).
  - by rewrite gmul_mul, Hd, gmul_0_r.
  - rewrite fr_mul. unfold fr at 2. rewrite Zmod.of_Z_to_Z. symmetry.
    apply Zmod.mul_inv_same_l_prime; [apply modulus_prime|done].
Qed.

Lemma gsum_app (l k : list G) : gsum (l ++ k) = gadd (gsum l) (gsum k).
Proof.
  induction l as [|x l IH]; simpl; [by rewrite gadd_0_l|].
  unfold gsum in *. by rewrite IH, gadd_assoc.
Qed.

#[export] Instance gsum_perm : Proper ((≡ₚ) ==> (=)) (gsum (G:=G)).
Proof.
  intros l1 l2 Hp. induction Hp as [|x ? ? ? IH|x y l|]; simpl; [done|congruence|..].
  - unfold gsum. by rewrite !gadd_assoc, (gadd_comm x).
  - congruence.
Qed.

Lemma gsum_gmul {A} (f : A -> Z) x l :
  gsum (map (fun a => gmul (f a) x) l) = gmul (zsum f l) x.
Proof.
  induction l as [|a l IH]; simpl; [by rewrite gmul_0_l|].
  unfold gsum in *. by rewrite IH, <- gmul_add_l.
Qed.
End zmodule.

(** ** Integers and bytes

    A [BigInt] and a [blst_scalar] are kept as the integers they stand for;
    these are the digits [num_bigint] and the 32 little-endian bytes of a
    scalar give. *)

Definition le_val (bs : bytes) : Z := little_endian_to_Z 8 bs.
Definition be_val (bs : bytes) : Z := le_val (reverse bs).

(** The least number of bytes, at least one. *)
Definition byte_len (z : Z) : Z :=
  if z =? 0 then 1 else Z.log2 (Z.abs z) / 8 + 1.

(** [BigInt::to_bytes_le] and [to_bytes_be], without the sign. *)
Definition to_bytes_le (z : Z) : bytes :=
  Z_to_little_endian (byte_len z) 8 (Z.abs z).
Definition to_bytes_be (z : Z) : bytes := reverse (to_bytes_le z).

(** The field [b] of a [blst_scalar]. *)
Definition scalar_bytes (s : Z) : bytes := Z_to_little_endian 32 8 s.

Definition SECRET_KEY_BYTES_LEN : nat := 32.
Definition PUBLIC_KEY_BYTES_LEN : nat := 48.

Lemma byte_len_bounds z :
  0 <= z -> 1 <= byte_len z /\ z < 2 ^ (byte_len z * 8) /\
  (forall n, 1 <= n -> z < 2 ^ (n * 8) -> byte_len z <= n).
Proof.
  intros Hz. unfold byte_len. destruct (Z.eqb_spec z 0) as [->|Hnz].
  { split; [lia|]. split; [done|lia]. }
  rewrite Z.abs_eq by done. pose proof (Z.log2_spec z ltac:(lia)) as [Hl Hu].
  pose proof (Z.log2_nonneg z). pose proof (Z.div_pos (Z.log2 z) 8).
  pose proof (Z.div_mod (Z.log2 z) 8 ltac:(lia)).
  pose proof (Z.mod_pos_bound (Z.log2 z) 8 ltac:(lia)).
  split; [lia|]. split.
  - eapply Z.lt_le_trans; [done|]. apply Z.pow_le_mono_r; lia.
  - intros n Hn Hlt. assert (Z.log2 z < n * 8); [|lia].
    apply (Z.pow_lt_mono_r_iff 2); lia.
Qed.

Lemma le_val_to_bytes_le z : 0 <= z -> le_val (to_bytes_le z) = z.
Proof.
  intros Hz. unfold le_val, to_bytes_le. rewrite Z.abs_eq by done.
  destruct (byte_len_bounds z Hz) as (? & ? & _).
  by rewrite little_endian_to_Z_to_little_endian, Z.mod_small by lia.
Qed.

Lemma be_val_to_bytes_be z : 0 <= z -> be_val (to_bytes_be z) = z.
Proof.
  intros. unfold be_val, to_bytes_be. by rewrite reverse_involutive,
    le_val_to_bytes_le.
Qed.

Lemma length_to_bytes_be z n :
  0 <= z -> (1 <= n)%nat -> z < 2 ^ (Z.of_nat n * 8) ->
  (length (to_bytes_be z) <= n)%nat.
Proof.
  intros Hz Hn Hlt. unfold to_bytes_be, to_bytes_le. rewrite length_reverse.
  destruct (byte_len_bounds z Hz) as (? & _ & Hmin).
  specialize (Hmin (Z.of_nat n) ltac:(lia) Hlt).
  pose proof (length_Z_to_little_endian (byte_len z) 8 (Z.abs z)). lia.
Qed.

Lemma le_val_app_zeros bs n : le_val (bs ++ replicate n 0) = le_val bs.
Proof.
  unfold le_val. induction bs as [|b bs IH]; simpl; [|by rewrite IH].
  induction n as [|n IH]; simpl; [done|]. by rewrite IH.
Qed.

Lemma be_val_zeros_app bs n : be_val (replicate n 0 ++ bs) = be_val bs.
Proof.
  unfold be_val. rewrite reverse_app, reverse_replicate. apply le_val_app_zeros.
Qed.

(** Bytes inserted in front of a share until it has the length of a secret
    key. *)
Definition pad_be (bs : bytes) : bytes :=
  if (length bs <? SECRET_KEY_BYTES_LEN)%nat
  then replicate (SECRET_KEY_BYTES_LEN - length bs) 0 ++ bs else bs.

Lemma pad_be_spec z :
  0 <= z < 2 ^ 256 ->
  length (pad_be (to_bytes_be z)) = SECRET_KEY_BYTES_LEN /\
  be_val (pad_be (to_bytes_be z)) = z.
Proof.
  intros Hz.
  assert (length (to_bytes_be z) <= 32)%nat
    by (apply length_to_bytes_be; simpl; lia).
  unfold pad_be, SECRET_KEY_BYTES_LEN. destruct (Nat.ltb_spec (length (to_bytes_be z)) 32).
  - rewrite length_app, length_replicate, be_val_zeros_app, be_val_to_bytes_be by lia. lia.
  - rewrite be_val_to_bytes_be by lia. lia.
Qed.

Lemma scalar_bytes_val s : 0 <= s < 2 ^ 256 -> le_val (scalar_bytes s) = s.
Proof.
  intros Hs. unfold le_val, scalar_bytes.
  rewrite little_endian_to_Z_to_little_endian, Z.mod_small by lia. done.
Qed.

(** ** The libraries *)

(** The functions of [blst] (prefix [ffi_], a point written by the function is
    its result) and of [bls] the sources call.  A secret key is its scalar, a
    public key its point. *)
Class Blst := {
  p1 : Type;
  p2 : Type;
  Signature : Type;
  p1_eq_dec :: EqDecision p1;
  p2_eq_dec :: EqDecision p2;
  Signature_eq_dec :: EqDecision Signature;
  p1_module :: ZModule p1;
  p2_module :: ZModule p2;
  ffi_p1_generator : p1;
  ffi_hash_to_g1 : bytes -> p1;
  ffi_hash_to_g2 : bytes -> p2;
  ffi_scalar_from_uint64 : list Z -> Z;
  ffi_scalar_from_be_bytes : bytes -> Z;
  ffi_scalar_from_le_bytes : bytes -> Z;
  ffi_sk_add_n_check : Z -> Z -> Z;
  ffi_sk_sub_n_check : Z -> Z -> Z;
  ffi_sk_mul_n_check : Z -> Z -> Z;
  ffi_sk_inverse : Z -> Z;
  ffi_keygen : bytes -> Z;
  ffi_sk_to_pk_in_g1 : Z -> p1;
  ffi_p1_add : p1 -> p1 -> p1;
  ffi_p1_mult : p1 -> Z -> Z -> p1;
  ffi_p1s_add : list p1 -> p1;
  ffi_p1_compress : p1 -> bytes;
  ffi_p1_uncompress : bytes -> p1;
  ffi_p2_mult : p2 -> Z -> Z -> p2;
  ffi_p2_serialize : p2 -> bytes;
  ffi_p2_deserialize : bytes -> p2;
  core_Signature_from_bytes : bytes -> option p2;
  core_Signature_deserialize : bytes -> option p2;
  core_Signature_to_bytes : p2 -> bytes;
  core_Signature_sign : Z -> bytes -> p2;
  core_Signature_verify : p2 -> bytes -> p1 -> bool;
  core_AggregateSignature_add : p2 -> p2 -> p2;
  INFINITY_SIGNATURE : bytes;
  SecretKey_serialize : Z -> bytes;
  SecretKey_deserialize : bytes -> option Z;
  SecretKey_public_key : Z -> p1;
  SecretKey_sign : Z -> bytes -> Signature;
  PublicKey_serialize : p1 -> bytes;
  PublicKey_deserialize : bytes -> option p1;
  Signature_serialize : Signature -> bytes;
  Signature_deserialize : bytes -> option Signature;
  Signature_verify : Signature -> p1 -> bytes -> bool
}.

Definition is_scalar (k : Z) : Prop := 0 <= k < MODULUS.
Definition is_secret (k : Z) : Prop := 0 < k < MODULUS.

#[export] Instance is_secret_dec k : Decision (is_secret k).
Proof. unfold is_secret. apply _. Defined.

(** Their documented behaviour. *)
Class BlstLaws `{Blst} : Prop := {
  p1_laws :: ZModuleLaws p1;
  p2_laws :: ZModuleLaws p2;
  generator_order : torsion ffi_p1_generator;
  generator_nonzero : ffi_p1_generator <> g0;
  hash_to_g1_order m : torsion (ffi_hash_to_g1 m);
  hash_to_g2_order m : torsion (ffi_hash_to_g2 m);
  scalar_from_uint64_ok v : is_u64 v -> ffi_scalar_from_uint64 [v; 0; 0; 0] = v;
  scalar_from_be_bytes_ok bs :
    ffi_scalar_from_be_bytes bs = be_val bs mod MODULUS;
  scalar_from_le_bytes_ok bs :
    ffi_scalar_from_le_bytes bs = le_val bs mod MODULUS;
  sk_add_ok a b : ffi_sk_add_n_check a b = (a + b) mod MODULUS;
  sk_sub_ok a b : ffi_sk_sub_n_check a b = (a - b) mod MODULUS;
  sk_mul_ok a b : ffi_sk_mul_n_check a b = (a * b) mod MODULUS;
  sk_inverse_ok a :
    is_scalar (ffi_sk_inverse a) /\
    (a mod MODULUS <> 0 -> (ffi_sk_inverse a * a) mod MODULUS = 1);
  keygen_ok ikm : is_secret (ffi_keygen ikm);
  sk_to_pk_ok k : is_scalar k -> ffi_sk_to_pk_in_g1 k = gmul k ffi_p1_generator;
  p1_add_ok p q : ffi_p1_add p q = gadd p q;
  p1_mult_ok p k nbits : ffi_p1_mult p k nbits = gmul (k mod 2 ^ nbits) p;
  p1s_add_ok l : l <> [] -> ffi_p1s_add l = gsum l;
  p1_compress_length p : length (ffi_p1_compress p) = PUBLIC_KEY_BYTES_LEN;
  p1_uncompress_compress p : ffi_p1_uncompress (ffi_p1_compress p) = p;
  p2_mult_ok p k nbits : ffi_p2_mult p k nbits = gmul (k mod 2 ^ nbits) p;
  aggregate_add_ok p q : core_AggregateSignature_add p q = gadd p q;
  infinity_ok : core_Signature_from_bytes INFINITY_SIGNATURE = Some g0;
  core_deserialize_serialize p :
    core_Signature_deserialize (ffi_p2_serialize p) = Some p;
  core_sign_ok k m : core_Signature_sign k m = gmul k (ffi_hash_to_g2 m);
  core_verify_ok k m :
    is_secret k ->
    core_Signature_verify (gmul k (ffi_hash_to_g2 m)) m
      (gmul k ffi_p1_generator) = true;
  secret_serialize_ok k :
    is_scalar k ->
    length (SecretKey_serialize k) = SECRET_KEY_BYTES_LEN /\
    be_val (SecretKey_serialize k) = k;
  secret_deserialize_ok bs :
    SecretKey_deserialize bs =
      if bool_decide (length bs = SECRET_KEY_BYTES_LEN /\ is_secret (be_val bs))
      then Some (be_val bs) else None;
  public_key_ok k : SecretKey_public_key k = gmul k ffi_p1_generator;
  public_serialize_ok p : PublicKey_serialize p = ffi_p1_compress p;
  public_deserialize_ok bs p :
    PublicKey_deserialize bs = Some p <->
    bs = ffi_p1_compress p /\ torsion p /\ p <> g0;
  signature_length s : length (Signature_serialize s) = 96%nat;
  (** the encodings of a signature are those of its point *)
  signature_point k m :
    ffi_p2_deserialize (Signature_serialize (SecretKey_sign k m)) =
    gmul k (ffi_hash_to_g2 m);
  signature_from_point k m :
    is_secret k ->
    Signature_deserialize
      (core_Signature_to_bytes (gmul k (ffi_hash_to_g2 m))) =
    Some (SecretKey_sign k m);
  signature_roundtrip k m :
    is_secret k ->
    Signature_deserialize (Signature_serialize (SecretKey_sign k m)) =
    Some (SecretKey_sign k m);
  signature_core k m :
    core_Signature_from_bytes (Signature_serialize (SecretKey_sign k m)) =
    Some (gmul k (ffi_hash_to_g2 m));
  (** verification accepts the signature of the key and nothing else *)
  signature_verifies k m :
    is_secret k ->
    Signature_verify (SecretKey_sign k m) (gmul k ffi_p1_generator) m = true;
  signature_unique s k m :
    is_secret k ->
    Signature_verify s (gmul k ffi_p1_generator) m = true ->
    s = SecretKey_sign k m
}.

(** ** [DvfError] *)

Inductive DvfError :=
| BlsError
| BlstError
| ConsensusFailure
| KeyGenError (id : Z)
| InsufficientSignatures (got expected : nat)
| InsufficientValidSignatures (got expected : nat)
| InvalidSignatureShare (id : Z)
| InvalidOperatorId (id : Z)
| DifferentLength (x y : nat)
| InvalidLength
| UnexpectedCall (f : string)
| DvfStoreError
| VssShareVerificationFailed
| InvalidDkgShare (claims : list (Z * Z))
| CommitmentVerificationFailed
| ZKProofInvalidInput
| ZKVerificationFailed
| InsufficientValidPks
| SocketAddrUnknown
| ValidatorStoreNotReady
| Unknown
| BeaconNodeClientError
| BeaconNodeGenesisError
| BeaconNodeValidatorError
| BeaconNodeStateForkError.

(** [x.unwrap()] on an [Option] or a [Result] in pure code. *)
Definition unwrap {E A} (o : option A) : outcome E A :=
  match o with Some a => Ok a | None => Panic "called unwrap on a None value" end.

(** [require] *)
Definition require {E} (status : bool) (msg : string) : outcome E () :=
  if status then Ok () else Panic msg.

(** ** [src/utils/blst_utils.rs] *)

Section utils.
Context `{Blst}.

Definition u64_to_blst_scalar (v : Z) : Z := ffi_scalar_from_uint64 [v; 0; 0; 0].

Definition bigint_to_blst_scalar (v : Z) : Z :=
  ffi_scalar_from_be_bytes (to_bytes_be v).

Definition blst_scalar_to_bigint (s : Z) : Z := le_val (scalar_bytes s).

Definition fixed_p1_generator : p1 := ffi_p1_generator.

(** The bytes of the message ["dvf another generator"]. *)
Definition another_msg : bytes :=
  [100; 118; 102; 32; 97; 110; 111; 116; 104; 101; 114; 32; 103; 101; 110;
   101; 114; 97; 116; 111; 114].
Definition another_p1_generator : p1 := ffi_hash_to_g1 another_msg.

Definition blst_scalar_mult (a b : Z) : Z := ffi_sk_mul_n_check a b.
Definition blst_scalar_sub (a b : Z) : Z := ffi_sk_sub_n_check a b.
Definition blst_scalar_add (a b : Z) : Z := ffi_sk_add_n_check a b.
Definition blst_p1_mult (a : p1) (b : Z) : p1 := ffi_p1_mult a b 255.
Definition blst_p1_add (a b : p1) : p1 := ffi_p1_add a b.

(** The affine and the projective form of a point are the same point. *)
Definition bytes_to_blst_p1_affine (b : bytes) : p1 := ffi_p1_uncompress b.
Definition blst_p1_to_bytes (x : p1) : bytes := ffi_p1_compress x.
Definition bytes_to_blst_p1 (b : bytes) : p1 := ffi_p1_uncompress b.
Definition blst_p1_affines_add (points : list p1) : p1 := ffi_p1s_add points.
Definition blst_p1s_add (points : list p1) : p1 := ffi_p1s_add points.

Definition blst_ecdh_shared_secret (other_pk : p1) (self_sk : Z) : p1 :=
  blst_p1_mult other_pk self_sk.
Definition blst_sk_to_pk_with_generator (generator : p1) (sk : Z) : p1 :=
  blst_p1_mult generator sk.
Definition blst_sk_to_pk (sk : Z) : p1 := ffi_sk_to_pk_in_g1 sk.

Definition random_blst_scalar (ikm : bytes) : Z := ffi_keygen ikm.

Definition blst_scalar_to_bytes (x : Z) : bytes := scalar_bytes x.
Definition bytes_to_blst_scalar (b : bytes) : Z := ffi_scalar_from_le_bytes b.

Definition blst_scalar_to_blst_sk {E} (v : Z) : outcome E Z :=
  unwrap (SecretKey_deserialize (reverse (scalar_bytes v))).

Definition blst_sk_to_bytes (sk : Z) : bytes := reverse (SecretKey_serialize sk).
Definition bytes_to_blst_sk {E} (b : bytes) : outcome E Z :=
  unwrap (SecretKey_deserialize (reverse b)).

Definition blst_wrap_sk_to_bytes (sk : Z) : bytes :=
  reverse (SecretKey_serialize sk).
Definition bytes_to_blst_wrap_sk {E} (b : bytes) : outcome E Z :=
  unwrap (SecretKey_deserialize (reverse b)).
Definition blst_scalar_to_blst_wrap_sk {E} (p : Z) : outcome E Z :=
  bytes_to_blst_wrap_sk (blst_scalar_to_bytes p).
Definition blst_wrap_sk_to_blst_scalar (p : Z) : Z :=
  bytes_to_blst_scalar (blst_wrap_sk_to_bytes p).

Definition blst_wrap_pk_to_bytes (pk : p1) : bytes := PublicKey_serialize pk.
Definition bytes_to_blst_wrap_pk {E} (b : bytes) : outcome E p1 :=
  unwrap (PublicKey_deserialize b).
Definition blst_p1_to_blst_wrap_pk {E} (p : p1) : outcome E p1 :=
  bytes_to_blst_wrap_pk (blst_p1_to_bytes p).

Definition hash_points_to_blst_scalar (vec : list p1) : Z :=
  bytes_to_blst_scalar (mjoin (map blst_p1_to_bytes vec)).
End utils.

Record Keypair `{Blst} := mkKeypair { Keypair_pk : p1; Keypair_sk : Z }.

Create HintDb blst.

(** Facts on the wrappers. *)
Section utils_facts.
Context `{BlstLaws}.

Lemma scalar_bits k : is_scalar k -> k mod 2 ^ 255 = k.
Proof. intros Hk. apply Z.mod_small. pose proof modulus_bits. unfold is_scalar in Hk. lia. Qed.

Lemma mod_scalar a : is_scalar (a mod MODULUS).
Proof. apply Z.mod_pos_bound. pose proof modulus_bits. lia. Qed.

Lemma secret_scalar k : is_secret k -> is_scalar k.
Proof. unfold is_secret, is_scalar. lia. Qed.

Lemma scalar_256 k : is_scalar k -> 0 <= k < 2 ^ 256.
Proof. unfold is_scalar. pose proof modulus_bits. lia. Qed.

Lemma u64_scalar v : is_u64 v -> is_scalar v.
Proof.
  unfold is_u64, is_scalar, u64_max. pose proof modulus_bits. lia.
Qed.

Lemma blst_p1_mult_spec p k : is_scalar k -> blst_p1_mult p k = gmul k p.
Proof. intros Hk. unfold blst_p1_mult. by rewrite p1_mult_ok, scalar_bits. Qed.

Lemma u64_to_blst_scalar_spec v : is_u64 v -> u64_to_blst_scalar v = v.
Proof. apply scalar_from_uint64_ok. Qed.

(** The conversions between scalars and secret keys are inverse. *)
Lemma wrap_sk_scalar k :
  is_scalar k -> blst_wrap_sk_to_blst_scalar k = k.
Proof.
  intros Hk. unfold blst_wrap_sk_to_blst_scalar, bytes_to_blst_scalar,
    blst_wrap_sk_to_bytes. rewrite scalar_from_le_bytes_ok.
  destruct (secret_serialize_ok k Hk) as [_ Hv]. unfold be_val in Hv. rewrite Hv.
  by apply Z.mod_small.
Qed.

Lemma scalar_wrap_sk {E} k :
  is_secret k -> blst_scalar_to_blst_wrap_sk (E:=E) k = Ok k.
Proof.
  intros Hk. pose proof (scalar_256 k (secret_scalar k Hk)).
  unfold blst_scalar_to_blst_wrap_sk, bytes_to_blst_wrap_sk,
    blst_scalar_to_bytes. rewrite secret_deserialize_ok.
  unfold be_val. rewrite reverse_involutive, scalar_bytes_val by done.
  rewrite bool_decide_true; [done|]. split; [|done].
  rewrite length_reverse. unfold scalar_bytes.
  apply Nat2Z.inj. by rewrite length_Z_to_little_endian by lia.
Qed.

Lemma secret_roundtrip k :
  is_secret k -> SecretKey_deserialize (SecretKey_serialize k) = Some k.
Proof.
  intros Hk. destruct (secret_serialize_ok k (secret_scalar k Hk)) as [Hl Hv].
  by rewrite secret_deserialize_ok, Hl, Hv, bool_decide_true.
Qed.

Lemma public_roundtrip p :
  torsion p -> p <> g0 -> PublicKey_deserialize (PublicKey_serialize p) = Some p.
Proof. intros Ht Hp. apply public_deserialize_ok. by rewrite public_serialize_ok. Qed.

Lemma generator_mul_nonzero k :
  is_secret k -> gmul k ffi_p1_generator <> g0.
Proof.
  intros Hk E. rewrite <- (gmul_0_l ffi_p1_generator) in E.
  apply gmul_inj in E; [|apply generator_order|apply generator_nonzero].
  apply fr_small_inj in E; unfold is_secret in Hk; lia.
Qed.

Lemma public_key_roundtrip k :
  is_secret k ->
  PublicKey_deserialize (PublicKey_serialize (SecretKey_public_key k)) =
    Some (SecretKey_public_key k).
Proof.
  intros Hk. rewrite public_key_ok. apply public_roundtrip.
  - apply gmul_torsion, generator_order.
  - by apply generator_mul_nonzero.
Qed.
End utils_facts.

#[export] Hint Resolve scalar_bits mod_scalar secret_scalar scalar_256 u64_scalar
  generator_order hash_to_g1_order hash_to_g2_order gmul_torsion
  torsion_0 torsion_add : blst.
