(* ===== verification/BlstIdeal.v ===== *)
(** * A concrete pairing library

    An instance of [Blst] that satisfies [BlstLaws]: the group is the field of
    residues itself, so that the multiples of the generator are the residues.
    It is used in the witnesses only: it shows that the laws can hold together,
    and it makes the definitions on keys and signatures computable. *)

From Stdlib Require Import Zmod Zcong.
From stdpp Require Import list_numbers.
From S2P Require Import Prelude Network Scalars Blst.

Definition Fr_module : ZModule Fr := {|
  g0 := Zmod.zero;
  gadd := Zmod.add;
  gmul z x := Zmod.mul (fr z) x
|}.

(** A point as 48 bytes, a signature as 32. *)
Definition fr_bytes (n : Z) (x : Fr) : bytes := Z_to_little_endian n 8 (Zmod.to_Z x).
Definition bytes_fr (bs : bytes) : Fr := fr (le_val bs).

Definition ideal_hash (m : bytes) : Fr := fr (le_val m + 3).

#[local] Existing Instance Fr_module.

Definition ideal_blst : Blst := {|
  p1 := Fr;
  p2 := Fr;
  Signature := Fr;
  p1_eq_dec := _;
  p2_eq_dec := _;
  Signature_eq_dec := _;
  p1_module := Fr_module;
  p2_module := Fr_module;
  ffi_p1_generator := Zmod.one;
  ffi_hash_to_g1 _ := fr 5;
  ffi_hash_to_g2 := ideal_hash;
  ffi_scalar_from_uint64 l := default 0 (head l);
  ffi_scalar_from_be_bytes bs := be_val bs mod MODULUS;
  ffi_scalar_from_le_bytes bs := le_val bs mod MODULUS;
  ffi_sk_add_n_check a b := (a + b) mod MODULUS;
  ffi_sk_sub_n_check a b := (a - b) mod MODULUS;
  ffi_sk_mul_n_check a b := (a * b) mod MODULUS;
  ffi_sk_inverse a := Z.invmod a MODULUS;
  ffi_keygen ikm := 1 + le_val ikm mod (MODULUS - 1);
  ffi_sk_to_pk_in_g1 := fr;
  ffi_p1_add := Zmod.add;
  ffi_p1_mult p k nbits := gmul (k mod 2 ^ nbits) p;
  ffi_p1s_add := gsum;
  ffi_p1_compress := fr_bytes 48;
  ffi_p1_uncompress := bytes_fr;
  ffi_p2_mult p k nbits := gmul (k mod 2 ^ nbits) p;
  ffi_p2_serialize := fr_bytes 192;
  ffi_p2_deserialize := bytes_fr;
  core_Signature_from_bytes bs := Some (bytes_fr bs);
  core_Signature_deserialize bs := Some (bytes_fr bs);
  core_Signature_to_bytes := fr_bytes 96;
  core_Signature_sign k m := gmul k (ideal_hash m);
  core_Signature_verify s m pk := bool_decide (s = Zmod.mul pk (ideal_hash m));
  core_AggregateSignature_add := Zmod.add;
  INFINITY_SIGNATURE := fr_bytes 96 Zmod.zero;
  SecretKey_serialize k := reverse (scalar_bytes k);
  SecretKey_deserialize bs :=
    if bool_decide (length bs = SECRET_KEY_BYTES_LEN /\ is_secret (be_val bs))
    then Some (be_val bs) else None;
  SecretKey_public_key := fr;
  SecretKey_sign k m := gmul k (ideal_hash m);
  PublicKey_serialize := fr_bytes 48;
  PublicKey_deserialize bs :=
    if bool_decide (bs = fr_bytes 48 (bytes_fr bs) /\ bytes_fr bs <> Zmod.zero)
    then Some (bytes_fr bs) else None;
  Signature_serialize := fr_bytes 96;
  Signature_deserialize bs := Some (bytes_fr bs);
  Signature_verify s pk m := bool_decide (s = Zmod.mul pk (ideal_hash m))
|}.

(** ** The laws *)

#[local] Open Scope Zmod_scope.

Lemma Fr_module_laws : ZModuleLaws Fr.
Proof.
  constructor; unfold g0, gadd, gmul; simpl; intros.
  - ring.
  - ring.
  - ring.
  - change (fr 0) with (Zmod.zero : Fr). ring.
  - change (fr 1) with (Zmod.one : Fr). ring.
  - rewrite fr_add. ring.
  - ring.
  - rewrite fr_mul. ring.
Qed.

Lemma Fr_torsion (x : Fr) : torsion x.
Proof.
  unfold torsion, gmul, g0. simpl.
  replace (fr MODULUS) with (Zmod.zero : Fr); [ring|].
  change Zmod.zero with (fr 0). apply fr_eq. by vm_compute.
Qed.

Lemma fr_bytes_roundtrip n x : (48 <= n)%Z -> bytes_fr (fr_bytes n x) = x.
Proof.
  intros Hn. unfold bytes_fr, fr_bytes, le_val.
  rewrite little_endian_to_Z_to_little_endian by lia.
  pose proof modulus_bits as [_ Hu]. pose proof (Zmod.unsigned_pos_bound x ltac:(done)) as Hx.
  rewrite Z.mod_small.
  - unfold fr. apply Zmod.of_Z_to_Z.
  - split; [lia|]. apply (Z.lt_trans _ (2 ^ 255)); [lia|].
    apply Z.pow_lt_mono_r; lia.
Qed.

Lemma length_fr_bytes x : length (fr_bytes 48 x) = PUBLIC_KEY_BYTES_LEN.
Proof.
  apply Nat2Z.inj. unfold fr_bytes. by rewrite length_Z_to_little_endian by lia.
Qed.

#[local] Existing Instance ideal_blst.

Lemma invmod_ok (a : Z) :
  is_scalar (Z.invmod a MODULUS) /\
  (a mod MODULUS <> 0 -> (Z.invmod a MODULUS * a) mod MODULUS = 1)%Z.
Proof.
  split.
  - unfold is_scalar. rewrite <- Z.mod_invmod. apply mod_scalar.
  - apply Z.invmod_prime, modulus_prime.
Qed.

Lemma keygen_secret ikm : is_secret (1 + le_val ikm mod (MODULUS - 1)).
Proof.
  pose proof (Z.mod_pos_bound (le_val ikm) (MODULUS - 1) ltac:(done)).
  unfold is_secret. lia.
Qed.

Lemma generator_mul k : fr k = gmul k (Zmod.one : Fr).
Proof. symmetry. apply Zmod.mul_1_r. Qed.

Lemma verify_signed (pk : Fr) k m :
  pk = gmul k (Zmod.one : Fr) ->
  bool_decide (gmul k (ideal_hash m) = Zmod.mul pk (ideal_hash m)) = true.
Proof.
  intros ->. rewrite <- generator_mul. by apply bool_decide_true.
Qed.

Lemma secret_bytes k :
  is_scalar k ->
  length (reverse (scalar_bytes k)) = SECRET_KEY_BYTES_LEN /\
  be_val (reverse (scalar_bytes k)) = k.
Proof.
  intros Hk. unfold be_val. rewrite reverse_involutive, length_reverse. split.
  - apply Nat2Z.inj. unfold scalar_bytes. by rewrite length_Z_to_little_endian by lia.
  - apply scalar_bytes_val, scalar_256, Hk.
Qed.

Lemma public_bytes bs p :
  (if bool_decide (bs = fr_bytes 48 (bytes_fr bs) /\ bytes_fr bs <> Zmod.zero)
   then Some (bytes_fr bs) else None) = Some p <->
  bs = fr_bytes 48 p /\ torsion p /\ p <> Zmod.zero.
Proof.
  case_bool_decide as Hb; split.
  - intros [= <-]. destruct Hb. split; [done|]. split; [apply Fr_torsion|done].
  - intros (-> & _ & _). by rewrite fr_bytes_roundtrip by lia.
  - done.
  - intros (-> & _ & Hp). exfalso. apply Hb. by rewrite fr_bytes_roundtrip by lia.
Qed.

Lemma ideal_blst_laws : BlstLaws.
Proof.
  split.
  - exact Fr_module_laws.
  - exact Fr_module_laws.
  - apply Fr_torsion.
  - apply Zmod.one_neq_zero. pose proof modulus_bits. lia.
  - intros. apply Fr_torsion.
  - intros. apply Fr_torsion.
  - intros v _. exact eq_refl.
  - intros bs. exact eq_refl.
  - intros bs. exact eq_refl.
  - intros a b. exact eq_refl.
  - intros a b. exact eq_refl.
  - intros a b. exact eq_refl.
  - exact invmod_ok.
  - exact keygen_secret.
  - intros k _. apply generator_mul.
  - intros p q. exact eq_refl.
  - intros p k n. exact eq_refl.
  - intros l _. exact eq_refl.
  - exact length_fr_bytes.
  - intros p. apply fr_bytes_roundtrip. lia.
  - intros p k n. exact eq_refl.
  - intros p q. exact eq_refl.
  - apply (f_equal Some), fr_bytes_roundtrip. lia.
  - intros p. apply (f_equal Some), fr_bytes_roundtrip. lia.
  - intros k m. exact eq_refl.
  - intros k m _. by apply verify_signed.
  - exact secret_bytes.
  - intros bs. exact eq_refl.
  - exact generator_mul.
  - intros p. exact eq_refl.
  - exact public_bytes.
  - intros s. apply Nat2Z.inj. cbn [Signature_serialize ideal_blst]. unfold fr_bytes.
    by rewrite length_Z_to_little_endian by lia.
  - intros k m. apply fr_bytes_roundtrip. lia.
  - intros k m _. apply (f_equal Some), fr_bytes_roundtrip. lia.
  - intros k m _. apply (f_equal Some), fr_bytes_roundtrip. lia.
  - intros k m. apply (f_equal Some), fr_bytes_roundtrip. lia.
  - intros k m _. by apply verify_signed.
  - intros s k m _ Hv%bool_decide_eq_true_1. rewrite <- generator_mul in Hv. exact Hv.
Qed.
