(* ===== verification/Polynomial.v ===== *)
(** * Polynomials and their commitments

    Models [src/math/polynomial.rs]: the evaluation of a polynomial with
    integer coefficients, the commitment to it in a group, the evaluation of
    the commitment and its encoding.  The commitment evaluates in the exponent:
    this is what the verification of a share compares. *)

From Stdlib Require Import Zmod.
From stdpp Require Import list_numbers.
From S2P Require Import Prelude Network Scalars Blst BlstIdeal.

(** ** Code *)

Definition BLST_SCALAR_LEN : nat := 32.

Module Polynomial.

Record t := mk { coeffs : list Z }.

Definition new (cs : list Z) : t := mk cs.
Definition len (p : t) : nat := length (coeffs p).

Definition deg (p : t) : option nat :=
  if bool_decide (coeffs p = []) then None else Some (len p - 1)%nat.

Definition lc (p : t) : option Z :=
  d ← deg p; coeffs p !! d.

(** The loop runs over the coefficients below the leading one, downwards. *)
Definition eval (p : t) (x : Z) : Z :=
  match lc p with
  | None => 0
  | Some lc =>
      foldl (fun sum c => sum * x + c) lc (reverse (take (len p - 1) (coeffs p)))
  end.

End Polynomial.

Module CommittedPoly.
Section committed.
Context `{Blst}.

Record t := mk { commitments : list p1 }.

Fixpoint eval_loop (y : p1) (x_power x : Z) (cs : list p1) : p1 :=
  match cs with
  | [] => y
  | c :: cs =>
      let term := ffi_p1_mult c x_power 255 in
      eval_loop (ffi_p1_add y term) (ffi_sk_mul_n_check x_power x) x cs
  end.

Definition eval {E} (p : t) (x : Z) : outcome E p1 :=
  match commitments p with
  | [] => Panic "index out of bounds"
  | y :: cs => Ok (eval_loop y x x cs)
  end.

Definition bytes_len (p : t) : nat :=
  4 + PUBLIC_KEY_BYTES_LEN * length (commitments p).

(** [(n as u32).to_be_bytes()] *)
Definition u32_to_be_bytes (n : Z) : bytes :=
  reverse (Z_to_little_endian 4 8 (u32 n)).

Definition to_bytes (p : t) : bytes :=
  u32_to_be_bytes (Z.of_nat (length (commitments p))) ++
  mjoin (map ffi_p1_compress (commitments p)).

(** [&bytes[from..to]] *)
Definition slice {E} (bs : bytes) (from to : nat) : outcome E bytes :=
  if (to <=? length bs)%nat then Ok (take (to - from) (drop from bs))
  else Panic "range end index out of range for slice".

Fixpoint from_bytes_loop {E} (size : nat) (bs : bytes) (index : nat)
  : outcome E (list p1) :=
  match size with
  | O => mret []
  | S size =>
      ser_cm ← slice bs index (index + PUBLIC_KEY_BYTES_LEN);
      let cm := ffi_p1_uncompress ser_cm in
      rest ← from_bytes_loop size bs (index + PUBLIC_KEY_BYTES_LEN);
      mret (cm :: rest)
  end.

Definition from_bytes {E} (bs : bytes) : outcome E t :=
  size_bytes ← slice bs 0 4;
  let size := be_val size_bytes in
  cs ← from_bytes_loop (Z.to_nat size) bs 4;
  mret (mk cs).
End committed.
End CommittedPoly.

(** Bytes pushed behind a coefficient until it has the length of a scalar. *)
Definition pad_le (bs : bytes) : bytes :=
  if (length bs <? BLST_SCALAR_LEN)%nat
  then bs ++ replicate (BLST_SCALAR_LEN - length bs) 0 else bs.

(** [<Polynomial<BigInt> as Commitable>::commit] *)
Definition commit `{Blst} (p : Polynomial.t) (g : p1) : CommittedPoly.t :=
  CommittedPoly.mk
    (map (fun coeff => ffi_p1_mult g (le_val (pad_le (to_bytes_le coeff))) 255)
       (Polynomial.coeffs p)).

(** ** Evaluation *)

(** The value of a list of coefficients, lowest first. *)
Definition horner (cs : list Z) (x : Z) : Z :=
  foldr (fun c acc => c + x * acc) 0 cs.

Lemma foldl_horner cs x a :
  foldl (fun sum c => sum * x + c) a (reverse cs) =
  horner cs x + a * x ^ Z.of_nat (length cs).
Proof.
  induction cs as [|c cs IH]; simpl; [by rewrite Z.mul_1_r|].
  rewrite reverse_cons, foldl_app, IH. simpl foldl.
  rewrite Nat2Z.inj_succ, Z.pow_succ_r by lia. ring.
Qed.

Lemma horner_app cs ds x :
  horner (cs ++ ds) x = horner cs x + x ^ Z.of_nat (length cs) * horner ds x.
Proof.
  induction cs as [|c cs IH]; simpl length; [simpl app; simpl; lia|].
  rewrite Nat2Z.inj_succ, Z.pow_succ_r by lia. simpl in *. rewrite IH. ring.
Qed.

Lemma eval_horner p x : Polynomial.eval p x = horner (Polynomial.coeffs p) x.
Proof.
  destruct p as [cs]. unfold Polynomial.eval, Polynomial.lc, Polynomial.deg,
    Polynomial.len. simpl. destruct cs as [|c cs' _] using rev_ind; [done|].
  rewrite bool_decide_false by (by destruct cs'). simpl.
  rewrite length_app, Nat.add_sub, lookup_app_r, Nat.sub_diag by lia. simpl.
  rewrite take_app_length, foldl_horner, horner_app. simpl. ring.
Qed.

(** The residue of the value depends on the residues only. *)
Definition horner_fr (cs : list Z) (x : Fr) : Fr :=
  foldr (fun c acc => Zmod.add (fr c) (Zmod.mul x acc)) Zmod.zero cs.

Lemma fr_horner cs x : fr (horner cs x) = horner_fr cs (fr x).
Proof.
  induction cs as [|c cs IH]; simpl; [done|].
  by rewrite fr_add, fr_mul, IH.
Qed.

Lemma horner_fr_deg cs : deg_lt (length cs) (horner_fr cs).
Proof.
  induction cs as [|c cs IH]; simpl; [done|]. exists (fr c), (horner_fr cs).
  done.
Qed.

(** ** Commitments *)

Section commitments.
Context `{BlstLaws}.

Lemma pad_le_val z : 0 <= z -> le_val (pad_le (to_bytes_le z)) = z.
Proof.
  intros Hz. unfold pad_le. destruct (_ <? _)%nat.
  - by rewrite le_val_app_zeros, le_val_to_bytes_le.
  - by apply le_val_to_bytes_le.
Qed.

Lemma commit_spec cs g :
  Forall is_scalar cs ->
  commit (Polynomial.mk cs) g = CommittedPoly.mk (map (fun c => gmul c g) cs).
Proof.
  intros Hcs. unfold commit. f_equal. simpl. apply map_ext_in.
  intros c Hc%list_elem_of_In. rewrite Forall_forall in Hcs.
  pose proof (Hcs c Hc) as Hs. destruct (Hs) as [? _].
  by rewrite p1_mult_ok, pad_le_val, scalar_bits.
Qed.

(** The loop adds the terms of the remaining coefficients. *)
Lemma eval_loop_spec y xp x cs h :
  torsion h -> is_scalar xp ->
  CommittedPoly.eval_loop y xp x (map (fun c => gmul c h) cs) =
  gadd y (gmul (xp * horner cs x) h).
Proof.
  intros Hh. revert y xp. induction cs as [|c cs IH]; intros y xp Hxp; simpl.
  - by rewrite Z.mul_0_r, gmul_0_l, gadd_0_r.
  - rewrite IH by (rewrite sk_mul_ok; apply mod_scalar).
    rewrite p1_add_ok, p1_mult_ok, scalar_bits, <- gmul_mul, <- gadd_assoc by done.
    rewrite <- gmul_add_l. f_equal. apply gmul_fr; [done|].
    rewrite sk_mul_ok, !fr_add, !fr_mul, fr_mod, !fr_add, !fr_mul.
    ring.
Qed.

(** The evaluation of a commitment is the commitment to the evaluation. *)
Lemma committed_eval cs h x {E} :
  Forall is_scalar cs -> cs <> [] -> torsion h -> is_scalar x ->
  CommittedPoly.eval (E:=E) (commit (Polynomial.mk cs) h) x =
  Ok (gmul (Polynomial.eval (Polynomial.mk cs) x) h).
Proof.
  intros Hcs Hne Hh Hx. rewrite commit_spec, eval_horner by done.
  destruct cs as [|c cs]; [done|]. unfold CommittedPoly.eval. simpl.
  by rewrite eval_loop_spec, <- gmul_add_l by done.
Qed.

Lemma u32_be_bytes n :
  0 <= n <= u32_max ->
  length (CommittedPoly.u32_to_be_bytes n) = 4%nat /\
  be_val (CommittedPoly.u32_to_be_bytes n) = n.
Proof.
  intros Hn. unfold CommittedPoly.u32_to_be_bytes, be_val, le_val.
  rewrite reverse_involutive, length_reverse, u32_id by done. split.
  - apply Nat2Z.inj. by rewrite length_Z_to_little_endian by lia.
  - rewrite little_endian_to_Z_to_little_endian, Z.mod_small by (unfold u32_max in Hn; lia).
    done.
Qed.

Lemma slice_spec {E} (bs cs ds : bytes) :
  CommittedPoly.slice (E:=E) (bs ++ cs ++ ds) (length bs) (length bs + length cs) =
  Ok cs.
Proof.
  unfold CommittedPoly.slice. rewrite !length_app, (proj2 (Nat.leb_le _ _)) by lia.
  rewrite drop_app_length. f_equal.
  replace (length bs + length cs - length bs)%nat with (length cs) by lia.
  apply take_app_length.
Qed.

Lemma from_bytes_loop_spec {E} (bs : bytes) cs :
  CommittedPoly.from_bytes_loop (E:=E) (length cs)
    (bs ++ mjoin (map ffi_p1_compress cs)) (length bs) = Ok cs.
Proof.
  revert bs. induction cs as [|c cs IH]; intros bs; [done|].
  change (mjoin (map ffi_p1_compress (c :: cs))) with
    (ffi_p1_compress c ++ mjoin (map ffi_p1_compress cs)).
  simpl length. simpl CommittedPoly.from_bytes_loop.
  rewrite <- (p1_compress_length c), slice_spec. simpl.
  rewrite <- length_app, app_assoc, IH. simpl. by rewrite p1_uncompress_compress.
Qed.

(** Decoding an encoded commitment gives it back. *)
Lemma committed_bytes_roundtrip {E} (p : CommittedPoly.t) :
  Z.of_nat (length (CommittedPoly.commitments p)) <= u32_max ->
  CommittedPoly.from_bytes (E:=E) (CommittedPoly.to_bytes p) = Ok p.
Proof.
  intros Hn. destruct p as [cs]. unfold CommittedPoly.from_bytes,
    CommittedPoly.to_bytes. cbn [CommittedPoly.commitments] in *.
  set (n := Z.of_nat (length cs)) in *.
  destruct (u32_be_bytes n ltac:(lia)) as [Hlen Hval].
  pose proof (slice_spec (E:=E) [] (CommittedPoly.u32_to_be_bytes n)
    (mjoin (map ffi_p1_compress cs))) as Hs. rewrite app_nil_l in Hs.
  pose proof (from_bytes_loop_spec (E:=E) (CommittedPoly.u32_to_be_bytes n) cs)
    as Hl. rewrite Hlen in Hs, Hl.
  change (length [] + 4)%nat with 4%nat in Hs. change (length []) with 0%nat in Hs.
  rewrite Hs. cbn [mbind outcome_bind]. rewrite Hval. subst n. by rewrite Nat2Z.id, Hl.
Qed.

Lemma to_bytes_length (p : CommittedPoly.t) :
  length (CommittedPoly.to_bytes p) = CommittedPoly.bytes_len p.
Proof.
  destruct p as [cs]. unfold CommittedPoly.to_bytes, CommittedPoly.bytes_len.
  cbn [CommittedPoly.commitments].
  rewrite length_app. unfold CommittedPoly.u32_to_be_bytes. rewrite length_reverse.
  assert (length (Z_to_little_endian 4 8 (u32 (Z.of_nat (length cs)))) = 4%nat) as ->.
  { apply Nat2Z.inj. by rewrite length_Z_to_little_endian by lia. }
  assert (length (mjoin (map ffi_p1_compress cs)) =
    (PUBLIC_KEY_BYTES_LEN * length cs)%nat) as ->; [|done].
  induction cs as [|c cs IH]; [done|]. simpl. rewrite length_app, IH, p1_compress_length.
  unfold PUBLIC_KEY_BYTES_LEN. lia.
Qed.
End commitments.

(** ** The properties *)

(** The value of a polynomial as the sum of its terms. *)
Definition power_sum (cs : list Z) (x : Z) : Z :=
  zsum (fun e => e.2 * x ^ Z.of_nat e.1) (zip (seq 0 (length cs)) cs).

Lemma power_sum_from cs x k :
  zsum (fun e => e.2 * x ^ Z.of_nat e.1) (zip (seq k (length cs)) cs) =
  x ^ Z.of_nat k * horner cs x.
Proof.
  revert k. induction cs as [|c cs IH]; intros k; [simpl; lia|].
  cbn [length seq zip zip_with zsum foldr map horner fst snd].
  change (c * x ^ Z.of_nat k + zsum (fun e => e.2 * x ^ Z.of_nat e.1)
    (zip (seq (S k) (length cs)) cs) = x ^ Z.of_nat k * (c + x * horner cs x)).
  rewrite IH, Nat2Z.inj_succ, Z.pow_succ_r by lia. ring.
Qed.

Lemma power_sum_horner cs x : power_sum cs x = horner cs x.
Proof. unfold power_sum. rewrite power_sum_from. simpl Z.of_nat. rewrite Z.pow_0_r. ring. Qed.

Section properties.
Context `{BlstLaws}.

(** Both evaluations compute the sum of the terms.  The loop of
    [Polynomial::eval] gives the sum of the coefficients times the powers of
    the point; the loop of [CommittedPoly::eval] over a commitment gives the
    same sum times the base point, without knowing the coefficients. *)
Theorem evaluations_are_power_sums cs h x :
  Forall is_scalar cs -> cs <> [] -> torsion h -> is_scalar x ->
  Polynomial.eval (Polynomial.new cs) x = power_sum cs x /\
  CommittedPoly.eval (E:=DvfError) (commit (Polynomial.new cs) h) x =
    Ok (gmul (power_sum cs x) h).
Proof.
  intros Hcs Hne Hh Hx. rewrite power_sum_horner. unfold Polynomial.new.
  by rewrite committed_eval, eval_horner by done.
Qed.

(** A loop that needs more bytes than there are panics. *)
Lemma from_bytes_loop_short {E} size (bs : bytes) index :
  (index <= length bs)%nat -> (length bs < index + PUBLIC_KEY_BYTES_LEN * size)%nat ->
  CommittedPoly.from_bytes_loop (E:=E) size bs index =
    Panic "range end index out of range for slice".
Proof.
  revert index. induction size as [|size IH]; intros index Hi Hlt; [lia|].
  cbn [CommittedPoly.from_bytes_loop]. unfold CommittedPoly.slice.
  destruct (Nat.leb_spec (index + PUBLIC_KEY_BYTES_LEN) (length bs)); [|done]. cbn.
  rewrite IH by (unfold PUBLIC_KEY_BYTES_LEN in *; lia). done.
Qed.

(** A commitment survives its encoding, and a part of an encoding is not
    taken for a commitment: decoding the bytes of a commitment gives it back,
    the encoding has the announced length, and decoding any proper prefix
    panics. *)
Theorem committed_poly_codec (p : CommittedPoly.t) :
  Z.of_nat (length (CommittedPoly.commitments p)) <= u32_max ->
  CommittedPoly.from_bytes (E:=DvfError) (CommittedPoly.to_bytes p) = Ok p /\
  length (CommittedPoly.to_bytes p) = CommittedPoly.bytes_len p /\
  forall k, (k < CommittedPoly.bytes_len p)%nat ->
    CommittedPoly.from_bytes (E:=DvfError) (take k (CommittedPoly.to_bytes p)) =
      Panic "range end index out of range for slice".
Proof.
  intros Hn. split; [by apply committed_bytes_roundtrip|].
  split; [apply to_bytes_length|]. intros k Hk.
  unfold CommittedPoly.from_bytes, CommittedPoly.slice at 1.
  rewrite length_take, to_bytes_length, Nat.min_l by lia.
  destruct (Nat.leb_spec 4 k) as [H4|H4]; [|done]. cbn [mbind outcome_bind].
  rewrite drop_0, take_take, Nat.min_l by lia.
  unfold CommittedPoly.to_bytes at 1. set (n := Z.of_nat _) in *.
  destruct (u32_be_bytes n ltac:(lia)) as [Hlen Hval].
  rewrite take_app_length', Hval by (by rewrite Hlen). unfold n. rewrite Nat2Z.id.
  rewrite from_bytes_loop_short; [done|..];
    rewrite length_take, to_bytes_length, Nat.min_l by lia; [done|].
  unfold CommittedPoly.bytes_len in Hk. done.
Qed.
End properties.

(** ** Witnesses *)

Section witnesses.
#[local] Existing Instances ideal_blst ideal_blst_laws.

Lemma evaluations_are_power_sums_witness :
  Polynomial.eval (Polynomial.new [7; 12]) 3 = power_sum [7; 12] 3 /\
  CommittedPoly.eval (E:=DvfError) (commit (Polynomial.new [7; 12]) another_p1_generator) 3 =
    Ok (gmul (power_sum [7; 12] 3) another_p1_generator).
Proof.
  apply (evaluations_are_power_sums [7; 12] another_p1_generator 3).
  - repeat constructor; pose proof modulus_bits; lia.
  - discriminate.
  - apply hash_to_g1_order.
  - unfold is_scalar. pose proof modulus_bits. lia.
Defined.

Lemma committed_poly_codec_witness :
  let p := commit (Polynomial.new [4; 9]) ffi_p1_generator in
  CommittedPoly.from_bytes (E:=DvfError) (CommittedPoly.to_bytes p) = Ok p /\
  length (CommittedPoly.to_bytes p) = CommittedPoly.bytes_len p /\
  forall k, (k < CommittedPoly.bytes_len p)%nat ->
    CommittedPoly.from_bytes (E:=DvfError) (take k (CommittedPoly.to_bytes p)) =
      Panic "range end index out of range for slice".
Proof.
  apply (committed_poly_codec (commit (Polynomial.new [4; 9]) ffi_p1_generator)).
  unfold commit, u32_max. cbn [CommittedPoly.commitments]. rewrite length_map. simpl. lia.
Defined.
End witnesses.
