(* ===== verification/Threshold.v ===== *)
(** * Threshold signatures

    Models [src/crypto/generic_threshold.rs], [src/crypto/impls/blst.rs] and
    the sampling of [src/utils/rand_utils.rs]: a validator's secret key is
    split with a random polynomial into a share per operator, and the partial
    signatures of enough operators are combined with the Lagrange coefficients
    at 0.  The combination is the signature of the split key whatever invalid
    or repeated signatures come with the valid ones, and fewer shares than the
    threshold are consistent with every secret key. *)

From Stdlib Require Import Zmod.
From S2P Require Import Prelude Network Scalars Blst BlstIdeal Polynomial.

(** ** Code *)

(** [RandUtilsRng::sample_vec]: the generator is the sequence of the samples
    that its uniform distribution draws. *)
Definition sample_vec (rng : nat -> Z) (len : nat) : list Z := map rng (seq 0 len).

Section code.
Context `{Blst}.

(** *** [src/crypto/impls/blst.rs] *)

(** The inner loop of [lagrange_coeffs], for the index [i]. *)
Definition lagrange_coeff (x : list Z) (i : nat) (xi : Z) : Z :=
  let xi := u64_to_blst_scalar xi in
  foldl (fun p '(j, xj) =>
    if bool_decide (i = j) then p
    else
      let xj := u64_to_blst_scalar xj in
      let tmp := ffi_sk_sub_n_check xj xi in
      let tmp := ffi_sk_inverse tmp in
      let tmp := ffi_sk_mul_n_check xj tmp in
      ffi_sk_mul_n_check p tmp)
    (u64_to_blst_scalar 1) (zip (seq 0 (length x)) x).

(** [n] is the length of the slice to fill. *)
Definition lagrange_coeffs {E} (n : nat) (x : list Z) : outcome E (list Z) :=
  require (bool_decide (n = length x)) "Different length";;
  mret (imap (lagrange_coeff x) x).

Record BlstThresholdSignature := mkThresholdSignature {
  agg : p2;
  threshold : nat
}.

Definition infinity {E} (t : nat) : outcome E BlstThresholdSignature :=
  match core_Signature_from_bytes INFINITY_SIGNATURE with
  | Some sig => Ok (mkThresholdSignature sig t)
  | None => Panic "should decode infinity signature"
  end.

(** The loop of [unsafe_aggregate]; [sigs[i]] panics when there is none. *)
Fixpoint aggregate_loop {E} (acc : p2) (coeffs : list Z) (sigs : list Signature)
  : outcome E p2 :=
  match coeffs with
  | [] => mret acc
  | c :: coeffs =>
      match sigs with
      | [] => Panic "index out of bounds"
      | s :: sigs =>
          let d := ffi_p2_deserialize (Signature_serialize s) in
          let d := ffi_p2_mult d c 255 in
          sig ← unwrap (core_Signature_deserialize (ffi_p2_serialize d));
          aggregate_loop (core_AggregateSignature_add acc sig) coeffs sigs
      end
  end.

Definition unsafe_aggregate {E} (self : BlstThresholdSignature)
  (sigs : list Signature) (ids : list Z) : outcome E Signature :=
  coeffs ← lagrange_coeffs (threshold self) ids;
  init ← infinity (threshold self);
  a ← aggregate_loop (agg init) coeffs sigs;
  unwrap (Signature_deserialize (core_Signature_to_bytes a)).

(** *** [src/crypto/generic_threshold.rs] *)

Fixpoint split_loop (poly : Polynomial.t) (ids : list Z) (kps : gmap Z Keypair)
  : outcome DvfError (gmap Z Keypair) :=
  match ids with
  | [] => mret kps
  | id :: ids =>
      if id =? 0 then Err (KeyGenError id)
      else
        let sk_share := pad_be (to_bytes_be (reduce (Polynomial.eval poly id) MODULUS)) in
        sk_share ← unwrap (SecretKey_deserialize sk_share);
        split_loop poly ids
          (<[id := mkKeypair _ (SecretKey_public_key sk_share) sk_share]> kps)
  end.

(** [coeffs[0] = ..] panics when the threshold is 0. *)
Definition share_poly {E} (self : BlstThresholdSignature) (rng : nat -> Z) (sk : Z)
  : outcome E Polynomial.t :=
  match sample_vec rng (threshold self) with
  | [] => Panic "index out of bounds"
  | _ :: coeffs =>
      mret (Polynomial.new (be_val (SecretKey_serialize sk) :: coeffs))
  end.

Definition key_split_with_poly (self : BlstThresholdSignature) (rng : nat -> Z)
  (sk : Z) (ids : list Z)
  : outcome DvfError (gmap Z Keypair * Polynomial.t) :=
  poly ← share_poly self rng sk;
  kps ← split_loop poly ids ∅;
  mret (kps, poly).

(** [sk] is the key [Keypair::random()] draws. *)
Definition key_gen (self : BlstThresholdSignature) (rng : nat -> Z) (sk : Z)
  (ids : list Z) : outcome DvfError (Keypair * gmap Z Keypair) :=
  '(kps, _) ← key_split_with_poly self rng sk ids;
  mret (mkKeypair _ (SecretKey_public_key sk) sk, kps).

Definition key_gen_with_poly (self : BlstThresholdSignature) (rng : nat -> Z)
  (sk : Z) (ids : list Z)
  : outcome DvfError (Keypair * gmap Z Keypair * Polynomial.t) :=
  '(kps, poly) ← key_split_with_poly self rng sk ids;
  mret (mkKeypair _ (SecretKey_public_key sk) sk, kps, poly).

(** [seeded] are the samples of the generator seeded with zeros. *)
Definition deterministic_key_split (seeded : nat -> Z)
  (self : BlstThresholdSignature) (sk : Z) (ids : list Z)
  : outcome DvfError (gmap Z Keypair) :=
  poly ← share_poly self seeded sk;
  split_loop poly ids ∅.

Definition deterministic_key_share (seeded : nat -> Z)
  (self : BlstThresholdSignature) (sk id : Z) : outcome DvfError Keypair :=
  if id =? 0 then Panic "Invalid id"
  else
    poly ← share_poly self seeded sk;
    let sk_share := pad_be (to_bytes_be (reduce (Polynomial.eval poly id) MODULUS)) in
    sk_share ← unwrap (SecretKey_deserialize sk_share);
    mret (mkKeypair _ (SecretKey_public_key sk_share) sk_share).

Record valid_sigs := mkValid {
  pks_valid : list p1;
  sigs_valid : list Signature;
  ids_valid : list Z;
  valid_set : gset Z
}.

Fixpoint valid_loop (t : nat) (msg : bytes) (v : valid_sigs)
  (entries : list (Signature * p1 * Z)) : outcome DvfError valid_sigs :=
  match entries with
  | [] => mret v
  | (sig, pk, id) :: entries =>
      if id =? 0 then Err (InvalidOperatorId id)
      else if bool_decide (id ∈ valid_set v) then valid_loop t msg v entries
      else if Signature_verify sig pk msg then
        let v := mkValid (pks_valid v ++ [pk]) (sigs_valid v ++ [sig])
                   (ids_valid v ++ [id]) ({[id]} ∪ valid_set v) in
        if (t <=? length (pks_valid v))%nat then mret v
        else valid_loop t msg v entries
      else valid_loop t msg v entries
  end.

Definition threshold_aggregate (self : BlstThresholdSignature)
  (sigs : list Signature) (pks : list p1) (ids : list Z) (msg : bytes)
  : outcome DvfError Signature :=
  ensure (bool_decide (length sigs = length pks))
    (DifferentLength (length sigs) (length pks));;
  ensure (bool_decide (length sigs = length ids))
    (DifferentLength (length sigs) (length ids));;
  ensure (threshold self <=? length sigs)%nat
    (InsufficientSignatures (length sigs) (threshold self));;
  v ← valid_loop (threshold self) msg (mkValid [] [] [] ∅)
        (zip (zip sigs pks) ids);
  ensure (threshold self <=? length (pks_valid v))%nat
    (InsufficientValidSignatures (length (pks_valid v)) (threshold self));;
  unsafe_aggregate self (sigs_valid v) (ids_valid v).
End code.

(** ** Recombination *)

Section recombination.
Context `{BlstLaws}.

Lemma fr_inverse a : fr a <> Zmod.zero -> fr (ffi_sk_inverse a) = Zmod.inv (fr a).
Proof.
  intros Ha. destruct (sk_inverse_ok a) as [_ Hinv].
  assert (a mod MODULUS <> 0) as Hm.
  { intros E. apply Ha. change Zmod.zero with (fr 0). by apply fr_eq. }
  specialize (Hinv Hm).
  assert (Zmod.mul (fr (ffi_sk_inverse a)) (fr a) = Zmod.one) as E.
  { rewrite <- fr_mul, <- fr_mod, Hinv. done. }
  apply (Zmod.mul_cancel_r_prime (fr a)); [apply modulus_prime|done|].
  by rewrite E, Zmod.mul_inv_same_l_prime by (apply modulus_prime || done).
Qed.

Lemma fr_u64_inj a b : is_u64 a -> is_u64 b -> fr a = fr b -> a = b.
Proof. intros Ha Hb. apply fr_small_inj; by apply u64_scalar. Qed.

Lemma lagrange_foldl xi i p l k :
  is_u64 xi -> Forall is_u64 l ->
  (forall j xj, l !! j = Some xj -> i = (k + j)%nat <-> xj = xi) ->
  fr (foldl (fun p '(j, xj) =>
    if bool_decide (i = j) then p
    else ffi_sk_mul_n_check p (ffi_sk_mul_n_check (u64_to_blst_scalar xj)
      (ffi_sk_inverse (ffi_sk_sub_n_check (u64_to_blst_scalar xj)
        (u64_to_blst_scalar xi))))) p (zip (seq k (length l)) l)) =
  Zmod.mul (fr p) (lagrange (fr xi) (map fr l) Zmod.zero).
Proof.
  intros Hxi Hl. revert p k. induction Hl as [|y l Hy Hl IH]; intros p k Hi; simpl.
  { by rewrite Zmod.mul_1_r. }
  pose proof (Hi 0%nat y eq_refl) as Hhd. rewrite Nat.add_0_r in Hhd.
  rewrite IH.
  2: { intros j xj Hj. rewrite <- (Hi (S j) xj Hj). lia. }
  destruct (decide (y = xi)) as [->|Hne].
  - rewrite bool_decide_true, decide_True by (done || by apply Hhd). done.
  - rewrite bool_decide_false by (intros E; by apply Hne, Hhd).
    assert (fr y <> fr xi) as Hf by (intros E%fr_u64_inj; done).
    rewrite decide_False by done.
    rewrite !sk_mul_ok, fr_mod, fr_mul, fr_mod, fr_mul, fr_inverse.
    + rewrite sk_sub_ok, fr_mod, fr_sub, !u64_to_blst_scalar_spec by done. ring.
    + rewrite sk_sub_ok, fr_mod, fr_sub, !u64_to_blst_scalar_spec by done.
      by rewrite Zmod.sub_eq_0_iff.
Qed.

(** The coefficient the code computes is the value at 0 of the basis
    polynomial. *)
Lemma lagrange_coeff_spec x i xi :
  NoDup x -> Forall is_u64 x -> x !! i = Some xi ->
  fr (lagrange_coeff x i xi) = lagrange (fr xi) (map fr x) Zmod.zero.
Proof.
  intros Hnd Hx Hi. unfold lagrange_coeff.
  rewrite (lagrange_foldl xi i _ x 0).
  - rewrite u64_to_blst_scalar_spec by (unfold is_u64, u64_max; lia).
    change (fr 1) with (Zmod.one : Fr). apply Zmod.mul_1_l.
  - rewrite Forall_forall in Hx. apply Hx. by eapply list_elem_of_lookup_2.
  - done.
  - intros j xj Hj. simpl. split.
    + intros <-. congruence.
    + intros ->. by eapply NoDup_lookup.
Qed.

Lemma lagrange_coeff_scalar x i xi : is_scalar (lagrange_coeff x i xi).
Proof.
  unfold lagrange_coeff. generalize (zip (seq 0 (length x)) x). intros l.
  assert (is_scalar (u64_to_blst_scalar 1)) as Hp.
  { rewrite u64_to_blst_scalar_spec by (unfold is_u64, u64_max; lia).
    apply u64_scalar. unfold is_u64, u64_max. lia. }
  revert Hp. generalize (u64_to_blst_scalar 1). induction l as [|[j xj] l IH];
    intros p Hp; simpl; [done|].
  apply IH. case_bool_decide; [done|]. rewrite sk_mul_ok. apply mod_scalar.
Qed.

(** The weighted sum of the shares is the constant coefficient. *)
Lemma shares_recombine x (share : Z -> Z) cs :
  NoDup x -> Forall is_u64 x -> length cs = length x ->
  (forall xi, xi ∈ x -> fr (share xi) = fr (horner cs xi)) ->
  fr (zsum (fun '(c, xi) => c * share xi) (zip (imap (lagrange_coeff x) x) x)) =
  fr (horner cs 0).
Proof.
  intros Hnd Hx Hlen Hs. rewrite fr_horner.
  change (fr 0) with (Zmod.zero : Fr).
  rewrite <- (lagrange_interpolation (horner_fr cs) (map fr x)).
  - assert (forall l k, (forall j xj, l !! j = Some xj -> x !! (k + j)%nat = Some xj) ->
      fr (zsum (fun '(c, xi) => c * share xi)
        (zip (imap (fun j => lagrange_coeff x (k + j)) l) l)) =
      fsum (fun a => Zmod.mul (horner_fr cs a) (lagrange a (map fr x) Zmod.zero))
        (map fr l)) as Hgen.
    { induction l as [|y l IH]; intros k Hl; [done|]. simpl.
      rewrite fr_add, fr_mul.
      rewrite (imap_ext _ (fun j => lagrange_coeff x (S k + j))).
      2: { intros. simpl. by rewrite Nat.add_succ_r. }
      rewrite IH.
      2: { intros j xj Hj. rewrite <- (Hl (S j) xj Hj). f_equal. lia. }
      pose proof (Hl 0%nat y eq_refl) as Hy.
      rewrite (lagrange_coeff_spec x _ y Hnd Hx Hy).
      rewrite Hs, fr_horner by (by eapply list_elem_of_lookup_2).
      f_equal. apply Zmod.mul_comm. }
    exact (Hgen x 0%nat (fun j xj Hj => Hj)).
  - apply NoDup_fmap_2_strong; [|done]. rewrite Forall_forall in Hx.
    intros a b Ha Hb. by apply fr_u64_inj; apply Hx.
  - rewrite length_map, <- Hlen. apply horner_fr_deg.
Qed.
End recombination.

(** ** Selecting the valid signatures *)

Section selection.
Context `{Blst} (t : nat) (msg : bytes).

Abbreviation entry := (Signature * p1 * Z)%type.

(** The operators that come with a signature that verifies. *)
Definition good_ids (l : list entry) : gset Z :=
  list_to_set (omap (fun '(s, pk, id) =>
    if Signature_verify s pk msg then Some id else None) l).

Definition triples (v : valid_sigs) : list entry :=
  zip (zip (sigs_valid v) (pks_valid v)) (ids_valid v).

Record valid_inv (all : list entry) (v : valid_sigs) : Prop := {
  inv_sigs : length (sigs_valid v) = length (ids_valid v);
  inv_pks : length (pks_valid v) = length (ids_valid v);
  inv_nodup : NoDup (ids_valid v);
  inv_set : valid_set v = list_to_set (ids_valid v);
  inv_good s pk id : (s, pk, id) ∈ triples v ->
    (s, pk, id) ∈ all /\ Signature_verify s pk msg = true
}.

Lemma triples_snoc v s pk id :
  length (sigs_valid v) = length (ids_valid v) ->
  length (pks_valid v) = length (ids_valid v) ->
  triples (mkValid (pks_valid v ++ [pk]) (sigs_valid v ++ [s])
    (ids_valid v ++ [id]) ({[id]} ∪ valid_set v)) = triples v ++ [(s, pk, id)].
Proof.
  intros Hs Hp. unfold triples. simpl.
  rewrite !zip_with_app by (rewrite ?length_zip_with; lia). done.
Qed.

Lemma valid_inv_push all v s pk id :
  valid_inv all v -> (s, pk, id) ∈ all -> Signature_verify s pk msg = true ->
  id ∉ valid_set v ->
  valid_inv all (mkValid (pks_valid v ++ [pk]) (sigs_valid v ++ [s])
    (ids_valid v ++ [id]) ({[id]} ∪ valid_set v)).
Proof.
  intros [Hs Hp Hnd Hset Hg] Hin Hv Hid. constructor; simpl.
  - rewrite !length_app. simpl. lia.
  - rewrite !length_app. simpl. lia.
  - rewrite Hset, elem_of_list_to_set in Hid. apply NoDup_app. split; [done|].
    split; [|apply NoDup_singleton]. by intros x Hx ->%list_elem_of_singleton.
  - rewrite Hset, list_to_set_app_L. set_solver.
  - intros s' pk' id'. rewrite triples_snoc by done.
    intros [?|E%list_elem_of_singleton]%elem_of_app; [by apply Hg|].
    by simplify_eq.
Qed.

(** The loop collects distinct operators with valid signatures, and stops with
    fewer than the threshold only when it has collected all of them. *)
Lemma valid_loop_spec all l v :
  valid_inv all v -> l ⊆ all -> (length (ids_valid v) < t)%nat ->
  (forall s pk id, (s, pk, id) ∈ l -> id <> 0) ->
  exists v', valid_loop t msg v l = Ok v' /\ valid_inv all v' /\
    (length (ids_valid v') = t \/
     (length (ids_valid v') < t)%nat /\
     list_to_set (ids_valid v') = valid_set v ∪ good_ids l) /\
    list_to_set (ids_valid v') ⊆ valid_set v ∪ good_ids l.
Proof.
  revert v. induction l as [|[[s pk] id] l IH]; intros v Hinv Hsub Hlt Hnz.
  - exists v. destruct Hinv. split; [done|]. split; [done|].
    unfold good_ids. simpl. split; [right; split; [done|]|]; set_solver.
  - assert (id <> 0) as Hid by (eapply Hnz, list_elem_of_here).
    assert (forall s pk id, (s, pk, id) ∈ l -> id <> 0) as Hnz'
      by (intros; eapply Hnz, list_elem_of_further; eassumption).
    assert (l ⊆ all) as Hsub' by (clear -Hsub; set_solver).
    simpl. rewrite (proj2 (Z.eqb_neq id 0) Hid).
    unfold good_ids. simpl. case_bool_decide as Hin.
    + destruct (IH v Hinv Hsub' Hlt Hnz') as (v' & Hr & Hi & Hc & Hs).
      exists v'. split; [done|]. split; [done|]. unfold good_ids in *.
      destruct (Signature_verify s pk msg); [|done]. simpl.
      split; [destruct Hc as [?|[? Hc]]; [by left|right; split; [done|]]|];
        clear -Hin Hc Hs; set_solver.
    + destruct (Signature_verify s pk msg) eqn:Hv; simpl.
      2: { destruct (IH v Hinv Hsub' Hlt Hnz') as (v' & Hr & Hi & Hc & Hs). by exists v'. }
      assert ((s, pk, id) ∈ all) as Hall by (apply Hsub, list_elem_of_here).
      pose proof (valid_inv_push all v s pk id Hinv Hall Hv Hin) as Hpush.
      set (v1 := mkValid _ _ _ _) in *.
      assert (length (ids_valid v1) = S (length (ids_valid v))) as Hlen1.
      { unfold v1. simpl. rewrite length_app. simpl. lia. }
      change (pks_valid v ++ [pk]) with (pks_valid v1).
      rewrite (inv_pks _ _ Hpush).
      destruct (Nat.leb_spec t (length (ids_valid v1))) as [Hge|Hlt1].
      * exists v1. split; [done|]. split; [done|]. split; [left; lia|].
        unfold v1. simpl. rewrite (inv_set _ _ Hinv), list_to_set_app_L.
        clear. set_solver.
      * destruct (IH v1 Hpush Hsub' Hlt1 Hnz') as (v' & Hr & Hi & Hc & Hs).
        exists v'. split; [done|]. split; [done|]. unfold good_ids in *.
        unfold v1 in Hc, Hs. simpl in Hc, Hs.
        split; [destruct Hc as [?|[? Hc]]; [by left|right; split; [done|]]|];
          clear -Hc Hs; set_solver.
Qed.
End selection.

(** ** Aggregation *)

Section aggregation.
Context `{BlstLaws}.

Lemma infinity_spec {E} t : infinity (E:=E) t = Ok (mkThresholdSignature g0 t).
Proof. unfold infinity. by rewrite infinity_ok. Qed.

(** The loop adds the multiples of the signatures' points. *)
Lemma aggregate_loop_spec {E} acc coeffs sigs (share : Z -> Z) ids msg :
  length coeffs = length ids -> Forall is_scalar coeffs ->
  sigs = map (fun id => SecretKey_sign (share id) msg) ids ->
  aggregate_loop (E:=E) acc coeffs sigs =
  Ok (gadd acc (gmul (zsum (fun '(c, id) => c * share id) (zip coeffs ids))
        (ffi_hash_to_g2 msg))).
Proof.
  revert acc sigs ids. induction coeffs as [|c coeffs IH]; intros acc sigs ids Hlen Hc ->.
  - simpl. by rewrite gmul_0_l, gadd_0_r.
  - destruct ids as [|id ids]; [done|]. apply Forall_cons in Hc as [Hc Hcs].
    simpl. rewrite core_deserialize_serialize. simpl.
    rewrite (IH _ _ ids) by (simpl in *; lia || done).
    rewrite aggregate_add_ok, p2_mult_ok, scalar_bits, signature_point by done.
    by rewrite <- gmul_mul, <- gadd_assoc, <- gmul_add_l.
Qed.

Section shares.
(** Shares of a key: the values of a polynomial of [threshold] coefficients. *)
Context (cs : list Z) (share : Z -> Z) (sk : Z).
Context (Hsk : is_secret sk) (Hsk0 : fr (horner cs 0) = fr sk).

Definition is_share (id : Z) : Prop :=
  is_u64 id /\ id <> 0 /\ is_secret (share id) /\ fr (share id) = fr (horner cs id).

Lemma unsafe_aggregate_shares {E} a ids msg :
  NoDup ids -> length ids = length cs -> Forall is_share ids ->
  unsafe_aggregate (E:=E) (mkThresholdSignature a (length cs))
    (map (fun id => SecretKey_sign (share id) msg) ids) ids =
  Ok (SecretKey_sign sk msg).
Proof.
  intros Hnd Hlen Hids. unfold unsafe_aggregate, lagrange_coeffs. simpl.
  rewrite bool_decide_true by done. simpl. rewrite infinity_spec. simpl.
  rewrite (aggregate_loop_spec _ _ _ share ids msg); [|by rewrite length_imap| |done].
  2: { apply Forall_forall. intros c (i & x & -> & _)%elem_of_lookup_imap.
       apply lagrange_coeff_scalar. }
  simpl. rewrite gadd_0_l. rewrite (gmul_fr _ sk).
  - by rewrite signature_from_point.
  - apply hash_to_g2_order.
  - rewrite (shares_recombine ids share cs); [done|done| |done|].
    + eapply Forall_impl; [done|]. by intros x [? _].
    + rewrite Forall_forall in Hids. intros x Hx. by apply Hids.
Qed.

(** The signatures of a list of operators with the operators' public keys. *)
Definition own_keys (l : list (Signature * p1 * Z)) : Prop :=
  forall s pk id, (s, pk, id) ∈ l ->
    is_share id /\ pk = gmul (share id) ffi_p1_generator.

Lemma triples_signed l v msg :
  valid_inv msg l v -> own_keys l ->
  sigs_valid v = map (fun id => SecretKey_sign (share id) msg) (ids_valid v) /\
  Forall is_share (ids_valid v).
Proof.
  intros Hinv Hown. destruct Hinv as [Hs Hp _ _ Hg]. unfold triples in Hg.
  revert Hs Hp Hg. generalize (sigs_valid v) (pks_valid v) (ids_valid v).
  intros sigs pks ids. revert sigs pks.
  induction ids as [|id ids IH]; intros [|s sigs] [|pk pks] Hs Hp Hg; simpl in *;
    try lia; [done|].
  destruct (Hg s pk id ltac:(apply list_elem_of_here)) as [Hin Hv].
  destruct (Hown s pk id Hin) as [Hsh ->].
  destruct (IH sigs pks ltac:(lia) ltac:(lia)) as [-> HF].
  { intros s' pk' id' Hin'. apply Hg. by apply list_elem_of_further. }
  destruct (Hsh) as (_ & _ & Hsec & _).
  rewrite (signature_unique s (share id) msg Hsec Hv). auto.
Qed.

(** The outcome of an aggregation, for every list of signatures submitted
    under the operators' own keys. *)
Lemma threshold_aggregate_shares a sigs pks ids msg :
  (0 < length cs)%nat ->
  length sigs = length pks -> length sigs = length ids ->
  own_keys (zip (zip sigs pks) ids) ->
  threshold_aggregate (mkThresholdSignature a (length cs)) sigs pks ids msg =
  if (length sigs <? length cs)%nat
  then Err (InsufficientSignatures (length sigs) (length cs))
  else
    let valid := size (good_ids msg (zip (zip sigs pks) ids)) in
    if (valid <? length cs)%nat
    then Err (InsufficientValidSignatures valid (length cs))
    else Ok (SecretKey_sign sk msg).
Proof.
  intros Ht Hp Hi Hown. unfold threshold_aggregate.
  rewrite !bool_decide_true by done. simpl.
  rewrite Nat.leb_antisym. destruct (length sigs <? length cs)%nat; [done|]. simpl.
  set (l := zip (zip sigs pks) ids) in *.
  destruct (valid_loop_spec (length cs) msg l l (mkValid [] [] [] ∅))
    as (v & -> & Hinv & Hc & Hsub); simpl; [|done|done| |].
  { constructor; simpl; try done; [apply NoDup_nil_2|by intros ? ? ? ?%elem_of_nil]. }
  { intros s pk id Hin. by destruct (Hown s pk id Hin) as [(_ & Hnz & _) _]. }
  simpl in Hc, Hsub. rewrite union_empty_l_L in Hc, Hsub.
  destruct (triples_signed l v msg Hinv Hown) as [Hsigs Hshares].
  destruct Hinv as [_ Hlen Hnd _ _].
  pose proof (size_list_to_set (C:=gset Z) (ids_valid v) Hnd) as Hsize.
  rewrite Hlen. destruct Hc as [Hc|[Hlt Hc]].
  - pose proof (subseteq_size _ _ Hsub) as Hle. rewrite Hsize, Hc in Hle.
    rewrite (proj2 (Nat.ltb_ge _ _) Hle), Hc, Nat.leb_refl. simpl.
    rewrite Hsigs. by apply unsafe_aggregate_shares.
  - rewrite <- Hc, Hsize, (proj2 (Nat.ltb_lt _ _) Hlt).
    by rewrite (proj2 (Nat.leb_gt _ _) Hlt).
Qed.
End shares.
End aggregation.

(** ** Splitting a key *)

Section splitting.
Context `{BlstLaws}.

(** The share of an operator. *)
Definition share_of (poly : Polynomial.t) (id : Z) : Z :=
  Polynomial.eval poly id mod MODULUS.

Definition share_keypair (poly : Polynomial.t) (id : Z) : Keypair :=
  mkKeypair _ (SecretKey_public_key (share_of poly id)) (share_of poly id).

Lemma share_decoded {E} poly id :
  unwrap (E:=E) (SecretKey_deserialize
    (pad_be (to_bytes_be (reduce (Polynomial.eval poly id) MODULUS)))) =
  if bool_decide (is_secret (share_of poly id)) then Ok (share_of poly id)
  else Panic "called unwrap on a None value".
Proof.
  rewrite reduce_mod by done. fold (share_of poly id).
  destruct (pad_be_spec (share_of poly id)) as [Hlen Hval].
  { apply scalar_256, mod_scalar. }
  rewrite secret_deserialize_ok, Hlen, Hval.
  destruct (decide (is_secret (share_of poly id))) as [Hs|Hs].
  - by rewrite !bool_decide_true.
  - by rewrite !bool_decide_false by (done || by intros [_ ?]).
Qed.

(** What the loop leaves in the map, when it returns. *)
Lemma split_loop_spec poly ids kps kps' :
  split_loop poly ids kps = Ok kps' ->
  (forall id, id ∈ ids -> id <> 0 /\ is_secret (share_of poly id)) /\
  (forall id, kps' !! id =
    if decide (id ∈ ids) then Some (share_keypair poly id) else kps !! id).
Proof.
  revert kps. induction ids as [|x ids IH]; intros kps; cbn [split_loop].
  { intros [= <-]. split; [by intros ? ?%elem_of_nil|]. intros id.
    by rewrite decide_False by apply not_elem_of_nil. }
  destruct (Z.eqb_spec x 0) as [|Hx]; [done|].
  rewrite share_decoded. case_bool_decide as Hs; [|done]. simpl. intros Hr.
  destruct (IH _ Hr) as [Hids Hmap]. split.
  - intros id [->|Hin]%elem_of_cons; auto.
  - intros id. rewrite Hmap. destruct (decide (id ∈ ids)).
    + by rewrite decide_True by set_solver.
    + destruct (decide (id = x)) as [->|].
      * rewrite lookup_insert_eq, decide_True by set_solver. done.
      * by rewrite lookup_insert_ne, decide_False by set_solver.
Qed.

(** It returns when no identifier is 0 and no share is. *)
Lemma split_loop_returns poly ids kps :
  (forall id, id ∈ ids -> id <> 0 /\ share_of poly id <> 0) ->
  exists kps', split_loop poly ids kps = Ok kps'.
Proof.
  revert kps. induction ids as [|x ids IH]; intros kps Hids; simpl; [by eexists|].
  destruct (Hids x ltac:(set_solver)) as [Hx Hs].
  rewrite (proj2 (Z.eqb_neq x 0) Hx), share_decoded, bool_decide_true.
  - simpl. apply IH. set_solver.
  - pose proof (mod_scalar (Polynomial.eval poly x)). unfold is_scalar, is_secret in *.
    unfold share_of in *. lia.
Qed.

(** The polynomial of a split has the key as its constant coefficient and as
    many coefficients as the threshold. *)
Lemma share_poly_spec {E} self rng sk poly :
  is_scalar sk -> (forall i, is_scalar (rng i)) ->
  share_poly (E:=E) self rng sk = Ok poly ->
  exists cs, poly = Polynomial.mk (sk :: cs) /\ threshold self = S (length cs) /\
    Forall is_scalar (sk :: cs) /\ cs = map rng (seq 1 (length cs)).
Proof.
  intros Hsk Hrng. unfold share_poly, sample_vec.
  destruct (threshold self) as [|t]; [done|]. simpl. intros [= <-].
  destruct (secret_serialize_ok sk Hsk) as [_ ->].
  exists (map rng (seq 1 t)). rewrite length_map, length_seq.
  split; [done|]. split; [done|]. split; [|done]. constructor; [done|].
  apply Forall_forall. intros c (i & -> & _)%list_elem_of_fmap. apply Hrng.
Qed.

Lemma horner_0 c cs : horner (c :: cs) 0 = c.
Proof. simpl. lia. Qed.

(** The shares of a split are shares of the key. *)
Lemma share_is_share cs id :
  is_u64 id -> id <> 0 -> is_secret (share_of (Polynomial.mk cs) id) ->
  is_share cs (share_of (Polynomial.mk cs)) id.
Proof.
  intros. split; [done|]. split; [done|]. split; [done|].
  unfold share_of. by rewrite fr_mod, eval_horner.
Qed.
End splitting.

(** ** Hiding *)

Section hiding.
Context `{BlstLaws}.

Lemma deg_lt_coeffs n f :
  deg_lt n f ->
  exists cs, length cs = n /\ Forall is_scalar cs /\ forall x, f x = horner_fr cs x.
Proof.
  revert f. induction n as [|n IH]; intros f; simpl.
  - intros Hf. by exists [].
  - intros (a & g & Hg & Hf). destruct (IH g Hg) as (cs & <- & Hcs & Hgx).
    exists (Zmod.to_Z a :: cs). split; [done|]. split.
    + constructor; [|done]. apply Zmod.unsigned_pos_bound. done.
    + intros x. simpl. rewrite Hf, Hgx. unfold fr. by rewrite Zmod.of_Z_to_Z.
Qed.

(** A polynomial with another value at 0 and the same values at fewer points
    than it has coefficients. *)
Lemma same_values cs sk' ids :
  NoDup ids -> Forall is_u64 ids -> 0 ∉ ids -> (length ids < length cs)%nat ->
  is_scalar sk' ->
  exists cs', length (sk' :: cs') = length cs /\ Forall is_scalar cs' /\
    forall id, id ∈ ids -> fr (horner (sk' :: cs') id) = fr (horner cs id).
Proof.
  intros Hnd Hids H0ids Hlen Hsk'.
  assert (NoDup (0 :: ids)) as Hnd' by (by constructor).
  set (xs := map fr (0 :: ids)).
  assert (NoDup xs) as Hxs.
  { apply NoDup_fmap_2_strong; [|done]. intros a b Ha Hb.
    assert (forall c, c ∈ 0 :: ids -> is_u64 c) as Hu.
    { rewrite Forall_forall in Hids. intros c [->|Hc]%elem_of_cons; [|by apply Hids].
      unfold is_u64, u64_max. lia. }
    apply fr_u64_inj; by apply Hu. }
  set (f := fun x => Zmod.add (horner_fr cs x)
    (Zmod.mul (Zmod.sub (fr sk') (horner_fr cs Zmod.zero)) (lagrange Zmod.zero xs x))).
  assert (deg_lt (length cs) f) as Hdeg.
  { apply deg_lt_add; [apply horner_fr_deg|]. apply deg_lt_scale.
    apply (deg_lt_le (length xs)); [unfold xs; rewrite length_map; simpl; lia|].
    rewrite <- (filter_ne_length (Zmod.zero : Fr) xs Hxs); [by apply lagrange_deg|].
    apply list_elem_of_here. }
  destruct (deg_lt_coeffs _ _ Hdeg) as (ds & Hds & Hsc & Hfx).
  destruct ds as [|d ds]; [simpl in Hds; lia|].
  apply Forall_cons in Hsc as [Hd Hsc].
  assert (d = sk') as ->.
  { apply fr_small_inj; [done..|]. pose proof (Hfx Zmod.zero) as Hz.
    unfold f in Hz. rewrite lagrange_same in Hz. simpl in Hz.
    rewrite Zmod.mul_0_l, Zmod.add_0_r in Hz. rewrite <- Hz. ring. }
  exists ds. split; [done|]. split; [done|]. intros id Hid.
  rewrite !fr_horner, <- Hfx. unfold f.
  rewrite (lagrange_other _ _ xs); [ring| |].
  - apply list_elem_of_fmap. exists id. split; [done|]. by apply list_elem_of_further.
  - intros E. apply (NoDup_cons_1_1 _ _ Hxs). unfold xs in E.
    replace Zmod.zero with (fr id) by (by rewrite E).
    apply list_elem_of_fmap. by exists id.
Qed.
End hiding.

(** ** Threshold signatures of a split key *)

Section theorems.
Context `{BlstLaws}.

(** C9: an aggregation over a split key is decided exactly.  The key [sk] is
    split for the operators [members] with any random coefficients; any
    signatures are submitted, each under the identifier and the public key of
    one of the operators.  With fewer signatures than the threshold, or fewer
    operators with a valid one, the matching error says how many there were;
    otherwise the result is the signature by [sk] itself, whatever invalid or
    repeated signatures were submitted along. *)
Theorem threshold_aggregate_exact self rng sk members kps poly sigs pks ids msg :
  is_secret sk -> (forall i, is_scalar (rng i)) -> Forall is_u64 members ->
  key_split_with_poly self rng sk members = Ok (kps, poly) ->
  length sigs = length pks -> length sigs = length ids ->
  (forall s pk id, (s, pk, id) ∈ zip (zip sigs pks) ids ->
    exists kp, kps !! id = Some kp /\ pk = Keypair_pk kp) ->
  threshold_aggregate self sigs pks ids msg =
  if (length sigs <? threshold self)%nat
  then Err (InsufficientSignatures (length sigs) (threshold self))
  else
    let valid := size (good_ids msg (zip (zip sigs pks) ids)) in
    if (valid <? threshold self)%nat
    then Err (InsufficientValidSignatures valid (threshold self))
    else Ok (SecretKey_sign sk msg).
Proof.
  intros Hsk Hrng Hmem Hsplit Hp Hi Hown. unfold key_split_with_poly in Hsplit.
  destruct (share_poly self rng sk) as [poly'| | |] eqn:Hpoly; try done.
  simpl in Hsplit. destruct (split_loop poly' members ∅) as [kps'| | |] eqn:Hloop;
    try done. simpl in Hsplit. injection Hsplit as -> ->.
  destruct (share_poly_spec _ _ _ _ (secret_scalar _ Hsk) Hrng Hpoly)
    as (cs & -> & Ht & Hcs & _).
  destruct (split_loop_spec _ _ _ _ Hloop) as [Hids Hmap].
  destruct self as [a t]. simpl in Ht. subst t.
  apply (threshold_aggregate_shares (sk :: cs) (share_of (Polynomial.mk (sk :: cs))) sk);
    [done|by rewrite horner_0|simpl; lia|done|done|].
  intros s pk id Hin. destruct (Hown s pk id Hin) as (kp & Hkp & ->).
  rewrite Hmap, lookup_empty in Hkp. destruct (decide (id ∈ members)) as [Hm|]; [|done].
  injection Hkp as <-. destruct (Hids id Hm) as [Hnz Hsec]. split.
  - apply share_is_share; [|done|done]. rewrite Forall_forall in Hmem. by apply Hmem.
  - simpl. apply public_key_ok.
Qed.

(** C36: fewer shares than the threshold say nothing about the key: for any
    other key there are random coefficients that give the same operators the
    same shares. *)
Theorem shares_hide_key self rng sk sk' poly ids :
  is_secret sk -> is_secret sk' -> (forall i, is_scalar (rng i)) ->
  share_poly (E:=DvfError) self rng sk = Ok poly ->
  NoDup ids -> Forall is_u64 ids -> 0 ∉ ids -> (length ids < threshold self)%nat ->
  exists rng' poly', (forall i, is_scalar (rng' i)) /\
    share_poly (E:=DvfError) self rng' sk' = Ok poly' /\
    forall id, id ∈ ids -> share_of poly' id = share_of poly id.
Proof.
  intros Hsk Hsk' Hrng Hpoly Hnd Hids Hnz Hlen.
  destruct (share_poly_spec _ _ _ _ (secret_scalar _ Hsk) Hrng Hpoly)
    as (cs & -> & Ht & _ & _).
  destruct (same_values (sk :: cs) sk' ids) as (ds & Hds & Hsc & Hv);
    [done|done|done|simpl; lia|by apply secret_scalar|].
  exists (fun i => default 0 ((sk' :: ds) !! i)), (Polynomial.mk (sk' :: ds)).
  split; [|split].
  - intros i. destruct ((sk' :: ds) !! i) as [d|] eqn:Hi; simpl.
    + apply list_elem_of_lookup_2 in Hi. apply elem_of_cons in Hi as [->|Hi];
        [by apply secret_scalar|]. rewrite Forall_forall in Hsc. by apply Hsc.
    + unfold is_scalar. pose proof modulus_bits. lia.
  - unfold share_poly, sample_vec. rewrite Ht. simpl in Hds. injection Hds as Hds.
    rewrite <- Hds. simpl.
    destruct (secret_serialize_ok sk' (secret_scalar _ Hsk')) as [_ ->].
    do 3 f_equal. rewrite <- fmap_S_seq. clear.
    rewrite <- (list_fmap_compose S). apply list_eq. intros i.
    rewrite list_lookup_fmap. destruct (decide (i < length ds)%nat).
    + rewrite lookup_seq_lt by done. simpl. by destruct (lookup_lt_is_Some_2 ds i) as [? ->].
    + rewrite lookup_seq_ge, lookup_ge_None_2 by lia. done.
  - intros id Hid. unfold share_of. rewrite !eval_horner. simpl Polynomial.coeffs.
    apply fr_eq. by apply Hv.
Qed.
End theorems.

(** ** Witnesses

    Three operators, threshold 2, key 7, and the polynomial [7 + 12 x]. *)

Section witnesses.
#[local] Existing Instances ideal_blst ideal_blst_laws.

Definition demo_self : BlstThresholdSignature := mkThresholdSignature g0 2.
Definition demo_rng (i : nat) : Z := 11 + Z.of_nat (Nat.min i 1).
Definition demo_msg : bytes := [9; 4].
Definition demo_kps : gmap Z Keypair :=
  match key_split_with_poly demo_self demo_rng 7 [1; 2; 3] with
  | Ok (kps, _) => kps
  | _ => ∅
  end.
Definition demo_entries : list (Signature * p1 * Z) :=
  [(SecretKey_sign 20 demo_msg, fr 19, 1); (SecretKey_sign 31 demo_msg, fr 31, 2);
   (SecretKey_sign 31 demo_msg, fr 31, 2); (SecretKey_sign 43 demo_msg, fr 43, 3)].

Lemma demo_rng_scalar i : is_scalar (demo_rng i).
Proof. unfold demo_rng, is_scalar. pose proof modulus_bits. lia. Qed.

Lemma demo_split :
  key_split_with_poly demo_self demo_rng 7 [1; 2; 3] =
  Ok (demo_kps, Polynomial.mk [7; 12]).
Proof.
  assert (match key_split_with_poly demo_self demo_rng 7 [1; 2; 3] with
    | Ok (_, p) => Polynomial.coeffs p | _ => [] end = [7; 12]) as Hp
    by (vm_compute; reflexivity).
  unfold demo_kps. destruct (key_split_with_poly _ _ _ _) as [[kps [cs]]| | |];
    [|discriminate Hp..]. simpl in Hp. by rewrite Hp.
Qed.

Lemma demo_public id k :
  bool_decide (Keypair_pk <$> demo_kps !! id = Some (fr k)) = true ->
  exists kp, demo_kps !! id = Some kp /\ fr k = Keypair_pk kp.
Proof.
  intros Hb%bool_decide_eq_true_1. destruct (demo_kps !! id) as [kp|]; [|done].
  injection Hb as Hb. by exists kp.
Qed.

Lemma threshold_aggregate_exact_witness :
  threshold_aggregate demo_self (map (fun e => e.1.1) demo_entries)
    (map (fun e => e.1.2) demo_entries) (map snd demo_entries) demo_msg =
  Ok (SecretKey_sign 7 demo_msg).
Proof.
  rewrite (threshold_aggregate_exact demo_self demo_rng 7 [1; 2; 3] demo_kps
    (Polynomial.mk [7; 12])).
  - replace (size _) with 2%nat by (vm_compute; reflexivity). reflexivity.
  - unfold is_secret. pose proof modulus_bits. lia.
  - apply demo_rng_scalar.
  - repeat constructor; vm_compute; discriminate.
  - apply demo_split.
  - reflexivity.
  - reflexivity.
  - intros s pk id. cbn [zip zip_with map demo_entries fst snd]. intros Hin.
    repeat (apply elem_of_cons in Hin as [Hin|Hin];
      [injection Hin as -> -> ->; apply demo_public; vm_compute; reflexivity|]).
    by apply elem_of_nil in Hin.
Defined.

Lemma shares_hide_key_witness :
  exists rng' poly', (forall i, is_scalar (rng' i)) /\
    share_poly (E:=DvfError) demo_self rng' 8 = Ok poly' /\
    forall id, id ∈ [3] -> share_of poly' id = share_of (Polynomial.mk [7; 12]) id.
Proof.
  apply (shares_hide_key demo_self demo_rng 7 8 (Polynomial.mk [7; 12]) [3]).
  - unfold is_secret. pose proof modulus_bits. lia.
  - unfold is_secret. pose proof modulus_bits. lia.
  - apply demo_rng_scalar.
  - vm_compute. reflexivity.
  - apply NoDup_singleton.
  - repeat constructor; vm_compute; discriminate.
  - set_solver.
  - simpl. lia.
Defined.
End witnesses.
