(* ===== verification/Processes.v ===== *)
(** * Communicating processes

    The distributed key generation of [src/crypto/dkg.rs] runs one process per
    operator; the processes exchange messages over the pairwise channels of
    [src/network/io_committee.rs].  A process is a tree of sends, receives and
    random draws that ends with the outcome of the method; a network holds the
    processes, the positions on their random tapes and the queues.

    Every channel has one writer and one reader, so the order in which the
    processes are scheduled does not matter: the steps of two processes
    commute, and when one execution ends, every execution is at most as long
    and ends in the same network. *)

From S2P Require Import Prelude Network.

(** ** Processes *)

(** An [async] method that returns [Result<A, E>]. *)
Inductive io (E A : Type) : Type :=
| Done (o : outcome E A)
| Send (to : Z) (m : bytes) (k : io E A)
| Recv (from : Z) (k : bytes -> io E A)
| Draw (k : bytes -> io E A).
Arguments Done {E A} o.
Arguments Send {E A} to m k.
Arguments Recv {E A} from k.
Arguments Draw {E A} k.

#[global] Instance io_inhabited {E A} : Inhabited (io E A) :=
  populate (Done Diverged).

#[global] Instance io_ret {E} : MRet (io E) := fun A a => Done (Ok a).

Fixpoint io_bind' {E A B} (k : A -> io E B) (p : io E A) : io E B :=
  match p with
  | Done (Ok a) => k a
  | Done (Err e) => Done (Err e)
  | Done (Panic msg) => Done (Panic msg)
  | Done Diverged => Done Diverged
  | Send to m p => Send to m (io_bind' k p)
  | Recv from p => Recv from (fun m => io_bind' k (p m))
  | Draw p => Draw (fun r => io_bind' k (p r))
  end.
#[global] Instance io_bind {E} : MBind (io E) := fun A B k p => io_bind' k p.

Definition io_lift {E A} (o : outcome E A) : io E A := Done o.
Definition io_send {E} (to : Z) (m : bytes) : io E () := Send to m (mret ()).
Definition io_recv {E} (from : Z) : io E bytes := Recv from mret.
Definition io_draw {E} : io E bytes := Draw mret.

(** ** Networks *)

Section network.
Context {E A : Type} (tape : Z -> nat -> bytes).

Record network := mkNetwork {
  procs : gmap Z (io E A * nat);
  queues : gmap (Z * Z) (list bytes)
}.

(** The messages in flight from [i] to [j]. *)
Definition queue (c : network) (i j : Z) : list bytes :=
  default [] (queues c !! (i, j)).

(** The next step of the process [i], if it is not blocked. *)
Definition step_party (c : network) (i : Z) : option network :=
  '(p, n) ← procs c !! i;
  match p with
  | Done _ => None
  | Send to m k =>
      Some (mkNetwork (<[i := (k, n)]> (procs c))
              (<[(i, to) := queue c i to ++ [m]]> (queues c)))
  | Recv from k =>
      match queue c from i with
      | [] => None
      | m :: q =>
          Some (mkNetwork (<[i := (k m, n)]> (procs c))
                  (<[(from, i) := q]> (queues c)))
      end
  | Draw k =>
      Some (mkNetwork (<[i := (k (tape i n), S n)]> (procs c)) (queues c))
  end.

(** [execution sched c d]: the processes of [sched] step in that order. *)
Inductive execution : list Z -> network -> network -> Prop :=
| execution_nil c : execution [] c c
| execution_cons i sched c c' d :
    step_party c i = Some c' -> execution sched c' d -> execution (i :: sched) c d.

Definition stuck (c : network) : Prop := forall i, step_party c i = None.

Lemma execution_app s1 s2 c d e :
  execution s1 c d -> execution s2 d e -> execution (s1 ++ s2) c e.
Proof. induction 1; simpl; [done|]. intros. econstructor; eauto. Qed.

Lemma execution_one i c c' : step_party c i = Some c' -> execution [i] c c'.
Proof. intros. econstructor; [done|]. constructor. Qed.

(** *** Determinism *)

Lemma queue_insert_ne c ps i j k l q :
  (i, j) <> (k, l) ->
  queue (mkNetwork ps (<[(k, l) := q]> (queues c))) i j = queue c i j.
Proof. intros Hne. unfold queue. simpl. by rewrite lookup_insert_ne by congruence. Qed.

Lemma queue_insert_eq c ps i j q :
  queue (mkNetwork ps (<[(i, j) := q]> (queues c))) i j = q.
Proof. unfold queue. simpl. by rewrite lookup_insert_eq. Qed.

Lemma queue_procs c ps i j :
  queue (mkNetwork ps (queues c)) i j = queue c i j.
Proof. done. Qed.

Ltac net_step Hi Hj :=
  unfold step_party; cbn [procs queues];
  rewrite ?lookup_insert_ne, ?Hi, ?Hj by congruence; simpl;
  rewrite ?queue_procs, ?queue_insert_ne by congruence.

Ltac net_close :=
  eexists; split; [reflexivity|]; do 2 f_equal;
  first [done | by apply insert_insert_ne; congruence].

(** A send and a receive of different processes commute. *)
Lemma send_recv_diamond c i j to m k n from m' q k' n' :
  i <> j ->
  procs c !! i = Some (Send to m k, n) -> procs c !! j = Some (Recv from k', n') ->
  queue c from j = m' :: q ->
  exists d,
    step_party (mkNetwork (<[i := (k, n)]> (procs c))
      (<[(i, to) := queue c i to ++ [m]]> (queues c))) j = Some d /\
    step_party (mkNetwork (<[j := (k' m', n')]> (procs c))
      (<[(from, j) := q]> (queues c))) i = Some d.
Proof.
  intros Hij Hi Hj Hq. destruct (decide ((i, to) = (from, j))) as [E'|Hne].
  - injection E' as <- <-. unfold step_party. cbn [procs queues].
    rewrite !lookup_insert_ne, Hi, Hj by congruence. simpl.
    rewrite !queue_insert_eq, Hq. simpl. eexists. split; [reflexivity|].
    do 2 f_equal; [by apply insert_insert_ne|]. by rewrite !insert_insert_eq.
  - net_step Hi Hj. rewrite Hq. net_close.
Qed.

(** The steps of two processes commute. *)
Lemma step_diamond c i j c1 c2 :
  i <> j -> step_party c i = Some c1 -> step_party c j = Some c2 ->
  exists d, step_party c1 j = Some d /\ step_party c2 i = Some d.
Proof.
  intros Hij H1 H2. unfold step_party in H1, H2.
  destruct (procs c !! i) as [[pi ni]|] eqn:Hi; [|done].
  destruct (procs c !! j) as [[pj nj]|] eqn:Hj; [|done]. simpl in H1, H2.
  destruct pi as [oi|toi mi ki|fi ki|ki]; [done|..];
    destruct pj as [oj|toj mj kj|fj kj|kj]; try done;
    try (destruct (queue c fi i) as [|mi' qi] eqn:Hqi; [done|]);
    try (destruct (queue c fj j) as [|mj' qj] eqn:Hqj; [done|]);
    injection H1 as <-; injection H2 as <-.
  all: try (by eapply send_recv_diamond).
  all: try (destruct (send_recv_diamond c j i toj mj kj nj fi mi' qi ki ni)
    as (d & Hd1 & Hd2); [congruence|done..|by exists d]).
  all: net_step Hi Hj; rewrite ?Hqi, ?Hqj; net_close.
Qed.

(** When one execution ends, every step leads to the same end, one step
    sooner. *)
Lemma stuck_strip sched c d j c' :
  execution sched c d -> stuck d -> step_party c j = Some c' ->
  exists sched', execution sched' c' d /\ length sched = S (length sched').
Proof.
  intros Hx Hd. revert c'. induction Hx as [c|i sched c c1 d Hs Hx IH]; intros c' Hj.
  { by rewrite Hd in Hj. }
  destruct (decide (i = j)) as [->|Hij].
  - rewrite Hs in Hj. injection Hj as <-. by exists sched.
  - destruct (step_diamond c i j c1 c' Hij Hs Hj) as (e & He1 & He2).
    destruct (IH Hd e He1) as (sched' & Hx' & Hlen).
    exists (i :: sched'). split; [by econstructor|]. simpl. lia.
Qed.

(** Every execution extends to the end of one that ends. *)
Lemma execution_confluent sched c d sched' e :
  execution sched c d -> stuck d -> execution sched' c e ->
  exists rest, execution rest e d /\ length sched = (length sched' + length rest)%nat.
Proof.
  intros Hx Hd He. revert sched Hx.
  induction He as [c|j sched' c c' e Hs He IH]; intros sched Hx.
  - exists sched. split; [done|]. simpl. lia.
  - destruct (stuck_strip sched c d j c' Hx Hd Hs) as (s1 & Hx1 & Hl1).
    destruct (IH s1 Hx1) as (rest & Hr & Hl). exists rest. split; [done|].
    simpl. lia.
Qed.

Lemma execution_deterministic sched c d sched' e :
  execution sched c d -> stuck d -> execution sched' c e ->
  (length sched' <= length sched)%nat /\ (stuck e -> e = d).
Proof.
  intros Hx Hd He.
  destruct (execution_confluent _ _ _ _ _ Hx Hd He) as (rest & Hr & Hl).
  split; [lia|]. intros Hst. destruct Hr as [|i rest e c' d Hs Hr]; [done|].
  by rewrite Hst in Hs.
Qed.
End network.

(** ** One process alone *)

Inductive event := Out (to : Z) (m : bytes) | In (from : Z) (m : bytes).

Section local.
Context {E : Type} (tape : Z -> nat -> bytes) (i : Z).

(** [local p n tr p' n']: the process [i] goes from [p] to [p'] and the
    position [n] to [n'] of its tape with the sends and receives [tr]. *)
Inductive local {A} : io E A -> nat -> list event -> io E A -> nat -> Prop :=
| local_refl p n : local p n [] p n
| local_send to m k n tr p' n' :
    local k n tr p' n' -> local (Send to m k) n (Out to m :: tr) p' n'
| local_recv from m k n tr p' n' :
    local (k m) n tr p' n' -> local (Recv from k) n (In from m :: tr) p' n'
| local_draw k n tr p' n' :
    local (k (tape i n)) (S n) tr p' n' -> local (Draw k) n tr p' n'.

Lemma local_trans {A} (p p' p'' : io E A) n n' n'' tr tr' :
  local p n tr p' n' -> local p' n' tr' p'' n'' -> local p n (tr ++ tr') p'' n''.
Proof. induction 1; simpl; intros; [done|..]; constructor; auto. Qed.

Lemma local_bind {A B} (p : io E A) (k : A -> io E B) n tr a n' :
  local p n tr (Done (Ok a)) n' -> local (p ≫= k) n tr (k a) n'.
Proof.
  intros Hl. remember (Done (Ok a)) as q eqn:Hq. revert Hq.
  induction Hl; intros ->; cbn; [constructor|constructor; by apply IHHl..].
Qed.

(** A run of the first part of a sequence. *)
Lemma local_bind_k {A B} (p p' : io E A) (k : A -> io E B) n tr n' :
  local p n tr p' n' -> local (p ≫= k) n tr (p' ≫= k) n'.
Proof. induction 1; cbn; constructor; auto. Qed.

(** The part of a run that a sequencing point separates. *)
Lemma local_bind_inv {A B} (p : io E A) (k : A -> io E B) n tr b n' :
  local (p ≫= k) n tr (Done (Ok b)) n' ->
  exists a tr1 tr2 n1, tr = tr1 ++ tr2 /\
    local p n tr1 (Done (Ok a)) n1 /\ local (k a) n1 tr2 (Done (Ok b)) n'.
Proof.
  revert n tr. induction p as [o|to m p IH|from p IH|p IH]; intros n tr; cbn.
  - destruct o as [a|e|msg|]; intros Hl; [|by inversion Hl..].
    exists a, [], tr, n. split; [done|]. split; [constructor|done].
  - inversion 1 as [|? ? ? ? tr' ? ? Hl| |]; subst.
    destruct (IH _ _ Hl) as (a & t1 & t2 & n1 & -> & H1 & H2).
    exists a, (Out to m :: t1), t2, n1. split; [done|]. split; [by constructor|done].
  - inversion 1 as [| |? m ? ? tr' ? ? Hl|]; subst.
    destruct (IH _ _ _ Hl) as (a & t1 & t2 & n1 & -> & H1 & H2).
    exists a, (In from m :: t1), t2, n1. split; [done|]. split; [by constructor|done].
  - inversion 1 as [| | |? ? tr' ? ? Hl]; subst.
    destruct (IH _ _ _ Hl) as (a & t1 & t2 & n1 & -> & H1 & H2).
    exists a, t1, t2, n1. split; [done|]. split; [by constructor|done].
Qed.

Lemma local_lift_inv {A} (o : outcome E A) n tr a n' :
  local (io_lift o) n tr (Done (Ok a)) n' -> o = Ok a /\ tr = [] /\ n' = n.
Proof. by inversion 1. Qed.
End local.

(** ** Rounds

    In a round every process sends a message to every other, then takes the
    message of every other. *)

Section rounds.
Context {E A : Type} (tape : Z -> nat -> bytes).
Implicit Types c : network (E:=E) (A:=A).

(** The messages to or from [j]. *)
Definition msgs (j : Z) (l : list (Z * bytes)) : list bytes :=
  omap (fun '(k, m) => if decide (k = j) then Some m else None) l.

Lemma local_sends c i p n out p' n' :
  local tape i p n (map (fun '(j, m) => Out j m) out) p' n' ->
  procs c !! i = Some (p, n) ->
  exists sched c', execution tape sched c c' /\
    procs c' = <[i := (p', n')]> (procs c) /\
    forall a b, queue c' a b =
      queue c a b ++ if decide (a = i) then msgs b out else [].
Proof.
  intros Hl. remember (map _ out) as tr eqn:Htr. revert c out Htr.
  induction Hl as [p n|to m k n tr p' n' Hl IH|from m k n tr p' n' Hl IH|k n tr p' n' Hl IH];
    intros c out Htr Hp.
  - symmetry in Htr. apply map_eq_nil in Htr as ->. exists [], c.
    split; [constructor|]. split; [by rewrite insert_id|]. intros a b.
    destruct (decide (a = i)); simpl; by rewrite app_nil_r.
  - destruct out as [|[j m'] out]; [done|]. injection Htr as -> -> Htr.
    set (c1 := mkNetwork (<[i := (k, n)]> (procs c))
      (<[(i, j) := queue c i j ++ [m']]> (queues c))).
    destruct (IH c1 out Htr) as (sched & c' & Hx & Hpr & Hq).
    { simpl. by rewrite lookup_insert_eq. }
    exists (i :: sched), c'. split; [|split].
    + econstructor; [|done]. unfold step_party. by rewrite Hp.
    + rewrite Hpr. simpl. by rewrite insert_insert_eq.
    + intros a b. rewrite Hq. unfold c1. destruct (decide (a = i)) as [->|Ha].
      * simpl. destruct (decide (j = b)) as [->|Hjb].
        -- rewrite queue_insert_eq, <- app_assoc. done.
        -- by rewrite queue_insert_ne by congruence.
      * by rewrite queue_insert_ne by congruence.
  - by destruct out as [|[]].
  - set (c1 := mkNetwork (<[i := (k (tape i n), S n)]> (procs c)) (queues c)).
    destruct (IH c1 out Htr) as (sched & c' & Hx & Hpr & Hq).
    { simpl. by rewrite lookup_insert_eq. }
    exists (i :: sched), c'. split; [|split].
    + econstructor; [|done]. unfold step_party. by rewrite Hp.
    + rewrite Hpr. simpl. by rewrite insert_insert_eq.
    + intros a b. by rewrite Hq.
Qed.

Lemma local_recvs c i p n ins p' n' rest :
  local tape i p n (map (fun '(j, m) => In j m) ins) p' n' ->
  procs c !! i = Some (p, n) ->
  (forall a, queue c a i = msgs a ins ++ rest a) ->
  exists sched c', execution tape sched c c' /\
    procs c' = <[i := (p', n')]> (procs c) /\
    forall a b, queue c' a b = if decide (b = i) then rest a else queue c a b.
Proof.
  intros Hl. remember (map _ ins) as tr eqn:Htr. revert c ins Htr.
  induction Hl as [p n|to m k n tr p' n' Hl IH|from m k n tr p' n' Hl IH|k n tr p' n' Hl IH];
    intros c ins Htr Hp Hq.
  - symmetry in Htr. apply map_eq_nil in Htr as ->. exists [], c.
    split; [constructor|]. split; [by rewrite insert_id|]. intros a b.
    destruct (decide (b = i)) as [->|]; [|done]. by rewrite Hq.
  - by destruct ins as [|[]].
  - destruct ins as [|[j m'] ins]; [done|]. injection Htr as -> -> Htr.
    pose proof (Hq j) as Hj. simpl in Hj. rewrite decide_True in Hj by done.
    set (c1 := mkNetwork (<[i := (k m', n)]> (procs c))
      (<[(j, i) := msgs j ins ++ rest j]> (queues c))).
    destruct (IH c1 ins Htr) as (sched & c' & Hx & Hpr & Hq').
    { simpl. by rewrite lookup_insert_eq. }
    { intros a. unfold c1. destruct (decide (a = j)) as [->|Ha].
      - by rewrite queue_insert_eq.
      - rewrite queue_insert_ne by congruence. rewrite Hq. simpl.
        by rewrite decide_False by congruence. }
    exists (i :: sched), c'. split; [|split].
    + econstructor; [|done]. unfold step_party. rewrite Hp. simpl. by rewrite Hj.
    + rewrite Hpr. simpl. by rewrite insert_insert_eq.
    + intros a b. rewrite Hq'. unfold c1. destruct (decide (b = i)); [done|].
      by rewrite queue_insert_ne by congruence.
  - set (c1 := mkNetwork (<[i := (k (tape i n), S n)]> (procs c)) (queues c)).
    destruct (IH c1 ins Htr) as (sched & c' & Hx & Hpr & Hq').
    { simpl. by rewrite lookup_insert_eq. }
    { intros a. apply Hq. }
    exists (i :: sched), c'. split; [|split].
    + econstructor; [|done]. unfold step_party. by rewrite Hp.
    + rewrite Hpr. simpl. by rewrite insert_insert_eq.
    + intros a b. by rewrite Hq'.
Qed.

Lemma sends_all c l (P P' : Z -> io E A * nat) (out : Z -> list (Z * bytes)) :
  NoDup l ->
  (forall i, i ∈ l -> procs c !! i = Some (P i) /\
    local tape i (P i).1 (P i).2 (map (fun '(j, m) => Out j m) (out i))
      (P' i).1 (P' i).2) ->
  exists sched c', execution tape sched c c' /\
    (forall i, i ∈ l -> procs c' !! i = Some (P' i)) /\
    (forall i, i ∉ l -> procs c' !! i = procs c !! i) /\
    forall a b, queue c' a b =
      queue c a b ++ if decide (a ∈ l) then msgs b (out a) else [].
Proof.
  intros Hnd. revert c. induction Hnd as [|i l Hi Hnd IH]; intros c Hl.
  { exists [], c. split; [constructor|]. split; [by intros ? ?%elem_of_nil|].
    split; [done|]. intros a b. rewrite decide_False by apply not_elem_of_nil.
    by rewrite app_nil_r. }
  destruct (Hl i) as [Hp Hloc]; [set_solver|].
  destruct (local_sends c i _ _ _ _ _ Hloc) as (s1 & c1 & Hx1 & Hp1 & Hq1).
  { by destruct (P i). }
  destruct (IH c1) as (s2 & c2 & Hx2 & Hin & Hout & Hq2).
  { intros j Hj. rewrite Hp1, lookup_insert_ne by set_solver. apply Hl. set_solver. }
  exists (s1 ++ s2), c2. split; [by eapply execution_app|]. split; [|split].
  - intros j [->|Hj]%elem_of_cons; [|by apply Hin].
    rewrite Hout, Hp1, lookup_insert_eq by done. by destruct (P' i).
  - intros j Hj. rewrite Hout, Hp1, lookup_insert_ne by set_solver. done.
  - intros a b. rewrite Hq2, Hq1, <- app_assoc. f_equal.
    destruct (decide (a = i)) as [->|Ha].
    + rewrite decide_False, decide_True by set_solver. apply app_nil_r.
    + simpl. destruct (decide (a ∈ l)).
      * by rewrite decide_True by set_solver.
      * by rewrite decide_False by set_solver.
Qed.

Lemma recvs_all c l (P P' : Z -> io E A * nat) (ins : Z -> list (Z * bytes)) :
  NoDup l ->
  (forall i, i ∈ l -> procs c !! i = Some (P i) /\
    local tape i (P i).1 (P i).2 (map (fun '(j, m) => In j m) (ins i))
      (P' i).1 (P' i).2 /\
    forall a, queue c a i = msgs a (ins i)) ->
  exists sched c', execution tape sched c c' /\
    (forall i, i ∈ l -> procs c' !! i = Some (P' i)) /\
    (forall i, i ∉ l -> procs c' !! i = procs c !! i) /\
    forall a b, queue c' a b = if decide (b ∈ l) then [] else queue c a b.
Proof.
  intros Hnd. revert c. induction Hnd as [|i l Hi Hnd IH]; intros c Hl.
  { exists [], c. split; [constructor|]. split; [by intros ? ?%elem_of_nil|].
    split; [done|]. intros a b. by rewrite decide_False by apply not_elem_of_nil. }
  destruct (Hl i) as (Hp & Hloc & Hq); [set_solver|].
  destruct (local_recvs c i _ _ _ _ _ (fun _ => []) Hloc) as (s1 & c1 & Hx1 & Hp1 & Hq1).
  { by destruct (P i). }
  { intros a. by rewrite app_nil_r. }
  destruct (IH c1) as (s2 & c2 & Hx2 & Hin & Hout & Hq2).
  { intros j Hj. assert (j <> i) by set_solver.
    destruct (Hl j) as (Hpj & Hlj & Hqj); [set_solver|].
    rewrite Hp1, lookup_insert_ne by done. split; [done|]. split; [done|].
    intros a. by rewrite Hq1, decide_False. }
  exists (s1 ++ s2), c2. split; [by eapply execution_app|]. split; [|split].
  - intros j [->|Hj]%elem_of_cons; [|by apply Hin].
    rewrite Hout, Hp1, lookup_insert_eq by done. by destruct (P' i).
  - intros j Hj. rewrite Hout, Hp1, lookup_insert_ne by set_solver. done.
  - intros a b. rewrite Hq2, Hq1. destruct (decide (b ∈ l)).
    + by rewrite decide_True by set_solver.
    + destruct (decide (b = i)) as [->|]; [by rewrite decide_True by set_solver|].
      by rewrite decide_False by set_solver.
Qed.

Definition peers (ids : list Z) (i : Z) : list Z := filter (fun j => j <> i) ids.

Lemma msgs_peers ids i j (f : Z -> bytes) :
  NoDup ids ->
  msgs j (map (fun k => (k, f k)) (peers ids i)) =
  if decide (j ∈ ids /\ j <> i) then [f j] else [].
Proof.
  unfold peers. induction 1 as [|k ids Hk Hnd IH].
  { rewrite decide_False; [done|]. intros [?%elem_of_nil _]. done. }
  rewrite filter_cons. destruct (decide (k <> i)) as [Hki|Hki]; simpl.
  - destruct (decide (k = j)) as [->|Hkj].
    + rewrite IH, decide_False, decide_True by set_solver. done.
    + rewrite IH. destruct (decide (j ∈ ids /\ j <> i)).
      * by rewrite decide_True by set_solver.
      * by rewrite decide_False by set_solver.
  - rewrite IH. destruct (decide (j ∈ ids /\ j <> i)).
    + by rewrite decide_True by set_solver.
    + rewrite decide_False; [done|]. intros [[->|]%elem_of_cons ?]; [|naive_solver].
      naive_solver.
Qed.

Definition quiet c : Prop := forall a b, queue c a b = [].

(** A round of all processes, from empty queues to empty queues. *)
Lemma round c ids (P P' P'' : Z -> io E A * nat) (m : Z -> Z -> bytes) :
  NoDup ids -> quiet c ->
  (forall i, i ∈ ids -> procs c !! i = Some (P i)) ->
  (forall i, i ∈ ids ->
    local tape i (P i).1 (P i).2 (map (fun j => Out j (m i j)) (peers ids i))
      (P' i).1 (P' i).2 /\
    local tape i (P' i).1 (P' i).2 (map (fun j => In j (m j i)) (peers ids i))
      (P'' i).1 (P'' i).2) ->
  exists sched c', execution tape sched c c' /\ quiet c' /\
    (forall i, i ∈ ids -> procs c' !! i = Some (P'' i)) /\
    (forall i, i ∉ ids -> procs c' !! i = procs c !! i).
Proof.
  intros Hnd Hquiet HP Hloc.
  set (out i := map (fun j => (j, m i j)) (peers ids i)).
  set (ins i := map (fun j => (j, m j i)) (peers ids i)).
  destruct (sends_all c ids P P' out Hnd) as (s1 & c1 & Hx1 & Hp1 & Ho1 & Hq1).
  { intros i Hi. split; [by apply HP|]. unfold out. rewrite map_map.
    by apply Hloc. }
  destruct (recvs_all c1 ids P' P'' ins Hnd) as (s2 & c2 & Hx2 & Hp2 & Ho2 & Hq2).
  { intros i Hi. split; [by apply Hp1|]. unfold ins. rewrite map_map.
    split; [by apply Hloc|]. intros a. rewrite Hq1, Hquiet. simpl.
    rewrite (msgs_peers ids i a (fun j => m j i) Hnd). unfold out.
    destruct (decide (a ∈ ids)) as [Ha|Ha].
    - rewrite (msgs_peers ids a i (m a) Hnd).
      destruct (decide (a = i)) as [->|].
      + rewrite !decide_False by naive_solver. done.
      + rewrite !decide_True by naive_solver. done.
    - rewrite decide_False by naive_solver. done. }
  exists (s1 ++ s2), c2. split; [by eapply execution_app|]. split; [|split].
  - intros a b. rewrite Hq2. destruct (decide (b ∈ ids)) as [|Hb]; [done|].
    rewrite Hq1, Hquiet. simpl. destruct (decide (a ∈ ids)); [|done].
    unfold out. rewrite (msgs_peers ids a b (m a) Hnd).
    by rewrite decide_False by naive_solver.
  - done.
  - intros i Hi. by rewrite Ho2, Ho1.
Qed.
End rounds.

(** ** Protocols in rounds *)

(** A choice of a value for every element of a list. *)
Lemma list_choice {K X} `{EqDecision K, Inhabited X} (l : list K)
  (R : K -> X -> Prop) :
  (forall i, i ∈ l -> exists x, R i x) ->
  exists f : K -> X, forall i, i ∈ l -> R i (f i).
Proof.
  induction l as [|k l IH]; intros Hl.
  - exists (fun _ => inhabitant). by intros ? ?%elem_of_nil.
  - destruct IH as [f Hf]; [set_solver|]. destruct (Hl k) as [x Hx]; [set_solver|].
    exists (fun i => if decide (i = k) then x else f i).
    intros i Hi. destruct (decide (i = k)) as [->|]; [done|]. apply Hf. set_solver.
Qed.

Section protocol.
Context {E : Type} (tape : Z -> nat -> bytes) (ids : list Z) (Hids : NoDup ids).

(** [p] begins with a round of the party [i] and goes on as one of [Next]: it
    sends a message to each other party, then takes one from each.
    [sent i j m]: [m] is a message of the round from [i] to [j]. *)
Definition stage {A} (sent : Z -> Z -> bytes -> Prop) (i : Z) (p : io E A)
  (Next : io E A -> Prop) : Prop :=
  forall n, exists n1 (enc : Z -> bytes) q,
    local tape i p n (map (fun j => Out j (enc j)) (peers ids i)) q n1 /\
    (forall j, j ∈ peers ids i -> sent i j (enc j)) /\
    forall ins : Z -> bytes,
      (forall j, j ∈ peers ids i -> sent j i (ins j)) ->
      exists p' n2, Next p' /\
        local tape i q n1 (map (fun j => In j (ins j)) (peers ids i)) p' n2.

(** A method that is one round and returns one of [R]. *)
Definition phase {A} sent i (p : io E A) (R : A -> Prop) : Prop :=
  stage sent i p (fun p' => exists a, R a /\ p' = Done (Ok a)).

Lemma stage_bind {A B} sent i (p : io E A) (k : A -> io E B) R (Next : io E B -> Prop) :
  phase sent i p R -> (forall a, R a -> Next (k a)) -> stage sent i (p ≫= k) Next.
Proof.
  intros Hp Hk n. destruct (Hp n) as (n1 & enc & q & Hout & Hsent & Hin).
  exists n1, enc, (q ≫= k). split; [|split; [done|]].
  - by apply local_bind_k.
  - intros ins Hins. destruct (Hin ins Hins) as (p' & n2 & (a & Ha & ->) & Hl).
    exists (k a), n2. split; [by apply Hk|]. by apply local_bind.
Qed.

Lemma stage_bind_k {A B} sent i (p : io E A) (k : A -> io E B) Next :
  stage sent i p Next ->
  stage sent i (p ≫= k) (fun q => exists p', Next p' /\ q = p' ≫= k).
Proof.
  intros Hp n. destruct (Hp n) as (n1 & enc & q & Hout & Hsent & Hin).
  exists n1, enc, (q ≫= k). split; [|split; [done|]].
  - by apply local_bind_k.
  - intros ins Hins. destruct (Hin ins Hins) as (p' & n2 & Hp' & Hl).
    exists (p' ≫= k), n2. split; [by exists p'|].
    by apply local_bind_k.
Qed.

Lemma stage_mono {A} sent i (p : io E A) (Next Next' : io E A -> Prop) :
  (forall q, Next q -> Next' q) -> stage sent i p Next -> stage sent i p Next'.
Proof.
  intros Hn Hp n. destruct (Hp n) as (n1 & enc & q & Hout & Hsent & Hin).
  exists n1, enc, q. split; [done|]. split; [done|]. intros ins Hins.
  destruct (Hin ins Hins) as (p' & n2 & Hp' & Hl). eauto.
Qed.

(** A random draw before a round. *)
Lemma stage_draw {A} sent i (k : bytes -> io E A) Next :
  (forall r, stage sent i (k r) Next) -> stage sent i (Draw k) Next.
Proof.
  intros Hk n. destruct (Hk (tape i n) (S n)) as (n1 & enc & q & Hout & Hrest).
  exists n1, enc, q. split; [|done]. by apply local_draw.
Qed.

(** The processes of all parties, at some positions of their tapes. *)
Definition at_programs {A} (c : network (E:=E) (A:=A)) (P : Z -> io E A -> Prop)
  : Prop :=
  forall i, i ∈ ids -> exists p n, procs c !! i = Some (p, n) /\ P i p.

(** From one round to the next. *)
Lemma stage_round {A} (c : network (E:=E) (A:=A)) Pre Post sent :
  quiet c -> at_programs c Pre ->
  (forall i p, i ∈ ids -> Pre i p -> stage sent i p (Post i)) ->
  exists sched c', execution tape sched c c' /\ quiet c' /\ at_programs c' Post /\
    forall i, i ∉ ids -> procs c' !! i = procs c !! i.
Proof using Hids.
  intros Hq Hat Hst.
  destruct (list_choice (X := io E A * nat) ids (fun i x =>
    procs c !! i = Some x /\ Pre i x.1)) as [P HP].
  { intros i Hi. destruct (Hat i Hi) as (p & n & Hp & Hpre). by exists (p, n). }
  destruct (list_choice (X := nat * (Z -> bytes) * io E A) ids (fun i x =>
    local tape i (P i).1 (P i).2
      (map (fun j => Out j (x.1.2 j)) (peers ids i)) x.2 x.1.1 /\
    (forall j, j ∈ peers ids i -> sent i j (x.1.2 j)) /\
    forall ins : Z -> bytes, (forall j, j ∈ peers ids i -> sent j i (ins j)) ->
      exists p' n2, Post i p' /\ local tape i x.2 x.1.1
        (map (fun j => In j (ins j)) (peers ids i)) p' n2)) as [x Hx].
  { intros i Hi. destruct (HP i Hi) as [_ Hpre].
    destruct (Hst i _ Hi Hpre (P i).2) as (n1 & enc & q & Hrest).
    by exists (n1, enc, q). }
  set (m i j := (x i).1.2 j).
  destruct (list_choice (X := io E A * nat) ids (fun i y =>
    Post i y.1 /\
    local tape i (x i).2 (x i).1.1 (map (fun j => In j (m j i)) (peers ids i))
      y.1 y.2)) as [Q HQ].
  { intros i Hi. destruct (Hx i Hi) as (_ & _ & Hin).
    destruct (Hin (fun j => m j i)) as (p' & n2 & Hpost & Hl); [|by exists (p', n2)].
    intros j Hj. apply list_elem_of_filter in Hj as [Hji Hj].
    apply (Hx j Hj). by apply list_elem_of_filter. }
  destruct (round tape c ids P (fun i => ((x i).2, (x i).1.1)) Q m Hids Hq)
    as (sched & c' & Hex & Hq' & Hp' & Ho').
  { intros i Hi. by apply HP. }
  { intros i Hi. split; [by apply Hx|by apply HQ]. }
  exists sched, c'. split; [done|]. split; [done|]. split; [|done].
  intros i Hi. exists (Q i).1, (Q i).2. rewrite (Hp' i Hi).
  split; [by destruct (Q i)|by apply HQ].
Qed.
End protocol.
