(* ===== verification/IoCommittee.v ===== *)
(** * Channels between operators

    Models [src/network/io_committee.rs]: the plain channels and their
    committee, the handshake once all connections are made, the exchange of
    channel keys, and the encrypted and signed channels.  The cipher and the
    digest are the [aes_gcm] and [sha256] crates, parameters of the model. *)

From S2P Require Import Prelude Network Scalars Blst BlstIdeal Processes.

(** ** The cipher *)

(** [hex::decode(digest(x))] and AES-128 in Galois mode: key, nonce, text. *)
Class Aes := {
  sha256 : bytes -> bytes;
  aes_encrypt : bytes -> bytes -> bytes -> option bytes;
  aes_decrypt : bytes -> bytes -> bytes -> option bytes
}.

(** The longest text the cipher accepts. *)
Definition AES_MAX : Z := 2 ^ 36.
Definition fits (m : bytes) : Prop := Z.of_nat (length m) <= AES_MAX.

Class AesLaws `{Aes} : Prop := {
  sha256_length x : length (sha256 x) = 32%nat;
  aes_encrypt_ok k n m :
    length k = 16%nat -> length n = 12%nat -> fits m ->
    exists c, aes_encrypt k n m = Some c /\ length c = (length m + 16)%nat;
  aes_decrypt_encrypt k n m c :
    aes_encrypt k n m = Some c -> aes_decrypt k n c = Some m
}.

(** ** The traits *)

(** What a protocol uses of a committee: [channel(from, to).send],
    [channel(from, to).recv] and [broadcast]. *)
Record IOCommittee (E : Type) := mkIOCommittee {
  io_ids : list Z;
  io_send_on (from to : Z) (m : bytes) : io E ();
  io_recv_on (from to : Z) : io E bytes;
  io_broadcast (m : bytes) : io E ()
}.
Arguments io_ids {E}.
Arguments io_send_on {E}.
Arguments io_recv_on {E}.
Arguments io_broadcast {E}.

(** ** Plain channels *)

(** A connection is identified by the operator at its other end. *)
Record NetIOChannel := mkNetIOChannel { net_peer : Z }.

Definition NetIOChannel_send {E} (ch : NetIOChannel) (m : bytes) : io E () :=
  io_send (net_peer ch) m.
Definition NetIOChannel_recv {E} (ch : NetIOChannel) : io E bytes :=
  io_recv (net_peer ch).

Record NetIOCommittee := mkNetIOCommittee {
  net_party : Z;
  net_ids : list Z;
  net_channels : gmap Z NetIOChannel
}.

(** [channel]: only the two directions of a connection of this party. *)
Definition pick_channel {E C} (party : Z) (channels : gmap Z C) (from to : Z)
  : outcome E C :=
  if bool_decide (from = to) || (bool_decide (from <> party) && bool_decide (to <> party))
  then Panic "Invalid channel"
  else if bool_decide (from = party) then unwrap (channels !! to)
  else unwrap (channels !! from).

Definition NetIOCommittee_channel {E} (self : NetIOCommittee) (from to : Z)
  : outcome E NetIOChannel :=
  pick_channel (net_party self) (net_channels self) from to.

(** The loop of [broadcast]. *)
Fixpoint broadcast_loop {E C} (party : Z) (channels : gmap Z C)
  (send : C -> bytes -> io E ()) (ids : list Z) (m : bytes) : io E () :=
  match ids with
  | [] => mret ()
  | id :: ids =>
      if bool_decide (id = party) then broadcast_loop party channels send ids m
      else
        ch ← io_lift (pick_channel party channels party id);
        send ch m;;
        broadcast_loop party channels send ids m
  end.

Definition NetIOCommittee_broadcast {E} (self : NetIOCommittee) (m : bytes)
  : io E () :=
  broadcast_loop (net_party self) (net_channels self) NetIOChannel_send
    (net_ids self) m.

Definition NetIOCommittee_io {E} (self : NetIOCommittee) : IOCommittee E := {|
  io_ids := net_ids self;
  io_send_on from to m :=
    ch ← io_lift (NetIOCommittee_channel self from to); NetIOChannel_send ch m;
  io_recv_on from to :=
    ch ← io_lift (NetIOCommittee_channel self from to); NetIOChannel_recv ch;
  io_broadcast := NetIOCommittee_broadcast self
|}.

(** The acknowledgement ["Y"]. *)
Definition ack_msg : bytes := [89].

Fixpoint ack_loop {E} (party : Z) (channels : gmap Z NetIOChannel) (ids : list Z)
  : io E () :=
  match ids with
  | [] => mret ()
  | id :: ids =>
      if bool_decide (id = party) then ack_loop party channels ids
      else
        ch ← io_lift (unwrap (channels !! id));
        ack ← NetIOChannel_recv ch;
        (if bool_decide (ack = ack_msg) then mret ()
         else io_lift (Panic "Invalid acknowledge for channel connection"));;
        ack_loop party channels ids
  end.

(** The connections that [NetIOCommittee::new] makes. *)
Definition connections (party : Z) (ids : list Z) : gmap Z NetIOChannel :=
  list_to_map (map (fun id => (id, mkNetIOChannel id)) (peers ids party)).

(** [NetIOCommittee::new], from the point where the connections exist. *)
Definition NetIOCommittee_new {E} (party : Z) (ids : list Z) : io E NetIOCommittee :=
  let committee := mkNetIOCommittee party ids (connections party ids) in
  NetIOCommittee_broadcast committee ack_msg;;
  ack_loop party (net_channels committee) ids;;
  mret committee.

(** ** Secure channels *)

Section secure.
Context `{Blst} `{Aes}.

Record SecureNetIOChannel := mkSecureChannel {
  sc_channel : NetIOChannel;
  sc_sk : Z;
  sc_other_pk : p1
}.

(** [random] is what the generator fills the nonce with. *)
Definition encrypt_with_key {E} (random message key : bytes) : outcome E bytes :=
  let secret := sha256 key in
  let k := take 16 secret in
  let nonce_bytes := take 12 random in
  match aes_encrypt k nonce_bytes message with
  | Some aes_ct => mret (nonce_bytes ++ aes_ct)
  | None => Panic "AES encryption failed!"
  end.

Definition decrypt_with_key {E} (enc_msg key : bytes) : outcome E bytes :=
  let secret := sha256 key in
  let k := take 16 secret in
  if (length enc_msg <? 12)%nat then Panic "range end index out of range for slice"
  else
    let nonce_bytes := take 12 enc_msg in
    let aes_ct := drop 12 enc_msg in
    match aes_decrypt k nonce_bytes aes_ct with
    | Some msg => mret msg
    | None => Panic "AES decryption failed!"
    end.

Definition shared_secret (ch : SecureNetIOChannel) : p1 :=
  blst_ecdh_shared_secret (sc_other_pk ch) (sc_sk ch).
Definition self_private_key (ch : SecureNetIOChannel) : Z := sc_sk ch.
Definition self_public_key (ch : SecureNetIOChannel) : p1 := blst_sk_to_pk (sc_sk ch).
Definition partner_public_key (ch : SecureNetIOChannel) : p1 := sc_other_pk ch.

Definition encrypt {E} (ch : SecureNetIOChannel) (message : bytes) : io E bytes :=
  random ← io_draw;
  io_lift (encrypt_with_key random message (blst_p1_to_bytes (shared_secret ch))).

Definition decrypt {E} (ch : SecureNetIOChannel) (enc_msg : bytes) : outcome E bytes :=
  decrypt_with_key enc_msg (blst_p1_to_bytes (shared_secret ch)).

Definition channel_sign {E} (ch : SecureNetIOChannel) (message : bytes)
  : outcome E p2 :=
  sk ← blst_scalar_to_blst_sk (sc_sk ch);
  mret (core_Signature_sign sk message).

Definition verify_partner (ch : SecureNetIOChannel) (message : bytes) (sig : p2)
  : bool := core_Signature_verify sig message (sc_other_pk ch).

Definition SecureNetIOChannel_send {E} (ch : SecureNetIOChannel) (message : bytes)
  : io E () :=
  enc_msg ← encrypt ch message;
  NetIOChannel_send (sc_channel ch) enc_msg.

Definition SecureNetIOChannel_recv {E} (ch : SecureNetIOChannel) : io E bytes :=
  enc_msg ← NetIOChannel_recv (sc_channel ch);
  io_lift (decrypt ch enc_msg).

Record SecureNetIOCommittee := mkSecureCommittee {
  sec_party : Z;
  sec_ids : list Z;
  sec_channels : gmap Z SecureNetIOChannel
}.

(** The loop that receives the channel keys of the others. *)
Fixpoint keys_loop {E} (party sk : Z) (ids : list Z) (channels : gmap Z NetIOChannel)
  (sec_channels : gmap Z SecureNetIOChannel) : io E (gmap Z SecureNetIOChannel) :=
  match ids with
  | [] => mret sec_channels
  | id :: ids =>
      if bool_decide (id = party) then keys_loop party sk ids channels sec_channels
      else
        recv_channel ← io_lift (unwrap (channels !! id));
        other_pk_bytes ← NetIOChannel_recv recv_channel;
        let other_pk := bytes_to_blst_p1 other_pk_bytes in
        keys_loop party sk ids (delete id channels)
          (<[id := mkSecureChannel recv_channel sk other_pk]> sec_channels)
  end.

(** [ikm] is the randomness of the channel key. *)
Definition SecureNetIOCommittee_new {E} (party : Z) (ids : list Z) (ikm : bytes)
  : io E SecureNetIOCommittee :=
  plain ← NetIOCommittee_new party ids;
  let sk := random_blst_scalar ikm in
  let pk := blst_sk_to_pk sk in
  NetIOCommittee_broadcast plain (blst_p1_to_bytes pk);;
  channels ← keys_loop party sk ids (net_channels plain) ∅;
  mret (mkSecureCommittee party ids channels).

Definition SecureNetIOCommittee_channel {E} (self : SecureNetIOCommittee)
  (from to : Z) : outcome E SecureNetIOChannel :=
  pick_channel (sec_party self) (sec_channels self) from to.

Definition SecureNetIOCommittee_broadcast {E} (self : SecureNetIOCommittee)
  (m : bytes) : io E () :=
  broadcast_loop (sec_party self) (sec_channels self) SecureNetIOChannel_send
    (sec_ids self) m.

Definition SecureNetIOCommittee_io {E} (self : SecureNetIOCommittee)
  : IOCommittee E := {|
  io_ids := sec_ids self;
  io_send_on from to m :=
    ch ← io_lift (SecureNetIOCommittee_channel self from to);
    SecureNetIOChannel_send ch m;
  io_recv_on from to :=
    ch ← io_lift (SecureNetIOCommittee_channel self from to);
    SecureNetIOChannel_recv ch;
  io_broadcast := SecureNetIOCommittee_broadcast self
|}.
End secure.

(** ** The channels work *)

Section secure_facts.
Context `{BlstLaws} `{AesLaws}.

Lemma encrypt_decrypt_with_key {E} random m key :
  (12 <= length random)%nat -> fits m ->
  exists e, encrypt_with_key (E:=E) random m key = Ok e /\
    decrypt_with_key (E:=E) e key = Ok m /\ length e = (length m + 28)%nat.
Proof.
  intros Hr Hm. unfold encrypt_with_key, decrypt_with_key.
  destruct (aes_encrypt_ok (take 16 (sha256 key)) (take 12 random) m)
    as (ct & Hct & Hlen).
  - rewrite length_take, sha256_length. done.
  - rewrite length_take. lia.
  - done.
  - rewrite Hct. eexists. split; [done|].
    assert (length (take 12 random) = 12%nat) as H12 by (rewrite length_take; lia).
    rewrite length_app, H12. split; [|lia].
    rewrite (proj2 (Nat.ltb_ge _ _)) by lia.
    rewrite take_app_length', drop_app_length' by done.
    by rewrite (aes_decrypt_encrypt _ _ _ _ Hct).
Qed.

(** The ends of a connection between parties with the keys [a] and [b]. *)
Definition channel_to (peer own other : Z) : SecureNetIOChannel :=
  mkSecureChannel (mkNetIOChannel peer) own (gmul other ffi_p1_generator).

Lemma shared_secret_sym i j a b :
  is_secret a -> is_secret b ->
  shared_secret (channel_to j a b) = shared_secret (channel_to i b a).
Proof.
  intros Ha Hb. unfold shared_secret, blst_ecdh_shared_secret. simpl.
  rewrite !blst_p1_mult_spec by (by apply secret_scalar).
  by rewrite <- !gmul_mul, Z.mul_comm.
Qed.

Lemma self_public_key_spec j a b :
  is_secret a -> self_public_key (channel_to j a b) = gmul a ffi_p1_generator.
Proof. intros Ha. apply sk_to_pk_ok. by apply secret_scalar. Qed.

(** [e] is an encryption of [m] for the end with the key [b]. *)
Definition opens {E} (i a b : Z) (e m : bytes) : Prop :=
  decrypt (E:=E) (channel_to i b a) e = Ok m.

Lemma encrypt_local {E} tape i j a b m n :
  is_secret a -> is_secret b -> (12 <= length (tape i n))%nat -> fits m ->
  exists e, local (E:=E) tape i (encrypt (channel_to j a b) m) n [] (Done (Ok e)) (S n) /\
    opens (E:=E) i a b e m /\ length e = (length m + 28)%nat.
Proof.
  intros Ha Hb Ht Hm.
  destruct (encrypt_decrypt_with_key (E:=E) (tape i n) m
    (blst_p1_to_bytes (shared_secret (channel_to j a b))) Ht Hm) as (e & He & Hd & Hl).
  exists e. split; [|split; [|done]].
  - apply local_draw. cbn. unfold io_lift. rewrite He. constructor.
  - unfold opens, decrypt. by rewrite <- (shared_secret_sym i j a b).
Qed.

Lemma secure_send_local {E} tape i j a b m n :
  is_secret a -> is_secret b -> (12 <= length (tape i n))%nat -> fits m ->
  exists e, local (E:=E) tape i (SecureNetIOChannel_send (channel_to j a b) m) n
      [Out j e] (Done (Ok ())) (S n) /\ opens (E:=E) i a b e m.
Proof.
  intros Ha Hb Ht Hm.
  destruct (encrypt_local (E:=E) tape i j a b m n Ha Hb Ht Hm) as (e & He & Ho & _).
  exists e. split; [|done]. unfold SecureNetIOChannel_send.
  apply (local_trans _ _ _ (NetIOChannel_send (mkNetIOChannel j) e) _ _ (S n) _ [] [Out j e]).
  - by apply local_bind.
  - repeat constructor.
Qed.

Lemma secure_recv_local {E} tape i j a b e m n :
  opens (E:=E) j a b e m ->
  local (E:=E) tape i (SecureNetIOChannel_recv (channel_to j b a)) n [In j e]
    (Done (Ok m)) n.
Proof.
  intros Ho. unfold SecureNetIOChannel_recv, NetIOChannel_recv, io_recv. cbn.
  apply local_recv. cbn. unfold io_lift. unfold opens in Ho. rewrite Ho. constructor.
Qed.

(** A message sent on a secure channel is received as it was sent.  When
    two operators have exchanged the public keys of their channel keys, what
    one end encrypts, with any random nonce, the other end decrypts to the
    same message, and the ciphertext is 28 bytes longer. *)
Theorem secure_channel_roundtrip i j a b random m :
  is_secret a -> is_secret b -> (12 <= length random)%nat -> fits m ->
  exists e,
    encrypt_with_key (E:=DvfError) random m
      (blst_p1_to_bytes (shared_secret (channel_to j a b))) = Ok e /\
    decrypt (E:=DvfError) (channel_to i b a) e = Ok m /\
    length e = (length m + 28)%nat.
Proof.
  intros Ha Hb Hr Hm. unfold decrypt.
  rewrite <- (shared_secret_sym i j a b) by done.
  by apply encrypt_decrypt_with_key.
Qed.
End secure_facts.

(** ** A concrete cipher, for the witnesses *)

Definition ideal_aes : Aes := {|
  sha256 _ := replicate 32 0;
  aes_encrypt k n m := Some (m ++ replicate 16 0);
  aes_decrypt k n c := Some (take (length c - 16) c)
|}.

Lemma ideal_aes_laws : AesLaws (H := ideal_aes).
Proof.
  split.
  - intros x. apply length_replicate.
  - intros k n m _ _ _. eexists. split; [done|]. rewrite length_app. done.
  - intros k n m c [= <-]. unfold aes_decrypt, ideal_aes. f_equal.
    apply take_app_length'. rewrite length_app. simpl. lia.
Qed.

Section witnesses.
#[local] Existing Instances ideal_blst ideal_blst_laws ideal_aes ideal_aes_laws.

Lemma secure_channel_roundtrip_witness :
  exists e,
    encrypt_with_key (E:=DvfError) (replicate 32 7) [1; 2; 3]
      (blst_p1_to_bytes (shared_secret (channel_to 2 5 6))) = Ok e /\
    decrypt (E:=DvfError) (channel_to 1 6 5) e = Ok [1; 2; 3] /\
    length e = 31%nat.
Proof.
  apply (secure_channel_roundtrip 1 2 5 6 (replicate 32 7) [1; 2; 3]).
  - unfold is_secret. pose proof modulus_bits. lia.
  - unfold is_secret. pose proof modulus_bits. lia.
  - rewrite length_replicate. lia.
  - unfold fits, AES_MAX. simpl. lia.
Defined.
End witnesses.
