(* ===== verification/Dkg.v ===== *)
(** * Distributed key generation: the protocol

    Models [src/crypto/dkg.rs]: the two key generation protocols and the
    distributed signer, as processes over the channels of [IoCommittee].  The
    random choices of a party are the coefficients [rng] of its polynomial, the
    key [seed_sk] that [Keypair::random] gives, and the draws of its process.
    The byte encoding of the payloads is the [bincode] crate.

    Iterating a hash map visits its entries in the order of [map_to_list]. *)

From S2P Require Import Prelude Network Scalars Blst Polynomial Threshold Processes IoCommittee.

(** ** Payloads *)

Section payloads.
Context `{Blst}.

Record PlainVssShare := mkPlainVssShare {
  plain_share : Z;
  plain_committed_poly : CommittedPoly.t
}.

Record VssSharePayload := mkVssSharePayload {
  enc_share : bytes;
  vss_sig : Signature;
  committed_poly : CommittedPoly.t
}.

Definition VerificationResult : Type := gmap Z bool.

Record DleqProof := mkDleqProof { proof_c : Z; proof_r : Z }.

Record DisputeClaim := mkDisputeClaim {
  issue_party : Z;
  corrupted_party : Z;
  claim_enc_share : bytes;
  claim_key : bytes;
  claim_sig : Signature;
  claim_committed_poly : CommittedPoly.t;
  claim_proof : DleqProof
}.

Record PkPayload := mkPkPayload { payload_pk : p1; pk_proof : DleqProof }.

Record GpkPayload := mkGpkPayload {
  payload_gpk : p1;
  aux_gpk : p1;
  gpk_proof : DleqProof
}.
End payloads.

(** [bincode] on the values the [Serialize] implementations hand to it. *)
Class DkgCodec `{Blst} := {
  vss_encode : bytes * Signature * bytes -> bytes;
  vss_decode : bytes -> option (bytes * Signature * bytes);
  results_encode : gmap Z bool -> bytes;
  results_decode : bytes -> option (gmap Z bool);
  claim_encode :
    Z * Z * bytes * bytes * Signature * bytes * (bytes * bytes) -> bytes;
  claim_decode :
    bytes -> option (Z * Z * bytes * bytes * Signature * bytes * (bytes * bytes));
  pk_encode : bytes * (bytes * bytes) -> bytes;
  pk_decode : bytes -> option (bytes * (bytes * bytes));
  gpk_encode : bytes * bytes * (bytes * bytes) -> bytes;
  gpk_decode : bytes -> option (bytes * bytes * (bytes * bytes))
}.

Class DkgCodecLaws `{DkgCodec} : Prop := {
  vss_roundtrip x : vss_decode (vss_encode x) = Some x;
  results_roundtrip x : results_decode (results_encode x) = Some x;
  claim_roundtrip x : claim_decode (claim_encode x) = Some x;
  pk_roundtrip x : pk_decode (pk_encode x) = Some x;
  gpk_roundtrip x : gpk_decode (gpk_encode x) = Some x;
  (** the overhead of an encoding is bounded *)
  vss_length e s c : (length (vss_encode (e, s, c)) <= 1024 + length e + length c)%nat;
  results_length r : (length (results_encode r) <= 1024 + 16 * size r)%nat;
  pk_length p c r :
    (length (pk_encode (p, (c, r))) <= 1024 + length p + length c + length r)%nat;
  gpk_length p a c r :
    (length (gpk_encode (p, a, (c, r))) <=
      1024 + length p + length a + length c + length r)%nat
}.

Section encodings.
Context `{DkgCodec} {E : Type}.

(** [to_bytes] and [from_bytes] of the payloads, with their [Serialize] and
    [Deserialize] implementations. *)
Definition VssSharePayload_to_bytes (p : VssSharePayload) : bytes :=
  vss_encode (enc_share p, vss_sig p, CommittedPoly.to_bytes (committed_poly p)).

Definition VssSharePayload_from_bytes (b : bytes) : outcome E VssSharePayload :=
  '(e, s, c) ← unwrap (vss_decode b);
  poly ← CommittedPoly.from_bytes c;
  mret (mkVssSharePayload e s poly).

Definition VerificationResult_to_bytes (r : VerificationResult) : bytes :=
  results_encode r.
Definition VerificationResult_from_bytes (b : bytes) : outcome E VerificationResult :=
  unwrap (results_decode b).

Definition DleqProof_serialize (p : DleqProof) : bytes * bytes :=
  (blst_scalar_to_bytes (proof_c p), blst_scalar_to_bytes (proof_r p)).
Definition DleqProof_deserialize (b : bytes * bytes) : DleqProof :=
  mkDleqProof (bytes_to_blst_scalar b.1) (bytes_to_blst_scalar b.2).

Definition DisputeClaim_to_bytes (c : DisputeClaim) : bytes :=
  claim_encode (issue_party c, corrupted_party c, claim_enc_share c, claim_key c,
    claim_sig c, CommittedPoly.to_bytes (claim_committed_poly c),
    DleqProof_serialize (claim_proof c)).

Definition DisputeClaim_from_bytes (b : bytes) : outcome E DisputeClaim :=
  '(i, j, e, k, s, c, p) ← unwrap (claim_decode b);
  poly ← CommittedPoly.from_bytes c;
  mret (mkDisputeClaim i j e k s poly (DleqProof_deserialize p)).

Definition PkPayload_to_bytes (p : PkPayload) : bytes :=
  pk_encode (blst_p1_to_bytes (payload_pk p), DleqProof_serialize (pk_proof p)).
Definition PkPayload_from_bytes (b : bytes) : outcome E PkPayload :=
  '(pk, proof) ← unwrap (pk_decode b);
  mret (mkPkPayload (bytes_to_blst_p1 pk) (DleqProof_deserialize proof)).

Definition GpkPayload_to_bytes (p : GpkPayload) : bytes :=
  gpk_encode (blst_p1_to_bytes (payload_gpk p), blst_p1_to_bytes (aux_gpk p),
    DleqProof_serialize (gpk_proof p)).
Definition GpkPayload_from_bytes (b : bytes) : outcome E GpkPayload :=
  '(gpk, aux, proof) ← unwrap (gpk_decode b);
  mret (mkGpkPayload (bytes_to_blst_p1 gpk) (bytes_to_blst_p1 aux)
    (DleqProof_deserialize proof)).
End encodings.

(** ** Equality of discrete logarithms *)

Section dleq.
Context `{Blst}.

(** [ikm] is the randomness of [random_blst_scalar]. *)
Definition dleq_prove (ikm : bytes) (x1 y1 x2 y2 : p1) (alpha : Z)
  : outcome DvfError DleqProof :=
  let y1_ := blst_p1_mult x1 alpha in
  let y2_ := blst_p1_mult x2 alpha in
  if bool_decide (y1_ <> y1) || bool_decide (y2_ <> y2) then Err ZKProofInvalidInput
  else
    let w := random_blst_scalar ikm in
    let t1 := blst_p1_mult x1 w in
    let t2 := blst_p1_mult x2 w in
    let c := hash_points_to_blst_scalar [x1; y1; x2; y2; t1; t2] in
    let r := blst_scalar_sub w (blst_scalar_mult alpha c) in
    mret (mkDleqProof c r).

Definition dleq_verify (x1 y1 x2 y2 : p1) (proof : DleqProof) : bool :=
  let t1 := blst_p1_add (blst_p1_mult x1 (proof_r proof))
              (blst_p1_mult y1 (proof_c proof)) in
  let t2 := blst_p1_add (blst_p1_mult x2 (proof_r proof))
              (blst_p1_mult y2 (proof_c proof)) in
  let c_ := hash_points_to_blst_scalar [x1; y1; x2; y2; t1; t2] in
  bool_decide (proof_c proof = c_).
End dleq.

(** ** Concurrent exchanges

    The futures that [join_all] runs send to and receive from one other party
    each; what they do to a channel is in the order below, and they share
    nothing else. *)

Section exchanges.
Context {E : Type} (committee : IOCommittee E) (party : Z).

Fixpoint send_each (l : list (Z * bytes)) : io E () :=
  match l with
  | [] => mret ()
  | (id, m) :: l =>
      (if bool_decide (id = party) then mret ()
       else io_send_on committee party id m);;
      send_each l
  end.

(** The own entry is not received. *)
Fixpoint recv_each (l : list (Z * bytes)) : io E (list (Z * bytes)) :=
  match l with
  | [] => mret []
  | (id, own) :: l =>
      m ← (if bool_decide (id = party) then mret own
           else io_recv_on committee id party);
      rest ← recv_each l;
      mret ((id, m) :: rest)
  end.

(** Sends a message to each party and receives one from each. *)
Definition exchange (l : list (Z * bytes)) : io E (list (Z * bytes)) :=
  send_each l;; recv_each l.
End exchanges.

(** [x.iter().map(f).collect()] of a fallible [f]. *)
Fixpoint try_map {E A B} (f : A -> outcome E B) (l : list A) : outcome E (list B) :=
  match l with
  | [] => mret []
  | x :: l => y ← f x; ys ← try_map f l; mret (y :: ys)
  end.

(** ** [DKGSemiHonest] *)

Section semi_honest.
Context `{Blst}.

(** Returns the own key pair, the master public key and the public keys of all
    parties. *)
Definition DKGSemiHonest_run (committee : IOCommittee DvfError) (party : Z)
  (t : nat) (rng : nat -> Z) (seed_sk : Z)
  : io DvfError (Keypair * p1 * gmap Z p1) :=
  threshold_sig ← io_lift (infinity t);
  let ids := io_ids committee in
  '(kp, kps, _) ← io_lift (key_gen_with_poly threshold_sig rng seed_sk ids);
  (* 0. broadcast shares and commitments *)
  shares ← io_lift (try_map (fun id =>
    kp ← unwrap (kps !! id);
    mret (id, SecretKey_serialize (Keypair_sk kp))) ids);
  s_ji ← exchange committee party shares;
  let pk_i := PublicKey_serialize (Keypair_pk kp) in
  pk_j ← exchange committee party (map (fun id => (id, pk_i)) ids);
  (* 1. the individual group key pair *)
  let gsk := reduce (foldl (fun gsk '(_, s) => gsk + be_val s) 0 s_ji) MODULUS in
  gsk ← io_lift (unwrap (SecretKey_deserialize (pad_be (to_bytes_be gsk))));
  let kp := mkKeypair _ (SecretKey_public_key gsk) gsk in
  (* 2. the master public key *)
  let mpk := ffi_p1s_add (map (fun '(_, pk) => bytes_to_blst_p1_affine pk) pk_j) in
  mpk ← io_lift (unwrap (PublicKey_deserialize (ffi_p1_compress mpk)));
  (* 3. exchange individual group public keys *)
  let pk_bytes := PublicKey_serialize (Keypair_pk kp) in
  pks ← exchange committee party (map (fun id => (id, pk_bytes)) ids);
  pks ← io_lift (try_map (fun '(id, b) =>
    if bool_decide (id = party) then mret (id, Keypair_pk kp)
    else pk ← unwrap (PublicKey_deserialize b); mret (id, pk)) pks);
  mret (kp, mpk, list_to_map (reverse pks)).
End semi_honest.

(** ** [DKGMalicious] *)

Section malicious.
Context `{DkgCodec} `{Aes}.

Record DKGMalicious := mkDKGMalicious {
  dkg_party : Z;
  dkg_io : SecureNetIOCommittee;
  dkg_threshold : nat;
  dkg_h : p1
}.

Definition DKGMalicious_new (party : Z) (committee : SecureNetIOCommittee) (t : nat)
  : DKGMalicious := mkDKGMalicious party committee t another_p1_generator.

Definition dkg_channel (self : DKGMalicious) (from to : Z)
  : outcome DvfError SecureNetIOChannel :=
  SecureNetIOCommittee_channel (dkg_io self) from to.

Definition share_generation (self : DKGMalicious) (rng : nat -> Z) (seed_sk : Z)
  : outcome DvfError (Keypair * gmap Z Keypair * Polynomial.t * CommittedPoly.t) :=
  threshold_sig ← infinity (dkg_threshold self);
  '(kp, kps, poly) ←
    key_gen_with_poly threshold_sig rng seed_sk (sec_ids (dkg_io self));
  mret (kp, kps, poly, commit poly (dkg_h self)).

(** The loop of [share_transmission] that prepares the futures. *)
Fixpoint prepare_shares (self : DKGMalicious) (kps : gmap Z Keypair)
  (poly : CommittedPoly.t) (ids : list Z)
  : io DvfError (list (Z * SecureNetIOChannel * SecureNetIOChannel * VssSharePayload)) :=
  match ids with
  | [] => mret []
  | id :: ids =>
      if bool_decide (id = dkg_party self) then prepare_shares self kps poly ids
      else
        send_channel ← io_lift (dkg_channel self (dkg_party self) id);
        recv_channel ← io_lift (dkg_channel self id (dkg_party self));
        kp ← io_lift (unwrap (kps !! id));
        let s_ij := blst_wrap_sk_to_bytes (Keypair_sk kp) in
        enc_s_ij ← encrypt send_channel s_ij;
        sig ← io_lift (channel_sign send_channel enc_s_ij);
        sig ← io_lift (match Signature_deserialize (core_Signature_to_bytes sig) with
                       | Some s => Ok s | None => Err BlsError end);
        rest ← prepare_shares self kps poly ids;
        mret ((id, send_channel, recv_channel, mkVssSharePayload enc_s_ij sig poly) :: rest)
  end.

Fixpoint send_payloads
  (l : list (Z * SecureNetIOChannel * SecureNetIOChannel * VssSharePayload))
  : io DvfError () :=
  match l with
  | [] => mret ()
  | (_, ch, _, payload) :: l =>
      SecureNetIOChannel_send ch (VssSharePayload_to_bytes payload);;
      send_payloads l
  end.

Fixpoint recv_payloads
  (l : list (Z * SecureNetIOChannel * SecureNetIOChannel * VssSharePayload))
  : io DvfError (list (Z * VssSharePayload)) :=
  match l with
  | [] => mret []
  | (id, _, ch, _) :: l =>
      b ← SecureNetIOChannel_recv ch;
      payload ← io_lift (VssSharePayload_from_bytes b);
      rest ← recv_payloads l;
      mret ((id, payload) :: rest)
  end.

Definition share_transmission (self : DKGMalicious) (kps : gmap Z Keypair)
  (poly : CommittedPoly.t) : io DvfError (gmap Z VssSharePayload) :=
  l ← prepare_shares self kps poly (sec_ids (dkg_io self));
  send_payloads l;;
  results ← recv_payloads l;
  mret (list_to_map (reverse results)).

(** The decrypted share of a payload. *)
Definition open_share (self : DKGMalicious) (id : Z) (share : VssSharePayload)
  : outcome DvfError Z :=
  send_channel ← dkg_channel self (dkg_party self) id;
  s ← decrypt send_channel (enc_share share);
  mret (bytes_to_blst_scalar s).

(** The entries of the others. *)
Definition others {V} (self : DKGMalicious) (m : gmap Z V) : list (Z * V) :=
  filter (fun e => e.1 <> dkg_party self) (map_to_list m).

Definition reveal_shares (self : DKGMalicious) (shares : gmap Z VssSharePayload)
  : outcome DvfError (gmap Z Z) :=
  l ← try_map (fun '(id, share) => s ← open_share self id share; mret (id, s))
        (others self shares);
  mret (list_to_map l).

(** Whether the share matches the commitment it came with. *)
Definition check_share (self : DKGMalicious) (id : Z) (share : VssSharePayload)
  : outcome DvfError bool :=
  s ← open_share self id share;
  let y := blst_p1_mult (dkg_h self) s in
  y_ ← CommittedPoly.eval (committed_poly share) (u64_to_blst_scalar (dkg_party self));
  mret (bool_decide (y = y_)).

Definition share_verification (self : DKGMalicious) (shares : gmap Z VssSharePayload)
  : outcome DvfError VerificationResult :=
  l ← try_map (fun '(id, share) => b ← check_share self id share; mret (id, b))
        (others self shares);
  mret (list_to_map l).

Definition dkg_broadcast (self : DKGMalicious) (m : bytes) : io DvfError () :=
  SecureNetIOCommittee_broadcast (dkg_io self) m.

(** Receives and decodes one message of each other party. *)
Fixpoint recv_others {A} (self : DKGMalicious) (f : Z -> bytes -> outcome DvfError A)
  (ids : list Z) : io DvfError (list (Z * A)) :=
  match ids with
  | [] => mret []
  | id :: ids =>
      if bool_decide (id = dkg_party self) then recv_others self f ids
      else
        recv_channel ← io_lift (dkg_channel self id (dkg_party self));
        msg ← SecureNetIOChannel_recv recv_channel;
        a ← io_lift (f id msg);
        rest ← recv_others self f ids;
        mret ((id, a) :: rest)
  end.

Definition exchange_verification_results (self : DKGMalicious)
  (r : VerificationResult) : io DvfError (gmap Z VerificationResult) :=
  dkg_broadcast self (VerificationResult_to_bytes r);;
  l ← recv_others self (fun _ => VerificationResult_from_bytes) (sec_ids (dkg_io self));
  mret (list_to_map (reverse l)).

(** The claim of [issude_dispute_claim]; [ikm] is the randomness of its proof. *)
Definition dispute_claim (self : DKGMalicious) (ikm : bytes) (corrupted_party_id : Z)
  (share : VssSharePayload) : outcome DvfError DisputeClaim :=
  channel ← dkg_channel self (dkg_party self) corrupted_party_id;
  let g := fixed_p1_generator in
  let pk_j := self_public_key channel in
  let pk_i := partner_public_key channel in
  let kij := shared_secret channel in
  let sk_j := self_private_key channel in
  proof ← dleq_prove ikm g pk_j pk_i kij sk_j;
  mret (mkDisputeClaim (dkg_party self) corrupted_party_id (enc_share share)
    (blst_p1_to_bytes kij) (vss_sig share) (committed_poly share) proof).

Definition issude_dispute_claim (self : DKGMalicious) (corrupted_party_id : Z)
  (share : VssSharePayload) : io DvfError () :=
  ikm ← io_draw;
  claim ← io_lift (dispute_claim self ikm corrupted_party_id share);
  dkg_broadcast self (DisputeClaim_to_bytes claim).

Definition verify_dispute_claim (self : DKGMalicious) (claim : DisputeClaim)
  : outcome DvfError bool :=
  channel_j ← dkg_channel self (dkg_party self) (issue_party claim);
  channel_i ← dkg_channel self (dkg_party self) (corrupted_party claim);
  sig ← unwrap (core_Signature_from_bytes (Signature_serialize (claim_sig claim)));
  if negb (verify_partner channel_i (claim_enc_share claim) sig) then mret false
  else
    let g := fixed_p1_generator in
    let pk_j := partner_public_key channel_j in
    let pk_i := partner_public_key channel_i in
    let kij := bytes_to_blst_p1 (claim_key claim) in
    if negb (dleq_verify g pk_j pk_i kij (claim_proof claim)) then mret false
    else
      s ← decrypt_with_key (claim_enc_share claim) (blst_p1_to_bytes kij);
      let s := bytes_to_blst_scalar s in
      let y := blst_p1_mult (dkg_h self) s in
      y_ ← CommittedPoly.eval (claim_committed_poly claim)
             (u64_to_blst_scalar (issue_party claim));
      mret (bool_decide (y <> y_)).

(** [commitments[0]] of the polynomial of a party. *)
Definition aux_pk (committed_polys : gmap Z CommittedPoly.t) (id : Z)
  : outcome DvfError p1 :=
  poly ← unwrap (committed_polys !! id);
  unwrap (head (CommittedPoly.commitments poly)).

(** The results that verified, with the own key. *)
Definition collect_keys (self : DKGMalicious) (l : list (Z * option p1)) (own : p1)
  : outcome DvfError (gmap Z p1) :=
  let results := list_to_map
    (reverse (omap (fun '(id, o) => pk ← o; Some (id, pk)) l)) in
  let results := <[dkg_party self := own]> results in
  if (size results <? length (sec_ids (dkg_io self)))%nat
  then Err InsufficientValidPks else Ok results.

Definition exchange_public_keys (self : DKGMalicious) (pk : p1) (sk : Z)
  (committed_polys : gmap Z CommittedPoly.t) : io DvfError (gmap Z p1) :=
  let g := fixed_p1_generator in
  aux ← io_lift (aux_pk committed_polys (dkg_party self));
  ikm ← io_draw;
  proof ← io_lift (dleq_prove ikm g pk (dkg_h self) aux sk);
  dkg_broadcast self (PkPayload_to_bytes (mkPkPayload pk proof));;
  l ← recv_others self (fun id msg =>
        other ← PkPayload_from_bytes msg;
        other_aux ← aux_pk committed_polys id;
        mret (if dleq_verify g (payload_pk other) (dkg_h self) other_aux (pk_proof other)
              then Some (payload_pk other) else None))
      (sec_ids (dkg_io self));
  io_lift (collect_keys self l pk).

Definition construct_group_key (self : DKGMalicious) (shares : gmap Z Z) : Z * p1 :=
  let gsk := foldl (fun gsk '(_, s) => blst_scalar_add gsk s) 0 (map_to_list shares) in
  (gsk, blst_sk_to_pk gsk).

Definition exchange_group_public_keys (self : DKGMalicious) (gpk : p1) (gsk : Z)
  (committed_polys : gmap Z CommittedPoly.t) : io DvfError (gmap Z p1) :=
  let g := fixed_p1_generator in
  let own_aux := blst_p1_mult (dkg_h self) gsk in
  ikm ← io_draw;
  proof ← io_lift (dleq_prove ikm g gpk (dkg_h self) own_aux gsk);
  dkg_broadcast self (GpkPayload_to_bytes (mkGpkPayload gpk own_aux proof));;
  l ← recv_others self (fun id msg =>
        other ← GpkPayload_from_bytes msg;
        if negb (dleq_verify g (payload_gpk other) (dkg_h self) (aux_gpk other)
                   (gpk_proof other)) then mret None
        else
          evals ← try_map (fun '(_, poly) =>
                    CommittedPoly.eval poly (u64_to_blst_scalar id))
                  (map_to_list committed_polys);
          let f := blst_p1s_add evals in
          mret (if bool_decide (aux_gpk other = f) then Some (payload_gpk other) else None))
      (sec_ids (dkg_io self));
  io_lift (collect_keys self l gpk).

(** Issues a claim for every share that failed; whether there was one. *)
Fixpoint issue_claims (self : DKGMalicious) (payloads : gmap Z VssSharePayload)
  (l : list (Z * bool)) : io DvfError bool :=
  match l with
  | [] => mret false
  | (id, valid) :: l =>
      if valid : bool then issue_claims self payloads l
      else
        share ← io_lift (unwrap (payloads !! id));
        issude_dispute_claim self id share;;
        issue_claims self payloads l;;
        mret true
  end.

(** Receives and judges the claims that the others' results announce. *)
Fixpoint recv_claims (self : DKGMalicious) (id1 : Z) (channel : SecureNetIOChannel)
  (l : list (Z * bool)) : io DvfError (list (Z * Z * bool)) :=
  match l with
  | [] => mret []
  | (id2, valid) :: l =>
      if valid : bool then recv_claims self id1 channel l
      else
        msg ← SecureNetIOChannel_recv channel;
        claim ← io_lift (DisputeClaim_from_bytes msg);
        claim_is_valid ← io_lift (verify_dispute_claim self claim);
        rest ← recv_claims self id1 channel l;
        mret ((id1, id2, claim_is_valid) :: rest)
  end.

Fixpoint judge_claims (self : DKGMalicious) (l : list (Z * VerificationResult))
  : io DvfError (list (Z * Z * bool)) :=
  match l with
  | [] => mret []
  | (id1, result) :: l =>
      channel ← io_lift (dkg_channel self id1 (dkg_party self));
      claims ← recv_claims self id1 channel (map_to_list result);
      rest ← judge_claims self l;
      mret (claims ++ rest)
  end.

Definition all_commitments (self : DKGMalicious) (own : CommittedPoly.t)
  (payloads : gmap Z VssSharePayload) : gmap Z CommittedPoly.t :=
  foldl (fun m '(id, share) => <[id := committed_poly share]> m)
    {[dkg_party self := own]} (map_to_list payloads).

(** The second half: the keys, once no claim was found. *)
Definition derive_keys (self : DKGMalicious) (kp : Keypair) (kps : gmap Z Keypair)
  (own : CommittedPoly.t) (payloads : gmap Z VssSharePayload)
  : io DvfError (Keypair * p1 * gmap Z p1) :=
  let party := dkg_party self in
  let committed_polys := all_commitments self own payloads in
  let self_pk := bytes_to_blst_p1 (PublicKey_serialize (Keypair_pk kp)) in
  let self_sk := blst_wrap_sk_to_blst_scalar (Keypair_sk kp) in
  pks ← exchange_public_keys self self_pk self_sk committed_polys;
  let pks := <[party := self_pk]> pks in
  let mpk := blst_p1s_add (map snd (map_to_list pks)) in
  shares ← io_lift (reveal_shares self payloads);
  own_kp ← io_lift (unwrap (kps !! party));
  let self_share := blst_wrap_sk_to_blst_scalar (Keypair_sk own_kp) in
  let shares := <[party := self_share]> shares in
  let '(gsk, gpk) := construct_group_key self shares in
  gpks ← exchange_group_public_keys self gpk gsk committed_polys;
  gsk ← io_lift (blst_scalar_to_blst_wrap_sk gsk);
  let gkp := mkKeypair _ (SecretKey_public_key gsk) gsk in
  mpk ← io_lift (blst_p1_to_blst_wrap_pk mpk);
  gpks ← io_lift (try_map (fun '(id, gpk) =>
           pk ← blst_p1_to_blst_wrap_pk gpk; mret (id, pk)) (map_to_list gpks));
  mret (gkp, mpk, list_to_map gpks).

Definition DKGMalicious_run (self : DKGMalicious) (rng : nat -> Z) (seed_sk : Z)
  : io DvfError (Keypair * p1 * gmap Z p1) :=
  '(kp, kps, _, own) ← io_lift (share_generation self rng seed_sk);
  payloads ← share_transmission self kps own;
  vrfy_result ← io_lift (share_verification self payloads);
  other_vrfy_results ← exchange_verification_results self vrfy_result;
  self_abort ← issue_claims self payloads (map_to_list vrfy_result);
  claims ← judge_claims self (map_to_list other_vrfy_results);
  let valid_claims :=
    omap (fun '(a, b, x) => if x : bool then Some (a, b) else None) claims in
  match valid_claims with
  | _ :: _ => io_lift (Err (InvalidDkgShare valid_claims))
  | [] =>
      if self_abort : bool then io_lift (Err VssShareVerificationFailed)
      else derive_keys self kp kps own payloads
  end.
End malicious.

(** ** [SimpleDistributedSigner] *)

Section signer.
Context `{Blst}.

Record SimpleDistributedSigner := mkSigner {
  signer_party : Z;
  signer_kp : Keypair;
  signer_mpk : p1;
  signer_pks : gmap Z p1;
  signer_io : IOCommittee DvfError;
  signer_threshold : nat
}.

Definition SimpleDistributedSigner_sign (self : SimpleDistributedSigner) (msg : bytes)
  : io DvfError Signature :=
  let ids := io_ids (signer_io self) in
  let my_sig := SecretKey_sign (Keypair_sk (signer_kp self)) msg in
  l ← exchange (signer_io self) (signer_party self)
        (map (fun id => (id, Signature_serialize my_sig)) ids);
  results ← io_lift (try_map (fun '(id, b) =>
    if bool_decide (id = signer_party self)
    then mret (id, Keypair_pk (signer_kp self), my_sig)
    else
      sig ← unwrap (Signature_deserialize b);
      pk ← unwrap (signer_pks self !! id);
      mret (id, pk, sig)) l);
  let ids := map (fun x => x.1.1) results in
  let pks := map (fun x => x.1.2) results in
  let sigs := map snd results in
  threshold_sig ← io_lift (infinity (signer_threshold self));
  io_lift (threshold_aggregate threshold_sig sigs pks ids msg).
End signer.
