(* ===== verification/DkgIdeal.v ===== *)
(** * Concrete encodings of the payloads

    An instance of [DkgCodec] over the concrete pairing library, with length
    prefixes.  It is used in the witnesses only: it shows that the laws of the
    encodings can hold. *)

From Stdlib Require Import Zmod.
From S2P Require Import Prelude Network Scalars Blst BlstIdeal Polynomial Dkg.

#[local] Existing Instances ideal_blst ideal_blst_laws.

(** A list with its length, and what follows. *)
Definition put (l rest : bytes) : bytes := Z.of_nat (length l) :: l ++ rest.
Definition get (b : bytes) : option (bytes * bytes) :=
  match b with
  | [] => None
  | n :: b => Some (take (Z.to_nat n) b, drop (Z.to_nat n) b)
  end.

#[local] Arguments put : simpl never.
#[local] Arguments get : simpl never.

Lemma get_put l rest : get (put l rest) = Some (l, rest).
Proof. unfold get, put. by rewrite Nat2Z.id, take_app_length, drop_app_length. Qed.

Lemma length_put l rest : length (put l rest) = S (length l + length rest).
Proof. unfold put. simpl. by rewrite length_app. Qed.

Fixpoint put_pairs (l : list (Z * bool)) : bytes :=
  match l with [] => [] | (k, b) :: l => k :: Z.b2z b :: put_pairs l end.
Fixpoint get_pairs (b : bytes) : list (Z * bool) :=
  match b with
  | k :: x :: b => (k, bool_decide (x = 1)) :: get_pairs b
  | _ => []
  end.

Lemma get_put_pairs l : get_pairs (put_pairs l) = l.
Proof.
  induction l as [|[k b] l IH]; [done|]. cbn [put_pairs get_pairs]. rewrite IH. by destruct b.
Qed.

Lemma length_put_pairs l : length (put_pairs l) = (2 * length l)%nat.
Proof. induction l as [|[k b] l IH]; simpl; [done|]. rewrite IH. lia. Qed.

Definition ideal_codec : DkgCodec := {|
  vss_encode '(e, s, c) := Zmod.to_Z (s : Fr) :: put e c;
  vss_decode b :=
    match b with
    | [] => None
    | s :: b => '(e, c) ← get b; Some (e, fr s, c)
    end;
  results_encode r := put_pairs (map_to_list r);
  results_decode b := Some (list_to_map (get_pairs b));
  claim_encode '(i, j, e, k, s, c, (p, q)) :=
    i :: j :: Zmod.to_Z (s : Fr) :: put e (put k (put c (put p q)));
  claim_decode b :=
    match b with
    | i :: j :: s :: b =>
        '(e, b) ← get b; '(k, b) ← get b; '(c, b) ← get b; '(p, q) ← get b;
        Some (i, j, e, k, fr s, c, (p, q))
    | _ => None
    end;
  pk_encode '(p, (c, r)) := put p (put c r);
  pk_decode b := '(p, b) ← get b; '(c, r) ← get b; Some (p, (c, r));
  gpk_encode '(p, a, (c, r)) := put p (put a (put c r));
  gpk_decode b :=
    '(p, b) ← get b; '(a, b) ← get b; '(c, r) ← get b; Some (p, a, (c, r))
|}.

#[local] Existing Instance ideal_codec.

Lemma fr_to_Z (s : Fr) : fr (Zmod.to_Z s) = s.
Proof. unfold fr. apply Zmod.of_Z_to_Z. Qed.

Lemma ideal_codec_laws : DkgCodecLaws.
Proof.
  split.
  - intros [[e s] c]. cbn [vss_decode vss_encode ideal_codec]. rewrite get_put. cbn.
    by rewrite fr_to_Z.
  - intros r. cbn [results_decode results_encode ideal_codec].
    by rewrite get_put_pairs, list_to_map_to_list.
  - intros [[[[[[i j] e] k] s] c] [p q]]. cbn [claim_decode claim_encode ideal_codec].
    rewrite get_put. cbn. rewrite get_put. cbn. rewrite get_put. cbn. rewrite get_put. cbn.
    by rewrite fr_to_Z.
  - intros [p [c r]]. cbn [pk_decode pk_encode ideal_codec]. rewrite get_put. cbn.
    by rewrite get_put.
  - intros [[p a] [c r]]. cbn [gpk_decode gpk_encode ideal_codec]. rewrite get_put. cbn.
    rewrite get_put. cbn. by rewrite get_put.
  - intros e s c. cbn [vss_encode ideal_codec length]. rewrite length_put. lia.
  - intros r. cbn [results_encode ideal_codec].
    rewrite length_put_pairs, length_map_to_list. lia.
  - intros p c r. cbn [pk_encode ideal_codec]. rewrite !length_put. lia.
  - intros p a c r. cbn [gpk_encode ideal_codec]. rewrite !length_put. lia.
Qed.
