(* ===== verification/DkgSound.v ===== *)
(** * Distributed key generation: what a party can rely on

    Whatever the other parties send, a party that finishes the key generation
    holds a share that matches the sum of the published commitments, and the
    public keys it accepts come with accepted proofs against the same
    commitments.  A dispute claim of an honest party is judged as that party
    judged the share; the accused cannot judge it at all. *)

From Stdlib Require Import Zmod.
From S2P Require Import Prelude Network Scalars Blst BlstIdeal Polynomial Threshold.
From S2P Require Import Processes IoCommittee Dkg DkgIdeal.

(** ** Lists and maps *)

Lemma try_map_ok {E A B} (f : A -> outcome E B) l ys :
  try_map f l = Ok ys -> Forall2 (fun x y => f x = Ok y) l ys.
Proof.
  revert ys. induction l as [|x l IH]; simpl; intros ys; [intros [= <-]; constructor|].
  destruct (f x) as [y| | |] eqn:Hx; try done. simpl.
  destruct (try_map f l) as [ys'| | |]; try done. simpl. intros [= <-].
  constructor; auto.
Qed.

Lemma try_map_total {E A B} (f : A -> outcome E B) (g : A -> B) l :
  (forall x, x ∈ l -> f x = Ok (g x)) -> try_map f l = Ok (map g l).
Proof.
  induction l as [|x l IH]; simpl; intros Hf; [done|].
  rewrite Hf by set_solver. simpl. by rewrite IH by set_solver.
Qed.

(** A map built entry by entry. *)
Lemma try_map_pairs {E A B} (g : Z -> A -> outcome E B) l r :
  try_map (fun '(id, x) => y ← g id x; mret (id, y)) l = Ok r ->
  NoDup l.*1 ->
  r.*1 = l.*1 /\
  forall id y, (list_to_map r : gmap Z B) !! id = Some y <->
    exists x, (id, x) ∈ l /\ g id x = Ok y.
Proof.
  intros Hr%try_map_ok Hnd.
  assert (r.*1 = l.*1) as Hk.
  { clear Hnd. induction Hr as [|[id x] [id' y] l r Hxy _ IH]; [done|].
    destruct (g id x); try discriminate Hxy. injection Hxy as <- <-.
    by rewrite !fmap_cons, IH. }
  split; [done|]. intros id y. rewrite <- Hk in Hnd.
  rewrite <- elem_of_list_to_map by done. clear Hnd Hk. split.
  - intros [i Hi]%list_elem_of_lookup.
    destruct (Forall2_lookup_r _ _ _ _ _ Hr Hi) as ([id' x] & Hx & Hg).
    destruct (g id' x) eqn:Hgx; try discriminate Hg. injection Hg as <- <-.
    exists x. split; [by eapply list_elem_of_lookup_2|done].
  - intros (x & [i Hi]%list_elem_of_lookup & Hg).
    destruct (Forall2_lookup_l _ _ _ _ _ Hr Hi) as (e & He & Hge).
    rewrite Hg in Hge. injection Hge as <-. by eapply list_elem_of_lookup_2.
Qed.

Lemma try_map_pairs_total {E A B} (g : Z -> A -> outcome E B) l :
  (forall id x, (id, x) ∈ l -> exists y, g id x = Ok y) ->
  exists r, try_map (fun '(id, x) => y ← g id x; mret (id, y)) l = Ok r.
Proof.
  induction l as [|[id x] l IH]; intros Hl; simpl; [by eexists|].
  destruct (Hl id x ltac:(apply list_elem_of_here)) as [y ->]. simpl.
  destruct IH as [r ->]; [|by eexists].
  intros id' x' Hin. by apply Hl, list_elem_of_further.
Qed.

(** Evaluates a bind of outcomes to the case where it returns. *)
Ltac ok_inv H :=
  match type of H with
  | (mbind _ ?m) = Ok _ =>
      let E := fresh "E" in destruct m eqn:E; try discriminate H; cbn in H
  end.

Lemma elem_of_map_keys {A} (m : gmap Z A) id :
  id ∈ (map_to_list m).*1 <-> is_Some (m !! id).
Proof.
  rewrite list_elem_of_fmap. split.
  - intros ([id' a] & -> & Hin%elem_of_map_to_list). by exists a.
  - intros [a Ha]. exists (id, a). split; [done|]. by apply elem_of_map_to_list.
Qed.

Lemma peers_cons_other i l j : j <> i -> peers (j :: l) i = j :: peers l i.
Proof. intros Hj. unfold peers. by rewrite filter_cons, decide_True. Qed.

Lemma peers_cons_self i l : peers (i :: l) i = peers l i.
Proof. unfold peers. rewrite filter_cons, decide_False by tauto. done. Qed.

Lemma elem_of_peers i l j : j ∈ peers l i <-> j ∈ l /\ j <> i.
Proof. unfold peers. rewrite list_elem_of_filter. tauto. Qed.

Lemma NoDup_peers i l : NoDup l -> NoDup (peers l i).
Proof. apply NoDup_filter. Qed.

(** A map given by a function on a list of keys. *)
Definition fmap_on {A} (f : Z -> A) (l : list Z) : gmap Z A :=
  list_to_map (map (fun j => (j, f j)) l).

Lemma lookup_fmap_on {A} (f : Z -> A) l j :
  fmap_on f l !! j = if decide (j ∈ l) then Some (f j) else None.
Proof.
  unfold fmap_on. induction l as [|k l IH]; cbn [map list_to_map foldr].
  { rewrite decide_False by apply not_elem_of_nil. done. }
  simpl. destruct (decide (j = k)) as [->|Hjk].
  - by rewrite lookup_insert_eq, decide_True by set_solver.
  - rewrite lookup_insert_ne by done. fold (fmap_on f l) in *. rewrite IH.
    destruct (decide (j ∈ l)); [by rewrite decide_True by set_solver|].
    by rewrite decide_False by set_solver.
Qed.

Lemma fmap_on_eq {A} (f : Z -> A) l (m : gmap Z A) :
  (forall j, m !! j = if decide (j ∈ l) then Some (f j) else None) -> m = fmap_on f l.
Proof. intros Hm. apply map_eq. intros j. by rewrite Hm, lookup_fmap_on. Qed.

Lemma fmap_on_reverse {A} (f : Z -> A) l :
  list_to_map (reverse (map (fun j => (j, f j)) l)) = fmap_on f l.
Proof.
  change (map ?g l) with (g <$> l). rewrite <- fmap_reverse. apply fmap_on_eq. intros j.
  change (fmap_on f (reverse l) !! j = if decide (j ∈ l) then Some (f j) else None).
  rewrite lookup_fmap_on.
  destruct (decide (j ∈ l)) as [Hj|Hj].
  - by rewrite decide_True by (by apply elem_of_reverse).
  - by rewrite decide_False by (by rewrite elem_of_reverse).
Qed.

Lemma map_to_list_fmap_on {A} (f : Z -> A) l :
  NoDup l -> map_to_list (fmap_on f l) ≡ₚ map (fun j => (j, f j)) l.
Proof.
  intros Hnd. unfold fmap_on. apply map_to_list_to_map.
  rewrite <- list_fmap_compose. simpl. by rewrite list_fmap_id.
Qed.

Lemma keys_fmap_on {A} (f : Z -> A) l : NoDup l -> (map_to_list (fmap_on f l)).*1 ≡ₚ l.
Proof.
  intros Hnd. rewrite (map_to_list_fmap_on f l Hnd), <- list_fmap_compose. simpl.
  by rewrite list_fmap_id.
Qed.

(** The own entry completes a map over the others. *)
Lemma insert_own {A} (f : Z -> A) l i :
  i ∈ l -> <[i := f i]> (fmap_on f (peers l i)) = fmap_on f l.
Proof.
  intros Hi. apply fmap_on_eq. intros j. destruct (decide (j = i)) as [->|Hj].
  - by rewrite lookup_insert_eq, decide_True.
  - rewrite lookup_insert_ne, lookup_fmap_on by done.
    destruct (decide (j ∈ l)); [rewrite decide_True|rewrite decide_False];
      rewrite ?elem_of_peers; tauto.
Qed.

Lemma size_fmap_on {A} (f : Z -> A) l : NoDup l -> size (fmap_on f l) = length l.
Proof.
  intros Hnd. rewrite <- length_map_to_list, (map_to_list_fmap_on f l Hnd).
  apply length_map.
Qed.

Section sums.
Context {G : Type} `{ZModuleLaws G}.

(** The sum of the values of a map. *)
Definition msum (m : gmap Z G) : G := gsum (map snd (map_to_list m)).

Lemma msum_insert m i x : m !! i = None -> msum (<[i := x]> m) = gadd x (msum m).
Proof.
  intros Hi. unfold msum. rewrite (gsum_perm _ (map snd ((i, x) :: map_to_list m))).
  - done.
  - by rewrite map_to_list_insert.
Qed.

Lemma msum_gmul (m : gmap Z Z) (h : G) :
  msum ((fun s => gmul s h) <$> m) = gmul (zsum snd (map_to_list m)) h.
Proof.
  unfold msum. rewrite map_to_list_fmap, map_map. apply gsum_gmul.
Qed.
End sums.

(** Splits a run of [p ≫= k] that returns; the run of a pure step becomes the
    equation of its result. *)
Ltac io_inv H :=
  let H1 := fresh "Hl" in
  apply local_bind_inv in H as (? & ? & ? & ? & -> & H1 & H);
  try (apply local_lift_inv in H1 as (H1 & -> & ->)).

Ltac io_done H := inversion H; subst; clear H.

Lemma foldl_insert_lookup {A B} (f : A -> B) (l : list (Z * A)) (m0 : gmap Z B) k :
  NoDup l.*1 ->
  foldl (fun m '(i, a) => <[i := f a]> m) m0 l !! k =
  match (list_to_map l : gmap Z A) !! k with Some a => Some (f a) | None => m0 !! k end.
Proof.
  revert m0. induction l as [|[i a] l IH]; intros m0; simpl; [done|].
  intros [Hi Hnd]%NoDup_cons. rewrite IH by done.
  destruct (decide (i = k)) as [->|Hik].
  - by rewrite not_elem_of_list_to_map_1, !lookup_insert_eq by done.
  - by rewrite !lookup_insert_ne by done.
Qed.

(** ** Steps of the protocol *)

Section steps.
Context `{BlstLaws} `{!DkgCodec} `{AesLaws}.
Implicit Types self : DKGMalicious.

Lemma all_commitments_spec self own payloads :
  payloads !! dkg_party self = None ->
  all_commitments self own payloads =
  <[dkg_party self := own]> (committed_poly <$> payloads).
Proof.
  intros Hp. apply map_eq. intros k. unfold all_commitments.
  rewrite foldl_insert_lookup, list_to_map_to_list by apply NoDup_fst_map_to_list.
  destruct (decide (k = dkg_party self)) as [->|Hk].
  - by rewrite Hp, lookup_insert_eq, lookup_singleton_eq.
  - rewrite lookup_insert_ne, lookup_fmap, lookup_singleton_ne by done.
    by destruct (payloads !! k).
Qed.

Lemma elem_of_others {V} self (m : gmap Z V) id v :
  (id, v) ∈ others self m <-> id <> dkg_party self /\ m !! id = Some v.
Proof.
  unfold others. rewrite list_elem_of_filter. simpl. by rewrite elem_of_map_to_list.
Qed.

Lemma construct_group_key_spec self shares :
  construct_group_key self shares =
  (zsum snd (map_to_list shares) mod MODULUS,
   gmul (zsum snd (map_to_list shares) mod MODULUS) ffi_p1_generator).
Proof.
  unfold construct_group_key.
  assert (forall l a, is_scalar a ->
    foldl (fun gsk '(_, s) => blst_scalar_add gsk s) a l =
    (a + zsum snd (l : list (Z * Z))) mod MODULUS) as Hf.
  { induction l as [|[i s] l IH]; intros a Ha; simpl.
    - by rewrite Z.add_0_r, Z.mod_small.
    - unfold blst_scalar_add at 2. rewrite IH; rewrite sk_add_ok; [|apply mod_scalar].
      rewrite Zplus_mod_idemp_l. f_equal. lia. }
  rewrite Hf, Z.add_0_l by (unfold is_scalar; pose proof modulus_bits; lia).
  f_equal. apply sk_to_pk_ok, mod_scalar.
Qed.

(** The parties to which shares are sent, and from which they come. *)
Lemma prepare_shares_ids tape i self kps poly ids n tr l n' :
  local tape i (prepare_shares self kps poly ids) n tr (Done (Ok l)) n' ->
  map (fun x => x.1.1.1) l = peers ids (dkg_party self).
Proof.
  revert n tr l. induction ids as [|id ids IH]; intros n tr l Hl;
    cbn [prepare_shares] in Hl.
  { io_done Hl. done. }
  unfold peers. rewrite filter_cons. case_bool_decide as Hid.
  - rewrite decide_False by naive_solver. by eapply IH.
  - rewrite decide_True by done. repeat io_inv Hl. io_done Hl. simpl. f_equal.
    by eapply IH.
Qed.

Lemma recv_payloads_ids tape i l n tr r n' :
  local tape i (recv_payloads l) n tr (Done (Ok r)) n' ->
  map fst r = map (fun x => x.1.1.1) l.
Proof.
  revert n tr r. induction l as [|[[[id ch] ch'] p] l IH]; intros n tr r Hl;
    cbn [recv_payloads] in Hl.
  { io_done Hl. done. }
  repeat io_inv Hl. io_done Hl. simpl. f_equal. by eapply IH.
Qed.

Lemma share_transmission_dom tape i self kps poly n tr payloads n' :
  local tape i (share_transmission self kps poly) n tr (Done (Ok payloads)) n' ->
  forall id, is_Some (payloads !! id) <->
    id ∈ sec_ids (dkg_io self) /\ id <> dkg_party self.
Proof.
  intros Hl id. unfold share_transmission in Hl. repeat io_inv Hl. io_done Hl.
  match goal with Hr : local _ _ (recv_payloads _) _ _ (Done (Ok ?r)) _ |- _ =>
    rename r into results end.
  assert (id ∈ map fst results <-> id ∈ sec_ids (dkg_io self) /\ id <> dkg_party self) as Hid.
  { erewrite recv_payloads_ids, prepare_shares_ids by done. unfold peers.
    rewrite list_elem_of_filter. tauto. }
  rewrite <- Hid, <- elem_of_dom, dom_list_to_map_L, elem_of_list_to_set.
  rewrite fmap_reverse, elem_of_reverse. done.
Qed.

Lemma NoDup_others {V} self (m : gmap Z V) : NoDup (others self m).*1.
Proof.
  unfold others. eapply sublist_NoDup; [apply (NoDup_fst_map_to_list m)|].
  apply fmap_sublist, sublist_filter.
Qed.

(** When every check holds, the shares open to values that match. *)
Lemma verified_shares self payloads vrfy :
  share_verification self payloads = Ok vrfy ->
  (forall id v, vrfy !! id = Some v -> v = true) ->
  exists shares, reveal_shares self payloads = Ok shares /\
    (forall id, is_Some (shares !! id) <->
      id <> dkg_party self /\ is_Some (payloads !! id)) /\
    forall id s p, shares !! id = Some s -> payloads !! id = Some p ->
      is_scalar s /\
      CommittedPoly.eval (E:=DvfError) (committed_poly p)
        (u64_to_blst_scalar (dkg_party self)) = Ok (blst_p1_mult (dkg_h self) s).
Proof.
  unfold share_verification, reveal_shares. intros Hv Htrue. ok_inv Hv.
  injection Hv as <-.
  destruct (try_map_pairs _ _ _ E (NoDup_others self payloads)) as [Hk Hlook].
  assert (forall id p, (id, p) ∈ others self payloads ->
    exists s, open_share self id p = Ok s /\
      CommittedPoly.eval (E:=DvfError) (committed_poly p)
        (u64_to_blst_scalar (dkg_party self)) = Ok (blst_p1_mult (dkg_h self) s)) as Hall.
  { intros id p Hin. apply try_map_ok in E. apply list_elem_of_lookup in Hin as [i Hi].
    destruct (Forall2_lookup_l _ _ _ _ _ E Hi) as (e & He & Hc). ok_inv Hc.
    assert (a0 = true) as ->.
    { apply (Htrue id), Hlook. exists p. split; [by eapply list_elem_of_lookup_2|done]. }
    unfold check_share in E0. ok_inv E0. ok_inv E0. injection E0 as Heq%bool_decide_eq_true_1.
    exists a0. split; [done|]. by rewrite Heq. }
  destruct (try_map_pairs_total (open_share self) (others self payloads)) as [r Hr].
  { intros id p Hin. destruct (Hall id p Hin) as (s & Hs & _). by exists s. }
  destruct (try_map_pairs _ _ _ Hr (NoDup_others self payloads)) as [Hk' Hlook'].
  rewrite Hr. cbn. eexists. split; [done|]. split.
  - intros id. split.
    + intros [s (p & Hin & _)%Hlook']. apply elem_of_others in Hin as [? ?]. eauto.
    + intros [Hid [p Hp]]. destruct (Hall id p) as (s & Hs & _).
      { by apply elem_of_others. }
      exists s. apply Hlook'. exists p. split; [by apply elem_of_others|done].
  - intros id s p Hs Hp. apply Hlook' in Hs as (p' & Hin & Hopen).
    destruct (Hall id p' Hin) as (s' & Hs' & Hev). rewrite Hopen in Hs'.
    injection Hs' as <-. apply elem_of_others in Hin as [_ Hp'].
    rewrite Hp in Hp'. injection Hp' as <-. split; [|done].
    unfold open_share in Hopen. ok_inv Hopen. ok_inv Hopen. injection Hopen as <-.
    unfold bytes_to_blst_scalar. rewrite scalar_from_le_bytes_ok. apply mod_scalar.
Qed.

Lemma issue_claims_none tape i self payloads l n tr n' :
  local tape i (issue_claims self payloads l) n tr (Done (Ok false)) n' ->
  forall id v, (id, v) ∈ l -> v = true.
Proof.
  revert n tr. induction l as [|[id v] l IH]; intros n tr Hl; cbn [issue_claims] in Hl.
  { by intros ? ? ?%elem_of_nil. }
  destruct v.
  - intros id' v' [[= -> ->]|Hin]%elem_of_cons; [done|]. by eapply IH.
  - repeat io_inv Hl. by inversion Hl.
Qed.

Lemma recv_others_spec {A} tape i self (f : Z -> bytes -> outcome DvfError A) ids n tr l n' :
  local tape i (recv_others self f ids) n tr (Done (Ok l)) n' ->
  map fst l = peers ids (dkg_party self) /\
  forall id a, (id, a) ∈ l -> exists msg, f id msg = Ok a.
Proof.
  revert n tr l. induction ids as [|id ids IH]; intros n tr l Hl; cbn [recv_others] in Hl.
  { io_done Hl. split; [done|]. by intros ? ? ?%elem_of_nil. }
  unfold peers. rewrite filter_cons. case_bool_decide as Hid.
  - rewrite decide_False by naive_solver. by eapply IH.
  - rewrite decide_True by done. repeat io_inv Hl. io_done Hl.
    match goal with Hr : local _ _ (recv_others _ _ _) _ _ _ _ |- _ =>
      destruct (IH _ _ _ Hr) as [Hk Hin] end.
    split; [simpl; by f_equal|].
    intros id' a' [[= -> ->]|Hl']%elem_of_cons; [by eexists|by eapply Hin].
Qed.

(** The keys collected are those of all parties, and they verified. *)
Lemma collect_keys_spec self l own m :
  NoDup (sec_ids (dkg_io self)) -> dkg_party self ∈ sec_ids (dkg_io self) ->
  map fst l = peers (sec_ids (dkg_io self)) (dkg_party self) ->
  collect_keys self l own = Ok m ->
  m !! dkg_party self = Some own /\
  (forall id, is_Some (m !! id) <-> id ∈ sec_ids (dkg_io self)) /\
  forall id pk, m !! id = Some pk -> id <> dkg_party self -> (id, Some pk) ∈ l.
Proof.
  intros Hnd Hparty Hkeys. unfold collect_keys.
  set (r := omap _ l). set (m0 := list_to_map (reverse r)).
  destruct (Nat.ltb_spec (size (<[dkg_party self := own]> m0))
    (length (sec_ids (dkg_io self)))) as [|Hsize]; [done|]. intros [= <-].
  assert (forall id pk, m0 !! id = Some pk -> (id, Some pk) ∈ l) as Hin.
  { intros id pk Hm. apply elem_of_list_to_map_2 in Hm.
    rewrite elem_of_reverse in Hm. unfold r in Hm.
    apply list_elem_of_omap in Hm as ([id' o] & Hl & Ho).
    destruct o as [pk'|]; [|done]. simpl in Ho. by injection Ho as -> ->. }
  assert (dom (<[dkg_party self := own]> m0) = list_to_set (sec_ids (dkg_io self))) as Hdom.
  { apply set_subseteq_size_eq.
    - rewrite dom_insert_L. intros id. rewrite elem_of_union, elem_of_singleton.
      rewrite elem_of_list_to_set. intros [->|[pk Hpk]%elem_of_dom]; [done|].
      assert (id ∈ map fst l) as Hk.
      { apply (list_elem_of_fmap_2 fst _ _ (Hin id pk Hpk)). }
      rewrite Hkeys in Hk. apply list_elem_of_filter in Hk. tauto.
    - by rewrite size_list_to_set, size_dom by done. }
  split; [apply lookup_insert_eq|]. split.
  - intros id. by rewrite <- elem_of_dom, Hdom, elem_of_list_to_set.
  - intros id pk Hm Hid. rewrite lookup_insert_ne in Hm by done. by apply Hin.
Qed.
End steps.

(** ** The keys a party accepts *)

Section output.
Context `{BlstLaws} `{!DkgCodec} `{AesLaws}.
Implicit Types self : DKGMalicious.

(** [l] are the values of all commitments at [x]. *)
Definition values_at (polys : gmap Z CommittedPoly.t) (x : Z) (l : list p1) : Prop :=
  try_map (E:=DvfError) (fun '(_, poly) =>
    CommittedPoly.eval poly (u64_to_blst_scalar x)) (map_to_list polys) = Ok l.

(** Verified public keys, against the constant commitments. *)
Definition certified_pks (h : p1) (polys : gmap Z CommittedPoly.t) (party : Z)
  (pks : gmap Z p1) : Prop :=
  forall id pk, pks !! id = Some pk -> id <> party ->
    exists aux proof, aux_pk polys id = Ok aux /\
      dleq_verify ffi_p1_generator pk h aux proof = true.

(** Verified group public keys, against the values of the commitments. *)
Definition certified_gpks (h : p1) (polys : gmap Z CommittedPoly.t) (party : Z)
  (gpks : gmap Z p1) : Prop :=
  forall id gpk, gpks !! id = Some gpk -> id <> party ->
    exists l proof, values_at polys id l /\
      dleq_verify ffi_p1_generator gpk h (ffi_p1s_add l) proof = true.

Lemma exchange_public_keys_spec tape i self pk sk polys n tr pks n' :
  NoDup (sec_ids (dkg_io self)) -> dkg_party self ∈ sec_ids (dkg_io self) ->
  local tape i (exchange_public_keys self pk sk polys) n tr (Done (Ok pks)) n' ->
  pks !! dkg_party self = Some pk /\
  (forall id, is_Some (pks !! id) <-> id ∈ sec_ids (dkg_io self)) /\
  certified_pks (dkg_h self) polys (dkg_party self) pks.
Proof.
  intros Hnd Hp Hl. unfold exchange_public_keys in Hl. repeat io_inv Hl.
  apply local_lift_inv in Hl as (Hc & _ & _).
  match goal with Hr : local _ _ (recv_others _ _ _) _ _ _ _ |- _ =>
    destruct (recv_others_spec _ _ _ _ _ _ _ _ _ Hr) as [Hk Hin] end.
  destruct (collect_keys_spec _ _ _ _ Hnd Hp Hk Hc) as (Hown & Hdom & Hcoll).
  split; [done|]. split; [done|]. intros id pk' Hm Hid.
  destruct (Hin _ _ (Hcoll id pk' Hm Hid)) as [msg Hf]. ok_inv Hf. ok_inv Hf.
  destruct (dleq_verify _ _ _ _ _) eqn:Hv in Hf; [|done]. injection Hf as <-. eauto.
Qed.

Lemma exchange_group_public_keys_spec tape i self gpk gsk polys n tr gpks n' :
  NoDup (sec_ids (dkg_io self)) -> dkg_party self ∈ sec_ids (dkg_io self) ->
  local tape i (exchange_group_public_keys self gpk gsk polys) n tr (Done (Ok gpks)) n' ->
  gpks !! dkg_party self = Some gpk /\
  (forall id, is_Some (gpks !! id) <-> id ∈ sec_ids (dkg_io self)) /\
  certified_gpks (dkg_h self) polys (dkg_party self) gpks.
Proof.
  intros Hnd Hp Hl. unfold exchange_group_public_keys in Hl. repeat io_inv Hl.
  apply local_lift_inv in Hl as (Hc & _ & _).
  match goal with Hr : local _ _ (recv_others _ _ _) _ _ _ _ |- _ =>
    destruct (recv_others_spec _ _ _ _ _ _ _ _ _ Hr) as [Hk Hin] end.
  destruct (collect_keys_spec _ _ _ _ Hnd Hp Hk Hc) as (Hown & Hdom & Hcoll).
  split; [done|]. split; [done|]. intros id gpk' Hm Hid.
  destruct (Hin _ _ (Hcoll id gpk' Hm Hid)) as [msg Hf]. ok_inv Hf.
  destruct (dleq_verify _ _ _ _ _) eqn:Hv in Hf; [|done]. cbn [negb] in Hf. ok_inv Hf.
  case_bool_decide as Heq; [|done]. injection Hf as <-.
  eexists _, _. split; [done|]. unfold blst_p1s_add in Heq. by rewrite <- Heq.
Qed.

(** The values of the commitments at the party's own point. *)
Lemma values_at_own self polys (payloads : gmap Z VssSharePayload) (shares : gmap Z Z)
  own s :
  payloads !! dkg_party self = None ->
  polys = <[dkg_party self := own]> (committed_poly <$> payloads) ->
  torsion (dkg_h self) -> is_scalar s ->
  CommittedPoly.eval (E:=DvfError) own (u64_to_blst_scalar (dkg_party self)) =
    Ok (gmul s (dkg_h self)) ->
  (forall id, is_Some (shares !! id) <->
    id <> dkg_party self /\ is_Some (payloads !! id)) ->
  (forall id s p, shares !! id = Some s -> payloads !! id = Some p ->
    is_scalar s /\
    CommittedPoly.eval (E:=DvfError) (committed_poly p)
      (u64_to_blst_scalar (dkg_party self)) = Ok (blst_p1_mult (dkg_h self) s)) ->
  exists l, values_at polys (dkg_party self) l /\
    gsum l = gmul (zsum snd (map_to_list (<[dkg_party self := s]> shares))) (dkg_h self).
Proof.
  intros Hpay Hpolys Hh Hs Hown Hdom Heval.
  set (all := <[dkg_party self := s]> shares).
  assert (forall id poly, polys !! id = Some poly -> exists s', all !! id = Some s' /\
    CommittedPoly.eval (E:=DvfError) poly (u64_to_blst_scalar (dkg_party self)) =
      Ok (gmul s' (dkg_h self))) as Hall.
  { intros id poly Hid. subst polys. unfold all.
    destruct (decide (id = dkg_party self)) as [->|Hne].
    - rewrite lookup_insert_eq in Hid. injection Hid as <-. exists s.
      by rewrite lookup_insert_eq.
    - rewrite lookup_insert_ne, lookup_fmap in Hid by done.
      destruct (payloads !! id) as [p|] eqn:Hp; [|done]. injection Hid as <-.
      destruct (proj2 (Hdom id)) as [s' Hs']; [by rewrite Hp|]. exists s'.
      rewrite lookup_insert_ne by done. split; [done|].
      destruct (Heval id s' p Hs' Hp) as [Hsc ->]. by rewrite blst_p1_mult_spec. }
  set (val id := gmul (default 0 (all !! id)) (dkg_h self)).
  assert (values_at polys (dkg_party self) (map (fun '(id, _) => val id) (map_to_list polys))) as Hv.
  { apply try_map_total. intros [id poly] Hin. apply elem_of_map_to_list in Hin.
    destruct (Hall id poly Hin) as (s' & Hs' & ->). unfold val. by rewrite Hs'. }
  eexists. split; [exact Hv|].
  rewrite <- msum_gmul. unfold msum. rewrite map_to_list_fmap, map_map.
  assert (map (fun '(id, _) => val id) (map_to_list polys) =
    map val (map_to_list polys).*1) as ->.
  { rewrite map_map. apply map_ext. by intros []. }
  assert (map (fun x => (prod_map id (fun s => gmul s (dkg_h self)) x).2) (map_to_list all) =
    map val (map_to_list all).*1) as ->.
  { rewrite map_map. apply map_ext_in. intros [id s'] Hin%list_elem_of_In.
    apply elem_of_map_to_list in Hin. unfold val. simpl. by rewrite Hin. }
  apply gsum_perm, fmap_Permutation. apply NoDup_Permutation;
    [apply NoDup_fst_map_to_list..|].
  intros id. rewrite !elem_of_map_keys. subst polys. unfold all.
  rewrite !lookup_insert_is_Some, lookup_fmap, fmap_is_Some. split.
  - intros [->|[Hne Hp]]; [by left|]. right. split; [done|]. apply Hdom. auto.
  - intros [->|[Hne Hp%Hdom]]; [by left|]. tauto.
Qed.

(** What the generation of the own shares gives. *)
Lemma share_generation_spec self rng seed_sk kp kps poly own :
  is_secret seed_sk -> (forall i, is_scalar (rng i)) ->
  share_generation self rng seed_sk = Ok (kp, kps, poly, own) ->
  kp = mkKeypair _ (SecretKey_public_key seed_sk) seed_sk /\
  own = commit poly (dkg_h self) /\
  (exists cs, poly = Polynomial.mk (seed_sk :: cs) /\
    dkg_threshold self = S (length cs) /\ Forall is_scalar (seed_sk :: cs) /\
    cs = map rng (seq 1 (length cs))) /\
  forall id, kps !! id =
    if decide (id ∈ sec_ids (dkg_io self)) then Some (share_keypair poly id) else None.
Proof.
  intros Hsk Hrng Hg. unfold share_generation in Hg. rewrite infinity_spec in Hg.
  cbn in Hg. unfold key_gen_with_poly, key_split_with_poly in Hg.
  destruct (share_poly _ rng seed_sk) as [poly'| | |] eqn:Hpoly; try done.
  cbn in Hg. destruct (split_loop poly' _ ∅) as [kps'| | |] eqn:Hloop; try done.
  cbn in Hg. injection Hg as <- <- <- <-.
  destruct (share_poly_spec _ _ _ _ (secret_scalar _ Hsk) Hrng Hpoly)
    as (cs & -> & Ht & Hcs & Hcsr).
  destruct (split_loop_spec _ _ _ _ Hloop) as [_ Hmap].
  split; [done|]. split; [done|]. split; [by exists cs|].
  intros id. rewrite Hmap. by rewrite lookup_empty.
Qed.

Lemma wrap_sk_inv {E} k k' :
  is_scalar k -> blst_scalar_to_blst_wrap_sk (E:=E) k = Ok k' -> k' = k.
Proof.
  intros Hk. unfold blst_scalar_to_blst_wrap_sk, bytes_to_blst_wrap_sk,
    blst_scalar_to_bytes. rewrite secret_deserialize_ok.
  unfold be_val. rewrite reverse_involutive, scalar_bytes_val by (by apply scalar_256).
  case_bool_decide; [|done]. by intros [= <-].
Qed.

Lemma wrap_pk_inv {E} p q : blst_p1_to_blst_wrap_pk (E:=E) p = Ok q -> q = p.
Proof.
  unfold blst_p1_to_blst_wrap_pk, bytes_to_blst_wrap_pk, blst_p1_to_bytes.
  destruct (PublicKey_deserialize _) as [q'|] eqn:Hd; [|done]. intros [= <-].
  apply public_deserialize_ok in Hd as [Hc _].
  by rewrite <- (p1_uncompress_compress p), Hc, p1_uncompress_compress.
Qed.

Lemma wrap_pks_inv {E} (m : gmap Z p1) l :
  try_map (E:=E) (fun '(id, gpk) =>
    pk ← blst_p1_to_blst_wrap_pk gpk; mret (id, pk)) (map_to_list m) = Ok l ->
  list_to_map l = m.
Proof.
  intros Hl. destruct (try_map_pairs (fun _ => blst_p1_to_blst_wrap_pk) _ _ Hl)
    as [Hk Hlook]; [apply NoDup_fst_map_to_list|].
  apply map_eq. intros id. destruct (m !! id) as [p|] eqn:Hm.
  - assert (id ∈ l.*1) as Hin by (rewrite Hk; apply elem_of_map_keys; by rewrite Hm).
    destruct ((list_to_map l : gmap Z p1) !! id) as [q|] eqn:Hq.
    + apply Hlook in Hq as (p' & Hp' & Hw). apply elem_of_map_to_list in Hp'.
      apply wrap_pk_inv in Hw. congruence.
    + apply not_elem_of_list_to_map in Hq. done.
  - destruct ((list_to_map l : gmap Z p1) !! id) as [q|] eqn:Hq; [|done].
    apply Hlook in Hq as (p' & Hp' & _). apply elem_of_map_to_list in Hp'. congruence.
Qed.

(** The outcome of the second half. *)
Lemma derive_keys_spec tape i self kp kps own payloads polys s n tr gkp mpk gpks n' shares :
  NoDup (sec_ids (dkg_io self)) -> dkg_party self ∈ sec_ids (dkg_io self) ->
  polys = all_commitments self own payloads ->
  reveal_shares self payloads = Ok shares ->
  kps !! dkg_party self = Some (mkKeypair _ (SecretKey_public_key s) s) -> is_scalar s ->
  local tape i (derive_keys self kp kps own payloads) n tr
    (Done (Ok (gkp, mpk, gpks))) n' ->
  Keypair_sk gkp =
    zsum snd (map_to_list (<[dkg_party self := s]> shares)) mod MODULUS /\
  Keypair_pk gkp = gmul (Keypair_sk gkp) ffi_p1_generator /\
  (exists pks, mpk = ffi_p1s_add (map snd (map_to_list pks)) /\
    (forall id, is_Some (pks !! id) <-> id ∈ sec_ids (dkg_io self)) /\
    certified_pks (dkg_h self) polys (dkg_party self) pks) /\
  gpks !! dkg_party self = Some (Keypair_pk gkp) /\
  (forall id, is_Some (gpks !! id) <-> id ∈ sec_ids (dkg_io self)) /\
  certified_gpks (dkg_h self) polys (dkg_party self) gpks.
Proof.
  intros Hnd Hp -> Hshares Hkps Hs Hl. unfold derive_keys in Hl. io_inv Hl.
  destruct (exchange_public_keys_spec _ _ _ _ _ _ _ _ _ _ Hnd Hp Hl0)
    as (Hown & Hdom & Hcert).
  rewrite insert_id in Hl by done. io_inv Hl. rewrite Hshares in Hl1.
  injection Hl1 as <-. io_inv Hl. rewrite Hkps in Hl1. injection Hl1 as <-.
  cbn [Keypair_sk] in Hl. rewrite wrap_sk_scalar in Hl by done.
  rewrite construct_group_key_spec in Hl. io_inv Hl.
  destruct (exchange_group_public_keys_spec _ _ _ _ _ _ _ _ _ _ Hnd Hp Hl1)
    as (Hgown & Hgdom & Hgcert).
  set (gsk := zsum snd _ mod MODULUS) in *.
  io_inv Hl. io_inv Hl. io_inv Hl. io_done Hl.
  apply wrap_sk_inv in Hl2 as ->; [|apply mod_scalar]. apply wrap_pk_inv in Hl3 as ->.
  apply wrap_pks_inv in Hl4 as ->. cbn [Keypair_sk Keypair_pk].
  split; [done|]. split; [apply public_key_ok|]. split; [by eexists|].
  split; [by rewrite public_key_ok|]. done.
Qed.

(** A run that returns keys passed the verification of every share. *)
Lemma run_reaches_keys tape i self rng seed_sk n tr r n' :
  local tape i (DKGMalicious_run self rng seed_sk) n tr (Done (Ok r)) n' ->
  exists kp kps poly own payloads vrfy n1 n2 n3 tr1 tr2,
    share_generation self rng seed_sk = Ok (kp, kps, poly, own) /\
    local tape i (share_transmission self kps own) n1 tr1 (Done (Ok payloads)) n2 /\
    share_verification self payloads = Ok vrfy /\
    (forall id v, vrfy !! id = Some v -> v = true) /\
    local tape i (derive_keys self kp kps own payloads) n3 tr2 (Done (Ok r)) n'.
Proof.
  intros Hl. unfold DKGMalicious_run in Hl. io_inv Hl.
  destruct x as [[[kp kps] poly] own]. io_inv Hl. io_inv Hl. io_inv Hl. io_inv Hl. io_inv Hl.
  destruct (omap _ _) as [|] in Hl; [|by inversion Hl].
  match goal with Ha : local _ _ (issue_claims _ _ _) _ _ (Done (Ok ?b)) _ |- _ =>
    destruct b; [by inversion Hl|]; pose proof (issue_claims_none _ _ _ _ _ _ _ _ Ha) as Hv end.
  do 11 eexists. do 3 (split; [eassumption|]). split; [|eassumption].
  intros id v Hv'. by apply (Hv id), elem_of_map_to_list.
Qed.

(** C11: a party that finishes the key generation relies on the commitments
    alone.  Whatever messages the others sent, its secret key times the second
    generator is the sum of the values, at its own identifier, of one committed
    polynomial per party, its own being the one it drew; its group public key
    belongs to its secret key; and the master public key and the group public
    keys of the others were accepted with proofs against the same
    commitments. *)
Theorem dkg_output_consistent tape i self rng seed_sk n tr gkp mpk gpks n' :
  is_secret seed_sk -> (forall i, is_scalar (rng i)) ->
  NoDup (sec_ids (dkg_io self)) -> dkg_party self ∈ sec_ids (dkg_io self) ->
  is_u64 (dkg_party self) -> torsion (dkg_h self) ->
  local tape i (DKGMalicious_run self rng seed_sk) n tr
    (Done (Ok (gkp, mpk, gpks))) n' ->
  exists polys poly l,
    share_poly (E:=DvfError) (mkThresholdSignature g0 (dkg_threshold self)) rng seed_sk
      = Ok poly /\
    polys !! dkg_party self = Some (commit poly (dkg_h self)) /\
    (forall id, is_Some (polys !! id) <-> id ∈ sec_ids (dkg_io self)) /\
    values_at polys (dkg_party self) l /\
    gmul (Keypair_sk gkp) (dkg_h self) = gsum l /\
    Keypair_pk gkp = gmul (Keypair_sk gkp) ffi_p1_generator /\
    (exists pks, mpk = ffi_p1s_add (map snd (map_to_list pks)) /\
      (forall id, is_Some (pks !! id) <-> id ∈ sec_ids (dkg_io self)) /\
      certified_pks (dkg_h self) polys (dkg_party self) pks) /\
    gpks !! dkg_party self = Some (Keypair_pk gkp) /\
    (forall id, is_Some (gpks !! id) <-> id ∈ sec_ids (dkg_io self)) /\
    certified_gpks (dkg_h self) polys (dkg_party self) gpks.
Proof.
  intros Hsk Hrng Hnd Hp Hu Hh Hl.
  destruct (run_reaches_keys _ _ _ _ _ _ _ _ _ Hl) as
    (kp & kps & poly & own & payloads & vrfy & n1 & n2 & n3 & tr1 & tr2 &
     Hgen & Htrans & Hver & Htrue & Hder).
  destruct (share_generation_spec _ _ _ _ _ _ _ Hsk Hrng Hgen)
    as (_ & -> & (cs & -> & Ht & Hcs & Hcsr) & Hkps).
  pose proof (share_transmission_dom _ _ _ _ _ _ _ _ _ Htrans) as Hpay.
  assert (payloads !! dkg_party self = None) as Hnone.
  { apply eq_None_not_Some. rewrite Hpay. tauto. }
  destruct (verified_shares _ _ _ Hver Htrue) as (shares & Hrev & Hdom & Heval).
  specialize (Hkps (dkg_party self)). rewrite decide_True in Hkps by done.
  set (s := share_of (Polynomial.mk (seed_sk :: cs)) (dkg_party self)) in *.
  assert (is_scalar s) as Hs by apply mod_scalar.
  set (own := commit (Polynomial.mk (seed_sk :: cs)) (dkg_h self)) in *.
  assert (CommittedPoly.eval (E:=DvfError) own (u64_to_blst_scalar (dkg_party self)) =
    Ok (gmul s (dkg_h self))) as Hown.
  { unfold own. rewrite u64_to_blst_scalar_spec, committed_eval
      by (done || by apply u64_scalar). unfold s, share_of. by rewrite gmul_mod. }
  destruct (derive_keys_spec _ _ _ _ _ _ _ _ s _ _ _ _ _ _ shares Hnd Hp eq_refl Hrev Hkps Hs Hder)
    as (Hgsk & Hgpk & Hpks & Hgown & Hgdom & Hgcert).
  rewrite (all_commitments_spec _ _ _ Hnone) in *.
  destruct (values_at_own self _ payloads shares own s Hnone eq_refl Hh Hs Hown Hdom Heval)
    as (l & Hl' & Hsum).
  exists (<[dkg_party self := own]> (committed_poly <$> payloads)),
    (Polynomial.mk (seed_sk :: cs)), l. split.
  { unfold share_poly, sample_vec. simpl. rewrite Ht. simpl.
    destruct (secret_serialize_ok seed_sk (secret_scalar _ Hsk)) as [_ ->].
    by rewrite <- Hcsr. }
  split; [apply lookup_insert_eq|]. split.
  { intros id. destruct (decide (id = dkg_party self)) as [->|].
    - rewrite lookup_insert_eq. split; [done|by eexists].
    - rewrite lookup_insert_ne, lookup_fmap, fmap_is_Some, Hpay by done. tauto. }
  split; [exact Hl'|]. split; [by rewrite Hgsk, gmul_mod, Hsum|]. done.
Qed.
End output.

(** ** Proofs and disputes *)

Section disputes.
Context `{BlstLaws} `{!DkgCodec} `{!DkgCodecLaws} `{AesLaws}.
Implicit Types self : DKGMalicious.

Definition is_proof (p : DleqProof) : Prop := is_scalar (proof_c p) /\ is_scalar (proof_r p).

(** A proof for a true statement is accepted. *)
Lemma dleq_complete ikm x1 x2 alpha :
  torsion x1 -> torsion x2 -> is_scalar alpha ->
  exists proof,
    dleq_prove ikm x1 (gmul alpha x1) x2 (gmul alpha x2) alpha = Ok proof /\
    dleq_verify x1 (gmul alpha x1) x2 (gmul alpha x2) proof = true /\ is_proof proof.
Proof.
  intros Hx1 Hx2 Ha. unfold dleq_prove.
  rewrite !blst_p1_mult_spec by done.
  rewrite !bool_decide_false by (intros Hn; by apply Hn). cbn.
  eexists. split; [done|]. set (w := random_blst_scalar ikm).
  assert (is_scalar w) as Hw by (apply secret_scalar, keygen_ok).
  set (c := hash_points_to_blst_scalar _).
  assert (is_scalar c) as Hc.
  { unfold c, hash_points_to_blst_scalar, bytes_to_blst_scalar.
    rewrite scalar_from_le_bytes_ok. apply mod_scalar. }
  assert (is_scalar (blst_scalar_sub w (blst_scalar_mult alpha c))) as Hr.
  { unfold blst_scalar_sub. rewrite sk_sub_ok. apply mod_scalar. }
  assert (forall x, torsion x ->
    blst_p1_add (blst_p1_mult x (blst_scalar_sub w (blst_scalar_mult alpha c)))
      (blst_p1_mult (gmul alpha x) c) = blst_p1_mult x w) as Ht.
  { intros x Hx. unfold blst_p1_add. rewrite p1_add_ok, !blst_p1_mult_spec by done.
    rewrite <- gmul_mul, <- gmul_add_l. apply gmul_fr; [done|].
    unfold blst_scalar_sub, blst_scalar_mult. rewrite sk_sub_ok, sk_mul_ok.
    rewrite fr_add, fr_mod, fr_sub, fr_mod, !fr_mul. ring. }
  split; [|done]. unfold dleq_verify. cbn [proof_c proof_r].
  rewrite !Ht by done. unfold c. rewrite !blst_p1_mult_spec by done.
  by apply bool_decide_true.
Qed.

(** A proof is refused for other points. *)
Lemma dleq_prove_refuses ikm x1 y1 x2 y2 alpha :
  is_scalar alpha -> y1 <> gmul alpha x1 \/ y2 <> gmul alpha x2 ->
  dleq_prove ikm x1 y1 x2 y2 alpha = Err ZKProofInvalidInput.
Proof.
  intros Ha Hne. unfold dleq_prove. rewrite !blst_p1_mult_spec by done.
  destruct Hne as [Hne|Hne].
  - by rewrite bool_decide_true by congruence.
  - by rewrite (bool_decide_true (_ <> y2)), orb_true_r by congruence.
Qed.

(** The committees of the parties, after the exchange of their channel keys
    [sk]. *)
Definition connected (self : DKGMalicious) (sk : Z -> Z) : Prop :=
  sec_party (dkg_io self) = dkg_party self /\
  forall id, sec_channels (dkg_io self) !! id =
    if decide (id ∈ peers (sec_ids (dkg_io self)) (dkg_party self))
    then Some (channel_to id (sk (dkg_party self)) (sk id)) else None.

Lemma connected_channel self sk id :
  connected self sk -> id ∈ peers (sec_ids (dkg_io self)) (dkg_party self) ->
  dkg_channel self (dkg_party self) id =
    Ok (channel_to id (sk (dkg_party self)) (sk id)) /\
  dkg_channel self id (dkg_party self) =
    Ok (channel_to id (sk (dkg_party self)) (sk id)).
Proof.
  intros [Hp Hc] Hin. pose proof Hin as [Hne _]%list_elem_of_filter.
  unfold dkg_channel, SecureNetIOCommittee_channel, pick_channel.
  rewrite Hp, !Hc, !decide_True by done.
  rewrite (bool_decide_false (dkg_party self = id)) by congruence.
  rewrite (bool_decide_false (id = dkg_party self)) by congruence.
  rewrite !(bool_decide_false (dkg_party self <> dkg_party self)) by tauto.
  rewrite (bool_decide_true (dkg_party self = dkg_party self)) by done.
  rewrite andb_false_r. done.
Qed.

(** A dispute is judged as the complaining party judged the share.  The
    party [self] received from [i] an encrypted share signed with the channel
    key of [i]; its claim against [i] is made whatever the share is, and any
    third party reaches the opposite of the verdict that [self] reached on the
    share, with the same panic when the share cannot be opened. *)
Theorem dispute_judged_as_checked self judge sk ikm i share :
  connected self sk -> connected judge sk -> dkg_h judge = dkg_h self ->
  (forall id, is_secret (sk id)) ->
  i ∈ peers (sec_ids (dkg_io self)) (dkg_party self) ->
  i ∈ peers (sec_ids (dkg_io judge)) (dkg_party judge) ->
  dkg_party self ∈ peers (sec_ids (dkg_io judge)) (dkg_party judge) ->
  vss_sig share = SecretKey_sign (sk i) (enc_share share) ->
  exists claim, dispute_claim self ikm i share = Ok claim /\
    verify_dispute_claim judge claim =
    (valid ← check_share self i share; mret (negb valid)).
Proof.
  intros Hself Hjudge Hh Hsk Hi Hij Hsj Hsig. unfold dispute_claim.
  destruct (connected_channel self sk i Hself Hi) as [Hch _]. rewrite Hch. cbn.
  set (j := dkg_party self) in *.
  rewrite self_public_key_spec by apply Hsk.
  unfold shared_secret, blst_ecdh_shared_secret. cbn.
  rewrite blst_p1_mult_spec by (by apply secret_scalar).
  set (kij := gmul (sk j) (gmul (sk i) ffi_p1_generator)).
  destruct (dleq_complete ikm ffi_p1_generator (gmul (sk i) ffi_p1_generator) (sk j))
    as (proof & Hprove & Haccept & _);
    [apply generator_order|apply gmul_torsion, generator_order|by apply secret_scalar|].
  fold kij in Hprove, Haccept. unfold fixed_p1_generator. rewrite Hprove. cbn.
  eexists. split; [done|]. unfold verify_dispute_claim.
  cbn [issue_party corrupted_party claim_sig claim_enc_share claim_key claim_proof
    claim_committed_poly].
  destruct (connected_channel judge sk j Hjudge Hsj) as [-> _].
  destruct (connected_channel judge sk i Hjudge Hij) as [-> _]. cbn.
  rewrite Hsig, signature_core. cbn. unfold verify_partner. cbn.
  rewrite core_verify_ok by done. cbn.
  unfold bytes_to_blst_p1, blst_p1_to_bytes, fixed_p1_generator.
  rewrite p1_uncompress_compress, Haccept, Hh. cbn.
  unfold check_share, open_share. fold j. rewrite Hch. cbn. unfold decrypt, shared_secret,
    blst_ecdh_shared_secret, blst_p1_to_bytes. cbn.
  rewrite blst_p1_mult_spec by (by apply secret_scalar). fold kij.
  destruct (decrypt_with_key _ _) as [s| | |]; try done. cbn.
  destruct (CommittedPoly.eval _ _) as [y| | |]; try done. cbn.
  f_equal. unfold bytes_to_blst_scalar. case_bool_decide; case_bool_decide; done.
Qed.

(** The accused cannot judge a claim: a claim that names the receiving
    party as the corrupted one makes the receiver panic, whoever sent it and
    whatever else it says. *)
Theorem accused_panics tape self sk id1 id2 n e claim :
  connected self sk -> corrupted_party claim = dkg_party self ->
  issue_party claim ∈ peers (sec_ids (dkg_io self)) (dkg_party self) ->
  Z.of_nat (length (CommittedPoly.commitments (claim_committed_poly claim))) <= u32_max ->
  opens (E:=DvfError) id1 (sk id1) (sk (dkg_party self)) e (DisputeClaim_to_bytes claim) ->
  local tape (dkg_party self)
    (recv_claims self id1 (channel_to id1 (sk (dkg_party self)) (sk id1)) [(id2, false)])
    n [In id1 e] (Done (Panic "Invalid channel")) n.
Proof.
  intros Hc Hacc Hissue Hlen Ho. cbn [recv_claims].
  apply (local_trans _ _ _ (Done (Panic "Invalid channel")) _ _ n n [In id1 e] []);
    [|constructor].
  unfold SecureNetIOChannel_recv, NetIOChannel_recv, io_recv. cbn.
  apply local_recv. cbn. unfold io_lift, opens in *. rewrite Ho. cbn.
  unfold DisputeClaim_from_bytes, DisputeClaim_to_bytes. rewrite claim_roundtrip. cbn.
  rewrite committed_bytes_roundtrip by done. cbn. unfold verify_dispute_claim. cbn.
  destruct (connected_channel self sk _ Hc Hissue) as [-> _]. cbn.
  unfold dkg_channel, SecureNetIOCommittee_channel, pick_channel. rewrite Hacc.
  rewrite bool_decide_true by done. constructor.
Qed.
End disputes.

(** ** Witnesses

    Two parties with the identifiers 1 and 2, threshold 2, the polynomials
    [7 + 12 x] and [8 + 12 x] and the channel keys 21 and 22. *)

Section witnesses.
#[local] Existing Instances ideal_blst ideal_blst_laws ideal_aes ideal_aes_laws.
#[local] Existing Instances ideal_codec ideal_codec_laws.

Definition duo_tape (i : Z) (n : nat) : bytes := replicate 32 (i + Z.of_nat n).
Definition duo_key (i : Z) : Z := 20 + i mod 50.
Definition duo_channels (ids : list Z) (i : Z) : gmap Z SecureNetIOChannel :=
  fmap_on (fun j => channel_to j (duo_key i) (duo_key j)) (peers ids i).
Definition duo_party (ids : list Z) (i : Z) : DKGMalicious :=
  DKGMalicious_new i (mkSecureCommittee i ids (duo_channels ids i)) 2.

(** The value that a process returns when it is given the messages [ins], with
    its sends and receives. *)
Fixpoint replay {A} (i : Z) (p : io DvfError A) (n : nat) (ins : list bytes)
  : option (A * list event * nat) :=
  match p with
  | Done (Ok a) => Some (a, [], n)
  | Done _ => None
  | Send to m k => '(a, tr, n') ← replay i k n ins; Some (a, Out to m :: tr, n')
  | Recv from k =>
      match ins with
      | [] => None
      | m :: ins => '(a, tr, n') ← replay i (k m) n ins; Some (a, In from m :: tr, n')
      end
  | Draw k => replay i (k (duo_tape i n)) (S n) ins
  end.

Lemma replay_local {A} i (p : io DvfError A) n ins a tr n' :
  replay i p n ins = Some (a, tr, n') -> local duo_tape i p n tr (Done (Ok a)) n'.
Proof.
  revert n ins tr. induction p as [o|to m k IH|from k IH|k IH]; intros n ins tr; cbn [replay].
  - destruct o; [|done..]. intros [= <- <- <-]. constructor.
  - destruct (replay i k n ins) as [[[a' tr'] n'']|] eqn:Hr; [|done].
    intros [= <- <- <-]. constructor. by eapply IH.
  - destruct ins as [|m ins]; [done|].
    destruct (replay i (k m) n ins) as [[[a' tr'] n'']|] eqn:Hr; [|done].
    intros [= <- <- <-]. constructor. by eapply IH.
  - intros Hr. constructor. by eapply IH.
Qed.

(** The messages that the party 1 receives when the two run in turns. *)
Fixpoint received_by_1 {A} (fuel : nat) (c : network (E:=DvfError) (A:=A)) : list bytes :=
  match fuel with
  | O => []
  | S fuel =>
      let c := default c (step_party duo_tape c 2) in
      let m := match procs c !! 1 with
               | Some (Recv from _, _) => head (queue c from 1)
               | _ => None
               end in
      option_list m ++ received_by_1 fuel (default c (step_party duo_tape c 1))
  end.

Definition duo_run (i key : Z) : io DvfError (Keypair * p1 * gmap Z p1) :=
  DKGMalicious_run (duo_party [1; 2] i) demo_rng key.
Definition duo_network : network :=
  mkNetwork (list_to_map [(1, (duo_run 1 7, 0%nat)); (2, (duo_run 2 8, 0%nat))]) ∅.
Definition duo_messages : list bytes := received_by_1 60 duo_network.

Lemma duo_returns :
  match replay 1 (duo_run 1 7) 0 duo_messages with Some _ => true | None => false end = true.
Proof. vm_compute. reflexivity. Qed.

Lemma duo_ids : NoDup [1; 2].
Proof. by apply (bool_decide_unpack _). Qed.

Lemma duo_u64 : is_u64 1.
Proof. unfold is_u64, u64_max. lia. Qed.

Lemma small_secret k : 0 < k < 100 -> is_secret k.
Proof. unfold is_secret. pose proof modulus_bits. lia. Qed.

Lemma dkg_output_consistent_witness :
  exists gkp mpk gpks polys poly l,
    share_poly (E:=DvfError)
      (mkThresholdSignature g0 (dkg_threshold (duo_party [1; 2] 1))) demo_rng 7 = Ok poly /\
    polys !! dkg_party (duo_party [1; 2] 1) =
      Some (commit poly (dkg_h (duo_party [1; 2] 1))) /\
    (forall id, is_Some (polys !! id) <-> id ∈ sec_ids (dkg_io (duo_party [1; 2] 1))) /\
    values_at polys (dkg_party (duo_party [1; 2] 1)) l /\
    gmul (Keypair_sk gkp) (dkg_h (duo_party [1; 2] 1)) = gsum l /\
    Keypair_pk gkp = gmul (Keypair_sk gkp) ffi_p1_generator /\
    (exists pks, mpk = ffi_p1s_add (map snd (map_to_list pks)) /\
      (forall id, is_Some (pks !! id) <-> id ∈ sec_ids (dkg_io (duo_party [1; 2] 1))) /\
      certified_pks (dkg_h (duo_party [1; 2] 1)) polys (dkg_party (duo_party [1; 2] 1)) pks) /\
    gpks !! dkg_party (duo_party [1; 2] 1) = Some (Keypair_pk gkp) /\
    (forall id, is_Some (gpks !! id) <-> id ∈ sec_ids (dkg_io (duo_party [1; 2] 1))) /\
    certified_gpks (dkg_h (duo_party [1; 2] 1)) polys (dkg_party (duo_party [1; 2] 1)) gpks.
Proof.
  pose proof duo_returns as Hr.
  destruct (replay 1 (duo_run 1 7) 0 duo_messages) as [[[[[gkp mpk] gpks] tr] n']|] eqn:Hrun;
    [|discriminate Hr].
  exists gkp, mpk, gpks.
  apply (dkg_output_consistent duo_tape 1 (duo_party [1; 2] 1) demo_rng 7 0 tr gkp mpk gpks n').
  - apply small_secret. lia.
  - apply demo_rng_scalar.
  - exact duo_ids.
  - apply list_elem_of_here.
  - apply duo_u64.
  - apply Fr_torsion.
  - exact (replay_local _ _ _ _ _ _ _ Hrun).
Defined.

Lemma duo_connected ids i : connected (duo_party ids i) duo_key.
Proof.
  split; [exact eq_refl|]. intros id.
  exact (lookup_fmap_on (fun j => channel_to j (duo_key i) (duo_key j)) (peers ids i) id).
Qed.

(** The encryption of [m] with a nonce of zeros, and a share of 2 for 1 that
    does not match the commitment. *)
Definition duo_encrypted (m : bytes) : bytes := replicate 12 0 ++ m ++ replicate 16 0.
Definition bad_share : VssSharePayload :=
  let e := duo_encrypted (blst_wrap_sk_to_bytes 5) in
  mkVssSharePayload e (SecretKey_sign (duo_key 2) e)
    (commit (Polynomial.mk [8; 12]) another_p1_generator).

Lemma bad_share_rejected : check_share (duo_party [1; 2; 3] 1) 2 bad_share = Ok false.
Proof. vm_compute. reflexivity. Qed.

Lemma trio_peers (i j : Z) :
  i <> j -> i ∈ [1; 2; 3] ->
  i ∈ peers (sec_ids (dkg_io (duo_party [1; 2; 3] j))) (dkg_party (duo_party [1; 2; 3] j)).
Proof. intros Hne Hi. by apply elem_of_peers. Qed.

Lemma dispute_judged_as_checked_witness :
  exists claim, dispute_claim (duo_party [1; 2; 3] 1) [] 2 bad_share = Ok claim /\
    verify_dispute_claim (duo_party [1; 2; 3] 3) claim = Ok true.
Proof.
  destruct (dispute_judged_as_checked (duo_party [1; 2; 3] 1) (duo_party [1; 2; 3] 3)
    duo_key [] 2 bad_share) as (claim & Hc & Hv).
  - apply duo_connected.
  - apply duo_connected.
  - exact eq_refl.
  - intros id. apply small_secret. unfold duo_key. pose proof (Z.mod_pos_bound id 50). lia.
  - apply trio_peers; set_solver.
  - apply trio_peers; set_solver.
  - apply (trio_peers 1 3); set_solver.
  - exact eq_refl.
  - exists claim. split; [exact Hc|]. by rewrite Hv, bad_share_rejected.
Defined.

Lemma duo_opens i a b m : opens (E:=DvfError) i a b (duo_encrypted m) m.
Proof.
  unfold opens, decrypt, decrypt_with_key, duo_encrypted.
  rewrite length_app, length_replicate, (proj2 (Nat.ltb_ge _ _)) by lia.
  rewrite take_app_length', drop_app_length' by (by rewrite length_replicate).
  unfold aes_decrypt, ideal_aes. cbn [mret outcome_ret]. f_equal.
  apply take_app_length'. rewrite length_app, length_replicate. lia.
Qed.

Definition duo_claim : DisputeClaim :=
  mkDisputeClaim 1 2 [] [] (fr 9) (CommittedPoly.mk [fr 4]) (mkDleqProof 1 1).

Lemma accused_panics_witness :
  local duo_tape 2
    (recv_claims (duo_party [1; 2; 3] 2) 1 (channel_to 1 (duo_key 2) (duo_key 1)) [(2, false)])
    0 [In 1 (duo_encrypted (DisputeClaim_to_bytes duo_claim))]
    (Done (Panic "Invalid channel")) 0.
Proof.
  apply (accused_panics duo_tape (duo_party [1; 2; 3] 2) duo_key 1 2 0 _ duo_claim).
  - apply duo_connected.
  - exact eq_refl.
  - apply (trio_peers 1 2); set_solver.
  - unfold u32_max. simpl. lia.
  - apply duo_opens.
Defined.
End witnesses.
