(* ===== verification/DkgHonest.v ===== *)
(** * Distributed key generation: an honest committee

    All parties of a committee run [SecureNetIOCommittee::new] and the key
    generation of [DKGMalicious].  The protocol is six rounds: the
    acknowledgements, the channel keys, the encrypted shares, the results of
    their verification, the public keys and the group public keys.  Every
    execution ends, in the network where each party holds its share of the sum
    of all keys, the public key of that sum, and the public keys of all
    shares. *)

From Stdlib Require Import Zmod.
From stdpp Require Import list_numbers.
From S2P Require Import Prelude Network Scalars Blst BlstIdeal Polynomial Threshold.
From S2P Require Import Processes IoCommittee Dkg DkgIdeal DkgSound.

(** ** Loops over the other parties *)

Section loops.
Context `{BlstLaws} `{!DkgCodec} `{!DkgCodecLaws} `{AesLaws}.
Context (tape : Z -> nat -> bytes) (i : Z).
Abbreviation local := (local (E:=DvfError) tape i).

Lemma pick_channel_to {C} (chans : gmap Z C) j ch :
  j <> i -> chans !! j = Some ch ->
  pick_channel (E:=DvfError) i chans i j = Ok ch /\
  pick_channel (E:=DvfError) i chans j i = Ok ch.
Proof.
  intros Hj Hc. unfold pick_channel.
  rewrite !(bool_decide_false (i = j)), !(bool_decide_false (j = i)),
    !(bool_decide_false (i <> i)) by (congruence || tauto).
  rewrite (bool_decide_true (i = i)), andb_false_r by done. simpl. by rewrite Hc.
Qed.

(** A plain broadcast. *)
Lemma net_broadcast_local chans l m n :
  (forall j, j ∈ peers l i -> chans !! j = Some (mkNetIOChannel j)) ->
  local (broadcast_loop i chans NetIOChannel_send l m) n
    (map (fun j => Out j m) (peers l i)) (Done (Ok ())) n.
Proof.
  induction l as [|j l IH]; intros Hc; [constructor|]. cbn [broadcast_loop].
  destruct (decide (j = i)) as [->|Hj].
  - rewrite peers_cons_self in *. rewrite bool_decide_true by done. by apply IH.
  - rewrite peers_cons_other in * by done. rewrite bool_decide_false by done.
    destruct (pick_channel_to chans j (mkNetIOChannel j) Hj) as [-> _]; [apply Hc; set_solver|].
    cbn. apply local_send. apply IH. set_solver.
Qed.

Lemma ack_local chans l n :
  (forall j, j ∈ peers l i -> chans !! j = Some (mkNetIOChannel j)) ->
  local (ack_loop i chans l) n (map (fun j => In j ack_msg) (peers l i)) (Done (Ok ())) n.
Proof.
  induction l as [|j l IH]; intros Hc; [constructor|]. cbn [ack_loop].
  destruct (decide (j = i)) as [->|Hj].
  - rewrite peers_cons_self in *. rewrite bool_decide_true by done. by apply IH.
  - rewrite peers_cons_other in * by done. rewrite bool_decide_false by done.
    rewrite Hc by set_solver. cbn. apply local_recv. cbn.
    rewrite bool_decide_true by done. cbn. apply IH. set_solver.
Qed.

Lemma keys_local sk l chans sec ins n :
  NoDup l -> (forall j, j ∈ peers l i -> chans !! j = Some (mkNetIOChannel j)) ->
  exists sec', local (keys_loop i sk l chans sec) n
      (map (fun j => In j (ins j)) (peers l i)) (Done (Ok sec')) n /\
    forall j, sec' !! j = if decide (j ∈ peers l i)
      then Some (mkSecureChannel (mkNetIOChannel j) sk (ffi_p1_uncompress (ins j)))
      else sec !! j.
Proof.
  intros Hnd. revert chans sec. induction Hnd as [|j l Hjl Hnd IH]; intros chans sec Hc.
  { exists sec. split; [constructor|]. intros j.
    rewrite decide_False; [done|]. apply not_elem_of_nil. }
  cbn [keys_loop]. destruct (decide (j = i)) as [->|Hj].
  - rewrite peers_cons_self in *. rewrite bool_decide_true by done. by apply IH.
  - rewrite peers_cons_other in * by done. rewrite bool_decide_false by done.
    rewrite Hc by set_solver. cbn.
    assert (j ∉ peers l i) as Hjp by (rewrite elem_of_peers; tauto).
    destruct (IH (delete j chans) (<[j := mkSecureChannel (mkNetIOChannel j) sk
      (ffi_p1_uncompress (ins j))]> sec)) as (sec' & Hl & Hs).
    { intros k Hk. rewrite lookup_delete_ne by set_solver. apply Hc. set_solver. }
    exists sec'. split; [by apply local_recv|]. intros k. rewrite Hs.
    destruct (decide (k ∈ peers l i)) as [Hk|Hk].
    + by rewrite decide_True by set_solver.
    + destruct (decide (k = j)) as [->|Hkj].
      * rewrite lookup_insert_eq, decide_True by set_solver. done.
      * by rewrite lookup_insert_ne, decide_False by set_solver.
Qed.

(** Channel keys. *)
Context (Htape : forall n, (12 <= length (tape i n))%nat).
Context (csk : Z -> Z) (Hcsk : forall j, is_secret (csk j)).
Abbreviation channel j := (channel_to j (csk i) (csk j)).
Abbreviation opened j e m := (opens (E:=DvfError) i (csk i) (csk j) e m).

(** A function with one value replaced, on a list without the argument. *)
Lemma map_replaced {B C} (f : Z -> B -> C) (g : Z -> B) j b l :
  j ∉ l ->
  map (fun k => f k (if decide (k = j) then b else g k)) l = map (fun k => f k (g k)) l.
Proof.
  intros Hj. apply map_ext_in. intros k Hk%list_elem_of_In.
  rewrite decide_False; [done|]. by intros ->.
Qed.

(** A secure broadcast: every party gets an encryption of the message. *)
Lemma secure_broadcast_local chans l m n :
  NoDup l -> fits m -> (forall j, j ∈ peers l i -> chans !! j = Some (channel j)) ->
  exists enc n1,
    local (broadcast_loop i chans SecureNetIOChannel_send l m) n
      (map (fun j => Out j (enc j)) (peers l i)) (Done (Ok ())) n1 /\
    forall j, j ∈ peers l i -> opened j (enc j) m.
Proof.
  intros Hnd Hm. revert n. induction Hnd as [|j l Hjl Hnd IH]; intros n Hc.
  { exists (fun _ => []), n. split; [constructor|]. by intros ? ?%elem_of_nil. }
  cbn [broadcast_loop]. destruct (decide (j = i)) as [->|Hj].
  - rewrite peers_cons_self in *. rewrite bool_decide_true by done. by apply IH.
  - rewrite peers_cons_other in * by done. rewrite bool_decide_false by done.
    destruct (pick_channel_to chans j (channel j) Hj) as [-> _]; [apply Hc; set_solver|].
    destruct (secure_send_local (E:=DvfError) tape i j (csk i) (csk j) m n)
      as (e & He & Ho); [done..|].
    destruct (IH (S n)) as (enc & n1 & Hl & Henc); [set_solver|].
    assert (j ∉ peers l i) as Hjp by (rewrite elem_of_peers; tauto).
    exists (fun k => if decide (k = j) then e else enc k), n1. split.
    + cbn [map]. rewrite decide_True by done.
      rewrite (map_replaced (fun k e => Out k e) enc j e _ Hjp).
      apply (local_trans tape i _ (broadcast_loop i chans SecureNetIOChannel_send l m)
        _ _ (S n) _ [Out j e]); [|done].
      by apply (local_bind tape i _ (fun _ => broadcast_loop i chans _ l m) _ _ ()).
    + intros k [->|Hk]%elem_of_cons; [by rewrite decide_True|].
      rewrite decide_False by set_solver. by apply Henc.
Qed.

Lemma recv_others_local {A} (self : DKGMalicious) (f : Z -> bytes -> outcome DvfError A)
  (v : Z -> A) (m ins : Z -> bytes) l n :
  dkg_party self = i ->
  (forall j, j ∈ peers l i -> dkg_channel self j i = Ok (channel j)) ->
  (forall j, j ∈ peers l i ->
    opens (E:=DvfError) j (csk j) (csk i) (ins j) (m j) /\ f j (m j) = Ok (v j)) ->
  local (recv_others self f l) n (map (fun j => In j (ins j)) (peers l i))
    (Done (Ok (map (fun j => (j, v j)) (peers l i)))) n.
Proof.
  intros Hp. induction l as [|j l IH]; intros Hc Hm; [constructor|].
  cbn [recv_others]. rewrite Hp. destruct (decide (j = i)) as [->|Hj].
  - rewrite peers_cons_self in *. rewrite bool_decide_true by done. by apply IH.
  - rewrite peers_cons_other in * by done. rewrite bool_decide_false by done.
    rewrite Hc by set_solver. destruct (Hm j) as [Ho Hf]; [set_solver|].
    apply (local_trans tape i _ (
      rest ← recv_others self f l; mret ((j, v j) :: rest)) _ _ n _ [In j (ins j)]).
    + cbn. unfold SecureNetIOChannel_recv, NetIOChannel_recv, io_recv. cbn.
      apply local_recv. cbn. unfold opens in Ho. unfold io_lift. rewrite Ho. cbn.
      rewrite Hf. cbn. constructor.
    + exact (local_bind tape i (recv_others self f l) (fun rest => mret ((j, v j) :: rest))
        n _ _ n (IH ltac:(set_solver) ltac:(set_solver))).
Qed.

(** The payload of an encrypted share. *)
Definition payload_of (poly : CommittedPoly.t) (e : bytes) : VssSharePayload :=
  mkVssSharePayload e (SecretKey_sign (csk i) e) poly.

Lemma channel_sign_ok j e :
  channel_sign (E:=DvfError) (channel j) e = Ok (gmul (csk i) (ffi_hash_to_g2 e)).
Proof.
  unfold channel_sign, blst_scalar_to_blst_sk. simpl.
  pose proof (scalar_wrap_sk (E:=DvfError) (csk i) (Hcsk i)) as Hs.
  unfold blst_scalar_to_blst_wrap_sk, bytes_to_blst_wrap_sk, blst_scalar_to_bytes in Hs.
  rewrite Hs. simpl. by rewrite core_sign_ok.
Qed.

(** The shares, encrypted and signed; nothing is sent yet. *)
Lemma prepare_local (self : DKGMalicious) kps poly (share : Z -> Z) l n :
  NoDup l -> dkg_party self = i ->
  (forall j, j ∈ peers l i ->
    dkg_channel self i j = Ok (channel j) /\ dkg_channel self j i = Ok (channel j)) ->
  (forall j, j ∈ peers l i -> is_scalar (share j) /\
    exists pk, kps !! j = Some (mkKeypair _ pk (share j))) ->
  exists (e : Z -> bytes) n1,
    local (prepare_shares self kps poly l) n []
      (Done (Ok (map (fun j => (j, channel j, channel j, payload_of poly (e j)))
        (peers l i)))) n1 /\
    forall j, j ∈ peers l i ->
      opened j (e j) (blst_wrap_sk_to_bytes (share j)) /\ length (e j) = 60%nat.
Proof.
  intros Hnd Hp. revert n. induction Hnd as [|j l Hjl Hnd IH]; intros n Hc Hk.
  { exists (fun _ => []), n. split; [constructor|]. by intros ? ?%elem_of_nil. }
  cbn [prepare_shares]. rewrite Hp. destruct (decide (j = i)) as [->|Hj].
  - rewrite peers_cons_self in *. rewrite bool_decide_true by done. by apply IH.
  - rewrite peers_cons_other in * by done. rewrite bool_decide_false by done.
    destruct (Hc j) as [-> ->]; [apply list_elem_of_here|].
    destruct (Hk j) as [Hsj [pk ->]]; [apply list_elem_of_here|].
    assert (length (blst_wrap_sk_to_bytes (share j)) = 32%nat) as Hlen.
    { unfold blst_wrap_sk_to_bytes. rewrite length_reverse.
      by destruct (secret_serialize_ok (share j)). }
    destruct (encrypt_local (E:=DvfError) tape i j (csk i) (csk j)
      (blst_wrap_sk_to_bytes (share j)) n) as (e & He & Ho & Hel); [done..| |].
    { unfold fits, AES_MAX. lia. }
    destruct (IH (S n)) as (enc & n1 & Hl & Henc);
      [intros k Hk'; by apply Hc, list_elem_of_further
      |intros k Hk'; by apply Hk, list_elem_of_further|].
    assert (j ∉ peers l i) as Hjp by (rewrite elem_of_peers; tauto).
    exists (fun k => if decide (k = j) then e else enc k), n1. split.
    + cbn [map]. rewrite decide_True by done.
      rewrite (map_replaced (fun k e => (k, channel k, channel k, payload_of poly e))
        enc j e _ Hjp).
      apply (local_trans tape i _ (rest ← prepare_shares self kps poly l;
        mret ((j, channel j, channel j, payload_of poly e) :: rest)) _ _ (S n) _ [] []).
      * cbn [Keypair_sk]. pose proof (local_bind tape i _ (fun enc_s_ij =>
          sig ← io_lift (channel_sign (channel j) enc_s_ij);
          sig ← io_lift (match Signature_deserialize (core_Signature_to_bytes sig) with
                         | Some s => Ok s | None => Err BlsError end);
          rest ← prepare_shares self kps poly l;
          mret ((j, channel j, channel j, mkVssSharePayload enc_s_ij sig poly) :: rest))
          _ _ _ _ He) as Hb. cbn beta in Hb. rewrite channel_sign_ok in Hb.
        cbn in Hb. rewrite signature_from_point in Hb by done. exact Hb.
      * exact (local_bind tape i (prepare_shares self kps poly l) (fun rest =>
          mret ((j, channel j, channel j, payload_of poly e) :: rest)) _ _ _ _ Hl).
    + intros k [->|Hk']%elem_of_cons; [rewrite decide_True by done; split; [done|lia]|].
      rewrite decide_False by congruence. by apply Henc.
Qed.

Lemma send_payloads_local (p : Z -> VssSharePayload) l n :
  NoDup l -> (forall j, j ∈ l -> fits (VssSharePayload_to_bytes (p j))) ->
  exists enc n1,
    local (send_payloads (map (fun j => (j, channel j, channel j, p j)) l)) n
      (map (fun j => Out j (enc j)) l) (Done (Ok ())) n1 /\
    forall j, j ∈ l -> opened j (enc j) (VssSharePayload_to_bytes (p j)).
Proof.
  intros Hnd. revert n. induction Hnd as [|j l Hjl Hnd IH]; intros n Hf.
  { exists (fun _ => []), n. split; [constructor|]. by intros ? ?%elem_of_nil. }
  cbn [map send_payloads].
  destruct (secure_send_local (E:=DvfError) tape i j (csk i) (csk j)
    (VssSharePayload_to_bytes (p j)) n) as (e & He & Ho);
    [done..|apply Hf, list_elem_of_here|].
  destruct (IH (S n)) as (enc & n1 & Hl & Henc);
    [intros k Hk; by apply Hf, list_elem_of_further|].
  exists (fun k => if decide (k = j) then e else enc k), n1. split.
  - rewrite decide_True by done. rewrite (map_replaced (fun k e => Out k e) enc j e _ Hjl).
    eapply (local_trans tape i _ _ _ _ (S n) _ [Out j e]); [|exact Hl].
    exact (local_bind tape i _ (fun _ => send_payloads _) _ _ () _ He).
  - intros k [->|Hk]%elem_of_cons; [by rewrite decide_True|].
    rewrite decide_False by set_solver. by apply Henc.
Qed.

Lemma recv_payloads_local (p q : Z -> VssSharePayload) (ins : Z -> bytes) l n :
  (forall j, j ∈ l ->
    opens (E:=DvfError) j (csk j) (csk i) (ins j) (VssSharePayload_to_bytes (q j)) /\
    Z.of_nat (length (CommittedPoly.commitments (committed_poly (q j)))) <= u32_max) ->
  local (recv_payloads (map (fun j => (j, channel j, channel j, p j)) l)) n
    (map (fun j => In j (ins j)) l) (Done (Ok (map (fun j => (j, q j)) l))) n.
Proof.
  induction l as [|j l IH]; intros Hq; [constructor|]. cbn [map recv_payloads].
  destruct (Hq j) as [Ho Hlen]; [apply list_elem_of_here|].
  eapply (local_trans tape i _ (rest ← recv_payloads
    (map (fun j => (j, channel j, channel j, p j)) l); mret ((j, q j) :: rest))
    _ _ n _ [In j (ins j)]).
  - unfold SecureNetIOChannel_recv, NetIOChannel_recv, io_recv. cbn.
    apply local_recv. cbn. unfold io_lift, opens in *. rewrite Ho. cbn.
    unfold VssSharePayload_from_bytes, VssSharePayload_to_bytes.
    rewrite vss_roundtrip. cbn. rewrite committed_bytes_roundtrip by done.
    destruct (q j). cbn. constructor.
  - exact (local_bind tape i _ (fun rest => mret ((j, q j) :: rest)) n _ _ n
      (IH (fun k Hk => Hq k (list_elem_of_further _ _ _ Hk)))).
Qed.
End loops.

(** ** The protocol *)

Section honest.
Context `{BlstLaws} `{!DkgCodec} `{!DkgCodecLaws} `{AesLaws}.
Context (ids : list Z) (t : nat) (tape : Z -> nat -> bytes).
Context (ikm : Z -> bytes) (rng : Z -> nat -> Z) (seed : Z -> Z).

Definition chan_key (i : Z) : Z := random_blst_scalar (ikm i).
Definition coeffs_of (i : Z) : list Z := seed i :: map (rng i) (seq 1 (t - 1)).
Definition poly_of (i : Z) : Polynomial.t := Polynomial.mk (coeffs_of i).
Definition com_of (i : Z) : CommittedPoly.t := commit (poly_of i) another_p1_generator.

(** The share that [i] gives to [j]. *)
Definition share_to (i j : Z) : Z := share_of (poly_of i) j.

(** The share of [j] of the sum of all keys, and the sum. *)
Definition group_share (j : Z) : Z := zsum (fun i => share_to i j) ids mod MODULUS.
Definition master_key : Z := zsum seed ids mod MODULUS.

(** The committee and the random choices. *)
Record honest_setup : Prop := {
  hs_ids : NoDup ids;
  hs_u64 : Forall is_u64 ids;
  hs_nonzero : 0 ∉ ids;
  hs_tape i n : (12 <= length (tape i n))%nat;
  hs_seed i : is_secret (seed i);
  hs_rng i n : is_scalar (rng i n);
  hs_threshold : (0 < t)%nat;
  hs_size : Z.of_nat t <= 2 ^ 20 /\ Z.of_nat (length ids) <= 2 ^ 20;
  (** no share is 0, no sum of shares is, and the sum of the keys is not *)
  hs_share i j : i ∈ ids -> j ∈ ids -> share_to i j <> 0;
  hs_group j : j ∈ ids -> group_share j <> 0;
  hs_master : master_key <> 0
}.
Context (HS : honest_setup).

(** What the party [i] runs. *)
Definition dkg_program (i : Z) : io DvfError (Keypair * p1 * gmap Z p1) :=
  committee ← SecureNetIOCommittee_new i ids (ikm i);
  DKGMalicious_run (DKGMalicious_new i committee t) (rng i) (seed i).

Definition group_public (j : Z) : p1 := gmul (group_share j) ffi_p1_generator.

(** What the party [i] returns. *)
Definition dkg_result (i : Z) : Keypair * p1 * gmap Z p1 :=
  (mkKeypair _ (group_public i) (group_share i),
   gmul master_key ffi_p1_generator, fmap_on group_public ids).

(** *** Facts on the choices *)

Lemma chan_key_secret i : is_secret (chan_key i).
Proof. apply keygen_ok. Qed.

Lemma length_coeffs_of i : length (coeffs_of i) = t.
Proof.
  unfold coeffs_of. simpl. rewrite length_map, length_seq. destruct HS. lia.
Qed.

Lemma coeffs_scalar i : Forall is_scalar (coeffs_of i).
Proof.
  destruct HS. constructor; [by apply secret_scalar|].
  apply Forall_forall. intros c (n & -> & _)%list_elem_of_fmap. done.
Qed.

Lemma share_to_secret i j : i ∈ ids -> j ∈ ids -> is_secret (share_to i j).
Proof.
  intros Hi Hj. pose proof (hs_share HS i j Hi Hj).
  pose proof (mod_scalar (Polynomial.eval (poly_of i) j)) as Hs.
  unfold share_to, share_of, is_scalar, is_secret in *. lia.
Qed.

Lemma group_share_secret j : j ∈ ids -> is_secret (group_share j).
Proof.
  intros Hj. pose proof (hs_group HS j Hj).
  pose proof (mod_scalar (zsum (fun i => share_to i j) ids)) as Hs.
  unfold group_share, is_scalar, is_secret in *. lia.
Qed.

Lemma master_key_secret : is_secret master_key.
Proof.
  pose proof (hs_master HS). pose proof (mod_scalar (zsum seed ids)) as Hs.
  unfold master_key, is_scalar, is_secret in *. lia.
Qed.

(** The commitment of [i], at [j]. *)
Lemma com_eval i j {E} :
  is_u64 j ->
  CommittedPoly.eval (E:=E) (com_of i) (u64_to_blst_scalar j) =
  Ok (gmul (share_to i j) another_p1_generator).
Proof.
  intros Hj. unfold com_of, poly_of. rewrite u64_to_blst_scalar_spec by done.
  rewrite committed_eval;
    [|apply coeffs_scalar|done|apply hash_to_g1_order|by apply u64_scalar].
  unfold share_to, share_of, poly_of. by rewrite gmul_mod by apply hash_to_g1_order.
Qed.

Lemma com_length i : length (CommittedPoly.commitments (com_of i)) = t.
Proof.
  unfold com_of, commit, poly_of. cbn [CommittedPoly.commitments Polynomial.coeffs].
  by rewrite length_map, length_coeffs_of.
Qed.

(** *** The committees *)

Abbreviation channel i j := (channel_to j (chan_key i) (chan_key j)).
Abbreviation opened i j e m := (opens (E:=DvfError) i (chan_key i) (chan_key j) e m).

Definition plain_of (i : Z) : NetIOCommittee := mkNetIOCommittee i ids (connections i ids).

Definition committee_of (i : Z) : SecureNetIOCommittee :=
  mkSecureCommittee i ids (fmap_on (fun j => channel i j) (peers ids i)).

Definition dkg_of (i : Z) : DKGMalicious := DKGMalicious_new i (committee_of i) t.

Lemma connections_lookup i j :
  j ∈ peers ids i -> connections i ids !! j = Some (mkNetIOChannel j).
Proof.
  intros Hj. change (connections i ids) with (fmap_on mkNetIOChannel (peers ids i)).
  by rewrite lookup_fmap_on, decide_True.
Qed.

Lemma channels_lookup i j :
  j ∈ peers ids i -> sec_channels (committee_of i) !! j = Some (channel i j).
Proof. intros Hj. simpl. by rewrite lookup_fmap_on, decide_True. Qed.

Lemma dkg_channel_of i j :
  j ∈ peers ids i ->
  dkg_channel (dkg_of i) i j = Ok (channel i j) /\
  dkg_channel (dkg_of i) j i = Ok (channel i j).
Proof.
  intros Hj. apply pick_channel_to; [|by apply channels_lookup].
  by apply elem_of_peers in Hj as [_ ?].
Qed.

(** *** The first two rounds *)

Definition sent_ack (i j : Z) (m : bytes) : Prop := m = ack_msg.

Lemma plain_phase i :
  phase (E:=DvfError) tape ids sent_ack i (NetIOCommittee_new i ids) (eq (plain_of i)).
Proof.
  intros n. exists n, (fun _ => ack_msg), (ack_loop i (connections i ids) ids;; mret (plain_of i)).
  split; [|split; [done|]].
  - exact (local_bind tape i _ (fun _ => ack_loop i (connections i ids) ids;;
      mret (plain_of i)) _ _ () _
      (net_broadcast_local tape i _ _ _ n (connections_lookup i))).
  - intros ins Hins. exists (mret (plain_of i)), n. split; [by eexists|].
    rewrite (map_ext_in _ (fun j => In j ack_msg)).
    2: { intros j Hj%list_elem_of_In. by rewrite (Hins j Hj). }
    exact (local_bind tape i _ (fun _ => mret (plain_of i)) _ _ () _
      (ack_local tape i _ _ n (connections_lookup i))).
Qed.

Definition sent_key (i j : Z) (m : bytes) : Prop :=
  m = blst_p1_to_bytes (blst_sk_to_pk (chan_key i)).

(** What [SecureNetIOCommittee::new] does with the plain committee. *)
Definition exchange_keys (i : Z) (plain : NetIOCommittee)
  : io DvfError SecureNetIOCommittee :=
  NetIOCommittee_broadcast plain (blst_p1_to_bytes (blst_sk_to_pk (chan_key i)));;
  channels ← keys_loop i (chan_key i) ids (net_channels plain) ∅;
  mret (mkSecureCommittee i ids channels).

Lemma keys_phase i :
  phase tape ids sent_key i (exchange_keys i (plain_of i)) (eq (committee_of i)).
Proof.
  intros n. set (pk := blst_p1_to_bytes (blst_sk_to_pk (chan_key i))).
  set (k := channels ← keys_loop (E:=DvfError) i (chan_key i) ids (connections i ids) ∅;
    mret (mkSecureCommittee i ids channels)).
  exists n, (fun _ => pk), k. split; [|split; [done|]].
  - exact (local_bind tape i _ (fun _ => k) _ _ () _
      (net_broadcast_local tape i _ _ _ n (connections_lookup i))).
  - intros ins Hins.
    destruct (keys_local tape i (chan_key i) ids (connections i ids) ∅ ins n (hs_ids HS)
      (connections_lookup i)) as (sec & Hl & Hsec).
    exists (mret (mkSecureCommittee i ids sec)), n. split.
    2: exact (local_bind tape i _ (fun ch => mret (mkSecureCommittee i ids ch)) _ _ _ _ Hl).
    eexists. split; [|done]. unfold committee_of. f_equal. symmetry.
    apply fmap_on_eq. intros j. rewrite Hsec, lookup_empty.
    destruct (decide (j ∈ peers ids i)) as [Hj|]; [|done].
    rewrite (Hins j Hj). unfold blst_p1_to_bytes, blst_sk_to_pk.
    rewrite p1_uncompress_compress, sk_to_pk_ok by apply secret_scalar, chan_key_secret.
    done.
Qed.

(** *** The shares *)

Lemma share_generation_of i :
  i ∈ ids ->
  share_generation (dkg_of i) (rng i) (seed i) =
  Ok (mkKeypair _ (SecretKey_public_key (seed i)) (seed i),
      fmap_on (share_keypair (poly_of i)) ids, poly_of i, com_of i).
Proof.
  intros Hi. unfold share_generation. cbn [dkg_threshold dkg_of DKGMalicious_new].
  rewrite infinity_spec. cbn. unfold key_gen_with_poly, key_split_with_poly.
  assert (share_poly (E:=DvfError) (mkThresholdSignature g0 t) (rng i) (seed i) =
    Ok (poly_of i)) as ->.
  { unfold share_poly, sample_vec, poly_of, coeffs_of. cbn [threshold].
    destruct t as [|t'] eqn:Ht; [pose proof (hs_threshold HS); lia|]. simpl.
    destruct (secret_serialize_ok (seed i) (secret_scalar _ (hs_seed HS i))) as [_ ->].
    by rewrite Nat.sub_0_r. }
  cbn. destruct (split_loop_returns (poly_of i) ids ∅) as [kps Hk].
  { intros j Hj. split; [|by apply (hs_share HS)]. intros ->.
    by apply (hs_nonzero HS). }
  rewrite Hk. cbn. destruct (split_loop_spec _ _ _ _ Hk) as [_ Hmap].
  rewrite (fmap_on_eq (share_keypair (poly_of i)) ids kps); [done|].
  intros j. by rewrite Hmap, lookup_empty.
Qed.

(** The payload of [i] with the encrypted share [e]. *)
Definition payload_by (i : Z) (e : bytes) : VssSharePayload :=
  payload_of i chan_key (com_of i) e.

(** [e] is an encrypted share of [i] for [j]. *)
Definition share_for (i j : Z) (e : bytes) : Prop :=
  opened i j e (blst_wrap_sk_to_bytes (share_to i j)).

Definition sent_share (i j : Z) (m : bytes) : Prop :=
  exists e, share_for i j e /\ opened i j m (VssSharePayload_to_bytes (payload_by i e)).

(** The payloads that [i] receives. *)
Definition received (i : Z) (e : Z -> bytes) : gmap Z VssSharePayload :=
  fmap_on (fun j => payload_by j (e j)) (peers ids i).
Definition good_payloads (i : Z) (payloads : gmap Z VssSharePayload) : Prop :=
  exists e, payloads = received i e /\ forall j, j ∈ peers ids i -> share_for j i (e j).

Lemma payload_fits i e : length e = 60%nat -> fits (VssSharePayload_to_bytes (payload_by i e)).
Proof.
  intros He. unfold fits, VssSharePayload_to_bytes, AES_MAX. cbn.
  pose proof (vss_length e (SecretKey_sign (chan_key i) e)
    (CommittedPoly.to_bytes (com_of i))) as Hl.
  rewrite to_bytes_length in Hl. unfold CommittedPoly.bytes_len in Hl.
  rewrite com_length, He in Hl. unfold PUBLIC_KEY_BYTES_LEN in Hl.
  pose proof (hs_size HS). lia.
Qed.

Lemma share_phase i :
  i ∈ ids ->
  phase tape ids sent_share i
    (share_transmission (dkg_of i) (fmap_on (share_keypair (poly_of i)) ids) (com_of i))
    (good_payloads i).
Proof.
  intros Hi n. unfold share_transmission.
  destruct (prepare_local tape i (hs_tape HS i) chan_key chan_key_secret (dkg_of i)
    (fmap_on (share_keypair (poly_of i)) ids) (com_of i) (share_to i) ids n (hs_ids HS)
    eq_refl (dkg_channel_of i)) as (e & n0 & Hprep & He).
  { intros j [Hj _]%elem_of_peers. split; [by apply secret_scalar, share_to_secret|].
    rewrite lookup_fmap_on, decide_True by done.
    by exists (SecretKey_public_key (share_to i j)). }
  destruct (send_payloads_local tape i (hs_tape HS i) chan_key chan_key_secret
    (fun j => payload_by i (e j)) (peers ids i) n0) as (enc & n1 & Hsend & Henc).
  { by apply NoDup_peers, hs_ids. }
  { intros j Hj. by apply payload_fits, He. }
  set (l := map (fun j => (j, channel i j, channel i j, payload_by i (e j))) (peers ids i)).
  set (k := results ← recv_payloads l; mret (list_to_map (reverse results) : gmap Z _)).
  exists n1, enc, k. split; [|split].
  - apply (local_trans tape i _ (send_payloads l;; k) _ n n0 n1 []).
    + exact (local_bind tape i _ (fun l => send_payloads l;; results ← recv_payloads l;
        mret (list_to_map (reverse results) : gmap Z _)) _ _ _ _ Hprep).
    + exact (local_bind tape i _ (fun _ => k) _ _ () _ Hsend).
  - intros j Hj. exists (e j). split; [by apply He|by apply Henc].
  - intros ins Hins.
    destruct (list_choice (X:=bytes) (peers ids i) (fun j e => share_for j i e /\
      opened j i (ins j) (VssSharePayload_to_bytes (payload_by j e)))) as [e' He'].
    { exact Hins. }
    eexists _, n1. split; [exists (received i e'); split; [|done]|].
    + exists e'. split; [done|]. intros j Hj. by apply He'.
    + unfold received. rewrite <- fmap_on_reverse.
      refine (local_bind tape i _ (fun r => mret (list_to_map (reverse r) : gmap Z _)) _ _ _ _
        (recv_payloads_local tape i chan_key _ (fun j => payload_by j (e' j)) ins _ n1 _)).
      intros j Hj. split; [by apply He'|].
      cbn [committed_poly payload_by payload_of]. rewrite com_length.
      pose proof (hs_size HS). unfold u32_max. lia.
Qed.

(** *** The verification of the shares *)

(** A map made from the payloads of the others. *)
Lemma map_received {B} (g : Z -> VssSharePayload -> outcome DvfError B) (v : Z -> B) i e :
  (forall j, j ∈ peers ids i -> g j (payload_by j (e j)) = Ok (v j)) ->
  (l ← try_map (fun '(id, x) => y ← g id x; mret (id, y)) (others (dkg_of i) (received i e));
   mret (list_to_map l : gmap Z B)) = Ok (fmap_on v (peers ids i)).
Proof.
  intros Hg.
  assert (forall j x, (j, x) ∈ others (dkg_of i) (received i e) <->
    j ∈ peers ids i /\ x = payload_by j (e j)) as Hin.
  { intros j x. rewrite elem_of_others. unfold received. rewrite lookup_fmap_on. cbn.
    destruct (decide (j ∈ peers ids i)) as [Hj|Hj]; [|split; [by intros []|tauto]].
    pose proof Hj as [_ ?]%elem_of_peers. split; [by intros [_ [= <-]]|].
    by intros [_ ->]. }
  rewrite (try_map_total _ (fun '(id, _) => (id, v id))).
  2: { intros [j x] [Hj ->]%Hin. by rewrite Hg. }
  cbn. f_equal. apply fmap_on_eq. intros j.
  assert (map (fun '(id, _) => (id, v id)) (others (dkg_of i) (received i e)) =
    map (fun j => (j, v j)) (others (dkg_of i) (received i e)).*1) as ->.
  { rewrite map_map. apply map_ext. by intros []. }
  change (fmap_on v (others (dkg_of i) (received i e)).*1 !! j =
    if decide (j ∈ peers ids i) then Some (v j) else None).
  rewrite lookup_fmap_on.
  destruct (decide (j ∈ peers ids i)) as [Hj|Hj].
  - rewrite decide_True; [done|]. apply list_elem_of_fmap.
    exists (j, payload_by j (e j)). split; [done|]. by apply Hin.
  - rewrite decide_False; [done|]. intros ([k x] & -> & [Hk _]%Hin)%list_elem_of_fmap. done.
Qed.

Lemma open_share_of i j e :
  i ∈ ids -> j ∈ peers ids i -> share_for j i e ->
  open_share (dkg_of i) j (payload_by j e) = Ok (share_to j i).
Proof.
  intros Hi Hj He. unfold open_share. change (dkg_party (dkg_of i)) with i.
  destruct (dkg_channel_of i j Hj) as [-> _]. cbn.
  unfold share_for, opens in He. rewrite He. cbn. f_equal.
  apply wrap_sk_scalar, secret_scalar, share_to_secret; [|done].
  by apply elem_of_peers in Hj as [? _].
Qed.

Lemma check_share_of i j e :
  i ∈ ids -> j ∈ peers ids i -> share_for j i e ->
  check_share (dkg_of i) j (payload_by j e) = Ok true.
Proof.
  intros Hi Hj He. unfold check_share. rewrite open_share_of by done.
  cbn [mbind outcome_bind]. change (dkg_party (dkg_of i)) with i.
  change (committed_poly (payload_by j e)) with (com_of j).
  change (dkg_h (dkg_of i)) with another_p1_generator. rewrite blst_p1_mult_spec.
  2: { apply secret_scalar, share_to_secret; [|done]. by apply elem_of_peers in Hj as [? _]. }
  rewrite com_eval.
  2: { pose proof (hs_u64 HS) as Hu. rewrite Forall_forall in Hu. by apply Hu. }
  cbn. by rewrite bool_decide_true.
Qed.

Definition all_valid (i : Z) : VerificationResult := fmap_on (fun _ => true) (peers ids i).

Lemma verification_of i e :
  i ∈ ids -> (forall j, j ∈ peers ids i -> share_for j i (e j)) ->
  share_verification (dkg_of i) (received i e) = Ok (all_valid i) /\
  reveal_shares (dkg_of i) (received i e) = Ok (fmap_on (fun j => share_to j i) (peers ids i)).
Proof.
  intros Hi He. split.
  - apply (map_received (check_share (dkg_of i)) (fun _ => true)).
    intros j Hj. by apply check_share_of; [..|apply He].
  - apply (map_received (open_share (dkg_of i)) (fun j => share_to j i)).
    intros j Hj. by apply open_share_of; [..|apply He].
Qed.

(** A secure broadcast and the messages of the others. *)
Lemma exchange_phase {A B} (sent : Z -> Z -> bytes -> Prop) i (m : bytes)
  (f : Z -> bytes -> outcome DvfError A) (v : Z -> A)
  (k : list (Z * A) -> io DvfError B) (Next : io DvfError B -> Prop) :
  fits m -> (forall j e, opened i j e m -> sent i j e) ->
  (forall j e, j ∈ peers ids i -> sent j i e ->
    exists m', opened j i e m' /\ f j m' = Ok (v j)) ->
  Next (k (map (fun j => (j, v j)) (peers ids i))) ->
  stage tape ids sent i
    (dkg_broadcast (dkg_of i) m;; l ← recv_others (dkg_of i) f ids; k l) Next.
Proof.
  intros Hm Hout Hin Hnext n.
  destruct (secure_broadcast_local tape i (hs_tape HS i) chan_key chan_key_secret
    (sec_channels (committee_of i)) ids m n (hs_ids HS) Hm) as (enc & n1 & Hsend & Henc).
  { intros j Hj. by apply channels_lookup. }
  exists n1, enc, (l ← recv_others (dkg_of i) f ids; k l). split; [|split].
  - exact (local_bind tape i _ (fun _ => l ← recv_others (dkg_of i) f ids; k l) _ _ () _ Hsend).
  - intros j Hj. by apply Hout, Henc.
  - intros ins Hins.
    destruct (list_choice (X:=bytes) (peers ids i) (fun j m' =>
      opened j i (ins j) m' /\ f j m' = Ok (v j))) as [m' Hm'].
    { intros j Hj. apply Hin; [done|]. by apply Hins. }
    eexists _, n1. split; [exact Hnext|].
    refine (local_bind tape i _ k _ _ _ _
      (recv_others_local tape i (hs_tape HS i) chan_key chan_key_secret (dkg_of i) f v m' ins ids n1 eq_refl _ Hm')).
    intros j Hj. by apply dkg_channel_of.
Qed.

(** *** The results of the verification *)

Definition sent_results (i j : Z) (e : bytes) : Prop :=
  opened i j e (VerificationResult_to_bytes (all_valid i)).

Lemma length_peers i : (length (peers ids i) <= length ids)%nat.
Proof. apply length_filter. Qed.

Lemma results_phase i :
  phase tape ids sent_results i (exchange_verification_results (dkg_of i) (all_valid i))
    (eq (fmap_on all_valid (peers ids i))).
Proof.
  unfold exchange_verification_results.
  apply (exchange_phase sent_results i _ _ all_valid).
  - unfold fits, AES_MAX, VerificationResult_to_bytes.
    pose proof (results_length (all_valid i)) as Hl. unfold all_valid in Hl at 2.
    rewrite size_fmap_on in Hl by apply NoDup_peers, (hs_ids HS).
    pose proof (length_peers i). pose proof (hs_size HS). lia.
  - done.
  - intros j e Hj He. eexists. split; [exact He|].
    unfold VerificationResult_from_bytes, VerificationResult_to_bytes.
    by rewrite results_roundtrip.
  - eexists. split; [done|]. by rewrite fmap_on_reverse.
Qed.

Lemma issue_claims_valid self payloads l :
  (forall id v, (id, v) ∈ l -> v = true) ->
  issue_claims self payloads l = mret false.
Proof.
  induction l as [|[id v] l IH]; intros Hl; cbn [issue_claims]; [done|].
  rewrite (Hl id v) by apply list_elem_of_here. apply IH.
  intros id' v' Hin. by apply (Hl id'), list_elem_of_further.
Qed.

Lemma recv_claims_valid self id ch l :
  (forall id v, (id, v) ∈ l -> v = true) -> recv_claims self id ch l = mret [].
Proof.
  induction l as [|[id' v] l IH]; intros Hl; cbn [recv_claims]; [done|].
  rewrite (Hl id' v) by apply list_elem_of_here. apply IH.
  intros k v' Hin. by apply (Hl k), list_elem_of_further.
Qed.

Lemma all_valid_true i id v : (id, v) ∈ map_to_list (all_valid i) -> v = true.
Proof.
  intros Hin%elem_of_map_to_list. unfold all_valid in Hin. rewrite lookup_fmap_on in Hin.
  destruct (decide _); [|done]. by injection Hin.
Qed.

Lemma judge_claims_valid i l :
  (forall id r, (id, r) ∈ l -> id ∈ peers ids i /\ r = all_valid id) ->
  judge_claims (dkg_of i) l = mret [].
Proof.
  induction l as [|[id r] l IH]; intros Hl; cbn [judge_claims]; [done|].
  destruct (Hl id r) as [Hid ->]; [apply list_elem_of_here|].
  change (dkg_party (dkg_of i)) with i. destruct (dkg_channel_of i id Hid) as [_ ->]. cbn.
  rewrite recv_claims_valid by apply all_valid_true. cbn.
  rewrite IH; [done|]. intros id' r' Hin. by apply Hl, list_elem_of_further.
Qed.

Definition keypair_of (i : Z) : Keypair :=
  mkKeypair _ (SecretKey_public_key (seed i)) (seed i).
Abbreviation kps_of i := (fmap_on (share_keypair (poly_of i)) ids).
Abbreviation second_half i payloads :=
  (derive_keys (dkg_of i) (keypair_of i) (kps_of i) (com_of i) payloads).

(** The run after the shares, and after the results. *)
Definition after_results (i : Z) (payloads : gmap Z VssSharePayload)
  (vrfy_result : VerificationResult) (other : gmap Z VerificationResult)
  : io DvfError (Keypair * p1 * gmap Z p1) :=
  self_abort ← issue_claims (dkg_of i) payloads (map_to_list vrfy_result);
  claims ← judge_claims (dkg_of i) (map_to_list other);
  let valid_claims :=
    omap (fun '(a, b, x) => if x : bool then Some (a, b) else None) claims in
  match valid_claims with
  | _ :: _ => io_lift (Err (InvalidDkgShare valid_claims))
  | [] =>
      if self_abort : bool then io_lift (Err VssShareVerificationFailed)
      else second_half i payloads
  end.

Definition after_shares (i : Z) (payloads : gmap Z VssSharePayload)
  : io DvfError (Keypair * p1 * gmap Z p1) :=
  vrfy_result ← io_lift (share_verification (dkg_of i) payloads);
  other ← exchange_verification_results (dkg_of i) vrfy_result;
  after_results i payloads vrfy_result other.

Lemma run_shares i :
  i ∈ ids ->
  DKGMalicious_run (dkg_of i) (rng i) (seed i) =
  share_transmission (dkg_of i) (kps_of i) (com_of i) ≫= after_shares i.
Proof.
  intros Hi. unfold DKGMalicious_run. rewrite share_generation_of by done. reflexivity.
Qed.

Lemma after_results_valid i payloads :
  after_results i payloads (all_valid i) (fmap_on all_valid (peers ids i)) =
  second_half i payloads.
Proof.
  unfold after_results. rewrite issue_claims_valid by apply all_valid_true. cbn.
  rewrite judge_claims_valid; [done|]. intros id r Hin%elem_of_map_to_list.
  rewrite lookup_fmap_on in Hin. destruct (decide _) as [Hid|]; [|done].
  by injection Hin as <-.
Qed.

(** *** The public keys *)

Lemma proof_roundtrip p :
  is_proof p -> DleqProof_deserialize (DleqProof_serialize p) = p.
Proof.
  intros [Hc Hr]. destruct p as [c r]. unfold DleqProof_deserialize, DleqProof_serialize,
    bytes_to_blst_scalar, blst_scalar_to_bytes. cbn.
  rewrite !scalar_from_le_bytes_ok, !scalar_bytes_val by (by apply scalar_256).
  by rewrite !Z.mod_small.
Qed.

Lemma proof_length p :
  length (DleqProof_serialize p).1 = 32%nat /\ length (DleqProof_serialize p).2 = 32%nat.
Proof.
  unfold DleqProof_serialize, blst_scalar_to_bytes, scalar_bytes. cbn.
  split; apply Nat2Z.inj; by rewrite length_Z_to_little_endian by lia.
Qed.

Definition public_of (j : Z) : p1 := gmul (seed j) ffi_p1_generator.
Definition aux_of (j : Z) : p1 := gmul (seed j) another_p1_generator.

Definition sent_public (i j : Z) (e : bytes) : Prop :=
  exists proof, is_proof proof /\
    dleq_verify ffi_p1_generator (public_of i) another_p1_generator (aux_of i) proof = true /\
    opened i j e (PkPayload_to_bytes (mkPkPayload (public_of i) proof)).

(** All keys are collected. *)
Lemma collect_all i (v : Z -> p1) :
  i ∈ ids ->
  collect_keys (dkg_of i) (map (fun j => (j, Some (v j))) (peers ids i)) (v i) =
  Ok (fmap_on v ids).
Proof.
  intros Hi. unfold collect_keys. change (dkg_party (dkg_of i)) with i.
  change (sec_ids (dkg_io (dkg_of i))) with ids.
  assert (omap (fun '(id, o) => pk ← o; Some (id, pk))
    (map (fun j => (j, Some (v j))) (peers ids i)) = map (fun j => (j, v j)) (peers ids i)) as ->.
  { generalize (peers ids i) as l. induction l as [|j l IH]; [done|]. simpl. by f_equal. }
  rewrite fmap_on_reverse.
  rewrite insert_own by done.
  by rewrite size_fmap_on, Nat.ltb_irrefl by apply (hs_ids HS).
Qed.

Lemma commitments_of i e :
  i ∈ ids -> all_commitments (dkg_of i) (com_of i) (received i e) = fmap_on com_of ids.
Proof.
  intros Hi. rewrite all_commitments_spec; change (dkg_party (dkg_of i)) with i.
  - rewrite <- (insert_own com_of ids i Hi). f_equal. apply fmap_on_eq. intros j.
    unfold received. rewrite lookup_fmap, lookup_fmap_on. by destruct (decide _).
  - unfold received. rewrite lookup_fmap_on, decide_False; [done|].
    rewrite elem_of_peers. tauto.
Qed.

Lemma aux_pk_of j : j ∈ ids -> aux_pk (fmap_on com_of ids) j = Ok (aux_of j).
Proof.
  intros Hj. unfold aux_pk. rewrite lookup_fmap_on, decide_True by done. cbn [unwrap mbind outcome_bind].
  unfold com_of, poly_of. rewrite commit_spec by apply coeffs_scalar. done.
Qed.

Lemma PkPayload_roundtrip {E} p :
  is_proof (pk_proof p) -> PkPayload_from_bytes (E:=E) (PkPayload_to_bytes p) = Ok p.
Proof.
  intros Hp. destruct p as [pk proof]. unfold PkPayload_from_bytes, PkPayload_to_bytes.
  rewrite pk_roundtrip. cbn [unwrap mbind outcome_bind payload_pk pk_proof].
  rewrite proof_roundtrip by done. unfold bytes_to_blst_p1, blst_p1_to_bytes.
  by rewrite p1_uncompress_compress.
Qed.

Lemma GpkPayload_roundtrip {E} p :
  is_proof (gpk_proof p) -> GpkPayload_from_bytes (E:=E) (GpkPayload_to_bytes p) = Ok p.
Proof.
  intros Hp. destruct p as [gpk aux proof]. unfold GpkPayload_from_bytes, GpkPayload_to_bytes.
  rewrite gpk_roundtrip. cbn [unwrap mbind outcome_bind payload_gpk aux_gpk gpk_proof].
  rewrite proof_roundtrip by done. unfold bytes_to_blst_p1, blst_p1_to_bytes.
  by rewrite !p1_uncompress_compress.
Qed.

Lemma PkPayload_fits p : fits (PkPayload_to_bytes p).
Proof.
  unfold fits, AES_MAX, PkPayload_to_bytes. destruct (proof_length (pk_proof p)) as [Hc Hr].
  destruct (DleqProof_serialize (pk_proof p)) as [c r].
  pose proof (pk_length (blst_p1_to_bytes (payload_pk p)) c r) as Hl.
  unfold blst_p1_to_bytes in *. rewrite p1_compress_length in Hl.
  unfold PUBLIC_KEY_BYTES_LEN in Hl. simpl in Hc, Hr. lia.
Qed.

Lemma GpkPayload_fits p : fits (GpkPayload_to_bytes p).
Proof.
  unfold fits, AES_MAX, GpkPayload_to_bytes. destruct (proof_length (gpk_proof p)) as [Hc Hr].
  destruct (DleqProof_serialize (gpk_proof p)) as [c r].
  pose proof (gpk_length (blst_p1_to_bytes (payload_gpk p))
    (blst_p1_to_bytes (aux_gpk p)) c r) as Hl.
  unfold blst_p1_to_bytes in *. rewrite !p1_compress_length in Hl.
  unfold PUBLIC_KEY_BYTES_LEN in Hl. simpl in Hc, Hr. lia.
Qed.

Lemma public_phase i :
  i ∈ ids ->
  phase tape ids sent_public i
    (exchange_public_keys (dkg_of i) (public_of i) (seed i) (fmap_on com_of ids))
    (eq (fmap_on public_of ids)).
Proof.
  intros Hi. unfold exchange_public_keys. change (dkg_party (dkg_of i)) with i.
  rewrite aux_pk_of by done. cbn. apply stage_draw. intros ikm'.
  destruct (dleq_complete ikm' ffi_p1_generator another_p1_generator (seed i))
    as (proof & Hprove & Hver & Hp);
    [apply generator_order|apply hash_to_g1_order|apply secret_scalar, (hs_seed HS)|].
  fold (public_of i) (aux_of i) in Hprove, Hver. unfold fixed_p1_generator.
  rewrite Hprove. cbn.
  apply (exchange_phase sent_public i _ _ (fun j => Some (public_of j)) (fun l =>
    io_lift (collect_keys (dkg_of i) l (public_of i)))).
  - apply PkPayload_fits.
  - intros j e He. by exists proof.
  - intros j e Hj (proof' & Hp' & Hver' & Ho). eexists. split; [exact Ho|].
    rewrite PkPayload_roundtrip by done. cbn [mbind outcome_bind payload_pk pk_proof].
    apply elem_of_peers in Hj as [Hj _]. rewrite aux_pk_of by done.
    cbn [mbind outcome_bind]. by rewrite Hver'.
  - eexists. split; [done|]. unfold io_lift. by rewrite collect_all.
Qed.

(** *** The group public keys *)

Definition aux_group (j : Z) : p1 := gmul (group_share j) another_p1_generator.

Definition sent_group (i j : Z) (e : bytes) : Prop :=
  exists proof, is_proof proof /\
    dleq_verify ffi_p1_generator (group_public i) another_p1_generator (aux_group i) proof
      = true /\
    opened i j e (GpkPayload_to_bytes (mkGpkPayload (group_public i) (aux_group i) proof)).

(** A sum of multiples over the entries of a map. *)
Lemma sum_fmap_on {A} (f : Z -> A) (c : Z -> Z) (h : p1) :
  gsum (map (fun '(id, _) => gmul (c id) h) (map_to_list (fmap_on f ids))) =
  gmul (zsum c ids) h.
Proof.
  assert (forall l : list (Z * A), map (fun '(id, _) => gmul (c id) h) l =
    map (fun id => gmul (c id) h) l.*1) as ->.
  { intros l. rewrite map_map. apply map_ext. by intros []. }
  rewrite (keys_fmap_on f ids (hs_ids HS)). apply gsum_gmul.
Qed.

Lemma id_u64 j : j ∈ ids -> is_u64 j.
Proof. pose proof (hs_u64 HS) as Hu. rewrite Forall_forall in Hu. apply Hu. Qed.

Lemma map_to_list_nonempty {A} (f : Z -> A) i :
  i ∈ ids -> map_to_list (fmap_on f ids) <> [].
Proof.
  intros Hi Hnil. assert ((i, f i) ∈ map_to_list (fmap_on f ids)) as Hin.
  { apply elem_of_map_to_list. by rewrite lookup_fmap_on, decide_True. }
  rewrite Hnil in Hin. by apply elem_of_nil in Hin.
Qed.

(** The values of all commitments at [j] add up to the group key of [j]. *)
Lemma evals_of j :
  j ∈ ids ->
  exists evals, try_map (E:=DvfError) (fun '(_, poly) =>
      CommittedPoly.eval poly (u64_to_blst_scalar j)) (map_to_list (fmap_on com_of ids))
    = Ok evals /\ blst_p1s_add evals = aux_group j.
Proof.
  intros Hj. rewrite (try_map_total _ (fun '(id, _) =>
    gmul (share_to id j) another_p1_generator)).
  - eexists. split; [done|]. unfold blst_p1s_add. rewrite p1s_add_ok.
    + rewrite (sum_fmap_on com_of (fun id => share_to id j)). unfold aux_group, group_share.
      by rewrite gmul_mod by apply hash_to_g1_order.
    + intros Hnil%map_eq_nil. by apply (map_to_list_nonempty com_of j).
  - intros [id poly] Hin%elem_of_map_to_list. rewrite lookup_fmap_on in Hin.
    destruct (decide (id ∈ ids)); [|done]. injection Hin as <-.
    apply com_eval. by apply id_u64.
Qed.

Lemma group_phase i :
  i ∈ ids ->
  phase tape ids sent_group i
    (exchange_group_public_keys (dkg_of i) (group_public i) (group_share i)
      (fmap_on com_of ids))
    (eq (fmap_on group_public ids)).
Proof.
  intros Hi. unfold exchange_group_public_keys. cbn. apply stage_draw. intros ikm'.
  pose proof (group_share_secret i Hi) as Hs%secret_scalar.
  rewrite blst_p1_mult_spec by done.
  destruct (dleq_complete ikm' ffi_p1_generator another_p1_generator (group_share i))
    as (proof & Hprove & Hver & Hp); [apply generator_order|apply hash_to_g1_order|done|].
  fold (group_public i) (aux_group i) in *. unfold fixed_p1_generator.
  rewrite Hprove. cbn.
  apply (exchange_phase sent_group i _ _ (fun j => Some (group_public j)) (fun l =>
    io_lift (collect_keys (dkg_of i) l (group_public i)))).
  - apply GpkPayload_fits.
  - intros j e He. by exists proof.
  - intros j e Hj (proof' & Hp' & Hver' & Ho). eexists. split; [exact Ho|].
    rewrite GpkPayload_roundtrip by done.
    cbn [mbind outcome_bind payload_gpk aux_gpk gpk_proof].
    rewrite Hver'. cbn [negb]. apply elem_of_peers in Hj as [Hj _].
    destruct (evals_of j Hj) as (evals & -> & Hsum). cbn [mbind outcome_bind].
    by rewrite Hsum, bool_decide_true.
  - eexists. split; [done|]. unfold io_lift. by rewrite collect_all.
Qed.

(** *** The keys *)

Lemma wrap_pk_ok {E} k :
  is_secret k -> blst_p1_to_blst_wrap_pk (E:=E) (gmul k ffi_p1_generator) =
    Ok (gmul k ffi_p1_generator).
Proof.
  intros Hk. unfold blst_p1_to_blst_wrap_pk, bytes_to_blst_wrap_pk, blst_p1_to_bytes.
  rewrite <- public_serialize_ok, public_roundtrip; [done|..].
  - apply gmul_torsion, generator_order.
  - by apply generator_mul_nonzero.
Qed.

(** The end of a run, with the group public keys. *)
Definition finish (gsk : Z) (mpk : p1) (gpks : gmap Z p1)
  : io DvfError (Keypair * p1 * gmap Z p1) :=
  gsk ← io_lift (blst_scalar_to_blst_wrap_sk gsk);
  let gkp := mkKeypair _ (SecretKey_public_key gsk) gsk in
  mpk ← io_lift (blst_p1_to_blst_wrap_pk mpk);
  gpks ← io_lift (try_map (fun '(id, gpk) =>
           pk ← blst_p1_to_blst_wrap_pk gpk; mret (id, pk)) (map_to_list gpks));
  mret (gkp, mpk, list_to_map gpks).

Lemma finish_of i :
  i ∈ ids ->
  finish (group_share i) (gmul master_key ffi_p1_generator) (fmap_on group_public ids) =
  Done (Ok (dkg_result i)).
Proof.
  intros Hi. unfold finish. rewrite scalar_wrap_sk by (by apply group_share_secret). cbn.
  rewrite wrap_pk_ok by apply master_key_secret. cbn.
  destruct (try_map_pairs_total (E:=DvfError) (fun _ => blst_p1_to_blst_wrap_pk)
    (map_to_list (fmap_on group_public ids))) as [r Hr].
  { intros id p Hin%elem_of_map_to_list. rewrite lookup_fmap_on in Hin.
    destruct (decide (id ∈ ids)); [|done]. injection Hin as <-. eexists.
    apply wrap_pk_ok. by apply group_share_secret. }
  rewrite Hr. cbn. rewrite (wrap_pks_inv _ _ Hr), public_key_ok. done.
Qed.

(** The run after the public keys. *)
Definition after_keys (i : Z) (payloads : gmap Z VssSharePayload) (pks : gmap Z p1)
  : io DvfError (Keypair * p1 * gmap Z p1) :=
  let pks := <[i := public_of i]> pks in
  let mpk := blst_p1s_add (map snd (map_to_list pks)) in
  shares ← io_lift (reveal_shares (dkg_of i) payloads);
  own_kp ← io_lift (unwrap (kps_of i !! i));
  let self_share := blst_wrap_sk_to_blst_scalar (Keypair_sk own_kp) in
  let shares := <[i := self_share]> shares in
  let '(gsk, gpk) := construct_group_key (dkg_of i) shares in
  gpks ← exchange_group_public_keys (dkg_of i) gpk gsk (fmap_on com_of ids);
  finish gsk mpk gpks.

Lemma derive_keys_of i e :
  i ∈ ids ->
  second_half i (received i e) =
  exchange_public_keys (dkg_of i) (public_of i) (seed i) (fmap_on com_of ids)
    ≫= after_keys i (received i e).
Proof.
  intros Hi. unfold derive_keys. rewrite commitments_of by done.
  change (Keypair_sk (keypair_of i)) with (seed i).
  change (Keypair_pk (keypair_of i)) with (SecretKey_public_key (seed i)).
  rewrite wrap_sk_scalar by apply secret_scalar, (hs_seed HS).
  unfold bytes_to_blst_p1.
  rewrite public_serialize_ok, p1_uncompress_compress, public_key_ok. reflexivity.
Qed.

Lemma after_keys_of i e :
  i ∈ ids -> (forall j, j ∈ peers ids i -> share_for j i (e j)) ->
  after_keys i (received i e) (fmap_on public_of ids) =
  exchange_group_public_keys (dkg_of i) (group_public i) (group_share i)
    (fmap_on com_of ids) ≫=
  finish (group_share i) (gmul master_key ffi_p1_generator).
Proof.
  intros Hi He. unfold after_keys.
  rewrite insert_id by (by rewrite lookup_fmap_on, decide_True).
  assert (blst_p1s_add (map snd (map_to_list (fmap_on public_of ids))) =
    gmul master_key ffi_p1_generator) as ->.
  { unfold blst_p1s_add. rewrite p1s_add_ok.
    2: { intros Hnil%map_eq_nil. by apply (map_to_list_nonempty public_of i). }
    rewrite (map_to_list_fmap_on public_of ids (hs_ids HS)), map_map. cbn [snd].
    unfold public_of. rewrite gsum_gmul. unfold master_key. by rewrite gmul_mod by apply generator_order. }
  destruct (verification_of i e Hi He) as [_ ->]. cbn [io_lift mbind io_bind io_bind'].
  rewrite lookup_fmap_on, decide_True by done. cbn [unwrap Keypair_sk share_keypair].
  fold (share_to i i).
  rewrite wrap_sk_scalar by (by apply secret_scalar, share_to_secret).
  rewrite (insert_own (fun j => share_to j i)) by done.
  rewrite construct_group_key_spec.
  assert (zsum snd (map_to_list (fmap_on (fun j => share_to j i) ids)) =
    zsum (fun j => share_to j i) ids) as ->.
  { rewrite (map_to_list_fmap_on _ ids (hs_ids HS)). by rewrite zsum_map. }
  reflexivity.
Qed.

(** *** The six rounds *)

(** A party before and after each round. *)
Definition at_ack (i : Z) (p : io DvfError (Keypair * p1 * gmap Z p1)) : Prop :=
  p = dkg_program i.
Definition at_channel_keys (i : Z) (p : io DvfError (Keypair * p1 * gmap Z p1)) : Prop :=
  p = exchange_keys i (plain_of i) ≫= fun committee =>
      DKGMalicious_run (DKGMalicious_new i committee t) (rng i) (seed i).
Definition at_shares (i : Z) (p : io DvfError (Keypair * p1 * gmap Z p1)) : Prop :=
  p = share_transmission (dkg_of i) (kps_of i) (com_of i) ≫= after_shares i.
Definition at_results (i : Z) (p : io DvfError (Keypair * p1 * gmap Z p1)) : Prop :=
  exists payloads, good_payloads i payloads /\
    p = exchange_verification_results (dkg_of i) (all_valid i) ≫=
        after_results i payloads (all_valid i).
Definition at_public_keys (i : Z) (p : io DvfError (Keypair * p1 * gmap Z p1)) : Prop :=
  exists payloads, good_payloads i payloads /\
    p = exchange_public_keys (dkg_of i) (public_of i) (seed i) (fmap_on com_of ids) ≫=
        after_keys i payloads.
Definition at_group_keys (i : Z) (p : io DvfError (Keypair * p1 * gmap Z p1)) : Prop :=
  p = exchange_group_public_keys (dkg_of i) (group_public i) (group_share i)
        (fmap_on com_of ids) ≫=
      finish (group_share i) (gmul master_key ffi_p1_generator).
Definition at_end (i : Z) (p : io DvfError (Keypair * p1 * gmap Z p1)) : Prop :=
  p = Done (Ok (dkg_result i)).

Lemma stage_ack i p : at_ack i p -> stage tape ids sent_ack i p (at_channel_keys i).
Proof.
  intros ->. eapply stage_mono.
  2: apply stage_bind_k, (stage_bind _ _ _ _ _ _ (eq (plain_of i))
    (fun q => q = exchange_keys i (plain_of i)) (plain_phase i)).
  - intros q (p' & -> & ->). done.
  - by intros plain <-.
Qed.

Lemma stage_channel_keys i p :
  i ∈ ids -> at_channel_keys i p -> stage tape ids sent_key i p (at_shares i).
Proof.
  intros Hi ->. eapply stage_bind; [apply keys_phase|]. intros c <-.
  by apply run_shares.
Qed.

Lemma stage_shares i p :
  i ∈ ids -> at_shares i p -> stage tape ids sent_share i p (at_results i).
Proof.
  intros Hi ->. eapply stage_bind; [by apply share_phase|]. intros payloads Hg.
  exists payloads. split; [done|]. destruct Hg as (e & -> & He).
  unfold after_shares. destruct (verification_of i e Hi He) as [-> _]. reflexivity.
Qed.

Lemma stage_results i p :
  i ∈ ids -> at_results i p -> stage tape ids sent_results i p (at_public_keys i).
Proof.
  intros Hi (payloads & Hg & ->). eapply stage_bind; [apply results_phase|].
  intros other <-. rewrite after_results_valid. exists payloads. split; [done|].
  destruct Hg as (e & -> & _). by apply derive_keys_of.
Qed.

Lemma stage_public_keys i p :
  i ∈ ids -> at_public_keys i p -> stage tape ids sent_public i p (at_group_keys i).
Proof.
  intros Hi (payloads & (e & -> & He) & ->).
  eapply stage_bind; [by apply public_phase|]. intros pks <-. by apply after_keys_of.
Qed.

Lemma stage_group_keys i p :
  i ∈ ids -> at_group_keys i p -> stage tape ids sent_group i p (at_end i).
Proof.
  intros Hi ->. eapply stage_bind; [by apply group_phase|]. intros gpks <-.
  by apply finish_of.
Qed.

(** The rounds, when the protocol is the first part of what the parties run:
    [w i] is what the party [i] runs around it. *)
Section within.
Context {B : Type} (w : Z -> io DvfError (Keypair * p1 * gmap Z p1) -> io DvfError B).
Context (Hw : forall sent i p Next, stage tape ids sent i p Next ->
  stage tape ids sent i (w i p) (fun q => exists p', Next p' /\ q = w i p')).

Definition within (P : Z -> io DvfError (Keypair * p1 * gmap Z p1) -> Prop)
  (i : Z) (q : io DvfError B) : Prop := exists p, P i p /\ q = w i p.

Lemma stage_within sent Pre Post :
  (forall i p, i ∈ ids -> Pre i p -> stage tape ids sent i p (Post i)) ->
  forall i q, i ∈ ids -> within Pre i q -> stage tape ids sent i q (within Post i).
Proof. intros Hst i q Hi (p & Hp & ->). by apply Hw, Hst. Qed.

Lemma dkg_rounds (c : network (E:=DvfError) (A:=B)) :
  quiet c -> at_programs ids c (within at_ack) ->
  exists sched d, execution tape sched c d /\ quiet d /\
    at_programs ids d (within at_end) /\
    forall i, i ∉ ids -> procs d !! i = procs c !! i.
Proof.
  intros Q0 A0. pose proof (hs_ids HS) as Hnd.
  destruct (stage_round tape ids Hnd c (within at_ack) (within at_channel_keys) sent_ack)
    as (s1 & c1 & X1 & Q1 & A1 & O1); [done|done|apply stage_within; intros i p _; apply stage_ack|].
  destruct (stage_round tape ids Hnd c1 (within at_channel_keys) (within at_shares) sent_key)
    as (s2 & c2 & X2 & Q2 & A2 & O2); [done|done|apply stage_within, stage_channel_keys|].
  destruct (stage_round tape ids Hnd c2 (within at_shares) (within at_results) sent_share)
    as (s3 & c3 & X3 & Q3 & A3 & O3); [done|done|apply stage_within, stage_shares|].
  destruct (stage_round tape ids Hnd c3 (within at_results) (within at_public_keys) sent_results)
    as (s4 & c4 & X4 & Q4 & A4 & O4); [done|done|apply stage_within, stage_results|].
  destruct (stage_round tape ids Hnd c4 (within at_public_keys) (within at_group_keys) sent_public)
    as (s5 & c5 & X5 & Q5 & A5 & O5); [done|done|apply stage_within, stage_public_keys|].
  destruct (stage_round tape ids Hnd c5 (within at_group_keys) (within at_end) sent_group)
    as (s6 & c6 & X6 & Q6 & A6 & O6); [done|done|apply stage_within, stage_group_keys|].
  eexists _, c6. split; [|split; [done|]; split; [done|]].
  - do 5 (eapply execution_app; [eassumption|]). exact X6.
  - intros i Hi. by rewrite O6, O5, O4, O3, O2, O1 by done.
Qed.
End within.
End honest.

(** A network in which every party is done is at its end, and it is the end of
    every execution. *)
Lemma ends_of_run {E A} tape sched (c d : network (E:=E) (A:=A)) (result : Z -> A) ids :
  execution tape sched c d -> quiet d ->
  at_programs ids d (fun i p => p = Done (Ok (result i))) ->
  (forall i, i ∉ ids -> procs d !! i = None) ->
  forall sched' e, execution tape sched' c e ->
    (length sched' <= length sched)%nat /\
    (stuck tape e -> quiet e /\ forall i, i ∈ ids -> exists n,
      procs e !! i = Some (Done (Ok (result i)), n)).
Proof.
  intros Hx Hq Hend Hout sched' e Hx'.
  assert (stuck tape d) as Hd.
  { intros i. unfold step_party. destruct (decide (i ∈ ids)) as [Hi|Hi].
    - destruct (Hend i Hi) as (p & n & -> & ->). done.
    - by rewrite Hout. }
  destruct (execution_deterministic tape _ _ _ _ _ Hx Hd Hx') as [Hlen Hc].
  split; [done|]. intros Hstuck. rewrite (Hc Hstuck). split; [done|].
  intros i Hi. destruct (Hend i Hi) as (p & n & Hp & ->). by exists n.
Qed.

(** The parties [ids] before their first step, with nothing in flight. *)
Definition fresh_network {E A} (ids : list Z) (program : Z -> io E A) : network :=
  mkNetwork (fmap_on (fun i => (program i, 0%nat)) ids) ∅.

Lemma fresh_programs {E A} ids (program : Z -> io E A) (P : Z -> io E A -> Prop) :
  (forall i, i ∈ ids -> P i (program i)) -> at_programs ids (fresh_network ids program) P.
Proof.
  intros HP i Hi. exists (program i), 0%nat. split; [|by apply HP]. simpl.
  by rewrite lookup_fmap_on, decide_True.
Qed.

Lemma fresh_outside {E A} ids (program : Z -> io E A) i :
  i ∉ ids -> procs (fresh_network ids program) !! i = None.
Proof. intros Hi. simpl. by rewrite lookup_fmap_on, decide_False. Qed.

(** C10: an honest key generation always ends, with the keys of the sum of all
    secrets.  However the parties and their messages are scheduled, an
    execution has a bounded number of steps, and when no party can take
    another step every message was received and every party has returned: its
    secret key is the sum of the values of all secret polynomials at its
    identifier, the master public key belongs to the sum of all secrets, and
    all parties hold the public keys of all shares. *)
Theorem honest_dkg_ends `{BlstLaws} `{!DkgCodec} `{!DkgCodecLaws} `{AesLaws}
  ids t tape ikm rng seed :
  honest_setup ids t tape rng seed ->
  exists bound, forall sched c,
    execution tape sched (fresh_network ids (dkg_program ids t ikm rng seed)) c ->
    (length sched <= bound)%nat /\
    (stuck tape c -> quiet c /\ forall i, i ∈ ids -> exists n,
      procs c !! i = Some (Done (Ok (dkg_result ids t rng seed i)), n)).
Proof.
  intros HS.
  destruct (dkg_rounds ids t tape ikm rng seed HS (fun _ p => p)
    ltac:(intros sent i p Next Hs; eapply stage_mono; [|exact Hs]; eauto)
    (fresh_network ids (dkg_program ids t ikm rng seed)))
    as (sched & d & Hx & Hq & Hend & Hout).
  { done. }
  { apply fresh_programs. intros i Hi. by eexists. }
  exists (length sched). eapply ends_of_run; [exact Hx|exact Hq| |].
  - intros i Hi. destruct (Hend i Hi) as (p & n & Hp & p' & Hp' & ->). by exists p', n.
  - intros i Hi. rewrite Hout by done. by apply fresh_outside.
Qed.

(** ** Witnesses

    Three parties, threshold 2, the polynomials [7 + 12 x], [8 + 12 x] and
    [9 + 12 x]. *)

Section witnesses.
#[local] Existing Instances ideal_blst ideal_blst_laws ideal_aes ideal_aes_laws.
#[local] Existing Instances ideal_codec ideal_codec_laws.

Definition trio_seed (i : Z) : Z := 6 + i mod 50.
Definition trio_rng (i : Z) : nat -> Z := demo_rng.
Definition trio_ikm (i : Z) : bytes := [i].

Lemma trio_setup : honest_setup [1; 2; 3] 2 duo_tape trio_rng trio_seed.
Proof.
  split.
  - by apply (bool_decide_unpack _).
  - repeat constructor; unfold is_u64, u64_max; lia.
  - by apply (bool_decide_unpack _).
  - intros i n. unfold duo_tape. rewrite length_replicate. lia.
  - intros i. unfold trio_seed. pose proof (Z.mod_pos_bound i 50). apply small_secret. lia.
  - intros i n. apply demo_rng_scalar.
  - lia.
  - simpl. lia.
  - assert (forallb (fun i => forallb (fun j =>
      negb (share_to 2 trio_rng trio_seed i j =? 0)) [1; 2; 3]) [1; 2; 3] = true) as Hb
      by (vm_compute; reflexivity).
    intros i j Hi%list_elem_of_In Hj%list_elem_of_In. rewrite forallb_forall in Hb.
    specialize (Hb i Hi). rewrite forallb_forall in Hb. specialize (Hb j Hj).
    by apply negb_true_iff, Z.eqb_neq in Hb.
  - assert (forallb (fun j =>
      negb (group_share [1; 2; 3] 2 trio_rng trio_seed j =? 0)) [1; 2; 3] = true) as Hb
      by (vm_compute; reflexivity).
    intros j Hj%list_elem_of_In. rewrite forallb_forall in Hb. specialize (Hb j Hj).
    by apply negb_true_iff, Z.eqb_neq in Hb.
  - apply Z.eqb_neq. vm_compute. reflexivity.
Qed.

Lemma honest_dkg_ends_witness :
  exists bound, forall sched c,
    execution duo_tape sched
      (fresh_network [1; 2; 3] (dkg_program [1; 2; 3] 2 trio_ikm trio_rng trio_seed)) c ->
    (length sched <= bound)%nat /\
    (stuck duo_tape c -> quiet c /\ forall i, i ∈ [1; 2; 3] -> exists n,
      procs c !! i =
      Some (Done (Ok (dkg_result [1; 2; 3] 2 trio_rng trio_seed i)), n)).
Proof.
  exact (honest_dkg_ends [1; 2; 3] 2 duo_tape trio_ikm trio_rng trio_seed trio_setup).
Defined.
End witnesses.
