(* ===== verification/DkgSign.v ===== *)
(** * Distributed key generation: signing with the keys

    The parties of a committee generate their keys, set up a second committee, as the
    node does for a deposit or an exit ([minipool_deposit], [remove_initiator] of
    [node/node.rs]), and sign a message with [SimpleDistributedSigner] over its secure
    channels: every party obtains the signature of the sum of all secrets, which no party
    holds. *)

From S2P Require Import Prelude Network Scalars Blst BlstIdeal Polynomial Threshold.
From S2P Require Import Processes IoCommittee Dkg DkgIdeal DkgSound DkgHonest.

(** ** Sums of polynomials *)

Section sums.

Lemma horner_add a b x :
  length a = length b -> horner (zip_with Z.add a b) x = horner a x + horner b x.
Proof.
  revert b. induction a as [|c a IH]; intros [|d b]; simpl; try done.
  intros [= Hl]. rewrite IH by done. lia.
Qed.

Lemma horner_zeros n x : horner (replicate n 0) x = 0.
Proof. induction n as [|n IH]; simpl; [done|]. rewrite IH. lia. Qed.

(** The sum of the polynomials [cs i] of [n] coefficients. *)
Definition sum_coeffs (n : nat) (cs : Z -> list Z) (l : list Z) : list Z :=
  foldr (fun i acc => zip_with Z.add (cs i) acc) (replicate n 0) l.

Lemma sum_coeffs_spec n cs l :
  (forall i, length (cs i) = n) ->
  length (sum_coeffs n cs l) = n /\
  forall x, horner (sum_coeffs n cs l) x = zsum (fun i => horner (cs i) x) l.
Proof.
  intros Hn. unfold sum_coeffs. induction l as [|i l [Hl IH]]; simpl.
  - rewrite length_replicate. split; [done|]. apply horner_zeros.
  - rewrite length_zip_with, Hn, Hl. split; [lia|]. intros x.
    rewrite horner_add by (by rewrite Hl). by rewrite IH.
Qed.

Lemma fr_zsum_mod (f : Z -> Z) l : fr (zsum (fun i => f i mod MODULUS) l) = fr (zsum f l).
Proof. induction l as [|i l IH]; simpl; [done|]. by rewrite !fr_add, fr_mod, IH. Qed.
End sums.

(** ** The signing round *)

Section signing.
Context `{BlstLaws} `{!DkgCodec} `{!DkgCodecLaws} `{AesLaws}.
Context (ids : list Z) (t : nat) (tape : Z -> nat -> bytes).
Context (ikm : Z -> bytes) (rng : Z -> nat -> Z) (seed : Z -> Z).
Context (HS : honest_setup ids t tape rng seed) (msg : bytes).

(** [ikm] is the randomness of the channel keys of the second committee. *)
Abbreviation committee i := (committee_of ids ikm i).
Abbreviation secure i := (SecureNetIOCommittee_io (committee i)).
Abbreviation chan_key := (chan_key ikm).
Abbreviation opened i j e m := (opens (E:=DvfError) i (chan_key i) (chan_key j) e m).
Abbreviation group_share := (group_share ids t rng seed).
Abbreviation group_public := (group_public ids t rng seed).
Abbreviation master_key := (master_key ids seed).

(** The signer of [i] with the keys that it generated. *)
Definition signer_of (i : Z) (keys : Keypair * p1 * gmap Z p1) (c : SecureNetIOCommittee)
  : SimpleDistributedSigner :=
  mkSigner i keys.1.1 keys.1.2 keys.2 (SecureNetIOCommittee_io c) t.

Definition partial (j : Z) : Signature := SecretKey_sign (group_share j) msg.
Definition sent_partial (i j : Z) (e : bytes) : Prop :=
  opened i j e (Signature_serialize (partial i)).

Lemma send_each_local i m l n :
  NoDup l -> fits m -> (forall j, j ∈ peers l i -> j ∈ ids) ->
  exists enc n1,
    local (E:=DvfError) tape i (send_each (secure i) i (map (fun j => (j, m)) l)) n
      (map (fun j => Out j (enc j)) (peers l i)) (Done (Ok ())) n1 /\
    forall j, j ∈ peers l i -> opened i j (enc j) m.
Proof.
  intros Hnd Hm. revert n. induction Hnd as [|j l Hjl Hnd IH]; intros n Hl.
  { exists (fun _ => []), n. split; [constructor|]. by intros ? ?%elem_of_nil. }
  cbn [map send_each]. destruct (decide (j = i)) as [->|Hj].
  - rewrite peers_cons_self in *. rewrite bool_decide_true by done. by apply IH.
  - rewrite peers_cons_other in * by done. rewrite bool_decide_false by done.
    destruct (pick_channel_to i (sec_channels (committee i)) j
      (channel_to j (chan_key i) (chan_key j)) Hj) as [Hp _].
    { apply channels_lookup, elem_of_peers. split; [apply Hl, list_elem_of_here|done]. }
    destruct (secure_send_local (E:=DvfError) tape i j (chan_key i) (chan_key j) m n)
      as (e & He & Ho); [apply chan_key_secret..|apply (hs_tape _ _ _ _ _ HS)|done|].
    destruct (IH (S n)) as (enc & n1 & Hrest & Henc).
    { intros k Hk. by apply Hl, list_elem_of_further. }
    assert (j ∉ peers l i) as Hjp by (rewrite elem_of_peers; tauto).
    exists (fun k => if decide (k = j) then e else enc k), n1. split.
    + cbn [map]. rewrite decide_True by done.
      rewrite (map_replaced (fun k e => Out k e) enc j e _ Hjp).
      apply (local_trans tape i _ (send_each (secure i) i (map (fun j => (j, m)) l))
        _ _ (S n) _ [Out j e]); [|done].
      apply (local_bind tape i _ (fun _ => send_each (secure i) i (map (fun j => (j, m)) l)) _ _ ()).
      cbn [io_send_on SecureNetIOCommittee_io]. unfold SecureNetIOCommittee_channel.
      cbn [sec_party committee_of]. cbn [sec_party committee_of] in Hp. rewrite Hp. exact He.
    + intros k [->|Hk]%elem_of_cons; [by rewrite decide_True|].
      rewrite decide_False by congruence. by apply Henc.
Qed.

Lemma recv_each_local i own (m ins : Z -> bytes) l n :
  (forall j, j ∈ peers l i -> j ∈ ids) ->
  (forall j, j ∈ peers l i -> opened j i (ins j) (m j)) ->
  local (E:=DvfError) tape i (recv_each (secure i) i (map (fun j => (j, own)) l)) n
    (map (fun j => In j (ins j)) (peers l i))
    (Done (Ok (map (fun j => (j, if decide (j = i) then own else m j)) l))) n.
Proof.
  induction l as [|j l IH]; intros Hl Hm; [constructor|]. cbn [map recv_each].
  destruct (decide (j = i)) as [->|Hj].
  - rewrite peers_cons_self in *. rewrite bool_decide_true by done.
    exact (local_bind tape i _ (fun rest => mret ((i, own) :: rest)) _ _ _ _ (IH Hl Hm)).
  - rewrite peers_cons_other in * by done. rewrite bool_decide_false by done. cbn [map].
    destruct (pick_channel_to i (sec_channels (committee i)) j
      (channel_to j (chan_key i) (chan_key j)) Hj) as [_ Hp].
    { apply channels_lookup, elem_of_peers. split; [apply Hl, list_elem_of_here|done]. }
    apply (local_trans tape i _ (rest ← recv_each (secure i) i (map (fun j => (j, own)) l);
      mret ((j, m j) :: rest)) _ _ n _ [In j (ins j)]).
    + apply (local_bind tape i _ (fun x => rest ← recv_each (secure i) i (map (fun j => (j, own)) l);
        mret ((j, x) :: rest)) _ _ (m j)).
      cbn [io_recv_on SecureNetIOCommittee_io]. unfold SecureNetIOCommittee_channel.
      cbn [sec_party committee_of]. cbn [sec_party committee_of] in Hp. rewrite Hp.
      apply secure_recv_local, Hm, list_elem_of_here.
    + exact (local_bind tape i _ (fun rest => mret ((j, m j) :: rest)) _ _ _ _
        (IH (fun k Hk => Hl k (list_elem_of_further _ _ _ Hk))
            (fun k Hk => Hm k (list_elem_of_further _ _ _ Hk)))).
Qed.

(** The shares of all parties combine to the master key. *)
Lemma group_shares_of_master :
  exists cs, length cs = t /\ fr (horner cs 0) = fr master_key /\
    forall j, j ∈ ids -> is_share cs group_share j.
Proof.
  set (cs := sum_coeffs t (coeffs_of t rng seed) ids).
  destruct (sum_coeffs_spec t (coeffs_of t rng seed) ids) as [Hlen Hh].
  { apply (length_coeffs_of ids t tape rng seed HS). }
  exists cs. split; [done|]. split.
  - unfold cs, DkgHonest.master_key. rewrite Hh, fr_mod. f_equal.
    apply zsum_ext. intros i _. unfold coeffs_of. apply horner_0.
  - intros j Hj. split; [by eapply id_u64|]. split.
    { intros ->. by apply (hs_nonzero _ _ _ _ _ HS). }
    split; [by eapply group_share_secret|].
    unfold cs, DkgHonest.group_share. rewrite Hh, fr_mod. unfold share_to, share_of.
    rewrite fr_zsum_mod. f_equal. apply zsum_ext. intros i _. by rewrite eval_horner.
Qed.

Lemma zip_same {A B C} (f : Z -> A) (g : Z -> B) (h : Z -> C) l :
  zip (zip (map f l) (map g l)) (map h l) = map (fun j => (f j, g j, h j)) l.
Proof. induction l as [|j l IH]; [done|]. simpl. by rewrite IH. Qed.

(** All partial signatures verify. *)
Lemma all_good l :
  (forall j, j ∈ l -> j ∈ ids) ->
  good_ids msg (map (fun j => (partial j, group_public j, j)) l) = list_to_set l.
Proof.
  intros Hl. unfold good_ids. f_equal. induction l as [|j l IH]; [done|]. simpl.
  unfold partial at 1. unfold DkgHonest.group_public at 1. rewrite signature_verifies.
  - f_equal. apply IH. intros k Hk. by apply Hl, list_elem_of_further.
  - eapply group_share_secret; [done|]. apply Hl, list_elem_of_here.
Qed.

Lemma partials_aggregate a :
  (t <= length ids)%nat ->
  threshold_aggregate (mkThresholdSignature a t) (map partial ids) (map group_public ids)
    (map (fun j => j) ids) msg = Ok (SecretKey_sign master_key msg).
Proof.
  intros Ht. destruct group_shares_of_master as (cs & Hlen & Hzero & Hshares).
  pose proof (threshold_aggregate_shares cs group_share master_key
    (master_key_secret _ _ _ _ _ HS) Hzero a (map partial ids) (map group_public ids)
    (map (fun j => j) ids) msg) as Hagg.
  rewrite !length_map, zip_same, Hlen in Hagg.
  rewrite Hagg; [|apply (hs_threshold _ _ _ _ _ HS)|done|done|].
  - rewrite all_good, size_list_to_set by (done || apply (hs_ids _ _ _ _ _ HS)).
    cbn zeta. by rewrite (proj2 (Nat.ltb_ge _ _)).
  - intros s pk id (j & [= -> -> ->] & Hj)%list_elem_of_fmap.
    split; [by apply Hshares|done].
Qed.

(** What a party obtains from its signer's own share and the others'. *)
Lemma collected_shares i :
  i ∈ ids ->
  try_map (E:=DvfError) (fun '(id, b) =>
    if bool_decide (id = i) then mret (id, group_public i, partial i)
    else
      sig ← unwrap (Signature_deserialize b);
      pk ← unwrap (fmap_on group_public ids !! id);
      mret (id, pk, sig))
    (map (fun j => (j, if decide (j = i) then Signature_serialize (partial i)
      else Signature_serialize (partial j))) ids) =
  Ok (map (fun j => (j, group_public j, partial j)) ids).
Proof.
  intros Hi. rewrite (try_map_total _ (fun '(j, _) => (j, group_public j, partial j))).
  - by rewrite map_map.
  - intros [id b] (j & [= -> ->] & Hj)%list_elem_of_fmap.
    destruct (decide (j = i)) as [->|Hne]; [by rewrite bool_decide_true|].
    rewrite bool_decide_false by done. unfold partial at 1.
    rewrite signature_roundtrip by (by eapply group_share_secret). cbn.
    by rewrite lookup_fmap_on, decide_True.
Qed.

Lemma sign_phase i :
  i ∈ ids -> (t <= length ids)%nat ->
  phase tape ids sent_partial i
    (SimpleDistributedSigner_sign (signer_of i (dkg_result ids t rng seed i) (committee i)) msg)
    (eq (SecretKey_sign master_key msg)).
Proof.
  intros Hi Ht n. set (own := Signature_serialize (partial i)).
  set (l := map (fun j => (j, own)) ids).
  set (k1 := fun l => results ← io_lift (try_map (fun '(id, b) =>
      if bool_decide (id = i) then mret (id, group_public i, partial i)
      else
        sig ← unwrap (Signature_deserialize b);
        pk ← unwrap (fmap_on group_public ids !! id);
        mret (id, pk, sig)) l);
    threshold_sig ← io_lift (infinity t);
    io_lift (threshold_aggregate threshold_sig (map snd results)
      (map (fun x => x.1.2) results) (map (fun x => x.1.1) results) msg)).
  destruct (send_each_local i own ids n) as (enc & n1 & Hsend & Henc).
  { apply (hs_ids _ _ _ _ _ HS). }
  { unfold fits, own, AES_MAX. rewrite signature_length. lia. }
  { by intros j [? _]%elem_of_peers. }
  exists n1, enc, (recv_each (secure i) i l ≫= k1). split; [|split].
  - change (local tape i ((send_each (secure i) i l;; recv_each (secure i) i l) ≫= k1) n
      (map (fun j => Out j (enc j)) (peers ids i)) (recv_each (secure i) i l ≫= k1) n1).
    apply local_bind_k.
    by apply (local_bind tape i _ (fun _ => recv_each (secure i) i l) _ _ ()).
  - intros j Hj. by apply Henc.
  - intros ins Hins. eexists _, n1.
    split; [exists (SecretKey_sign master_key msg); split; [done|reflexivity]|].
    pose proof (recv_each_local i own (fun j => Signature_serialize (partial j)) ins ids n1) as Hr.
    specialize (Hr ltac:(by intros j [? _]%elem_of_peers) Hins).
    pose proof (local_bind tape i _ k1 _ _ _ _ Hr) as Hb.
    assert (k1 (map (fun j => (j, if decide (j = i) then own
      else Signature_serialize (partial j))) ids) =
      Done (Ok (SecretKey_sign master_key msg))) as Hk; [|by rewrite <- Hk].
    unfold k1, own. rewrite collected_shares by done. cbn [io_lift mbind io_bind io_bind'].
    rewrite infinity_spec. cbn [io_lift mbind io_bind io_bind'].
    rewrite !map_map. cbn [fst snd]. unfold io_lift. by rewrite partials_aggregate.
Qed.
End signing.

(** What a party runs: the key generation, with the channel keys from [ikm], then the
    second committee, with those from [ikm'], and the signer. *)
Definition sign_program `{DkgCodec} `{Aes} (ids : list Z) (t : nat) (ikm' : Z -> bytes)
  (msg : bytes) (i : Z) (keys : Keypair * p1 * gmap Z p1) : io DvfError Signature :=
  committee ← SecureNetIOCommittee_new i ids (ikm' i);
  SimpleDistributedSigner_sign (signer_of t i keys committee) msg.

Definition dkg_then_sign `{DkgCodec} `{Aes} (ids : list Z) (t : nat) (ikm ikm' : Z -> bytes)
  (rng : Z -> nat -> Z) (seed : Z -> Z) (msg : bytes) (i : Z) : io DvfError Signature :=
  keys ← dkg_program ids t ikm rng seed i;
  sign_program ids t ikm' msg i keys.

(** The rounds of the second committee and of the signer. *)
Section sign_rounds.
Context `{BlstLaws} `{!DkgCodec} `{!DkgCodecLaws} `{AesLaws}.
Context (ids : list Z) (t : nat) (tape : Z -> nat -> bytes).
Context (ikm' : Z -> bytes) (rng : Z -> nat -> Z) (seed : Z -> Z) (msg : bytes).
Context (HS : honest_setup ids t tape rng seed) (Ht : (t <= length ids)%nat).

Abbreviation keys i := (dkg_result ids t rng seed i).
Abbreviation sign i := (fun c => SimpleDistributedSigner_sign (signer_of t i (keys i) c) msg).

Lemma stage_connect i :
  stage tape ids sent_ack i (sign_program ids t ikm' msg i (keys i))
    (fun p => p = exchange_keys ids ikm' i (plain_of ids i) ≫= sign i).
Proof.
  eapply stage_mono.
  2: apply stage_bind_k, (stage_bind _ _ _ _ _ _ (eq (plain_of ids i))
    (fun q => q = exchange_keys ids ikm' i (plain_of ids i)) (plain_phase ids tape i)).
  - intros q (p' & -> & ->). done.
  - by intros plain <-.
Qed.

Lemma stage_keys i :
  stage tape ids (sent_key ikm') i (exchange_keys ids ikm' i (plain_of ids i) ≫= sign i)
    (fun p => p = sign i (committee_of ids ikm' i)).
Proof. eapply stage_bind; [by eapply keys_phase|]. by intros c <-. Qed.

Lemma sign_rounds (c : network (E:=DvfError) (A:=Signature)) :
  quiet c -> at_programs ids c (fun i p => p = sign_program ids t ikm' msg i (keys i)) ->
  exists sched d, execution tape sched c d /\ quiet d /\
    at_programs ids d (fun i p => p = Done (Ok (SecretKey_sign (master_key ids seed) msg))) /\
    forall i, i ∉ ids -> procs d !! i = procs c !! i.
Proof.
  intros Q0 A0. pose proof (hs_ids _ _ _ _ _ HS) as Hnd.
  destruct (stage_round tape ids Hnd c _ (fun i p =>
    p = exchange_keys ids ikm' i (plain_of ids i) ≫= sign i) sent_ack Q0 A0)
    as (s1 & c1 & X1 & Q1 & A1 & O1); [intros i p _ ->; apply stage_connect|].
  destruct (stage_round tape ids Hnd c1 _ (fun i p => p = sign i (committee_of ids ikm' i))
    (sent_key ikm') Q1 A1)
    as (s2 & c2 & X2 & Q2 & A2 & O2); [intros i p _ ->; apply stage_keys|].
  destruct (stage_round tape ids Hnd c2 _ (fun i p =>
    p = Done (Ok (SecretKey_sign (master_key ids seed) msg)))
    (sent_partial ids t ikm' rng seed msg) Q2 A2) as (s3 & c3 & X3 & Q3 & A3 & O3).
  { intros i p Hi ->. refine (stage_mono tape ids _ i _ _ _ _
      (sign_phase ids t tape ikm' rng seed HS msg i Hi Ht)). by intros q (a & <- & ->). }
  eexists _, c3. split; [|split; [done|]; split; [done|]].
  - do 2 (eapply execution_app; [eassumption|]). exact X3.
  - intros i Hi. by rewrite O3, O2, O1 by done.
Qed.
End sign_rounds.

(** C7: keys that a committee generates sign as one key.  The parties run the
    key generation, set up a second committee with secure channels of its own and run the
    distributed signer over it; however they are scheduled, the run ends, and every party
    has the signature of the message by the sum of all secrets, which verifies under the
    master public key that each of them derived. *)
Theorem dkg_keys_sign `{BlstLaws} `{!DkgCodec} `{!DkgCodecLaws} `{AesLaws}
  ids t tape ikm ikm' rng seed msg :
  honest_setup ids t tape rng seed -> (t <= length ids)%nat ->
  (exists bound, forall sched c,
    execution tape sched (fresh_network ids (dkg_then_sign ids t ikm ikm' rng seed msg)) c ->
    (length sched <= bound)%nat /\
    (stuck tape c -> quiet c /\ forall i, i ∈ ids -> exists n,
      procs c !! i = Some (Done (Ok (SecretKey_sign (master_key ids seed) msg)), n))) /\
  forall i, Signature_verify (SecretKey_sign (master_key ids seed) msg)
    (dkg_result ids t rng seed i).1.2 msg = true.
Proof.
  intros HS Ht. split.
  2: { intros i. apply signature_verifies. by eapply master_key_secret. }
  set (sign := sign_program ids t ikm' msg).
  destruct (dkg_rounds ids t tape ikm rng seed HS (fun i p => p ≫= sign i)
    ltac:(intros sent i p Next Hs; exact (stage_bind_k tape ids sent i p (sign i) Next Hs))
    (fresh_network ids (dkg_then_sign ids t ikm ikm' rng seed msg)))
    as (s1 & d & X1 & Q1 & A1 & O1).
  { done. }
  { apply fresh_programs. intros i Hi. by eexists. }
  destruct (sign_rounds ids t tape ikm' rng seed msg HS Ht d Q1) as (s2 & e & X2 & Q2 & A2 & O2).
  { intros i Hi. destruct (A1 i Hi) as (p & n & Hp & p' & -> & ->).
    by exists (sign i (dkg_result ids t rng seed i)), n. }
  exists (length (s1 ++ s2)).
  apply (ends_of_run tape _ _ e (fun _ => SecretKey_sign (master_key ids seed) msg));
    [by eapply execution_app|done|done|].
  intros i Hi. rewrite O2, O1 by done. by apply fresh_outside.
Qed.

(** ** Witness *)

Section witnesses.
#[local] Existing Instances ideal_blst ideal_blst_laws ideal_aes ideal_aes_laws.
#[local] Existing Instances ideal_codec ideal_codec_laws.

Lemma dkg_keys_sign_witness :
  (exists bound, forall sched c,
    execution duo_tape sched (fresh_network [1; 2; 3]
      (dkg_then_sign [1; 2; 3] 2 trio_ikm trio_ikm trio_rng trio_seed [5])) c ->
    (length sched <= bound)%nat /\
    (stuck duo_tape c -> quiet c /\ forall i, i ∈ [1; 2; 3] -> exists n,
      procs c !! i =
      Some (Done (Ok (SecretKey_sign (master_key [1; 2; 3] trio_seed) [5])), n))) /\
  forall i, Signature_verify (SecretKey_sign (master_key [1; 2; 3] trio_seed) [5])
    (dkg_result [1; 2; 3] 2 trio_rng trio_seed i).1.2 [5] = true.
Proof.
  apply (dkg_keys_sign [1; 2; 3] 2 duo_tape trio_ikm trio_ikm trio_rng trio_seed [5] trio_setup).
  simpl. lia.
Defined.
End witnesses.
