(* ===== verification/Operator.v ===== *)
(** * Operators and their committee

    Models [src/validation/operator.rs], [generic_operator_committee.rs],
    [impls/hotstuff.rs], [operator_committees.rs] and the addresses of
    [src/node/config.rs]: an operator signs with its share or asks another
    operator for its signature, and the committee of a validator waits for the
    consensus on a message, collects the partial signatures and aggregates them.

    A [Hash256] is the big-endian number of its 32 bytes, like a [Digest].  The
    replies of other operators and the order in which tasks run are arguments. *)

From stdpp Require Import list_numbers.
From S2P Require Import Prelude Store Committee Messages Network Core Ideal.
From S2P Require Import Scalars Blst BlstIdeal Polynomial Threshold.

Abbreviation Hash256 := Z (only parsing).
Abbreviation BlsSignature := Blst.Signature.

Definition is_hash (h : Hash256) : Prop := 0 <= h < 2 ^ 256.

(** [to_fixed_bytes] and [from_slice], which panics on another length. *)
Definition hash_bytes (h : Hash256) : bytes := reverse (Z_to_little_endian 32 8 h).
Definition hash_from_slice {E} (b : bytes) : outcome E Hash256 :=
  if bool_decide (length b = 32%nat) then Ok (be_val b)
  else Panic "assertion failed: `(left == right)`".

Lemma hash_bytes_length h : length (hash_bytes h) = 32%nat.
Proof.
  unfold hash_bytes. rewrite length_reverse. apply Nat2Z.inj.
  by rewrite length_Z_to_little_endian by lia.
Qed.

Lemma be_val_hash_bytes h : is_hash h -> be_val (hash_bytes h) = h.
Proof.
  intros Hh. unfold hash_bytes, be_val, le_val. rewrite reverse_involutive.
  by rewrite little_endian_to_Z_to_little_endian, Z.mod_small by (unfold is_hash in Hh; lia).
Qed.

Lemma hash_roundtrip {E} h : is_hash h -> hash_from_slice (E:=E) (hash_bytes h) = Ok h.
Proof.
  intros Hh. unfold hash_from_slice. rewrite hash_bytes_length, bool_decide_true by done.
  by rewrite be_val_hash_bytes.
Qed.

(** ** [src/node/config.rs]: addresses *)

Definition TRANSACTION_PORT_OFFSET : Z := 0.
Definition MEMPOOL_PORT_OFFSET : Z := 1.
Definition CONSENSUS_PORT_OFFSET : Z := 2.
Definition SIGNATURE_PORT_OFFSET : Z := 3.

(** 127.0.0.1:0 *)
Definition INVALID_ADDR : SocketAddr := mkSocketAddr 2130706433 0.
Definition invalid_addr : SocketAddr := INVALID_ADDR.
Definition is_addr_invalid (addr : SocketAddr) : bool := bool_decide (addr = INVALID_ADDR).

(** The addition on a [u16] port. *)
Definition u16 (x : Z) : Z := x mod 2 ^ 16.

Definition base_to_transaction_addr (base : SocketAddr) : SocketAddr :=
  if is_addr_invalid base then base
  else mkSocketAddr (ip base) (u16 (port base + TRANSACTION_PORT_OFFSET)).
Definition base_to_mempool_addr (base : SocketAddr) : SocketAddr :=
  if is_addr_invalid base then base
  else mkSocketAddr (ip base) (u16 (port base + MEMPOOL_PORT_OFFSET)).
Definition base_to_consensus_addr (base : SocketAddr) : SocketAddr :=
  if is_addr_invalid base then base
  else mkSocketAddr (ip base) (u16 (port base + CONSENSUS_PORT_OFFSET)).
Definition base_to_signature_addr (base : SocketAddr) : SocketAddr :=
  if is_addr_invalid base then base
  else mkSocketAddr (ip base) (u16 (port base + SIGNATURE_PORT_OFFSET)).

(** ** [src/validation/operator.rs] *)

(** [bincode] of a BLS signature. *)
Class SigCodec `{Blst} := {
  ser_sig : BlsSignature -> bytes;
  de_sig : bytes -> option BlsSignature
}.

Class SigCodecRoundTrip `{SigCodec} : Prop := {
  de_ser_sig s : de_sig (ser_sig s) = Some s
}.

(** What the network does with one request: [timeout] elapses, the sender drops
    the handle, or a reply arrives. *)
Inductive attempt : Type := TimedOut | Interrupted | Replied (data : bytes).

Section operator.
Context `{Blst} `{Bincode} `{!SigCodec}.

Record LocalOperator := mkLocalOperator {
  lo_validator_id : Z;
  lo_operator_id : Z;
  lo_keypair : Keypair;
  lo_base_address : SocketAddr
}.

Record RemoteOperator := mkRemoteOperator {
  ro_validator_id : Z;
  ro_operator_id : Z;
  ro_public_key : p1;
  ro_base_address : SocketAddr
}.

(** [dyn TOperator] *)
Inductive TOperator : Type :=
| Local (o : LocalOperator)
| Remote (o : RemoteOperator).

Definition dvf_request (vid : Z) (msg : Hash256) : bytes :=
  ser_dvf (mkDvfMessage VERSION vid (hash_bytes msg)).

(** The loop of [RemoteOperator::sign] from the try [i] on, [n] tries left; the
    sends that it makes and its result. *)
Fixpoint sign_tries (address : SocketAddr) (request : bytes) (attempts : nat -> attempt)
  (i n : nat) : list (SocketAddr * bytes) * outcome DvfError BlsSignature :=
  match n with
  | O => ([], Err Unknown)
  | S n =>
      let again :=
        let '(sends, r) := sign_tries address request attempts (S i) n in
        ((address, request) :: sends, r) in
      match attempts i with
      | Replied data =>
          match de_sig data with
          | Some bls_signature => ([(address, request)], Ok bls_signature)
          | None => again
          end
      | Interrupted | TimedOut => again
      end
  end.

Definition RemoteOperator_sign (o : RemoteOperator) (msg : Hash256)
  (attempts : nat -> attempt)
  : list (SocketAddr * bytes) * outcome DvfError BlsSignature :=
  if is_addr_invalid (ro_base_address o) then ([], Err SocketAddrUnknown)
  else
    sign_tries (base_to_signature_addr (ro_base_address o))
      (dvf_request (ro_validator_id o) msg) attempts 0 3.

Definition LocalOperator_sign (o : LocalOperator) (msg : Hash256)
  : outcome DvfError BlsSignature :=
  Ok (SecretKey_sign (Keypair_sk (lo_keypair o)) (hash_bytes msg)).

Definition sign (o : TOperator) (msg : Hash256) (attempts : nat -> attempt)
  : outcome DvfError BlsSignature :=
  match o with
  | Local o => LocalOperator_sign o msg
  | Remote o => snd (RemoteOperator_sign o msg attempts)
  end.

Definition public_key (o : TOperator) : p1 :=
  match o with
  | Local o => Keypair_pk (lo_keypair o)
  | Remote o => ro_public_key o
  end.

(** What [propose] hands to the sender. *)
Definition propose (o : TOperator) (msg : Hash256) : list (SocketAddr * bytes) :=
  match o with
  | Local o =>
      [(base_to_transaction_addr (lo_base_address o), dvf_request (lo_validator_id o) msg)]
  | Remote _ => []
  end.

(** ** [src/validation/impls/hotstuff.rs] *)

(** The committee without its notifications. *)
Record OperatorCommittee := mkOperatorCommittee {
  oc_validator_id : Z;
  oc_validator_public_key : p1;
  oc_operators : gmap Z TOperator;
  oc_threshold : nat
}.

Definition OperatorCommittee_new (validator_id : Z) (validator_public_key : p1) (t : nat)
  : OperatorCommittee := mkOperatorCommittee validator_id validator_public_key ∅ t.

Definition add_operator (self : OperatorCommittee) (operator_id : Z) (operator : TOperator)
  : OperatorCommittee :=
  mkOperatorCommittee (oc_validator_id self) (oc_validator_public_key self)
    (<[operator_id := operator]> (oc_operators self)) (oc_threshold self).

Definition operator_ids_sorted (self : OperatorCommittee) : list Z :=
  merge_sort Z.le (map fst (map_to_list (oc_operators self))).

(** The remainder by the number of operators panics when there is none. *)
Definition get_leader (self : OperatorCommittee) (nonce : Z) : outcome DvfError Z :=
  let n := Z.of_nat (size (oc_operators self)) in
  if n =? 0 then Panic "attempt to calculate the remainder with a divisor of zero"
  else unwrap (operator_ids_sorted self !! Z.to_nat (nonce mod n)).

(** The proposals that [consensus] makes. *)
Definition proposals (self : OperatorCommittee) (msg : Hash256)
  : list (SocketAddr * bytes) :=
  concat (map (fun o => propose o.2 msg) (map_to_list (oc_operators self))).

(** The futures of [sign] that return a signature. *)
Definition collect_signatures (self : OperatorCommittee) (msg : Hash256)
  (attempts : Z -> nat -> attempt) : list (Z * p1 * BlsSignature) :=
  omap (fun '(operator_id, operator) =>
    match sign operator msg (attempts operator_id) with
    | Ok x => Some (operator_id, public_key operator, x)
    | _ => None
    end) (map_to_list (oc_operators self)).

(** [sign], once [consensus] has returned. *)
Definition committee_sign (self : OperatorCommittee) (msg : Hash256)
  (attempts : Z -> nat -> attempt) : outcome DvfError (BlsSignature * list Z) :=
  let results := collect_signatures self msg attempts in
  let ids := map (fun x => x.1.1) results in
  let pks := map (fun x => x.1.2) results in
  let sigs := map snd results in
  threshold_sig ← infinity (oc_threshold self);
  sig ← threshold_aggregate threshold_sig sigs pks ids (hash_bytes msg);
  mret (sig, ids).

(** ** [src/validation/operator_committees.rs] *)

Record OperatorCommitteeDefinition := mkDefinition {
  def_total : Z;
  def_threshold : Z;
  def_validator_id : Z;
  def_validator_public_key : p1;
  def_operator_ids : list Z;
  def_operator_public_keys : list p1;
  def_node_public_keys : list PublicKey;
  def_base_socket_addresses : list (option SocketAddr)
}.

(** The loop of [from_definition] over the indices [idxs]; an index out of range
    panics. *)
Fixpoint definition_loop (def : OperatorCommitteeDefinition) (idxs : list nat)
  (committee : OperatorCommittee) : outcome DvfError OperatorCommittee :=
  match idxs with
  | [] => mret committee
  | i :: idxs =>
      addr ← unwrap (def_base_socket_addresses def !! i);
      id ← unwrap (def_operator_ids def !! i);
      pk ← unwrap (def_operator_public_keys def !! i);
      let operator := mkRemoteOperator (def_validator_id def) id pk
                        (default invalid_addr addr) in
      definition_loop def idxs (add_operator committee id (Remote operator))
  end.

Definition from_definition (def : OperatorCommitteeDefinition)
  : outcome DvfError OperatorCommittee :=
  definition_loop def (seq 0 (Z.to_nat (def_total def)))
    (OperatorCommittee_new (def_validator_id def) (def_validator_public_key def)
      (Z.to_nat (def_threshold def))).
End operator.

(** ** Signing with the shares of a key *)

Section shares.
Context `{BlstLaws} `{Bincode} `{!SigCodec}.
Context (cs : list Z) (share : Z -> Z) (sk : Z).
Context (Hsk : is_secret sk) (Hsk0 : fr (horner cs 0) = fr sk).

(** The operators hold shares of the key [sk]: the values of a polynomial with
    as many coefficients as the threshold. *)
Definition share_committee (self : OperatorCommittee) : Prop :=
  oc_threshold self = length cs /\ (0 < length cs)%nat /\
  forall id operator, oc_operators self !! id = Some operator ->
    is_share cs share id /\ public_key operator = gmul (share id) ffi_p1_generator.

(** The answers that are signatures by the share of the operator. *)
Definition valid_answer (msg : Hash256) (x : Z * p1 * BlsSignature) : Prop :=
  x.2 = SecretKey_sign (share x.1.1) (hash_bytes msg).
#[global] Instance valid_answer_dec msg x : Decision (valid_answer msg x).
Proof. apply Signature_eq_dec. Defined.

Lemma collect_spec self msg attempts id pk s :
  (id, pk, s) ∈ collect_signatures self msg attempts <->
  exists operator, oc_operators self !! id = Some operator /\
    pk = public_key operator /\ sign operator msg (attempts id) = Ok s.
Proof.
  unfold collect_signatures. rewrite list_elem_of_omap. split.
  - intros ([id' operator] & Hin%elem_of_map_to_list & Hs).
    destruct (sign operator msg (attempts id')) as [x| | |] eqn:Hx; try done.
    injection Hs as <- <- <-. by exists operator.
  - intros (operator & Hop & -> & Hs). exists (id, operator).
    rewrite elem_of_map_to_list. by rewrite Hs.
Qed.

Lemma collect_ids self msg attempts :
  NoDup (map (fun x => x.1.1) (collect_signatures self msg attempts)).
Proof.
  unfold collect_signatures. pose proof (NoDup_fst_map_to_list (oc_operators self)) as Hnd.
  induction (map_to_list (oc_operators self)) as [|[id operator] l IH]; simpl; [constructor|].
  apply NoDup_cons in Hnd as [Hid Hnd].
  destruct (sign operator msg (attempts id)); simpl; auto.
  constructor; [|auto]. intros Hin. apply Hid.
  apply list_elem_of_fmap in Hin as ([[id' pk] s] & -> & Hin).
  apply list_elem_of_omap in Hin as ([id'' o] & Hin & Ho).
  apply list_elem_of_fmap. exists (id'', o). split; [|done].
  destruct (sign o msg (attempts id'')); try done. by injection Ho as <- <- <-.
Qed.

Lemma zip_projections {A B C} (l : list (A * B * C)) :
  zip (zip (map snd l) (map (fun x => x.1.2) l)) (map (fun x => x.1.1) l) =
  map (fun x => (x.2, x.1.2, x.1.1)) l.
Proof. induction l as [|x l IH]; [done|]. simpl. by rewrite IH. Qed.

Lemma good_ids_cons m s pk id l :
  good_ids m ((s, pk, id) :: l) =
  if Signature_verify s pk m then {[id]} ∪ good_ids m l else good_ids m l.
Proof. unfold good_ids. simpl. by destruct (Signature_verify s pk m). Qed.

(** The operators with a signature that verifies are those with a valid answer. *)
Lemma good_ids_valid msg (l : list (Z * p1 * BlsSignature)) :
  (forall id pk s, (id, pk, s) ∈ l ->
    is_share cs share id /\ pk = gmul (share id) ffi_p1_generator) ->
  NoDup (map (fun x => x.1.1) l) ->
  size (good_ids (hash_bytes msg) (map (fun x => (x.2, x.1.2, x.1.1)) l)) =
  length (filter (valid_answer msg) l).
Proof.
  intros Hl Hnd.
  assert (good_ids (hash_bytes msg) (map (fun x => (x.2, x.1.2, x.1.1)) l) =
    list_to_set (map (fun x => x.1.1) (filter (valid_answer msg) l))) as Ho.
  { clear Hnd. induction l as [|[[id pk] s] l IH]; [done|]. simpl.
    destruct (Hl id pk s) as [(_ & _ & Hsec & _) ->]; [apply list_elem_of_here|].
    rewrite good_ids_cons, filter_cons.
    rewrite IH by (intros; eapply Hl, list_elem_of_further; eassumption).
    destruct (Signature_verify _ _ _) eqn:Hv.
    - rewrite decide_True; [done|]. exact (signature_unique _ _ _ Hsec Hv).
    - rewrite decide_False; [done|]. unfold valid_answer. simpl. intros ->.
      by rewrite signature_verifies in Hv. }
  rewrite Ho, size_list_to_set, length_map; [done|].
  eapply sublist_NoDup; [exact Hnd|]. apply fmap_sublist, sublist_filter.
Qed.

(** The outcome of [sign], for any replies. *)
Lemma committee_sign_outcome self msg attempts :
  share_committee self ->
  committee_sign self msg attempts =
  let results := collect_signatures self msg attempts in
  if (length results <? oc_threshold self)%nat
  then Err (InsufficientSignatures (length results) (oc_threshold self))
  else
    let valid := length (filter (valid_answer msg) results) in
    if (valid <? oc_threshold self)%nat
    then Err (InsufficientValidSignatures valid (oc_threshold self))
    else Ok (SecretKey_sign sk (hash_bytes msg), map (fun x => x.1.1) results).
Proof.
  intros (Ht & Hpos & Hops). unfold committee_sign. rewrite infinity_spec. cbn zeta.
  set (results := collect_signatures self msg attempts).
  assert (forall id pk s, (id, pk, s) ∈ results ->
    is_share cs share id /\ pk = gmul (share id) ffi_p1_generator) as Hres.
  { intros id pk s (operator & Hop & -> & _)%collect_spec. by apply Hops. }
  cbn [mbind outcome_bind]. rewrite Ht.
  rewrite (threshold_aggregate_shares cs share sk);
    rewrite ?length_map; try done.
  - rewrite zip_projections, good_ids_valid by (done || apply collect_ids).
    destruct (_ <? _)%nat; [done|]. cbn zeta. by destruct (_ <? _)%nat.
  - rewrite zip_projections.
    intros s pk id ([[id' pk'] s'] & [= -> -> ->] & Hin)%list_elem_of_fmap. by eapply Hres.
Qed.

(** An operator that answers with its signature: at its own node, or by a reply
    to one of the tries after replies that are no signature. *)
Definition answers (operator : TOperator) (id : Z) (msg : Hash256) (attempts : nat -> attempt)
  : Prop :=
  match operator with
  | Local o => Keypair_sk (lo_keypair o) = share id
  | Remote o =>
      is_addr_invalid (ro_base_address o) = false /\
      exists i, (i < 3)%nat /\
        attempts i = Replied (ser_sig (SecretKey_sign (share id) (hash_bytes msg))) /\
        forall k data, (k < i)%nat -> attempts k = Replied data -> de_sig data = None
  end.

Lemma sign_tries_answer `{!SigCodecRoundTrip} address request attempts s k n :
  (exists i, (k <= i < k + n)%nat /\ attempts i = Replied (ser_sig s) /\
    forall j data, (k <= j < i)%nat -> attempts j = Replied data -> de_sig data = None) ->
  snd (sign_tries address request attempts k n) = Ok s.
Proof.
  revert k. induction n as [|n IH]; intros k (i & Hi & Ha & Hbefore); [lia|].
  cbn [sign_tries]. destruct (decide (i = k)) as [->|Hne].
  - by rewrite Ha, de_ser_sig.
  - assert (snd (sign_tries address request attempts (S k) n) = Ok s) as Hr.
    { apply IH. exists i. split; [lia|]. split; [done|].
      intros j data Hj. apply Hbefore. lia. }
    destruct (sign_tries address request attempts (S k) n) as [sends r]. simpl in *.
    destruct (attempts k) as [| |data] eqn:Hk; [done..|].
    by rewrite (Hbefore k data) by (done || lia).
Qed.

Lemma answers_sign `{!SigCodecRoundTrip} operator id msg attempts :
  answers operator id msg attempts ->
  sign operator msg attempts = Ok (SecretKey_sign (share id) (hash_bytes msg)).
Proof.
  destruct operator as [o|o]; simpl.
  - intros Ho. unfold LocalOperator_sign. by rewrite Ho.
  - intros [Hv (i & Hi & Ha & Hb)]. unfold RemoteOperator_sign. rewrite Hv.
    apply sign_tries_answer. exists i. split; [lia|]. split; [done|].
    intros j data Hj. apply Hb. lia.
Qed.

(** Distinct operators that answer are valid answers. *)
Lemma answers_counted `{!SigCodecRoundTrip} self msg attempts l :
  NoDup l ->
  (forall id, id ∈ l -> exists operator, oc_operators self !! id = Some operator /\
    answers operator id msg (attempts id)) ->
  (length l <= length (filter (valid_answer msg) (collect_signatures self msg attempts)))%nat.
Proof.
  intros Hnd Hl.
  rewrite <- (length_map (fun x => x.1.1) (filter _ _)). apply submseteq_length.
  apply NoDup_submseteq; [done|]. intros id Hid.
  destruct (Hl id Hid) as (operator & Hop & Ha).
  apply list_elem_of_fmap.
  exists (id, public_key operator, SecretKey_sign (share id) (hash_bytes msg)).
  split; [done|]. apply list_elem_of_filter. split; [done|]. apply collect_spec.
  exists operator. split; [done|]. split; [done|]. by apply answers_sign.
Qed.

(** A threshold of operators that answer is enough. *)
Lemma committee_sign_quorum `{!SigCodecRoundTrip} self msg attempts quorum :
  share_committee self -> NoDup quorum -> (oc_threshold self <= length quorum)%nat ->
  (forall id, id ∈ quorum -> exists operator, oc_operators self !! id = Some operator /\
    answers operator id msg (attempts id)) ->
  committee_sign self msg attempts =
  Ok (SecretKey_sign sk (hash_bytes msg),
      map (fun x => x.1.1) (collect_signatures self msg attempts)).
Proof.
  intros Hself Hnd Hlen Hq. rewrite committee_sign_outcome by done. cbn zeta.
  pose proof (answers_counted self msg attempts quorum Hnd Hq) as Hcount.
  pose proof (length_filter (valid_answer msg) (collect_signatures self msg attempts)).
  by rewrite !(proj2 (Nat.ltb_ge _ _)) by lia.
Qed.
End shares.

(** ** Committees made from a definition *)

Section definition.
Context `{Blst}.
Context (def : OperatorCommitteeDefinition).

(** The lists of the definition have an entry for every operator. *)
Record definition_ok : Prop := {
  ok_ids : length (def_operator_ids def) = Z.to_nat (def_total def);
  ok_pks : length (def_operator_public_keys def) = Z.to_nat (def_total def);
  ok_nodes : length (def_node_public_keys def) = Z.to_nat (def_total def);
  ok_addresses : length (def_base_socket_addresses def) = Z.to_nat (def_total def);
  ok_distinct : NoDup (def_operator_ids def)
}.

(** The operator at a position. *)
Definition operator_at (i : nat) : option (Z * TOperator) :=
  id ← def_operator_ids def !! i;
  pk ← def_operator_public_keys def !! i;
  addr ← def_base_socket_addresses def !! i;
  Some (id, Remote (mkRemoteOperator (def_validator_id def) id pk (default invalid_addr addr))).

Lemma operator_at_total : definition_ok ->
  forall i, (i < Z.to_nat (def_total def))%nat -> is_Some (operator_at i).
Proof.
  intros [H1 H2 _ H3 _] i Hi. unfold operator_at.
  destruct (lookup_lt_is_Some_2 (def_operator_ids def) i) as [id ->]; [lia|].
  destruct (lookup_lt_is_Some_2 (def_operator_public_keys def) i) as [pk ->]; [lia|].
  destruct (lookup_lt_is_Some_2 (def_base_socket_addresses def) i) as [addr ->]; [lia|].
  by eexists.
Qed.

Lemma operator_at_id i id operator :
  operator_at i = Some (id, operator) -> def_operator_ids def !! i = Some id.
Proof.
  unfold operator_at. intros (id' & Hid & Hr)%bind_Some.
  apply bind_Some in Hr as (pk & _ & Hr). apply bind_Some in Hr as (addr & _ & Hr).
  by injection Hr as -> _.
Qed.

Lemma definition_loop_spec : definition_ok -> forall idxs committee,
  Forall (fun i => (i < Z.to_nat (def_total def))%nat) idxs ->
  exists committee',
    definition_loop def idxs committee = Ok committee' /\
    oc_threshold committee' = oc_threshold committee /\
    (forall id operator, oc_operators committee' !! id = Some operator ->
       (exists i, operator_at i = Some (id, operator)) \/
       oc_operators committee !! id = Some operator) /\
    (forall id operator, oc_operators committee !! id = Some operator ->
       (exists i, operator_at i = Some (id, operator)) ->
       oc_operators committee' !! id = Some operator) /\
    (forall i id operator, i ∈ idxs -> operator_at i = Some (id, operator) ->
       oc_operators committee' !! id = Some operator).
Proof.
  intros Hok. induction idxs as [|i idxs IH]; intros committee Hall.
  { exists committee. split; [done|]. split; [done|]. split; [auto|]. split; [auto|].
    by intros i id operator ?%elem_of_nil. }
  apply Forall_cons in Hall as [Hi Hall].
  destruct (operator_at_total Hok i Hi) as [[id operator] Hat].
  destruct (IH (add_operator committee id operator) Hall) as (c' & Hl & Ht & Ha & Hb & Hc).
  exists c'. pose proof Hat as Hat'. unfold operator_at in Hat'.
  apply bind_Some in Hat' as (id' & Hid & Hat'). apply bind_Some in Hat' as (pk & Hpk & Hat').
  apply bind_Some in Hat' as (addr & Haddr & Hat'). injection Hat' as -> <-.
  cbn [definition_loop]. rewrite Haddr, Hid, Hpk. cbn [unwrap mbind outcome_bind].
  split; [exact Hl|]. split; [done|].
  assert (forall id2 operator2, (exists j, operator_at j = Some (id2, operator2)) ->
    id2 = id -> operator_at i = Some (id2, operator2)) as Hsame.
  { intros id2 operator2 [j Hj] ->. pose proof (operator_at_id _ _ _ Hj) as Hj'.
    by assert (j = i) as -> by exact (NoDup_lookup _ _ _ _ (ok_distinct Hok) Hj' Hid). }
  split; [|split].
  - intros id2 operator2 [Hj|Hin]%Ha; [by left|]. simpl in Hin.
    apply lookup_insert_Some in Hin as [[<- <-]|[_ Hin]]; [left; by exists i|by right].
  - intros id2 operator2 Hin Hj. apply Hb; [|done]. simpl.
    destruct (decide (id2 = id)) as [->|Hne]; [|by rewrite lookup_insert_ne].
    rewrite lookup_insert_eq. pose proof (Hsame _ _ Hj eq_refl). congruence.
  - intros j id2 operator2 [->|Hin]%elem_of_cons Hj; [|by eapply Hc].
    rewrite Hat in Hj. injection Hj as <- <-. apply Hb; [|by exists i]. simpl.
    apply lookup_insert_eq.
Qed.

(** The committee has exactly the operators of the definition. *)
Lemma from_definition_spec : definition_ok ->
  exists committee,
    from_definition def = Ok committee /\
    oc_threshold committee = Z.to_nat (def_threshold def) /\
    forall id operator, oc_operators committee !! id = Some operator <->
      exists i, operator_at i = Some (id, operator).
Proof.
  intros Hok. unfold from_definition.
  destruct (definition_loop_spec Hok (seq 0 (Z.to_nat (def_total def)))
    (OperatorCommittee_new (def_validator_id def) (def_validator_public_key def)
      (Z.to_nat (def_threshold def)))) as (c' & Hl & Ht & Ha & _ & Hc).
  { apply Forall_forall. intros i Hi%elem_of_seq. lia. }
  exists c'. split; [done|]. split; [done|]. intros id operator. split.
  - intros [Hi|Hn]%Ha; [done|]. simpl in Hn. by rewrite lookup_empty in Hn.
  - intros [i Hi]. apply (Hc i); [|done]. apply elem_of_seq.
    pose proof (lookup_lt_Some _ _ _ (operator_at_id _ _ _ Hi)). rewrite (ok_ids Hok) in *. lia.
Qed.
End definition.

(** ** The leader *)

Section leader.
Context `{Blst}.

Lemma operator_leader_lookup self nonce id :
  size (oc_operators self) <> 0%nat ->
  get_leader self nonce = Ok id <->
  sorted_keys (oc_operators self)
    !! Z.to_nat (nonce mod Z.of_nat (length (sorted_keys (oc_operators self)))) = Some id.
Proof.
  intros Hs. unfold get_leader, operator_ids_sorted. fold (sorted_keys (oc_operators self)).
  rewrite sorted_keys_length. rewrite (proj2 (Z.eqb_neq _ 0)) by lia.
  destruct (_ !! _) as [x|]; simpl; split; congruence.
Qed.

Lemma operator_leader_total self nonce :
  size (oc_operators self) <> 0%nat ->
  exists id, get_leader self nonce = Ok id /\ is_Some (oc_operators self !! id).
Proof.
  intros Hs.
  assert (is_Some (sorted_keys (oc_operators self)
    !! Z.to_nat (nonce mod Z.of_nat (length (sorted_keys (oc_operators self)))))) as [id Hid].
  { apply lookup_lt_is_Some. rewrite sorted_keys_length.
    assert (0 < Z.of_nat (size (oc_operators self))) as Hpos by lia.
    pose proof (Z.mod_pos_bound nonce _ Hpos). lia. }
  exists id. split; [by apply operator_leader_lookup|].
  apply elem_of_sorted_keys. by eapply list_elem_of_lookup_2.
Qed.
End leader.

(** ** Properties *)

Section properties.
Context `{BlstLaws} `{Bincode} `{!SigCodec} `{!SigCodecRoundTrip}.

(** C23: [sign] of a committee whose operators hold shares of the key [sk] is
    decided by the answers alone, whatever the other operators reply: fewer answers
    than the threshold, or fewer signatures by the operator's share, give the
    matching error with the count; otherwise the result is the signature of the
    message under [sk].  When a threshold of operators answer, at their own node or
    to one of the three tries, the result is that signature, it verifies under
    the validator's key, and the operators that answered are among the reported. *)
Theorem committee_signs cs share sk self msg attempts :
  is_secret sk -> fr (horner cs 0) = fr sk -> share_committee cs share self ->
  (let results := collect_signatures self msg attempts in
   let valid := length (filter (valid_answer share msg) results) in
   committee_sign self msg attempts =
   if (length results <? oc_threshold self)%nat
   then Err (InsufficientSignatures (length results) (oc_threshold self))
   else if (valid <? oc_threshold self)%nat
   then Err (InsufficientValidSignatures valid (oc_threshold self))
   else Ok (SecretKey_sign sk (hash_bytes msg), map (fun x => x.1.1) results)) /\
  forall quorum,
    NoDup quorum -> (oc_threshold self <= length quorum)%nat ->
    (forall id, id ∈ quorum -> exists operator, oc_operators self !! id = Some operator /\
       answers share operator id msg (attempts id)) ->
    exists ids,
      committee_sign self msg attempts = Ok (SecretKey_sign sk (hash_bytes msg), ids) /\
      quorum ⊆ ids /\
      Signature_verify (SecretKey_sign sk (hash_bytes msg)) (gmul sk ffi_p1_generator)
        (hash_bytes msg) = true.
Proof.
  intros Hsk Hsk0 Hself.
  pose proof (committee_sign_outcome cs share sk Hsk Hsk0 self msg attempts Hself) as Ho.
  split; [exact Ho|]. intros quorum Hnd Hlen Hq.
  exists (map (fun x => x.1.1) (collect_signatures self msg attempts)).
  split; [|split; [|by apply signature_verifies]].
  2: { intros id Hid. destruct (Hq id Hid) as (operator & Hop & Ha). apply list_elem_of_fmap.
       eexists (id, _, _). split; [done|]. apply collect_spec. exists operator.
       split; [done|]. split; [done|]. by apply (answers_sign share). }
  by apply (committee_sign_quorum cs share sk Hsk Hsk0 self msg attempts quorum).
Qed.
End properties.

(** ** Concrete committees *)

(** Signatures of 96 bytes. *)
Section ideal_codec.
#[local] Existing Instance ideal_blst.

Definition ideal_sig_codec : SigCodec := {|
  ser_sig := Signature_serialize;
  de_sig bs := if bool_decide (length bs = 96%nat) then Signature_deserialize bs else None
|}.

Lemma ideal_sig_roundtrip : @SigCodecRoundTrip ideal_blst ideal_sig_codec.
Proof.
  split. intros s. cbn [de_sig ser_sig ideal_sig_codec Signature_serialize Signature_deserialize ideal_blst].
  rewrite bool_decide_true.
  - apply (f_equal Some), fr_bytes_roundtrip. lia.
  - unfold fr_bytes. apply Nat2Z.inj. by rewrite length_Z_to_little_endian by lia.
Qed.
End ideal_codec.

Section witnesses.
#[local] Existing Instances ideal_blst ideal_blst_laws ideal_bincode ideal_round_trip.
#[local] Existing Instances ideal_sig_codec ideal_sig_roundtrip.

(** Shares of the key 7 for the threshold 2: operator 1 is local, operator 2
    answers the second try, operator 3 has no address. *)
Definition demo_share (id : Z) : Z := 7 + 12 * id.
Definition demo_address : SocketAddr := mkSocketAddr 3232235777 26000.
Definition trio_committee : OperatorCommittee :=
  add_operator (add_operator (add_operator (OperatorCommittee_new 5 (fr 7) 2)
    1 (Local (mkLocalOperator 5 1 (mkKeypair _ (fr 19) 19) demo_address)))
    2 (Remote (mkRemoteOperator 5 2 (fr 31) demo_address)))
    3 (Remote (mkRemoteOperator 5 3 (fr 43) invalid_addr)).
Definition trio_replies (id : Z) (i : nat) : attempt :=
  if (id =? 2) && (i =? 1)%nat then Replied (ser_sig (SecretKey_sign 31 (hash_bytes 99)))
  else if (id =? 2) && (i =? 0)%nat then Replied [1; 2; 3]
  else TimedOut.

Lemma demo_share_is_share id : 0 < id < 4 -> is_share [7; 12] demo_share id.
Proof.
  intros Hi. pose proof modulus_bits. split; [unfold is_u64, u64_max; lia|]. split; [lia|].
  split; [unfold is_secret, demo_share; lia|]. apply (f_equal fr).
  unfold demo_share, horner. simpl. ring.
Qed.

Lemma demo_shares id operator :
  oc_operators trio_committee !! id = Some operator ->
  is_share [7; 12] demo_share id /\
  public_key operator = gmul (demo_share id) ffi_p1_generator.
Proof.
  assert (forall i k, 0 < i < 4 -> k = demo_share i ->
    is_share [7; 12] demo_share i /\ fr k = gmul (demo_share i) ffi_p1_generator) as Hs.
  { intros i k Hi ->. split; [by apply demo_share_is_share|apply generator_mul]. }
  simpl. rewrite !lookup_insert_Some, lookup_empty.
  intros [[<- <-]|[_ [[<- <-]|[_ [[<- <-]|[_ [=]]]]]]]; by apply Hs.
Qed.

Lemma committee_signs_witness :
  exists ids, committee_sign trio_committee 99 trio_replies =
    Ok (SecretKey_sign 7 (hash_bytes 99), ids).
Proof.
  destruct (committee_signs [7; 12] demo_share 7 trio_committee 99 trio_replies) as [_ Hq].
  - unfold is_secret. pose proof modulus_bits. lia.
  - apply (f_equal fr). reflexivity.
  - split; [reflexivity|]. split; [simpl; lia|]. exact demo_shares.
  - destruct (Hq [1; 2]) as (ids & Hids & _); [|simpl; lia| |by exists ids].
    + apply (bool_decide_unpack _). reflexivity.
    + intros id Hid. apply elem_of_cons in Hid as [->|Hid].
      { eexists. split; [reflexivity|]. reflexivity. }
      apply list_elem_of_singleton in Hid as ->. eexists. split; [reflexivity|].
      split; [reflexivity|]. exists 1%nat. split; [lia|]. split; [reflexivity|].
      intros [|k] data Hk Hd; [|lia]. injection Hd as <-. reflexivity.
Defined.
End witnesses.
