(* ===== verification/Notifications.v ===== *)
(** * The wait of an operator committee for the consensus

    Models the state shared by [HotstuffOperatorCommittee::new] and
    [HotstuffOperatorCommittee::consensus] in [src/validation/impls/hotstuff.rs]:
    the map from messages to [Notify] objects, the task that notifies the message
    of every committed transaction, and the calls that wait.  The calls and the
    task interleave at their [await] points, one [event] per atomic piece of code;
    a call may be dropped at any of them, as [src/validation/signing_method.rs]
    does after two slots. *)

From S2P Require Import Prelude.

Module Notifications.

(** ** State *)

(** [tokio::sync::Notify]: the permit that [notify_one] stores when nobody
    waits, and the waiting calls in order. *)
Record Notify := mkNotify { permit : bool; waiters : list nat }.

Inductive phase : Type :=
| Proposing   (** before [notified().await] *)
| Waiting     (** in the queue of the object *)
| Woken       (** picked by [notify_one], not yet polled *)
| Removing    (** after [notified().await], before the entry is removed *)
| Returned
| Dropped.
#[global] Instance phase_eq_dec : EqDecision phase.
Proof. solve_decision. Defined.

(** A call of [consensus] on a message, with its clone of the [Arc<Notify>]. *)
Record call := mkCall { c_msg : Z; c_notify : nat; c_phase : phase }.

(** [consensus_notifications], the objects by address, and the calls. *)
Record state := mkState {
  notes : gmap Z nat;
  objects : list Notify;
  calls : gmap nat call
}.

Definition new : state := mkState ∅ [] ∅.

Definition set_phase (s : state) (c : nat) (p : phase) : state :=
  mkState (notes s) (objects s)
    (alter (fun k => mkCall (c_msg k) (c_notify k) p) c (calls s)).

Definition set_object (s : state) (n : nat) (o : Notify) : state :=
  mkState (notes s) (<[n := o]> (objects s)) (calls s).

(** [Notify::notify_one] *)
Definition notify_one (s : state) (n : nat) : state :=
  match objects s !! n with
  | None => s
  | Some o =>
      match waiters o with
      | [] => set_object s n (mkNotify true [])
      | c :: cs => set_phase (set_object s n (mkNotify (permit o) cs)) c Woken
      end
  end.

(** ** Steps *)

Inductive event : Type :=
| Register (c : nat) (msg : Z)   (** a call starts *)
| Await (c : nat)                (** its proposals are out *)
| Resume (c : nat)               (** it is polled after a notification *)
| Finish (c : nat)               (** it removes the entry and returns *)
| Cancel (c : nat)               (** its future is dropped *)
| Achieved (msg : Z).            (** the task receives a message *)

(** The entry of the message, made when there is none. *)
Definition register (s : state) (c : nat) (msg : Z) : state :=
  match notes s !! msg with
  | Some n => mkState (notes s) (objects s) (<[c := mkCall msg n Proposing]> (calls s))
  | None =>
      let n := length (objects s) in
      mkState (<[msg := n]> (notes s)) (objects s ++ [mkNotify false []])
        (<[c := mkCall msg n Proposing]> (calls s))
  end.

(** The first poll of [notified()]: it takes the permit or queues. *)
Definition await (s : state) (c n : nat) (o : Notify) : state :=
  if permit o
  then set_phase (set_object s n (mkNotify false (waiters o))) c Removing
  else set_phase (set_object s n (mkNotify false (waiters o ++ [c]))) c Waiting.

Definition finish (s : state) (c : nat) (msg : Z) : state :=
  set_phase (mkState (delete msg (notes s)) (objects s) (calls s)) c Returned.

(** Dropping the future leaves the queue; a notification that was not yet seen
    goes to the next waiter. *)
Definition cancel (s : state) (c n : nat) (p : phase) : state :=
  let s' := set_phase s c Dropped in
  match p with
  | Waiting =>
      match objects s !! n with
      | Some o =>
          set_object s' n
            (mkNotify (permit o) (filter (fun c' => c' <> c) (waiters o)))
      | None => s'
      end
  | Woken => notify_one s' n
  | _ => s'
  end.

(** The task of [new] on one message. *)
Definition achieved (s : state) (msg : Z) : state :=
  match notes s !! msg with
  | Some n => notify_one s n
  | None => s
  end.

#[global] Instance event_eq_dec : EqDecision event.
Proof. solve_decision. Defined.

(** [None] when the event cannot happen in the state. *)
Definition step (s : state) (e : event) : option state :=
  match e with
  | Register c msg =>
      match calls s !! c with
      | Some _ => None
      | None => Some (register s c msg)
      end
  | Await c =>
      match calls s !! c with
      | Some (mkCall _ n Proposing) =>
          match objects s !! n with
          | Some o => Some (await s c n o)
          | None => None
          end
      | _ => None
      end
  | Resume c =>
      match calls s !! c with
      | Some (mkCall _ _ Woken) => Some (set_phase s c Removing)
      | _ => None
      end
  | Finish c =>
      match calls s !! c with
      | Some (mkCall msg _ Removing) => Some (finish s c msg)
      | _ => None
      end
  | Cancel c =>
      match calls s !! c with
      | Some (mkCall _ n p) =>
          if decide (p = Returned \/ p = Dropped) then None else Some (cancel s c n p)
      | None => None
      end
  | Achieved msg => Some (achieved s msg)
  end.

Fixpoint run (s : state) (es : list event) : option state :=
  match es with
  | [] => Some s
  | e :: es => match step s e with Some s' => run s' es | None => None end
  end.

Definition phase_of (s : state) (c : nat) : option phase :=
  match calls s !! c with Some k => Some (c_phase k) | None => None end.

(** The call has got a notification. *)
Definition passed (p : phase) : bool :=
  match p with Woken | Removing | Returned => true | _ => false end.

(** The call is over. *)
Definition over (p : phase) : bool :=
  match p with Returned | Dropped => true | _ => false end.

(** ** Facts *)

Lemma run_app s es1 es2 :
  run s (es1 ++ es2) = match run s es1 with Some s' => run s' es2 | None => None end.
Proof.
  revert s. induction es1 as [|e es1 IH]; intros s; [done|].
  simpl. by destruct (step s e).
Qed.

(** An invariant of the steps, given the events so far. *)
Lemma run_ind (P : list event -> state -> Prop) :
  (forall es s e s', P es s -> step s e = Some s' -> P (es ++ [e]) s') ->
  forall es es' s s', P es s -> run s es' = Some s' -> P (es ++ es') s'.
Proof.
  intros Hstep es es'. revert es. induction es' as [|e es' IH]; intros es s s' HP Hrun.
  - injection Hrun as <-. by rewrite app_nil_r.
  - simpl in Hrun. destruct (step s e) as [s1|] eqn:He; [|done].
    rewrite cons_middle, app_assoc. eapply IH, Hrun. by eapply Hstep.
Qed.

Lemma lookup_set_phase s c p c' :
  calls (set_phase s c p) !! c' =
  if decide (c' = c)
  then (fun k => mkCall (c_msg k) (c_notify k) p) <$> calls s !! c
  else calls s !! c'.
Proof.
  simpl. destruct (decide (c' = c)) as [->|].
  - by rewrite lookup_alter_eq.
  - by rewrite lookup_alter_ne.
Qed.

(** [own] gives the message that an object was made for. *)
Record wf (own : nat -> Z) (es : list event) (s : state) : Prop := {
  wf_notes m n : notes s !! m = Some n -> own n = m /\ (n < length (objects s))%nat;
  wf_calls c k : calls s !! c = Some k ->
    own (c_notify k) = c_msg k /\ (c_notify k < length (objects s))%nat;
  wf_permit n o : objects s !! n = Some o -> permit o = true -> Achieved (own n) ∈ es;
  wf_waiters n o c : objects s !! n = Some o -> c ∈ waiters o ->
    exists m, calls s !! c = Some (mkCall m n Waiting);
  wf_nodup n o : objects s !! n = Some o -> NoDup (waiters o);
  wf_passed c k : calls s !! c = Some k -> passed (c_phase k) = true ->
    Achieved (c_msg k) ∈ es
}.

Lemma wf_weaken own es s e : wf own es s -> wf own (es ++ [e]) s.
Proof.
  intros [Hn Hc Hp Hw Hd Hpa].
  constructor; eauto; intros; apply elem_of_app; left; eauto.
Qed.

Lemma wf_set_phase own es s c p :
  wf own es s ->
  (forall n o, objects s !! n = Some o -> c ∉ waiters o) ->
  (forall k, calls s !! c = Some k -> passed p = true -> Achieved (c_msg k) ∈ es) ->
  wf own es (set_phase s c p).
Proof.
  intros [Hn Hc Hp Hw Hd Hpa] Hc1 Hc2. constructor; auto; intros c' k;
    rewrite ?lookup_set_phase.
  - destruct (decide (c' = c)) as [->|]; [|apply Hc].
    destruct (calls s !! c) as [k'|] eqn:Hk; [|done]. intros [= <-]. by apply Hc in Hk.
  - intros m Ho Hm. rewrite lookup_set_phase. rewrite decide_False; [exact (Hw _ _ _ Ho Hm)|].
    intros ->. exact (Hc1 _ _ Ho Hm).
  - destruct (decide (c' = c)) as [->|]; [|apply Hpa].
    destruct (calls s !! c) as [k'|] eqn:Hk; [|done]. intros [= <-]. exact (Hc2 k' eq_refl).
Qed.

Lemma wf_set_object own es s n o :
  wf own es s ->
  (permit o = true -> Achieved (own n) ∈ es) ->
  NoDup (waiters o) ->
  (forall c, c ∈ waiters o -> exists m, calls s !! c = Some (mkCall m n Waiting)) ->
  wf own es (set_object s n o).
Proof.
  intros [Hn Hc Hp Hw Hd Hpa] H1 H2 H3. constructor; simpl; auto.
  - intros m n'. rewrite length_insert. apply Hn.
  - intros c k. rewrite length_insert. apply Hc.
  - intros n' o' [(-> & -> & _)|[? ?]]%list_lookup_insert_Some; [done|by eapply Hp].
  - intros n' o' c [(-> & -> & _)|[? ?]]%list_lookup_insert_Some; [auto|by eapply Hw].
  - intros n' o' [(-> & -> & _)|[? ?]]%list_lookup_insert_Some; [done|by eapply Hd].
Qed.

(** Whoever queues at an object queues at no other. *)
Lemma not_waiting own es s c :
  wf own es s -> (forall m n, calls s !! c <> Some (mkCall m n Waiting)) ->
  forall n o, objects s !! n = Some o -> c ∉ waiters o.
Proof. intros Hwf Hc n o Ho Hin. destruct (wf_waiters _ _ _ Hwf _ _ _ Ho Hin). by eapply Hc. Qed.

Lemma left_queue own es s c m n o :
  wf own es s -> calls s !! c = Some (mkCall m n Waiting) -> c ∉ waiters o ->
  forall n' o', objects (set_object s n o) !! n' = Some o' -> c ∉ waiters o'.
Proof.
  intros Hwf Hc Ho n' o' [(-> & -> & _)|[Hne Ho']]%list_lookup_insert_Some; [done|].
  intros Hin. destruct (wf_waiters _ _ _ Hwf _ _ _ Ho' Hin) as [m' Hc']. congruence.
Qed.

Lemma wf_notify_one own es s n :
  wf own es s -> Achieved (own n) ∈ es -> wf own es (notify_one s n).
Proof.
  intros Hwf Hn. unfold notify_one. destruct (objects s !! n) as [o|] eqn:Ho; [|done].
  pose proof (wf_nodup _ _ _ Hwf _ _ Ho) as Hd.
  pose proof (fun c => wf_waiters _ _ _ Hwf _ _ c Ho) as Hw.
  destruct (waiters o) as [|c cs].
  - apply wf_set_object; [done..|constructor|]. by intros c Hc%elem_of_nil.
  - apply NoDup_cons in Hd as [Hc Hd].
    destruct (Hw c (list_elem_of_here _ _)) as [m Hm].
    assert (wf own es (set_object s n (mkNotify (permit o) cs))) as Hwf'.
    { apply wf_set_object; [done| |done|].
      - exact (wf_permit _ _ _ Hwf _ _ Ho).
      - intros c' Hc'. by apply Hw, list_elem_of_further. }
    apply wf_set_phase; [done| |].
    + by eapply left_queue.
    + simpl. intros k Hk _. apply (wf_calls _ _ _ Hwf) in Hm as Hown. simplify_eq/=.
      by destruct Hown as [<- _].
Qed.

Lemma wf_register own es s c m :
  wf own es s -> calls s !! c = None -> exists own', wf own' es (register s c m).
Proof.
  intros [Hn Hc Hp Hw Hd Hpa] Hfree. unfold register.
  destruct (notes s !! m) as [n|] eqn:Hm.
  - exists own. destruct (Hn _ _ Hm) as [Hown Hlt]. constructor; simpl; auto.
    + intros c' k [[<- <-]|[? ?]]%lookup_insert_Some; [done|by eapply Hc].
    + intros n' o c' Ho Hin. destruct (Hw _ _ _ Ho Hin) as [m' Hm'].
      exists m'. rewrite lookup_insert_ne; [done|]. intros ->. congruence.
    + intros c' k [[<- <-]|[? ?]]%lookup_insert_Some; [done|by eapply Hpa].
  - set (n := length (objects s)).
    exists (fun x => if decide (x = n) then m else own x). constructor; simpl.
    + intros m' n'. rewrite length_app. intros [[<- <-]|[? Hm']]%lookup_insert_Some.
      * rewrite decide_True by done. simpl. split; [done|lia].
      * destruct (Hn _ _ Hm'). rewrite decide_False by (unfold n; lia).
        simpl. split; [done|lia].
    + intros c' k. rewrite length_app. intros [[<- <-]|[? Hk]]%lookup_insert_Some; simpl.
      * rewrite decide_True by done. split; [done|lia].
      * destruct (Hc _ _ Hk). rewrite decide_False by (unfold n; lia). split; [done|lia].
    + intros n' o [Ho|[_ Ho]]%lookup_app_Some.
      * rewrite decide_False; [by apply Hp|]. apply lookup_lt_Some in Ho. unfold n. lia.
      * apply list_lookup_singleton_Some in Ho as [_ <-]. done.
    + intros n' o c' [Ho|[_ Ho]]%lookup_app_Some Hin.
      * destruct (Hw _ _ _ Ho Hin) as [m' Hm'].
        exists m'. rewrite lookup_insert_ne; [done|]. intros ->. congruence.
      * apply list_lookup_singleton_Some in Ho as [_ <-]. by apply elem_of_nil in Hin.
    + intros n' o [Ho|[_ Ho]]%lookup_app_Some; [by eapply Hd|].
      apply list_lookup_singleton_Some in Ho as [_ <-]. constructor.
    + intros c' k [[<- <-]|[? ?]]%lookup_insert_Some; [done|by eapply Hpa].
Qed.

Lemma wf_await own es s c m n o :
  wf own es s -> calls s !! c = Some (mkCall m n Proposing) -> objects s !! n = Some o ->
  wf own es (await s c n o).
Proof.
  intros Hwf Hc Ho. unfold await.
  pose proof (fun Hn => not_waiting _ _ _ c Hwf Hn) as Hnw.
  pose proof (fun c => wf_waiters _ _ _ Hwf _ _ c Ho) as Hw.
  assert (forall n o, objects s !! n = Some o -> c ∉ waiters o) as Hout.
  { apply Hnw. intros ? ?. by rewrite Hc. }
  destruct (permit o) eqn:Hp.
  - apply (wf_set_phase _ _ (set_object s n _)).
    + apply wf_set_object; [done|done|exact (wf_nodup _ _ _ Hwf _ _ Ho)|done].
    + intros n' o' [(<- & <- & _)|[? Ho']]%list_lookup_insert_Some; [exact (Hout _ _ Ho)|].
      exact (Hout _ _ Ho').
    + simpl. intros k Hk _. replace (c_msg k) with (own n); [by eapply wf_permit|].
      apply (wf_calls _ _ _ Hwf) in Hk as Hk'. simplify_eq/=. tauto.
  - apply (wf_set_object _ _ (set_phase s c Waiting)); simpl; [|done| |].
    + by apply wf_set_phase.
    + apply NoDup_app. split; [exact (wf_nodup _ _ _ Hwf _ _ Ho)|]. split; [|apply NoDup_singleton].
      intros c' Hc' ->%list_elem_of_singleton. by eapply Hout.
    + intros c' [Hin| ->%list_elem_of_singleton]%elem_of_app.
      * destruct (Hw _ Hin) as [m' Hm']. exists m'.
        rewrite lookup_alter_ne; [done|]. intros ->. congruence.
      * exists m. by rewrite lookup_alter_eq, Hc.
Qed.

Lemma wf_drop own es s c m n p :
  wf own es s -> calls s !! c = Some (mkCall m n p) -> p <> Waiting ->
  wf own es (set_phase s c Dropped).
Proof.
  intros Hwf Hc Hp. apply wf_set_phase; [done| |done]. apply (not_waiting _ _ _ c Hwf).
  intros ? ?. rewrite Hc. congruence.
Qed.

Lemma wf_cancel own es s c m n p :
  wf own es s -> calls s !! c = Some (mkCall m n p) -> wf own es (cancel s c n p).
Proof.
  intros Hwf Hc. unfold cancel.
  pose proof (wf_drop _ _ _ _ _ _ _ Hwf Hc) as Hd.
  destruct p; try by apply Hd.
  - destruct (wf_calls _ _ _ Hwf _ _ Hc) as [_ Hlt]. simpl in Hlt.
    destruct (objects s !! n) as [o|] eqn:Ho; [|apply lookup_ge_None in Ho; lia].
    apply (wf_set_phase _ _ (set_object s n _)); [| |done].
    + apply wf_set_object; [done|exact (wf_permit _ _ _ Hwf _ _ Ho)| |].
      * apply NoDup_filter. exact (wf_nodup _ _ _ Hwf _ _ Ho).
      * intros c' [_ Hin]%list_elem_of_filter. by eapply wf_waiters.
    + eapply left_queue; [done|done|]. intros [Hne _]%list_elem_of_filter. done.
  - apply wf_notify_one; [by apply Hd|].
    pose proof (proj1 (wf_calls _ _ _ Hwf _ _ Hc)) as Hown. simpl in Hown. rewrite Hown.
    exact (wf_passed _ _ _ Hwf _ _ Hc eq_refl).
Qed.

Lemma wf_new own : wf own [] new.
Proof. by constructor. Qed.

Lemma wf_step own es s e s' :
  wf own es s -> step s e = Some s' -> exists own', wf own' (es ++ [e]) s'.
Proof.
  intros Hwf%(wf_weaken _ _ _ e) Hs. destruct e as [c m|c|c|c|c|m]; simpl in Hs.
  - destruct (calls s !! c) eqn:Hc; [done|]. injection Hs as <-. by eapply wf_register.
  - destruct (calls s !! c) as [[m n []]|] eqn:Hc; try done.
    destruct (objects s !! n) as [o|] eqn:Ho; [|done]. injection Hs as <-.
    exists own. by eapply wf_await.
  - destruct (calls s !! c) as [[m n []]|] eqn:Hc; try done. injection Hs as <-.
    exists own. apply wf_set_phase; [done| |].
    + apply (not_waiting _ _ _ _ Hwf). intros ? ?. by rewrite Hc.
    + intros k Hk _. eapply wf_passed; [done|exact Hk|]. by simplify_eq.
  - destruct (calls s !! c) as [[m n []]|] eqn:Hc; try done. injection Hs as <-.
    exists own.
    apply (wf_set_phase _ _ (mkState (delete m (notes s)) (objects s) (calls s))).
    + destruct Hwf as [Hn ? ? ? ? ?]. constructor; simpl; auto.
      intros m' n' [_ Hm']%lookup_delete_Some. by apply Hn.
    + apply (not_waiting _ _ _ _ Hwf). intros ? ?. by rewrite Hc.
    + intros k Hk _. eapply wf_passed; [done|exact Hk|]. by simplify_eq/=.
  - destruct (calls s !! c) as [[m n p]|] eqn:Hc; [|done].
    destruct (decide _); [done|]. injection Hs as <-. exists own. by eapply wf_cancel.
  - injection Hs as <-. exists own. unfold achieved.
    destruct (notes s !! m) as [n|] eqn:Hm; [|done].
    apply wf_notify_one; [done|]. rewrite (proj1 (wf_notes _ _ _ Hwf _ _ Hm)).
    apply elem_of_app. right. by apply list_elem_of_singleton.
Qed.

Lemma wf_run es s : run new es = Some s -> exists own, wf own es s.
Proof.
  apply (run_ind (fun es s => exists own, wf own es s)) with (es := []).
  - intros es' s1 e s2 [own Hwf] Hs. by eapply wf_step.
  - exists (fun _ => 0). apply wf_new.
Qed.

(** A notification changes the phase of a waiting call only. *)
Lemma notify_one_calls own es s n c k :
  wf own es s -> calls s !! c = Some k ->
  exists p, calls (notify_one s n) !! c = Some (mkCall (c_msg k) (c_notify k) p) /\
    (p = c_phase k \/ c_phase k = Waiting /\ p = Woken /\ c_notify k = n).
Proof.
  intros Hwf Hc. destruct k as [m n' p]. simpl. unfold notify_one.
  destruct (objects s !! n) as [o|] eqn:Ho; [|exists p; auto].
  destruct (waiters o) as [|c' cs] eqn:Hw; [exists p; auto|].
  rewrite lookup_set_phase. simpl. destruct (decide (c = c')) as [<-|]; [|exists p; auto].
  rewrite Hc. simpl. exists Woken. split; [done|].
  destruct (wf_waiters _ _ _ Hwf _ _ c Ho) as [m' Hm']; [rewrite Hw; apply list_elem_of_here|].
  simplify_eq. auto.
Qed.

(** The call of a step other than its own registration keeps its message and
    object; a call that is over stays so, and a notified call stays notified
    unless it is dropped; a call returns by its last step. *)
Definition moved (e : event) (c : nat) (k k' : call) : Prop :=
  c_msg k' = c_msg k /\ c_notify k' = c_notify k /\
  (over (c_phase k) = true -> k' = k) /\
  (passed (c_phase k) = true -> e <> Cancel c -> passed (c_phase k') = true) /\
  (c_phase k' = Returned -> c_phase k = Returned \/ e = Finish c).

Lemma moved_refl e c k : moved e c k k.
Proof. unfold moved. auto 10. Qed.
#[local] Hint Resolve moved_refl : core.

Lemma set_phase_moved e s c p c' k :
  calls s !! c' = Some k -> (c' = c -> over (c_phase k) = false) ->
  (c' = c -> e <> Cancel c -> passed (c_phase k) = true -> passed p = true) ->
  (c' = c -> p = Returned -> e = Finish c) ->
  exists k', calls (set_phase s c p) !! c' = Some k' /\ moved e c' k k'.
Proof.
  intros Hk Ho Hp Hr. rewrite lookup_set_phase. destruct (decide (c' = c)) as [->|].
  - rewrite Hk. eexists. split; [done|]. unfold moved. simpl.
    split; [done|]. split; [done|]. rewrite Ho by done. split; [done|]. split; auto.
  - exists k. auto.
Qed.

Lemma notify_one_moved e own es s n c k :
  wf own es s -> calls s !! c = Some k ->
  exists k', calls (notify_one s n) !! c = Some k' /\ moved e c k k'.
Proof.
  intros Hwf Hc. destruct (notify_one_calls _ _ _ n _ _ Hwf Hc) as (p & Hp & Hw).
  eexists. split; [exact Hp|]. unfold moved. simpl. destruct k as [m n' ph]. simpl in *.
  destruct Hw as [->|(-> & -> & _)]; auto 6.
  split; [done|]. split; [done|]. by split; [|split].
Qed.

Lemma step_moved own es s e s' c k :
  wf own es s -> step s e = Some s' -> calls s !! c = Some k ->
  exists k', calls s' !! c = Some k' /\ moved e c k k'.
Proof.
  intros Hwf Hs Hk. destruct e as [c' m|c'|c'|c'|c'|m]; simpl in Hs.
  - destruct (calls s !! c') eqn:Hc; [done|]. injection Hs as <-. exists k.
    split; [|done]. unfold register.
    destruct (notes s !! m); simpl; (rewrite lookup_insert_ne; [done|]; congruence).
  - destruct (calls s !! c') as [[m n []]|] eqn:Hc; try done.
    destruct (objects s !! n) as [o|] eqn:Ho; [|done]. injection Hs as <-. unfold await.
    destruct (permit o); (apply set_phase_moved; [done|..]); intros ->; by simplify_eq/=.
  - destruct (calls s !! c') as [[m n []]|] eqn:Hc; try done. injection Hs as <-.
    apply set_phase_moved; [done|..]; intros ->; by simplify_eq/=.
  - destruct (calls s !! c') as [[m n []]|] eqn:Hc; try done. injection Hs as <-.
    apply set_phase_moved; [done|..]; intros ->; by simplify_eq/=.
  - destruct (calls s !! c') as [[m n p]|] eqn:Hc; [|done].
    destruct (decide _) as [|Hlive]; [done|]. injection Hs as <-.
    assert (exists k', calls (set_phase s c' Dropped) !! c = Some k' /\
      moved (Cancel c') c k k') as (k' & Hk' & Hm).
    { apply set_phase_moved; [done|..]; intros ->; [|done|done]. simplify_eq/=. destruct p; try done; exfalso; auto. }
    unfold cancel. destruct p; try by exists k'.
    + destruct (objects s !! n); by exists k'.
    + assert (wf own es (set_phase s c' Dropped)) as Hwf' by by eapply wf_drop.
      destruct (notify_one_moved (Cancel c') _ _ _ n _ _ Hwf' Hk') as (k2 & Hk2 & Hm2).
      exists k2. split; [done|]. destruct Hm as (E1 & E2 & E3 & E4 & E5), Hm2 as (F1 & F2 & F3 & F4 & F5).
      unfold moved. rewrite F1, F2. split; [done|]. split; [done|].
      split; [intros Ho; rewrite F3 by (by rewrite E3); auto|]. split; [auto|].
      intros [Hr|]%F5; auto.
  - injection Hs as <-. unfold achieved. destruct (notes s !! m); [|by exists k].
    by eapply notify_one_moved.
Qed.

Lemma notify_one_none s n c : calls s !! c = None -> calls (notify_one s n) !! c = None.
Proof.
  intros Hc. unfold notify_one. destruct (objects s !! n) as [o|]; [|done].
  destruct (waiters o) as [|c' cs]; [done|]. rewrite lookup_set_phase. simpl.
  destruct (decide (c = c')) as [<-|]; [by rewrite Hc|done].
Qed.

Lemma set_phase_none s c p c' : calls s !! c' = None -> calls (set_phase s c p) !! c' = None.
Proof.
  intros Hc. rewrite lookup_set_phase. destruct (decide (c' = c)) as [->|]; [by rewrite Hc|done].
Qed.

(** A call appears by its registration. *)
Lemma step_new s e s' c k :
  step s e = Some s' -> calls s' !! c = Some k -> calls s !! c = None ->
  e = Register c (c_msg k) /\
  (notes s !! c_msg k = Some (c_notify k) \/ c_notify k = length (objects s)).
Proof.
  intros Hs Hk Hc.
  assert (calls s' !! c <> None) as Hsome by (by rewrite Hk).
  destruct e as [c' m|c'|c'|c'|c'|m]; simpl in Hs.
  - destruct (calls s !! c'); [done|]. injection Hs as <-. unfold register in Hk.
    destruct (notes s !! m) eqn:Hm; simpl in Hk;
      apply lookup_insert_Some in Hk as [[-> <-]|[_ Hk]]; simpl; auto; congruence.
  - destruct (calls s !! c') as [[m n []]|] eqn:Hc'; try done.
    destruct (objects s !! n) as [o|]; [|done]. injection Hs as <-.
    destruct Hsome. unfold await. destruct (permit o); by apply set_phase_none.
  - destruct (calls s !! c') as [[m n []]|] eqn:Hc'; try done. injection Hs as <-.
    destruct Hsome. by apply set_phase_none.
  - destruct (calls s !! c') as [[m n []]|] eqn:Hc'; try done. injection Hs as <-.
    destruct Hsome. by apply set_phase_none.
  - destruct (calls s !! c') as [[m n p]|] eqn:Hc'; [|done].
    destruct (decide _); [done|]. injection Hs as <-. destruct Hsome.
    pose proof (set_phase_none s c' Dropped c Hc) as Hd. unfold cancel.
    destruct p; try done; [by destruct (objects s !! n)|by apply notify_one_none].
  - injection Hs as <-. destruct Hsome. unfold achieved.
    destruct (notes s !! m); [by apply notify_one_none|done].
Qed.

(** The events that may change the object [n] or the calls that wait for it. *)
Definition touches (e : event) (s : state) (n : nat) : Prop :=
  match e with
  | Await c | Cancel c =>
      exists k, calls s !! c = Some k /\ c_notify k = n /\ over (c_phase k) = false
  | Achieved m => notes s !! m = Some n
  | _ => False
  end.

Lemma notify_one_object s n n' :
  n' <> n -> objects (notify_one s n') !! n = objects s !! n.
Proof.
  intros Hn. unfold notify_one. destruct (objects s !! n') as [o|]; [|done].
  destruct (waiters o); simpl; by rewrite list_lookup_insert_ne.
Qed.

Lemma notify_one_other own es s n n' c k :
  wf own es s -> calls s !! c = Some k -> c_notify k = n -> n' <> n ->
  calls (notify_one s n') !! c = Some k.
Proof.
  intros Hwf Hc Hn Hne. destruct (notify_one_calls _ _ _ n' _ _ Hwf Hc) as (p & Hp & He).
  rewrite Hp. destruct k as [m n1 ph], He as [->|(_ & _ & He)]; [done|]. simpl in *. congruence.
Qed.

Lemma set_phase_ne s c p c' : c' <> c -> calls (set_phase s c p) !! c' = calls s !! c'.
Proof. intros Hne. by rewrite lookup_set_phase, decide_False. Qed.

Lemma set_phase_self s c p m n p' :
  calls s !! c = Some (mkCall m n p') -> calls (set_phase s c p) !! c = Some (mkCall m n p).
Proof. intros Hc. by rewrite lookup_set_phase, decide_True, Hc. Qed.

Lemma step_untouched own es s e s' n :
  wf own es s -> step s e = Some s' -> (n < length (objects s))%nat -> ~ touches e s n ->
  objects s' !! n = objects s !! n /\
  forall c k, calls s !! c = Some k -> c_notify k = n -> e <> Resume c -> e <> Finish c ->
    calls s' !! c = Some k.
Proof.
  intros Hwf Hs Hlt Ht. destruct e as [c' m|c'|c'|c'|c'|m]; simpl in Hs, Ht.
  - destruct (calls s !! c') eqn:Hc; [done|]. injection Hs as <-. unfold register.
    split; [destruct (notes s !! m); [done|]; by apply lookup_app_l|].
    intros c k Hk _ _ _.
    destruct (notes s !! m); simpl; (rewrite lookup_insert_ne; [done|congruence]).
  - destruct (calls s !! c') as [[m n' []]|] eqn:Hc; try done.
    destruct (objects s !! n') as [o|]; [|done]. injection Hs as <-.
    assert (n' <> n) as Hne by (intros ->; apply Ht; by eexists).
    unfold await. split; [destruct (permit o); by apply list_lookup_insert_ne|].
    intros c k Hk Hn _ _. destruct (permit o); (rewrite set_phase_ne; [done|]);
      intros ->; simplify_eq/=; done.
  - destruct (calls s !! c') as [[m n' []]|] eqn:Hc; try done. injection Hs as <-.
    split; [done|]. intros c k Hk _ He _. rewrite set_phase_ne; congruence.
  - destruct (calls s !! c') as [[m n' []]|] eqn:Hc; try done. injection Hs as <-.
    split; [done|]. intros c k Hk _ _ He.
    unfold finish. rewrite set_phase_ne; [done|congruence].
  - destruct (calls s !! c') as [[m n' p]|] eqn:Hc; [|done].
    destruct (decide _) as [|Hlive]; [done|]. injection Hs as <-.
    assert (n' <> n) as Hne.
    { intros ->. apply Ht. eexists. split; [done|]. split; [done|]. destruct p; try done; exfalso; auto. }
    assert (forall c k, calls s !! c = Some k -> c_notify k = n ->
      calls (set_phase s c' Dropped) !! c = Some k) as Hd.
    { intros c k Hk Hn. rewrite set_phase_ne; [done|]. intros ->. by simplify_eq/=. }
    unfold cancel. destruct p; try (split; [done|intros; by apply Hd]).
    + destruct (objects s !! n'); simpl; [|by auto].
      rewrite list_lookup_insert_ne by done. auto.
    + rewrite notify_one_object by done. split; [done|]. intros c k Hk Hn _ _.
      eapply notify_one_other; [by eapply wf_drop|by apply Hd|done|done].
  - injection Hs as <-. unfold achieved. destruct (notes s !! m) as [n'|] eqn:Hm; [|by auto].
    assert (n' <> n) by congruence. rewrite notify_one_object by done. split; [done|].
    intros c k Hk Hn _ _. by eapply notify_one_other.
Qed.

Lemma notify_one_notes s n : notes (notify_one s n) = notes s.
Proof.
  unfold notify_one. destruct (objects s !! n) as [o|]; [|done]. by destruct (waiters o).
Qed.

(** An entry goes when a call on its message returns; a new entry is a new object. *)
Lemma step_notes s e s' m :
  step s e = Some s' ->
  notes s' !! m = notes s !! m \/
  (exists c n, e = Finish c /\ calls s !! c = Some (mkCall m n Removing) /\ notes s' !! m = None) \/
  (exists c, e = Register c m /\ notes s !! m = None /\
    notes s' !! m = Some (length (objects s))).
Proof.
  intros Hs. destruct e as [c' m'|c'|c'|c'|c'|m']; simpl in Hs.
  - destruct (calls s !! c') eqn:Hc; [done|]. injection Hs as <-. unfold register.
    destruct (notes s !! m') as [n|] eqn:Hm; [by left|]. simpl.
    destruct (decide (m' = m)) as [->|]; [|left; by apply lookup_insert_ne].
    right. right. exists c'. by rewrite lookup_insert_eq.
  - destruct (calls s !! c') as [[? n' []]|] eqn:Hc; try done.
    destruct (objects s !! n') as [o|]; [|done]. injection Hs as <-.
    left. unfold await. by destruct (permit o).
  - destruct (calls s !! c') as [[? n' []]|] eqn:Hc; try done. injection Hs as <-. by left.
  - destruct (calls s !! c') as [[m1 n' []]|] eqn:Hc; try done. injection Hs as <-. simpl.
    destruct (decide (m1 = m)) as [->|]; [|left; by apply lookup_delete_ne].
    right. left. exists c', n'. by rewrite lookup_delete_eq.
  - destruct (calls s !! c') as [[? n' p]|] eqn:Hc; [|done].
    destruct (decide _); [done|]. injection Hs as <-. left. unfold cancel.
    destruct p; try done; [by destruct (objects s !! n')|by rewrite notify_one_notes].
  - injection Hs as <-. left. unfold achieved.
    destruct (notes s !! m'); [by rewrite notify_one_notes|done].
Qed.


(** ** A call that is alone on its message *)

Definition others_over (c : nat) (m : Z) (n : nat) (s : state) : Prop :=
  forall c' k, c' <> c -> calls s !! c' = Some k -> c_msg k = m \/ c_notify k = n ->
    over (c_phase k) = true.

(** The call [c] on [m], with the object [n], after the events [es]. *)
Definition lone (c : nat) (m : Z) (n : nat) (es : list event) (s : state) : Prop :=
  others_over c m n s /\
  exists p, calls s !! c = Some (mkCall m n p) /\
  match p with
  | Proposing =>
      notes s !! m = Some n /\ Await c ∉ es /\
      exists b, objects s !! n = Some (mkNotify b []) /\ (Achieved m ∈ es -> b = true)
  | Waiting =>
      notes s !! m = Some n /\ Achieved m ∉ es /\ objects s !! n = Some (mkNotify false [c])
  | Dropped => False
  | _ => True
  end.

Lemma others_over_step own es s e s' c m n p :
  wf own es s -> step s e = Some s' -> calls s !! c = Some (mkCall m n p) ->
  (forall c', e <> Register c' m) -> others_over c m n s -> others_over c m n s'.
Proof.
  intros Hwf Hs Hc He Ho c' k' Hne Hk' Hm.
  destruct (wf_calls _ _ _ Hwf _ _ Hc) as [Hown Hlt]. simpl in Hown, Hlt.
  destruct (calls s !! c') as [k|] eqn:Hk.
  - destruct (step_moved _ _ _ _ _ _ _ Hwf Hs Hk) as (k2 & Hk2 & E1 & E2 & E3 & _).
    rewrite Hk' in Hk2. injection Hk2 as <-. rewrite E1, E2 in Hm.
    pose proof (Ho _ _ Hne Hk Hm) as Hover. by rewrite E3.
  - destruct (step_new _ _ _ _ _ Hs Hk' Hk) as [-> Hn].
    assert (c_msg k' <> m) as Hmne by (intros Heq; by apply (He c'); rewrite Heq).
    destruct Hm as [|Hm]; [done|]. destruct Hn as [Hn|Hn]; [|lia].
    apply (wf_notes _ _ _ Hwf) in Hn as [Hn _]. congruence.
Qed.

(** The entry of a call that has not been notified stays. *)
Lemma entry_stays s e s' c m n p :
  step s e = Some s' -> calls s !! c = Some (mkCall m n p) -> p <> Removing ->
  others_over c m n s -> notes s !! m = Some n -> notes s' !! m = Some n.
Proof.
  intros Hs Hc Hp Ho Hm.
  destruct (step_notes _ _ _ m Hs) as [->|[(c' & n' & -> & Hc' & _)|(c' & _ & Hn & _)]];
    [done| |congruence].
  destruct (decide (c' = c)) as [->|Hne]; [congruence|].
  pose proof (Ho _ _ Hne Hc' (or_introl eq_refl)). done.
Qed.

Lemma lone_touches own es s e c m n p :
  wf own es s -> calls s !! c = Some (mkCall m n p) -> others_over c m n s ->
  touches e s n -> e <> Cancel c -> e = Await c \/ e = Achieved m.
Proof.
  intros Hwf Hc Ho Ht He.
  destruct (wf_calls _ _ _ Hwf _ _ Hc) as [Hown _]. simpl in Hown.
  assert (forall c' k, calls s !! c' = Some k -> c_notify k = n ->
    over (c_phase k) = false -> c' = c) as Hu.
  { intros c' k Hk Hn Hl. destruct (decide (c' = c)); [done|].
    by rewrite (Ho c' k) in Hl by auto. }
  destruct e as [|c'|c'|c'|c'|m']; try done; simpl in Ht.
  - left. destruct Ht as (k & Hk & Hn & Hl). by rewrite (Hu c' k).
  - destruct Ht as (k & Hk & Hn & Hl). by rewrite (Hu c' k) in He.
  - right. apply (wf_notes _ _ _ Hwf) in Ht as [Ht _]. congruence.
Qed.

Lemma lone_step own es0 es s e s' c m n :
  wf own es0 s -> step s e = Some s' -> e <> Cancel c -> (forall c', e <> Register c' m) ->
  lone c m n es s -> lone c m n (es ++ [e]) s'.
Proof.
  intros Hwf Hs Hcan Hreg [Ho (p & Hc & Hp)].
  split; [by eapply others_over_step|].
  destruct (wf_calls _ _ _ Hwf _ _ Hc) as [Hown Hlt]. simpl in Hown, Hlt.
  destruct (passed p) eqn:Hpass.
  { destruct (step_moved _ _ _ _ _ _ _ Hwf Hs Hc) as ([m' n' p'] & Hk' & E1 & E2 & _ & E4 & _).
    simpl in *. subst m' n'. exists p'. split; [done|].
    pose proof (E4 Hpass Hcan). by destruct p'. }
  pose proof (entry_stays _ _ _ _ _ _ _ Hs Hc) as Hent.
  destruct (decide (e = Await c)) as [->|Hna].
  { simpl in Hs. rewrite Hc in Hs. destruct p; try done.
    destruct Hp as (Hm & Haw & b & Hob & Hb). rewrite Hob in Hs. injection Hs as <-.
    unfold await. simpl. destruct b.
    - exists Removing. split; [|done]. by eapply set_phase_self.
    - exists Waiting. split; [by eapply set_phase_self|]. split; [done|].
      split; [intros [Hin|Hin%list_elem_of_singleton]%elem_of_app; [by apply Hb in Hin|done]|].
      by apply list_lookup_insert_eq. }
  destruct (decide (e = Achieved m)) as [->|Hnm].
  { simpl in Hs. unfold achieved in Hs. destruct p; try done.
    - destruct Hp as (Hm & Haw & b & Hob & Hb). rewrite Hm in Hs. unfold notify_one in Hs.
      rewrite Hob in Hs. injection Hs as <-. exists Proposing. split; [done|].
      split; [done|]. split; [by intros [|?%list_elem_of_singleton]%elem_of_app|].
      exists true. split; [by apply list_lookup_insert_eq|done].
    - destruct Hp as (Hm & Haw & Hob). rewrite Hm in Hs. unfold notify_one in Hs.
      rewrite Hob in Hs. injection Hs as <-. exists Woken. split; [|done].
      by eapply set_phase_self. }
  destruct (step_untouched _ _ _ _ _ n Hwf Hs Hlt) as [Hob Hcall].
  { intros Ht. by destruct (lone_touches _ _ _ _ _ _ _ _ Hwf Hc Ho Ht Hcan). }
  assert (calls s' !! c = Some (mkCall m n p)) as Hc'.
  { apply Hcall; [done|done|..]; intros ->; simpl in Hs; rewrite Hc in Hs; by destruct p. }
  exists p. split; [done|]. destruct p; try done.
  - destruct Hp as (Hm & Haw & b & Hb1 & Hb2). split; [by apply Hent|].
    split; [by intros [|?%list_elem_of_singleton]%elem_of_app|]. exists b. rewrite Hob.
    split; [done|]. by intros [|?%list_elem_of_singleton]%elem_of_app; auto.
  - destruct Hp as (Hm & Haw & Hb1). split; [by apply Hent|]. rewrite Hob.
    split; [by intros [|?%list_elem_of_singleton]%elem_of_app|done].
Qed.

Lemma lone_start own es s c m :
  wf own es s -> calls s !! c = None ->
  (forall c' k, calls s !! c' = Some k -> c_msg k = m -> over (c_phase k) = true) ->
  exists n, lone c m n [] (register s c m).
Proof.
  intros Hwf Hc Hover. unfold register. destruct (notes s !! m) as [n|] eqn:Hm.
  - exists n. destruct (wf_notes _ _ _ Hwf _ _ Hm) as [Hown Hlt]. split.
    + intros c' k Hne. simpl. rewrite lookup_insert_ne by done. intros Hk [Hkm|Hkn];
        apply (Hover c' k Hk); [done|].
      destruct (wf_calls _ _ _ Hwf _ _ Hk) as [Hk' _]. congruence.
    + exists Proposing. simpl. rewrite lookup_insert_eq. split; [done|]. split; [done|].
      split; [apply not_elem_of_nil|].
      apply lookup_lt_is_Some in Hlt as [[b ws] Hob]. exists b. rewrite Hob.
      destruct ws as [|c' ws]; [split; [done|]; by intros ?%elem_of_nil|].
      destruct (wf_waiters _ _ _ Hwf _ _ c' Hob (list_elem_of_here _ _)) as [m' Hc'].
      destruct (wf_calls _ _ _ Hwf _ _ Hc') as [Hk' _]. simpl in Hk'.
      by pose proof (Hover _ _ Hc' (eq_trans (eq_sym Hk') Hown)).
  - exists (length (objects s)). split.
    + intros c' k Hne. simpl. rewrite lookup_insert_ne by done. intros Hk [Hkm|Hkn];
        [by apply (Hover c' k Hk)|].
      destruct (wf_calls _ _ _ Hwf _ _ Hk) as [_ Hk']. lia.
    + exists Proposing. simpl. rewrite !lookup_insert_eq. split; [done|]. split; [done|].
      split; [apply not_elem_of_nil|]. exists false. rewrite list_lookup_middle by done.
      split; [done|]. by intros ?%elem_of_nil.
Qed.

Lemma lone_run own es0 es s s' c m n :
  wf own es0 s -> run s es = Some s' -> Cancel c ∉ es -> (forall c', Register c' m ∉ es) ->
  lone c m n [] s -> lone c m n es s'.
Proof.
  intros Hwf Hrun Hcan Hreg Hl. revert own es0 s Hwf Hrun Hl.
  assert (forall es1 own es0 s, wf own es0 s -> run s es = Some s' -> lone c m n es1 s ->
    lone c m n (es1 ++ es) s') as Hgen; [|intros; by eapply (Hgen [])].
  induction es as [|e es IH]; intros es1 own es0 s Hwf Hrun Hl; simpl in Hrun.
  - injection Hrun as <-. by rewrite app_nil_r.
  - destruct (step s e) as [s1|] eqn:He; [|done].
    destruct (wf_step _ _ _ _ _ Hwf He) as [own' Hwf'].
    rewrite cons_middle, app_assoc. eapply (IH); [| |exact Hwf'|exact Hrun|].
    + intros Hin. by apply Hcan, list_elem_of_further.
    + intros c' Hin. by apply (Hreg c'), list_elem_of_further.
    + eapply lone_step; [exact Hwf|exact He| | |done].
      * intros ->. apply Hcan, list_elem_of_here.
      * intros c' ->. apply (Hreg c'), list_elem_of_here.
Qed.

(** What is left of a notified call. *)
Definition remaining (c : nat) (p : phase) : list event :=
  match p with
  | Woken => [Resume c; Finish c]
  | Removing => [Finish c]
  | _ => []
  end.

Lemma remaining_returns s c m n p :
  calls s !! c = Some (mkCall m n p) -> passed p = true ->
  exists s', run s (remaining c p) = Some s' /\ phase_of s' c = Some Returned.
Proof.
  intros Hc Hp. destruct p; try done; simpl; rewrite ?Hc.
  - rewrite (set_phase_self _ _ _ _ _ _ Hc). eexists. split; [done|]. unfold phase_of, finish.
    erewrite set_phase_self; [done|]. simpl. by rewrite lookup_alter_eq, Hc.
  - eexists. split; [done|]. unfold phase_of, finish. by erewrite set_phase_self.
  - exists s. split; [done|]. unfold phase_of. by rewrite Hc.
Qed.

(** The message of a call is the one that it was registered with. *)
Lemma registered_msg es s c m :
  run new es = Some s -> Register c m ∈ es ->
  exists k, calls s !! c = Some k /\ c_msg k = m.
Proof.
  intros Hrun.
  apply (run_ind (fun es s => (exists own, wf own es s) /\ forall c m, Register c m ∈ es ->
    exists k, calls s !! c = Some k /\ c_msg k = m)) with (es := []) in Hrun.
  - by apply Hrun.
  - clear. intros es s e s' [[own Hwf] Hr] Hs. split; [by eapply wf_step|].
    intros c m [Hin|<-%list_elem_of_singleton]%elem_of_app.
    + destruct (Hr c m Hin) as (k & Hk & <-).
      destruct (step_moved _ _ _ _ _ _ _ Hwf Hs Hk) as (k' & Hk' & E & _). by exists k'.
    + simpl in Hs. destruct (calls s !! c); [done|]. injection Hs as <-. unfold register.
      destruct (notes s !! m); simpl; rewrite lookup_insert_eq; by eexists.
  - split; [exists (fun _ => 0); apply wf_new|]. by intros ? ? ?%elem_of_nil.
Qed.

(** ** A call whose entry was removed by another *)

(** Nothing can notify the object [n]: it has no entry, no permit and no
    notification under way. *)
Record dead (n : nat) (s : state) : Prop := {
  dead_entry m : notes s !! m <> Some n;
  dead_permit : exists ws, objects s !! n = Some (mkNotify false ws);
  dead_woken c k : calls s !! c = Some k -> c_notify k = n -> c_phase k <> Woken
}.

(** The calls on [n] after a step are those before it. *)
Lemma dead_no_new own es s e s' n c k :
  wf own es s -> step s e = Some s' -> dead n s ->
  calls s' !! c = Some k -> c_notify k = n ->
  exists k0, calls s !! c = Some k0 /\ c_notify k0 = n.
Proof.
  intros Hwf Hs [He [ws Hob] _] Hk Hn. destruct (calls s !! c) as [k0|] eqn:Hk0.
  - exists k0. split; [done|].
    destruct (step_moved _ _ _ _ _ _ _ Hwf Hs Hk0) as (k1 & Hk1 & _ & E2 & _). congruence.
  - destruct (step_new _ _ _ _ _ Hs Hk Hk0) as [_ [Hm|Hm]].
    + rewrite Hn in Hm. by apply He in Hm.
    + apply lookup_lt_Some in Hob. lia.
Qed.

(** The phases that the calls on a dead object go through. *)
Lemma dead_step_phase own es s e s' n c m p :
  wf own es s -> step s e = Some s' -> dead n s ->
  calls s !! c = Some (mkCall m n p) ->
  exists p', calls s' !! c = Some (mkCall m n p') /\ p' <> Woken /\
    (passed p = false -> passed p' = false).
Proof.
  intros Hwf Hs [He [ws Hob] Hw] Hc.
  destruct (step_moved _ _ _ _ _ _ _ Hwf Hs Hc) as ([m' n' p'] & Hk' & E1 & E2 & _).
  simpl in E1, E2. subst m' n'. exists p'. split; [done|].
  pose proof (Hw _ _ Hc eq_refl) as Hnw. simpl in Hnw.
  destruct e as [c' m'|c'|c'|c'|c'|m']; simpl in Hs.
  - destruct (calls s !! c') eqn:Hc'; [done|]. injection Hs as <-.
    assert (c <> c') by congruence.
    assert (calls (register s c' m') !! c = calls s !! c) as Heq.
    { unfold register. destruct (notes s !! m'); simpl; by rewrite lookup_insert_ne. }
    rewrite Heq, Hc in Hk'. by injection Hk' as <-.
  - destruct (calls s !! c') as [[m1 n1 []]|] eqn:Hc'; try done.
    destruct (objects s !! n1) as [o|] eqn:Ho; [|done]. injection Hs as <-. unfold await in Hk'.
    destruct (decide (c = c')) as [<-|].
    + rewrite Hc in Hc'. injection Hc' as <- <- ->. rewrite Hob in Ho. injection Ho as <-.
      simpl in Hk'. rewrite lookup_alter_eq, Hc in Hk'. by injection Hk' as <-.
    + destruct (permit o); rewrite set_phase_ne in Hk' by done; simpl in Hk'; by simplify_eq.
  - destruct (calls s !! c') as [[m1 n1 []]|] eqn:Hc'; try done. injection Hs as <-.
    assert (c <> c') by congruence. rewrite set_phase_ne in Hk' by done. by simplify_eq.
  - destruct (calls s !! c') as [[m1 n1 []]|] eqn:Hc'; try done. injection Hs as <-.
    unfold finish in Hk'. destruct (decide (c = c')) as [<-|].
    + rewrite Hc in Hc'. injection Hc' as <- <- ->.
      simpl in Hk'. rewrite lookup_alter_eq, Hc in Hk'. by injection Hk' as <-.
    + rewrite set_phase_ne in Hk' by done. by simplify_eq/=.
  - destruct (calls s !! c') as [[m1 n1 p1]|] eqn:Hc'; [|done].
    destruct (decide _); [done|]. injection Hs as <-. unfold cancel in Hk'.
    assert (calls (set_phase s c' Dropped) !! c =
      Some (mkCall m n (if decide (c = c') then Dropped else p))) as Hd.
    { rewrite lookup_set_phase. destruct (decide (c = c')) as [<-|]; [by rewrite Hc|done]. }
    destruct p1; try (rewrite Hd in Hk'; injection Hk' as <-; by destruct (decide _)).
    + destruct (objects s !! n1); simpl in *; rewrite Hd in Hk'; injection Hk' as <-;
        by destruct (decide _).
    + assert (n1 <> n) as Hne by (intros ->; by apply (Hw _ _ Hc' eq_refl)).
      rewrite (notify_one_other _ _ _ n _ _ _ (wf_drop _ _ _ _ _ _ _ Hwf Hc' ltac:(done)) Hd
        eq_refl Hne) in Hk'.
      injection Hk' as <-. by destruct (decide _).
  - injection Hs as <-. unfold achieved in Hk'. destruct (notes s !! m') as [n1|] eqn:Hm.
    + assert (n1 <> n) as Hne by (intros ->; by apply He in Hm).
      rewrite (notify_one_other _ _ _ n _ _ _ Hwf Hc eq_refl Hne) in Hk'. by injection Hk' as <-.
    + by simplify_eq.
Qed.

Lemma dead_step own es s e s' n :
  wf own es s -> step s e = Some s' -> dead n s -> dead n s'.
Proof.
  intros Hwf Hs Hd. pose proof Hd as [He [ws Hob] Hw].
  pose proof (lookup_lt_Some _ _ _ Hob) as Hlt. constructor.
  - intros m. destruct (step_notes _ _ _ m Hs) as [->|[(c & n' & _ & _ & ->)|(c & _ & _ & ->)]];
      [apply He|done|]. intros [= Heq]. lia.
  - destruct e as [c m|c|c|c|c|m];
      try (destruct (step_untouched _ _ _ _ _ n Hwf Hs Hlt) as [-> _]; [by intros ?|by exists ws]).
    + simpl in Hs. destruct (calls s !! c) as [[m1 n1 []]|] eqn:Hc; try done.
      destruct (objects s !! n1) as [o|] eqn:Ho; [|done]. injection Hs as <-.
      unfold await. destruct (decide (n1 = n)) as [->|].
      * rewrite Hob in Ho. injection Ho as <-. simpl. rewrite list_lookup_insert_eq by done.
        by eexists.
      * exists ws. destruct (permit o); simpl; by rewrite list_lookup_insert_ne.
    + simpl in Hs. destruct (calls s !! c) as [[m1 n1 p1]|] eqn:Hc; [|done].
      destruct (decide _); [done|]. injection Hs as <-. unfold cancel.
      destruct p1; try by exists ws.
      * destruct (objects s !! n1) as [o|] eqn:Ho; [|by exists ws]. simpl.
        destruct (decide (n1 = n)) as [->|]; [|exists ws; by rewrite list_lookup_insert_ne].
        rewrite Hob in Ho. injection Ho as <-. rewrite list_lookup_insert_eq by done. by eexists.
      * assert (n1 <> n) as Hne by (intros ->; by apply (Hw _ _ Hc eq_refl)).
        exists ws. by rewrite notify_one_object.
    + destruct (step_untouched _ _ _ _ _ n Hwf Hs Hlt) as [-> _]; [|by exists ws]. apply He.
  - intros c k Hk Hn. destruct (dead_no_new _ _ _ _ _ _ _ _ Hwf Hs Hd Hk Hn) as ([m n' p] & Hk0 & Hn0).
    simpl in Hn0. subst n'.
    destruct (dead_step_phase _ _ _ _ _ _ _ _ _ Hwf Hs Hd Hk0) as (p' & Hp' & Hnw & _).
    rewrite Hk in Hp'. by injection Hp' as ->.
Qed.

(** The entry of a returned call is gone for good. *)
Lemma returned_gone es s c m n m' :
  run new es = Some s -> calls s !! c = Some (mkCall m n Returned) -> notes s !! m' <> Some n.
Proof.
  intros Hrun. revert c m n m'.
  enough ((exists own, wf own es s) /\ forall c m n m',
    calls s !! c = Some (mkCall m n Returned) -> notes s !! m' <> Some n) as [_ Hr] by done.
  apply (run_ind (fun es s => (exists own, wf own es s) /\ forall c m n m',
    calls s !! c = Some (mkCall m n Returned) -> notes s !! m' <> Some n)) with (es := []) in Hrun;
    [done| |split; [exists (fun _ => 0); apply wf_new|done]].
  clear. intros es s e s' [[own Hwf] Hr] Hs. split; [by eapply wf_step|]. intros c m n m' Hc Hm'.
  destruct (calls s !! c) as [[m0 n0 p]|] eqn:Hk.
  2: { destruct (step_new _ _ _ _ _ Hs Hc Hk) as [-> _].
       simpl in Hs, Hc. rewrite Hk in Hs. injection Hs as <-. unfold register in Hc.
       destruct (notes s !! m); simpl in Hc; by rewrite lookup_insert_eq in Hc. }
  destruct (step_moved _ _ _ _ _ _ _ Hwf Hs Hk) as (k' & Hk' & E1 & E2 & _ & _ & E5).
  rewrite Hc in Hk'. injection Hk' as <-. simpl in E1, E2, E5. subst m0 n0.
  destruct (wf_calls _ _ _ Hwf _ _ Hk) as [Hown Hlt]. simpl in Hown, Hlt.
  destruct (step_notes _ _ _ m' Hs) as [Hn|[(c1 & n1 & _ & _ & Hn)|(c1 & _ & _ & Hn)]];
    rewrite Hn in Hm'; [|done|injection Hm' as <-; lia].
  destruct (E5 eq_refl) as [->| ->]; [by apply (Hr _ _ _ m') in Hk|].
  pose proof (proj1 (wf_notes _ _ _ Hwf _ _ Hm')) as Hm. rewrite Hown in Hm. subst m'.
  simpl in Hs. rewrite Hk in Hs. destruct p; try done. injection Hs as <-. simpl in Hn.
  rewrite lookup_delete_eq, Hm' in Hn. done.
Qed.

(** ** Properties *)

(** A call gets through its wait only after its message has been notified. *)
Theorem call_waits_for_consensus es s c m p :
  run new es = Some s -> Register c m ∈ es -> phase_of s c = Some p -> passed p = true ->
  Achieved m ∈ es.
Proof.
  intros Hrun Hreg Hp Hpass. destruct (registered_msg _ _ _ _ Hrun Hreg) as (k & Hk & <-).
  destruct (wf_run _ _ Hrun) as [own Hwf]. apply (wf_passed _ _ _ Hwf _ _ Hk).
  unfold phase_of in Hp. rewrite Hk in Hp. by injection Hp as ->.
Qed.

(** C26: a call on a message that no other call waits for returns in at most two
    further steps of its own once it has reached its wait and its message has been
    notified since it began, in whichever order, whatever happens on other
    messages and to earlier calls on this one. *)
Theorem lone_call_returns es0 s0 es s c m :
  run new es0 = Some s0 ->
  (forall c' k, calls s0 !! c' = Some k -> c_msg k = m -> over (c_phase k) = true) ->
  run s0 (Register c m :: es) = Some s ->
  Cancel c ∉ es -> (forall c', Register c' m ∉ es) ->
  Await c ∈ es -> Achieved m ∈ es ->
  exists p s', phase_of s c = Some p /\ run s (remaining c p) = Some s' /\
    phase_of s' c = Some Returned.
Proof.
  intros Hrun0 Hover Hrun Hcan Hreg Haw Hach. destruct (wf_run _ _ Hrun0) as [own Hwf].
  change (match step s0 (Register c m) with Some s' => run s' es | None => None end = Some s)
    in Hrun.
  destruct (step s0 (Register c m)) as [s1|] eqn:Hs1; [|done].
  destruct (wf_step _ _ _ _ _ Hwf Hs1) as [own1 Hwf1].
  simpl in Hs1. destruct (calls s0 !! c) eqn:Hfree; [done|]. injection Hs1 as <-.
  destruct (lone_start _ _ _ _ _ Hwf Hfree Hover) as [n Hl].
  destruct (lone_run _ _ _ _ _ _ _ _ Hwf1 Hrun Hcan Hreg Hl) as [_ (p & Hc & Hp)].
  assert (passed p = true) as Hpass.
  { destruct p; try done; destruct Hp as (_ & Hno & _); done. }
  destruct (remaining_returns _ _ _ _ _ Hc Hpass) as (s' & Hr & Hret).
  exists p, s'. split; [|done]. unfold phase_of. by rewrite Hc.
Qed.

(** When a call has returned and removed the entry, another call that shared
    its object and has no notification of its own never returns, however often
    the message is notified again. *)
Theorem second_caller_starves es s c c' m n p ws es' s' :
  run new es = Some s ->
  calls s !! c' = Some (mkCall m n Returned) ->
  calls s !! c = Some (mkCall m n p) -> passed p = false ->
  objects s !! n = Some (mkNotify false ws) ->
  (forall c1 k, calls s !! c1 = Some k -> c_notify k = n -> c_phase k <> Woken) ->
  run s es' = Some s' ->
  exists p', phase_of s' c = Some p' /\ passed p' = false.
Proof.
  intros Hrun Hret Hc Hp Hob Hnw Hrun'. destruct (wf_run _ _ Hrun) as [own Hwf].
  assert (dead n s) as Hd.
  { constructor; [|by exists ws|done]. intros m'. by eapply returned_gone. }
  clear Hrun Hret Hob Hnw. revert s own es p Hwf Hc Hp Hd Hrun'.
  induction es' as [|e es' IH]; intros s own es p Hwf Hc Hp Hd Hrun; simpl in Hrun.
  - injection Hrun as <-. exists p. unfold phase_of. by rewrite Hc.
  - destruct (step s e) as [s1|] eqn:He; [|done].
    destruct (wf_step _ _ _ _ _ Hwf He) as [own' Hwf'].
    destruct (dead_step_phase _ _ _ _ _ _ _ _ _ Hwf He Hd Hc) as (p1 & Hc1 & _ & Hp1).
    eapply IH; [exact Hwf'|exact Hc1|by apply Hp1|exact (dead_step _ _ _ _ _ _ Hwf He Hd)|done].
Qed.

(** ** Witnesses *)

(** A call on the message 7 beside one on 8, with the notification before the wait. *)
Definition one_call : list event :=
  [Register 1 7; Register 2 8; Achieved 7; Await 2; Await 1; Achieved 8; Finish 1].

Lemma call_waits_for_consensus_witness : Achieved 7 ∈ one_call.
Proof.
  eapply (call_waits_for_consensus one_call _ 1 7 Returned); [reflexivity| |reflexivity..].
  apply list_elem_of_here.
Defined.

(** The state after a trace from the start. *)
Definition after (es : list event) : state := default new (run new es).

(** An earlier call on the message timed out and left its entry. *)
Definition timed_out : list event := [Register 0 7; Await 0; Cancel 0].

Definition later_call : list event := [Register 2 8; Await 1; Achieved 8; Achieved 7].

Lemma lone_call_returns_witness :
  exists p s, phase_of (after (timed_out ++ Register 1 7 :: later_call)) 1 = Some p /\
    run (after (timed_out ++ Register 1 7 :: later_call)) (remaining 1 p) = Some s /\
    phase_of s 1 = Some Returned.
Proof.
  apply (lone_call_returns timed_out (after timed_out) later_call _ 1 7).
  - reflexivity.
  - apply (bool_decide_unpack (map_Forall (fun _ k => c_msg k = 7 -> over (c_phase k) = true)
      (calls (after timed_out)))). reflexivity.
  - reflexivity.
  - apply (bool_decide_unpack _). reflexivity.
  - intros c' Hin. repeat apply elem_of_cons in Hin as [Hin|Hin]; try discriminate Hin.
    by apply elem_of_nil in Hin.
  - apply (bool_decide_unpack _). reflexivity.
  - apply (bool_decide_unpack _). reflexivity.
Defined.

(** Two calls on one message and a single notification. *)
Definition two_calls : list event :=
  [Register 1 7; Register 2 7; Await 1; Await 2; Achieved 7; Resume 1; Finish 1].

Definition more : list event := [Achieved 7; Register 3 7; Achieved 7].

Lemma second_caller_starves_witness :
  exists p, phase_of (after (two_calls ++ more)) 2 = Some p /\ passed p = false.
Proof.
  apply (second_caller_starves two_calls (after two_calls) 2 1 7 0 Waiting [2%nat] more);
    try reflexivity.
  apply (bool_decide_unpack (map_Forall (fun _ k => c_notify k = 0%nat -> c_phase k <> Woken)
    (calls (after two_calls)))). reflexivity.
Defined.
End Notifications.
