(* ===== verification/DvfCore.v ===== *)
(** * Signing of duties by an operator

    Models [src/node/dvfcore.rs] and the branch for distributed keys of
    [src/validation/signing_method.rs]: the start of a signer from the definition
    of its committee, the notifications that [DvfCore] makes of committed blocks,
    the service that hands out partial signatures, and the signing of a duty,
    which joins the mempool, the consensus, the operator committee and the
    threshold signatures.

    The store of an operator holds blocks, batches and partial signatures under
    keys of 32 bytes. *)

From S2P Require Import Prelude Store Committee Messages Network Core Ideal Tasks Mempool.
From S2P Require Import Scalars Blst BlstIdeal Polynomial Threshold Operator.

(** The bytes of a text. *)
Definition text_bytes (s : string) : bytes :=
  map (fun a => Z.of_N (Ascii.N_of_ascii a)) (String.list_ascii_of_string s).

Definition not_found_text : bytes := text_bytes "can't find signature, please wait".
Definition no_database_text : bytes := text_bytes "can't read database, please wait".

(** ** [src/validation/signing_method.rs] *)

Inductive SignableMessage : Type :=
| RandaoReveal
| BeaconBlock
| AttestationData
| SignedAggregateAndProof
| SelectionProof
| SyncSelectionProof
| SyncCommitteeSignature
| SignedContributionAndProof
| ValidatorRegistration.

Inductive SigningError : Type :=
| ShuttingDown
| CommitteeSignFailed (msg : string)
| SignDigestFailed (msg : string)
| NotLeader.

(** The name of the duty, and whether only aggregators collect signatures. *)
Definition duty_of (m : SignableMessage) : string * bool :=
  match m with
  | RandaoReveal => ("RANDAO", false)
  | AttestationData => ("ATTESTER", true)
  | BeaconBlock => ("PROPOSER", true)
  | SignedAggregateAndProof => ("AGGREGATE", true)
  | SelectionProof => ("SELECT", false)
  | SyncSelectionProof => ("SYNC_SELECT", false)
  | SyncCommitteeSignature => ("SYNC_COMMITTEE", true)
  | SignedContributionAndProof => ("CONTRIB", true)
  | ValidatorRegistration => ("VA_REG", true)
  end.

(** What a report meets: the result of [sign_digest], and the address of the server,
    [API_ADDRESS], when it is set. *)
Record Reporting := mkReporting {
  sign_digest : string + unit;
  api_address : option string
}.

(** The report is signed with the key of the node and sent by a task of its own. *)
Definition dvf_report (duty : string) (report : Reporting) : outcome SigningError () :=
  if bool_decide (duty = "ATTESTER") || bool_decide (duty = "PROPOSER") then
    match sign_digest report with
    | inl e => Err (SignDigestFailed e)
    | inr _ =>
        match api_address report with
        | Some _ => mret ()
        | None => Panic "called `Option::unwrap()` on a `None` value"
        end
    end
  else mret ().

Definition can_report (report : Reporting) : Prop :=
  sign_digest report = inr () /\ is_Some (api_address report).

Lemma reported duty report : can_report report -> dvf_report duty report = Ok ().
Proof. intros [Hd [a Ha]]. unfold dvf_report. rewrite Hd, Ha. by destruct (_ || _). Qed.

Section dvfcore.
Context `{Blst} `{Bincode} `{!SigCodec} `{MempoolCodec} `{Rocksdb Digest bytes}.

(** ** [DvfSignatureReceiverHandler] *)

(** A key of another length is not in the store. *)
Definition read_key (st : Store.t Digest bytes) (key : bytes) : StoreError + option bytes :=
  if bool_decide (length key = 32%nat) then Store.read st (be_val key)
  else
    match Store.read st 0 with
    | inl e => inl e
    | inr _ => inr None
    end.

(** The reply to a request. *)
Definition dispatch (st : Store.t Digest bytes) (message : bytes) : bytes :=
  match read_key st message with
  | inr (Some data) => data
  | inr None => not_found_text
  | inl _ => no_database_text
  end.

(** ** [DvfSigner] *)

Record DvfSigner := mkDvfSigner {
  operator_id : Z;
  operator_committee : OperatorCommittee;
  local_keypair : Keypair;
  store : Store.t Digest bytes
}.

(** The positions of the node in the definition. *)
Definition operator_index (name : PublicKey) (def : OperatorCommitteeDefinition) : list nat :=
  map fst (filter (fun x => x.2 = name) (imap pair (def_node_public_keys def))).

(** The committees of the consensus and of the mempool. *)
Definition mempool_authorities (def : OperatorCommitteeDefinition)
  : outcome DvfError (list (PublicKey * Stake * SocketAddr * SocketAddr * SocketAddr)) :=
  mapM (fun '(i, pk) =>
    addr ← unwrap (def_base_socket_addresses def !! i);
    let addr := default invalid_addr addr in
    mret (pk, 1, base_to_transaction_addr addr, base_to_mempool_addr addr,
          base_to_signature_addr addr)) (imap pair (def_node_public_keys def)).

Definition consensus_authorities (def : OperatorCommitteeDefinition)
  : outcome DvfError (list (PublicKey * Stake * SocketAddr)) :=
  mapM (fun '(i, pk) =>
    addr ← unwrap (def_base_socket_addresses def !! i);
    mret (pk, 1, base_to_consensus_addr (default invalid_addr addr)))
    (imap pair (def_node_public_keys def)).

(** The signer, with the committees that its consensus instance is started with.
    [opened] is the store of the operator, [None] when it cannot be opened. *)
Definition spawn (name : PublicKey) (base_address : SocketAddr) (keypair : Keypair)
  (def : OperatorCommitteeDefinition) (opened : option (Store.t Digest bytes))
  : outcome DvfError (DvfSigner * Committee.t * MempoolCommittee.t) :=
  match operator_index name def with
  | [i] =>
      id ← unwrap (def_operator_ids def !! i);
      committee ← from_definition def;
      let committee := add_operator committee id
        (Local (mkLocalOperator (def_validator_id def) id keypair base_address)) in
      mempool ← mempool_authorities def;
      consensus ← consensus_authorities def;
      st ← match opened with Some st => mret st | None => Err DvfStoreError end;
      mret (mkDvfSigner id committee keypair st, Committee.new consensus 1,
            MempoolCommittee.new mempool 1)
  | _ => Panic "assertion failed: `(left == right)`"
  end.

Definition local_sign (self : DvfSigner) (message : Hash256) : BlsSignature :=
  SecretKey_sign (Keypair_sk (local_keypair self)) (hash_bytes message).

Definition local_sign_and_store (self : DvfSigner) (message : Hash256) : DvfSigner :=
  mkDvfSigner (operator_id self) (operator_committee self) (local_keypair self)
    (fst (Store.write (store self) message (ser_sig (local_sign self message)))).

Definition is_aggregator (self : DvfSigner) (nonce : Z) : outcome DvfError bool :=
  leader ← get_leader (operator_committee self) nonce;
  if leader =? operator_id self then mret true
  else
    next ← get_leader (operator_committee self) (u64 (nonce + 1));
    mret (next =? operator_id self).

(** What is made of the result of [threshold_sign], [None] when the timeout of two slots
    comes first. *)
Definition collected (debug : DvfError -> string) (duty : string) (report : Reporting)
  (work : option (outcome DvfError (BlsSignature * list Z))) : outcome SigningError BlsSignature :=
  match work with
  | Some (Ok (signature, ids)) =>
      _ ← dvf_report duty report;
      mret signature
  | Some (Err e) => Err (CommitteeSignFailed (debug e))
  | Some (Panic msg) => Panic msg
  | Some Diverged => Diverged
  | None => Err (CommitteeSignFailed "Timeout")
  end.

(** The branch [DistributedKeystore] of [get_signature_from_root].  [work] is what
    [threshold_sign] gives on the signer as it is when it is called. *)
Definition get_signature_from_root (debug : DvfError -> string) (self : DvfSigner)
  (message : SignableMessage) (signing_root : Hash256) (signing_epoch : Z)
  (work : DvfSigner -> option (outcome DvfError (BlsSignature * list Z))) (report : Reporting)
  : DvfSigner * outcome SigningError BlsSignature :=
  let '(duty, only_aggregator) := duty_of message in
  let self := local_sign_and_store self signing_root in
  let collects :=
    if negb only_aggregator then Ok true else is_aggregator self signing_epoch in
  (self,
   match collects with
   | Ok true => collected debug duty report (work self)
   | Ok false => Err NotLeader
   | Err e => Err (CommitteeSignFailed (debug e))
   | Panic msg => Panic msg
   | Diverged => Diverged
   end).

(** ** [DvfCore::run] *)

(** The messages sent to the committee, and how the code ends. *)
Definition notified : Type := list Hash256 * outcome DvfError ().

Definition then_notify (a : notified) (b : notified) : notified :=
  match a.2 with
  | Ok _ => (a.1 ++ b.1, b.2)
  | r => (a.1, r)
  end.

Fixpoint on_batch (batch : Batch) : notified :=
  match batch with
  | [] => ([], mret ())
  | transaction :: batch =>
      match hash_from_slice transaction with
      | Ok msg => then_notify ([msg], mret ()) (on_batch batch)
      | Err e => ([], Err e)
      | Panic msg => ([], Panic msg)
      | Diverged => ([], Diverged)
      end
  end.

Definition on_payload (st : Store.t Digest bytes) (payload : Digest) : notified :=
  match Store.read st payload with
  | inr (Some data) =>
      match de_mempool data with
      | Some (BatchMsg batch) => on_batch batch
      | Some (BatchRequest _ _) => ([], mret ())
      | None => ([], Panic "called `Result::unwrap()` on an `Err` value")
      end
  | inr None => ([], mret ())
  | inl _ => ([], mret ())
  end.

Fixpoint on_payloads (st : Store.t Digest bytes) (payloads : list Digest) : notified :=
  match payloads with
  | [] => ([], mret ())
  | payload :: payloads => then_notify (on_payload st payload) (on_payloads st payloads)
  end.

(** One turn of the loop on a committed block, with the store at that time. *)
Definition on_block (st : Store.t Digest bytes) (block : Block.t) : notified :=
  if bool_decide (Block.payload block = []) then ([], mret ())
  else on_payloads st (Block.payload block).

Fixpoint run (inputs : list (Store.t Digest bytes * Block.t)) : notified :=
  match inputs with
  | [] => ([], mret ())
  | (st, block) :: inputs => then_notify (on_block st block) (run inputs)
  end.
End dvfcore.

(** ** The start of a signer *)

(** A map filled from a list. *)
Lemma foldl_insert_keys {A B} (f : gmap Z A -> B -> gmap Z A) (key : B -> Z) (val : B -> A)
  (l : list B) (m : gmap Z A) :
  (forall m x, f m x = <[key x := val x]> m) ->
  (forall k a, foldl f m l !! k = Some a ->
    (exists x, x ∈ l /\ key x = k /\ val x = a) \/ m !! k = Some a) /\
  dom (foldl f m l) = dom m ∪ list_to_set (map key l).
Proof.
  intros Hf. revert m. induction l as [|x l IH]; intros m; simpl.
  { split; [auto|set_solver]. }
  destruct (IH (f m x)) as [H1 H2]. split.
  - intros k a [(y & Hy & Hk)|Hm]%H1.
    + left. exists y. split; [by apply list_elem_of_further|done].
    + rewrite Hf in Hm. apply lookup_insert_Some in Hm as [[<- <-]|[_ Hm]]; [|by right].
      left. exists x. split; [apply list_elem_of_here|done].
  - rewrite H2, Hf, dom_insert_L. set_solver.
Qed.

Lemma unit_stakes `{QuorumSystem C} (c : C) :
  (forall name s, qs_stakes c !! name = Some s -> s = 1) ->
  total_stake c = Z.of_nat (size (members c)).
Proof.
  intros Hs. unfold total_stake, members. rewrite size_dom, <- length_map_to_list.
  assert (forall x, x ∈ map_to_list (qs_stakes c) -> x.2 = 1) as Hx.
  { intros [name s] Hin%elem_of_map_to_list. by apply Hs in Hin. }
  induction (map_to_list (qs_stakes c)) as [|x l IH]; [done|]. cbn [length].
  unfold zsum in *. cbn [map foldr]. simpl. rewrite IH.
  - rewrite (Hx x (list_elem_of_here _ _)). lia.
  - intros y Hy. apply Hx. by apply list_elem_of_further.
Qed.

Lemma mapM_ok {E A B} (f : A -> outcome E B) (P : A -> B -> Prop) (l : list A) :
  (forall x, x ∈ l -> exists y, f x = Ok y /\ P x y) ->
  exists ys, mapM f l = Ok ys /\ Forall2 P l ys.
Proof.
  induction l as [|x l IH]; intros Hl; [by exists []; split|].
  destruct (Hl x (list_elem_of_here _ _)) as (y & Hy & HP).
  destruct IH as (ys & Hys & HPs); [intros; apply Hl; by apply list_elem_of_further|].
  exists (y :: ys). split; [|by constructor]. cbn. rewrite Hy. cbn. by rewrite Hys.
Qed.

Lemma imap_pair_snd {A} (l : list A) : map snd (imap pair l) = l.
Proof.
  apply list_eq. intros i. rewrite list_lookup_fmap, list_lookup_imap.
  by destruct (l !! i).
Qed.

Section start.
Context `{Blst} `{Bincode} `{!SigCodec} `{MempoolCodec} `{Rocksdb Digest bytes}.
Context (def : OperatorCommitteeDefinition) (Hdef : definition_ok def).

Lemma node_address i pk :
  (i, pk) ∈ imap pair (def_node_public_keys def) ->
  exists addr, def_base_socket_addresses def !! i = Some addr.
Proof.
  intros (j & x & [= -> ->] & Hj)%elem_of_lookup_imap.
  apply lookup_lt_Some in Hj. apply lookup_lt_is_Some_2.
  rewrite (ok_addresses _ Hdef), <- (ok_nodes _ Hdef). done.
Qed.

(** The committees have the nodes of the definition as members, with one vote each. *)
Lemma consensus_committee :
  exists info, consensus_authorities def = Ok info /\
    (forall name s, qs_stakes (Committee.new info 1) !! name = Some s -> s = 1) /\
    members (Committee.new info 1) = list_to_set (def_node_public_keys def).
Proof.
  destruct (mapM_ok (E:=DvfError) (fun '(i, pk) =>
    addr ← unwrap (def_base_socket_addresses def !! i);
    mret (pk, 1, base_to_consensus_addr (default invalid_addr addr)))
    (fun x y => y.1 = (x.2, 1)) (imap pair (def_node_public_keys def)))
    as (info & Hinfo & Hall).
  { intros [i pk] Hin. destruct (node_address _ _ Hin) as [addr ->]. by eexists. }
  exists info. split; [exact Hinfo|].
  assert (map (fun x => x.1.1) info = def_node_public_keys def) as Hnames.
  { rewrite <- (imap_pair_snd (def_node_public_keys def)). clear -Hall.
    induction Hall as [|x y l k Hxy _ IH]; [done|]. simpl. by rewrite Hxy, IH. }
  assert (forall x, x ∈ info -> x.1.2 = 1) as Hones.
  { intros x [i Hx]%list_elem_of_lookup.
    destruct (Forall2_lookup_r _ _ _ _ _ Hall Hx) as (z & _ & ->). done. }
  destruct (foldl_insert_keys (fun (m : gmap PublicKey Authority.t) '(name, stake, address) =>
      <[name := Authority.mk stake address]> m) (fun x => x.1.1)
    (fun x => Authority.mk x.1.2 x.2) info ∅) as [Hl Hd]; [by intros m [[]]|].
  unfold members. simpl. split.
  - intros name s. rewrite lookup_fmap_Some. intros (a & <- & Ha).
    apply Hl in Ha as [(x & Hx & _ & <-)|Ha]; [|by rewrite lookup_empty in Ha].
    simpl. by apply Hones.
  - rewrite dom_fmap_L. etransitivity; [exact Hd|]. rewrite Hnames. set_solver.
Qed.

Lemma mempool_committee :
  exists info, mempool_authorities def = Ok info /\
    (forall name s, qs_stakes (MempoolCommittee.new info 1) !! name = Some s -> s = 1) /\
    members (MempoolCommittee.new info 1) = list_to_set (def_node_public_keys def).
Proof.
  destruct (mapM_ok (E:=DvfError) (fun '(i, pk) =>
    addr ← unwrap (def_base_socket_addresses def !! i);
    let addr := default invalid_addr addr in
    mret (pk, 1, base_to_transaction_addr addr, base_to_mempool_addr addr,
          base_to_signature_addr addr))
    (fun x y => y.1.1.1 = (x.2, 1)) (imap pair (def_node_public_keys def)))
    as (info & Hinfo & Hall).
  { intros [i pk] Hin. destruct (node_address _ _ Hin) as [addr ->]. by eexists. }
  exists info. split; [exact Hinfo|].
  assert (map (fun x => x.1.1.1.1) info = def_node_public_keys def) as Hnames.
  { rewrite <- (imap_pair_snd (def_node_public_keys def)). clear -Hall.
    induction Hall as [|x y l k Hxy _ IH]; [done|]. simpl. by rewrite Hxy, IH. }
  assert (forall x, x ∈ info -> x.1.1.1.2 = 1) as Hones.
  { intros x [i Hx]%list_elem_of_lookup.
    destruct (Forall2_lookup_r _ _ _ _ _ Hall Hx) as (z & _ & ->). done. }
  destruct (foldl_insert_keys (fun (m : gmap PublicKey MempoolAuthority.t)
      '(name, stake, transactions_address, mempool_address, signature_address) =>
      <[name := MempoolAuthority.mk stake transactions_address mempool_address
          signature_address]> m) (fun x => x.1.1.1.1)
    (fun x => MempoolAuthority.mk x.1.1.1.2 x.1.1.2 x.1.2 x.2) info ∅) as [Hl Hd];
    [by intros m [[[[]]]]|].
  unfold members. simpl. split.
  - intros name s. rewrite lookup_fmap_Some. intros (a & <- & Ha).
    apply Hl in Ha as [(x & Hx & _ & <-)|Ha]; [|by rewrite lookup_empty in Ha].
    simpl. by apply Hones.
  - rewrite dom_fmap_L. etransitivity; [exact Hd|]. rewrite Hnames. set_solver.
Qed.

(** The signer of the node at the position [i]. *)
Lemma spawn_ok name base_address keypair st i id :
  operator_index name def = [i] -> def_operator_ids def !! i = Some id ->
  exists committee consensus mempool,
    spawn name base_address keypair def (Some st) =
      Ok (mkDvfSigner id committee keypair st, consensus, mempool) /\
    (forall c s, qs_stakes consensus !! c = Some s -> s = 1) /\
    members consensus = list_to_set (def_node_public_keys def) /\
    (forall c s, qs_stakes mempool !! c = Some s -> s = 1) /\
    members mempool = list_to_set (def_node_public_keys def) /\
    oc_threshold committee = Z.to_nat (def_threshold def) /\
    oc_operators committee !! id =
      Some (Local (mkLocalOperator (def_validator_id def) id keypair base_address)) /\
    forall id' operator, id' <> id ->
      oc_operators committee !! id' = Some operator <->
      exists j, operator_at def j = Some (id', operator).
Proof.
  intros Hi Hid. unfold spawn. rewrite Hi, Hid. cbn [unwrap mbind outcome_bind].
  destruct (from_definition_spec def Hdef) as (c & -> & Ht & Hops).
  destruct mempool_committee as (mi & -> & Hm1 & Hm2).
  destruct consensus_committee as (ci & -> & Hc1 & Hc2). cbn [mbind outcome_bind].
  eexists _, _, _. split; [reflexivity|].
  split; [exact Hc1|]. split; [exact Hc2|]. split; [exact Hm1|]. split; [exact Hm2|].
  split; [exact Ht|]. split; [apply lookup_insert_eq|].
  intros id' operator Hne. simpl. rewrite lookup_insert_ne by done. apply Hops.
Qed.
End start.

(** ** Partial signatures on request *)

(** [bincode] does not take the texts of the service for signatures. *)
Class SigCodecStrict `{SigCodec} : Prop := {
  de_sig_not_found : de_sig not_found_text = None;
  de_sig_no_database : de_sig no_database_text = None
}.

Section service.
Context `{Blst} `{Bincode} `{!BincodeRoundTrip} `{!SigCodec} `{Rocksdb Digest bytes}.

(** The reply of the service to the envelope of a request. *)
Definition request_reply (st : Store.t Digest bytes) (request : bytes) : bytes :=
  match de_dvf request with
  | Some m => dispatch st (message m)
  | None => []
  end.

Lemma request_reply_key st vid msg :
  is_hash msg ->
  request_reply st (dvf_request vid msg) =
  match Store.read st msg with
  | inr (Some data) => data
  | inr None => not_found_text
  | inl _ => no_database_text
  end.
Proof.
  intros Hm. unfold request_reply, dvf_request. rewrite de_ser_dvf. simpl.
  unfold dispatch, read_key. rewrite hash_bytes_length, bool_decide_true by done.
  by rewrite be_val_hash_bytes.
Qed.

Lemma stored_signature `{!RocksdbReliable Digest bytes} self msg :
  Store.running (store self) = true ->
  Store.read (store (local_sign_and_store self msg)) msg =
  inr (Some (ser_sig (local_sign self msg))).
Proof.
  intros Hr. simpl. unfold Store.read, Store.write, Store.exec. rewrite Hr. simpl.
  by rewrite put_get.
Qed.

Lemma request_served `{!RocksdbReliable Digest bytes} self vid msg :
  is_hash msg -> Store.running (store self) = true ->
  request_reply (store (local_sign_and_store self msg)) (dvf_request vid msg) =
  ser_sig (SecretKey_sign (Keypair_sk (local_keypair self)) (hash_bytes msg)).
Proof. intros Hm Hr. rewrite request_reply_key, stored_signature by done. done. Qed.

(** What the tries at an operator with the key [sk] see: losses and replies from
    before it signed, then the reply of its service once it has signed. *)
Definition served (vid : Z) (msg : Hash256) (sk : Z) (attempts : nat -> attempt) : Prop :=
  exists i other,
    (i < 3)%nat /\ Store.running (store other) = true /\
    Keypair_sk (local_keypair other) = sk /\
    attempts i = Replied (request_reply (store (local_sign_and_store other msg))
                            (dvf_request vid msg)) /\
    forall k, (k < i)%nat ->
      attempts k = TimedOut \/ attempts k = Interrupted \/
      exists st, (forall data, Store.read st msg <> inr (Some data)) /\
        attempts k = Replied (request_reply st (dvf_request vid msg)).

Lemma served_answers `{!SigCodecRoundTrip} `{!SigCodecStrict} `{!RocksdbReliable Digest bytes}
  (share : Z -> Z) (o : RemoteOperator) id msg attempts :
  is_hash msg -> is_addr_invalid (ro_base_address o) = false ->
  served (ro_validator_id o) msg (share id) attempts ->
  answers share (Remote o) id msg attempts.
Proof.
  intros Hm Ha (i & other & Hi & Hr & Hsk & Hrep & Hbefore). split; [done|].
  exists i. split; [done|]. split; [rewrite Hrep, request_served, Hsk by done; done|].
  intros k data Hk Hd. destruct (Hbefore k Hk) as [He|[He|(st & Hst & He)]]; [congruence..|].
  rewrite He in Hd. injection Hd as <-. rewrite request_reply_key by done.
  destruct (Store.read st msg) as [e|[data|]]; [apply de_sig_no_database| |apply de_sig_not_found].
  by destruct (Hst data).
Qed.
End service.

(** ** Notifications of committed transactions *)

Section notifications.
Context `{MempoolCodec} `{Rocksdb Digest bytes}.

(** The transactions that the store holds under some digests. *)
Definition stored_transactions (st : Store.t Digest bytes) (payloads : list Digest)
  : list Transaction :=
  concat (map (fun d =>
    match Store.read st d with
    | inr (Some data) =>
        match de_mempool data with Some (BatchMsg batch) => batch | _ => [] end
    | _ => []
    end) payloads).

Definition decodes (st : Store.t Digest bytes) (d : Digest) : Prop :=
  forall data, Store.read st d = inr (Some data) -> is_Some (de_mempool data).

(** The transactions before the first one that is no message. *)
Fixpoint messages_of (l : list Transaction) : notified :=
  match l with
  | [] => ([], mret ())
  | x :: l =>
      if bool_decide (length x = 32%nat) then then_notify ([be_val x], mret ()) (messages_of l)
      else ([], Panic "assertion failed: `(left == right)`")
  end.

Lemma then_notify_nil a : then_notify ([], mret ()) a = a.
Proof. by destruct a. Qed.

Lemma then_notify_assoc a b c :
  then_notify (then_notify a b) c = then_notify a (then_notify b c).
Proof.
  destruct a as [la [[]| | |]], b as [lb [[]| | |]], c as [lc rc]; unfold then_notify; simpl;
    by rewrite ?app_assoc.
Qed.

Lemma messages_app l1 l2 :
  messages_of (l1 ++ l2) = then_notify (messages_of l1) (messages_of l2).
Proof.
  induction l1 as [|x l1 IH]; [by rewrite then_notify_nil|]. simpl.
  case_bool_decide; [|done]. by rewrite IH, then_notify_assoc.
Qed.

Lemma on_batch_spec batch : on_batch batch = messages_of batch.
Proof.
  induction batch as [|x batch IH]; [done|]. simpl. unfold hash_from_slice.
  case_bool_decide; [by rewrite IH|done].
Qed.

Lemma on_payloads_spec st payloads :
  Forall (decodes st) payloads ->
  on_payloads st payloads = messages_of (stored_transactions st payloads).
Proof.
  induction payloads as [|d payloads IH]; [done|]. intros [Hd Hall]%Forall_cons. simpl.
  rewrite IH by done. unfold stored_transactions. simpl. rewrite messages_app. f_equal.
  unfold on_payload. unfold decodes in Hd.
  destruct (Store.read st d) as [e|[data|]]; [done| |done].
  destruct (Hd data eq_refl) as [m ->]. destruct m; [apply on_batch_spec|done].
Qed.

Lemma on_block_spec st block :
  Forall (decodes st) (Block.payload block) ->
  on_block st block = messages_of (stored_transactions st (Block.payload block)).
Proof.
  intros Hall. unfold on_block. case_bool_decide as He; [by rewrite He|].
  by apply on_payloads_spec.
Qed.

Lemma run_spec inputs :
  Forall (fun x => Forall (decodes x.1) (Block.payload x.2)) inputs ->
  run inputs = messages_of
    (concat (map (fun x => stored_transactions x.1 (Block.payload x.2)) inputs)).
Proof.
  induction inputs as [|[st block] inputs IH]; [done|]. intros [Hb Hall]%Forall_cons. simpl.
  by rewrite messages_app, on_block_spec, IH.
Qed.

Lemma messages_of_hashes msgs :
  Forall is_hash msgs -> messages_of (map hash_bytes msgs) = (msgs, Ok ()).
Proof.
  induction 1 as [|m msgs Hm _ IH]; [done|]. cbn [map messages_of].
  rewrite hash_bytes_length, bool_decide_true, IH, be_val_hash_bytes by done. done.
Qed.

(** The store after the processor has run holds every batch under its digest. *)
Lemma processor_stores `{!RocksdbReliable Digest bytes} batches st :
  Store.running st = true ->
  (forall b b', b ∈ batches -> b' ∈ batches -> batch_digest b = batch_digest b' -> b = b') ->
  let '(st', digests) := Processor.run batches st in
  digests = map batch_digest batches /\ Store.running st' = true /\
  (forall b, b ∈ batches -> Store.read st' (batch_digest b) = inr (Some b)) /\
  (forall d, d ∉ digests -> Store.read st' d = Store.read st d).
Proof.
  revert st. induction batches as [|b batches IH]; intros st Hr Hinj; simpl.
  { split; [done|]. split; [done|]. split; [by intros b ?%elem_of_nil|done]. }
  set (st1 := fst (Store.write st (batch_digest b) b)).
  assert (Store.running st1 = true) as Hr1.
  { unfold st1, Store.write, Store.exec. by rewrite Hr. }
  assert (forall d, Store.read st1 d =
    if decide (d = batch_digest b) then inr (Some b) else Store.read st d) as Hread.
  { intros d. rewrite !Store.read_running by done. unfold st1, Store.write, Store.exec.
    rewrite Hr. simpl. case_decide as Hd; [subst d; apply put_get|by apply put_get_other]. }
  specialize (IH st1 Hr1). destruct (Processor.run batches st1) as [st2 ds].
  destruct IH as (-> & Hr2 & Hin & Hout).
  { intros b1 b2 H1 H2. apply Hinj; by apply list_elem_of_further. }
  split; [done|]. split; [done|]. split.
  - intros b' [->|Hb']%elem_of_cons; [|by apply Hin].
    destruct (decide (batch_digest b ∈ map batch_digest batches)) as [Hd|Hd].
    + apply list_elem_of_fmap in Hd as (b2 & Hb & Hb2).
      rewrite (Hinj b b2) at 1 2; [by apply Hin|apply list_elem_of_here| |done].
      by apply list_elem_of_further.
    + by rewrite Hout, Hread, decide_True.
  - intros d Hd. apply not_elem_of_cons in Hd as [Hne Hd].
    by rewrite Hout, Hread, decide_False.
Qed.

(** The store holds a batch with the messages [l]. *)
Definition holds (st : Store.t Digest bytes) (d : Digest) (l : list Hash256) : Prop :=
  exists data, Store.read st d = inr (Some data) /\
    de_mempool data = Some (BatchMsg (map hash_bytes l)) /\ Forall is_hash l.

Lemma stored_holds st payload (m : Digest -> list Hash256) :
  (forall d, d ∈ payload -> holds st d (m d)) ->
  Forall (decodes st) payload /\
  stored_transactions st payload = map hash_bytes (concat (map m payload)).
Proof.
  induction payload as [|d payload IH]; intros Hh; [done|].
  destruct IH as [IH1 IH2]; [intros d' Hd'; by apply Hh, list_elem_of_further|].
  destruct (Hh d (list_elem_of_here _ _)) as (data & Hr & Hde & _). split.
  - constructor; [|done]. intros data'. rewrite Hr. intros [= <-]. by rewrite Hde.
  - unfold stored_transactions in *. cbn [map concat]. by rewrite Hr, Hde, IH2, map_app.
Qed.

(** The digests of the blocks. *)
Lemma elem_of_payloads (blocks : list (Store.t Digest bytes * Block.t)) d :
  d ∈ concat (map (fun x => Block.payload x.2) blocks) <->
  exists st block, (st, block) ∈ blocks /\ d ∈ Block.payload block.
Proof.
  rewrite list_elem_of_In, in_concat. split.
  - intros (l & Hl%list_elem_of_In & Hd%list_elem_of_In).
    apply list_elem_of_fmap in Hl as ([st block] & -> & Hin). eauto.
  - intros (st & block & Hin & Hd). exists (Block.payload block).
    rewrite <- !list_elem_of_In. split; [|done]. apply list_elem_of_fmap. by exists (st, block).
Qed.

(** Blocks whose batches hold messages: these are notified in the order of the
    blocks, of their payloads and of the batches. *)
Lemma run_holds (blocks : list (Store.t Digest bytes * Block.t)) (m : Digest -> list Hash256) :
  (forall st block d, (st, block) ∈ blocks -> d ∈ Block.payload block -> holds st d (m d)) ->
  run blocks = (concat (map m (concat (map (fun x => Block.payload x.2) blocks))), Ok ()).
Proof.
  intros Hh. rewrite run_spec.
  - rewrite <- messages_of_hashes.
    + f_equal. induction blocks as [|[st block] blocks IH]; [done|]. cbn [map concat fst snd].
      rewrite map_app, concat_app, map_app, IH
        by (intros; eapply Hh; [by apply list_elem_of_further|done]).
      f_equal. apply stored_holds. intros d Hd. by apply (Hh st block); [apply list_elem_of_here|].
    + apply Forall_concat, Forall_fmap, Forall_forall. intros d Hd.
      apply elem_of_payloads in Hd as (st & block & Hin & Hd).
      by destruct (Hh st block d Hin Hd) as (_ & _ & _ & ?).
  - apply Forall_forall. intros [st block] Hin. apply (stored_holds st _ m).
    intros d Hd. by apply (Hh st block).
Qed.

Lemma be_val_hashes l : Forall is_hash l -> map (fun t => be_val t) (map hash_bytes l) = l.
Proof.
  intros Hl. rewrite map_map. rewrite <- (map_id l) at 2. apply map_ext_in.
  intros x Hx%list_elem_of_In. apply be_val_hash_bytes. by apply (proj1 (Forall_forall _ _) Hl).
Qed.

Lemma holds_unique st d l l' : holds st d l -> holds st d l' -> l = l'.
Proof.
  intros (data & Hr & Hd & Hl) (data' & Hr' & Hd' & Hl').
  assert (map hash_bytes l = map hash_bytes l') as He by congruence.
  by rewrite <- (be_val_hashes l Hl), <- (be_val_hashes l' Hl'), He.
Qed.

(** The messages of a sealed batch. *)
Definition messages_in (b : BatchMaker.sealed) : list Hash256 :=
  map (fun t => be_val t) (BatchMaker.content b).

Lemma messages_in_spec bs msgs :
  concat (map BatchMaker.content bs) = map hash_bytes msgs -> Forall is_hash msgs ->
  concat (map messages_in bs) = msgs /\
  forall b, b ∈ bs -> BatchMaker.content b = map hash_bytes (messages_in b) /\
    Forall is_hash (messages_in b).
Proof.
  unfold messages_in. revert msgs. induction bs as [|b bs IH]; intros msgs Hc Hm.
  { destruct msgs; [|done]. split; [done|]. by intros b ?%elem_of_nil. }
  cbn [map concat] in *. symmetry in Hc.
  apply map_eq_app in Hc as (m1 & m2 & -> & H1 & H2). apply Forall_app in Hm as [Hm1 Hm2].
  destruct (IH m2 (eq_sym H2) Hm2) as [IH1 IH2].
  rewrite <- H1, be_val_hashes, IH1 by done. split; [done|].
  intros b' [->|Hb']%elem_of_cons; [by rewrite <- H1, be_val_hashes|by apply IH2].
Qed.
End notifications.

(** ** Properties *)

Section pipeline.
Context `{MempoolCodec} `{!MempoolCodecRoundTrip} `{Bincode} `{!BincodeRoundTrip}.
Context `{Rocksdb Digest bytes} `{!RocksdbReliable Digest bytes}.
Context (batch_size : Z) (mempool_addresses : list (PublicKey * SocketAddr)) (vid : Z).

(** What the mempool of an operator stores for the messages proposed there. *)
Lemma own_batches_held inputs msgs s bs st st' digests :
  0 < batch_size < 2 ^ 63 ->
  transactions inputs = map hash_bytes msgs -> Forall is_hash msgs ->
  BatchMaker.run batch_size mempool_addresses vid inputs BatchMaker.spawn = (s, bs) ->
  BatchMaker.current_batch s = [] -> Store.running st = true ->
  (forall b b', b ∈ map BatchMaker.serialized bs -> b' ∈ map BatchMaker.serialized bs ->
     batch_digest b = batch_digest b' -> b = b') ->
  Processor.run (map BatchMaker.serialized bs) st = (st', digests) ->
  digests = map (fun b => batch_digest (BatchMaker.serialized b)) bs /\
  concat (map messages_in bs) = msgs /\
  forall b, b ∈ bs -> holds st' (batch_digest (BatchMaker.serialized b)) (messages_in b).
Proof.
  intros Hb Htx Hmsgs Hrun Hopen Hr Hinj Hproc.
  pose proof (run_partition batch_size mempool_addresses vid inputs BatchMaker.spawn Hb) as Hp.
  rewrite Hrun in Hp. destruct Hp as (Hcat & Hsealed & _).
  { split; [done|simpl; lia]. }
  { rewrite Htx. apply Forall_fmap, Forall_forall. intros m _.
    change (Z.of_nat (length (hash_bytes m)) < 2 ^ 63). rewrite hash_bytes_length. lia. }
  rewrite Hopen, app_nil_r, Htx in Hcat. simpl in Hcat.
  pose proof (processor_stores _ _ Hr Hinj) as Hps. rewrite Hproc in Hps.
  destruct Hps as (-> & _ & Hin & _). rewrite map_map. split; [done|].
  destruct (messages_in_spec bs msgs Hcat Hmsgs) as [Hcm Hcont]. split; [done|].
  intros b Hbin. destruct (Hcont b Hbin) as [Hc Hh]. exists (BatchMaker.serialized b).
  rewrite <- Hc. split_and!; [|by rewrite Forall_forall in Hsealed;
    destruct (Hsealed b Hbin) as (_ & _ & _ & _ & m & _ & _ & _ & <- & Hm)|done].
  apply Hin. apply list_elem_of_fmap. by exists b.
Qed.

(** C25: from proposals to notifications.  The messages proposed at an operator are
    batched and stored by its mempool.  When the digests of these batches are
    committed once each, in any order, in any blocks and mixed with digests of
    batches of other operators whose messages the store holds too, [DvfCore]
    notifies every proposed message exactly once and otherwise only the messages of
    the other batches; it follows the order of the committed digests, and the
    messages of a batch come together in the order in which they were proposed. *)
Theorem proposals_notified inputs msgs s bs st st' digests blocks others theirs :
  0 < batch_size < 2 ^ 63 ->
  transactions inputs = map hash_bytes msgs -> Forall is_hash msgs ->
  BatchMaker.run batch_size mempool_addresses vid inputs BatchMaker.spawn = (s, bs) ->
  BatchMaker.current_batch s = [] ->
  Store.running st = true ->
  (forall b b', b ∈ map BatchMaker.serialized bs -> b' ∈ map BatchMaker.serialized bs ->
     batch_digest b = batch_digest b' -> b = b') ->
  Processor.run (map BatchMaker.serialized bs) st = (st', digests) ->
  concat (map (fun x => Block.payload x.2) blocks) ≡ₚ digests ++ others ->
  (forall st1 block d, (st1, block) ∈ blocks -> d ∈ Block.payload block ->
     (d ∈ digests -> Store.read st1 d = Store.read st' d) /\
     (d ∈ others -> holds st1 d (theirs d))) ->
  concat (map messages_in bs) = msgs /\
  exists notified, run blocks = (notified, Ok ()) /\
    notified ≡ₚ msgs ++ concat (map theirs others) /\
    forall b, b ∈ bs -> exists before after, notified = before ++ messages_in b ++ after.
Proof.
  intros Hb Htx Hmsgs Hrun Hopen Hr Hinj Hproc Hperm Hstores.
  destruct (own_batches_held _ _ _ _ _ _ _ Hb Htx Hmsgs Hrun Hopen Hr Hinj Hproc)
    as (Hds & Hcm & Hheld). split; [done|].
  set (m := fun d => match list_find (fun b => batch_digest (BatchMaker.serialized b) = d) bs with
                     | Some (_, b) => messages_in b | None => theirs d end).
  assert (forall b, b ∈ bs -> m (batch_digest (BatchMaker.serialized b)) = messages_in b) as Hown.
  { intros b Hbin. unfold m. destruct (list_find _ bs) as [[i b']|] eqn:Hf.
    - apply list_find_Some in Hf as (Hi & Hd & _). apply list_elem_of_lookup_2 in Hi.
      pose proof (Hheld b' Hi) as Hh. rewrite Hd in Hh. by eapply holds_unique; [|by apply Hheld].
    - apply list_find_None in Hf. rewrite Forall_forall in Hf. by destruct (Hf b Hbin). }
  assert (forall d, d ∈ concat (map (fun x => Block.payload x.2) blocks) <-> d ∈ digests ++ others)
    as Hcom by (intros d; by rewrite Hperm).
  assert (forall st1 block d, (st1, block) ∈ blocks -> d ∈ Block.payload block ->
    holds st1 d (m d)) as Hm.
  { intros st1 block d Hin Hd. destruct (Hstores st1 block d Hin Hd) as [Hread Hoth].
    destruct (decide (d ∈ digests)) as [Hdd|Hdd].
    - pose proof Hdd as Hdb. rewrite Hds in Hdb. apply list_elem_of_fmap in Hdb as (b & -> & Hbin).
      rewrite Hown by done. destruct (Hheld b Hbin) as (data & Hrd & ?). exists data.
      by rewrite Hread.
    - assert (m d = theirs d) as ->; [|apply Hoth].
      + unfold m. destruct (list_find _ bs) as [[i b]|] eqn:Hf; [|done]. destruct Hdd.
        apply list_find_Some in Hf as (Hi & <- & _). rewrite Hds. apply list_elem_of_fmap.
        exists b. split; [done|]. by apply list_elem_of_lookup_2 in Hi.
      + assert (d ∈ digests ++ others) as [?|?]%elem_of_app; [|done..]. apply Hcom.
        apply elem_of_payloads. eauto. }
  exists (concat (map m (concat (map (fun x => Block.payload x.2) blocks)))).
  split; [by apply run_holds|]. split.
  - rewrite <- flat_map_concat_map, Hperm, flat_map_app, !flat_map_concat_map. apply reflexive_eq.
    f_equal.
    + rewrite Hds, map_map, <- Hcm. f_equal. apply map_ext_in. intros b Hbin%list_elem_of_In. auto.
    + f_equal. apply map_ext_in. intros d Hd%list_elem_of_In.
      assert (d ∈ digests ++ others) as Hc by (apply elem_of_app; by right).
      apply Hcom, elem_of_payloads in Hc as (st1 & block & Hin & Hp).
      eapply holds_unique; [by eapply Hm|by eapply Hstores].
  - intros b Hbin. rewrite <- (Hown b Hbin).
    assert (batch_digest (BatchMaker.serialized b) ∈ digests ++ others) as Hc.
    { apply elem_of_app. left. rewrite Hds. apply list_elem_of_fmap. by exists b. }
    apply Hcom, list_elem_of_split in Hc as (l1 & l2 & ->).
    exists (concat (map m l1)), (concat (map m l2)). by rewrite map_app, concat_app.
Qed.
End pipeline.

Section malformed.
Context `{MempoolCodec} `{Rocksdb Digest bytes}.

Lemma messages_of_bad l x :
  x ∈ l -> length x <> 32%nat ->
  snd (messages_of l) = Panic "assertion failed: `(left == right)`".
Proof.
  intros Hx Hl. induction l as [|y l IH]; [by apply elem_of_nil in Hx|]. simpl.
  case_bool_decide as Hy; [|done]. apply elem_of_cons in Hx as [<-|Hx]; [done|].
  by rewrite <- IH.
Qed.

(** A committed transaction of a length other than 32 ends the task: it
    panics and no message of this or a later block is notified after it. *)
Theorem malformed_transaction_stops_signing before st block after x :
  Forall (fun y => Forall (decodes y.1) (Block.payload y.2)) before ->
  Forall (decodes st) (Block.payload block) ->
  x ∈ stored_transactions st (Block.payload block) -> length x <> 32%nat ->
  snd (run (before ++ (st, block) :: after)) = Panic "assertion failed: `(left == right)`" /\
  run (before ++ (st, block) :: after) = run (before ++ [(st, block)]).
Proof.
  intros Hbefore Hblock Hx Hlen.
  assert (snd (run (before ++ [(st, block)])) = Panic "assertion failed: `(left == right)`")
    as Hp.
  { rewrite run_spec by (apply Forall_app; by repeat constructor).
    eapply messages_of_bad; [|done]. rewrite map_app, concat_app. apply elem_of_app. right.
    simpl. by rewrite app_nil_r. }
  assert (run (before ++ (st, block) :: after) =
    then_notify (run (before ++ [(st, block)])) (run after)) as Ha.
  { clear. induction before as [|[st1 b1] before IH]; simpl.
    - by rewrite then_notify_assoc, then_notify_nil.
    - by rewrite IH, then_notify_assoc. }
  assert (run (before ++ (st, block) :: after) = run (before ++ [(st, block)])) as Heq.
  { rewrite Ha. destruct (run (before ++ [(st, block)])) as [sent r]. simpl in Hp. by subst r. }
  by rewrite Heq.
Qed.
End malformed.

Section duties.
Context `{BlstLaws} `{Bincode} `{!BincodeRoundTrip} `{!SigCodec}.
Context `{Rocksdb Digest bytes} `{!RocksdbReliable Digest bytes}.
Context (def : OperatorCommitteeDefinition) (Hdef : definition_ok def).

(** [signer] is the signer of operator [id], started from the definition. *)
Definition started (keypair : Keypair) (id : Z) (signer : DvfSigner) : Prop :=
  exists name base_address st i consensus mempool,
    operator_index name def = [i] /\ def_operator_ids def !! i = Some id /\
    spawn name base_address keypair def (Some st) = Ok (signer, consensus, mempool).

Lemma started_spec keypair id signer :
  started keypair id signer ->
  operator_id signer = id /\ local_keypair signer = keypair /\
  oc_threshold (operator_committee signer) = Z.to_nat (def_threshold def) /\
  (exists base_address, oc_operators (operator_committee signer) !! id =
     Some (Local (mkLocalOperator (def_validator_id def) id keypair base_address))) /\
  (forall id' operator, id' <> id ->
     oc_operators (operator_committee signer) !! id' = Some operator <->
     exists j, operator_at def j = Some (id', operator)).
Proof.
  intros (name & base_address & st & i & consensus & mempool & Hi & Hid & Hs).
  destruct (spawn_ok def Hdef name base_address keypair st i id Hi Hid)
    as (c & cc & mc & Hs' & _ & _ & _ & _ & Ht & Hown & Hops).
  rewrite Hs in Hs'. injection Hs' as -> _ _. eauto 10.
Qed.

Lemma started_members keypair id signer :
  started keypair id signer ->
  dom (oc_operators (operator_committee signer)) = list_to_set (def_operator_ids def).
Proof.
  intros Hst. pose proof Hst as (name & ba & st & i & cc & mc & _ & Hid & _).
  destruct (started_spec _ _ _ Hst) as (_ & _ & _ & [b Hown] & Hops).
  apply set_eq. intros id'. rewrite elem_of_dom, elem_of_list_to_set.
  destruct (decide (id' = id)) as [->|Hne].
  - rewrite Hown. split; [|done]. intros _. by eapply list_elem_of_lookup_2.
  - split.
    + intros [operator Hop]. apply Hops in Hop as [j Hj]; [|done].
      apply operator_at_id in Hj. by eapply list_elem_of_lookup_2.
    + intros [j Hj]%list_elem_of_lookup.
      destruct (operator_at_total def Hdef j) as [[id2 operator] Hat].
      { apply lookup_lt_Some in Hj. by rewrite (ok_ids _ Hdef) in Hj. }
      pose proof (operator_at_id _ _ _ _ Hat) as Hj2. rewrite Hj in Hj2. injection Hj2 as <-.
      exists operator. apply Hops; [done|]. by exists j.
Qed.

(** The leaders of the definition, and that every signer computes them. *)
Definition leader_at (r : Z) : Z :=
  let ids := merge_sort Z.le (def_operator_ids def) in
  default 0 (ids !! Z.to_nat (r mod Z.of_nat (length ids))).

Lemma started_sorted keypair id signer :
  started keypair id signer ->
  sorted_keys (oc_operators (operator_committee signer)) =
  merge_sort Z.le (def_operator_ids def).
Proof.
  intros Hst%started_members. apply (Sorted_unique Z.le);
    try apply Sorted_merge_sort; try apply _.
  rewrite merge_sort_Permutation.
  apply NoDup_Permutation; [apply sorted_keys_NoDup|apply (ok_distinct _ Hdef)|].
  intros k. by rewrite elem_of_sorted_keys, <- elem_of_dom, Hst, elem_of_list_to_set.
Qed.

Lemma started_size keypair id signer :
  started keypair id signer ->
  size (oc_operators (operator_committee signer)) = Z.to_nat (def_total def).
Proof.
  intros Hst. rewrite <- sorted_keys_length, (started_sorted _ _ _ Hst).
  by rewrite merge_sort_Permutation, (ok_ids _ Hdef).
Qed.

Lemma started_leader keypair id signer r :
  (0 < Z.to_nat (def_total def))%nat -> started keypair id signer ->
  get_leader (operator_committee signer) r = Ok (leader_at r).
Proof.
  intros Ht Hst. pose proof (started_size _ _ _ Hst) as Hs.
  destruct (operator_leader_total (operator_committee signer) r) as (l & Hl & _); [lia|].
  rewrite Hl. f_equal. apply operator_leader_lookup in Hl; [|lia].
  rewrite (started_sorted _ _ _ Hst) in Hl. unfold leader_at. by rewrite Hl.
Qed.

Lemma leader_at_lookup r :
  (0 < Z.to_nat (def_total def))%nat ->
  merge_sort Z.le (def_operator_ids def)
    !! Z.to_nat (r mod Z.of_nat (length (merge_sort Z.le (def_operator_ids def)))) =
  Some (leader_at r).
Proof.
  intros Ht. unfold leader_at.
  assert (length (merge_sort Z.le (def_operator_ids def)) = Z.to_nat (def_total def)) as Hl.
  { by rewrite merge_sort_Permutation, (ok_ids _ Hdef). }
  destruct (lookup_lt_is_Some_2 (merge_sort Z.le (def_operator_ids def))
    (Z.to_nat (r mod Z.of_nat (length (merge_sort Z.le (def_operator_ids def))))))
    as [x Hx]; [|by rewrite Hx].
  assert (0 < Z.of_nat (length (merge_sort Z.le (def_operator_ids def)))) as Hpos by lia.
  pose proof (Z.mod_pos_bound r _ Hpos). lia.
Qed.

Lemma leader_at_member r :
  (0 < Z.to_nat (def_total def))%nat -> leader_at r ∈ def_operator_ids def.
Proof.
  intros Ht. rewrite <- (merge_sort_Permutation Z.le (def_operator_ids def)).
  eapply list_elem_of_lookup_2. by apply leader_at_lookup.
Qed.

Lemma leader_at_rotates id a :
  id ∈ def_operator_ids def ->
  exists! r, a <= r < a + Z.of_nat (Z.to_nat (def_total def)) /\ leader_at r = id.
Proof.
  intros Hid. assert (0 < Z.to_nat (def_total def))%nat as Ht.
  { rewrite <- (ok_ids _ Hdef). destruct (def_operator_ids def); [|simpl; lia].
    by apply elem_of_nil in Hid. }
  destruct (rotation_unique (merge_sort Z.le (def_operator_ids def)) id a)
    as (r & [Hr Hl] & Hu).
  - rewrite merge_sort_Permutation. apply (ok_distinct _ Hdef).
  - by rewrite merge_sort_Permutation.
  - assert (length (merge_sort Z.le (def_operator_ids def)) = Z.to_nat (def_total def)) as Hlen.
    { by rewrite merge_sort_Permutation, (ok_ids _ Hdef). }
    rewrite leader_at_lookup in Hl by done. injection Hl as Hl.
    exists r. split; [split; [lia|done]|]. intros r' [Hr' Hl']. apply Hu.
    split; [lia|]. rewrite leader_at_lookup by done. by rewrite Hl'.
Qed.

Lemma leader_at_next r :
  (1 < Z.to_nat (def_total def))%nat -> leader_at r <> leader_at (r + 1).
Proof.
  intros Ht He. destruct (leader_at_rotates (leader_at r) r) as (x & _ & Hu).
  { apply leader_at_member. lia. }
  assert (x = r) by (apply Hu; split; [lia|done]).
  assert (x = r + 1) by (apply Hu; split; [lia|done]). lia.
Qed.

(** All signers started from one definition agree on the leaders; every
    operator leads exactly one of any [total] consecutive nonces, and for every
    epoch exactly two operators take themselves for aggregators, its leader and
    the leader of the next epoch. *)
Theorem aggregators_rotate :
  (1 < Z.to_nat (def_total def))%nat ->
  (forall keypair id signer r, started keypair id signer ->
     get_leader (operator_committee signer) r = Ok (leader_at r)) /\
  (forall id a, id ∈ def_operator_ids def ->
     exists! r, a <= r < a + Z.of_nat (Z.to_nat (def_total def)) /\ leader_at r = id) /\
  (forall r, leader_at r ∈ def_operator_ids def /\ leader_at r <> leader_at (r + 1)) /\
  (forall keypair id signer nonce, started keypair id signer -> 0 <= nonce < u64_max ->
     is_aggregator signer nonce =
     Ok (bool_decide (id = leader_at nonce \/ id = leader_at (nonce + 1)))).
Proof.
  intros Ht. split; [intros; apply (started_leader keypair id); [lia|done]|].
  split; [intros; by apply leader_at_rotates|]. split.
  - intros r. split; [apply leader_at_member; lia|]. by apply leader_at_next.
  - intros keypair id signer nonce Hst Hn. unfold is_aggregator.
    rewrite u64_id by (unfold is_u64; lia).
    rewrite !(started_leader keypair id) by (done || lia). cbn [mbind outcome_bind].
    destruct (started_spec _ _ _ Hst) as [-> _].
    destruct (Z.eqb_spec (leader_at nonce) id) as [<-|Hne].
    { rewrite bool_decide_true; auto. }
    apply (f_equal Ok). destruct (Z.eqb_spec (leader_at (nonce + 1)) id) as [<-|Hne2].
    + rewrite bool_decide_true; auto.
    + rewrite bool_decide_false; [done|]. intros [|]; congruence.
Qed.

(** The public keys of the definition belong to shares of a key. *)
Record dealt (cs : list Z) (share : Z -> Z) : Prop := {
  dealt_threshold : Z.to_nat (def_threshold def) = length cs;
  dealt_pos : (0 < length cs)%nat;
  dealt_shares i id pk :
    def_operator_ids def !! i = Some id -> def_operator_public_keys def !! i = Some pk ->
    is_share cs share id /\ pk = gmul (share id) ffi_p1_generator
}.

Definition share_keys (share : Z -> Z) (id : Z) : Keypair :=
  mkKeypair _ (gmul (share id) ffi_p1_generator) (share id).

Lemma operator_at_remote i id operator :
  operator_at def i = Some (id, operator) ->
  exists pk addr, def_operator_public_keys def !! i = Some pk /\
    def_base_socket_addresses def !! i = Some addr /\
    operator = Remote (mkRemoteOperator (def_validator_id def) id pk (default invalid_addr addr)).
Proof.
  unfold operator_at. intros (id' & Hid & Hr)%bind_Some.
  apply bind_Some in Hr as (pk & Hpk & Hr). apply bind_Some in Hr as (addr & Haddr & Hr).
  injection Hr as -> <-. eauto.
Qed.

Lemma started_shares cs share id signer :
  dealt cs share -> started (share_keys share id) id signer ->
  share_committee cs share (operator_committee signer).
Proof.
  intros [Ht Hpos Hsh] Hst. destruct (started_spec _ _ _ Hst) as (_ & _ & Ht' & [b Hown] & Hops).
  split; [congruence|]. split; [done|]. intros id' operator Hop.
  assert (forall i x, def_operator_ids def !! i = Some x -> is_share cs share x) as Hids.
  { intros i x Hi. destruct (lookup_lt_is_Some_2 (def_operator_public_keys def) i) as [pk Hpk].
    - apply lookup_lt_Some in Hi. by rewrite (ok_pks _ Hdef), <- (ok_ids _ Hdef).
    - by apply (Hsh i x pk). }
  destruct (decide (id' = id)) as [->|Hne].
  - rewrite Hown in Hop. injection Hop as <-. split; [|done].
    destruct Hst as (? & ? & ? & i & ? & ? & _ & Hi & _). by apply (Hids i).
  - apply Hops in Hop as [j Hj]; [|done]. pose proof (operator_at_id _ _ _ _ Hj) as Hid.
    apply operator_at_remote in Hj as (pk & addr & Hpk & _ & ->). by apply (Hsh j).
Qed.

(** The operators whose signature arrives: the signer itself, and operators with an
    address that have signed the message and serve it within the three tries. *)
Definition available (share : Z -> Z) (own : Z) (msg : Hash256) (attempts : Z -> nat -> attempt)
  (id : Z) : Prop :=
  exists i, def_operator_ids def !! i = Some id /\
  (id = own \/
   exists addr, def_base_socket_addresses def !! i = Some (Some addr) /\
     is_addr_invalid addr = false /\
     served (def_validator_id def) msg (share id) (attempts id)).

Lemma available_answers `{!SigCodecRoundTrip} `{!SigCodecStrict} share own signer msg attempts id :
  is_hash msg -> started (share_keys share own) own signer ->
  available share own msg attempts id ->
  exists operator, oc_operators (operator_committee signer) !! id = Some operator /\
    answers share operator id msg (attempts id).
Proof.
  intros Hm Hst (i & Hi & Hcase). destruct (started_spec _ _ _ Hst) as (_ & _ & _ & [b Hown] & Hops).
  destruct (decide (id = own)) as [->|Hne]; [by eexists|].
  destruct Hcase as [|(addr & Haddr & Hval & Hserved)]; [done|].
  destruct (operator_at_total def Hdef i) as [[id2 operator] Hat].
  { apply lookup_lt_Some in Hi. by rewrite (ok_ids _ Hdef) in Hi. }
  pose proof (operator_at_id _ _ _ _ Hat) as Hi2. rewrite Hi in Hi2. injection Hi2 as <-.
  exists operator. split; [apply Hops; [done|by exists i]|].
  apply operator_at_remote in Hat as (pk & addr' & _ & Haddr' & ->).
  rewrite Haddr in Haddr'. injection Haddr' as <-. by apply served_answers.
Qed.

(** The work of an aggregator when a threshold of operators are available. *)
Lemma duty_work `{!SigCodecRoundTrip} `{!SigCodecStrict} cs share sk own signer msg attempts quorum :
  dealt cs share -> is_secret sk -> fr (horner cs 0) = fr sk -> is_hash msg ->
  started (share_keys share own) own signer ->
  NoDup quorum -> (Z.to_nat (def_threshold def) <= length quorum)%nat ->
  Forall (available share own msg attempts) quorum ->
  exists ids, committee_sign (operator_committee signer) msg attempts =
    Ok (SecretKey_sign sk (hash_bytes msg), ids).
Proof.
  intros Hd Hsk Hsk0 Hm Hst Hnd Hlen Hq.
  pose proof (started_shares _ _ _ _ Hd Hst) as Hsc.
  destruct (started_spec _ _ _ Hst) as (_ & _ & Ht & _).
  eexists. apply (committee_sign_quorum cs share sk Hsk Hsk0 _ _ _ quorum Hsc Hnd); [by rewrite Ht|].
  rewrite Forall_forall in Hq. intros id Hid. by apply (available_answers share own), Hq.
Qed.

(** The signature that an aggregator returns. *)
Lemma duty_collected debug signer duty msg epoch work report signature ids :
  snd (duty_of duty) = false \/ is_aggregator signer epoch = Ok true -> can_report report ->
  work (local_sign_and_store signer msg) = Some (Ok (signature, ids)) ->
  snd (get_signature_from_root debug signer duty msg epoch work report) = Ok signature.
Proof.
  intros Hc Hrep Hw. unfold get_signature_from_root. destruct (duty_of duty) as [name only].
  cbn [snd] in *.
  change (is_aggregator (local_sign_and_store signer msg) epoch) with (is_aggregator signer epoch).
  assert (collected debug name report (work (local_sign_and_store signer msg)) = Ok signature) as Hr.
  { rewrite Hw. unfold collected. by rewrite (reported name report Hrep). }
  destruct only; cbn [negb]; [|exact Hr]. destruct Hc as [|Hc]; [done|]. by rewrite Hc.
Qed.

(** A store after writes under some keys. *)
Definition writes (kvs : list (Digest * bytes)) (st : Store.t Digest bytes)
  : Store.t Digest bytes :=
  foldl (fun st kv => fst (Store.write st kv.1 kv.2)) st kvs.

Lemma read_after_writes kvs st key :
  Store.running st = true -> key ∉ map fst kvs -> Store.read (writes kvs st) key = Store.read st key.
Proof.
  revert st. induction kvs as [|[k v] kvs IH]; intros st Hr Hk; [done|].
  apply not_elem_of_cons in Hk as [Hne Hk]. cbn.
  assert (Store.running (fst (Store.write st k v)) = true) as Hr'.
  { unfold Store.write, Store.exec. by rewrite Hr. }
  unfold writes in IH. rewrite IH by done. rewrite !Store.read_running by done.
  unfold Store.write, Store.exec. rewrite Hr. simpl. by apply put_get_other.
Qed.

(** The reply of the service, once the signature is stored and whatever is stored under
    other keys after it. *)
Lemma served_from_then_on signer msg kvs :
  is_hash msg -> Store.running (store signer) = true -> msg ∉ map fst kvs ->
  request_reply (writes kvs (store (local_sign_and_store signer msg)))
    (dvf_request (def_validator_id def) msg) =
  ser_sig (SecretKey_sign (Keypair_sk (local_keypair signer)) (hash_bytes msg)).
Proof.
  intros Hm Hr Hk. rewrite request_reply_key, read_after_writes, stored_signature; try done.
  simpl. unfold Store.write, Store.exec. by rewrite Hr.
Qed.

(** C8: signing of a duty, whatever the others do: when the operator starts to collect
    signatures its service already answers requests with its own, and it goes on to do so
    while other keys are written; an operator that is no aggregator of the epoch gets
    [NotLeader] for the duties that only aggregators collect, and serves its signature
    too.  When it collects, the report can be made and a threshold of operators are
    available, the duty is signed with the validator's key. *)
Theorem duty_signed `{!SigCodecRoundTrip} `{!SigCodecStrict}
  cs share sk own signer debug duty msg epoch work report :
  dealt cs share -> is_secret sk -> fr (horner cs 0) = fr sk -> is_hash msg ->
  started (share_keys share own) own signer -> Store.running (store signer) = true ->
  let '(signer', result) := get_signature_from_root debug signer duty msg epoch work report in
  let collects := snd (duty_of duty) = false \/ is_aggregator signer epoch = Ok true in
  let serves (s : DvfSigner) := forall kvs, msg ∉ map fst kvs ->
    request_reply (writes kvs (store s)) (dvf_request (def_validator_id def) msg) =
    ser_sig (SecretKey_sign (share own) (hash_bytes msg)) in
  serves signer' /\
  (collects -> exists seen, serves seen /\ operator_committee seen = operator_committee signer /\
     result = collected debug (fst (duty_of duty)) report (work seen)) /\
  (snd (duty_of duty) = true -> is_aggregator signer epoch = Ok false -> result = Err NotLeader) /\
  forall attempts quorum,
    (forall s, work s = Some (committee_sign (operator_committee s) msg attempts)) ->
    can_report report ->
    NoDup quorum -> (Z.to_nat (def_threshold def) <= length quorum)%nat ->
    Forall (available share own msg attempts) quorum -> collects ->
    result = Ok (SecretKey_sign sk (hash_bytes msg)) /\
    Signature_verify (SecretKey_sign sk (hash_bytes msg)) (gmul sk ffi_p1_generator)
      (hash_bytes msg) = true.
Proof.
  intros Hd Hsk Hsk0 Hm Hst Hr. destruct (started_spec _ _ _ Hst) as (_ & Hkp & _).
  assert (forall kvs, msg ∉ map fst kvs ->
    request_reply (writes kvs (store (local_sign_and_store signer msg)))
      (dvf_request (def_validator_id def) msg) =
    ser_sig (SecretKey_sign (share own) (hash_bytes msg))) as Hserved.
  { intros kvs Hk. by rewrite served_from_then_on, Hkp. }
  pose proof (duty_collected debug signer duty msg epoch work report) as Hres.
  destruct (get_signature_from_root _ _ _ _ _ _ _) as [signer' result] eqn:Eg. cbn [snd] in Hres.
  unfold get_signature_from_root in Eg. destruct (duty_of duty) as [name only]. cbn [fst snd] in *.
  change (is_aggregator (local_sign_and_store signer msg) epoch)
    with (is_aggregator signer epoch) in Eg.
  injection Eg as <- Er. split; [exact Hserved|]. split; [|split].
  - intros Hc. exists (local_sign_and_store signer msg). split; [exact Hserved|]. split; [done|].
    rewrite <- Er. destruct only; cbn [negb]; [|done]. destruct Hc as [|Hc]; [done|]. by rewrite Hc.
  - intros -> Ha. by rewrite Ha in Er.
  - intros attempts quorum Hwork Hrep Hnd Hlen Hq Hc.
    destruct (duty_work cs share sk own signer msg attempts quorum) as [ids Hids]; try done.
    split; [|by apply signature_verifies]. apply (Hres _ ids); [done|done|].
    rewrite Hwork. cbn [operator_committee local_sign_and_store]. by rewrite Hids.
Qed.
End duties.

(** ** Concrete runs *)

Section witnesses.
#[local] Existing Instances ideal_blst ideal_blst_laws ideal_bincode ideal_round_trip.
#[local] Existing Instances ideal_sig_codec ideal_sig_roundtrip.
#[local] Existing Instances ideal_mempool ideal_mempool_round_trip memory_db memory_db_reliable.

Lemma ideal_sig_strict : SigCodecStrict.
Proof. split; reflexivity. Qed.
#[local] Existing Instance ideal_sig_strict.

(** Two proposals in one batch. *)
Definition demo_transactions : list BatchMaker.input :=
  [BatchMaker.Transact (hash_bytes 5); BatchMaker.Transact (hash_bytes 6); BatchMaker.Timer].
Definition demo_sealed : list BatchMaker.sealed :=
  snd (BatchMaker.run 500 [] 7 demo_transactions BatchMaker.spawn).
Definition demo_stored : Store.t Digest bytes * list Digest :=
  Processor.run (map BatchMaker.serialized demo_sealed) empty_store.
Definition block_of (payload : list Digest) : Block.t :=
  Block.mk QC.genesis None 0 1 payload Signature_default.

(** A batch of another operator, with one message. *)
Definition their_batch : bytes := ser_mempool (BatchMsg [hash_bytes 9]).
Definition demo_shared : Store.t Digest bytes :=
  fst (Store.write demo_stored.1 (batch_digest their_batch) their_batch).

Lemma proposals_notified_witness :
  exists notified,
    run [(demo_shared, block_of [batch_digest their_batch]); (demo_shared, block_of demo_stored.2)]
      = (notified, Ok ()) /\ notified ≡ₚ [5; 6; 9].
Proof.
  destruct (proposals_notified 500 [] 7 demo_transactions [5; 6] BatchMaker.spawn demo_sealed
    empty_store demo_stored.1 demo_stored.2
    [(demo_shared, block_of [batch_digest their_batch]); (demo_shared, block_of demo_stored.2)]
    [batch_digest their_batch] (fun _ => [9])) as (_ & notified & Hrun & Hperm & _).
  - split; reflexivity.
  - reflexivity.
  - repeat constructor; discriminate || reflexivity.
  - reflexivity.
  - reflexivity.
  - reflexivity.
  - intros b b' _ _ He. injection He as He. exact (encode_inj _ _ He).
  - apply surjective_pairing.
  - apply (bool_decide_unpack _). vm_compute. exact I.
  - intros st1 block d Hin Hd. assert (st1 = demo_shared) as ->.
    { by apply elem_of_cons in Hin as [[= -> _]|[[= -> _]|[]%elem_of_nil]%elem_of_cons]. }
    split; intros Hdd; apply list_elem_of_singleton in Hdd as ->.
    + vm_compute. reflexivity.
    + exists their_batch. split_and!; [vm_compute; reflexivity..|].
      repeat constructor; discriminate || reflexivity.
  - by exists notified.
Defined.

(** A client sends a single byte as a transaction. *)
Definition demo_bad : bytes := ser_mempool (BatchMsg [hash_bytes 5; [1]]).
Definition bad_store : Store.t Digest bytes := fst (Processor.turn demo_bad empty_store).

Lemma malformed_transaction_stops_signing_witness :
  snd (run ([] ++ (bad_store, block_of [batch_digest demo_bad]) :: [])) =
    Panic "assertion failed: `(left == right)`".
Proof.
  apply (malformed_transaction_stops_signing [] bad_store (block_of [batch_digest demo_bad])
    [] [1]).
  - constructor.
  - constructor; [|constructor]. intros data.
    replace (Store.read bad_store (batch_digest demo_bad)) with
      (inr (Some demo_bad) : StoreError + option bytes) by (vm_compute; reflexivity).
    intros [= <-]. exists (BatchMsg [hash_bytes 5; [1]]). vm_compute. reflexivity.
  - replace (stored_transactions bad_store (Block.payload (block_of [batch_digest demo_bad])))
      with [hash_bytes 5; [1]] by (vm_compute; reflexivity).
    apply list_elem_of_further, list_elem_of_here.
  - discriminate.
Defined.

(** Three operators with shares of the key 7; the third has no address. *)
Definition demo_definition : OperatorCommitteeDefinition :=
  mkDefinition 3 2 5 (fr 7) [1; 2; 3]
    (map (fun id => gmul (demo_share id) ffi_p1_generator) [1; 2; 3]) [11; 12; 13]
    [Some demo_address; Some demo_address; None].

Lemma demo_definition_ok : definition_ok demo_definition.
Proof. constructor; [reflexivity..|]. apply (bool_decide_unpack _). reflexivity. Qed.

Lemma demo_dealt : dealt demo_definition [7; 12] demo_share.
Proof.
  constructor; [reflexivity|simpl; lia|]. intros i id pk Hid Hpk.
  cbn [demo_definition def_operator_ids] in Hid.
  assert (def_operator_public_keys demo_definition !! i =
    Some (gmul (demo_share id) ffi_p1_generator)) as Hpk'.
  { cbn [demo_definition def_operator_public_keys]. by rewrite list_lookup_fmap, Hid. }
  rewrite Hpk in Hpk'. injection Hpk' as ->.
  split; [|done]. apply list_elem_of_lookup_2 in Hid.
  assert (0 < id < 4) as Hi by (repeat apply elem_of_cons in Hid as [->|Hid]; try lia;
    by apply elem_of_nil in Hid).
  by apply demo_share_is_share.
Qed.

Lemma demo_started : exists signer,
  started demo_definition (share_keys demo_share 1) 1 signer /\ store signer = empty_store.
Proof.
  destruct (spawn_ok demo_definition demo_definition_ok 11 demo_address (share_keys demo_share 1)
    empty_store 0 1) as (c & cc & mc & Hs & _); [reflexivity..|].
  eexists. split; [|].
  - exists 11, demo_address, empty_store, 0%nat, cc, mc. split; [reflexivity|].
    split; [reflexivity|exact Hs].
  - reflexivity.
Qed.

Lemma aggregators_rotate_witness :
  leader_at demo_definition 4 = 2 /\ leader_at demo_definition 4 <> leader_at demo_definition 5.
Proof.
  split; [reflexivity|].
  apply (aggregators_rotate demo_definition demo_definition_ok). simpl. lia.
Defined.

(** Operator 2 signs between the first and the second try. *)
Definition second_signer : DvfSigner :=
  mkDvfSigner 2 (OperatorCommittee_new 5 (fr 7) 2) (share_keys demo_share 2) empty_store.
Definition demo_attempts (id : Z) (i : nat) : attempt :=
  if negb (id =? 2) then TimedOut
  else match i with
       | O => Replied (request_reply (store second_signer) (dvf_request 5 99))
       | 1%nat => Replied (request_reply (store (local_sign_and_store second_signer 99))
                             (dvf_request 5 99))
       | _ => TimedOut
       end.

Lemma duty_signed_witness :
  exists signer, snd (get_signature_from_root (fun _ => "") signer RandaoReveal 99 4
    (fun s => Some (committee_sign (operator_committee s) 99 demo_attempts))
    (mkReporting (inr ()) (Some ""))) = Ok (SecretKey_sign 7 (hash_bytes 99)).
Proof.
  destruct demo_started as (signer & Hst & Hstore). exists signer.
  pose proof (duty_signed demo_definition demo_definition_ok [7; 12] demo_share 7 1 signer
    (fun _ => "") RandaoReveal 99 4
    (fun s => Some (committee_sign (operator_committee s) 99 demo_attempts))
    (mkReporting (inr ()) (Some "")) demo_dealt) as Hd.
  destruct Hd as (_ & _ & _ & Hd).
  - unfold is_secret. pose proof modulus_bits. lia.
  - apply (f_equal fr). reflexivity.
  - unfold is_hash. lia.
  - exact Hst.
  - by rewrite Hstore.
  - refine (proj1 (Hd demo_attempts [1; 2] (fun _ => eq_refl) _ _ _ _ (or_introl eq_refl))).
    + split; [reflexivity|]. by eexists.
    + apply (bool_decide_unpack _). reflexivity.
    + simpl. lia.
    + constructor; [exists 0%nat; split; [reflexivity|by left]|].
      constructor; [|constructor]. exists 1%nat. split; [reflexivity|]. right.
      exists demo_address. split; [reflexivity|]. split; [reflexivity|].
      exists 1%nat, second_signer. split; [lia|]. split; [reflexivity|]. split; [reflexivity|].
      split; [reflexivity|]. intros [|k] Hk; [|lia]. right. right.
      exists empty_store. split; [discriminate|reflexivity].
Defined.
End witnesses.
