(* ===== verification/Doppelganger.v ===== *)
(** * The doppelganger service

    Models [src/validation/doppelganger_service.rs]: a validator that starts after
    genesis does not sign before the service has seen one epoch in which the
    beacon node saw no message of it.  The clock, the beacon node and the index of
    a validator are arguments.  Between the request to the beacon node and the
    processing of its responses other validators may be registered, so a run is a
    sequence of registrations and processed responses. *)

From S2P Require Import Prelude.

Abbreviation Epoch := Z (only parsing).
Abbreviation Slot := Z (only parsing).
Abbreviation PublicKeyBytes := Z (only parsing).

(** What is used of [types::Slot] and [types::Epoch]. *)
Class EthSpec := {
  slot_epoch : Slot -> Epoch;
  epoch_end_slot : Epoch -> Slot
}.

Definition saturating_add (a b : Z) : Z := Z.min u64_max (a + b).
Definition saturating_sub (a b : Z) : Z := Z.max 0 (a - b).

(** ** [DoppelgangerStatus] *)

Inductive DoppelgangerStatus : Type :=
| SigningEnabled (pubkey : PublicKeyBytes)
| SigningDisabled (pubkey : PublicKeyBytes)
| UnknownToDoppelganger (pubkey : PublicKeyBytes).

Definition only_safe (s : DoppelgangerStatus) : option PublicKeyBytes :=
  match s with
  | SigningEnabled pubkey => Some pubkey
  | SigningDisabled _ => None
  | UnknownToDoppelganger _ => None
  end.

Definition ignored (s : DoppelgangerStatus) : option PublicKeyBytes :=
  match s with
  | SigningEnabled pubkey => Some pubkey
  | SigningDisabled pubkey => Some pubkey
  | UnknownToDoppelganger _ => None
  end.

Definition only_unsafe (s : DoppelgangerStatus) : option PublicKeyBytes :=
  match s with
  | SigningEnabled _ => None
  | SigningDisabled pubkey => Some pubkey
  | UnknownToDoppelganger pubkey => Some pubkey
  end.

(** ** [DoppelgangerState] *)

Definition DEFAULT_REMAINING_DETECTION_EPOCHS : Z := 1.

Record DoppelgangerState := mkDoppelgangerState {
  next_check_epoch : Epoch;
  remaining_epochs : Z
}.

Definition requires_further_checks (d : DoppelgangerState) : bool := 0 <? remaining_epochs d.

Definition complete_detection_in_epoch (d : DoppelgangerState) (epoch : Epoch)
  : DoppelgangerState :=
  mkDoppelgangerState (saturating_add epoch 1) (saturating_sub (remaining_epochs d) 1).

(** ** [DoppelgangerService] *)

Abbreviation states := (gmap PublicKeyBytes DoppelgangerState) (only parsing).

(** The error texts of the service. *)
Inductive DetectionError : Type :=
| UnreadableClock
| UnexpectedEpoch (got expected : Epoch)
| InconsistentIndices (index : Z)
| InconsistentStates (pubkey : PublicKeyBytes).

Record LivenessResponseData := mkLiveness {
  index : Z;
  epoch : Epoch;
  is_live : bool
}.

Record LivenessResponses := mkLivenessResponses {
  current_epoch_responses : list LivenessResponseData;
  previous_epoch_responses : list LivenessResponseData
}.

Section service.
Context `{EthSpec}.

Definition new : states := ∅.

Definition validator_status (st : states) (validator : PublicKeyBytes) : DoppelgangerStatus :=
  match st !! validator with
  | Some v =>
      if requires_further_checks v then SigningDisabled validator else SigningEnabled validator
  | None => UnknownToDoppelganger validator
  end.

(** [now] is the reading of [now_or_genesis]. *)
Definition register_new_validator (validator : PublicKeyBytes) (now : option Slot)
  (genesis_slot : Slot) (st : states) : outcome DetectionError states :=
  match now with
  | None => Err UnreadableClock
  | Some now =>
      let current_epoch := slot_epoch now in
      let genesis_epoch := slot_epoch genesis_slot in
      let remaining :=
        if current_epoch <=? genesis_epoch then 0 else DEFAULT_REMAINING_DETECTION_EPOCHS in
      mret (<[validator := mkDoppelgangerState (saturating_add current_epoch 1) remaining]> st)
  end.

(** The two requests to the beacon node; a failed one counts as an empty answer. *)
Definition beacon_node_liveness (query : list Z -> Epoch -> option (list LivenessResponseData))
  (current_epoch : Epoch) (validator_indices : list Z) : LivenessResponses :=
  let previous_epoch := saturating_sub current_epoch 1 in
  let previous :=
    if previous_epoch =? current_epoch then []
    else default [] (query validator_indices previous_epoch) in
  mkLivenessResponses (default [] (query validator_indices current_epoch)) previous.

Definition compute_detection_indices_map (get_index : PublicKeyBytes -> option Z) (st : states)
  : gmap Z PublicKeyBytes :=
  let detection_pubkeys :=
    omap (fun '(pubkey, state) => if requires_further_checks state then Some pubkey else None)
      (map_to_list st) in
  foldl (fun m pubkey =>
    match get_index pubkey with Some index => <[index := pubkey]> m | None => m end)
    ∅ detection_pubkeys.

(** The first loop of [process_liveness_responses]. *)
Definition is_violator (indices_map : gmap Z PublicKeyBytes) (st : states)
  (response : LivenessResponseData) : bool :=
  is_live response &&
  match indices_map !! index response with
  | Some pubkey =>
      match st !! pubkey with
      | Some state => next_check_epoch state <=? epoch response
      | None => false
      end
  | None => false
  end.

Definition violators (indices_map : gmap Z PublicKeyBytes) (st : states)
  (responses : LivenessResponses) : list Z :=
  map index (filter (is_violator indices_map st)
    (previous_epoch_responses responses ++ current_epoch_responses responses)).

(** The second loop, over the responses for the previous epoch. *)
Fixpoint update_loop (violators_exist satisfied : bool) (previous_epoch : Epoch)
  (indices_map : gmap Z PublicKeyBytes) (responses : list LivenessResponseData) (st : states)
  : states * outcome DetectionError () :=
  match responses with
  | [] => (st, mret ())
  | response :: responses =>
      if negb (epoch response =? previous_epoch)
      then (st, Err (UnexpectedEpoch (epoch response) previous_epoch))
      else
        match indices_map !! index response with
        | None => (st, Err (InconsistentIndices (index response)))
        | Some pubkey =>
            match st !! pubkey with
            | None => (st, Err (InconsistentStates pubkey))
            | Some state =>
                let state' :=
                  if violators_exist
                  then mkDoppelgangerState (next_check_epoch state) u64_max
                  else if negb (is_live response) &&
                          (satisfied && (next_check_epoch state <=? previous_epoch))
                  then complete_detection_in_epoch state previous_epoch
                  else state in
                update_loop violators_exist satisfied previous_epoch indices_map responses
                  (<[pubkey := state']> st)
            end
        end
  end.

(** The states, the result, and whether [shutdown_func] is called. *)
Definition process_liveness_responses (request_slot : Slot) (responses : LivenessResponses)
  (indices_map : gmap Z PublicKeyBytes) (st : states)
  : states * outcome DetectionError () * bool :=
  let request_epoch := slot_epoch request_slot in
  let previous_epoch := saturating_sub request_epoch 1 in
  let violators_exist := negb (bool_decide (violators indices_map st responses = [])) in
  let satisfaction_slot := epoch_end_slot (saturating_add previous_epoch 1) in
  let satisfied := satisfaction_slot <=? request_slot in
  let '(st', r) :=
    update_loop violators_exist satisfied previous_epoch indices_map
      (previous_epoch_responses responses) st in
  (st', r, match r with Ok _ => violators_exist | _ => false end).

Definition detect_doppelgangers (request_slot : Slot) (get_index : PublicKeyBytes -> option Z)
  (get_liveness : Epoch -> list Z -> LivenessResponses) (st : states)
  : states * outcome DetectionError () * bool :=
  let indices_map := compute_detection_indices_map get_index st in
  if bool_decide (indices_map = ∅) then (st, mret (), false)
  else
    let indices_only := map fst (map_to_list indices_map) in
    let request_epoch := slot_epoch request_slot in
    process_liveness_responses request_slot (get_liveness request_epoch indices_only)
      indices_map st.

(** ** Runs *)

(** A registration, and the responses to a request that was made with some map. *)
Inductive event : Type :=
| Register (validator : PublicKeyBytes) (now : option Slot) (genesis_slot : Slot)
| Process (request_slot : Slot) (indices_map : gmap Z PublicKeyBytes)
    (responses : LivenessResponses).

Definition step (st : states) (e : event) : states :=
  match e with
  | Register validator now genesis_slot =>
      match register_new_validator validator now genesis_slot st with
      | Ok st' => st'
      | _ => st
      end
  | Process request_slot indices_map responses =>
      fst (fst (process_liveness_responses request_slot responses indices_map st))
  end.

Definition run (es : list event) : states := foldl step new es.
End service.

(** ** Facts about the loops *)

Section facts.
Context `{EthSpec}.

Lemma violators_nil indices_map st responses :
  violators indices_map st responses = [] <->
  forall r, r ∈ previous_epoch_responses responses ++ current_epoch_responses responses ->
    is_violator indices_map st r = false.
Proof.
  unfold violators.
  induction (previous_epoch_responses responses ++ current_epoch_responses responses)
    as [|x l IH]; simpl.
  - split; [|done]. by intros _ r ?%elem_of_nil.
  - rewrite filter_cons. destruct (is_violator indices_map st x) eqn:Hx.
    + rewrite decide_True by done. split; [done|]. intros Hall.
      rewrite (Hall x (list_elem_of_here _ _)) in Hx. done.
    + rewrite decide_False by auto. rewrite IH. split.
      * intros Hall r [->|Hr]%elem_of_cons; auto.
      * intros Hall r Hr. apply Hall. by apply list_elem_of_further.
Qed.

(** What the second loop does to the state of one validator. *)
Lemma update_loop_at ve satisfied previous m responses st st' r v d :
  update_loop ve satisfied previous m responses st = (st', r) -> st !! v = Some d ->
  exists d', st' !! v = Some d' /\
    (ve = true -> d' = d \/ d' = mkDoppelgangerState (next_check_epoch d) u64_max) /\
    (ve = false -> d' = d \/
       exists x, x ∈ responses /\ m !! index x = Some v /\ epoch x = previous /\
         is_live x = false /\ satisfied = true /\ next_check_epoch d <= previous).
Proof.
  revert st d. induction responses as [|x responses IH]; intros st d Hl Hd; simpl in Hl.
  { injection Hl as <- _. exists d. auto. }
  assert (forall r0, (st, r0) = (st', r) -> exists d', st' !! v = Some d' /\
    (ve = true -> d' = d \/ d' = mkDoppelgangerState (next_check_epoch d) u64_max) /\
    (ve = false -> d' = d \/ exists y, y ∈ x :: responses /\ m !! index y = Some v /\
       epoch y = previous /\ is_live y = false /\ satisfied = true /\
       next_check_epoch d <= previous)) as Hstop.
  { intros r0 [= <- _]. exists d. auto. }
  destruct (epoch x =? previous) eqn:He; simpl in Hl; [|by eapply Hstop].
  destruct (m !! index x) as [pk|] eqn:Hm; [|by eapply Hstop].
  destruct (st !! pk) as [d0|] eqn:Hd0; [|by eapply Hstop].
  destruct (decide (pk = v)) as [->|Hne].
  - rewrite Hd in Hd0. injection Hd0 as <-.
    destruct (IH _ _ Hl (lookup_insert_eq _ _ _)) as (d' & Hd' & Ht & Hf). exists d'.
    split; [done|]. split.
    + intros ->. destruct (Ht eq_refl) as [->| ->]; by right.
    + intros ->. destruct (negb (is_live x) && _) eqn:Hx.
      * apply andb_true_iff in Hx as [Hx1 [Hx2 Hx3]%andb_true_iff].
        right. exists x. split; [apply list_elem_of_here|].
        apply negb_true_iff in Hx1. repeat split; try done; lia.
      * destruct (Hf eq_refl) as [->|(y & Hy & Hrest)]; [by left|].
        right. exists y. split; [by apply list_elem_of_further|done].
  - destruct (IH _ d Hl) as (d' & Hd' & Ht & Hf); [by rewrite lookup_insert_ne|].
    exists d'. split; [done|]. split; [done|]. intros Hve.
    destruct (Hf Hve) as [->|(y & Hy & Hrest)]; [by left|].
    right. exists y. split; [by apply list_elem_of_further|done].
Qed.

Lemma update_loop_none ve satisfied previous m responses st st' r v :
  update_loop ve satisfied previous m responses st = (st', r) -> st !! v = None ->
  st' !! v = None.
Proof.
  revert st. induction responses as [|x responses IH]; intros st Hl Hv; simpl in Hl.
  { by injection Hl as <- _. }
  destruct (negb _); [by injection Hl as <- _|].
  destruct (m !! index x) as [pk|]; [|by injection Hl as <- _].
  destruct (st !! pk) as [d0|] eqn:Hd0; [|by injection Hl as <- _].
  apply (IH _ Hl). rewrite lookup_insert_ne; [done|congruence].
Qed.

(** Responses that pass the sanity checks. *)
Definition sane (previous : Epoch) (m : gmap Z PublicKeyBytes) (st : states)
  (x : LivenessResponseData) : Prop :=
  epoch x = previous /\ exists pk d, m !! index x = Some pk /\ st !! pk = Some d.

Lemma sane_insert previous m st x pk d :
  sane previous m st x -> sane previous m (<[pk := d]> st) x.
Proof.
  intros (He & pk' & d' & Hm & Hd). split; [done|].
  destruct (decide (pk = pk')) as [->|Hne].
  - exists pk', d. by rewrite lookup_insert_eq.
  - exists pk', d'. by rewrite lookup_insert_ne.
Qed.

Lemma update_loop_sane ve satisfied previous m responses st :
  Forall (sane previous m st) responses ->
  snd (update_loop ve satisfied previous m responses st) = Ok ().
Proof.
  revert st. induction responses as [|x responses IH]; intros st Hs; [done|].
  apply Forall_cons in Hs as [(He & pk & d & Hm & Hd) Hs]. simpl.
  rewrite He, Z.eqb_refl, Hm, Hd. simpl. apply IH.
  eapply Forall_impl; [done|]. intros y Hy. by apply sane_insert.
Qed.

(** With violators every validator in the responses is disabled for good. *)
Lemma update_loop_violators satisfied previous m responses st st' x v :
  update_loop true satisfied previous m responses st = (st', Ok ()) ->
  x ∈ responses -> m !! index x = Some v ->
  exists d', st' !! v = Some d' /\ remaining_epochs d' = u64_max.
Proof.
  revert st. induction responses as [|y responses IH]; intros st Hl Hx Hm;
    [by apply elem_of_nil in Hx|]. simpl in Hl.
  destruct (negb _); [done|]. destruct (m !! index y) as [pk|] eqn:Hy; [|done].
  destruct (st !! pk) as [d0|] eqn:Hd0; [|done].
  apply elem_of_cons in Hx as [->|Hx]; [|by eapply IH].
  rewrite Hm in Hy. injection Hy as <-.
  destruct (update_loop_at _ _ _ _ _ _ _ _ _ _ Hl (lookup_insert_eq _ _ _))
    as (d' & Hd' & Ht & _).
  exists d'. split; [done|]. by destruct (Ht eq_refl) as [->| ->].
Qed.

(** An epoch is completed once. *)
Lemma update_loop_complete previous m responses st v d :
  Forall (sane previous m st) responses -> previous < u64_max ->
  st !! v = Some d -> next_check_epoch d <= previous ->
  (forall x, x ∈ responses -> m !! index x = Some v -> is_live x = false) ->
  (exists x, x ∈ responses /\ m !! index x = Some v) ->
  fst (update_loop false true previous m responses st) !! v =
  Some (complete_detection_in_epoch d previous).
Proof.
  revert st. induction responses as [|y responses IH]; intros st Hs Hp Hd Hn Hlive (x & Hx & Hm);
    [by apply elem_of_nil in Hx|].
  apply Forall_cons in Hs as [(He & pk & d0 & Hy & Hd0) Hs]. simpl.
  rewrite He, Z.eqb_refl, Hy, Hd0. simpl.
  match goal with |- context [<[pk := ?e]> st] => set (d1 := e) end.
  assert (Forall (sane previous m (<[pk := d1]> st)) responses) as Hs'.
  { eapply Forall_impl; [done|]. intros z Hz. by apply sane_insert. }
  assert (forall z, z ∈ responses -> m !! index z = Some v -> is_live z = false) as Hlive'.
  { intros z Hz. apply Hlive. by apply list_elem_of_further. }
  destruct (decide (pk = v)) as [->|Hne].
  - rewrite Hd in Hd0. injection Hd0 as <-.
    assert (d1 = complete_detection_in_epoch d previous) as Hd1.
    { unfold d1. rewrite (Hlive y (list_elem_of_here _ _) Hy). simpl.
      by rewrite (proj2 (Z.leb_le _ _) Hn). }
    destruct (update_loop false true previous m responses (<[v := d1]> st)) as [st' r] eqn:Hl.
    destruct (update_loop_at _ _ _ _ _ _ _ _ _ _ Hl (lookup_insert_eq _ _ _))
      as (d' & Hd' & _ & Hf).
    simpl. rewrite Hd'. destruct (Hf eq_refl) as [->|(z & _ & _ & _ & _ & _ & Hn')]; [congruence|].
    rewrite Hd1 in Hn'. simpl in Hn'. unfold saturating_add in Hn'. lia.
  - apply IH; [done|done|by rewrite lookup_insert_ne|done|done|].
    apply elem_of_cons in Hx as [->|Hx]; [congruence|]. by exists x.
Qed.
End facts.

(** ** The validators that are asked for *)

Section detection.
Context (get_index : PublicKeyBytes -> option Z).

Definition add_index (m : gmap Z PublicKeyBytes) (pubkey : PublicKeyBytes)
  : gmap Z PublicKeyBytes :=
  match get_index pubkey with Some index => <[index := pubkey]> m | None => m end.

Lemma add_index_sound l m i v :
  foldl add_index m l !! i = Some v -> (v ∈ l /\ get_index v = Some i) \/ m !! i = Some v.
Proof.
  revert m. induction l as [|x l IH]; intros m Hl; [by right|]. simpl in Hl.
  destruct (IH _ Hl) as [[Hin Hi]|Hm]; [left; split; [by apply list_elem_of_further|done]|].
  unfold add_index in Hm. destruct (get_index x) as [j|] eqn:Hx; [|by right].
  apply lookup_insert_Some in Hm as [[<- <-]|[_ Hm]]; [|by right].
  left. split; [apply list_elem_of_here|done].
Qed.

Lemma add_index_complete l m i v :
  (forall a b j, get_index a = Some j -> get_index b = Some j -> a = b) ->
  get_index v = Some i -> v ∈ l \/ m !! i = Some v -> foldl add_index m l !! i = Some v.
Proof.
  intros Hinj Hi. revert m. induction l as [|x l IH]; intros m Hv; simpl.
  { destruct Hv as [Hv|Hv]; [by apply elem_of_nil in Hv|done]. }
  apply IH. rewrite elem_of_cons in Hv. unfold add_index.
  destruct Hv as [[->|Hv]|Hv]; [right|by left|right].
  - rewrite Hi. apply lookup_insert_eq.
  - destruct (get_index x) as [j|] eqn:Hx; [|done].
    destruct (decide (j = i)) as [->|]; [|by rewrite lookup_insert_ne].
    rewrite lookup_insert_eq. by rewrite (Hinj x v i).
Qed.

Lemma detection_map st i v :
  (forall a b j, get_index a = Some j -> get_index b = Some j -> a = b) ->
  compute_detection_indices_map get_index st !! i = Some v <->
  get_index v = Some i /\ exists d, st !! v = Some d /\ requires_further_checks d = true.
Proof.
  intros Hinj. unfold compute_detection_indices_map. fold add_index. set (l := omap _ _).
  assert (forall v, v ∈ l <-> exists d, st !! v = Some d /\ requires_further_checks d = true) as Hl.
  { intros w. unfold l. rewrite list_elem_of_omap. split.
    - intros ([w' d] & Hin%elem_of_map_to_list & Hd).
      destruct (requires_further_checks d) eqn:Hr; [|done]. injection Hd as ->. by exists d.
    - intros (d & Hd & Hr). exists (w, d). rewrite elem_of_map_to_list. by rewrite Hr. }
  split.
  - intros [[Hin Hi]|He]%add_index_sound; [|by rewrite lookup_empty in He].
    split; [done|by apply Hl].
  - intros [Hi Hd]. apply add_index_complete; [done|done|]. left. by apply Hl.
Qed.
End detection.

(** ** Properties *)

Section properties.
Context `{EthSpec}.

(** A check after the registration in epoch [e] in which the beacon node reported
    the validator silent in a later epoch that is over, and saw no message of it
    since. *)
Definition silent_check (v : PublicKeyBytes) (e : Epoch) (ev : event) : Prop :=
  match ev with
  | Process slot m responses =>
      (exists x, x ∈ previous_epoch_responses responses /\ m !! index x = Some v /\
         is_live x = false /\ epoch x = saturating_sub (slot_epoch slot) 1 /\
         saturating_add e 1 <= epoch x /\
         epoch_end_slot (saturating_add (epoch x) 1) <= slot) /\
      (forall y, y ∈ previous_epoch_responses responses ++ current_epoch_responses responses ->
         m !! index y = Some v -> is_live y = true -> epoch y < saturating_add e 1)
  | Register _ _ _ => False
  end.

(** The last registration of a validator in a run, and what is known since. *)
Definition registered (es : list event) (v : PublicKeyBytes) (d : DoppelgangerState) : Prop :=
  exists es1 now genesis es2,
    es = es1 ++ Register v (Some now) genesis :: es2 /\
    (forall now' genesis', Register v (Some now') genesis' ∉ es2) /\
    (slot_epoch now <= slot_epoch genesis \/
     (exists ev, ev ∈ es2 /\ silent_check v (slot_epoch now) ev) \/
     next_check_epoch d = saturating_add (slot_epoch now) 1 /\ 0 < remaining_epochs d).

Lemma registered_snoc es v d d' ev :
  registered es v d ->
  (forall now genesis, ev <> Register v (Some now) genesis) ->
  (forall e, next_check_epoch d = saturating_add e 1 -> 0 < remaining_epochs d ->
     silent_check v e ev \/
     next_check_epoch d' = saturating_add e 1 /\ 0 < remaining_epochs d') ->
  registered (es ++ [ev]) v d'.
Proof.
  intros (es1 & now & genesis & es2 & -> & Hlast & Hcase) Hev Hstep.
  exists es1, now, genesis, (es2 ++ [ev]). split; [by rewrite <- app_assoc|]. split.
  { intros now' genesis' [Hin|Hin%list_elem_of_singleton]%elem_of_app; [by eapply Hlast|].
    by eapply Hev. }
  destruct Hcase as [Hg|[(e0 & Hin & Hs)|[Hn Hr]]]; [by left|right; left|right].
  - exists e0. split; [by apply elem_of_app; left|done].
  - destruct (Hstep _ Hn Hr) as [Hs|Hd]; [left|by right].
    exists ev. split; [|done]. apply elem_of_app. right. by apply list_elem_of_singleton.
Qed.

Lemma process_registered es v d slot m responses d' :
  registered es v d -> run es !! v = Some d ->
  run (es ++ [Process slot m responses]) !! v = Some d' ->
  registered (es ++ [Process slot m responses]) v d'.
Proof.
  intros Hreg Hd Hd'. eapply registered_snoc; [exact Hreg|done|]. intros e Hn Hr.
  unfold run in Hd'. rewrite foldl_app in Hd'. simpl in Hd'. fold (run es) in Hd'.
  unfold process_liveness_responses in Hd'.
  destruct (update_loop _ _ _ _ _ _) as [st' r] eqn:Hl. simpl in Hd'.
  destruct (update_loop_at _ _ _ _ _ _ _ _ _ _ Hl Hd) as (d1 & Hd1 & Ht & Hf).
  rewrite Hd' in Hd1. injection Hd1 as <-.
  destruct (bool_decide (violators m (run es) responses = [])) eqn:Hv; simpl in *.
  - destruct (Hf eq_refl) as [->|(x & Hx & Hm & He & Hlive & Hsat & Hle)]; [by right|].
    left. split.
    + exists x. rewrite Hn in Hle. rewrite He. repeat split; try done. lia.
    + intros y Hy Hmy Hly. apply bool_decide_eq_true in Hv.
      pose proof (proj1 (violators_nil _ _ _) Hv y Hy) as Hno. unfold is_violator in Hno.
      rewrite Hly, Hmy, Hd, Hn in Hno. simpl in Hno. lia.
  - right. destruct (Ht eq_refl) as [->| ->]; [done|]. simpl. unfold u64_max. split; [done|lia].
Qed.

Lemma run_registered es v d : run es !! v = Some d -> registered es v d.
Proof.
  revert v d. induction es as [|ev es IH] using rev_ind; intros v d Hd.
  { unfold run in Hd. simpl in Hd. unfold new in Hd. by rewrite lookup_empty in Hd. }
  destruct ev as [w now genesis|slot m responses].
  - unfold run in Hd. rewrite foldl_app in Hd. simpl in Hd. fold (run es) in Hd.
    destruct now as [now|]; simpl in Hd.
    2: { eapply registered_snoc; [by apply IH|done|by right]. }
    apply lookup_insert_Some in Hd as [[<- <-]|[Hne Hd]].
    + exists es, now, genesis, []. split; [done|]. split; [by intros ? ? ?%elem_of_nil|].
      destruct (Z.leb_spec (slot_epoch now) (slot_epoch genesis)); [by left|].
      right. right. split; [done|]. simpl. unfold DEFAULT_REMAINING_DETECTION_EPOCHS. lia.
    + eapply registered_snoc; [by apply IH| |by right]. intros ? ? [=]. congruence.
  - destruct (run es !! v) as [d0|] eqn:Hd0.
    + eapply process_registered; [by apply IH|done|done].
    + unfold run in Hd. rewrite foldl_app in Hd. simpl in Hd. fold (run es) in Hd.
      unfold process_liveness_responses in Hd.
      destruct (update_loop _ _ _ _ _ _) as [st' r] eqn:Hl. simpl in Hd.
      by rewrite (update_loop_none _ _ _ _ _ _ _ _ _ Hl Hd0) in Hd.
Qed.

(** C29: a validator is enabled for signing only if its last registration was at
    genesis, or since then a check found it silent for a whole later epoch: the
    epoch was over, the beacon node reported it not live for it, and nothing in
    the same responses shows it live after the registration. *)
Theorem enabled_only_after_silence es v :
  validator_status (run es) v = SigningEnabled v ->
  exists es1 now genesis es2,
    es = es1 ++ Register v (Some now) genesis :: es2 /\
    (forall now' genesis', Register v (Some now') genesis' ∉ es2) /\
    (slot_epoch now <= slot_epoch genesis \/
     exists ev, ev ∈ es2 /\ silent_check v (slot_epoch now) ev).
Proof.
  unfold validator_status, requires_further_checks. destruct (run es !! v) as [d|] eqn:Hd; [|done].
  destruct (Z.ltb_spec 0 (remaining_epochs d)); [done|]. intros _.
  destruct (run_registered _ _ _ Hd) as (es1 & now & genesis & es2 & He & Hl & Hc).
  exists es1, now, genesis, es2. split; [done|]. split; [done|].
  destruct Hc as [Hc|[Hc|[_ Hc]]]; [by left|by right|lia].
Qed.

(** When a response shows a waiting validator live in or after its next check
    epoch, no validator becomes enabled; if the responses for the previous epoch are
    sane the client is told to shut down and all validators in them are disabled
    with the largest counter. *)
Theorem doppelganger_detected slot m responses st x v d :
  x ∈ previous_epoch_responses responses ++ current_epoch_responses responses ->
  is_live x = true -> m !! index x = Some v -> st !! v = Some d ->
  next_check_epoch d <= epoch x ->
  let '(st', r, shutdown) := process_liveness_responses slot responses m st in
  (forall w, validator_status st' w = SigningEnabled w ->
     validator_status st w = SigningEnabled w) /\
  (Forall (sane (saturating_sub (slot_epoch slot) 1) m st)
     (previous_epoch_responses responses) ->
   r = Ok () /\ shutdown = true /\
   forall y w, y ∈ previous_epoch_responses responses -> m !! index y = Some w ->
     exists d', st' !! w = Some d' /\ remaining_epochs d' = u64_max).
Proof.
  intros Hx Hlive Hm Hd Hn. unfold process_liveness_responses.
  assert (violators m st responses <> []) as Hv.
  { intros Hv. pose proof (proj1 (violators_nil _ _ _) Hv x Hx) as Hno. unfold is_violator in Hno.
    rewrite Hlive, Hm, Hd in Hno. simpl in Hno. lia. }
  rewrite bool_decide_false by done. simpl.
  destruct (update_loop true _ _ _ _ _) as [st' r] eqn:Hl. split.
  - intros w. unfold validator_status, requires_further_checks.
    destruct (st !! w) as [dw|] eqn:Hdw.
    + destruct (update_loop_at _ _ _ _ _ _ _ _ _ _ Hl Hdw) as (d' & -> & Ht & _).
      by destruct (Ht eq_refl) as [->| ->].
    + by rewrite (update_loop_none _ _ _ _ _ _ _ _ _ Hl Hdw).
  - intros Hs. pose proof (update_loop_sane true
      (epoch_end_slot (saturating_add (saturating_sub (slot_epoch slot) 1) 1) <=? slot) _ _ _ _ Hs)
      as Hok. rewrite Hl in Hok. simpl in Hok. subst r. split; [done|]. split; [done|].
    intros y w Hy Hmy. by eapply update_loop_violators.
Qed.

(** A check in the last slot of an epoch, with a beacon node that answers both
    requests and saw none of the validators, completes the previous epoch for every
    waiting validator whose index is known, once and without an error; a validator
    with one epoch left may sign from then on. *)
Theorem silent_epoch_completes slot get_index query st v d i :
  let e := slot_epoch slot in
  0 < e <= u64_max -> epoch_end_slot e <= slot ->
  (forall a b j, get_index a = Some j -> get_index b = Some j -> a = b) ->
  (forall l ep, query l ep = Some (map (fun i => mkLiveness i ep false) l)) ->
  st !! v = Some d -> 0 < remaining_epochs d -> get_index v = Some i ->
  next_check_epoch d <= e - 1 ->
  exists st',
    detect_doppelgangers slot get_index (beacon_node_liveness query) st = (st', Ok (), false) /\
    st' !! v = Some (complete_detection_in_epoch d (e - 1)) /\
    (remaining_epochs d = 1 -> validator_status st' v = SigningEnabled v).
Proof.
  intros e He Hslot Hinj Hq Hd Hr Hi Hn. unfold detect_doppelgangers.
  set (m := compute_detection_indices_map get_index st).
  assert (m !! i = Some v) as Hm.
  { apply detection_map; [done|]. split; [done|]. exists d. split; [done|].
    unfold requires_further_checks. lia. }
  rewrite bool_decide_false by (intros Hempty; by rewrite Hempty, lookup_empty in Hm).
  fold e. unfold beacon_node_liveness. rewrite !Hq. simpl.
  assert (saturating_sub e 1 = e - 1) as Hp by (unfold saturating_sub; lia).
  rewrite Hp, (proj2 (Z.eqb_neq (e - 1) e)) by lia.
  unfold process_liveness_responses. fold e. rewrite Hp.
  assert (saturating_add (e - 1) 1 = e) as -> by (unfold saturating_add; lia).
  rewrite (proj2 (Z.leb_le _ _) Hslot). simpl.
  rewrite bool_decide_true.
  2: { apply violators_nil. simpl. intros r [Hr'|Hr']%elem_of_app;
         by apply list_elem_of_fmap in Hr' as (j & -> & _). }
  simpl. set (prev := map _ _).
  assert (Forall (sane (e - 1) m st) prev) as Hs.
  { apply Forall_forall. intros x (j & -> & ([j' w] & -> & Hj%elem_of_map_to_list)%list_elem_of_fmap)
      %list_elem_of_fmap. split; [done|]. simpl.
    destruct (proj1 (detection_map get_index st _ _ Hinj) Hj) as (_ & dw & Hdw & _).
    by exists w, dw. }
  pose proof (update_loop_sane false true (e - 1) m prev st Hs) as Hok.
  pose proof (update_loop_complete (e - 1) m prev st v d Hs ltac:(lia) Hd Hn) as Hc.
  destruct (update_loop false true (e - 1) m prev st) as [st' r]. simpl in Hok, Hc. subst r.
  assert (st' !! v = Some (complete_detection_in_epoch d (e - 1))) as Hst'.
  { apply Hc.
    - by intros x (j & -> & _)%list_elem_of_fmap.
    - exists (mkLiveness i (e - 1) false). split; [|done]. apply list_elem_of_fmap.
      exists i. split; [done|]. apply list_elem_of_fmap. exists (i, v).
      by rewrite elem_of_map_to_list. }
  exists st'. split; [done|]. split; [done|]. intros Hone. unfold validator_status.
  rewrite Hst'. unfold requires_further_checks, complete_detection_in_epoch. simpl.
  by rewrite Hone.
Qed.

(** A detected doppelganger does not stop the client in two cases: when the
    request for the previous epoch fails no validator is disabled, and when the
    first of its responses has another epoch the client is not told to shut down. *)
Theorem detection_without_effect slot m current st :
  (let '(st', r, _) :=
     process_liveness_responses slot (mkLivenessResponses current []) m st in
   st' = st /\ r = Ok ()) /\
  (forall x rest, epoch x <> saturating_sub (slot_epoch slot) 1 ->
     let '(st', r, shutdown) :=
       process_liveness_responses slot (mkLivenessResponses current (x :: rest)) m st in
     st' = st /\ shutdown = false).
Proof.
  split; [done|]. intros x rest Hx. unfold process_liveness_responses. simpl.
  by rewrite (proj2 (Z.eqb_neq _ _) Hx).
Qed.
End properties.

(** ** Concrete runs *)

Section witnesses.

(** Epochs of 32 slots. *)
Definition mainnet : EthSpec := {|
  slot_epoch s := s / 32;
  epoch_end_slot e := 32 * e + 31
|}.
#[local] Existing Instance mainnet.

(** Registered in epoch 3, silent in epoch 4, checked in the last slot of epoch 5. *)
Definition silent_run : list event :=
  [Register 77 (Some 100) 0;
   Process 191 {[9 := 77]} (mkLivenessResponses [mkLiveness 9 5 false] [mkLiveness 9 4 false])].

Lemma enabled_only_after_silence_witness :
  exists es1 now genesis es2,
    silent_run = es1 ++ Register 77 (Some now) genesis :: es2 /\
    (forall now' genesis', Register 77 (Some now') genesis' ∉ es2) /\
    (slot_epoch now <= slot_epoch genesis \/
     exists ev, ev ∈ es2 /\ silent_check 77 (slot_epoch now) ev).
Proof. apply (enabled_only_after_silence silent_run 77). reflexivity. Defined.

Definition waiting : gmap PublicKeyBytes DoppelgangerState :=
  {[77 := mkDoppelgangerState 4 1; 78 := mkDoppelgangerState 4 1]}.

Lemma doppelganger_detected_witness :
  exists st', process_liveness_responses 191
    (mkLivenessResponses [mkLiveness 9 5 true] [mkLiveness 9 4 false; mkLiveness 8 4 false])
    {[9 := 77; 8 := 78]} waiting = (st', Ok (), true).
Proof.
  pose proof (doppelganger_detected 191 {[9 := 77; 8 := 78]}
    (mkLivenessResponses [mkLiveness 9 5 true] [mkLiveness 9 4 false; mkLiveness 8 4 false])
    waiting (mkLiveness 9 5 true) 77 (mkDoppelgangerState 4 1)) as Hd.
  destruct (process_liveness_responses _ _ _ _) as [[st' r] shutdown].
  destruct Hd as [_ Hd].
  - do 2 apply list_elem_of_further. apply list_elem_of_here.
  - reflexivity.
  - reflexivity.
  - reflexivity.
  - simpl. lia.
  - destruct Hd as (-> & -> & _); [|by exists st'].
    constructor; [split; [reflexivity|]; by exists 77, (mkDoppelgangerState 4 1)|].
    constructor; [split; [reflexivity|]; by exists 78, (mkDoppelgangerState 4 1)|constructor].
Defined.

Lemma silent_epoch_completes_witness :
  exists st', validator_status st' 77 = SigningEnabled 77 /\
    detect_doppelgangers 191 (fun v => if v =? 77 then Some 9 else None)
      (beacon_node_liveness (fun l ep => Some (map (fun i => mkLiveness i ep false) l)))
      waiting = (st', Ok (), false).
Proof.
  edestruct (silent_epoch_completes 191 (fun v => if v =? 77 then Some 9 else None)
    (fun l ep => Some (map (fun i => mkLiveness i ep false) l)) waiting 77
    (mkDoppelgangerState 4 1) 9) as (st' & Hr & _ & Hs).
  - split; [reflexivity|]. vm_compute. discriminate.
  - vm_compute. discriminate.
  - intros a b j. destruct (Z.eqb_spec a 77), (Z.eqb_spec b 77); congruence.
  - reflexivity.
  - reflexivity.
  - reflexivity.
  - reflexivity.
  - vm_compute. discriminate.
  - exists st'. split; [by apply Hs|exact Hr].
Defined.
End witnesses.
