(* ===== verification/KeyCache.v ===== *)
(** * The key cache

    Models [src/validation/key_cache.rs]: the decrypted keys of the keystores,
    kept in one encrypted file so that a restart decrypts once.  The encryption of
    [eth2_keystore] and bincode are classes. *)

From S2P Require Import Prelude Network Scalars Blst BlstIdeal.

Abbreviation Uuid := Z (only parsing).

(** ** Encryption *)

Inductive KeystoreError : Type := InvalidPassword | OtherKeystoreError.

(** [CryptoParams] are the parameters of the key derivation and the cipher, which
    [init_crypto] draws. *)
Class KeystoreCrypto `{Blst} := {
  CryptoParams : Type;
  kc_encrypt : bytes -> bytes -> CryptoParams -> KeystoreError + (bytes * bytes);
  kc_decrypt : bytes -> CryptoParams -> bytes -> bytes -> KeystoreError + bytes;
  keypair_from_secret : bytes -> KeystoreError + Keypair;
  ser_key_map : gmap Uuid bytes -> bytes;
  de_key_map : bytes -> option (gmap Uuid bytes)
}.

Class KeystoreCryptoLaws `{KeystoreCrypto} : Prop := {
  kc_encrypt_total raw password params : exists ct, kc_encrypt raw password params = inr ct;
  kc_decrypt_encrypt raw password params cipher checksum :
    kc_encrypt raw password params = inr (cipher, checksum) ->
    kc_decrypt password params cipher checksum = inr raw;
  keypair_from_serialized sk :
    is_secret sk ->
    keypair_from_secret (SecretKey_serialize sk) =
      inr (mkKeypair _ (SecretKey_public_key sk) sk);
  de_ser_key_map m : de_key_map (ser_key_map m) = Some m
}.

Module KeyCache.
Section key_cache.
Context `{KeystoreCrypto}.

Inductive State : Type := NotDecrypted | DecryptedAndSaved | DecryptedWithUnsavedUpdates.
#[global] Instance State_eq_dec : EqDecision State.
Proof. solve_decision. Defined.

Record Crypto := mkCrypto {
  params : CryptoParams;
  cipher_message : bytes;
  checksum_message : bytes
}.

Record t := mk {
  crypto : Crypto;
  uuids : list Uuid;
  pairs : gmap Uuid Keypair;
  passwords : list bytes;
  state : State
}.

Inductive Error : Type :=
| UnableToParseFile
| UnableToDecrypt (e : KeystoreError)
| UnableToEncrypt (e : KeystoreError)
| UnableToParseKeyMap
| UnableToParseKeyPair (e : KeystoreError)
| UnableToCreateFile
| PublicKeyMismatch
| MissingUuidKey
| AlreadyDecrypted.

Definition init_crypto (drawn : CryptoParams) : Crypto := mkCrypto drawn [] [].

Definition new (drawn : CryptoParams) : t :=
  mk (init_crypto drawn) [] ∅ [] DecryptedWithUnsavedUpdates.

(** The file holds the fields that are not skipped; [None] is a file that cannot be
    parsed. *)
Definition file : Type := option (Crypto * list Uuid).

Definition open (f : file) : Error + t :=
  match f with
  | Some (c, us) => inr (mk c us ∅ [] NotDecrypted)
  | None => inl UnableToParseFile
  end.

Definition open_or_create (drawn : CryptoParams) (f : option file) : Error + t :=
  match f with None => inr (new drawn) | Some f => open f end.

Definition password (ps : list bytes) : bytes := foldl (fun v p => v ++ p) [] ps.

Definition encrypt (drawn : CryptoParams) (self : t) : t * option Error :=
  let c := init_crypto drawn in
  let secret_map := (fun kp => SecretKey_serialize (Keypair_sk kp)) <$> pairs self in
  match kc_encrypt (ser_key_map secret_map) (password (passwords self)) drawn with
  | inl e => (mk c (uuids self) (pairs self) (passwords self) (state self), Some (UnableToEncrypt e))
  | inr (cipher, checksum) =>
      (mk (mkCrypto drawn cipher checksum) (uuids self) (pairs self) (passwords self) (state self),
       None)
  end.

Definition is_modified (self : t) : bool := bool_decide (state self = DecryptedWithUnsavedUpdates).

(** [writable] tells whether the file can be replaced; the result comes with the
    file that was written. *)
Definition save (drawn : CryptoParams) (writable : bool) (self : t)
  : t * (Error + bool) * option file :=
  if is_modified self then
    match encrypt drawn self with
    | (self, Some e) => (self, inl e, None)
    | (self, None) =>
        if writable
        then (mk (crypto self) (uuids self) (pairs self) (passwords self) DecryptedAndSaved,
              inr true, Some (Some (crypto self, uuids self)))
        else (self, inl UnableToCreateFile, None)
    end
  else (self, inr false, None).

(** The loop of [decrypt] over the identifiers and their public keys. *)
Fixpoint pairs_loop (key_map : gmap Uuid bytes) (l : list (Uuid * p1)) (acc : gmap Uuid Keypair)
  : gmap Uuid Keypair * option Error :=
  match l with
  | [] => (acc, None)
  | (uuid, public_key) :: l =>
      match key_map !! uuid with
      | None => (acc, Some MissingUuidKey)
      | Some secret =>
          match keypair_from_secret secret with
          | inl e => (acc, Some (UnableToParseKeyPair e))
          | inr kp =>
              if bool_decide (Keypair_pk kp = public_key)
              then pairs_loop key_map l (<[uuid := kp]> acc)
              else (acc, Some PublicKeyMismatch)
          end
      end
  end.

Definition decrypt (ps : list bytes) (public_keys : list p1) (self : t) : t * option Error :=
  match state self with
  | NotDecrypted =>
      match kc_decrypt (password ps) (params (crypto self)) (cipher_message (crypto self))
              (checksum_message (crypto self)) with
      | inl e => (self, Some (UnableToDecrypt e))
      | inr text =>
          match de_key_map text with
          | None => (self, Some UnableToParseKeyMap)
          | Some key_map =>
              if negb (length public_keys =? length (uuids self))%nat
              then (mk (crypto self) (uuids self) ∅ ps (state self), Some PublicKeyMismatch)
              else
                match pairs_loop key_map (zip (uuids self) public_keys) ∅ with
                | (m, Some e) => (mk (crypto self) (uuids self) m ps (state self), Some e)
                | (m, None) => (mk (crypto self) (uuids self) m ps DecryptedAndSaved, None)
                end
          end
      end
  | _ => (self, Some AlreadyDecrypted)
  end.

(** [position] and the two calls of [Vec::remove]. *)
Fixpoint position (uuid : Uuid) (l : list Uuid) : option nat :=
  match l with
  | [] => None
  | u :: l => if u =? uuid then Some O else S <$> position uuid l
  end.

Definition vec_remove {A} (i : nat) (l : list A) : list A := take i l ++ drop (S i) l.

(** [Vec::remove] panics out of range: [None]. *)
Definition remove (uuid : Uuid) (self : t) : option t :=
  match state self with
  | NotDecrypted => Some self
  | _ =>
      match position uuid (uuids self) with
      | None =>
          Some (mk (crypto self) (uuids self) (delete uuid (pairs self)) (passwords self)
                  DecryptedWithUnsavedUpdates)
      | Some i =>
          if (i <? length (passwords self))%nat
          then Some (mk (crypto self) (vec_remove i (uuids self)) (delete uuid (pairs self))
                       (vec_remove i (passwords self)) DecryptedWithUnsavedUpdates)
          else None
      end
  end.

Definition add (keypair : Keypair) (uuid : Uuid) (pw : bytes) (self : t) : t :=
  match state self with
  | NotDecrypted => self
  | _ =>
      mk (crypto self) (uuids self ++ [uuid]) (<[uuid := keypair]> (pairs self))
        (passwords self ++ [pw]) DecryptedWithUnsavedUpdates
  end.

Definition get (uuid : Uuid) (self : t) : option Keypair := pairs self !! uuid.

(** ** The invariant *)

(** A decrypted cache has one password and one key per identifier. *)
Record wf (self : t) : Prop := {
  wf_decrypted : state self <> NotDecrypted;
  wf_passwords : length (passwords self) = length (uuids self);
  wf_uuids : NoDup (uuids self);
  wf_pairs u : u ∈ uuids self <-> is_Some (pairs self !! u);
  wf_keys u kp : pairs self !! u = Some kp ->
    is_secret (Keypair_sk kp) /\ Keypair_pk kp = SecretKey_public_key (Keypair_sk kp)
}.

Lemma cache_wf_new drawn : wf (new drawn).
Proof.
  split; cbn; try done; try constructor.
  - intros Hu. by apply not_elem_of_nil in Hu.
  - intros [? Hu]. by rewrite lookup_empty in Hu.
Qed.

Lemma wf_add kp uuid pw self :
  wf self -> get uuid self = None ->
  is_secret (Keypair_sk kp) -> Keypair_pk kp = SecretKey_public_key (Keypair_sk kp) ->
  wf (add kp uuid pw self).
Proof.
  intros [Hst Hlen Hnd Hp Hk] Hget Hsk Hpk. unfold add.
  assert (uuid ∉ uuids self) as Hnot by (rewrite Hp; intros [? Hs]; unfold get in Hget; congruence).
  destruct (state self) eqn:E; [done| |].
  all: split; cbn; [done| |apply NoDup_app; split_and!; [done| |apply NoDup_singleton]| |].
  all: try by rewrite !length_app, Hlen.
  all: try by intros x Hx [= ->]%list_elem_of_singleton.
  all: try (intros u k [[<- <-]|[_ Hu]]%lookup_insert_Some; [done|eauto]).
  all: intros u; rewrite elem_of_app, list_elem_of_singleton, Hp; destruct (decide (u = uuid)) as [->|Hne];
    [rewrite lookup_insert_eq; split; eauto|rewrite lookup_insert_ne by done; naive_solver].
Qed.

Lemma position_Some uuid l i :
  position uuid l = Some i -> l !! i = Some uuid.
Proof.
  revert i. induction l as [|u l IH]; intros i Hi; [done|]. cbn in Hi.
  destruct (Z.eqb_spec u uuid) as [->|]; [by injection Hi as <-|].
  destruct (position uuid l) as [j|] eqn:E; [|done]. injection Hi as <-. by apply IH.
Qed.

Lemma position_None uuid l : position uuid l = None -> uuid ∉ l.
Proof.
  induction l as [|u l IH]; cbn; intros Hi; [apply not_elem_of_nil|].
  destruct (Z.eqb_spec u uuid) as [->|]; [done|].
  destruct (position uuid l); [done|]. rewrite not_elem_of_cons. split; [congruence|by apply IH].
Qed.

Lemma elem_of_vec_remove i (l : list Uuid) u x :
  NoDup l -> l !! i = Some u -> (x ∈ vec_remove i l <-> x ∈ l /\ x <> u).
Proof.
  intros Hnd Hi. unfold vec_remove. rewrite <- (take_drop_middle l i u Hi) in Hnd.
  apply NoDup_app in Hnd as (_ & Hd & [Hn _]%NoDup_cons).
  rewrite elem_of_app. rewrite <- (take_drop_middle l i u Hi) at 3.
  rewrite elem_of_app, elem_of_cons. split.
  - intros [Hx|Hx]; split; auto.
    + intros ->. apply (Hd u); [done|apply list_elem_of_here].
    + by intros ->.
  - naive_solver.
Qed.

Lemma NoDup_vec_remove i (l : list Uuid) u : NoDup l -> l !! i = Some u -> NoDup (vec_remove i l).
Proof.
  intros Hnd Hi. unfold vec_remove. rewrite <- (take_drop_middle l i u Hi) in Hnd.
  apply NoDup_app in Hnd as (H1 & Hd & [Hn H2]%NoDup_cons). apply NoDup_app. split_and!; auto.
  intros x Hx1 Hx2. apply (Hd x); [done|by apply list_elem_of_further].
Qed.

Lemma wf_remove uuid self :
  wf self -> exists self', remove uuid self = Some self' /\ wf self' /\ get uuid self' = None.
Proof.
  intros [Hst Hlen Hnd Hp Hk]. unfold remove.
  assert (forall u kp, delete uuid (pairs self) !! u = Some kp ->
    is_secret (Keypair_sk kp) /\ Keypair_pk kp = SecretKey_public_key (Keypair_sk kp)) as Hk'.
  { intros u kp [_ Hu]%lookup_delete_Some. eauto. }
  destruct (position uuid (uuids self)) as [i|] eqn:E.
  - pose proof (position_Some _ _ _ E) as Hi.
    assert (i < length (passwords self))%nat as Hlt
      by (rewrite Hlen; by apply lookup_lt_Some in Hi).
    apply Nat.ltb_lt in Hlt as Hlt'. rewrite Hlt'.
    destruct (state self) eqn:Es; [done| |].
    all: eexists; split; [reflexivity|split; [|apply lookup_delete_eq]].
    all: split; cbn; [done| | | |exact Hk'].
    all: try (unfold vec_remove; rewrite !length_app, !length_take, !length_drop; lia).
    all: try by apply (NoDup_vec_remove _ _ uuid).
    all: intros u; rewrite (elem_of_vec_remove _ _ _ _ Hnd Hi), Hp; destruct (decide (u = uuid)) as [->|];
      [rewrite lookup_delete_eq; split; [tauto|by intros [? ?]]|
       rewrite lookup_delete_ne by done; tauto].
  - apply position_None in E as Hn.
    destruct (state self) eqn:Es; [done| |].
    all: eexists; split; [reflexivity|split; [|apply lookup_delete_eq]].
    all: split; cbn; [done|done|done| |exact Hk'].
    all: intros u; rewrite Hp; destruct (decide (u = uuid)) as [->|];
      [rewrite <- Hp, lookup_delete_eq; split; [done|by intros [? ?]]|
       rewrite lookup_delete_ne by done; tauto].
Qed.

(** ** Saving and opening *)

(** The public keys of the identifiers, in their order. *)
Definition keys_of (self : t) (public_keys : list p1) : Prop :=
  Forall2 (fun u pk => exists kp, pairs self !! u = Some kp /\ Keypair_pk kp = pk)
    (uuids self) public_keys.

Lemma pairs_loop_all `{!KeystoreCryptoLaws} (m acc : gmap Uuid Keypair) us pks :
  (forall u kp, m !! u = Some kp ->
     is_secret (Keypair_sk kp) /\ Keypair_pk kp = SecretKey_public_key (Keypair_sk kp)) ->
  Forall2 (fun u pk => exists kp, m !! u = Some kp /\ Keypair_pk kp = pk) us pks ->
  exists acc',
    pairs_loop ((fun kp => SecretKey_serialize (Keypair_sk kp)) <$> m) (zip us pks) acc = (acc', None) /\
    forall u, acc' !! u = if bool_decide (u ∈ us) then m !! u else acc !! u.
Proof.
  intros Hk Hall. revert acc. induction Hall as [|u pk us pks (kp & Hu & Hpk) _ IH]; intros acc.
  - exists acc. split; [done|]. intros u. rewrite bool_decide_eq_false_2; [done|apply not_elem_of_nil].
  - cbn [zip zip_with pairs_loop]. rewrite lookup_fmap, Hu. cbn [fmap option_fmap option_map].
    destruct (Hk u kp Hu) as [Hr Hpub]. rewrite keypair_from_serialized by done.
    rewrite <- Hpub, bool_decide_eq_true_2 by done.
    destruct (IH (<[u := mkKeypair _ (Keypair_pk kp) (Keypair_sk kp)]> acc)) as (acc' & E & Hacc).
    exists acc'. split; [done|]. intros v. rewrite Hacc.
    destruct (decide (v ∈ us)) as [Hin|Hout].
    + rewrite !bool_decide_eq_true_2; [done|by apply list_elem_of_further|done].
    + rewrite (bool_decide_eq_false_2 (v ∈ us)) by done. destruct (decide (v = u)) as [->|Hne].
      * rewrite lookup_insert_eq, bool_decide_eq_true_2, Hu by apply list_elem_of_here. by destruct kp.
      * rewrite lookup_insert_ne by done. rewrite bool_decide_eq_false_2; [done|].
        rewrite not_elem_of_cons. done.
Qed.

Lemma pairs_loop_sound key_map l acc m :
  NoDup (map fst l) -> pairs_loop key_map l acc = (m, None) ->
  (forall u, u ∉ map fst l -> m !! u = acc !! u) /\
  Forall (fun x => exists kp, m !! x.1 = Some kp /\ Keypair_pk kp = x.2) l.
Proof.
  revert acc. induction l as [|[u pk] l IH]; intros acc Hnd E; cbn in E.
  - injection E as <-. split; [done|constructor].
  - cbn in Hnd. apply NoDup_cons in Hnd as [Hn Hnd].
    destruct (key_map !! u) as [secret|]; [|done].
    destruct (keypair_from_secret secret) as [|kp]; [done|].
    case_bool_decide as Hpk; [|done].
    destruct (IH _ Hnd E) as [Hout Hin]. split.
    + intros v [Hv Hv']%not_elem_of_cons. rewrite (Hout v Hv'). by rewrite lookup_insert_ne.
    + constructor; [|done]. cbn. exists kp. split; [|done]. rewrite (Hout u Hn). apply lookup_insert_eq.
Qed.

(** C37: a cache that is saved is read back.  Saving a modified cache that satisfies
    the invariant writes a file, and opening that file with the passwords and the
    public keys of the identifiers gives the saved cache, all key pairs included; a
    cache that decrypts holds for every identifier a key pair with the public key
    that the caller expects, whatever the file is. *)
Theorem key_cache_roundtrip `{!KeystoreCryptoLaws} drawn self public_keys :
  wf self -> is_modified self = true -> keys_of self public_keys ->
  (exists self' f,
     save drawn true self = (self', inr true, Some f) /\
     pairs self' = pairs self /\ uuids self' = uuids self /\ is_modified self' = false /\
     exists opened, open f = inr opened /\
       decrypt (passwords self) public_keys opened = (self', None)) /\
  forall f opened ps pks self',
    NoDup (uuids opened) -> open f = inr opened -> decrypt ps pks opened = (self', None) ->
    keys_of self' pks.
Proof.
  intros [Hst Hlen Hnd Hp Hk] Hmod Hkeys. split.
  - unfold save, encrypt. rewrite Hmod.
    set (raw := ser_key_map _).
    destruct (kc_encrypt_total raw (password (passwords self)) drawn) as [[cipher checksum] E].
    rewrite E. do 2 eexists. split; [reflexivity|]. split_and!; [done|done|done|].
    eexists. split; [reflexivity|]. unfold decrypt. cbn -[pairs_loop].
    rewrite (kc_decrypt_encrypt _ _ _ _ _ E). unfold raw. rewrite de_ser_key_map.
    rewrite <- (Forall2_length _ _ _ Hkeys), Nat.eqb_refl. cbn [negb].
    destruct (pairs_loop_all (pairs self) ∅ (uuids self) public_keys Hk Hkeys) as (m & -> & Hm).
    do 2 f_equal. apply map_eq. intros u. rewrite Hm. case_bool_decide as Hu; [done|].
    rewrite lookup_empty. destruct (pairs self !! u) eqn:Eu; [|done]. exfalso. apply Hu, Hp. by eexists.
  - intros [[c us]|] opened ps pks self' Hndo Hopen Hdec; [|done]. injection Hopen as <-.
    cbn in Hndo. unfold decrypt in Hdec. cbn -[pairs_loop] in Hdec.
    destruct (kc_decrypt _ _ _ _) as [|text]; [done|].
    destruct (de_key_map text) as [key_map|]; [|done].
    destruct (Nat.eqb_spec (length pks) (length us)) as [Hl|]; [|done]. cbn [negb] in Hdec.
    destruct (pairs_loop key_map (zip us pks) ∅) as [m [e|]] eqn:E; [done|]. injection Hdec as <-.
    apply pairs_loop_sound in E as [_ Hall]; [|by rewrite fst_zip by lia].
    unfold keys_of. cbn. apply Forall2_same_length_lookup. split; [done|].
    intros i u pk Hu Hpk. rewrite Forall_lookup in Hall. apply (Hall i (u, pk)).
    apply lookup_zip_with_Some. eauto.
Qed.
End key_cache.
End KeyCache.

(** ** A key cache whose file is not encrypted *)

Section ideal.
Context `{BlstLaws}.

(** The checksum is the password. *)
Definition ideal_keystore_crypto : KeystoreCrypto := {|
  CryptoParams := unit;
  kc_encrypt raw password _ := inr (raw, password);
  kc_decrypt password _ cipher checksum :=
    if bool_decide (checksum = password) then inr cipher else inl InvalidPassword;
  keypair_from_secret bs :=
    match SecretKey_deserialize bs with
    | Some sk => inr (mkKeypair _ (SecretKey_public_key sk) sk)
    | None => inl OtherKeystoreError
    end;
  ser_key_map m := [Zpos (encode m)];
  de_key_map bs := match bs with [Zpos p] => decode p | _ => None end
|}.

Lemma ideal_keystore_crypto_laws : KeystoreCryptoLaws (H0 := ideal_keystore_crypto).
Proof.
  split; cbn.
  - eauto.
  - intros raw pw _ c k [= <- <-]. by rewrite bool_decide_eq_true_2.
  - intros sk Hsk. by rewrite secret_roundtrip.
  - intros m. apply decode_encode.
Qed.
End ideal.

Section witnesses.
#[local] Existing Instances ideal_blst ideal_blst_laws.
#[local] Existing Instances ideal_keystore_crypto ideal_keystore_crypto_laws.

Definition demo_params : CryptoParams (KeystoreCrypto := ideal_keystore_crypto) := tt.
Definition demo_cache : KeyCache.t :=
  KeyCache.add (mkKeypair _ (SecretKey_public_key 5) 5) 1 [112] (KeyCache.new demo_params).

Lemma key_cache_roundtrip_witness :
  exists self' f,
    KeyCache.save demo_params true demo_cache = (self', inr true, Some f) /\
    KeyCache.pairs self' = KeyCache.pairs demo_cache.
Proof.
  destruct (KeyCache.key_cache_roundtrip demo_params demo_cache [SecretKey_public_key 5])
    as [(self' & f & Hs & Hp & _) _].
  - apply KeyCache.wf_add; [apply KeyCache.cache_wf_new|done| |done].
    unfold is_secret. cbn [Keypair_sk]. pose proof modulus_bits. lia.
  - done.
  - repeat constructor. exists (mkKeypair _ (SecretKey_public_key 5) 5).
    split; [apply lookup_insert_eq|done].
  - eauto.
Defined.
End witnesses.
