(* ===== verification/KeyFiles.v ===== *)
(** * The files of a validator

    Models what the client keeps on disk for its validators:
    [src/validation/eth2_keystore_share/keystore_share.rs],
    [src/validation/validator_dir/share_builder.rs],
    [src/validation/account_utils/mod.rs] and [validator_definitions.rs], and the
    file of [src/validation/operator_committee_definitions.rs].

    A file is kept as what its reader makes of it; a path is the list of its
    components.  Keystores belong to the crate [eth2_keystore] and are a class. *)

From stdpp Require Import pretty.
From S2P Require Import Prelude Store Committee Messages Network Core Ideal Mempool.
From S2P Require Import Scalars Blst BlstIdeal Operator DvfCore Doppelganger KeyCache.

(** ** Keystores *)

(** [build_keystore] is the builder with the parameters that it draws; [pk_text] is
    the text of a public key in the names of files, [ks_dir_name] the name of the
    directory of a keystore. *)
Class Eth2Keystore `{KeystoreCrypto} := {
  Keystore : Type;
  ks_uuid : Keystore -> Uuid;
  ks_public_key : Keystore -> option p1;
  ks_description : Keystore -> option string;
  ks_dir_name : Keystore -> string;
  decrypt_keypair : Keystore -> bytes -> KeystoreError + Keypair;
  build_keystore : Keypair -> bytes -> Z -> KeystoreError + Keystore;
  insecure_password : bytes;
  pk_text : p1 -> string
}.

(** Remove any number of newlines and carriage returns from the end. *)
Definition is_newline (b : Z) : bool := (b =? 10) || (b =? 13).

Fixpoint strip_rev (l : bytes) : bytes :=
  match l with
  | b :: l' => if is_newline b then strip_rev l' else l
  | [] => []
  end.

Definition strip_off_newlines (bs : bytes) : bytes := rev (strip_rev (rev bs)).

Class Eth2KeystoreLaws `{Eth2Keystore} : Prop := {
  built_keystore kp password r ks :
    is_secret (Keypair_sk kp) -> Keypair_pk kp = SecretKey_public_key (Keypair_sk kp) ->
    build_keystore kp password r = inr ks -> decrypt_keypair ks password = inr kp;
  build_keystore_total kp password r :
    password <> [] -> exists ks, build_keystore kp password r = inr ks;
  insecure_password_plain :
    insecure_password <> [] /\ strip_off_newlines insecure_password = insecure_password;
  pk_text_inj p q : pk_text p = pk_text q -> p = q
}.

(** [PublicKeyBytes] are only compared, so a number stands for them. *)
Definition compress `{Blst} (pk : p1) : PublicKeyBytes := Zpos (encode (PublicKey_serialize pk)).

Lemma compress_inj `{BlstLaws} p q : compress p = compress q -> p = q.
Proof.
  intros E. injection E as E. apply encode_inj in E. rewrite !public_serialize_ok in E.
  rewrite <- (p1_uncompress_compress p), E. apply p1_uncompress_compress.
Qed.

(** ** Paths *)

Abbreviation Path := (list string) (only parsing).

Definition join (p : Path) (name : string) : Path := p ++ [name].

Definition parent (p : Path) : option Path :=
  match p with [] => None | _ => Some (removelast p) end.

Definition file_name (p : Path) : option string :=
  match last p with
  | Some name => if String.eqb name ".." then None else Some name
  | None => None
  end.

Definition get_lockfile_path (p : Path) : option Path :=
  (fun name => join (removelast p) (String.append name ".lock")) <$> file_name p.

Section files.
Context `{Eth2Keystore}.

(** ** Shares and definitions *)

Record KeystoreShare := mkKeystoreShare {
  share_keystore : Keystore;
  master_public_key : p1;
  master_id : Z;
  share_id : Z
}.

Definition VOTING_KEYSTORE_SHARE_FILE : string := "voting-keystore-share.json".
Definition OPERATOR_COMMITTEE_DEFINITION_FILENAME : string := "operator_committee_definition.yml".
Definition CONFIG_FILENAME : string := "validator_definitions.yml".
Definition CACHE_FILENAME : string := "validator_key_cache.json".

Definition default_keystore_share_password_path (s : KeystoreShare) (secrets_dir : Path) : Path :=
  join secrets_dir
    (String.append (pk_text (master_public_key s)) (String.append "_" (pretty (share_id s)))).

Definition default_keystore_share_dir (s : KeystoreShare) (validators_dir : Path) : Path :=
  join (join validators_dir (pk_text (master_public_key s))) (pretty (share_id s)).

Definition default_keystore_share_path (s : KeystoreShare) (validators_dir : Path) : Path :=
  join (default_keystore_share_dir s validators_dir) VOTING_KEYSTORE_SHARE_FILE.

Definition default_operator_committee_definition_path (pk : p1) (validators_dir : Path) : Path :=
  join (join validators_dir (pk_text pk)) OPERATOR_COMMITTEE_DEFINITION_FILENAME.

Inductive SigningDefinition : Type :=
| LocalKeystore (voting_keystore_path : Path) (voting_keystore_password_path : option Path)
    (voting_keystore_password : option bytes)
| Web3Signer (url : string) (root_certificate_path : option Path)
    (request_timeout_ms : option Z) (client_identity_path : option Path)
    (client_identity_password : option string)
| DistributedKeystore (voting_keystore_share_path : Path)
    (voting_keystore_share_password_path : option Path)
    (voting_keystore_share_password : option bytes)
    (operator_committee_definition_path : option Path)
    (operator_committee_index : Z) (operator_id : Z).

Definition is_local_keystore (d : SigningDefinition) : bool :=
  match d with LocalKeystore _ _ _ => true | _ => false end.
Definition is_distributed_keystore (d : SigningDefinition) : bool :=
  match d with DistributedKeystore _ _ _ _ _ _ => true | _ => false end.

Record ValidatorDefinition := mkValidatorDefinition {
  enabled : bool;
  voting_public_key : p1;
  graffiti : option bytes;
  suggested_fee_recipient : option Z;
  gas_limit : option Z;
  builder_proposals : option bool;
  description : string;
  signing_definition : SigningDefinition
}.

(** ** The disk *)

Inductive file : Type :=
| Directory
| KeystoreFile (k : Keystore)
| ShareFile (s : KeystoreShare)
| PasswordFile (b : bytes)
| CommitteeFile (d : OperatorCommitteeDefinition)
| CacheFile (c : KeyCache.file)
| DefinitionsFile (l : list ValidatorDefinition)
| OtherFile.

Definition Disk : Type := gmap Path file.

Definition path_exists (d : Disk) (p : Path) : bool := bool_decide (is_Some (d !! p)).
Definition is_directory (d : Disk) (p : Path) : bool :=
  match d !! p with Some Directory => true | _ => false end.

(** The non-empty beginnings of a path. *)
Definition ancestors (p : Path) : list Path := map (fun i => take (S i) p) (seq 0 (length p)).

Definition make_dir (d : Disk) (p : Path) : Disk :=
  match d !! p with Some _ => d | None => <[p := Directory]> d end.

Definition create_dir_all (p : Path) (d : Disk) : Disk := foldl make_dir d (ancestors p).

Definition remove_dir_all (p : Path) (d : Disk) : Disk :=
  filter (fun x => ~ p `prefix_of` x.1) d.

Definition read_password (d : Disk) (p : Path) : option bytes :=
  match d !! p with Some (PasswordFile b) => Some (strip_off_newlines b) | _ => None end.

(** What the surroundings answer during a call: whether files can be written and
    locked, the drawn parameters and the passwords that a user enters. *)
Record Io := mkIo {
  io_writable : Path -> bool;
  io_lock : Path -> bool;
  io_drawn : nat -> CryptoParams;
  io_inputs : Path -> list (option bytes)
}.

(** [create_new]: the file must not exist and its directory must. *)
Definition create_new (io : Io) (p : Path) (f : file) (d : Disk) : option Disk :=
  if path_exists d p then None
  else if is_directory d (removelast p) && io_writable io p then Some (<[p := f]> d) else None.

(** [write_file_via_temporary] *)
Definition replace_file (io : Io) (p : Path) (f : file) (d : Disk) : option Disk :=
  if is_directory d (removelast p) && io_writable io p then Some (<[p := f]> d) else None.

(** ** [ShareBuilder] *)

Inductive BuilderError : Type :=
| DirectoryAlreadyExists (p : Path)
| UnableToCreateDir
| PasswordAlreadyExists (p : Path)
| UnableToSavePassword
| KeystoreAlreadyExists (p : Path)
| UnableToSaveKeystore.

Definition write_password_to_file (io : Io) (p : Path) (bs : bytes) : prog Disk BuilderError () :=
  d ← get;
  if path_exists d p then fail (PasswordAlreadyExists p)
  else
    match create_new io p (PasswordFile bs) d with
    | Some d' => modify (fun _ => d')
    | None => fail UnableToSavePassword
    end.

Definition write_keystore_share_to_file (io : Io) (p : Path) (s : KeystoreShare)
  : prog Disk BuilderError () :=
  d ← get;
  if path_exists d p then fail (KeystoreAlreadyExists p)
  else
    match create_new io p (ShareFile s) d with
    | Some d' => modify (fun _ => d')
    | None => fail UnableToSaveKeystore
    end.

(** The builder with a share, its password and the directory of the passwords. *)
Definition build (io : Io) (base_validators_dir password_dir : Path) (s : KeystoreShare)
  (password : bytes) : prog Disk BuilderError () :=
  let keystore_share_dir := default_keystore_share_dir s base_validators_dir in
  d ← get;
  if path_exists d keystore_share_dir then fail (DirectoryAlreadyExists keystore_share_dir)
  else
    (if io_writable io keystore_share_dir then modify (create_dir_all keystore_share_dir)
     else fail UnableToCreateDir);;
    write_password_to_file io (default_keystore_share_password_path s password_dir) password;;
    write_keystore_share_to_file io (join keystore_share_dir VOTING_KEYSTORE_SHARE_FILE) s.

(** ** Definitions *)

Inductive DefinitionError : Type := InvalidKeystorePubkey | UnableToOpenKeystore.

Definition new_keystore_with_password (d : Disk) (keystore_path : Path) (password : option bytes)
  (g : option bytes) (fee : option Z) (gas : option Z) (builder : option bool)
  : DefinitionError + ValidatorDefinition :=
  match d !! keystore_path with
  | Some (KeystoreFile k) =>
      match ks_public_key k with
      | Some pk =>
          inr (mkValidatorDefinition true pk g fee gas builder
                 (default ""%string (ks_description k)) (LocalKeystore keystore_path None password))
      | None => inl InvalidKeystorePubkey
      end
  | _ => inl UnableToOpenKeystore
  end.

Definition new_keystore_share_with_password_path (d : Disk) (share_path password_path : Path)
  (g : option bytes) (fee : option Z) (gas : option Z) (builder : option bool)
  (committee_path : Path) (committee_index op_id : Z) : DefinitionError + ValidatorDefinition :=
  match d !! share_path with
  | Some (ShareFile s) =>
      inr (mkValidatorDefinition true (master_public_key s) g fee gas builder
              (default ""%string (ks_description (share_keystore s)))
              (DistributedKeystore share_path (Some password_path) None (Some committee_path)
                 committee_index op_id))
  | _ => inl UnableToOpenKeystore
  end.

Definition is_voting_keystore_share (name : string) : bool :=
  String.eqb name VOTING_KEYSTORE_SHARE_FILE.

(** The shares below a directory, in the order in which the system lists them. *)
Definition find_voting_keystore_shares (dir : Path) (d : Disk) : list Path :=
  omap (fun x => if bool_decide (dir `prefix_of` x.1) && bool_decide (x.1 <> dir) &&
                    negb (is_directory d x.1) &&
                    match file_name x.1 with Some n => is_voting_keystore_share n | None => false end
                 then Some x.1 else None) (map_to_list d).

Definition discovered (d : Disk) (validators_dir secrets_dir : Path)
  (known : list ValidatorDefinition) (p : Path) : option ValidatorDefinition :=
  if bool_decide (p ∈ omap (fun def => match signing_definition def with
                                        | DistributedKeystore q _ _ _ _ _ => Some q
                                        | _ => None end) known)
  then None
  else
    match d !! p with
    | Some (ShareFile s) =>
        let password_path := default_keystore_share_password_path s secrets_dir in
        let committee_path :=
          default_operator_committee_definition_path (master_public_key s) validators_dir in
        if bool_decide (master_public_key s ∈ map voting_public_key known) then None
        else
          Some (mkValidatorDefinition true (master_public_key s) None None None None
                  (default ""%string (ks_description (share_keystore s)))
                  (DistributedKeystore p
                     (if path_exists d password_path then Some password_path else None) None
                     (if path_exists d committee_path then Some committee_path else None)
                     (master_id s) (share_id s)))
    | _ => None
    end.

Definition discover_distributed_keystores (d : Disk) (validators_dir secrets_dir : Path)
  (defs : list ValidatorDefinition) : list ValidatorDefinition :=
  defs ++ omap (discovered d validators_dir secrets_dir defs)
            (find_voting_keystore_shares validators_dir d).
End files.

(** ** Keystores that are not encrypted *)

Section ideal.
Context `{BlstLaws}.
#[local] Existing Instance ideal_keystore_crypto.

(** A keystore is its identifier, its password and its key pair; the password of the
    node is the byte 50. *)
Definition ideal_eth2_keystore : Eth2Keystore := {|
  Keystore := (Uuid * bytes * Keypair)%type;
  ks_uuid k := k.1.1;
  ks_public_key k := Some (Keypair_pk k.2);
  ks_description _ := None;
  ks_dir_name k := pretty (Npos (encode (PublicKey_serialize (Keypair_pk k.2))));
  decrypt_keypair k password :=
    if bool_decide (password = k.1.2) then inr k.2 else inl InvalidPassword;
  build_keystore kp password r :=
    match password with [] => inl OtherKeystoreError | _ => inr (r, password, kp) end;
  insecure_password := [50];
  pk_text p := pretty (Npos (encode (PublicKey_serialize p)))
|}.

Lemma ideal_eth2_keystore_laws : Eth2KeystoreLaws (H1 := ideal_eth2_keystore).
Proof.
  split; cbn.
  - intros kp password r ks _ _ E. destruct password; [done|]. injection E as <-. cbn.
    by rewrite bool_decide_eq_true_2.
  - intros kp [|b password] r Hp; [done|eauto].
  - done.
  - intros p q E. apply (inj pretty) in E. injection E as E. apply encode_inj in E.
    rewrite !public_serialize_ok in E. rewrite <- (p1_uncompress_compress p), E.
    apply p1_uncompress_compress.
Qed.
End ideal.
