(* ===== verification/InitializedValidators.v ===== *)
(** * The validators of a client

    Models [src/validation/initialized_validators.rs]: the definitions of the
    validators, the validators that run and the cache of their keys, with every
    operation that changes them.  A validator with a distributed key runs with the
    signer that [DvfSigner::spawn] starts ([DvfCore]), which registers the handlers
    of the validator with the node. *)

From S2P Require Import Prelude Store Committee Messages Network Core Ideal Mempool.
From S2P Require Import Scalars Blst BlstIdeal Operator DvfCore Doppelganger KeyCache KeyFiles.

(** The validators whose messages the receivers of the node hand on. *)
Record Handlers := mkHandlers {
  tx_handlers : gset Z;
  mempool_handlers : gset Z;
  consensus_handlers : gset Z;
  signature_handlers : gset Z
}.

Definition add_handlers (id : Z) (h : Handlers) : Handlers :=
  mkHandlers ({[id]} ∪ tx_handlers h) ({[id]} ∪ mempool_handlers h)
    ({[id]} ∪ consensus_handlers h) ({[id]} ∪ signature_handlers h).

Section initialized_validators.
Context `{Eth2Keystore} `{Bincode} `{!SigCodec} `{MempoolCodec} `{Rocksdb Digest bytes}.

Inductive IvError : Type :=
| LockfileError (p : Path)
| VotingPublicKeyMismatch (definition keystore : p1)
| UnableToOpenVotingKeystore (p : Path)
| UnableToOpenKeyCache (e : KeyCache.Error)
| BadVotingKeystorePath (p : Path)
| BadKeyCachePath (p : Path)
| UnableToParseVotingKeystore (p : Path)
| UnableToDecryptKeystore (e : KeystoreError)
| UnableToReadVotingKeystorePassword (p : Path)
| UnableToSaveDefinitions
| UnableToInitializeDisabledValidator
| UnableToDeleteKeystore (p : Path)
| UnableToDeleteValidatorDir (p : Path)
| UnableToReadPasswordFromUser
| DuplicatePublicKey
| NoCommitteeDefinition
| UnableToParseCommitteeDefinition (p : Path)
| InvalidActionOnRemoteValidator
| DvfFailed (e : DvfError).

Inductive SigningMethod : Type :=
| LocalMethod (voting_keystore_path : Path) (voting_keystore : Keystore) (voting_keypair : Keypair)
| DistributedMethod (voting_keystore_share_path : Path) (voting_keystore_share : KeystoreShare)
    (method_public_key : p1) (dvf_signer : DvfSigner).

Record InitializedValidator := mkInitialized {
  signing_method : SigningMethod;
  iv_graffiti : option bytes;
  iv_suggested_fee_recipient : option Z;
  iv_gas_limit : option Z;
  iv_builder_proposals : option bool;
  iv_index : option Z
}.

Definition public_key_of (v : InitializedValidator) : p1 :=
  match signing_method v with
  | LocalMethod _ _ kp => Keypair_pk kp
  | DistributedMethod _ _ pk _ => pk
  end.

(** The lock file that a running validator holds. *)
Definition keystore_lockfile (v : InitializedValidator) : option Path :=
  match signing_method v with
  | LocalMethod p _ _ => get_lockfile_path p
  | DistributedMethod p _ _ _ => get_lockfile_path p
  end.

Definition lock_held (vs : gmap PublicKeyBytes InitializedValidator) (p : Path) : bool :=
  existsb (fun x => bool_decide (keystore_lockfile x.2 = Some p)) (map_to_list vs).

(** ** Reading keystores *)

Definition open_keystore (d : Disk) (p : Path) : outcome IvError Keystore :=
  match d !! p with
  | Some (KeystoreFile k) => Ok k
  | Some _ => Err (UnableToParseVotingKeystore p)
  | None => Err (UnableToOpenVotingKeystore p)
  end.

Definition open_keystore_share (d : Disk) (p : Path) : outcome IvError KeystoreShare :=
  match d !! p with
  | Some (ShareFile s) => Ok s
  | Some _ => Err (UnableToParseVotingKeystore p)
  | None => Err (UnableToOpenVotingKeystore p)
  end.

(** [inputs] are what the user enters; [None] is an input that cannot be read, and
    the loop waits when nothing more is entered. *)
Fixpoint unlock_keystore_via_stdin_password (k : Keystore) (inputs : list (option bytes))
  : outcome IvError (bytes * Keypair) :=
  match inputs with
  | [] => Diverged
  | None :: _ => Err UnableToReadPasswordFromUser
  | Some password :: inputs =>
      match decrypt_keypair k password with
      | inr kp => Ok (password, kp)
      | inl InvalidPassword => unlock_keystore_via_stdin_password k inputs
      | inl e => Err (UnableToDecryptKeystore e)
      end
  end.

Definition decrypt_keystore (k : Keystore) (password : bytes) : outcome IvError (bytes * Keypair) :=
  match decrypt_keypair k password with
  | inr kp => Ok (password, kp)
  | inl e => Err (UnableToDecryptKeystore e)
  end.

(** The password and the key pair of a keystore. *)
Definition unlock (io : Io) (d : Disk) (k : Keystore) (keystore_path : Path)
  (password_path : option Path) (password : option bytes) : outcome IvError (bytes * Keypair) :=
  match password_path, password with
  | _, Some password => decrypt_keystore k password
  | Some p, None =>
      match read_password d p with
      | Some password => decrypt_keystore k password
      | None => Err (UnableToReadVotingKeystorePassword p)
      end
  | None, None => unlock_keystore_via_stdin_password k (io_inputs io keystore_path)
  end.

(** ** [InitializedValidator::from_definition] *)

(** What [update_validators] changes. *)
Record updating := mkUpdating {
  key_cache : KeyCache.t;
  key_stores : gmap Path Keystore;
  running : gmap PublicKeyBytes InitializedValidator;
  disabled_uuids : gset Uuid;
  node_handlers : Handlers
}.

Definition set_cache (c : KeyCache.t) (u : updating) : updating :=
  mkUpdating c (key_stores u) (running u) (disabled_uuids u) (node_handlers u).
Definition set_key_stores (m : gmap Path Keystore) (u : updating) : updating :=
  mkUpdating (key_cache u) m (running u) (disabled_uuids u) (node_handlers u).
Definition set_running (m : gmap PublicKeyBytes InitializedValidator) (u : updating) : updating :=
  mkUpdating (key_cache u) (key_stores u) m (disabled_uuids u) (node_handlers u).
Definition set_disabled (m : gset Uuid) (u : updating) : updating :=
  mkUpdating (key_cache u) (key_stores u) (running u) m (node_handlers u).
Definition register_handlers (id : Z) (u : updating) : updating :=
  mkUpdating (key_cache u) (key_stores u) (running u) (disabled_uuids u)
    (add_handlers id (node_handlers u)).

(** The entry of a keystore, loaded when it is vacant. *)
Definition entry (p : Path) (load : outcome IvError Keystore)
  : prog (gmap Path Keystore) IvError Keystore :=
  stores ← get;
  match stores !! p with
  | Some k => mret k
  | None =>
      k ← lift load;
      modify (insert p k);;
      mret k
  end.

Definition keystore_entry (p : Path) (load : outcome IvError Keystore)
  : prog updating IvError Keystore := fun u =>
  let '(r, stores) := entry p load (key_stores u) in (r, set_key_stores stores u).

(** The key pair from the cache, or from the keystore into the cache. *)
Definition cached_keypair (k : Keystore) (unlocked : outcome IvError (bytes * Keypair))
  : prog updating IvError Keypair :=
  cache ← gets key_cache;
  match KeyCache.get (ks_uuid k) cache with
  | Some kp => mret kp
  | None =>
      x ← lift unlocked;
      modify (set_cache (KeyCache.add x.2 (ks_uuid k) x.1 cache));;
      mret x.2
  end.

(** [Lockfile::new] for the lock file of a path: it fails while the lock is held. *)
Definition lock (io : Io) (p : Path) : prog updating IvError () :=
  match get_lockfile_path p with
  | None => fail (BadVotingKeystorePath p)
  | Some l =>
      vs ← gets running;
      if io_lock io l && negb (lock_held vs l) then mret () else fail (LockfileError l)
  end.

Definition committee_from_file (d : Disk) (p : Path) : outcome IvError OperatorCommitteeDefinition :=
  match d !! p with
  | Some (CommitteeFile def) => Ok def
  | _ => Err (UnableToParseCommitteeDefinition p)
  end.

(** The name and the address of the node. *)
Definition node_id : Type := PublicKey * SocketAddr.

(** [opened] is the store of a validator, [None] when it cannot be opened. *)
Definition start_signer (node : option node_id) (opened : Z -> option (Store.t Digest bytes))
  (kp : Keypair) (def : OperatorCommitteeDefinition) : outcome IvError DvfSigner :=
  match node with
  | None => Panic "called unwrap on a None value"
  | Some (name, base_address) =>
      match spawn name base_address kp def (opened (def_validator_id def)) with
      | Ok (signer, _, _) => Ok signer
      | Err e => Err (DvfFailed e)
      | Panic msg => Panic msg
      | Diverged => Diverged
      end
  end.

Definition signing_method_of (io : Io) (d : Disk) (node : option node_id)
  (opened : Z -> option (Store.t Digest bytes)) (def : ValidatorDefinition)
  : prog updating IvError SigningMethod :=
  match signing_definition def with
  | LocalKeystore p password_path password =>
      k ← keystore_entry p (open_keystore d p);
      kp ← cached_keypair k (unlock io d k p password_path password);
      if negb (bool_decide (Keypair_pk kp = voting_public_key def))
      then fail (VotingPublicKeyMismatch (voting_public_key def) (Keypair_pk kp))
      else
        lock io p;;
        mret (LocalMethod p k kp)
  | Web3Signer _ _ _ _ _ => fail InvalidActionOnRemoteValidator
  | DistributedKeystore p password_path password committee_path _ _ =>
      s ← lift (open_keystore_share d p);
      k ← keystore_entry p (Ok (share_keystore s));
      kp ← cached_keypair k (unlock io d k p password_path password);
      lock io p;;
      committee_path ← lift (match committee_path with
                             | Some q => Ok q
                             | None => Err NoCommitteeDefinition
                             end);
      committee_def ← lift (committee_from_file d committee_path);
      signer ← lift (start_signer node opened kp committee_def);
      modify (register_handlers (def_validator_id committee_def));;
      mret (DistributedMethod p s (def_validator_public_key committee_def) signer)
  end.

Definition from_definition (io : Io) (d : Disk) (node : option node_id)
  (opened : Z -> option (Store.t Digest bytes)) (def : ValidatorDefinition)
  : prog updating IvError InitializedValidator :=
  if negb (enabled def) then fail UnableToInitializeDisabledValidator
  else
    m ← signing_method_of io d node opened def;
    mret (mkInitialized m (graffiti def) (suggested_fee_recipient def) (gas_limit def)
            (builder_proposals def) None).

(** ** [InitializedValidators] *)

Record InitializedValidators := mkIv {
  definitions : list ValidatorDefinition;
  validators_dir : Path;
  validators : gmap PublicKeyBytes InitializedValidator;
  iv_node : option node_id
}.

(** The validators with the disk and the handlers of the node. *)
Record world := mkWorld {
  iv : InitializedValidators;
  disk : Disk;
  handlers : Handlers
}.

Definition set_definitions (l : list ValidatorDefinition) (w : world) : world :=
  mkWorld (mkIv l (validators_dir (iv w)) (validators (iv w)) (iv_node (iv w))) (disk w) (handlers w).
Definition set_validators (m : gmap PublicKeyBytes InitializedValidator) (w : world) : world :=
  mkWorld (mkIv (definitions (iv w)) (validators_dir (iv w)) m (iv_node (iv w))) (disk w) (handlers w).
Definition set_disk (d : Disk) (w : world) : world := mkWorld (iv w) d (handlers w).
Definition set_handlers (h : Handlers) (w : world) : world := mkWorld (iv w) (disk w) h.

(** *** The key cache *)

(** The enabled local definitions by the identifiers of their keystores. *)
Fixpoint definitions_map (d : Disk) (defs : list ValidatorDefinition)
  (acc : gmap Uuid ValidatorDefinition)
  : prog (gmap Path Keystore) IvError (gmap Uuid ValidatorDefinition) :=
  match defs with
  | [] => mret acc
  | def :: defs =>
      match enabled def, signing_definition def with
      | true, LocalKeystore p _ _ =>
          k ← entry p (open_keystore d p);
          definitions_map d defs (<[ks_uuid k := def]> acc)
      | _, _ => definitions_map d defs acc
      end
  end.

(** The passwords and the public keys of the identifiers of the cache. *)
Fixpoint collect_passwords (io : Io) (d : Disk) (m : gmap Uuid ValidatorDefinition)
  (us : list Uuid) : outcome IvError (list bytes * list p1) :=
  match us with
  | [] => mret ([], [])
  | u :: us =>
      match m !! u with
      | None => Panic "Existence checked before"
      | Some def =>
          match signing_definition def with
          | LocalKeystore p password_path password =>
              pw ← match password, password_path with
                   | Some pw, _ => Ok pw
                   | None, Some q =>
                       match read_password d q with
                       | Some pw => Ok pw
                       | None => Err (UnableToReadVotingKeystorePassword q)
                       end
                   | None, None =>
                       k ← open_keystore d p;
                       x ← unlock_keystore_via_stdin_password k (io_inputs io p);
                       mret x.1
                   end;
              l ← collect_passwords io d m us;
              mret (pw :: l.1, voting_public_key def :: l.2)
          | _ => collect_passwords io d m us
          end
      end
  end.

Definition decrypt_key_cache (io : Io) (d : Disk) (defs : list ValidatorDefinition)
  (cache : KeyCache.t) : prog (gmap Path Keystore) IvError KeyCache.t :=
  m ← definitions_map d defs ∅;
  if existsb (fun u => bool_decide (m !! u = None)) (KeyCache.uuids cache)
  then mret (KeyCache.new (io_drawn io 1))
  else
    x ← lift (collect_passwords io d m (KeyCache.uuids cache));
    mret (match KeyCache.decrypt x.1 x.2 cache with
          | (c, None) | (c, Some KeyCache.AlreadyDecrypted) => c
          | _ => KeyCache.new (io_drawn io 1)
          end).

(** *** [update_validators] *)

(** An error that is only logged. *)
Definition tolerate {S E} (m : prog S E ()) : prog S E () := fun s =>
  match m s with
  | (Err _, s') => (Ok (), s')
  | r => r
  end.

(** The identifier of a keystore that has been read. *)
Definition known_uuid (p : Path) (u : updating) : gset Uuid :=
  match key_stores u !! p with Some k => {[ks_uuid k]} | None => ∅ end.

Definition initialize (io : Io) (d : Disk) (node : option node_id)
  (opened : Z -> option (Store.t Digest bytes)) (def : ValidatorDefinition)
  : prog updating IvError () :=
  v ← from_definition io d node opened def;
  modify (fun u => set_running (<[compress (public_key_of v) := v]> (running u)) u).

Definition update_definition (io : Io) (d : Disk) (node : option node_id)
  (opened : Z -> option (Store.t Digest bytes)) (def : ValidatorDefinition)
  : prog updating IvError () :=
  let pubkey_bytes := compress (voting_public_key def) in
  if enabled def then
    match signing_definition def with
    | LocalKeystore p _ _ =>
        vs ← gets running;
        match vs !! pubkey_bytes with
        | Some _ => mret ()
        | None =>
            modify (fun u => set_disabled (disabled_uuids u ∖ known_uuid p u) u);;
            initialize io d None opened def
        end
    | Web3Signer _ _ _ _ _ => initialize io d None opened def
    | DistributedKeystore p _ _ _ _ _ =>
        vs ← gets running;
        match vs !! pubkey_bytes with
        | Some _ => mret ()
        | None =>
            modify (fun u => set_disabled (disabled_uuids u ∖ known_uuid p u) u);;
            tolerate (initialize io d node opened def)
        end
    end
  else
    modify (fun u => set_running (delete pubkey_bytes (running u)) u);;
    match signing_definition def with
    | LocalKeystore p _ _ | DistributedKeystore p _ _ _ _ _ =>
        modify (fun u => set_disabled (known_uuid p u ∪ disabled_uuids u) u)
    | Web3Signer _ _ _ _ _ => mret ()
    end.

Fixpoint update_definitions (io : Io) (d : Disk) (node : option node_id)
  (opened : Z -> option (Store.t Digest bytes)) (defs : list ValidatorDefinition)
  : prog updating IvError () :=
  match defs with
  | [] => mret ()
  | def :: defs =>
      update_definition io d node opened def;;
      update_definitions io d node opened defs
  end.

Fixpoint remove_uuids (us : list Uuid) (cache : KeyCache.t) : outcome IvError KeyCache.t :=
  match us with
  | [] => Ok cache
  | u :: us =>
      match KeyCache.remove u cache with
      | Some cache => remove_uuids us cache
      | None => Panic "removal index should be < len"
      end
  end.

Definition open_cache (io : Io) (d : Disk) (cache_path : Path) : outcome IvError KeyCache.t :=
  match KeyCache.open_or_create (io_drawn io 0)
          (match d !! cache_path with
           | None => None
           | Some (CacheFile f) => Some f
           | Some _ => Some None
           end) with
  | inr c => Ok c
  | inl e => Err (UnableToOpenKeyCache e)
  end.

(** The loop over the definitions, on the validators of the client. *)
Definition run_update (io : Io) (opened : Z -> option (Store.t Digest bytes)) (cache : KeyCache.t)
  (stores : gmap Path Keystore) : prog world IvError updating := fun w =>
  let '(r, u) :=
    update_definitions io (disk w) (iv_node (iv w)) opened (definitions (iv w))
      (mkUpdating cache stores (validators (iv w)) ∅ (handlers w)) in
  (r ≫= fun _ => Ok u, set_handlers (node_handlers u) (set_validators (running u) w)).

Definition save_cache (io : Io) (cache_path : Path) (cache : KeyCache.t) (d : Disk) : Disk :=
  match KeyCache.save (io_drawn io 2)
          (is_directory d (removelast cache_path) && io_writable io cache_path) cache with
  | (_, _, Some f) => <[cache_path := CacheFile f]> d
  | _ => d
  end.

Definition update_validators (io : Io) (opened : Z -> option (Store.t Digest bytes))
  : prog world IvError () :=
  w ← get;
  let cache_path := join (validators_dir (iv w)) CACHE_FILENAME in
  match get_lockfile_path cache_path with
  | None => fail (BadKeyCachePath cache_path)
  | Some l =>
      if negb (io_lock io l) then fail (LockfileError l)
      else
        cache ← lift (open_cache io (disk w) cache_path);
        let '(r, stores) := decrypt_key_cache io (disk w) (definitions (iv w)) cache ∅ in
        cache ← lift r;
        u ← run_update io opened cache stores;
        cache ← lift (remove_uuids (elements (disabled_uuids u)) (key_cache u));
        modify (fun w => set_disk (save_cache io cache_path cache (disk w)) w)
  end.

(** *** Operations *)

Inductive DeleteKeystoreStatus : Type := NotFound | Deleted.

Definition save_definitions (io : Io) : prog world IvError () :=
  w ← get;
  match replace_file io (join (validators_dir (iv w)) CONFIG_FILENAME)
          (DefinitionsFile (definitions (iv w))) (disk w) with
  | Some d => modify (set_disk d)
  | None => fail UnableToSaveDefinitions
  end.

Definition from_definitions (io : Io) (opened : Z -> option (Store.t Digest bytes))
  (defs : list ValidatorDefinition) (dir : Path) (node : option node_id) (d : Disk) (h : Handlers)
  : outcome IvError () * world :=
  update_validators io opened (mkWorld (mkIv defs dir ∅ node) d h).

Definition add_definition (io : Io) (opened : Z -> option (Store.t Digest bytes))
  (def : ValidatorDefinition) : prog world IvError () :=
  defs ← gets (fun w => definitions (iv w));
  if existsb (fun e => bool_decide (voting_public_key e = voting_public_key def)) defs
  then fail DuplicatePublicKey
  else
    modify (set_definitions (defs ++ [def]));;
    update_validators io opened;;
    save_definitions io.

Definition add_definition_replace_disabled (io : Io)
  (opened : Z -> option (Store.t Digest bytes)) (def : ValidatorDefinition)
  : prog world IvError () :=
  modify (fun w => set_definitions
    (filter (fun e => ~ (enabled e = false /\ voting_public_key e = voting_public_key def))
       (definitions (iv w))) w);;
  add_definition io opened def.

(** [iter_mut().find(..)] and a change of what is found. *)
Fixpoint update_first (pk : p1) (f : ValidatorDefinition -> ValidatorDefinition)
  (l : list ValidatorDefinition) : list ValidatorDefinition :=
  match l with
  | [] => []
  | def :: l =>
      if bool_decide (voting_public_key def = pk) then f def :: l else def :: update_first pk f l
  end.

Definition find_definition (pk : p1) (l : list ValidatorDefinition) : option ValidatorDefinition :=
  list_find (fun def => voting_public_key def = pk) l ≫= fun x => Some x.2.

Definition set_enabled (b : bool) (d : ValidatorDefinition) : ValidatorDefinition :=
  mkValidatorDefinition b (voting_public_key d) (graffiti d) (suggested_fee_recipient d)
    (gas_limit d) (builder_proposals d) (description d) (signing_definition d).
Definition set_fee_recipient (x : option Z) (d : ValidatorDefinition) : ValidatorDefinition :=
  mkValidatorDefinition (enabled d) (voting_public_key d) (graffiti d) x
    (gas_limit d) (builder_proposals d) (description d) (signing_definition d).
Definition set_gas_limit (x : option Z) (d : ValidatorDefinition) : ValidatorDefinition :=
  mkValidatorDefinition (enabled d) (voting_public_key d) (graffiti d) (suggested_fee_recipient d)
    x (builder_proposals d) (description d) (signing_definition d).
Definition set_builder (x : option bool) (d : ValidatorDefinition) : ValidatorDefinition :=
  mkValidatorDefinition (enabled d) (voting_public_key d) (graffiti d) (suggested_fee_recipient d)
    (gas_limit d) x (description d) (signing_definition d).

(** The stage that [delete_definition_and_keystore] and [disable_keystore] share. *)
Definition disable_definition (io : Io) (pk : p1) : prog world IvError DeleteKeystoreStatus :=
  defs ← gets (fun w => definitions (iv w));
  match find_definition pk defs with
  | None => mret NotFound
  | Some def =>
      if is_local_keystore (signing_definition def) || is_distributed_keystore (signing_definition def)
      then
        modify (set_definitions (update_first pk (set_enabled false) defs));;
        save_definitions io;;
        mret Deleted
      else fail InvalidActionOnRemoteValidator
  end.

(** The directory of the keystore when it is the one that the client makes, or the
    file alone. *)
Definition delete_keystore_dir_or_file (io : Io) (dir p : Path) : prog world IvError () :=
  d ← gets disk;
  if bool_decide (parent p = Some dir) then
    if is_directory d dir && io_writable io dir
    then modify (set_disk (remove_dir_all dir d))
    else fail (UnableToDeleteValidatorDir dir)
  else if path_exists d p && io_writable io p
  then modify (set_disk (delete p d))
  else fail (UnableToDeleteKeystore p).

Definition delete_files (io : Io) (m : SigningMethod) : prog world IvError () :=
  dir ← gets (fun w => validators_dir (iv w));
  match m with
  | LocalMethod p k _ => delete_keystore_dir_or_file io (join dir (ks_dir_name k)) p
  | DistributedMethod p s _ _ =>
      delete_keystore_dir_or_file io (default_keystore_share_dir s dir) p
  end.

Definition delete_definition_and_keystore (io : Io) (pk : p1)
  : prog world IvError DeleteKeystoreStatus :=
  status ← disable_definition io pk;
  match status with
  | NotFound => mret NotFound
  | Deleted =>
      vs ← gets (fun w => validators (iv w));
      modify (set_validators (delete (compress pk) vs));;
      match vs !! compress pk with
      | Some v => delete_files io (signing_method v)
      | None => mret ()
      end;;
      modify (fun w => set_definitions
        (filter (fun def => voting_public_key def <> pk) (definitions (iv w))) w);;
      save_definitions io;;
      mret Deleted
  end.

Definition disable_keystore (io : Io) (pk : p1) : prog world IvError DeleteKeystoreStatus :=
  status ← disable_definition io pk;
  match status with
  | NotFound => mret NotFound
  | Deleted =>
      modify (fun w => set_validators (delete (compress pk) (validators (iv w))) w);;
      mret Deleted
  end.

Definition update_running (pk : p1) (f : InitializedValidator -> InitializedValidator)
  : prog world IvError () :=
  modify (fun w => set_validators (alter f (compress pk) (validators (iv w))) w).

(** Fields that the request does not give are kept. *)
Definition given {A} (x old : option A) : option A := match x with Some _ => x | None => old end.

Definition set_validator_definition_fields (io : Io) (opened : Z -> option (Store.t Digest bytes))
  (pk : p1) (en : option bool) (gas : option Z) (builder : option bool) : prog world IvError () :=
  modify (fun w => set_definitions
    (update_first pk (fun def =>
       set_enabled (default (enabled def) en)
         (set_gas_limit (given gas (gas_limit def))
            (set_builder (given builder (builder_proposals def)) def)))
       (definitions (iv w))) w);;
  update_validators io opened;;
  update_running pk (fun v =>
    mkInitialized (signing_method v) (iv_graffiti v) (iv_suggested_fee_recipient v)
      (given gas (iv_gas_limit v)) (given builder (iv_builder_proposals v)) (iv_index v));;
  save_definitions io.

Definition enable_keystore (io : Io) (opened : Z -> option (Store.t Digest bytes)) (pk : p1)
  : prog world IvError () :=
  set_validator_definition_fields io opened pk (Some true) None None.

(** [set_validator_fee_recipient] and [delete_validator_fee_recipient]; the same for
    the gas limit. *)
Definition change_fee_recipient (io : Io) (pk : p1) (x : option Z) : prog world IvError () :=
  modify (fun w => set_definitions (update_first pk (set_fee_recipient x) (definitions (iv w))) w);;
  update_running pk (fun v =>
    mkInitialized (signing_method v) (iv_graffiti v) x (iv_gas_limit v) (iv_builder_proposals v)
      (iv_index v));;
  save_definitions io.

Definition change_gas_limit (io : Io) (pk : p1) (x : option Z) : prog world IvError () :=
  modify (fun w => set_definitions (update_first pk (set_gas_limit x) (definitions (iv w))) w);;
  update_running pk (fun v =>
    mkInitialized (signing_method v) (iv_graffiti v) (iv_suggested_fee_recipient v) x
      (iv_builder_proposals v) (iv_index v));;
  save_definitions io.

Definition set_validator_fee_recipient io pk x := change_fee_recipient io pk (Some x).
Definition delete_validator_fee_recipient io pk := change_fee_recipient io pk None.
Definition set_validator_gas_limit io pk x := change_gas_limit io pk (Some x).
Definition delete_validator_gas_limit io pk := change_gas_limit io pk None.

Definition is_enabled (self : InitializedValidators) (pk : p1) : option bool :=
  enabled <$> find_definition pk (definitions self).

Definition set_index (pk : PublicKeyBytes) (index : Z) (self : InitializedValidators)
  : InitializedValidators :=
  mkIv (definitions self) (validators_dir self)
    (alter (fun v => mkInitialized (signing_method v) (iv_graffiti v) (iv_suggested_fee_recipient v)
                       (iv_gas_limit v) (iv_builder_proposals v) (Some index)) pk (validators self))
    (iv_node self).

(** All operations that change the validators. *)
Inductive operation : Type :=
| OpAdd (def : ValidatorDefinition)
| OpAddReplaceDisabled (def : ValidatorDefinition)
| OpDelete (pk : p1)
| OpEnable (pk : p1)
| OpDisable (pk : p1)
| OpFields (pk : p1) (en : option bool) (gas : option Z) (builder : option bool)
| OpFeeRecipient (pk : p1) (x : option Z)
| OpGasLimit (pk : p1) (x : option Z).

Definition run_operation (io : Io) (opened : Z -> option (Store.t Digest bytes)) (op : operation)
  : prog world IvError () :=
  match op with
  | OpAdd def => add_definition io opened def
  | OpAddReplaceDisabled def => add_definition_replace_disabled io opened def
  | OpDelete pk => _ ← delete_definition_and_keystore io pk; mret ()
  | OpEnable pk => enable_keystore io opened pk
  | OpDisable pk => _ ← disable_keystore io pk; mret ()
  | OpFields pk en gas builder => set_validator_definition_fields io opened pk en gas builder
  | OpFeeRecipient pk x => change_fee_recipient io pk x
  | OpGasLimit pk x => change_gas_limit io pk x
  end.
End initialized_validators.

(** ** The invariant *)

(** Sequencing under [wp], with the failures of the first part. *)
Ltac wp_step :=
  first
    [ apply wp_bind | apply wp_ret | apply wp_gets | apply wp_modify | apply wp_lift
    | apply wp_fail | apply wp_panic ]; cbv beta.

Lemma wp_any {S E A} (m : prog S E A) (Q : outcome E A -> S -> Prop) s :
  (forall r s', Q r s') -> wp m Q s.
Proof. intros HQ. apply HQ. Qed.

Section typing.
Context `{Eth2Keystore} `{Bincode} `{!SigCodec} `{MempoolCodec} `{Rocksdb Digest bytes}.
Implicit Types (def : ValidatorDefinition) (v : InitializedValidator) (w : world).

Definition definition_path def : option Path :=
  match signing_definition def with
  | LocalKeystore p _ _ | DistributedKeystore p _ _ _ _ _ => Some p
  | Web3Signer _ _ _ _ _ => None
  end.

Definition method_path v : Path :=
  match signing_method v with LocalMethod p _ _ | DistributedMethod p _ _ _ => p end.

(** The definition that a running validator has been started from. *)
Record describes def v : Prop := {
  desc_key : voting_public_key def = public_key_of v;
  desc_path : definition_path def = Some (method_path v);
  desc_graffiti : graffiti def = iv_graffiti v;
  desc_fee : suggested_fee_recipient def = iv_suggested_fee_recipient v;
  desc_gas : gas_limit def = iv_gas_limit v;
  desc_builder : builder_proposals def = iv_builder_proposals v
}.

(** The file of the committee of a definition names the key of the validator. *)
Definition committee_matches (d : Disk) def : Prop :=
  match signing_definition def with
  | DistributedKeystore _ _ _ (Some q) _ _ =>
      forall c, d !! q = Some (CommitteeFile c) -> def_validator_public_key c = voting_public_key def
  | _ => True
  end.

(** Every running validator has an enabled definition, which gives its fields. *)
Record iv_ok w : Prop := {
  ok_keys : NoDup (map voting_public_key (definitions (iv w)));
  ok_running k v : validators (iv w) !! k = Some v ->
    k = compress (public_key_of v) /\
    exists def, def ∈ definitions (iv w) /\ enabled def = true /\ describes def v;
  ok_files def : def ∈ definitions (iv w) -> committee_matches (disk w) def
}.

(** What also holds after an operation that fails. *)
Record iv_known w : Prop := {
  known_keys : NoDup (map voting_public_key (definitions (iv w)));
  known_running k v : validators (iv w) !! k = Some v ->
    k = compress (public_key_of v) /\
    exists def, def ∈ definitions (iv w) /\ voting_public_key def = public_key_of v;
  known_files def : def ∈ definitions (iv w) -> committee_matches (disk w) def
}.

Lemma iv_ok_known w : iv_ok w -> iv_known w.
Proof.
  intros [Hk Hr Hf]. split; [done| |done]. intros k v Hv.
  destruct (Hr k v Hv) as (-> & def & Hin & _ & Hd). split; [done|]. exists def.
  split; [done|]. apply desc_key, Hd.
Qed.

(** *** One definition *)

Lemma wp_entry (p : Path) load (u : updating) (Q : outcome IvError Keystore -> updating -> Prop) :
  (forall r stores, Q r (set_key_stores stores u)) -> wp (keystore_entry p load) Q u.
Proof. intros HQ. unfold wp, keystore_entry. destruct (entry p load (key_stores u)) as [r st]. apply HQ. Qed.

Lemma wp_cached_keypair k un (u : updating) (Q : outcome IvError Keypair -> updating -> Prop) :
  (forall r c, Q r (set_cache c u)) -> wp (cached_keypair k un) Q u.
Proof.
  intros HQ. unfold cached_keypair.
  assert (u = set_cache (key_cache u) u) as Eu by by destruct u.
  repeat wp_step. destruct (KeyCache.get _ _) as [kp|].
  - rewrite Eu. apply HQ.
  - repeat wp_step. destruct un; cbn; [apply HQ|rewrite Eu; apply HQ..].
Qed.

Lemma wp_lock io p (u : updating) (Q : outcome IvError () -> updating -> Prop) :
  (forall r, Q r u) -> wp (lock io p) Q u.
Proof.
  intros HQ. unfold lock. destruct (get_lockfile_path p); [|apply HQ].
  repeat wp_step. cbn. destruct (_ && _); apply HQ.
Qed.

Lemma wp_from_definition io d node opened def (u : updating) :
  committee_matches d def ->
  wp (from_definition io d node opened def)
    (fun r u' => running u' = running u /\ disabled_uuids u' = disabled_uuids u /\
       forall v, r = Ok v -> enabled def = true /\ describes def v) u.
Proof.
  intros Hmatch. unfold from_definition. destruct (enabled def) eqn:En; [|by wp_step].
  cbn [negb]. apply wp_bind.
  assert (wp (signing_method_of io d node opened def)
    (fun r u' => running u' = running u /\ disabled_uuids u' = disabled_uuids u /\
       forall m, r = Ok m ->
         describes def (mkInitialized m (graffiti def) (suggested_fee_recipient def) (gas_limit def)
                          (builder_proposals def) None)) u) as Hm.
  { unfold signing_method_of. destruct (signing_definition def) as [p pp pw| |p pp pw cp ci oi] eqn:Ed.
    - apply wp_bind, wp_entry. intros [k| | |] stores; try done. cbn.
      apply wp_bind, wp_cached_keypair. intros [kp| | |] c; try done. cbn.
      case_bool_decide as Hpk; [|done]. cbn [negb].
      apply wp_bind, wp_lock. intros [[]| | |]; try done. cbn.
      split_and!; [done|done|]. intros m [= <-]. split; try done.
      unfold definition_path. by rewrite Ed.
    - done.
    - apply wp_bind, wp_lift. destruct (open_keystore_share d p) as [s| | |]; try done. cbn.
      apply wp_bind, wp_entry. intros [k| | |] stores; try done. cbn.
      apply wp_bind, wp_cached_keypair. intros [kp| | |] c; try done. cbn.
      apply wp_bind, wp_lock. intros [[]| | |]; try done. cbn.
      apply wp_bind, wp_lift. destruct cp as [q|]; [|done]. cbn.
      apply wp_bind, wp_lift. destruct (committee_from_file d q) as [cd| | |] eqn:Ec; try done. cbn.
      apply wp_bind, wp_lift. destruct (start_signer _ _ _ _) as [signer| | |]; try done. cbn.
      split_and!; [done|done|]. intros m [= <-]. split; try done.
      + unfold committee_matches in Hmatch. rewrite Ed in Hmatch. symmetry. apply Hmatch.
        unfold committee_from_file in Ec. destruct (d !! q) as [[]|]; congruence.
      + unfold definition_path. by rewrite Ed. }
  eapply wp_mono; [|exact Hm]. intros [m| | |] u' (Hr & Hd & Hm'); cbn; try done.
  split_and!; [done|done|]. intros v [= <-]. auto.
Qed.

(** *** The loop over the definitions *)

(** What the loop over [defs] leaves: the validators that ran before and those that
    it has started; after it has ended none with a disabled definition. *)
Record updated (defs : list ValidatorDefinition) (r : outcome IvError ())
  (before after : gmap PublicKeyBytes InitializedValidator) : Prop := {
  upd_running k v : after !! k = Some v ->
    before !! k = Some v \/
    exists def, def ∈ defs /\ enabled def = true /\ describes def v /\ k = compress (public_key_of v);
  upd_enabled k v def : r = Ok () -> after !! k = Some v -> def ∈ defs ->
    k = compress (voting_public_key def) -> enabled def = true
}.

Lemma wp_initialize io d node opened def (u : updating) :
  committee_matches d def ->
  wp (initialize io d node opened def)
    (fun r u' => disabled_uuids u' = disabled_uuids u /\
       forall k v, running u' !! k = Some v -> running u !! k = Some v \/
         enabled def = true /\ describes def v /\ k = compress (public_key_of v)) u.
Proof.
  intros Hm. apply wp_bind. eapply wp_mono; [|by apply wp_from_definition].
  intros [v| | |] u' (Hr & Hd & Hv); cbn [bind_post]; rewrite ?Hr; auto.
  destruct (Hv v eq_refl) as [He Hdesc]. wp_step. cbn. rewrite Hr. split; [done|].
  intros k v' [[<- <-]|[_ Hv']]%lookup_insert_Some; auto.
Qed.

Lemma wp_tolerate {S E} (m : prog S E ()) (Q : outcome E () -> S -> Prop) s :
  wp m (fun r s' => match r with Err _ => Q (Ok ()) s' | r => Q r s' end) s -> wp (tolerate m) Q s.
Proof. unfold wp, tolerate. by destruct (m s) as [[]]. Qed.

Lemma wp_update_definition io d node opened def (u : updating) :
  committee_matches d def ->
  wp (update_definition io d node opened def) (fun r u' => updated [def] r (running u) (running u')) u.
Proof.
  intros Hm. unfold update_definition.
  assert (forall r (u' : updating), enabled def = true -> 
    (forall k v, running u' !! k = Some v -> running u !! k = Some v \/
         enabled def = true /\ describes def v /\ k = compress (public_key_of v)) ->
    updated [def] r (running u) (running u')) as Hrun.
  { intros r u' En Hk. split.
    - intros k v Hv. destruct (Hk k v Hv) as [|(? & ? & ?)]; [by left|right].
      exists def. split; [apply list_elem_of_here|done].
    - by intros k v e _ _ ->%list_elem_of_singleton _. }
  destruct (enabled def) eqn:En.
  - assert (forall node' (u0 : updating), running u0 = running u ->
      wp (initialize io d node' opened def)
        (fun r u' => updated [def] r (running u) (running u')) u0) as Hi.
    { intros node' u0 E0. eapply wp_mono; [|by apply wp_initialize].
      intros r u' [_ Hk]. apply Hrun; [done|]. intros k v Hv. rewrite <- E0.
      destruct (Hk k v Hv) as [|[_ ?]]; auto. }
    destruct (signing_definition def) as [p pp pw| |p pp pw cp ci oi] eqn:Ed.
    + apply wp_bind, wp_gets. cbn. destruct (running u !! _) eqn:Er.
      * wp_step. apply Hrun; auto.
      * apply wp_bind, wp_modify. by apply Hi.
    + by apply Hi.
    + apply wp_bind, wp_gets. cbn. destruct (running u !! _) eqn:Er.
      * wp_step. apply Hrun; auto.
      * apply wp_bind, wp_modify. apply wp_tolerate. eapply wp_mono; [|by apply Hi].
        intros r u' [H1' H2']. destruct r; split; auto; by intros k v x _ _ ->%list_elem_of_singleton _.
  - apply wp_bind, wp_modify. cbn.
    assert (forall r, updated [def] r (running u) (delete (compress (voting_public_key def)) (running u))) as Hdel.
    { intros r. split.
      - intros k v [_ Hv]%lookup_delete_Some. by left.
      - intros k v e _ [Hne _]%lookup_delete_Some ->%list_elem_of_singleton Hk. congruence. }
    destruct (signing_definition def); repeat wp_step; apply Hdel.
Qed.

Lemma updated_nil r m : updated [] r m m.
Proof. split; [by left|]. intros k v def _ _ Hin. by apply not_elem_of_nil in Hin. Qed.

Lemma updated_cons `{!BlstLaws} def defs r m1 m2 m3 :
  voting_public_key def ∉ map voting_public_key defs ->
  updated [def] (Ok ()) m1 m2 -> updated defs r m2 m3 -> updated (def :: defs) r m1 m3.
Proof.
  intros Hn [Ha1 Ha2] [Hb1 Hb2]. split.
  - intros k v Hv. destruct (Hb1 k v Hv) as [Hv'|(e & Hin & Hrest)].
    + destruct (Ha1 k v Hv') as [|(e & ->%list_elem_of_singleton & Hrest)]; [by left|right].
      exists def. split; [apply list_elem_of_here|done].
    + right. exists e. split; [by apply list_elem_of_further|done].
  - intros k v e -> Hv [->|Hin]%elem_of_cons Hk; [|by eapply Hb2].
    destruct (Hb1 k v Hv) as [Hv'|(e' & Hin & _ & Hd & Hk')].
    + eapply Ha2; [done|exact Hv'|apply list_elem_of_here|done].
    + destruct Hn. rewrite Hk in Hk'. apply compress_inj in Hk'.
      rewrite Hk', <- (desc_key _ _ Hd). by apply list_elem_of_fmap_2.
Qed.

Lemma updated_fail def defs r m1 m2 :
  r <> Ok () -> updated [def] r m1 m2 -> updated (def :: defs) r m1 m2.
Proof.
  intros Hr [Ha1 _]. split; [|done]. intros k v Hv.
  destruct (Ha1 k v Hv) as [|(e & ->%list_elem_of_singleton & Hrest)]; [by left|right].
  exists def. split; [apply list_elem_of_here|done].
Qed.

Lemma wp_update_definitions `{!BlstLaws} io d node opened defs (u : updating) :
  NoDup (map voting_public_key defs) ->
  (forall def, def ∈ defs -> committee_matches d def) ->
  wp (update_definitions io d node opened defs)
    (fun r u' => updated defs r (running u) (running u')) u.
Proof.
  revert u. induction defs as [|def defs IH]; intros u Hnd Hm.
  - wp_step. apply updated_nil.
  - cbn in Hnd. apply NoDup_cons in Hnd as [Hn Hnd]. apply wp_bind.
    eapply wp_mono; [|apply wp_update_definition, Hm, list_elem_of_here].
    intros [[]|e|msg|] u' Hu'; cbn [bind_post]; try by apply updated_fail.
    eapply wp_mono; [|apply IH; [done|]].
    + intros r u'' Hu''. by eapply updated_cons.
    + intros e He. by apply Hm, list_elem_of_further.
Qed.

(** *** The operations *)

(** Operations add no committee file. *)
Definition no_new_committees (d d' : Disk) : Prop :=
  forall q c, d' !! q = Some (CommitteeFile c) -> d !! q = Some (CommitteeFile c).

Lemma committee_matches_mono d d' def :
  no_new_committees d d' -> committee_matches d def -> committee_matches d' def.
Proof. unfold committee_matches. destruct (signing_definition def) as [| |p pp pw [q|] ci oi]; auto. Qed.

Lemma no_new_refl d : no_new_committees d d.
Proof. by intros q c. Qed.
#[local] Hint Resolve no_new_refl : core.

Lemma no_new_insert (p : Path) (f : file) (d : gmap Path file) :
  (forall c, f <> CommitteeFile c) -> no_new_committees d (<[p := f]> d).
Proof.
  intros Hf q c Hq. unfold Disk in Hq. apply lookup_insert_Some in Hq as [[_ E]|[_ E]]; [|done].
  by destruct (Hf c).
Qed.

Lemma wp_update_validators `{!BlstLaws} io opened w (Q : outcome IvError () -> world -> Prop) :
  NoDup (map voting_public_key (definitions (iv w))) ->
  (forall def, def ∈ definitions (iv w) -> committee_matches (disk w) def) ->
  (forall r m d h, updated (definitions (iv w)) r (validators (iv w)) m ->
     no_new_committees (disk w) d -> Q r (set_disk d (set_handlers h (set_validators m w)))) ->
  wp (update_validators io opened) Q w.
Proof.
  intros Hnd Hm HQ.
  assert (forall r, r <> Ok () -> Q r w) as Hfail.
  { intros r Hr. replace w with (set_disk (disk w) (set_handlers (handlers w) (set_validators (validators (iv w)) w)))
      by by destruct w as [[]].
    apply HQ; [|apply no_new_refl]. split; [by left|done]. }
  unfold update_validators. apply wp_bind. unfold get at 1. unfold wp at 1. cbn [bind_post fst snd].
  destruct (get_lockfile_path _) as [l|]; [|wp_step; by apply Hfail].
  destruct (io_lock io l); cbn [negb]; [|wp_step; by apply Hfail].
  apply wp_bind, wp_lift. destruct (open_cache _ _ _) as [cache| | |]; cbn [bind_post]; try by apply Hfail.
  destruct (decrypt_key_cache _ _ _ _ _) as [r stores].
  apply wp_bind, wp_lift. destruct r as [cache'| | |]; cbn [bind_post]; try by apply Hfail.
  apply wp_bind. unfold run_update, wp.
  pose proof (wp_update_definitions io (disk w) (iv_node (iv w)) opened (definitions (iv w))
    (mkUpdating cache' stores (validators (iv w)) ∅ (handlers w)) Hnd Hm) as Hu. unfold wp in Hu.
  destruct (update_definitions _ _ _ _ _ _) as [[[]|e|msg|] u]; cbn in Hu |- *.
  2-4: by apply (HQ _ (running u) (disk w) (node_handlers u)).
  apply wp_bind, wp_lift.
  destruct (remove_uuids _ _) as [cache2|e|msg|]; cbn [bind_post].
  2-4: apply (HQ _ (running u) (disk w) (node_handlers u)); [|auto]; split; [apply Hu|done].
  apply wp_modify. cbn. apply (HQ _ (running u) _ (node_handlers u)); [done|].
  unfold save_cache. destruct (KeyCache.save _ _ _) as [[? ?] [f|]]; [|done].
  by apply no_new_insert.
Qed.

(** A change of a definition that keeps its key and how it signs. *)
Definition keeps_key (f : ValidatorDefinition -> ValidatorDefinition) : Prop :=
  forall def, voting_public_key (f def) = voting_public_key def /\
    signing_definition (f def) = signing_definition def.

Lemma update_first_keys pk f l :
  keeps_key f -> map voting_public_key (update_first pk f l) = map voting_public_key l.
Proof.
  intros Hf. induction l as [|def l IH]; [done|]. cbn.
  case_bool_decide; cbn; [by rewrite (proj1 (Hf def))|by rewrite IH].
Qed.

Lemma update_first_map pk f l :
  NoDup (map voting_public_key l) ->
  update_first pk f l = map (fun def => if bool_decide (voting_public_key def = pk) then f def else def) l.
Proof.
  induction l as [|def l IH]; [done|]. cbn. intros [Hn Hnd]%NoDup_cons.
  case_bool_decide as Hpk; [|by rewrite IH]. f_equal. rewrite <- (map_id l) at 1.
  apply map_ext_in. intros e He. rewrite bool_decide_eq_false_2; [done|].
  intros E. apply Hn. rewrite Hpk, <- E. apply list_elem_of_fmap_2. by apply list_elem_of_In.
Qed.

Lemma elem_of_update_first pk f l def :
  NoDup (map voting_public_key l) ->
  def ∈ update_first pk f l <->
  exists e, e ∈ l /\ def = if bool_decide (voting_public_key e = pk) then f e else e.
Proof.
  intros Hnd. rewrite update_first_map by done. rewrite list_elem_of_fmap. naive_solver.
Qed.

Lemma committee_matches_keeps d f def :
  keeps_key f -> committee_matches d def -> committee_matches d (f def).
Proof.
  intros Hf. unfold committee_matches. destruct (Hf def) as [-> ->]. done.
Qed.

Lemma update_first_matches d pk f l :
  keeps_key f -> NoDup (map voting_public_key l) ->
  (forall def, def ∈ l -> committee_matches d def) ->
  forall def, def ∈ update_first pk f l -> committee_matches d def.
Proof.
  intros Hf Hnd Hm def (e & He & ->)%elem_of_update_first; [|done].
  case_bool_decide; [apply committee_matches_keeps|]; auto.
Qed.

Lemma iv_ok_disk w d : no_new_committees (disk w) d -> iv_ok w -> iv_ok (set_disk d w).
Proof. intros Hd [Hk Hr Hf]. split; cbn; [done|done|]. intros def Hin. eapply committee_matches_mono; eauto. Qed.

Lemma iv_known_disk w d : no_new_committees (disk w) d -> iv_known w -> iv_known (set_disk d w).
Proof. intros Hd [Hk Hr Hf]. split; cbn; [done|done|]. intros def Hin. eapply committee_matches_mono; eauto. Qed.

(** A result that is no panic. *)
Definition quiet {A} (r : outcome IvError A) : Prop := (exists a, r = Ok a) \/ exists e, r = Err e.

Lemma wp_save_definitions io w (Q : outcome IvError () -> world -> Prop) :
  (forall r d, quiet r -> no_new_committees (disk w) d -> Q r (set_disk d w)) ->
  wp (save_definitions io) Q w.
Proof.
  intros HQ. unfold save_definitions. apply wp_bind. unfold get, wp at 1. cbn [bind_post fst snd].
  unfold replace_file. destruct (_ && _).
  - apply wp_modify, HQ; [left; eauto|]. by apply no_new_insert.
  - apply wp_fail. replace w with (set_disk (disk w) w) by by destruct w. apply HQ; [right; eauto|auto].
Qed.

(** The running validators after the loop, when the definitions were exchanged for
    others with the same keys before it. *)
Lemma known_updated w D r m d h :
  iv_known w -> NoDup (map voting_public_key D) ->
  (forall pk, pk ∈ map voting_public_key (definitions (iv w)) -> 
     pk ∈ map voting_public_key D) ->
  (forall def, def ∈ D -> committee_matches d def) ->
  updated D r (validators (iv w)) m ->
  iv_known (mkWorld (mkIv D (validators_dir (iv w)) m (iv_node (iv w))) d h).
Proof.
  intros [Hk Hr Hf] Hnd Hsub Hm [Hu _]. split; [done| |done]. cbn. intros k v Hv.
  destruct (Hu k v Hv) as [Hv'|(def & Hin & _ & Hd & ->)].
  - destruct (Hr k v Hv') as (-> & def & Hin & Hpk). split; [done|].
    assert (public_key_of v ∈ map voting_public_key D) as (e & E & He)%list_elem_of_fmap.
    { apply Hsub. rewrite <- Hpk. by apply list_elem_of_fmap_2. }
    by exists e.
  - split; [done|]. exists def. split; [done|]. apply desc_key, Hd.
Qed.

Definition keeps {A} (m : prog world IvError A) (w : world) : Prop :=
  wp m (fun r w' => iv_known w' /\ forall a, r = Ok a -> iv_ok w') w.

Lemma keeps_same {A} (r : outcome IvError A) w : iv_ok w -> iv_known w /\ forall a, r = Ok a -> iv_ok w.
Proof. intros Hok. split; [by apply iv_ok_known|done]. Qed.

Lemma keeps_save io w : iv_ok w -> keeps (save_definitions io) w.
Proof.
  intros Hok. apply wp_save_definitions. intros r d _ Hd. apply keeps_same. by apply iv_ok_disk.
Qed.

Lemma add_definition_keeps `{!BlstLaws} io opened def w :
  iv_ok w -> committee_matches (disk w) def -> keeps (add_definition io opened def) w.
Proof.
  intros Hok Hm. destruct (Hok) as [Hk Hr Hf]. unfold add_definition. apply wp_bind, wp_gets. cbn [bind_post].
  destruct (existsb _ _) eqn:Edup; [by apply wp_fail, keeps_same|].
  apply wp_bind, wp_modify. cbn [bind_post]. apply wp_bind.
  set (D := definitions (iv w) ++ [def]).
  assert (NoDup (map voting_public_key D)) as HD.
  { unfold D. rewrite map_app. apply NoDup_app. split_and!; [done| |apply NoDup_singleton].
    intros pk Hin ->%list_elem_of_singleton. apply list_elem_of_fmap in Hin as (e & E & He).
    apply not_true_iff_false in Edup. apply Edup. apply existsb_exists. exists e.
    split; [by apply list_elem_of_In|]. by apply bool_decide_eq_true_2. }
  assert (forall e, e ∈ D -> committee_matches (disk w) e) as HmD.
  { intros e [He| ->%list_elem_of_singleton]%elem_of_app; auto. }
  apply wp_update_validators; [done|done|]. cbn. intros r m d h Hu Hd.
  assert (iv_known (mkWorld (mkIv D (validators_dir (iv w)) m (iv_node (iv w))) d h)) as Hkn.
  { apply (known_updated w D r); [by apply iv_ok_known|done| | |done].
    - intros pk Hin. unfold D. rewrite map_app. apply elem_of_app. by left.
    - intros e He. eapply committee_matches_mono; eauto. }
  destruct r as [[]|e|msg|]; cbn [bind_post]; try done.
  apply keeps_save. split; [done| |apply Hkn]. cbn. intros k v Hv.
  destruct (upd_running _ _ _ _ Hu k v Hv) as [Hv'|(e & Hin & En & Hd' & ->)]; [|by eauto].
  destruct (Hr k v Hv') as (-> & e & Hin & En & Hd'). split; [done|]. exists e.
  split; [|done]. apply elem_of_app. by left.
Qed.

Lemma add_definition_replace_disabled_keeps `{!BlstLaws} io opened def w :
  iv_ok w -> committee_matches (disk w) def ->
  keeps (add_definition_replace_disabled io opened def) w.
Proof.
  intros [Hk Hr Hf] Hm. apply wp_bind, wp_modify. cbn [bind_post].
  apply add_definition_keeps; [|done]. split; cbn.
  - eapply sublist_NoDup; [exact Hk|]. apply fmap_sublist, sublist_filter.
  - intros k v Hv. destruct (Hr k v Hv) as (-> & e & Hin & En & Hd). split; [done|].
    exists e. split; [|done]. apply list_elem_of_filter. split; [|done]. rewrite En. by intros [? _].
  - intros e [_ He]%list_elem_of_filter. auto.
Qed.

Lemma wp_disable_definition io pk w (Q : outcome IvError DeleteKeystoreStatus -> world -> Prop) :
  (forall r d D, no_new_committees (disk w) d ->
     D = definitions (iv w) \/ D = update_first pk (set_enabled false) (definitions (iv w)) ->
     (r = Ok Deleted -> D = update_first pk (set_enabled false) (definitions (iv w))) ->
     (r = Ok NotFound -> D = definitions (iv w)) ->
     Q r (set_disk d (set_definitions D w))) ->
  wp (disable_definition io pk) Q w.
Proof.
  intros HQ. unfold disable_definition. apply wp_bind, wp_gets. cbn [bind_post].
  assert (forall r, r <> Ok Deleted -> Q r w) as Hsame.
  { intros r Hr. replace w with (set_disk (disk w) (set_definitions (definitions (iv w)) w))
      by by destruct w as [[]].
    by apply HQ; auto. }
  destruct (find_definition pk _) as [def|]; [|by apply wp_ret, Hsame].
  destruct (_ || _); [|by apply wp_fail, Hsame].
  apply wp_bind, wp_modify. cbn [bind_post]. apply wp_bind, wp_save_definitions.
  intros [[]|e|msg|] d _ Hd; cbn [bind_post]; [apply wp_ret|..]; apply HQ; auto; done.
Qed.

Lemma keeps_key_enabled b : keeps_key (set_enabled b).
Proof. by intros def. Qed.

(** After a definition was disabled: the others are as before. *)
Lemma disabled_known w pk d D :
  iv_ok w -> no_new_committees (disk w) d ->
  D = definitions (iv w) \/ D = update_first pk (set_enabled false) (definitions (iv w)) ->
  iv_known (set_disk d (set_definitions D w)).
Proof.
  intros [Hk Hr Hf] Hd HD.
  assert (map voting_public_key D = map voting_public_key (definitions (iv w))) as Hkeys.
  { destruct HD as [->| ->]; [done|]. apply update_first_keys, keeps_key_enabled. }
  split; cbn.
  - by rewrite Hkeys.
  - intros k v Hv. destruct (Hr k v Hv) as (-> & e & Hin & En & Hd'). split; [done|].
    assert (voting_public_key e ∈ map voting_public_key D) as (x & Ex & Hx)%list_elem_of_fmap
      by (rewrite Hkeys; by apply list_elem_of_fmap_2).
    exists x. split; [done|]. rewrite <- Ex. apply desc_key, Hd'.
  - intros e He. apply committee_matches_mono with (disk w); [done|].
    destruct HD as [->| ->]; [auto|]. revert e He.
    by apply update_first_matches; [apply keeps_key_enabled|..].
Qed.

(** A running validator other than that of a key keeps its definition. *)
Lemma disabled_other w pk v e :
  NoDup (map voting_public_key (definitions (iv w))) -> e ∈ definitions (iv w) ->
  describes e v -> compress (public_key_of v) <> compress pk ->
  e ∈ update_first pk (set_enabled false) (definitions (iv w)) /\ voting_public_key e <> pk.
Proof.
  intros Hnd Hin Hd Hne.
  assert (voting_public_key e <> pk) as Hpk
    by (rewrite (desc_key _ _ Hd); intros E; apply Hne; by rewrite E).
  split; [|done]. apply elem_of_update_first; [done|]. exists e. by rewrite bool_decide_eq_false_2.
Qed.

Lemma disabled_ok w pk d :
  iv_ok w -> no_new_committees (disk w) d ->
  iv_ok (set_disk d (set_validators (delete (compress pk) (validators (iv w)))
    (set_definitions (update_first pk (set_enabled false) (definitions (iv w))) w))).
Proof.
  intros Hok Hd. pose proof (disabled_known w pk d _ Hok Hd (or_intror eq_refl)) as [Hk' _ Hf'].
  destruct Hok as [Hk Hr Hf]. split; [done| |done]. cbn.
  intros k v [Hne Hv]%lookup_delete_Some. destruct (Hr k v Hv) as (-> & e & Hin & En & Hd').
  split; [done|]. exists e. split; [|done]. eapply disabled_other; eauto.
Qed.

Lemma disable_keystore_keeps io pk w : iv_ok w -> keeps (disable_keystore io pk) w.
Proof.
  intros Hok. apply wp_bind, wp_disable_definition. intros r d D Hd HD Hdel Hnf.
  pose proof (disabled_known w pk d D Hok Hd HD) as Hkn.
  destruct r as [[]|e|msg|]; cbn [bind_post]; try done.
  - rewrite (Hnf eq_refl). apply wp_ret. rewrite (Hnf eq_refl) in Hkn. split; [done|]. intros _ _.
    replace (set_definitions (definitions (iv w)) w) with w by by destruct w as [[]].
    by apply iv_ok_disk.
  - rewrite (Hdel eq_refl). apply wp_bind, wp_modify, wp_ret. cbn. apply keeps_same.
    by apply disabled_ok.
Qed.

Lemma wp_delete_files io m w (Q : outcome IvError () -> world -> Prop) :
  (forall r d, quiet r -> no_new_committees (disk w) d -> Q r (set_disk d w)) ->
  wp (delete_files io m) Q w.
Proof.
  intros HQ. unfold delete_files. apply wp_bind, wp_gets. cbn [bind_post].
  assert (forall e, Q (Err e) w) as Hsame.
  { intros e. replace w with (set_disk (disk w) w) by by destruct w. apply HQ; [right; eauto|auto]. }
  assert (forall dir p, wp (delete_keystore_dir_or_file io dir p) Q w) as Hd.
  { intros dir p. unfold delete_keystore_dir_or_file. apply wp_bind, wp_gets. cbn [bind_post].
    case_bool_decide.
    - destruct (_ && _); [|apply wp_fail, Hsame]. apply wp_modify, HQ; [left; eauto|].
      intros q c Hq. unfold remove_dir_all, Disk in Hq. by apply map_lookup_filter_Some in Hq as [Hq _].
    - destruct (_ && _); [|apply wp_fail, Hsame]. apply wp_modify, HQ; [left; eauto|].
      intros q c Hq. unfold Disk in Hq. by apply lookup_delete_Some in Hq as [_ Hq]. }
  destruct m; apply Hd.
Qed.

Lemma no_new_trans d1 d2 d3 :
  no_new_committees d1 d2 -> no_new_committees d2 d3 -> no_new_committees d1 d3.
Proof. intros H1' H2' q c Hq. auto. Qed.

Lemma delete_keeps io pk w : iv_ok w -> keeps (delete_definition_and_keystore io pk) w.
Proof.
  intros Hok. apply wp_bind, wp_disable_definition. intros r d D Hd HD Hdel Hnf.
  pose proof (disabled_known w pk d D Hok Hd HD) as Hkn.
  destruct r as [[]|e|msg|]; cbn [bind_post]; try done.
  { rewrite (Hnf eq_refl) in *. apply wp_ret. split; [done|]. intros _ _.
    replace (set_definitions (definitions (iv w)) w) with w by by destruct w as [[]].
    by apply iv_ok_disk. }
  rewrite (Hdel eq_refl). clear Hkn.
  apply wp_bind, wp_gets. cbn [bind_post]. apply wp_bind, wp_modify. cbn [bind_post]. apply wp_bind.
  assert (forall r' d', no_new_committees d d' ->
    bind_post (fun _ : () => modify (fun w => set_definitions
        (filter (fun def => voting_public_key def <> pk) (definitions (iv w))) w);;
      save_definitions io;; mret Deleted)
      (fun r w' => iv_known w' /\ forall a, r = Ok a -> iv_ok w') r'
      (set_disk d' (set_validators (delete (compress pk) (validators (iv w)))
        (set_definitions (update_first pk (set_enabled false) (definitions (iv w))) w)))) as Hrest.
  { intros r' d' Hd'.
    pose proof (disabled_ok w pk d' Hok (no_new_trans _ _ _ Hd Hd')) as Hok'.
    destruct r' as [[]|e|msg|]; cbn [bind_post]; [|by split; [apply iv_ok_known|]..].
    apply wp_bind, wp_modify. cbn [bind_post].
    apply wp_bind. eapply wp_mono; [|apply keeps_save].
    - intros [[]|e|msg|] w' [Hkn Hko]; cbn [bind_post]; [|done..]. apply wp_ret.
      apply keeps_same. by apply (Hko ()).
    - destruct Hok' as [Hk Hr Hf]. split; cbn.
      + eapply sublist_NoDup; [exact Hk|]. apply fmap_sublist, sublist_filter.
      + intros k v Hv. destruct (Hr k v Hv) as (-> & e & Hin & En & Hdesc). split; [done|].
        exists e. split; [|done]. apply list_elem_of_filter. split; [|done].
        cbn in Hv. apply lookup_delete_Some in Hv as [Hne _]. intros <-. apply Hne.
        by rewrite (desc_key _ _ Hdesc).
      + intros e [_ He]%list_elem_of_filter. by apply Hf. }
  cbn. destruct (validators (iv w) !! compress pk) as [v|].
  - apply wp_delete_files. intros r' d' _ Hd'. by apply (Hrest r' d').
  - apply wp_ret. by apply (Hrest (Ok ()) d).
Qed.

(** A change [f] of the definition of a key and [g] of the running validator. *)
Lemma change_keeps `{!BlstLaws} io pk f g w :
  keeps_key f -> (forall def, enabled (f def) = enabled def) ->
  (forall def v, describes def v -> describes (f def) (g v)) ->
  (forall v, public_key_of (g v) = public_key_of v) ->
  iv_ok w ->
  keeps (modify (fun w => set_definitions (update_first pk f (definitions (iv w))) w);;
         update_running pk g;; save_definitions io) w.
Proof.
  intros Hkey Hen Hdesc Hg [Hk Hr Hf]. apply wp_bind, wp_modify. cbn [bind_post].
  apply wp_bind, wp_modify. cbn [bind_post]. apply keeps_save. split; cbn.
  - by rewrite update_first_keys.
  - intros k v Hv. apply lookup_alter_Some in Hv.
    assert (exists v0, validators (iv w) !! k = Some v0 /\
      v = if bool_decide (k = compress pk) then g v0 else v0) as (v0 & Hv0 & ->).
    { destruct Hv as [(-> & v0 & E & ->)|[Hne E]]; eexists; (split; [exact E|]).
      - by rewrite bool_decide_eq_true_2.
      - by rewrite bool_decide_eq_false_2. }
    destruct (Hr k v0 Hv0) as (-> & e & Hin & En & Hd).
    assert (public_key_of (if bool_decide (compress (public_key_of v0) = compress pk) then g v0 else v0) =
      public_key_of v0) as -> by (case_bool_decide; auto).
    split; [done|].
    exists (if bool_decide (voting_public_key e = pk) then f e else e). split.
    + apply elem_of_update_first; [done|]. eauto.
    + assert (bool_decide (compress (public_key_of v0) = compress pk) = bool_decide (voting_public_key e = pk)) as ->.
      { apply bool_decide_ext. rewrite (desc_key _ _ Hd). split; [apply compress_inj|by intros ->]. }
      destruct (bool_decide (voting_public_key e = pk)); [split; [by rewrite Hen|]|]; auto.
  - by apply update_first_matches.
Qed.

Lemma fields_keeps `{!BlstLaws} io opened pk en gas builder w :
  iv_ok w -> keeps (set_validator_definition_fields io opened pk en gas builder) w.
Proof.
  intros Hok. destruct (Hok) as [Hk Hr Hf]. unfold set_validator_definition_fields.
  set (f := fun def => set_enabled _ _). set (g := fun v => mkInitialized _ _ _ _ _ _).
  assert (keeps_key f) as Hkey by by intros def.
  assert (forall def v, describes def v -> describes (f def) (g v)) as Hold.
  { intros def v [H1' H2' H3' H4' H5' H6']. split; cbn; try done; by f_equal. }
  assert (forall def v, describes (f def) v -> describes (f def) (g v)) as Hnew.
  { intros def v [H1' H2' H3' H4' H5' H6']. split; cbn in *; try done.
    - rewrite <- H5'. by destruct gas.
    - rewrite <- H6'. by destruct builder. }
  apply wp_bind, wp_modify. cbn [bind_post]. apply wp_bind.
  set (D := update_first pk f (definitions (iv w))).
  assert (NoDup (map voting_public_key D)) as HD by by unfold D; rewrite update_first_keys.
  apply wp_update_validators; [done|by apply update_first_matches|]. cbn. fold D.
  intros r m d h Hu Hd.
  assert (iv_known (mkWorld (mkIv D (validators_dir (iv w)) m (iv_node (iv w))) d h)) as Hkn.
  { apply (known_updated w D r); [by apply iv_ok_known|done| | |done].
    - intros x. unfold D. by rewrite update_first_keys.
    - intros e He. eapply committee_matches_mono; [done|]. revert e He. by apply update_first_matches. }
  destruct r as [[]|e|msg|]; cbn [bind_post]; try done.
  apply wp_bind, wp_modify. cbn [bind_post]. apply keeps_save. split; [done| |apply Hkn]. cbn.
  intros k v Hv. apply lookup_alter_Some in Hv.
  assert (exists v0, m !! k = Some v0 /\
    v = if bool_decide (k = compress pk) then g v0 else v0) as (v0 & Hv0 & ->).
  { destruct Hv as [(-> & v0 & E & ->)|[Hne E]]; eexists; (split; [exact E|]).
    - by rewrite bool_decide_eq_true_2.
    - by rewrite bool_decide_eq_false_2. }
  assert (exists e, e ∈ D /\ enabled e = true /\ k = compress (public_key_of v0) /\
    voting_public_key e = public_key_of v0 /\
    describes e (if bool_decide (voting_public_key e = pk) then g v0 else v0))
    as (e & Hin & En & -> & Hpk & Hd').
  { destruct (upd_running _ _ _ _ Hu k v0 Hv0) as [Hv'|(e & Hin & En & Hd' & ->)].
    - destruct (Hr k v0 Hv') as (-> & e & Hin & _ & Hd').
      exists (if bool_decide (voting_public_key e = pk) then f e else e).
      assert ((if bool_decide (voting_public_key e = pk) then f e else e) ∈ D) as HinD
        by (apply elem_of_update_first; eauto).
      assert (voting_public_key (if bool_decide (voting_public_key e = pk) then f e else e) =
        voting_public_key e) as Epk by (case_bool_decide; [apply Hkey|done]).
      split_and!; [done| |done|by rewrite Epk, (desc_key _ _ Hd')|].
      + eapply (upd_enabled _ _ _ _ Hu); [done|exact Hv0|done|]. by rewrite Epk, (desc_key _ _ Hd').
      + rewrite Epk. destruct (bool_decide (voting_public_key e = pk)); auto.
    - exists e. split_and!; [done|done|done|apply (desc_key _ _ Hd')|].
      destruct (bool_decide (voting_public_key e = pk)) eqn:Epk; [|done].
      apply elem_of_update_first in Hin as (e0 & He0 & ->); [|done].
      destruct (bool_decide (voting_public_key e0 = pk)) eqn:E0; [by apply Hnew|].
      rewrite E0 in Epk. done. }
  assert (public_key_of (if bool_decide (compress (public_key_of v0) = compress pk) then g v0 else v0) =
    public_key_of v0) as -> by by destruct (bool_decide _).
  split; [done|]. exists e. split_and!; [done|done|].
  assert (bool_decide (compress (public_key_of v0) = compress pk) = bool_decide (voting_public_key e = pk)) as ->.
  { apply bool_decide_ext. rewrite Hpk. split; [apply compress_inj|by intros ->]. }
  done.
Qed.

(** The file of the definitions. *)
Definition saved w : Prop :=
  disk w !! join (validators_dir (iv w)) CONFIG_FILENAME = Some (DefinitionsFile (definitions (iv w))).

Lemma wp_save_saved io w :
  wp (save_definitions io) (fun r w' => iv w' = iv w /\ (r = Ok () -> saved w')) w.
Proof.
  unfold save_definitions. apply wp_bind. unfold get, wp at 1. cbn [bind_post fst snd].
  unfold replace_file. destruct (_ && _); [|by apply wp_fail].
  apply wp_modify. split; [done|]. intros _. unfold saved. cbn. unfold Disk. apply lookup_insert_eq.
Qed.

Definition saves {A} (m : prog world IvError A) (w : world) : Prop :=
  wp m (fun r w' => forall a, r = Ok a -> saved w') w.

Lemma saves_last {A} (m : prog world IvError A) (k : prog world IvError ()) w :
  (forall w', saves k w') -> saves (m;; k) w.
Proof. intros Hk. apply wp_bind, wp_any. intros [a|e|msg|] w'; try done. apply Hk. Qed.

Lemma saves_save io w : saves (save_definitions io) w.
Proof. eapply wp_mono; [|apply wp_save_saved]. intros r w' [_ Hs] [] E. auto. Qed.

Lemma saves_disable io pk w : saved w ->
  wp (disable_definition io pk) (fun r w' => forall a, r = Ok a -> saved w') w.
Proof.
  intros Hs. unfold disable_definition. apply wp_bind, wp_gets. cbn [bind_post].
  destruct (find_definition pk _) as [def|]; [|by apply wp_ret].
  destruct (_ || _); [|by apply wp_fail].
  apply wp_bind, wp_modify. cbn [bind_post]. apply wp_bind. eapply wp_mono; [|apply wp_save_saved].
  intros [[]|e|msg|] w' [_ Hs']; cbn [bind_post]; try done. apply wp_ret. intros a _. auto.
Qed.

Lemma operation_saves io opened op w : saved w -> saves (run_operation io opened op) w.
Proof.
  intros Hs. destruct op; cbn [run_operation].
  - unfold add_definition. apply wp_bind, wp_gets. cbn [bind_post].
    destruct (existsb _ _); [by apply wp_fail|]. do 2 (apply saves_last; intros). apply saves_save.
  - unfold add_definition_replace_disabled, add_definition. apply wp_bind, wp_modify. cbn [bind_post].
    apply wp_bind, wp_gets. cbn [bind_post].
    destruct (existsb _ _); [by apply wp_fail|]. do 2 (apply saves_last; intros). apply saves_save.
  - apply wp_bind, wp_bind. eapply wp_mono; [|by apply saves_disable].
    intros [[]|e|msg|] w' Hs'; cbn [bind_post]; try done.
    { apply wp_ret. cbn. apply wp_ret. eauto. }
    apply wp_bind, wp_gets. cbn [bind_post]. apply wp_bind, wp_modify. cbn [bind_post].
    apply wp_bind, wp_any. intros [[]|e|msg|] w1; cbn [bind_post]; try done.
    apply wp_bind, wp_modify. cbn [bind_post]. apply wp_bind. eapply wp_mono; [|apply wp_save_saved].
    intros [[]|e|msg|] w2 [_ Hs2]; cbn [bind_post]; try done. apply wp_ret. cbn. apply wp_ret. auto.
  - do 3 (apply saves_last; intros). apply saves_save.
  - apply wp_bind, wp_bind. eapply wp_mono; [|by apply saves_disable].
    intros [[]|e|msg|] w' Hs'; cbn [bind_post]; try done.
    { apply wp_ret. cbn. apply wp_ret. eauto. }
    apply wp_bind, wp_modify. cbn [bind_post]. apply wp_ret. cbn. apply wp_ret. intros a _. by apply (Hs' Deleted).
  - do 3 (apply saves_last; intros). apply saves_save.
  - do 2 (apply saves_last; intros). apply saves_save.
  - do 2 (apply saves_last; intros). apply saves_save.
Qed.

Lemma operation_keeps `{!BlstLaws} io opened op w :
  iv_ok w ->
  (forall def, op = OpAdd def \/ op = OpAddReplaceDisabled def -> committee_matches (disk w) def) ->
  keeps (run_operation io opened op) w.
Proof.
  intros Hok Hadd. destruct op; cbn [run_operation].
  - apply add_definition_keeps; auto.
  - apply add_definition_replace_disabled_keeps; auto.
  - apply wp_bind. eapply wp_mono; [|by apply delete_keeps].
    intros [[]|e|msg|] w' [Hk Ho]; cbn [bind_post]; try (split; [done|discriminate]); apply wp_ret; eauto.
  - by apply fields_keeps.
  - apply wp_bind. eapply wp_mono; [|by apply disable_keystore_keeps].
    intros [[]|e|msg|] w' [Hk Ho]; cbn [bind_post]; try (split; [done|discriminate]); apply wp_ret; eauto.
  - by apply fields_keeps.
  - apply change_keeps; try done. intros def v [H1' H2' H3' H4' H5' H6']. by split.
  - apply change_keeps; try done. intros def v [H1' H2' H3' H4' H5' H6']. by split.
Qed.

Lemma from_definitions_ok `{!BlstLaws} io opened defs dir node d h w :
  NoDup (map voting_public_key defs) -> (forall def, def ∈ defs -> committee_matches d def) ->
  from_definitions io opened defs dir node d h = (Ok (), w) -> iv_ok w.
Proof.
  intros Hnd Hm E. unfold from_definitions in E.
  refine (wp_run _ (fun r w' => r = Ok () -> iv_ok w') _ _ _ _ E eq_refl). clear E.
  apply wp_update_validators; [done|done|]. cbn. intros r m d' h' [Hu _] Hd ->. split; cbn; [done| |].
  - intros k v Hv. destruct (Hu k v Hv) as [Hv'|(def & ? & ? & ? & ->)]; [done|eauto].
  - intros def Hin. eapply committee_matches_mono; eauto.
Qed.

(** C16: the validators of a client are well formed.  Started from definitions with
    distinct keys whose committee files name these keys, and after every operation
    that succeeds, the definitions have distinct keys, the file holds them, and
    every running validator is filed under its key and has an enabled definition
    with the same key, keystore and settings.  When an operation fails, the keys
    are still distinct and every running validator still has a definition. *)
Theorem validators_well_formed `{!BlstLaws} io opened :
  (forall defs dir node d h w,
     NoDup (map voting_public_key defs) -> (forall def, def ∈ defs -> committee_matches d def) ->
     from_definitions io opened defs dir node d h = (Ok (), w) -> iv_ok w) /\
  (forall op w r w',
     iv_ok w -> saved w ->
     (forall def, op = OpAdd def \/ op = OpAddReplaceDisabled def -> committee_matches (disk w) def) ->
     run_operation io opened op w = (r, w') ->
     iv_known w' /\ (r = Ok () -> iv_ok w' /\ saved w')).
Proof.
  split; [intros; by eapply from_definitions_ok|].
  intros op w r w' Hok Hs Hadd E.
  pose proof (operation_keeps io opened op w Hok Hadd) as Hkeep.
  pose proof (operation_saves io opened op w Hs) as Hs'.
  unfold keeps, wp in Hkeep. unfold saves, wp in Hs'. rewrite E in Hkeep, Hs'. destruct Hkeep as [Hk Ho].
  split; [done|]. intros ->. split; [by apply (Ho ())|by apply (Hs' ())].
Qed.
End typing.

(** ** A client with one local keystore *)

Section witness.
#[local] Existing Instances ideal_blst ideal_blst_laws ideal_bincode ideal_sig_codec memory_db ideal_mempool.
#[local] Existing Instances ideal_keystore_crypto ideal_eth2_keystore.

Definition local_io : Io := mkIo (fun _ => true) (fun _ => true) (fun _ => demo_params) (fun _ => []).
Definition local_definition : ValidatorDefinition :=
  mkValidatorDefinition true (SecretKey_public_key 5) None None None None ""
    (LocalKeystore ["v"; "keystore"] None (Some [50])).
Definition local_disk : Disk :=
  {[ ["v"] := Directory;
     ["v"; "keystore"] := KeystoreFile (1, [50], mkKeypair _ (SecretKey_public_key 5) 5);
     ["v"; CONFIG_FILENAME] := DefinitionsFile [] ]}.
Definition local_opened (_ : Z) : option (Store.t Digest bytes) := None.
Definition local_world : world := mkWorld (mkIv [] ["v"] ∅ None) local_disk (mkHandlers ∅ ∅ ∅ ∅).

Definition started_world : outcome IvError () * world :=
  from_definitions local_io local_opened [local_definition] ["v"] None local_disk (mkHandlers ∅ ∅ ∅ ∅).
Definition added_world : outcome IvError () * world :=
  run_operation local_io local_opened (OpAdd local_definition) local_world.

Lemma ok_of_bool {E} (r : outcome E ()) :
  match r with Ok _ => true | _ => false end = true -> r = Ok ().
Proof. by destruct r as [[]| | |]. Qed.

Lemma started_world_ok : fst started_world = Ok ().
Proof. apply ok_of_bool. vm_compute. reflexivity. Qed.

Lemma added_world_ok : fst added_world = Ok ().
Proof. apply ok_of_bool. vm_compute. reflexivity. Qed.

Lemma local_world_ok : iv_ok local_world.
Proof. split; [constructor|done|]. intros def Hd. by apply not_elem_of_nil in Hd. Qed.

(** The validator is started from its definition, or added to a client without one. *)
Lemma validators_well_formed_witness :
  iv_ok (snd started_world) /\ iv_ok (snd added_world) /\ saved (snd added_world).
Proof.
  destruct (validators_well_formed local_io local_opened) as [Hstart Hop]. split.
  - apply (Hstart [local_definition] ["v"] None local_disk (mkHandlers ∅ ∅ ∅ ∅)).
    + apply NoDup_singleton.
    + intros def ->%list_elem_of_singleton. exact I.
    + fold started_world. rewrite (surjective_pairing started_world) at 1.
      by rewrite started_world_ok.
  - apply (Hop (OpAdd local_definition) local_world (fst added_world) (snd added_world)).
    + exact local_world_ok.
    + reflexivity.
    + intros def [E|E]; [|discriminate]. injection E as <-. exact I.
    + apply surjective_pairing.
    + apply added_world_ok.
Defined.
End witness.
