(* ===== verification/ValidatorUpdates.v ===== *)
(** * Starting and stopping validators with distributed keys

    The operations of [InitializedValidators] on definitions with distributed keys
    whose files can be read: what runs after them, and which handlers the node has.
    The definitions of these operations are in [InitializedValidators]. *)

From S2P Require Import Prelude Store Committee Messages Network Core Ideal Mempool.
From S2P Require Import Scalars Blst BlstIdeal Operator DvfCore Doppelganger KeyCache KeyFiles.
From S2P Require Import InitializedValidators.

Section distributed.
Context `{Eth2Keystore} `{!BlstLaws} `{Bincode} `{!SigCodec} `{MempoolCodec} `{Rocksdb Digest bytes}.

(** The share, the key pair, the committee and the signer of a validator. *)
Record material := mkMaterial {
  mat_share : KeystoreShare;
  mat_keypair : Keypair;
  mat_committee : OperatorCommitteeDefinition;
  mat_signer : DvfSigner
}.

Context (mat : p1 -> material).
Implicit Types (def : ValidatorDefinition) (v : InitializedValidator) (w : world).

Definition uuid_of (pk : p1) : Uuid := ks_uuid (share_keystore (mat_share (mat pk))).

(** A definition whose files lead to its material. *)
Definition loads (io : Io) (opened : Z -> option (Store.t Digest bytes)) (d : Disk)
  (node : option node_id) def : Prop :=
  let m := mat (voting_public_key def) in
  match signing_definition def with
  | DistributedKeystore p pp pw (Some q) _ _ =>
      d !! p = Some (ShareFile (mat_share m)) /\
      (exists password, unlock io d (share_keystore (mat_share m)) p pp pw = Ok (password, mat_keypair m)) /\
      d !! q = Some (CommitteeFile (mat_committee m)) /\
      def_validator_public_key (mat_committee m) = voting_public_key def /\
      start_signer node opened (mat_keypair m) (mat_committee m) = Ok (mat_signer m) /\
      is_Some (get_lockfile_path p)
  | _ => False
  end.

(** All definitions load, nothing else holds their locks, and no two of them share a
    lock file or the identifier of a keystore. *)
Record ready (io : Io) (opened : Z -> option (Store.t Digest bytes)) (d : Disk)
  (node : option node_id) (defs : list ValidatorDefinition) : Prop := {
  rd_keys : NoDup (map voting_public_key defs);
  rd_loads def : def ∈ defs -> loads io opened d node def;
  rd_lock p : io_lock io p = true;
  rd_paths e1 e2 p q : e1 ∈ defs -> e2 ∈ defs ->
    definition_path e1 = Some p -> definition_path e2 = Some q ->
    get_lockfile_path p = get_lockfile_path q -> voting_public_key e1 = voting_public_key e2;
  rd_uuids e1 e2 : e1 ∈ defs -> e2 ∈ defs ->
    uuid_of (voting_public_key e1) = uuid_of (voting_public_key e2) ->
    voting_public_key e1 = voting_public_key e2
}.

Definition started_validator def : InitializedValidator :=
  let m := mat (voting_public_key def) in
  mkInitialized
    (DistributedMethod (default [] (definition_path def)) (mat_share m) (voting_public_key def)
       (mat_signer m))
    (graffiti def) (suggested_fee_recipient def) (gas_limit def) (builder_proposals def) None.

(** What the loop makes of one definition. *)
Definition settle (x : gmap PublicKeyBytes InitializedValidator * Handlers) def
  : gmap PublicKeyBytes InitializedValidator * Handlers :=
  let k := compress (voting_public_key def) in
  if enabled def then
    match x.1 !! k with
    | Some _ => x
    | None =>
        (<[k := started_validator def]> x.1,
         add_handlers (def_validator_id (mat_committee (mat (voting_public_key def)))) x.2)
    end
  else (delete k x.1, x.2).

(** ** The loop *)

Section loop.
Context (io : Io) (opened : Z -> option (Store.t Digest bytes)) (d : Disk) (node : option node_id).
Context (defs : list ValidatorDefinition) (Hready : ready io opened d node defs).

(** Before the loop reaches the definitions after [pre]. *)
Record progress (pre : list ValidatorDefinition) (u : updating) : Prop := {
  pg_cache uu kp : KeyCache.pairs (key_cache u) !! uu = Some kp ->
    exists e, e ∈ defs /\ uu = uuid_of (voting_public_key e) /\
      kp = mat_keypair (mat (voting_public_key e));
  pg_stores p k : key_stores u !! p = Some k ->
    exists e, e ∈ pre /\ definition_path e = Some p;
  pg_disabled : disabled_uuids u = ∅;
  pg_running k v : running u !! k = Some v ->
    k = compress (public_key_of v) /\
    exists e, e ∈ defs /\ voting_public_key e = public_key_of v /\
      definition_path e = Some (method_path v)
}.

Lemma lock_free (pre : list ValidatorDefinition) (u : updating) def p l :
  progress pre u -> def ∈ defs -> definition_path def = Some p -> get_lockfile_path p = Some l ->
  running u !! compress (voting_public_key def) = None -> lock_held (running u) l = false.
Proof.
  intros Hp Hdef Hpath Hl Hnone. unfold lock_held. apply not_true_iff_false. intros Hex.
  apply existsb_exists in Hex as ([k v] & Hin & Hv%bool_decide_eq_true_1). cbn in Hv.
  apply list_elem_of_In, elem_of_map_to_list in Hin.
  destruct (pg_running _ _ Hp k v Hin) as (-> & e & He & Hpk & Hpe).
  assert (get_lockfile_path (method_path v) = Some l) as Hlv
    by (unfold keystore_lockfile in Hv; unfold method_path; by destruct (signing_method v)).
  assert (voting_public_key e = voting_public_key def) as E.
  { eapply (rd_paths _ _ _ _ _ Hready); eauto. congruence. }
  rewrite <- Hpk, E in Hin. congruence.
Qed.

Lemma cached_keypair_loads pre (u : updating) def password :
  progress pre u -> def ∈ defs ->
  let m := mat (voting_public_key def) in
  exists c, cached_keypair (share_keystore (mat_share m)) (Ok (password, mat_keypair m)) u =
      (Ok (mat_keypair m), set_cache c u) /\
    forall uu kp, KeyCache.pairs c !! uu = Some kp ->
      KeyCache.pairs (key_cache u) !! uu = Some kp \/
      uu = uuid_of (voting_public_key def) /\ kp = mat_keypair m.
Proof.
  intros Hp Hdef m. unfold cached_keypair, mbind, prog_bind, gets, KeyCache.get.
  destruct (KeyCache.pairs (key_cache u) !! _) as [kp|] eqn:E.
  - exists (key_cache u). split; [|by left].
    destruct (pg_cache _ _ Hp _ _ E) as (e & He & Hu & ->).
    apply (rd_uuids _ _ _ _ _ Hready) in Hu as <-; [|done|done]. by destruct u.
  - cbn. eexists. split; [reflexivity|]. intros uu kp Hk. unfold KeyCache.add in Hk.
    destruct (KeyCache.state (key_cache u)); [by left| |]; cbn [KeyCache.pairs] in Hk;
      apply lookup_insert_Some in Hk as [[<- <-]|[_ Hk]]; auto.
Qed.

Lemma from_definition_loads pre (u : updating) def :
  progress pre u -> def ∈ defs -> voting_public_key def ∉ map voting_public_key pre -> pre ⊆ defs ->
  enabled def = true -> running u !! compress (voting_public_key def) = None ->
  exists u', from_definition io d node opened def u = (Ok (started_validator def), u') /\
    progress (def :: pre) u' /\ running u' = running u /\
    node_handlers u' = add_handlers (def_validator_id (mat_committee (mat (voting_public_key def))))
                         (node_handlers u).
Proof.
  intros Hp Hdef Hnew Hpre En Hnone.
  pose proof (rd_loads _ _ _ _ _ Hready def Hdef) as Hload. unfold loads in Hload.
  unfold from_definition. rewrite En. cbn [negb]. unfold signing_method_of.
  unfold started_validator.
  destruct (signing_definition def) as [| |p pp pw [q|] ci oi] eqn:Ed; try done.
  set (m := mat (voting_public_key def)) in *.
  destruct Hload as (Hshare & (password & Hunlock) & Hcom & Hpk & Hsig & [l Hl]).
  assert (definition_path def = Some p) as Hdp by (unfold definition_path; by rewrite Ed).
  assert (key_stores u !! p = None) as Hst.
  { destruct (key_stores u !! p) as [k|] eqn:Ek; [|done]. exfalso.
    destruct (pg_stores _ _ Hp _ _ Ek) as (e & He & Hpe). apply Hnew.
    rewrite <- (rd_paths _ _ _ _ _ Hready e def p p); auto. by apply list_elem_of_fmap_2. }
  set (u1 := set_key_stores (<[p := share_keystore (mat_share m)]> (key_stores u)) u).
  assert (progress (def :: pre) u1) as Hp1.
  { destruct Hp as [Hc Hs Hd Hr]. split; cbn; [done| |done|done].
    intros p' k [[<- _]|[_ Hk]]%lookup_insert_Some; [exists def; split; [apply list_elem_of_here|done]|].
    destruct (Hs _ _ Hk) as (e & He & Hpe). exists e. split; [by apply list_elem_of_further|done]. }
  destruct (cached_keypair_loads (def :: pre) u1 def password Hp1 Hdef) as (c & Hkp & Hc).
  fold m in Hkp. eexists. split.
  { erewrite run_bind; [reflexivity|].
    erewrite run_bind; [|unfold lift, open_keystore_share; rewrite Hshare; reflexivity].
    erewrite run_bind.
    2:{ unfold keystore_entry, entry. erewrite (run_bind (S := gmap Path Keystore)); [|reflexivity].
        rewrite Hst. reflexivity. }
    fold u1. erewrite run_bind; [|rewrite Hunlock; exact Hkp].
    erewrite run_bind.
    2:{ unfold lock. rewrite Hl. erewrite run_bind; [|reflexivity].
        rewrite (rd_lock _ _ _ _ _ Hready l).
        change (running (set_cache c u1)) with (running u).
        rewrite (lock_free pre u def p l Hp Hdef Hdp Hl Hnone). reflexivity. }
    erewrite run_bind; [|reflexivity].
    erewrite run_bind; [|unfold lift, committee_from_file; rewrite Hcom; reflexivity].
    erewrite run_bind; [|unfold lift; rewrite Hsig; reflexivity].
    erewrite run_bind; [|reflexivity]. rewrite Hpk, Hdp. reflexivity. }
  split; [|done]. destruct Hp1 as [Hc1 Hs1 Hd1 Hr1]. split; cbn; [|done|done|done].
  intros uu kp Hk. destruct (Hc uu kp Hk) as [Hk'|[-> ->]]; eauto.
Qed.

Lemma known_uuid_none pre (u : updating) def p :
  progress pre u -> pre ⊆ defs -> def ∈ defs -> voting_public_key def ∉ map voting_public_key pre ->
  definition_path def = Some p -> known_uuid p u = ∅.
Proof.
  intros Hp Hpre Hdef Hnew Hdp. unfold known_uuid. destruct (key_stores u !! p) as [k|] eqn:Ek; [|done].
  destruct (pg_stores _ _ Hp _ _ Ek) as (e & He & Hpe). exfalso. apply Hnew.
  rewrite <- (rd_paths _ _ _ _ _ Hready e def p p); auto. by apply list_elem_of_fmap_2.
Qed.

Lemma progress_disabled pre (u : updating) (X : gset Uuid) :
  X = ∅ -> progress pre u -> progress pre (set_disabled X u).
Proof. intros -> [Hc Hs Hd Hr]. by split. Qed.

Lemma progress_further pre (u : updating) def : progress pre u -> progress (def :: pre) u.
Proof.
  intros [Hc Hs Hd Hr]. split; auto. intros p k Hk. destruct (Hs p k Hk) as (e & He & ?).
  exists e. split; [by apply list_elem_of_further|done].
Qed.

Lemma update_definition_loads pre (u : updating) def :
  progress pre u -> pre ⊆ defs -> def ∈ defs -> voting_public_key def ∉ map voting_public_key pre ->
  exists u', update_definition io d node opened def u = (Ok (), u') /\
    progress (def :: pre) u' /\
    (running u', node_handlers u') = settle (running u, node_handlers u) def.
Proof.
  intros Hp Hpre Hdef Hnew.
  pose proof (rd_loads _ _ _ _ _ Hready def Hdef) as Hload. unfold loads in Hload.
  unfold update_definition, settle. cbn [fst snd].
  destruct (signing_definition def) as [| |p pp pw [q|] ci oi] eqn:Ed; try done. clear Hload.
  assert (definition_path def = Some p) as Hdp by (unfold definition_path; by rewrite Ed).
  pose proof (known_uuid_none pre u def p Hp Hpre Hdef Hnew Hdp) as Hku.
  destruct (enabled def) eqn:En.
  - erewrite run_bind; [|reflexivity]. cbv beta.
    destruct (running u !! _) as [v|] eqn:Er.
    { exists u. split; [done|]. split; [by apply progress_further|done]. }
    erewrite run_bind; [|reflexivity]. cbv beta. rewrite Hku, (pg_disabled _ _ Hp).
    set (u1 := set_disabled (∅ ∖ ∅) u).
    assert (progress pre u1) as Hp1 by (apply progress_disabled; [set_solver|done]).
    destruct (from_definition_loads pre u1 def Hp1 Hdef Hnew Hpre En Er) as (u2 & E2 & Hp2 & Hr2 & Hh2).
    unfold tolerate, initialize. erewrite run_bind; [|exact E2].
    eexists. split; [reflexivity|]. cbn. rewrite Hr2, Hh2. split; [|done].
    destruct Hp2 as [Hc Hs Hd Hr]. split; cbn; [done|done|done|].
    intros k v [[<- <-]|[_ Hv]]%lookup_insert_Some.
    + split; [done|]. exists def. split; [done|]. split; [done|]. cbn. by rewrite Hdp.
    + by apply (pg_running _ _ Hp1).
  - erewrite run_bind; [|reflexivity]. eexists. split; [reflexivity|]. cbn.
    split; [|done]. destruct (progress_further pre u def Hp) as [Hc Hs Hd Hr]. split; cbn; [done|done| |].
    + unfold known_uuid in Hku |- *. cbn. rewrite Hku, Hd. set_solver.
    + intros k v [_ Hv]%lookup_delete_Some. auto.
Qed.

Lemma update_definitions_loads rest pre (u : updating) :
  progress pre u -> pre ⊆ defs -> rest ⊆ defs -> NoDup (map voting_public_key (pre ++ rest)) ->
  exists u', update_definitions io d node opened rest u = (Ok (), u') /\ disabled_uuids u' = ∅ /\
    (running u', node_handlers u') = foldl settle (running u, node_handlers u) rest.
Proof.
  revert pre u. induction rest as [|def rest IH]; intros pre u Hp Hpre Hrest Hnd.
  - exists u. split; [done|]. split; [apply (pg_disabled _ _ Hp)|done].
  - assert (def ∈ defs) as Hdef by (apply Hrest, list_elem_of_here).
    assert (voting_public_key def ∉ map voting_public_key pre) as Hnew.
    { rewrite map_app in Hnd. apply NoDup_app in Hnd as (_ & Hd & _). intros Hin.
      apply (Hd _ Hin). apply list_elem_of_here. }
    destruct (update_definition_loads pre u def Hp Hpre Hdef Hnew) as (u1 & E1 & Hp1 & Hs1).
    destruct (IH (def :: pre) u1) as (u2 & E2 & Hd2 & Hs2).
    + done.
    + intros e [->|He]%elem_of_cons; auto.
    + intros e He. by apply Hrest, list_elem_of_further.
    + assert (map voting_public_key ((def :: pre) ++ rest) ≡ₚ
        map voting_public_key (pre ++ def :: rest)) as Hperm
        by apply Permutation_map, Permutation_middle.
      by rewrite Hperm.
    + exists u2. cbn [update_definitions foldl]. erewrite run_bind; [|exact E1].
      rewrite E2, Hs2, Hs1. done.
Qed.
End loop.

(** ** [update_validators] *)

Definition cache_path w : Path := join (validators_dir (iv w)) CACHE_FILENAME.

Definition cache_readable w : Prop :=
  forall f, disk w !! cache_path w = Some f -> exists c, f = CacheFile (Some c).

Lemma definitions_map_distributed io opened d node defs (l : list ValidatorDefinition) acc st :
  ready io opened d node defs -> l ⊆ defs -> definitions_map d l acc st = (Ok acc, st).
Proof.
  intros Hr. induction l as [|def l IH]; intros Hl; [done|].
  pose proof (rd_loads _ _ _ _ _ Hr def (Hl _ (list_elem_of_here _ _))) as Hload. unfold loads in Hload.
  assert (l ⊆ defs) as Hl' by (intros e He; by apply Hl, list_elem_of_further).
  cbn. destruct (signing_definition def); [done|done|]. destruct (enabled def); by apply IH.
Qed.

Lemma decrypt_key_cache_distributed io opened d node defs cache :
  ready io opened d node defs -> KeyCache.pairs cache = ∅ ->
  exists c, decrypt_key_cache io d defs cache ∅ = (Ok c, ∅) /\ KeyCache.pairs c = ∅.
Proof.
  intros Hr Hc. unfold decrypt_key_cache.
  erewrite run_bind; [|by eapply definitions_map_distributed]. cbv beta.
  destruct (KeyCache.uuids cache) as [|u us] eqn:Eu.
  - cbn [existsb]. erewrite run_bind; [|reflexivity]. cbn [fst snd]. eexists. split; [reflexivity|].
    unfold KeyCache.decrypt. rewrite Eu.
    destruct (KeyCache.state cache); [|done|done].
    destruct (kc_decrypt _ _ _ _) as [|text]; [done|].
    destruct (de_key_map text); done.
  - cbn [existsb]. rewrite lookup_empty, bool_decide_eq_true_2 by done. cbn [orb].
    eexists. split; [reflexivity|done].
Qed.

Lemma open_cache_readable io w :
  cache_readable w -> exists c, open_cache io (disk w) (cache_path w) = Ok c /\ KeyCache.pairs c = ∅.
Proof.
  intros Hc. unfold open_cache. destruct (disk w !! cache_path w) as [f|] eqn:E; [|by eexists].
  destruct (Hc f E) as [[cr us] ->]. by eexists.
Qed.

Lemma update_validators_loads io opened w :
  ready io opened (disk w) (iv_node (iv w)) (definitions (iv w)) -> cache_readable w ->
  (forall k v, validators (iv w) !! k = Some v ->
     k = compress (public_key_of v) /\
     exists e, e ∈ definitions (iv w) /\ voting_public_key e = public_key_of v /\
       definition_path e = Some (method_path v)) ->
  exists d, let x := foldl settle (validators (iv w), handlers w) (definitions (iv w)) in
    update_validators io opened w = (Ok (), set_disk d (set_handlers x.2 (set_validators x.1 w))) /\
    (forall p, p <> cache_path w -> d !! p = disk w !! p) /\
    (forall f, d !! cache_path w = Some f -> exists c, f = CacheFile (Some c)).
Proof.
  intros Hr Hc Hrun.
  destruct (open_cache_readable io w Hc) as (c0 & Hopen & Hp0).
  destruct (decrypt_key_cache_distributed io opened _ _ _ c0 Hr Hp0) as (c1 & Hdec & Hp1).
  set (u0 := mkUpdating c1 ∅ (validators (iv w)) ∅ (handlers w)).
  assert (progress (definitions (iv w)) [] u0) as Hpg.
  { split; cbn; [by rewrite Hp1|done|done|done]. }
  destruct (update_definitions_loads io opened (disk w) (iv_node (iv w)) (definitions (iv w)) Hr
    (definitions (iv w)) [] u0 Hpg) as (u & Eu & Hdis & Hset).
  { intros x Hx. by apply not_elem_of_nil in Hx. }
  { done. }
  { apply (rd_keys _ _ _ _ _ Hr). }
  exists (save_cache io (cache_path w) (key_cache u) (disk w)). cbv zeta. split; [|split].
  - unfold update_validators. erewrite run_bind; [|reflexivity]. cbv beta zeta.
    fold (cache_path w).
    assert (exists l, get_lockfile_path (cache_path w) = Some l) as [l Hl].
    { unfold get_lockfile_path, file_name, cache_path, join. rewrite last_snoc. cbn. by eexists. }
    rewrite Hl, (rd_lock _ _ _ _ _ Hr). cbn [negb].
    erewrite run_bind; [|unfold lift; rewrite Hopen; reflexivity]. cbv beta. rewrite Hdec.
    erewrite run_bind; [|reflexivity]. cbv beta.
    erewrite run_bind; [|unfold run_update; fold u0; rewrite Eu; reflexivity]. cbv beta.
    rewrite Hdis, elements_empty. cbn [remove_uuids].
    erewrite run_bind; [|reflexivity]. cbv beta.
    cbn in Hset. rewrite <- Hset. reflexivity.
  - intros p Hp. unfold save_cache. destruct (KeyCache.save _ _ _) as [[? ?] [f|]]; [|done].
    unfold Disk. by rewrite lookup_insert_ne.
  - intros f. unfold save_cache. 
    destruct (KeyCache.save _ _ _) as [[c r] [g|]] eqn:Es; [|apply Hc].
    unfold Disk. rewrite lookup_insert_eq. intros [= <-].
    unfold KeyCache.save in Es. destruct (KeyCache.is_modified _); [|done].
    destruct (KeyCache.encrypt _ _) as [c' [e|]]; [done|]. destruct (_ && _); [|done].
    injection Es as _ _ <-. eauto.
Qed.

(** ** What runs afterwards *)

Definition validator_id_of def : Z := def_validator_id (mat_committee (mat (voting_public_key def))).

Lemma settle_other x def k :
  k <> compress (voting_public_key def) -> (settle x def).1 !! k = x.1 !! k.
Proof.
  intros Hk. unfold settle. destruct (enabled def); [destruct (x.1 !! _)|]; cbn; [done| |].
  - by rewrite lookup_insert_ne.
  - by rewrite lookup_delete_ne.
Qed.

Lemma settle_self x def :
  (settle x def).1 !! compress (voting_public_key def) =
  if enabled def then Some (default (started_validator def) (x.1 !! compress (voting_public_key def)))
  else None.
Proof.
  unfold settle. destruct (enabled def); [|apply lookup_delete_eq].
  destruct (x.1 !! _) eqn:E; cbn; [done|]. apply lookup_insert_eq.
Qed.

Lemma settle_all_other l x k :
  (forall def, def ∈ l -> k <> compress (voting_public_key def)) -> (foldl settle x l).1 !! k = x.1 !! k.
Proof.
  revert x. induction l as [|def l IH]; intros x Hk; [done|]. cbn. rewrite IH.
  - apply settle_other, Hk, list_elem_of_here.
  - intros e He. by apply Hk, list_elem_of_further.
Qed.

Lemma settle_all l x def :
  NoDup (map voting_public_key l) -> def ∈ l ->
  (foldl settle x l).1 !! compress (voting_public_key def) =
  if enabled def then Some (default (started_validator def) (x.1 !! compress (voting_public_key def)))
  else None.
Proof.
  revert x. induction l as [|e l IH]; intros x; [by intros _ ?%not_elem_of_nil|].
  cbn. intros [Hn Hnd]%NoDup_cons [->|Hin]%elem_of_cons.
  - rewrite settle_all_other; [apply settle_self|].
    intros e' He' E%compress_inj. apply Hn. rewrite E. by apply list_elem_of_fmap_2.
  - rewrite IH by done. rewrite settle_other; [done|].
    intros E%compress_inj. apply Hn. rewrite <- E. by apply list_elem_of_fmap_2.
Qed.

(** The four maps of the node have the same validators. *)
Definition handlers_are (h : Handlers) (X : gset Z) : Prop :=
  tx_handlers h = X /\ mempool_handlers h = X /\ consensus_handlers h = X /\ signature_handlers h = X.

(** The validators of the definitions that are enabled but do not run. *)
Definition to_start (m : gmap PublicKeyBytes InitializedValidator) (l : list ValidatorDefinition)
  : list ValidatorDefinition :=
  filter (fun def => enabled def = true /\ m !! compress (voting_public_key def) = None) l.

Lemma settle_handlers l x X :
  NoDup (map voting_public_key l) -> handlers_are x.2 X ->
  handlers_are (foldl settle x l).2 (list_to_set (map validator_id_of (to_start x.1 l)) ∪ X).
Proof.
  revert x X. induction l as [|def l IH]; intros x X Hnd Hh.
  { cbn. by rewrite (left_id_L ∅ (∪)). }
  cbn in Hnd. apply NoDup_cons in Hnd as [Hn Hnd]. cbn [foldl].
  assert (to_start (settle x def).1 l = to_start x.1 l) as Ets.
  { apply list_filter_iff_on. intros e He.
    rewrite settle_other; [done|]. intros E%compress_inj. apply Hn. rewrite <- E.
    by apply list_elem_of_fmap_2. }
  unfold to_start at 1. rewrite filter_cons. fold (to_start x.1 l).
  destruct (decide (enabled def = true /\ x.1 !! compress (voting_public_key def) = None)) as [[En Hx]|Hno].
  - specialize (IH (settle x def) ({[validator_id_of def]} ∪ X) Hnd). rewrite Ets in IH.
    assert (handlers_are (settle x def).2 ({[validator_id_of def]} ∪ X)) as Hh'.
    { unfold settle. rewrite En, Hx. destruct Hh as (<- & H2' & H3' & H4'). unfold handlers_are. cbn.
      rewrite H2', H3', H4'. by repeat split. }
    apply IH in Hh'. cbn [map list_to_set foldr].
    replace ({[validator_id_of def]} ∪ list_to_set (map validator_id_of (to_start x.1 l)) ∪ X)
      with (list_to_set (map validator_id_of (to_start x.1 l)) ∪ ({[validator_id_of def]} ∪ X));
      [done|set_solver].
  - assert ((settle x def).2 = x.2) as E2.
    { unfold settle. destruct (enabled def); [|done]. destruct (x.1 !! _) eqn:E; [done|]. by destruct Hno. }
    specialize (IH (settle x def) X Hnd). rewrite Ets, E2 in IH. by apply IH.
Qed.

Definition enabled_ids (l : list ValidatorDefinition) : gset Z :=
  list_to_set (map validator_id_of (filter (fun def => enabled def = true) l)).

Lemma elem_of_enabled_ids l i :
  i ∈ enabled_ids l <-> exists def, def ∈ l /\ enabled def = true /\ i = validator_id_of def.
Proof.
  unfold enabled_ids. rewrite elem_of_list_to_set, list_elem_of_fmap. split.
  - intros (def & -> & [En Hin]%list_elem_of_filter). eauto.
  - intros (def & Hin & En & ->). exists def. split; [done|]. by apply list_elem_of_filter.
Qed.

(** The validators that run are those with an enabled definition, and the node has
    the handlers of exactly these. *)
Record synced w : Prop := {
  sy_ok : iv_ok w;
  sy_all def : def ∈ definitions (iv w) -> enabled def = true ->
    is_Some (validators (iv w) !! compress (voting_public_key def));
  sy_handlers : handlers_are (handlers w) (enabled_ids (definitions (iv w)))
}.

(** The file of the definitions can be written. *)
Definition config_writable (io : Io) w : Prop :=
  is_directory (disk w) (validators_dir (iv w)) = true /\
  io_writable io (join (validators_dir (iv w)) CONFIG_FILENAME) = true.

Lemma save_definitions_writable io w :
  config_writable io w ->
  save_definitions io w =
    (Ok (), set_disk (<[join (validators_dir (iv w)) CONFIG_FILENAME :=
                        DefinitionsFile (definitions (iv w))]> (disk w)) w).
Proof.
  intros [Hd Hw]. unfold save_definitions. erewrite run_bind; [|reflexivity]. cbv beta.
  unfold replace_file, join. rewrite removelast_last. fold (join (validators_dir (iv w)) CONFIG_FILENAME).
  by rewrite Hd, Hw.
Qed.

Lemma ready_update_first io opened d node l pk f :
  keeps_key f -> ready io opened d node l -> ready io opened d node (update_first pk f l).
Proof.
  intros Hf [Hk Hl Hlock Hp Hu].
  assert (forall e, e ∈ update_first pk f l -> exists e0, e0 ∈ l /\
    voting_public_key e = voting_public_key e0 /\ signing_definition e = signing_definition e0) as Hin.
  { intros e (e0 & He0 & ->)%elem_of_update_first; [|done]. exists e0. split; [done|].
    destruct (bool_decide _); [apply Hf|done]. }
  split.
  - by rewrite update_first_keys.
  - intros e (e0 & He0 & Epk & Esd)%Hin. pose proof (Hl e0 He0) as Hload.
    unfold loads in *. by rewrite Epk, Esd.
  - done.
  - intros e1 e2 p q (e1' & He1 & Epk1 & Esd1)%Hin (e2' & He2 & Epk2 & Esd2)%Hin.
    unfold definition_path. rewrite Esd1, Esd2, Epk1, Epk2. by apply Hp.
  - intros e1 e2 (e1' & He1 & Epk1 & _)%Hin (e2' & He2 & Epk2 & _)%Hin. rewrite Epk1, Epk2. by apply Hu.
Qed.

(** ** Enabling *)

Lemma alter_same {A} (f : A -> A) k (m : gmap Z A) : (forall x, f x = x) -> alter f k m = m.
Proof. intros Hf. apply map_eq. intros j. destruct (decide (k = j)) as [->|Hne].
  - rewrite lookup_alter_eq. destruct (m !! j); cbn; by rewrite ?Hf.
  - by rewrite lookup_alter_ne.
Qed.

Lemma enabled_ids_start w l :
  iv_ok w -> (forall def, def ∈ definitions (iv w) -> enabled def = true ->
     exists e, e ∈ l /\ enabled e = true /\ voting_public_key e = voting_public_key def) ->
  list_to_set (map validator_id_of (to_start (validators (iv w)) l)) ∪ enabled_ids (definitions (iv w)) =
  enabled_ids l.
Proof.
  intros Hok Hkept. apply set_eq. intros i.
  rewrite elem_of_union, elem_of_list_to_set, list_elem_of_fmap, !elem_of_enabled_ids. split.
  - intros [(def & -> & [[En _] Hin]%list_elem_of_filter)|(def & Hin & En & ->)]; [eauto|].
    destruct (Hkept def Hin En) as (e & He & Ee & Epk). exists e. split_and!; [done|done|].
    unfold validator_id_of. by rewrite Epk.
  - intros (e & He & En & ->). destruct (validators (iv w) !! compress (voting_public_key e)) as [v|] eqn:Ev.
    + right. destruct (ok_running _ Hok _ _ Ev) as (Ek & def & Hin & Ed & Hd).
      exists def. split_and!; [done|done|]. apply compress_inj in Ek.
      unfold validator_id_of. by rewrite (desc_key _ _ Hd), Ek.
    + left. exists e. split; [done|]. apply list_elem_of_filter. done.
Qed.

Definition config_path w : Path := join (validators_dir (iv w)) CONFIG_FILENAME.

(** What an update with the definitions [D] leaves of the world [w]. *)
Record follows (D : list ValidatorDefinition) w w' : Prop := {
  fo_definitions : definitions (iv w') = D;
  fo_dir : validators_dir (iv w') = validators_dir (iv w);
  fo_node : iv_node (iv w') = iv_node (iv w);
  fo_running def : def ∈ D ->
    validators (iv w') !! compress (voting_public_key def) =
    if enabled def
    then Some (default (started_validator def) (validators (iv w) !! compress (voting_public_key def)))
    else None;
  fo_handlers : handlers_are (handlers w') (enabled_ids D);
  fo_disk p : p <> cache_path w -> p <> config_path w -> disk w' !! p = disk w !! p;
  fo_cache : cache_readable w'
}.

Lemma join_ne (p : Path) a b : a <> b -> join p a <> join p b.
Proof. unfold join. intros Hab E. apply app_inj_tail in E as [_ E]. done. Qed.

Lemma join_self (p : Path) a : p <> join p a.
Proof. unfold join. intros E. apply (f_equal length) in E. rewrite length_app in E. cbn in E. lia. Qed.

Lemma update_and_save io opened w D pk g :
  synced w -> ready io opened (disk w) (iv_node (iv w)) D -> cache_readable w -> config_writable io w ->
  (forall def, def ∈ definitions (iv w) -> enabled def = true ->
     exists e, e ∈ D /\ enabled e = true /\ voting_public_key e = voting_public_key def /\
       definition_path e = definition_path def) ->
  (forall v, g v = v) ->
  exists w', (update_validators io opened;; update_running pk g;; save_definitions io)
      (set_definitions D w) = (Ok (), w') /\
    (update_validators io opened;; save_definitions io) (set_definitions D w) = (Ok (), w') /\
    follows D w w'.
Proof.
  intros Hsy Hr Hc Hcw Hkept Hg. pose proof (sy_ok _ Hsy) as Hok.
  destruct (update_validators_loads io opened (set_definitions D w)) as (d & Eu & Hd & Hdc).
  { done. }
  { done. }
  { intros k v Hv. destruct (ok_running _ Hok k v Hv) as (-> & def & Hin & En & Hdesc). split; [done|].
    destruct (Hkept def Hin En) as (e & He & _ & Epk & Epath). exists e. split; [done|].
    split; [by rewrite Epk, (desc_key _ _ Hdesc)|by rewrite Epath, (desc_path _ _ Hdesc)]. }
  cbv zeta in Eu. set (x := foldl settle _ _) in Eu.
  set (w1 := set_disk d _) in Eu.
  assert (config_writable io w1) as Hcw1.
  { destruct Hcw as [H1' H2']. split; [|done]. unfold is_directory in *. cbn. rewrite Hd; [done|].
    apply join_self. }
  eexists. split.
  - erewrite run_bind; [|exact Eu]. erewrite run_bind; [|reflexivity]. cbv beta.
    rewrite alter_same by done. change (set_validators (validators (iv w1)) w1) with w1.
    by apply save_definitions_writable.
  - split; [erewrite run_bind; [|exact Eu]; by apply save_definitions_writable|].
    assert (forall p, p <> cache_path w -> p <> config_path w ->
      <[config_path w := DefinitionsFile D]> d !! p = disk w !! p) as Hdisk.
    { intros p Hp1 Hp2. unfold Disk. rewrite lookup_insert_ne by done. by apply Hd. }
    split; cbn; [done|done|done| | |exact Hdisk|].
    + intros def Hin. unfold x. by rewrite settle_all by (done || apply (rd_keys _ _ _ _ _ Hr)).
    + unfold x. rewrite <- (enabled_ids_start w D Hok).
      * apply settle_handlers; [apply (rd_keys _ _ _ _ _ Hr)|apply (sy_handlers _ Hsy)].
      * intros def Hin En. destruct (Hkept def Hin En) as (e & ? & ? & ? & _). eauto.
    + unfold cache_readable. cbn. intros f. unfold Disk.
      rewrite lookup_insert_ne by (by apply join_ne). apply Hdc.
Qed.

Lemma follows_synced D w w' :
  iv_ok w' -> follows D w w' -> synced w'.
Proof.
  intros Hok Hf. split; [done| |].
  - rewrite (fo_definitions _ _ _ Hf). intros def Hin En. rewrite (fo_running _ _ _ Hf def Hin), En. by eexists.
  - rewrite (fo_definitions _ _ _ Hf). apply (fo_handlers _ _ _ Hf).
Qed.

Lemma set_enabled_path b def : definition_path (set_enabled b def) = definition_path def.
Proof. done. Qed.

Lemma enable_keystore_follows io opened pk w :
  synced w -> ready io opened (disk w) (iv_node (iv w)) (definitions (iv w)) ->
  cache_readable w -> config_writable io w ->
  exists w', enable_keystore io opened pk w = (Ok (), w') /\
    follows (update_first pk (set_enabled true) (definitions (iv w))) w w' /\ synced w'.
Proof.
  intros Hsy Hr Hc Hcw. set (D := update_first pk (set_enabled true) (definitions (iv w))).
  destruct (update_and_save io opened w D pk (fun v =>
    mkInitialized (signing_method v) (iv_graffiti v) (iv_suggested_fee_recipient v)
      (given None (iv_gas_limit v)) (given None (iv_builder_proposals v)) (iv_index v)))
    as (w' & E & _ & Hf).
  - done.
  - apply ready_update_first; [apply keeps_key_enabled|done].
  - done.
  - done.
  - intros def Hin En.
    exists (if bool_decide (voting_public_key def = pk) then set_enabled true def else def). split_and!.
    + apply elem_of_update_first; [apply (rd_keys _ _ _ _ _ Hr)|]. eauto.
    + by destruct (bool_decide _).
    + by destruct (bool_decide _).
    + by destruct (bool_decide _).
  - by intros [].
  - assert (enable_keystore io opened pk w = (Ok (), w')) as Een.
    { unfold enable_keystore, set_validator_definition_fields. erewrite run_bind; [|reflexivity]. cbv beta.
      rewrite <- E. reflexivity. }
    exists w'. split; [done|]. split; [done|]. eapply follows_synced; [|done].
    pose proof (fields_keeps io opened pk (Some true) None None w (sy_ok _ Hsy)) as Hk.
    unfold keeps, wp in Hk. unfold enable_keystore in Een. rewrite Een in Hk. by apply (proj2 Hk ()).
Qed.

(** ** Disabling and deleting *)

Lemma find_definition_Some pk l def :
  find_definition pk l = Some def -> def ∈ l /\ voting_public_key def = pk.
Proof.
  unfold find_definition. destruct (list_find _ l) as [[i e]|] eqn:E; [|done]. intros [= <-].
  apply list_find_Some in E as (Hi & Hpk & _). split; [|done]. by eapply list_elem_of_lookup_2.
Qed.

Lemma find_definition_None pk l def :
  find_definition pk l = None -> def ∈ l -> voting_public_key def <> pk.
Proof.
  unfold find_definition. destruct (list_find _ l) as [[i e]|] eqn:E; [done|]. intros _ Hin.
  apply list_find_None in E. rewrite Forall_forall in E. by apply E.
Qed.

Lemma update_first_none pk f l :
  (forall def, def ∈ l -> voting_public_key def <> pk) -> update_first pk f l = l.
Proof.
  induction l as [|def l IH]; intros Hl; [done|]. cbn.
  rewrite bool_decide_eq_false_2 by (apply Hl, list_elem_of_here). f_equal. apply IH.
  intros e He. by apply Hl, list_elem_of_further.
Qed.

(** After a stop or a removal the validator of the key does not run, and no other
    definition or validator has changed. *)
Record stopped (pk : p1) w w' : Prop := {
  st_ok : iv_ok w';
  st_handlers : handlers w' = handlers w;
  st_validators : validators (iv w') = delete (compress pk) (validators (iv w));
  st_dir : validators_dir (iv w') = validators_dir (iv w);
  st_node : iv_node (iv w') = iv_node (iv w);
  st_definitions :
    definitions (iv w') = update_first pk (set_enabled false) (definitions (iv w)) \/
    definitions (iv w') =
      filter (fun def => voting_public_key def <> pk)
        (update_first pk (set_enabled false) (definitions (iv w)))
}.

Lemma disable_definition_run io pk w :
  iv_ok w -> config_writable io w ->
  (forall def, def ∈ definitions (iv w) -> is_distributed_keystore (signing_definition def) = true) ->
  (find_definition pk (definitions (iv w)) = None /\
     disable_definition io pk w = (Ok NotFound, w) /\ stopped pk w w) \/
  exists d, no_new_committees (disk w) d /\
    disable_definition io pk w =
      (Ok Deleted, set_disk d (set_definitions (update_first pk (set_enabled false) (definitions (iv w))) w)).
Proof.
  intros Hok Hcw Hdist. unfold disable_definition.
  destruct (find_definition pk (definitions (iv w))) as [def|] eqn:E.
  - right. pose proof (find_definition_Some _ _ _ E) as [Hin Hpk].
    eexists. split; [|erewrite run_bind; [|reflexivity]; cbv beta; rewrite E; cbv beta iota;
      rewrite (Hdist def Hin), orb_true_r; erewrite run_bind; [|reflexivity]; cbv beta;
      erewrite run_bind; [|apply save_definitions_writable; exact Hcw]; reflexivity].
    by apply no_new_insert.
  - left. split; [done|]. split; [erewrite run_bind; [|reflexivity]; cbv beta; by rewrite E|].
    assert (update_first pk (set_enabled false) (definitions (iv w)) = definitions (iv w)) as Eu.
    { apply update_first_none. intros def. by apply find_definition_None. }
    split; try done; [|left; by rewrite Eu].
    symmetry. apply delete_id. destruct (validators (iv w) !! compress pk) as [v|] eqn:Ev; [|done].
    destruct (ok_running _ Hok _ _ Ev) as (Ek%compress_inj & def & Hin & _ & Hd). exfalso.
    apply (find_definition_None pk _ def E Hin). by rewrite (desc_key _ _ Hd).
Qed.

Lemma disable_keystore_stops io pk w :
  iv_ok w -> config_writable io w ->
  (forall def, def ∈ definitions (iv w) -> is_distributed_keystore (signing_definition def) = true) ->
  exists s w', disable_keystore io pk w = (Ok s, w') /\ stopped pk w w'.
Proof.
  intros Hok Hcw Hdist. unfold disable_keystore.
  destruct (disable_definition_run io pk w Hok Hcw Hdist) as [(_ & E & Hst)|(d & Hd & E)].
  - eexists _, w. split; [erewrite run_bind; [|exact E]; reflexivity|done].
  - do 2 eexists. split.
    { erewrite run_bind; [|exact E]. cbv beta iota. erewrite run_bind; [|reflexivity]. reflexivity. }
    split; try done; [|by left]. by apply (disabled_ok w pk d).
Qed.

Lemma delete_stops io pk w :
  iv_ok w -> config_writable io w ->
  (forall def, def ∈ definitions (iv w) -> is_distributed_keystore (signing_definition def) = true) ->
  wp (delete_definition_and_keystore io pk) (fun r w' => stopped pk w w' /\ quiet r) w.
Proof.
  intros Hok Hcw Hdist. apply wp_bind.
  destruct (disable_definition_run io pk w Hok Hcw Hdist) as [(_ & E & Hst)|(d & Hd & E)];
    unfold wp at 1; rewrite E; cbn [fst snd bind_post].
  { apply wp_ret. split; [done|left; eauto]. }
  apply wp_bind, wp_gets. cbn [bind_post]. apply wp_bind, wp_modify. cbn [bind_post]. apply wp_bind.
  set (D := update_first pk (set_enabled false) (definitions (iv w))).
  set (w1 := fun d => set_disk d (set_validators (delete (compress pk) (validators (iv w))) (set_definitions D w))).
  assert (forall d', no_new_committees d d' -> stopped pk w (w1 d')) as Hst.
  { intros d' Hd'. split; try done; [|by left]. apply disabled_ok; [done|]. by eapply no_new_trans. }
  assert (forall r' d', quiet r' -> no_new_committees d d' ->
    bind_post (fun _ : () => modify (fun w => set_definitions
        (filter (fun def => voting_public_key def <> pk) (definitions (iv w))) w);;
      save_definitions io;; mret Deleted) (fun r w' => stopped pk w w' /\ quiet r) r' (w1 d')) as Hrest.
  { intros r' d' Hq Hd'. destruct Hq as [[[] ->]|[e ->]]; cbn [bind_post]; [|split; [auto|right; eauto]].
    apply wp_bind, wp_modify. cbn [bind_post]. apply wp_bind, wp_save_definitions. intros r2 d2 Hq2 Hd2.
    assert (stopped pk w (set_disk d2 (set_definitions
      (filter (fun def => voting_public_key def <> pk) D) (w1 d')))) as Hst2.
    { destruct (Hst d' Hd') as [Hok1 _ _ _ _ _]. split; try done; [|by right].
      apply iv_ok_disk; [done|]. destruct Hok1 as [Hk Hr Hf]. split; cbn.
      - eapply sublist_NoDup; [exact Hk|]. apply fmap_sublist, sublist_filter.
      - intros k v Hv. destruct (Hr k v Hv) as (-> & e & Hin & En & Hdesc). split; [done|].
        exists e. split; [|done]. apply list_elem_of_filter. split; [|done].
        apply lookup_delete_Some in Hv as [Hne _]. intros <-. apply Hne. by rewrite (desc_key _ _ Hdesc).
      - intros e [_ He]%list_elem_of_filter. by apply Hf. }
    destruct Hq2 as [[[] ->]|[e ->]]; cbn [bind_post]; [apply wp_ret; split; [done|left; eauto]|].
    split; [done|right; eauto]. }
  cbn. destruct (validators (iv w) !! compress pk) as [v|].
  - apply wp_delete_files. intros r' d' Hq Hd'. by apply (Hrest r' d').
  - apply wp_ret. apply (Hrest (Ok ()) d); [left; eauto|apply no_new_refl].
Qed.

Definition id_of (pk : p1) : Z := def_validator_id (mat_committee (mat pk)).

(** A validator that is stopped after its handlers were removed. *)
Lemma stopped_synced pk w w' :
  (forall def, def ∈ definitions (iv w) -> enabled def = true ->
     is_Some (validators (iv w) !! compress (voting_public_key def))) ->
  handlers_are (handlers w) (enabled_ids (definitions (iv w)) ∖ {[id_of pk]}) ->
  (forall def, def ∈ definitions (iv w) -> validator_id_of def = id_of pk -> voting_public_key def = pk) ->
  NoDup (map voting_public_key (definitions (iv w))) ->
  stopped pk w w' -> synced w' /\ validators (iv w') !! compress pk = None.
Proof.
  intros Hall Hh Hid Hnd [Hok Eh Ev _ _ HD].
  assert (forall def, def ∈ definitions (iv w') /\ enabled def = true <->
    def ∈ definitions (iv w) /\ enabled def = true /\ voting_public_key def <> pk) as Hin.
  { intros def. set (D := update_first pk (set_enabled false) (definitions (iv w))) in HD.
    assert (def ∈ D /\ enabled def = true <->
      def ∈ definitions (iv w) /\ enabled def = true /\ voting_public_key def <> pk) as HinD.
    { unfold D. rewrite elem_of_update_first by done. split.
      - intros [(e & He & ->) En]. case_bool_decide; [done|]. auto.
      - intros (Hi & En & Hne). split; [|done]. exists def. by rewrite bool_decide_eq_false_2. }
    destruct HD as [-> | ->]; [done|]. rewrite list_elem_of_filter. tauto. }
  split; [|rewrite Ev; apply lookup_delete_eq]. split; [done| |].
  - intros def Hd En. destruct (proj1 (Hin def) (conj Hd En)) as (Hd' & _ & Hne).
    rewrite Ev, lookup_delete_ne; [by apply Hall|]. intros E%compress_inj. congruence.
  - rewrite Eh. replace (enabled_ids (definitions (iv w')))
      with (enabled_ids (definitions (iv w)) ∖ {[id_of pk]}); [done|].
    apply set_eq. intros i. rewrite elem_of_difference, !elem_of_enabled_ids, elem_of_singleton. split.
    + intros [(def & Hd & En & ->) Hne]. exists def.
      assert (voting_public_key def <> pk) as Hpk by (intros <-; by apply Hne).
      destruct (proj2 (Hin def) (conj Hd (conj En Hpk))) as [? ?]. done.
    + intros (def & Hd & En & ->). destruct (proj1 (Hin def) (conj Hd En)) as (Hd' & _ & Hne).
      split; [by exists def|]. intros E. apply Hne. by apply Hid.
Qed.

(** ** Adding *)

Lemma add_definition_follows io opened def w :
  let D0 := filter (fun e => ~ (enabled e = false /\ voting_public_key e = voting_public_key def))
              (definitions (iv w)) in
  synced w -> (forall e, e ∈ definitions (iv w) -> enabled e = true ->
     voting_public_key e <> voting_public_key def) ->
  ready io opened (disk w) (iv_node (iv w)) (D0 ++ [def]) ->
  cache_readable w -> config_writable io w ->
  exists w', add_definition_replace_disabled io opened def w = (Ok (), w') /\
    follows (D0 ++ [def]) w w' /\ synced w'.
Proof.
  intros D0 Hsy Hnew Hr Hc Hcw.
  destruct (update_and_save io opened w (D0 ++ [def]) (voting_public_key def) (fun v => v))
    as (w' & _ & E & Hf); try done.
  { intros e Hin En. exists e. split; [|done]. apply elem_of_app. left. apply list_elem_of_filter.
    split; [|done]. rewrite En. by intros [? _]. }
  assert (add_definition_replace_disabled io opened def w = (Ok (), w')) as Eadd.
  { unfold add_definition_replace_disabled. erewrite run_bind; [|reflexivity]. cbv beta.
    unfold add_definition. erewrite run_bind; [|reflexivity]. cbv beta.
    replace (existsb _ _) with false.
    - erewrite run_bind; [|reflexivity]. exact E.
    - symmetry. apply not_true_iff_false. intros Hex.
      apply existsb_exists in Hex as (e & Hin%list_elem_of_In & Epk%bool_decide_eq_true_1).
      cbn in Hin. apply list_elem_of_filter in Hin as [Hne Hin].
      destruct (enabled e) eqn:En; [by apply (Hnew e)|]. by apply Hne. }
  exists w'. split; [done|]. split; [done|]. eapply follows_synced; [|done].
  assert (committee_matches (disk w) def) as Hm.
  { pose proof (rd_loads _ _ _ _ _ Hr def) as Hl. unfold loads in Hl. unfold committee_matches.
    destruct (signing_definition def) as [| |p pp pw [q|] ci oi]; try done.
    destruct Hl as (_ & _ & Hq & Hpk & _); [apply elem_of_app; right; apply list_elem_of_here|].
    intros c Hc'. congruence. }
  pose proof (add_definition_replace_disabled_keeps io opened def w (sy_ok _ Hsy) Hm) as Hk.
  unfold keeps, wp in Hk. rewrite Eadd in Hk. by apply (proj2 Hk ()).
Qed.
End distributed.
