(* ===== verification/ValidatorStore.v ===== *)
(** * The validator store and slashing protection

    Models [src/validation/validator_store.rs]: every signing request of the
    validator client, guarded by the doppelganger service and the slashing
    protection database, ends in [get_signature_from_root] with the signing method
    of the validator ([InitializedValidators]): its key pair, or the signer of its
    committee ([DvfCore]).  The database, the types of the beacon chain and their
    signing roots belong to other crates and are classes. *)

From S2P Require Import Prelude Store Committee Messages Network Core Ideal Mempool.
From S2P Require Import Scalars Blst BlstIdeal Polynomial Threshold Operator DvfCore.
From S2P Require Import Doppelganger KeyCache KeyFiles InitializedValidators.

(** ** Beacon chain types *)

(** Blocks, attestation data and the messages that are not slashable, with their
    signing roots in the domain of their kind and epoch. *)
Class BeaconTypes := {
  BeaconBlockT : Type;
  AttestationT : Type;
  block_slot : BeaconBlockT -> Slot;
  block_signing_root : BeaconBlockT -> Hash256;
  att_source : AttestationT -> Epoch;
  att_target : AttestationT -> Epoch;
  att_signing_root : AttestationT -> Hash256;
  OtherT : Type;
  other_signing_root : OtherT -> Hash256;
  epoch_start_slot : Epoch -> Slot
}.

(** The slashing conditions of the beacon chain. *)
Definition slashable_blocks `{BeaconTypes} (b b' : BeaconBlockT) : Prop :=
  block_slot b = block_slot b' /\ block_signing_root b <> block_signing_root b'.

Definition surrounds `{BeaconTypes} (a a' : AttestationT) : Prop :=
  att_source a < att_source a' /\ att_target a' < att_target a.

Definition slashable_attestations `{BeaconTypes} (a a' : AttestationT) : Prop :=
  (att_target a = att_target a' /\ att_signing_root a <> att_signing_root a') \/
  surrounds a a' \/ surrounds a' a.

(** ** The slashing protection database *)

Inductive Safe : Type := Valid | SameData.
Inductive NotSafe : Type := UnregisteredValidator (pubkey : PublicKeyBytes) | OtherNotSafe.

Class SlashingDatabase `{BeaconTypes} := {
  sdb : Type;
  register_validator : PublicKeyBytes -> sdb -> sdb * (NotSafe + unit);
  check_and_insert_block_proposal :
    PublicKeyBytes -> BeaconBlockT -> sdb -> sdb * (NotSafe + Safe);
  check_and_insert_attestation :
    PublicKeyBytes -> AttestationT -> sdb -> sdb * (NotSafe + Safe);
  prune_all_signed_attestations : list PublicKeyBytes -> Epoch -> sdb -> sdb * bool;
  prune_all_signed_blocks : list PublicKeyBytes -> Slot -> sdb -> sdb * bool
}.

(** The database protects what it has accepted: a message is [Valid] only if it is
    not slashable with one protected before, it is protected from then on, and
    protection survives every operation, pruning included. *)
Class SlashingProtection `{SlashingDatabase} := {
  protects_block : sdb -> PublicKeyBytes -> BeaconBlockT -> Prop;
  protects_att : sdb -> PublicKeyBytes -> AttestationT -> Prop;
  block_accepted pk b d d' :
    check_and_insert_block_proposal pk b d = (d', inr Valid) ->
    protects_block d' pk b /\
    forall b', protects_block d pk b' -> ~ slashable_blocks b' b;
  att_accepted pk a d d' :
    check_and_insert_attestation pk a d = (d', inr Valid) ->
    protects_att d' pk a /\
    forall a', protects_att d pk a' -> ~ slashable_attestations a' a;
  protection_kept d d' :
    (exists pk, d' = fst (register_validator pk d)) \/
    (exists pk b, d' = fst (check_and_insert_block_proposal pk b d)) \/
    (exists pk a, d' = fst (check_and_insert_attestation pk a d)) \/
    (exists l e, d' = fst (prune_all_signed_attestations l e d)) \/
    (exists l s, d' = fst (prune_all_signed_blocks l s d)) ->
    (forall pk b, protects_block d pk b -> protects_block d' pk b) /\
    (forall pk a, protects_att d pk a -> protects_att d' pk a)
}.

(** ** [ValidatorStore] *)

Inductive StoreErrorV : Type :=
| DoppelgangerProtected (pubkey : PublicKeyBytes)
| UnknownPubkey (pubkey : PublicKeyBytes)
| Slashable (e : NotSafe)
| SameDataError
| GreaterThanCurrentSlot (slot current_slot : Slot)
| GreaterThanCurrentEpoch (epoch current_epoch : Epoch)
| UnableToSignAttestation
| UnableToSign (e : SigningError).

Definition SLASHING_PROTECTION_HISTORY_EPOCHS : Z := 512.

Section validator_store.
Context `{Eth2Keystore} `{Bincode} `{!SigCodec} `{MempoolCodec} `{Rocksdb Digest bytes}.
Context `{EthSpec} `{SlashingDatabase}.

Record ValidatorStore := mkValidatorStore {
  initialized_validators : InitializedValidators;
  slashing_protection : sdb;
  slashing_protection_last_prune : Epoch;
  doppelganger_service : option (gmap PublicKeyBytes DoppelgangerState)
}.

(** What a request meets: whether the executor still takes tasks, the result of the
    committee of the validator, and of the signature of its report. *)
Record conditions := mkConditions {
  executor_runs : bool;
  debug : DvfError -> string;
  work : DvfSigner -> option (outcome DvfError (BlsSignature * list Z));
  report : Reporting
}.

(** What is signed with the share of a validator. *)
Inductive signed : Type :=
| SignedBlock (b : BeaconBlockT)
| SignedAttestation (a : AttestationT)
| SignedOther (message : OtherT).

(** A request returns the store, its result and what it signed. *)
Definition signing (A : Type) : Type :=
  ValidatorStore * outcome StoreErrorV A * list (PublicKeyBytes * signed).

Definition set_slashing (self : ValidatorStore) (d : sdb) : ValidatorStore :=
  mkValidatorStore (initialized_validators self) d (slashing_protection_last_prune self)
    (doppelganger_service self).

Definition set_initialized (self : ValidatorStore) (i : InitializedValidators) : ValidatorStore :=
  mkValidatorStore i (slashing_protection self) (slashing_protection_last_prune self)
    (doppelganger_service self).

Definition doppelganger_protection_allows_signing (self : ValidatorStore)
  (validator_pubkey : PublicKeyBytes) : bool :=
  match doppelganger_service self with
  | None => true
  | Some service =>
      match only_safe (validator_status service validator_pubkey) with
      | Some _ => true
      | None => false
      end
  end.

Definition doppelganger_bypassed_signing_method (self : ValidatorStore)
  (validator_pubkey : PublicKeyBytes) : outcome StoreErrorV SigningMethod :=
  match validators (initialized_validators self) !! validator_pubkey with
  | Some v => mret (signing_method v)
  | None => Err (UnknownPubkey validator_pubkey)
  end.

Definition doppelganger_checked_signing_method (self : ValidatorStore)
  (validator_pubkey : PublicKeyBytes) : outcome StoreErrorV SigningMethod :=
  if doppelganger_protection_allows_signing self validator_pubkey
  then doppelganger_bypassed_signing_method self validator_pubkey
  else Err (DoppelgangerProtected validator_pubkey).

(** The signer of a running validator, after it has stored a signature. *)
Definition set_signer (signer : DvfSigner) (v : InitializedValidator) : InitializedValidator :=
  mkInitialized
    (match signing_method v with
     | DistributedMethod p s pk _ => DistributedMethod p s pk signer
     | m => m
     end)
    (iv_graffiti v) (iv_suggested_fee_recipient v) (iv_gas_limit v) (iv_builder_proposals v)
    (iv_index v).

Definition store_signer (pubkey : PublicKeyBytes) (signer : DvfSigner)
  (i : InitializedValidators) : InitializedValidators :=
  mkIv (definitions i) (validators_dir i) (alter (set_signer signer) pubkey (validators i)) (iv_node i).

(** [get_signature] of the method; its error becomes [UnableToSign]. *)
Definition get_signature (self : ValidatorStore) (pubkey : PublicKeyBytes)
  (method : outcome StoreErrorV SigningMethod) (kind : SignableMessage) (root : Hash256)
  (epoch : Epoch) (env : conditions) (item : signed) : signing BlsSignature :=
  match method with
  | Ok (LocalMethod _ _ voting_keypair) =>
      if executor_runs env
      then (self, Ok (SecretKey_sign (Keypair_sk voting_keypair) (hash_bytes root)), [(pubkey, item)])
      else (self, Err (UnableToSign ShuttingDown), [])
  | Ok (DistributedMethod _ _ _ signer) =>
      let '(signer', r) :=
        get_signature_from_root (debug env) signer kind root epoch (work env) (report env) in
      (set_initialized self (store_signer pubkey signer' (initialized_validators self)),
       match r with
       | Ok signature => Ok signature
       | Err e => Err (UnableToSign e)
       | Panic msg => Panic msg
       | Diverged => Diverged
       end, [(pubkey, item)])
  | Err e => (self, Err e, [])
  | Panic msg => (self, Panic msg, [])
  | Diverged => (self, Diverged, [])
  end.

Definition sign_block (self : ValidatorStore) (validator_pubkey : PublicKeyBytes)
  (block : BeaconBlockT) (current_slot : Slot) (env : conditions) : signing BlsSignature :=
  if current_slot <? block_slot block
  then (self, Err (GreaterThanCurrentSlot (block_slot block) current_slot), [])
  else
    let signing_epoch := slot_epoch (block_slot block) in
    let '(d, slashing_status) :=
      check_and_insert_block_proposal validator_pubkey block (slashing_protection self) in
    let self := set_slashing self d in
    match slashing_status with
    | inr Valid =>
        get_signature self validator_pubkey
          (doppelganger_checked_signing_method self validator_pubkey) BeaconBlock
          (block_signing_root block) signing_epoch env (SignedBlock block)
    | inr SameData => (self, Err SameDataError, [])
    | inl e => (self, Err (Slashable e), [])
    end.

(** [add_signature] may refuse the position of the validator. *)
Definition sign_attestation (self : ValidatorStore) (validator_pubkey : PublicKeyBytes)
  (attestation : AttestationT) (add_signature : BlsSignature -> bool)
  (current_epoch : Epoch) (env : conditions) : signing BlsSignature :=
  if current_epoch <? att_target attestation
  then (self, Err (GreaterThanCurrentEpoch (att_target attestation) current_epoch), [])
  else
    let signing_epoch := att_target attestation in
    let '(d, slashing_status) :=
      check_and_insert_attestation validator_pubkey attestation (slashing_protection self) in
    let self := set_slashing self d in
    match slashing_status with
    | inr Valid =>
        let '(self', r, l) :=
          get_signature self validator_pubkey
            (doppelganger_checked_signing_method self validator_pubkey) AttestationData
            (att_signing_root attestation) signing_epoch env (SignedAttestation attestation) in
        (self',
         match r with
         | Ok signature => if add_signature signature then Ok signature else Err UnableToSignAttestation
         | r => r
         end, l)
    | inr SameData => (self, Err SameDataError, [])
    | inl e => (self, Err (Slashable e), [])
    end.

(** The messages that are not slashable. *)
Definition checked (self : ValidatorStore) (pubkey : PublicKeyBytes) (kind : SignableMessage)
  (message : OtherT) (epoch : Epoch) (env : conditions) : signing BlsSignature :=
  get_signature self pubkey (doppelganger_checked_signing_method self pubkey) kind
    (other_signing_root message) epoch env (SignedOther message).

Definition bypassed (self : ValidatorStore) (pubkey : PublicKeyBytes) (kind : SignableMessage)
  (message : OtherT) (epoch : Epoch) (env : conditions) : signing BlsSignature :=
  get_signature self pubkey (doppelganger_bypassed_signing_method self pubkey) kind
    (other_signing_root message) epoch env (SignedOther message).

Definition randao_reveal self pubkey (signing_epoch : Epoch) message env : signing BlsSignature :=
  checked self pubkey RandaoReveal message signing_epoch env.

Definition produce_signed_aggregate_and_proof self pubkey (aggregate : AttestationT) message env
  : signing BlsSignature :=
  checked self pubkey SignedAggregateAndProof message (att_target aggregate) env.

Definition sign_validator_registration_data self pubkey message env : signing BlsSignature :=
  bypassed self pubkey ValidatorRegistration message 0 env.

Definition produce_selection_proof self pubkey (slot : Slot) message env : signing BlsSignature :=
  bypassed self pubkey SelectionProof message (slot_epoch slot) env.

Definition produce_sync_selection_proof self pubkey (slot : Slot) message env
  : signing BlsSignature :=
  bypassed self pubkey SyncSelectionProof message (slot_epoch slot) env.

Definition produce_sync_committee_signature self pubkey (slot : Slot) message env
  : signing BlsSignature :=
  bypassed self pubkey SyncCommitteeSignature message (slot_epoch slot) env.

Definition produce_signed_contribution_and_proof self pubkey (slot : Slot) message env
  : signing BlsSignature :=
  bypassed self pubkey SignedContributionAndProof message (slot_epoch slot) env.

(** ** Changes of the validators *)

(** An operation on the validators, with the disk and the handlers of the node. *)
Definition on_validators {A} (m : prog world IvError A) (self : ValidatorStore) (d : Disk)
  (h : Handlers) : ValidatorStore * outcome IvError A * Disk * Handlers :=
  let '(r, w) := m (mkWorld (initialized_validators self) d h) in
  (set_initialized self (iv w), r, disk w, handlers w).

Inductive AddError : Type :=
| UnableToRegister (e : NotSafe)
| UnableToProtect
| UnableToAddDefinition (e : IvError)
| UnableToCreateDefinition (e : DefinitionError).

(** [now] is the slot of the clock when it can be read. *)
Definition add_validator (self : ValidatorStore) (io : Io)
  (opened : Z -> option (Store.t Digest bytes)) (validator_def : ValidatorDefinition)
  (now : option Slot) (genesis_slot : Slot) (d : Disk) (h : Handlers)
  : ValidatorStore * outcome AddError ValidatorDefinition * Disk * Handlers :=
  let validator_pubkey := compress (voting_public_key validator_def) in
  let '(sd, registered) := register_validator validator_pubkey (slashing_protection self) in
  let self := set_slashing self sd in
  match registered with
  | inl e => (self, Err (UnableToRegister e), d, h)
  | inr _ =>
      let service :=
        match doppelganger_service self with
        | None => Some None
        | Some st =>
            match register_new_validator validator_pubkey now genesis_slot st with
            | Ok st' => Some (Some st')
            | _ => None
            end
        end in
      match service with
      | None => (self, Err UnableToProtect, d, h)
      | Some service =>
          let self := mkValidatorStore (initialized_validators self) sd
            (slashing_protection_last_prune self) service in
          let '(self, r, d, h) :=
            on_validators (add_definition_replace_disabled io opened validator_def) self d h in
          (self,
           match r with
           | Ok _ => Ok validator_def
           | Err e => Err (UnableToAddDefinition e)
           | Panic msg => Panic msg
           | Diverged => Diverged
           end, d, h)
      end
  end.

Definition add_validator_keystore (self : ValidatorStore) (io : Io)
  (opened : Z -> option (Store.t Digest bytes)) (keystore_path : Path) (password : bytes)
  (enable : bool) (g : option bytes) (fee gas : option Z) (builder : option bool)
  (now : option Slot) (genesis_slot : Slot) (d : Disk) (h : Handlers)
  : ValidatorStore * outcome AddError ValidatorDefinition * Disk * Handlers :=
  match new_keystore_with_password d keystore_path (Some password) g fee gas builder with
  | inl e => (self, Err (UnableToCreateDefinition e), d, h)
  | inr def => add_validator self io opened (set_enabled enable def) now genesis_slot d h
  end.

Definition add_validator_keystore_share (self : ValidatorStore) (io : Io)
  (opened : Z -> option (Store.t Digest bytes)) (share_path password_path : Path) (enable : bool)
  (g : option bytes) (fee gas : option Z) (builder : option bool) (committee_path : Path)
  (committee_index op_id : Z) (now : option Slot) (genesis_slot : Slot) (d : Disk) (h : Handlers)
  : ValidatorStore * outcome AddError ValidatorDefinition * Disk * Handlers :=
  match new_keystore_share_with_password_path d share_path password_path g fee gas builder
          committee_path committee_index op_id with
  | inl e => (self, Err (UnableToCreateDefinition e), d, h)
  | inr def => add_validator self io opened (set_enabled enable def) now genesis_slot d h
  end.

Definition voting_pubkeys (self : ValidatorStore)
  (filter_func : DoppelgangerStatus -> option PublicKeyBytes) : list PublicKeyBytes :=
  omap filter_func
    (map (fun pubkey =>
            match doppelganger_service self with
            | Some service => validator_status service pubkey
            | None => SigningEnabled pubkey
            end) (map fst (map_to_list (validators (initialized_validators self))))).

Definition prune_slashing_protection_db (self : ValidatorStore) (current_epoch : Epoch)
  : ValidatorStore :=
  if current_epoch / SLASHING_PROTECTION_HISTORY_EPOCHS <=?
     slashing_protection_last_prune self / SLASHING_PROTECTION_HISTORY_EPOCHS
  then self
  else
    let new_min_target_epoch := saturating_sub current_epoch SLASHING_PROTECTION_HISTORY_EPOCHS in
    let new_min_slot := epoch_start_slot new_min_target_epoch in
    let all_pubkeys := voting_pubkeys self ignored in
    let '(d1, ok1) :=
      prune_all_signed_attestations all_pubkeys new_min_target_epoch (slashing_protection self) in
    if negb ok1 then set_slashing self d1
    else
      let '(d2, ok2) := prune_all_signed_blocks all_pubkeys new_min_slot d1 in
      if negb ok2 then set_slashing self d2
      else mkValidatorStore (initialized_validators self) d2 current_epoch (doppelganger_service self).

(** The results of the operations are only logged. *)
Definition remove_validator_keystore (self : ValidatorStore) (io : Io) (pubkey : p1) (d : Disk)
  (h : Handlers) := on_validators (delete_definition_and_keystore io pubkey) self d h.

Definition stop_validator_keystore (self : ValidatorStore) (io : Io) (pubkey : p1) (d : Disk)
  (h : Handlers) := on_validators (disable_keystore io pubkey) self d h.

Definition start_validator_keystore (self : ValidatorStore) (io : Io)
  (opened : Z -> option (Store.t Digest bytes)) (pubkey : p1) (d : Disk) (h : Handlers) :=
  on_validators (enable_keystore io opened pubkey) self d h.
End validator_store.

(** ** Runs *)

Section runs.
Context `{Eth2Keystore} `{Bincode} `{!SigCodec} `{MempoolCodec} `{Rocksdb Digest bytes}.
Context `{EthSpec} `{SlashingDatabase}.

Inductive request : Type :=
| ReqBlock (pubkey : PublicKeyBytes) (b : BeaconBlockT) (current_slot : Slot) (env : conditions)
| ReqAttestation (pubkey : PublicKeyBytes) (a : AttestationT)
    (add_signature : BlsSignature -> bool) (current_epoch : Epoch) (env : conditions)
| ReqRandao (pubkey : PublicKeyBytes) (e : Epoch) (message : OtherT) (env : conditions)
| ReqAggregate (pubkey : PublicKeyBytes) (a : AttestationT) (message : OtherT) (env : conditions)
| ReqRegistration (pubkey : PublicKeyBytes) (message : OtherT) (env : conditions)
| ReqSelection (pubkey : PublicKeyBytes) (slot : Slot) (message : OtherT) (env : conditions)
| ReqSyncSelection (pubkey : PublicKeyBytes) (slot : Slot) (message : OtherT) (env : conditions)
| ReqSync (pubkey : PublicKeyBytes) (slot : Slot) (message : OtherT) (env : conditions)
| ReqContribution (pubkey : PublicKeyBytes) (slot : Slot) (message : OtherT) (env : conditions)
| ReqAdd (validator_def : ValidatorDefinition) (now : option Slot) (genesis_slot : Slot)
    (io : Io) (opened : Z -> option (Store.t Digest bytes)) (d : Disk) (h : Handlers)
| ReqPrune (current_epoch : Epoch)
| ReqValidators (op : operation) (io : Io) (opened : Z -> option (Store.t Digest bytes)) (d : Disk)
    (h : Handlers)
| ReqDoppelganger (e : Doppelganger.event)
| ReqIndex (pubkey : PublicKeyBytes) (index : Z).

Definition signed_by {A} (r : signing A) : ValidatorStore * list (PublicKeyBytes * signed) :=
  (r.1.1, r.2).

(** The store after a request, and what it signed. *)
Definition handle (self : ValidatorStore) (r : request)
  : ValidatorStore * list (PublicKeyBytes * signed) :=
  match r with
  | ReqBlock pubkey b current_slot env =>
      signed_by (sign_block self pubkey b current_slot env)
  | ReqAttestation pubkey a add_signature current_epoch env =>
      signed_by (sign_attestation self pubkey a add_signature current_epoch env)
  | ReqRandao pubkey e message env => signed_by (randao_reveal self pubkey e message env)
  | ReqAggregate pubkey a message env =>
      signed_by (produce_signed_aggregate_and_proof self pubkey a message env)
  | ReqRegistration pubkey message env =>
      signed_by (sign_validator_registration_data self pubkey message env)
  | ReqSelection pubkey slot message env =>
      signed_by (produce_selection_proof self pubkey slot message env)
  | ReqSyncSelection pubkey slot message env =>
      signed_by (produce_sync_selection_proof self pubkey slot message env)
  | ReqSync pubkey slot message env =>
      signed_by (produce_sync_committee_signature self pubkey slot message env)
  | ReqContribution pubkey slot message env =>
      signed_by (produce_signed_contribution_and_proof self pubkey slot message env)
  | ReqAdd validator_def now genesis_slot io opened d h =>
      (fst (fst (fst (add_validator self io opened validator_def now genesis_slot d h))), [])
  | ReqPrune current_epoch => (prune_slashing_protection_db self current_epoch, [])
  | ReqValidators op io opened d h =>
      (fst (fst (fst (on_validators (run_operation io opened op) self d h))), [])
  | ReqDoppelganger e =>
      (mkValidatorStore (initialized_validators self) (slashing_protection self)
         (slashing_protection_last_prune self)
         ((fun st => Doppelganger.step st e) <$> doppelganger_service self), [])
  | ReqIndex pubkey index =>
      (set_initialized self (set_index pubkey index (initialized_validators self)), [])
  end.

(** All that a sequence of requests signs, in order. *)
Fixpoint log (self : ValidatorStore) (rs : list request) : list (PublicKeyBytes * signed) :=
  match rs with
  | [] => []
  | r :: rs => let '(self', l) := handle self r in l ++ log self' rs
  end.

(** ** One operator *)

Section operator.
Context `{!SlashingProtection}.

(** Every signed block and attestation is protected and none is slashable with
    another. *)
Record log_safe (d : sdb) (l : list (PublicKeyBytes * signed)) : Prop := {
  safe_protects_block pk b : (pk, SignedBlock b) ∈ l -> protects_block d pk b;
  safe_protects_att pk a : (pk, SignedAttestation a) ∈ l -> protects_att d pk a;
  safe_blocks pk b b' : (pk, SignedBlock b) ∈ l -> (pk, SignedBlock b') ∈ l ->
    ~ slashable_blocks b b';
  safe_atts pk a a' : (pk, SignedAttestation a) ∈ l -> (pk, SignedAttestation a') ∈ l ->
    ~ slashable_attestations a a'
}.

Lemma slashable_blocks_sym b b' : slashable_blocks b b' -> slashable_blocks b' b.
Proof. unfold slashable_blocks. intuition congruence. Qed.

Lemma slashable_blocks_irrefl b : ~ slashable_blocks b b.
Proof. unfold slashable_blocks. tauto. Qed.

Lemma slashable_attestations_sym a a' :
  slashable_attestations a a' -> slashable_attestations a' a.
Proof. unfold slashable_attestations. intuition congruence. Qed.

Lemma slashable_attestations_irrefl a : ~ slashable_attestations a a.
Proof. unfold slashable_attestations, surrounds. intros [[]|[[]|[]]]; [done|lia..]. Qed.

Lemma log_safe_mono d d' l :
  (forall pk b, protects_block d pk b -> protects_block d' pk b) ->
  (forall pk a, protects_att d pk a -> protects_att d' pk a) ->
  log_safe d l -> log_safe d' l.
Proof. intros Hb Ha [Hs1 Hs2 Hs3 Hs4]. constructor; eauto. Qed.

Lemma log_safe_other d l pk m :
  log_safe d l -> log_safe d (l ++ [(pk, SignedOther m)]).
Proof.
  intros [Hs1 Hs2 Hs3 Hs4].
  assert (forall x s, (x, s) ∈ l ++ [(pk, SignedOther m)] ->
    (x, s) ∈ l \/ s = SignedOther m) as Hin.
  { intros x s [Hl|[= _ ->]%list_elem_of_singleton]%elem_of_app; auto. }
  constructor.
  - intros x b Hb. destruct (Hin _ _ Hb); [eauto|done].
  - intros x a Ha. destruct (Hin _ _ Ha); [eauto|done].
  - intros x b b' Hb Hb'. destruct (Hin _ _ Hb), (Hin _ _ Hb'); [eauto|done..].
  - intros x a a' Ha Ha'. destruct (Hin _ _ Ha), (Hin _ _ Ha'); [eauto|done..].
Qed.

Lemma log_safe_block d d' l pk b :
  check_and_insert_block_proposal pk b d = (d', inr Valid) ->
  log_safe d l -> log_safe d' (l ++ [(pk, SignedBlock b)]).
Proof.
  intros Hc Hl. destruct (block_accepted _ _ _ _ Hc) as [Hnew Hold].
  assert (log_safe d' l) as [Hs1 Hs2 Hs3 Hs4].
  { destruct (protection_kept d d') as [Hb Ha]; [|by eapply log_safe_mono].
    right. left. exists pk, b. by rewrite Hc. }
  assert (forall x s, (x, s) ∈ l ++ [(pk, SignedBlock b)] ->
    (x, s) ∈ l \/ (x = pk /\ s = SignedBlock b)) as Hin.
  { intros x s [Hx|[= -> ->]%list_elem_of_singleton]%elem_of_app; auto. }
  constructor.
  - intros x b0 [Hb|[-> [= ->]]]%Hin; eauto.
  - intros x a [Ha|[_ [=]]]%Hin; eauto.
  - intros x b1 b2 [Hb1|[-> [= ->]]]%Hin [Hb2|[He [= ->]]]%Hin; [eauto|..].
    + subst x. apply Hold. eapply safe_protects_block; [exact Hl|done].
    + intros Hs%slashable_blocks_sym. revert Hs. apply Hold.
      eapply safe_protects_block; [exact Hl|done].
    + apply slashable_blocks_irrefl.
  - intros x a1 a2 [Ha1|[_ [=]]]%Hin [Ha2|[_ [=]]]%Hin. eauto.
Qed.

Lemma log_safe_att d d' l pk a :
  check_and_insert_attestation pk a d = (d', inr Valid) ->
  log_safe d l -> log_safe d' (l ++ [(pk, SignedAttestation a)]).
Proof.
  intros Hc Hl. destruct (att_accepted _ _ _ _ Hc) as [Hnew Hold].
  assert (log_safe d' l) as [Hs1 Hs2 Hs3 Hs4].
  { destruct (protection_kept d d') as [Hb Ha]; [|by eapply log_safe_mono].
    right. right. left. exists pk, a. by rewrite Hc. }
  assert (forall x s, (x, s) ∈ l ++ [(pk, SignedAttestation a)] ->
    (x, s) ∈ l \/ (x = pk /\ s = SignedAttestation a)) as Hin.
  { intros x s [Hx|[= -> ->]%list_elem_of_singleton]%elem_of_app; auto. }
  constructor.
  - intros x b [Hb|[_ [=]]]%Hin; eauto.
  - intros x a0 [Ha|[-> [= ->]]]%Hin; eauto.
  - intros x b1 b2 [Hb1|[_ [=]]]%Hin [Hb2|[_ [=]]]%Hin. eauto.
  - intros x a1 a2 [Ha1|[-> [= ->]]]%Hin [Ha2|[He [= ->]]]%Hin; [eauto|..].
    + subst x. apply Hold. eapply safe_protects_att; [exact Hl|done].
    + intros Hs%slashable_attestations_sym. revert Hs. apply Hold.
      eapply safe_protects_att; [exact Hl|done].
    + apply slashable_attestations_irrefl.
Qed.

(** Any database operation keeps a log safe. *)
Lemma kept_safe d d' l :
  (exists pk, d' = fst (register_validator pk d)) \/
  (exists pk b, d' = fst (check_and_insert_block_proposal pk b d)) \/
  (exists pk a, d' = fst (check_and_insert_attestation pk a d)) \/
  (exists ks e, d' = fst (prune_all_signed_attestations ks e d)) \/
  (exists ks t, d' = fst (prune_all_signed_blocks ks t d)) ->
  log_safe d l -> log_safe d' l.
Proof. intros [Hb Ha]%protection_kept. by apply log_safe_mono. Qed.

Lemma prune_safe self e l :
  log_safe (slashing_protection self) l ->
  log_safe (slashing_protection (prune_slashing_protection_db self e)) l.
Proof.
  intros Hl. unfold prune_slashing_protection_db. destruct (_ <=? _); [done|].
  destruct (prune_all_signed_attestations _ _ _) as [d1 ok1] eqn:Hp1.
  assert (log_safe d1 l) as Hd1.
  { eapply kept_safe; [|exact Hl]. do 3 right. left. eexists _, _. by rewrite Hp1. }
  destruct ok1; [|done]. simpl.
  destruct (prune_all_signed_blocks _ _ _) as [d2 ok2] eqn:Hp2.
  assert (log_safe d2 l) as Hd2.
  { eapply kept_safe; [|exact Hd1]. do 4 right. eexists _, _. by rewrite Hp2. }
  by destruct ok2.
Qed.

Lemma get_signature_spec self pk method kind root e env item self' r l :
  get_signature self pk method kind root e env item = (self', r, l) ->
  slashing_protection self' = slashing_protection self /\
  (l = [] \/ l = [(pk, item)] /\ exists m, method = Ok m).
Proof.
  unfold get_signature. destruct method as [[p k kp|p s mk signer]|e0|msg|].
  - destruct (executor_runs env); intros [= <- _ <-]; eauto.
  - destruct (get_signature_from_root _ _ _ _ _ _ _) as [signer' r0].
    intros [= <- _ <-]. eauto.
  - intros [= <- _ <-]. auto.
  - intros [= <- _ <-]. auto.
  - intros [= <- _ <-]. auto.
Qed.

Lemma sign_block_safe self pk b cs env self' r l l' :
  log_safe (slashing_protection self) l -> sign_block self pk b cs env = (self', r, l') ->
  log_safe (slashing_protection self') (l ++ l').
Proof.
  intros Hl Hs. unfold sign_block in Hs.
  destruct (_ <? _); [injection Hs as <- _ <-; by rewrite app_nil_r|].
  destruct (check_and_insert_block_proposal _ _ _) as [d st] eqn:Hc.
  assert (log_safe d l) as Hd.
  { eapply kept_safe; [|exact Hl]. right. left. exists pk, b. by rewrite Hc. }
  destruct st as [ns|[]]; try (injection Hs as <- _ <-; by rewrite app_nil_r).
  apply get_signature_spec in Hs as [-> [->|[-> _]]]; [by rewrite app_nil_r|].
  by eapply log_safe_block.
Qed.

Lemma sign_attestation_safe self pk a add ce env self' r l l' :
  log_safe (slashing_protection self) l ->
  sign_attestation self pk a add ce env = (self', r, l') ->
  log_safe (slashing_protection self') (l ++ l').
Proof.
  intros Hl Hs. unfold sign_attestation in Hs.
  destruct (_ <? _); [injection Hs as <- _ <-; by rewrite app_nil_r|].
  destruct (check_and_insert_attestation _ _ _) as [d st] eqn:Hc.
  assert (log_safe d l) as Hd.
  { eapply kept_safe; [|exact Hl]. right. right. left. exists pk, a. by rewrite Hc. }
  destruct st as [ns|[]]; try (injection Hs as <- _ <-; by rewrite app_nil_r).
  destruct (get_signature _ _ _ _ _ _ _ _) as [[s2 r2] l2] eqn:Hg. injection Hs as <- _ <-.
  apply get_signature_spec in Hg as [-> [->|[-> _]]]; [by rewrite app_nil_r|].
  by eapply log_safe_att.
Qed.

Lemma other_safe self pk method kind root e env m self' l l' :
  log_safe (slashing_protection self) l ->
  signed_by (get_signature self pk method kind root e env (SignedOther m)) = (self', l') ->
  log_safe (slashing_protection self') (l ++ l').
Proof.
  intros Hl Hs. destruct (get_signature _ _ _ _ _ _ _ _) as [[s2 r2] l2] eqn:Hg.
  injection Hs as <- <-. simpl.
  apply get_signature_spec in Hg as [-> [->|[-> _]]]; [by rewrite app_nil_r|].
  by apply log_safe_other.
Qed.

Lemma on_validators_slashing {A} (m : prog world IvError A) self d h :
  slashing_protection (fst (fst (fst (on_validators m self d h)))) = slashing_protection self.
Proof. unfold on_validators. by destruct (m _). Qed.

Lemma add_validator_safe self io opened def now g d h l :
  log_safe (slashing_protection self) l ->
  log_safe (slashing_protection (fst (fst (fst (add_validator self io opened def now g d h))))) l.
Proof.
  intros Hl. unfold add_validator.
  destruct (register_validator _ (slashing_protection self)) as [sd reg] eqn:Hr.
  assert (log_safe sd l) as Hd.
  { eapply kept_safe; [|exact Hl]. left. eexists. by rewrite Hr. }
  destruct reg; [done|]. destruct (match doppelganger_service _ with Some _ => _ | None => _ end); [|done].
  destruct (on_validators _ _ _ _) as [[[self' r] d'] h'] eqn:Ho. cbn.
  apply (f_equal (fun x => slashing_protection (fst (fst (fst x))))) in Ho.
  rewrite on_validators_slashing in Ho. cbn in Ho. by rewrite <- Ho.
Qed.

Lemma handle_safe self r self' l l' :
  log_safe (slashing_protection self) l -> handle self r = (self', l') ->
  log_safe (slashing_protection self') (l ++ l').
Proof.
  intros Hl Hh. destruct r as [pk b cs env|pk a add ce env| | | | | | |
    |def now g io op d h|ce|o io op d h|e|pk index]; cbn -[add_validator on_validators] in Hh; try (by eapply other_safe).
  - destruct (sign_block self pk b cs env) as [[s1 r1] l1] eqn:Hs. injection Hh as <- <-.
    by eapply sign_block_safe.
  - destruct (sign_attestation self pk a add ce env) as [[s1 r1] l1] eqn:Hs.
    injection Hh as <- <-. by eapply sign_attestation_safe.
  - injection Hh as <- <-. rewrite app_nil_r. by apply add_validator_safe.
  - injection Hh as <- <-. rewrite app_nil_r. by apply prune_safe.
  - injection Hh as <- <-. rewrite app_nil_r. by rewrite on_validators_slashing.
  - injection Hh as <- <-. by rewrite app_nil_r.
  - injection Hh as <- <-. by rewrite app_nil_r.
Qed.

(** What an operator signs, whatever the requests. *)
Lemma log_run_safe self rs l :
  log_safe (slashing_protection self) l -> exists d, log_safe d (l ++ log self rs).
Proof.
  revert self l. induction rs as [|r rs IH]; intros self l Hl; simpl.
  { exists (slashing_protection self). by rewrite app_nil_r. }
  destruct (handle self r) as [self' l'] eqn:Hh. rewrite app_assoc.
  apply (IH self'). by eapply handle_safe.
Qed.

Lemma log_run_empty self rs : exists d, log_safe d (log self rs).
Proof. apply (log_run_safe self rs []). constructor; intros; exfalso; by eapply elem_of_nil. Qed.
End operator.
End runs.

(** ** The committee *)

(** Two sets of members with more than [n + f] elements share one that is not
    among [f] faulty ones. *)
Lemma quorums_share_honest (members faulty X Y : gset Z) :
  X ⊆ members -> Y ⊆ members ->
  (size members + size faulty < size X + size Y)%nat ->
  exists o, o ∈ X /\ o ∈ Y /\ o ∉ faulty.
Proof.
  intros HX HY Hs. destruct (decide (X ∩ Y ⊆ faulty)) as [Hsub|Hsub].
  - pose proof (subseteq_size _ _ Hsub) as Hf.
    assert (size (X ∪ Y ∖ X) = size X + size (Y ∖ X))%nat as Hu by (apply size_union; set_solver).
    assert (size (X ∪ Y ∖ X) <= size members)%nat as Hm by (apply subseteq_size; set_solver).
    assert (Y = Y ∖ X ∪ X ∩ Y) as HYe.
    { apply set_eq. intros o. destruct (decide (o ∈ X)); set_solver. }
    assert (size Y = size (Y ∖ X) + size (X ∩ Y))%nat as Hy.
    { rewrite HYe at 1. apply size_union. set_solver. }
    lia.
  - destruct (set_choose_or_empty (X ∩ Y ∖ faulty)) as [[o Ho]|He]; [exists o; set_solver|].
    destruct Hsub. intros o Ho. apply dec_stable. intros Hn. set_solver.
Qed.

Section committee.
Context `{Eth2Keystore} `{!BlstLaws} `{Bincode} `{!SigCodec} `{MempoolCodec} `{Rocksdb Digest bytes}.
Context `{EthSpec} `{SlashingDatabase} `{!SlashingProtection}.

Definition signing_root_of (x : signed) : Hash256 :=
  match x with
  | SignedBlock b => block_signing_root b
  | SignedAttestation a => att_signing_root a
  | SignedOther m => other_signing_root m
  end.

Definition slashable (x y : signed) : Prop :=
  match x, y with
  | SignedBlock b, SignedBlock b' => slashable_blocks b b'
  | SignedAttestation a, SignedAttestation a' => slashable_attestations a a'
  | _, _ => False
  end.

(** Different messages have different signing roots. *)
Class DistinctRoots : Prop := {
  roots_injective x y : signing_root_of x = signing_root_of y -> x = y
}.

(** The operators that are not faulty sign with their share what their validator
    client signs for the validator, in some run of it, and nothing else. *)
Definition signs_by_client (share : Z -> Z) (faulty : gset Z) (pubkey : PublicKeyBytes)
  (clients : Z -> ValidatorStore * list request) (self : OperatorCommittee) (msg : Hash256)
  (attempts : Z -> nat -> attempt) : Prop :=
  forall o operator, o ∉ faulty -> oc_operators self !! o = Some operator ->
    Operator.sign operator msg (attempts o) = Ok (SecretKey_sign (share o) (hash_bytes msg)) ->
    exists x, (pubkey, x) ∈ log (clients o).1 (clients o).2 /\ signing_root_of x = msg.

(** The operators whose valid signature a successful aggregation has. *)
Lemma signed_quorum cs share sk self msg attempts sig ids :
  is_secret sk -> fr (horner cs 0) = fr sk -> share_committee cs share self ->
  committee_sign self msg attempts = Ok (sig, ids) ->
  exists quorum : gset Z, (length cs <= size quorum)%nat /\ quorum ⊆ dom (oc_operators self) /\
    forall o, o ∈ quorum -> exists operator, oc_operators self !! o = Some operator /\
      Operator.sign operator msg (attempts o) = Ok (SecretKey_sign (share o) (hash_bytes msg)).
Proof.
  intros Hsk Hsk0 Hself. rewrite (committee_sign_outcome cs share sk) by done. cbn zeta.
  destruct (_ <? _)%nat; [done|]. destruct (Nat.ltb_spec
    (length (filter (valid_answer share msg) (collect_signatures self msg attempts)))
    (oc_threshold self)) as [|Hlen]; [done|]. intros _.
  set (good := filter _ _) in *. exists (list_to_set (map (fun x => x.1.1) good)).
  assert (forall o, o ∈ map (fun x => x.1.1) good -> exists operator,
    oc_operators self !! o = Some operator /\
    Operator.sign operator msg (attempts o) = Ok (SecretKey_sign (share o) (hash_bytes msg)))
    as Hgood.
  { intros o ([[id pk] s] & -> & [Hv Hin]%list_elem_of_filter)%list_elem_of_fmap.
    apply collect_spec in Hin as (operator & Hop & _ & Hsign).
    exists operator. split; [done|]. unfold valid_answer in Hv. simpl in *.
    by rewrite Hsign, Hv. }
  split; [|split].
  - rewrite size_list_to_set; [rewrite length_map; destruct Hself as [<- _]; done|].
    eapply sublist_NoDup; [apply (collect_ids self msg attempts)|].
    apply fmap_sublist, sublist_filter.
  - intros o Ho%elem_of_list_to_set. apply elem_of_dom.
    destruct (Hgood o Ho) as (operator & Hop & _). by eexists.
  - intros o Ho%elem_of_list_to_set. by apply Hgood.
Qed.

(** C2: a committee with at most [f] faulty operators and a threshold [t] with
    [n + f < 2 t] never signs two messages that are slashable together, whichever
    operators aggregate, whatever the faulty ones answer and whatever the requests
    to the validator clients of the others: two signatures of the committee have a
    signer in common that is not faulty, and its slashing protection database
    accepted both messages. *)
Theorem committee_never_slashable `{!DistinctRoots} cs share sk pubkey faulty
  (clients : Z -> ValidatorStore * list request) self1 self2 attempts1 attempts2
  x1 x2 sig1 sig2 ids1 ids2 :
  is_secret sk -> fr (horner cs 0) = fr sk ->
  share_committee cs share self1 -> share_committee cs share self2 ->
  dom (oc_operators self1) = dom (oc_operators self2) ->
  (size (dom (oc_operators self1)) + size faulty < 2 * length cs)%nat ->
  signs_by_client share faulty pubkey clients self1 (signing_root_of x1) attempts1 ->
  signs_by_client share faulty pubkey clients self2 (signing_root_of x2) attempts2 ->
  committee_sign self1 (signing_root_of x1) attempts1 = Ok (sig1, ids1) ->
  committee_sign self2 (signing_root_of x2) attempts2 = Ok (sig2, ids2) ->
  ~ slashable x1 x2.
Proof.
  intros Hsk Hsk0 Hs1 Hs2 Hdom Hsize Hc1 Hc2 Hsig1 Hsig2 Hsl.
  destruct (signed_quorum _ _ _ _ _ _ _ _ Hsk Hsk0 Hs1 Hsig1) as (Q1 & Hq1 & Hsub1 & Hg1).
  destruct (signed_quorum _ _ _ _ _ _ _ _ Hsk Hsk0 Hs2 Hsig2) as (Q2 & Hq2 & Hsub2 & Hg2).
  rewrite <- Hdom in Hsub2.
  destruct (quorums_share_honest _ faulty _ _ Hsub1 Hsub2) as (o & Ho1 & Ho2 & Hf); [lia|].
  destruct (Hg1 o Ho1) as (op1 & Hop1 & Hsg1), (Hg2 o Ho2) as (op2 & Hop2 & Hsg2).
  destruct (Hc1 o op1 Hf Hop1 Hsg1) as (y1 & Hl1 & He1%roots_injective).
  destruct (Hc2 o op2 Hf Hop2 Hsg2) as (y2 & Hl2 & He2%roots_injective). subst y1 y2.
  destruct (log_run_empty (clients o).1 (clients o).2) as [d [_ _ Hb Ha]].
  destruct x1, x2; try done; [exact (Hb _ _ _ Hl1 Hl2 Hsl)|exact (Ha _ _ _ Hl1 Hl2 Hsl)].
Qed.
End committee.

(** ** A concrete committee *)

Section witness.
#[local] Existing Instances ideal_blst ideal_blst_laws ideal_bincode ideal_round_trip.
#[local] Existing Instances ideal_sig_codec ideal_sig_roundtrip memory_db memory_db_reliable.
#[local] Existing Instances ideal_mempool ideal_keystore_crypto ideal_eth2_keystore.
#[local] Existing Instance mainnet.

(** Messages with a root that tells them apart. *)
#[local] Instance demo_beacon : BeaconTypes := {|
  BeaconBlockT := Z * Z;
  AttestationT := Z * Z * Z;
  block_slot b := b.1;
  block_signing_root b := 3 * Zpos (encode b) + 0;
  att_source a := a.1.1;
  att_target a := a.1.2;
  att_signing_root a := 3 * Zpos (encode a) + 1;
  OtherT := Z;
  other_signing_root m := 3 * Zpos (encode m) + 2;
  epoch_start_slot e := 32 * e
|}.

(** A database that keeps everything. *)
Definition conflict_block (l : list (Z * (Z * Z))) (pk : Z) (b : Z * Z) : bool :=
  existsb (fun x => (x.1 =? pk) && (x.2.1 =? b.1)) l.
Definition conflict_att (l : list (Z * (Z * Z * Z))) (pk : Z) (a : Z * Z * Z) : bool :=
  existsb (fun x => (x.1 =? pk) &&
    ((x.2.1.2 =? a.1.2) ||
     ((x.2.1.1 <? a.1.1) && (a.1.2 <? x.2.1.2)) ||
     ((a.1.1 <? x.2.1.1) && (x.2.1.2 <? a.1.2)))) l.

#[local] Instance history_db : SlashingDatabase := {|
  sdb := list (Z * (Z * Z)) * list (Z * (Z * Z * Z));
  register_validator _ d := (d, inr ());
  check_and_insert_block_proposal pk b d :=
    if conflict_block d.1 pk b then (d, inl OtherNotSafe)
    else (((pk, b) :: d.1, d.2), inr Valid);
  check_and_insert_attestation pk a d :=
    if conflict_att d.2 pk a then (d, inl OtherNotSafe)
    else ((d.1, (pk, a) :: d.2), inr Valid);
  prune_all_signed_attestations _ _ d := (d, true);
  prune_all_signed_blocks _ _ d := (d, true)
|}.

Lemma conflict_block_false l pk b b' :
  conflict_block l pk b = false -> (pk, b') ∈ l -> ~ slashable_blocks b' b.
Proof.
  intros Hc Hin [Hs _]. simpl in Hs. apply not_true_iff_false in Hc. apply Hc.
  apply existsb_exists. exists (pk, b'). split; [by apply list_elem_of_In|]. simpl.
  by rewrite Z.eqb_refl, (proj2 (Z.eqb_eq _ _) Hs).
Qed.

Lemma conflict_att_false l pk a a' :
  conflict_att l pk a = false -> (pk, a') ∈ l -> ~ slashable_attestations a' a.
Proof.
  intros Hc Hin Hs. apply not_true_iff_false in Hc. apply Hc.
  apply existsb_exists. exists (pk, a'). split; [by apply list_elem_of_In|].
  unfold slashable_attestations, surrounds in Hs. simpl in *.
  rewrite Z.eqb_refl. simpl. rewrite !orb_true_iff, !andb_true_iff, Z.eqb_eq, !Z.ltb_lt. tauto.
Qed.

#[local, refine] Instance history_protection : SlashingProtection := {|
  protects_block d pk b := (pk, b) ∈ d.1;
  protects_att d pk a := (pk, a) ∈ d.2
|}.
Proof.
  - intros pk b d d' Hc. simpl in Hc. destruct (conflict_block d.1 pk b) eqn:Hb; [done|].
    injection Hc as <-. split; [apply list_elem_of_here|].
    intros b' Hb'. by eapply conflict_block_false.
  - intros pk a d d' Hc. simpl in Hc. destruct (conflict_att d.2 pk a) eqn:Ha; [done|].
    injection Hc as <-. split; [apply list_elem_of_here|].
    intros a' Ha'. by eapply conflict_att_false.
  - intros d d' [[pk ->]|[(pk & b & ->)|[(pk & a & ->)|[(l & e & ->)|(l & t & ->)]]]]; simpl;
      try done.
    + destruct (conflict_block d.1 pk b); simpl; [done|]. split; [|done].
      intros. by apply list_elem_of_further.
    + destruct (conflict_att d.2 pk a); simpl; [done|]. split; [done|].
      intros. by apply list_elem_of_further.
Defined.

Lemma triple_pos p q r : 3 * Zpos p + r = 3 * Zpos q + r -> p = q.
Proof. lia. Qed.

#[local] Instance demo_distinct : DistinctRoots.
Proof.
  split. intros x y Hr. destruct x as [b|a|m], y as [b'|a'|m'];
    cbn [signing_root_of block_signing_root att_signing_root other_signing_root demo_beacon] in Hr;
    try lia.
  - apply (triple_pos _ _ 0) in Hr. by apply (inj encode) in Hr as ->.
  - apply (triple_pos _ _ 1) in Hr. by apply (inj encode) in Hr as ->.
  - apply (triple_pos _ _ 2) in Hr. by apply (inj encode) in Hr as ->.
Qed.

(** Two attestations of consecutive epochs, requested from every client. *)
Definition first_att : AttestationT := (3, 4, 50).
Definition second_att : AttestationT := (4, 5, 51).
Definition demo_env : conditions := mkConditions true (fun _ => "") (fun _ => None) (mkReporting (inr ()) (Some "")).
Definition demo_share_file : KeystoreShare :=
  mkKeystoreShare (1, [50], local_keypair second_signer) (SecretKey_public_key 7) 1 2.
Definition demo_validators : InitializedValidators :=
  mkIv [] [] {[5 := mkInitialized (DistributedMethod [] demo_share_file (SecretKey_public_key 7)
                                     second_signer) None None None None None]} None.
Definition demo_client : ValidatorStore * list request :=
  (mkValidatorStore demo_validators ([], []) 0 None,
   [ReqAttestation 5 first_att (fun _ => true) 9 demo_env;
    ReqAttestation 5 second_att (fun _ => true) 9 demo_env]).

(** Operator 2 answers the first try, operator 1 is the aggregator. *)
Definition pair_replies (msg : Hash256) (id : Z) (i : nat) : attempt :=
  if (id =? 2) && (i =? 0)%nat then Replied (ser_sig (SecretKey_sign 31 (hash_bytes msg)))
  else TimedOut.

Lemma pair_signs msg : exists ids,
  committee_sign trio_committee msg (pair_replies msg) =
  Ok (SecretKey_sign 7 (hash_bytes msg), ids).
Proof.
  eexists. apply (committee_sign_quorum [7; 12] demo_share 7) with (quorum := [1; 2]).
  - unfold is_secret. pose proof modulus_bits. lia.
  - apply (f_equal fr). reflexivity.
  - exact ideal_sig_roundtrip.
  - split; [reflexivity|]. split; [simpl; lia|]. exact demo_shares.
  - apply (bool_decide_unpack _). reflexivity.
  - simpl. lia.
  - intros id Hid. apply elem_of_cons in Hid as [->|Hid].
    { eexists. split; [reflexivity|]. reflexivity. }
    apply list_elem_of_singleton in Hid as ->. eexists. split; [reflexivity|].
    split; [reflexivity|]. exists 0%nat. split; [lia|]. split; [reflexivity|].
    intros k data Hk. lia.
Qed.

Lemma committee_never_slashable_witness :
  ~ slashable (SignedAttestation first_att) (SignedAttestation second_att).
Proof.
  destruct (pair_signs (att_signing_root first_att)) as [ids1 H1].
  destruct (pair_signs (att_signing_root second_att)) as [ids2 H2].
  assert (forall msg, (exists x, (5, x) ∈ log demo_client.1 demo_client.2 /\
    signing_root_of x = msg) ->
    signs_by_client demo_share ∅ 5 (fun _ => demo_client) trio_committee msg (pair_replies msg))
    as Hc.
  { intros msg Hx o operator _ _ _. exact Hx. }
  apply (committee_never_slashable [7; 12] demo_share 7 5 ∅ (fun _ => demo_client) trio_committee
    trio_committee (pair_replies (att_signing_root first_att))
    (pair_replies (att_signing_root second_att)) _ _
    (SecretKey_sign 7 (hash_bytes (att_signing_root first_att)))
    (SecretKey_sign 7 (hash_bytes (att_signing_root second_att))) ids1 ids2).
  - unfold is_secret. pose proof modulus_bits. lia.
  - apply (f_equal fr). reflexivity.
  - split; [reflexivity|]. split; [simpl; lia|]. exact demo_shares.
  - split; [reflexivity|]. split; [simpl; lia|]. exact demo_shares.
  - reflexivity.
  - replace (size (dom (oc_operators trio_committee))) with 3%nat by (vm_compute; reflexivity).
    rewrite size_empty. simpl. lia.
  - apply Hc. exists (SignedAttestation first_att). split; [|reflexivity].
    replace (log demo_client.1 demo_client.2)
      with [(5, SignedAttestation first_att); (5, SignedAttestation second_att)]
      by (vm_compute; reflexivity). apply list_elem_of_here.
  - apply Hc. exists (SignedAttestation second_att). split; [|reflexivity].
    replace (log demo_client.1 demo_client.2)
      with [(5, SignedAttestation first_att); (5, SignedAttestation second_att)]
      by (vm_compute; reflexivity). apply list_elem_of_further, list_elem_of_here.
  - exact H1.
  - exact H2.
Defined.
End witness.
