(* ===== verification/Elgamal.v ===== *)
(** * Encryption of key shares

    Models [src/crypto/elgamal.rs]: a share is encrypted for the node key of its
    operator with an ephemeral key and a cipher under their shared point.  The
    curve is the [secp256k1] crate and the cipher that of [IoCommittee]. *)

From S2P Require Import Prelude Network Scalars Blst BlstIdeal Processes IoCommittee.

(** ** The curve *)

(** Keys on the curve: [PublicKey::from_secret_key], [PublicKey::serialize],
    [PublicKey::from_slice], [SecretKey::from_slice] and [ecdh::shared_secret_point]. *)
Class Secp256k1 := {
  secp_pk : Type;
  secp_public_key : Z -> secp_pk;
  secp_serialize : secp_pk -> bytes;
  secp_from_slice : bytes -> option secp_pk;
  secp_secret_from_slice : bytes -> option Z;
  shared_secret_point : secp_pk -> Z -> bytes
}.

Class Secp256k1Laws `{Secp256k1} : Prop := {
  secp_serialize_length p : length (secp_serialize p) = 33%nat;
  secp_from_serialize k :
    secp_from_slice (secp_serialize (secp_public_key k)) = Some (secp_public_key k);
  shared_secret_point_sym a b :
    shared_secret_point (secp_public_key a) b = shared_secret_point (secp_public_key b) a
}.

Section elgamal.
Context `{Secp256k1} `{Aes}.

Record Ciphertext := mkCiphertext { temp_pk : secp_pk; aes_ct : bytes }.

Definition to_bytes (ct : Ciphertext) : bytes := secp_serialize (temp_pk ct) ++ aes_ct ct.

Definition from_bytes {E} (bs : bytes) : outcome E Ciphertext :=
  if (length bs <? 33)%nat then Panic "range end index 33 out of range for slice"
  else
    pk ← match secp_from_slice (take 33 bs) with
         | Some pk => mret pk
         | None => Panic "called `Result::unwrap()` on an `Err` value"
         end;
    mret (mkCiphertext pk (drop 33 bs)).

(** The error of the cipher. *)
Inductive AesError : Type := AesFailed.

(** [other_sk] and [random] are the choices of the generator: the ephemeral key and
    the nonce. *)
Definition elgamal_encrypt (other_sk : Z) (random : bytes) (msg : bytes) (pk : secp_pk)
  : outcome AesError Ciphertext :=
  let other_pk := secp_public_key other_sk in
  let point := shared_secret_point pk other_sk in
  let secret := sha256 point in
  let key := take 16 secret in
  let nonce_bytes := take 12 random in
  match aes_encrypt key nonce_bytes msg with
  | Some aes_ct => mret (mkCiphertext other_pk (nonce_bytes ++ aes_ct))
  | None => Err AesFailed
  end.

Definition elgamal_decrypt (ct : Ciphertext) (sk : Z) : outcome AesError bytes :=
  let point := shared_secret_point (temp_pk ct) sk in
  let secret := sha256 point in
  let key := take 16 secret in
  if (length (aes_ct ct) <? 12)%nat then Panic "range end index 12 out of range for slice"
  else
    match aes_decrypt key (take 12 (aes_ct ct)) (drop 12 (aes_ct ct)) with
    | Some msg => mret msg
    | None => Err AesFailed
    end.
End elgamal.

(** ** Round trips *)

Section elgamal_facts.
Context `{Secp256k1Laws} `{AesLaws}.

Lemma ciphertext_roundtrip {E} k c :
  let ct := mkCiphertext (secp_public_key k) c in from_bytes (E:=E) (to_bytes ct) = Ok ct.
Proof.
  cbv zeta. unfold from_bytes, to_bytes. cbn [temp_pk aes_ct].
  rewrite length_app, secp_serialize_length.
  rewrite (proj2 (Nat.ltb_ge _ _)) by lia.
  rewrite take_app_length', drop_app_length' by (by rewrite secp_serialize_length).
  by rewrite secp_from_serialize.
Qed.

Lemma decrypt_encrypted {E} sk other_sk random msg ct :
  (12 <= length random)%nat ->
  elgamal_encrypt other_sk random msg (secp_public_key sk) = Ok ct ->
  from_bytes (E:=E) (to_bytes ct) = Ok ct /\ elgamal_decrypt ct sk = Ok msg.
Proof.
  intros Hr. unfold elgamal_encrypt, elgamal_decrypt.
  assert (length (take 12 random) = 12%nat) as H12 by (rewrite length_take; lia).
  destruct (aes_encrypt _ _ _) as [c|] eqn:Hc; [|done]. intros [= <-].
  split; [apply ciphertext_roundtrip|].
  cbn [temp_pk aes_ct]. rewrite length_app, H12, (proj2 (Nat.ltb_ge _ _)) by lia.
  rewrite take_app_length', drop_app_length' by done.
  by rewrite shared_secret_point_sym, (aes_decrypt_encrypt _ _ _ _ Hc).
Qed.

(** A share encrypted for the key of a node, written out and read back on the
    chain, is what the node decrypts with its secret key, whatever ephemeral key and
    nonce were drawn; the bytes are 61 longer than the share.  Bytes that are too
    short for a key are a panic and not an error. *)
Theorem elgamal_roundtrip sk other_sk random msg :
  (12 <= length random)%nat -> fits msg ->
  (exists ct,
    elgamal_encrypt other_sk random msg (secp_public_key sk) = Ok ct /\
    length (to_bytes ct) = (length msg + 61)%nat /\
    from_bytes (E:=AesError) (to_bytes ct) = Ok ct /\ elgamal_decrypt ct sk = Ok msg) /\
  forall bs, (length bs < 33)%nat -> exists p, from_bytes (E:=AesError) bs = Panic p.
Proof.
  intros Hr Hm. split.
  2:{ intros bs Hbs. unfold from_bytes. rewrite (proj2 (Nat.ltb_lt _ _)) by lia. eauto. }
  assert (exists ct, elgamal_encrypt other_sk random msg (secp_public_key sk) = Ok ct /\
    length (to_bytes ct) = (length msg + 61)%nat) as (ct & Hct & Hlen).
  { unfold elgamal_encrypt.
    assert (length (take 12 random) = 12%nat) as H12 by (rewrite length_take; lia).
    destruct (aes_encrypt_ok (take 16 (sha256 (shared_secret_point (secp_public_key sk) other_sk)))
      (take 12 random) msg) as (c & -> & Hl); [by rewrite length_take, sha256_length|done..|].
    eexists. split; [reflexivity|]. unfold to_bytes. cbn [temp_pk aes_ct].
    rewrite !length_app, secp_serialize_length, H12, Hl. lia. }
  exists ct. destruct (decrypt_encrypted (E:=AesError) _ _ _ _ _ Hr Hct). done.
Qed.
End elgamal_facts.

(** ** A concrete curve, for the witnesses *)

(** The group of the integers: public keys are the secret ones. *)
Definition ideal_secp : Secp256k1 := {|
  secp_pk := Z;
  secp_public_key k := k mod 2 ^ 256;
  secp_serialize p := 2 :: reverse (Z_to_little_endian 32 8 p);
  secp_from_slice bs := Some (be_val (tail bs));
  secp_secret_from_slice bs := Some (be_val bs);
  shared_secret_point p k := Z_to_little_endian 32 8 (p * k mod 2 ^ 256)
|}.

Lemma ideal_secp_laws : Secp256k1Laws (H := ideal_secp).
Proof.
  split.
  - intros p. cbn. by rewrite length_reverse.
  - intros k. unfold secp_from_slice, secp_serialize, secp_public_key, ideal_secp.
    cbn [tail]. unfold be_val, le_val. rewrite reverse_involutive.
    rewrite little_endian_to_Z_to_little_endian by lia. f_equal. by apply Z.mod_mod.
  - intros a b. unfold shared_secret_point, secp_public_key, ideal_secp.
    rewrite !Zmult_mod_idemp_l. by rewrite Z.mul_comm.
Qed.

Section witnesses.
#[local] Existing Instances ideal_secp ideal_secp_laws ideal_aes ideal_aes_laws.

Lemma elgamal_roundtrip_witness :
  (exists ct,
    elgamal_encrypt 6 (replicate 12 7) [1; 2; 3] (secp_public_key 5) = Ok ct /\
    length (to_bytes ct) = 64%nat /\
    from_bytes (E:=AesError) (to_bytes ct) = Ok ct /\ elgamal_decrypt ct 5 = Ok [1; 2; 3]) /\
  forall bs, (length bs < 33)%nat -> exists p, from_bytes (E:=AesError) bs = Panic p.
Proof.
  apply (elgamal_roundtrip 5 6 (replicate 12 7) [1; 2; 3]).
  - rewrite length_replicate. lia.
  - unfold fits, AES_MAX. simpl. lia.
Defined.
End witnesses.
