(* ===== verification/Database.v ===== *)
(** * The contract database

    Models [src/node/db.rs]: the tables of the SQLite database and the statements
    that the task of [Database::new] executes.  The task takes one command at a
    time, so a call of the API is a function on the tables.  Columns hold the values
    that the source writes as hexadecimal, base64 or decimal text; commands are kept
    as their JSON text.  A statement fails when it violates a constraint or names a
    column or table that does not exist; failures of the disk are not modelled. *)

From S2P Require Import Prelude Network Scalars Blst BlstIdeal.

(** An [H160]. *)
Abbreviation Address := Z (only parsing).

(** ** Rows *)

Record Operator := mkOperator {
  op_id : Z;
  op_name : string;
  op_address : Address;
  op_public_key : bytes
}.

Record Validator := mkValidator {
  va_id : Z;
  va_owner_address : Address;
  va_public_key : bytes;
  va_releated_operators : list Z;
  va_active : bool
}.

Record Initiator := mkInitiator {
  ini_id : Z;
  ini_owner_address : Address;
  ini_releated_operators : list Z;
  ini_validator_pk : option bytes;
  ini_minipool_address : option Address
}.

(** The columns beside the key; [validator_pk] and [minipool_address] may be null. *)
Record validator_row := mkValidatorRow {
  vr_id : Z;
  vr_owner_address : Address;
  vr_active : bool
}.

Record initiator_row := mkInitiatorRow {
  ir_address : Address;
  ir_validator_pk : option bytes;
  ir_minipool_address : option Address
}.

Record command_row := mkCommandRow {
  cr_id : Z;
  cr_owner : Z;
  cr_sequence_num : Z;
  cr_command : string;
  cr_update_time : Z
}.

Record store_row := mkStoreRow {
  sr_id : Z;
  sr_initiator_id : Z;
  sr_share_bls_sk : bytes;
  sr_validator_pk : bytes
}.

Record oppk_row := mkOppkRow {
  or_operator_id : Z;
  or_share_bls_pk : bytes;
  or_record_id : Z
}.

(** What the code meets of SQLite: whether foreign keys are enforced, and the row
    that [order by .. asc limit 1] picks among the smallest ones. *)
Class Sqlite := {
  foreign_keys : bool;
  limit_1 : (command_row -> Z) -> list command_row -> option command_row
}.

Class SqliteLaws `{Sqlite} : Prop := {
  limit_1_none f l : limit_1 f l = None <-> l = [];
  limit_1_least f l r : limit_1 f l = Some r -> r ∈ l /\ forall r', r' ∈ l -> f r <= f r'
}.

Inductive DbError : Type := SqlInputError | InvalidColumnType.

(** The tables, and the next keys of those with [AUTOINCREMENT] that are read. *)
Record db := mkDb {
  operators : gmap Z Operator;
  validators : gmap bytes validator_row;
  validator_operators_mapping : list (bytes * Z);
  initiators : gmap Z initiator_row;
  initiator_operators_mapping : list (Z * Z);
  contract_commands : list command_row;
  next_command : Z;
  contract_cmd_sequence : gmap Z Z;
  initiator_store_record : list store_row;
  next_record : Z;
  initiator_store_record_oppk : list oppk_row
}.

Definition empty_db : db := mkDb ∅ ∅ [] ∅ [] [] 1 ∅ [] 1 [].

Definition set_operators (d : db) x : db :=
  mkDb x (validators d) (validator_operators_mapping d) (initiators d)
    (initiator_operators_mapping d) (contract_commands d) (next_command d)
    (contract_cmd_sequence d) (initiator_store_record d) (next_record d)
    (initiator_store_record_oppk d).
Definition set_validators (d : db) x m : db :=
  mkDb (operators d) x m (initiators d)
    (initiator_operators_mapping d) (contract_commands d) (next_command d)
    (contract_cmd_sequence d) (initiator_store_record d) (next_record d)
    (initiator_store_record_oppk d).
Definition set_initiators (d : db) x m : db :=
  mkDb (operators d) (validators d) (validator_operators_mapping d) x m
    (contract_commands d) (next_command d) (contract_cmd_sequence d)
    (initiator_store_record d) (next_record d) (initiator_store_record_oppk d).
Definition set_commands (d : db) l n s : db :=
  mkDb (operators d) (validators d) (validator_operators_mapping d) (initiators d)
    (initiator_operators_mapping d) l n s (initiator_store_record d) (next_record d)
    (initiator_store_record_oppk d).
Definition set_store (d : db) l n m : db :=
  mkDb (operators d) (validators d) (validator_operators_mapping d) (initiators d)
    (initiator_operators_mapping d) (contract_commands d) (next_command d)
    (contract_cmd_sequence d) l n m.

Section statements.
Context `{Sqlite}.

(** ** Operators *)

(** An operator with a known key is refused. *)
Definition insert_operator (d : db) (operator : Operator) : db :=
  match operators d !! op_id operator with
  | Some _ => d
  | None => set_operators d (<[op_id operator := operator]> (operators d))
  end.

(** [WHERE operator_id = ?1]: the table has no such column. *)
Definition delete_operator (d : db) (operator_id : Z) : db := d.

(** [FROM WHERE]: the statement names no table. *)
Definition query_operator_by_id (d : db) (operator_id : Z) : DbError + option Operator :=
  inl SqlInputError.

Definition query_operator_public_key_by_id (d : db) (operator_id : Z) : DbError + option bytes :=
  inr (op_public_key <$> operators d !! operator_id).

Definition query_operators_public_key_by_ids (d : db) (operator_ids : list Z)
  : outcome DbError (option (list bytes)) :=
  if bool_decide (operator_ids = []) then Panic "assertion failed: `(left != right)`"
  else
    match omap (fun id => op_public_key <$> operators d !! id) operator_ids with
    | [] => mret None
    | public_keys => mret (Some public_keys)
    end.

(** ** Validators *)

(** One row of the mapping, [None] when it violates a foreign key. *)
Definition insert_validator_mapping (d : db) (pk : bytes) (operator_id : Z) : option db :=
  if foreign_keys &&
     negb (bool_decide (is_Some (validators d !! pk)) &&
           bool_decide (is_Some (operators d !! operator_id)))
  then None
  else Some (set_validators d (validators d)
               (validator_operators_mapping d ++ [(pk, operator_id)])).

(** The loop over the operators: the transaction, and whether it is still committed. *)
Fixpoint validator_mapping_loop (tx : db) (pk : bytes) (commit : bool) (ids : list Z)
  : db * bool :=
  match ids with
  | [] => (tx, commit)
  | id :: ids =>
      match insert_validator_mapping tx pk id with
      | Some tx => validator_mapping_loop tx pk commit ids
      | None => (tx, false)
      end
  end.

Definition insert_validator (d : db) (validator : Validator) : db :=
  let pk := va_public_key validator in
  let '(tx, commit) :=
    match validators d !! pk with
    | Some _ => (d, false)
    | None =>
        (set_validators d
           (<[pk := mkValidatorRow (va_id validator) (va_owner_address validator) true]>
              (validators d)) (validator_operators_mapping d), true)
    end in
  let '(tx, commit) := validator_mapping_loop tx pk commit (va_releated_operators validator) in
  if commit then tx else d.

Definition delete_validator (d : db) (pk : bytes) : db :=
  set_validators d (delete pk (validators d))
    (if foreign_keys then filter (fun x => x.1 <> pk) (validator_operators_mapping d)
     else validator_operators_mapping d).

(** [where public_key = (?)]: the mapping has no such column. *)
Definition query_validator_by_public_key (d : db) (pk : bytes) : DbError + option Validator :=
  inl SqlInputError.

Definition query_all_validator_address (d : db) : DbError + list Address :=
  inr (remove_dups (map (fun x => vr_owner_address x.2) (map_to_list (validators d)))).

Definition query_validator_by_address (d : db) (address : Address) : DbError + list Validator :=
  inr (map (fun x => mkValidator (vr_id x.2) address x.1 [] (vr_active x.2))
         (filter (fun x => vr_owner_address x.2 = address) (map_to_list (validators d)))).

Definition set_active (d : db) (pk : bytes) (active : bool) : db :=
  set_validators d
    (alter (fun r => mkValidatorRow (vr_id r) (vr_owner_address r) active) pk (validators d))
    (validator_operators_mapping d).

Definition disable_validator (d : db) (pk : bytes) : db := set_active d pk false.
Definition enable_validator (d : db) (pk : bytes) : db := set_active d pk true.

Definition if_validator_active (d : db) (pk : bytes) : DbError + bool :=
  inr (match validators d !! pk with Some r => vr_active r | None => true end).

(** ** Initiators *)

Definition insert_initiator_mapping (d : db) (id operator_id : Z) : option db :=
  if foreign_keys &&
     negb (bool_decide (is_Some (initiators d !! id)) &&
           bool_decide (is_Some (operators d !! operator_id)))
  then None
  else Some (set_initiators d (initiators d)
               (initiator_operators_mapping d ++ [(id, operator_id)])).

(** A failure ends the loop, and what was inserted before it is committed. *)
Fixpoint initiator_mapping_loop (tx : db) (id : Z) (ids : list Z) : db :=
  match ids with
  | [] => tx
  | operator_id :: ids =>
      match insert_initiator_mapping tx id operator_id with
      | Some tx => initiator_mapping_loop tx id ids
      | None => tx
      end
  end.

Definition insert_initiator (d : db) (initiator : Initiator) : db :=
  let id := ini_id initiator in
  let d :=
    match initiators d !! id with
    | Some _ => d
    | None =>
        set_initiators d
          (<[id := mkInitiatorRow (ini_owner_address initiator) None None]> (initiators d))
          (initiator_operators_mapping d)
    end in
  initiator_mapping_loop d id (ini_releated_operators initiator).

(** The number of updated rows. *)
Definition update_initiator (d : db) (id : Z) (validator_pk : bytes) (minipool_address : Address)
  : db * (DbError + nat) :=
  match initiators d !! id with
  | Some r =>
      (set_initiators d
         (<[id := mkInitiatorRow (ir_address r) (Some validator_pk) (Some minipool_address)]>
            (initiators d)) (initiator_operators_mapping d), inr 1%nat)
  | None => (d, inr 0%nat)
  end.

(** [row.get::<String>] on a null column is an error; the text of an empty key is
    empty, and an address has forty digits. *)
Definition query_initiator (d : db) (id : Z) : DbError + option Initiator :=
  match initiators d !! id with
  | Some r =>
      match ir_validator_pk r, ir_minipool_address r with
      | Some validator_pk, Some minipool_address =>
          inr (Some (mkInitiator id (ir_address r) []
                 (if bool_decide (validator_pk = []) then None else Some validator_pk)
                 (Some minipool_address)))
      | _, _ => inl InvalidColumnType
      end
  | None => inr None
  end.

Definition query_initiator_releated_operator_pks (d : db) (id : Z)
  : DbError + (list bytes * list Z) :=
  let rows :=
    filter (fun x => (id, x.1) ∈ initiator_operators_mapping d) (map_to_list (operators d)) in
  inr (map (fun x => op_public_key x.2) rows, map fst rows).

Definition delete_initiator (d : db) (id : Z) : db * (DbError + option Initiator) :=
  match query_initiator d id with
  | inl e => (d, inl e)
  | inr (Some initiator) =>
      (set_initiators d (delete id (initiators d))
         (if foreign_keys then filter (fun x => x.1 <> id) (initiator_operators_mapping d)
          else initiator_operators_mapping d), inr (Some initiator))
  | inr None => (d, inr None)
  end.

(** ** Commands of the contract *)

(** [now] is [CURRENT_TIMESTAMP]. *)
Definition increase_va_sequence (d : db) (owner : Z) : db * Z :=
  let sequence_num := default 0 (contract_cmd_sequence d !! owner) in
  let sequence :=
    if sequence_num =? 0 then
      match contract_cmd_sequence d !! owner with
      | Some _ => contract_cmd_sequence d
      | None => <[owner := 1]> (contract_cmd_sequence d)
      end
    else <[owner := sequence_num + 1]> (contract_cmd_sequence d) in
  (set_commands d (contract_commands d) (next_command d) sequence, sequence_num + 1).

Definition insert_contract_command (now : Z) (d : db) (owner : Z) (command : string) : db :=
  let '(d, sequence_num) := increase_va_sequence d owner in
  set_commands d
    (contract_commands d ++ [mkCommandRow (next_command d) owner sequence_num command now])
    (next_command d + 1) (contract_cmd_sequence d).

Definition delete_contract_command (d : db) (id : Z) : db :=
  set_commands d (filter (fun r => cr_id r <> id) (contract_commands d)) (next_command d)
    (contract_cmd_sequence d).

(** [update .. set id = ?1 where id = ?1], whose trigger sets the time of the row. *)
Definition touch (now id : Z) (r : command_row) : command_row :=
  if cr_id r =? id
  then mkCommandRow (cr_id r) (cr_owner r) (cr_sequence_num r) (cr_command r) now
  else r.

Definition updatetime_contract_command (now : Z) (d : db) (id : Z) : db :=
  set_commands d (map (touch now id) (contract_commands d)) (next_command d)
    (contract_cmd_sequence d).

(** The command, or the empty text and the key 0. *)
Definition get_contract_command (now : Z) (d : db) : db * (string * Z) :=
  match limit_1 cr_update_time (contract_commands d) with
  | Some oldest =>
      match limit_1 cr_sequence_num
              (filter (fun r => cr_owner r = cr_owner oldest) (contract_commands d)) with
      | Some r => (updatetime_contract_command now d (cr_id r), (cr_command r, cr_id r))
      | None => (d, (""%string, 0))
      end
  | None => (d, (""%string, 0))
  end.
End statements.

(** ** Keys of an initiator *)

Section store.
Context `{Blst}.

Record InitiatorStoreRecord := mkRecord {
  rec_id : Z;
  rec_share_bls_sk : Z;
  rec_validator_pk : p1;
  rec_share_bls_pks : gmap Z p1
}.

Definition insert_initiator_store (d : db) (record : InitiatorStoreRecord) : db :=
  let id := next_record d in
  set_store d
    (initiator_store_record d ++
      [mkStoreRow id (rec_id record) (SecretKey_serialize (rec_share_bls_sk record))
         (PublicKey_serialize (rec_validator_pk record))])
    (id + 1)
    (initiator_store_record_oppk d ++
      map (fun x => mkOppkRow x.1 (PublicKey_serialize x.2) id)
        (map_to_list (rec_share_bls_pks record))).

(** The rows of the join. *)
Definition store_rows (d : db) (initiator_id : Z) : list (store_row * oppk_row) :=
  a ← filter (fun a => sr_initiator_id a = initiator_id) (initiator_store_record d);
  map (pair a) (filter (fun b => or_record_id b = sr_id a) (initiator_store_record_oppk d)).

(** A key is read from the first row only. *)
Definition once {A B} (o : option A) (read : B -> option A) (x : B) : outcome DbError (option A) :=
  match o with
  | Some a => mret (Some a)
  | None => a ← unwrap (read x); mret (Some a)
  end.

Fixpoint store_loop (rows : list (store_row * oppk_row)) (sk : option Z) (va_pk : option p1)
  (op_pks : gmap Z p1) : outcome DbError (option Z * option p1 * gmap Z p1) :=
  match rows with
  | [] => mret (sk, va_pk, op_pks)
  | (a, b) :: rows =>
      sk ← once sk SecretKey_deserialize (sr_share_bls_sk a);
      va_pk ← once va_pk PublicKey_deserialize (sr_validator_pk a);
      op_pk ← unwrap (PublicKey_deserialize (or_share_bls_pk b));
      store_loop rows sk va_pk (<[or_operator_id b := op_pk]> op_pks)
  end.

Definition query_initiator_store (d : db) (initiator_id : Z)
  : outcome DbError (option InitiatorStoreRecord) :=
  '(sk, va_pk, op_pks) ← store_loop (store_rows d initiator_id) None None ∅;
  match sk with
  | None => mret None
  | Some sk =>
      va_pk ← unwrap va_pk;
      mret (Some (mkRecord initiator_id sk va_pk op_pks))
  end.
End store.

(** ** The task and its API *)

Module Api.
Section api.
Context `{Sqlite} `{Blst}.

(** The commands that change the tables. *)
Inductive DbCommand : Type :=
| InsertOperator (operator : Operator)
| InsertValidator (validator : Validator)
| DeleteOperator (operator_id : Z)
| DeleteValidator (validator_pk : bytes)
| InsertInitiator (initiator : Initiator)
| UpdateInitiator (id : Z) (va_pk : bytes) (minipool_address : Address)
| DisableValidator (public_key : bytes)
| EnableValidator (public_key : bytes)
| InsertContractCommand (owner : Z) (command : string)
| GetContractCommand
| DeleteContractCommand (id : Z)
| UpdatetimeContractCommand (id : Z)
| DeleteInitiator (id : Z)
| InsertInitiatorStore (record : InitiatorStoreRecord).

(** A command of the task at the time [now]; the replies are those of the
    statements above. *)
Definition exec (now : Z) (d : db) (c : DbCommand) : db :=
  match c with
  | InsertOperator operator => insert_operator d operator
  | InsertValidator validator => insert_validator d validator
  | DeleteOperator operator_id => delete_operator d operator_id
  | DeleteValidator validator_pk => delete_validator d validator_pk
  | InsertInitiator initiator => insert_initiator d initiator
  | UpdateInitiator id va_pk minipool_address =>
      (update_initiator d id va_pk minipool_address).1
  | DisableValidator public_key => disable_validator d public_key
  | EnableValidator public_key => enable_validator d public_key
  | InsertContractCommand owner command =>
      insert_contract_command now d owner command
  | GetContractCommand => (get_contract_command now d).1
  | DeleteContractCommand id => delete_contract_command d id
  | UpdatetimeContractCommand id => updatetime_contract_command now d id
  | DeleteInitiator id => (delete_initiator d id).1
  | InsertInitiatorStore record => insert_initiator_store d record
  end.

Definition delete_contract_command (now : Z) (d : db) (id : Z) : db :=
  exec now d (DeleteContractCommand id).

(** [updatetime_contract_command] sends [DeleteContractCommand] as well. *)
Definition updatetime_contract_command (now : Z) (d : db) (id : Z) : db :=
  exec now d (DeleteContractCommand id).
End api.
End Api.

(** ** The queue of commands *)

Section queue.
Context `{SqliteLaws}.

(** Keys are distinct, and the rows of an owner are numbered in the order of their
    keys, below the number that the next one gets. *)
Record queue_wf (d : db) : Prop := {
  q_next : 1 <= next_command d;
  q_ids r : r ∈ contract_commands d -> 1 <= cr_id r < next_command d;
  q_nodup : NoDup (map cr_id (contract_commands d));
  q_order : ForallOrdPairs
    (fun r r' => cr_owner r = cr_owner r' -> cr_sequence_num r < cr_sequence_num r')
    (contract_commands d);
  q_bound r : r ∈ contract_commands d ->
    cr_sequence_num r <= default 0 (contract_cmd_sequence d !! cr_owner r);
  q_sequence v n : contract_cmd_sequence d !! v = Some n -> 1 <= n
}.

(** The commands of an owner that wait, in order. *)
Definition waiting (v : Z) (d : db) : list string :=
  map cr_command (filter (fun r => cr_owner r = v) (contract_commands d)).

Lemma queue_wf_empty : queue_wf empty_db.
Proof.
  split; simpl; try done; try lia; try constructor.
  all: intros; rewrite ?lookup_empty in *; try done; set_solver.
Qed.

Lemma insert_commands now d v c :
  exists n, default 0 (contract_cmd_sequence d !! v) < n /\
    contract_commands (insert_contract_command now d v c) =
      contract_commands d ++ [mkCommandRow (next_command d) v n c now].
Proof.
  unfold insert_contract_command, increase_va_sequence. simpl. eexists. split; [|reflexivity]. lia.
Qed.

Lemma waiting_insert now d v o c :
  waiting v (insert_contract_command now d o c) =
  waiting v d ++ (if bool_decide (o = v) then [c] else []).
Proof.
  destruct (insert_commands now d o c) as (n & _ & Hc). unfold waiting. rewrite Hc.
  rewrite filter_app, map_app. f_equal. rewrite filter_cons, filter_nil. simpl.
  destruct (decide (o = v)); case_bool_decide; done.
Qed.

Lemma queue_wf_insert now d v c :
  queue_wf d -> queue_wf (insert_contract_command now d v c).
Proof.
  intros Hwf. destruct (insert_commands now d v c) as (n & Hn & Hc).
  assert (default 0 (contract_cmd_sequence (insert_contract_command now d v c) !! v) = n /\
          forall w, w <> v ->
            contract_cmd_sequence (insert_contract_command now d v c) !! w =
            contract_cmd_sequence d !! w) as [Hs1 Hs2].
  { revert Hc. unfold insert_contract_command, increase_va_sequence. simpl.
    intros Hc%app_inj_tail. destruct Hc as [_ [= <-]].
    destruct (contract_cmd_sequence d !! v) as [m|] eqn:Hm; simpl.
    - pose proof (q_sequence d Hwf v m Hm). rewrite (proj2 (Z.eqb_neq m 0)) by lia.
      rewrite lookup_insert_eq. split; [done|]. intros w Hw. by rewrite lookup_insert_ne.
    - rewrite lookup_insert_eq. split; [done|]. intros w Hw. by rewrite lookup_insert_ne. }
  assert (0 < n) as Hpos.
  { destruct (contract_cmd_sequence d !! v) as [m|] eqn:Hm; simpl in Hn; [|lia].
    pose proof (q_sequence d Hwf v m Hm). lia. }
  split.
  - simpl. pose proof (q_next d Hwf). lia.
  - rewrite Hc. intros r [Hr| ->%list_elem_of_singleton]%elem_of_app; simpl.
    + pose proof (q_ids d Hwf r Hr). lia.
    + pose proof (q_next d Hwf). lia.
  - rewrite Hc, map_app. apply NoDup_app. split; [apply (q_nodup d Hwf)|].
    split; [|apply NoDup_singleton]. simpl.
    intros i (r & -> & Hr)%list_elem_of_fmap Hi%list_elem_of_singleton.
    pose proof (q_ids d Hwf r Hr). lia.
  - rewrite Hc. apply ForallOrdPairs_snoc; [apply (q_order d Hwf)|].
    apply Forall_forall. intros r Hr. simpl. intros Ho.
    pose proof (q_bound d Hwf r Hr) as Hb. rewrite Ho in Hb. lia.
  - rewrite Hc. intros r [Hr| ->%list_elem_of_singleton]%elem_of_app;
      [|cbn [cr_owner cr_sequence_num]; rewrite Hs1; lia].
    pose proof (q_bound d Hwf r Hr) as Hb.
    destruct (decide (cr_owner r = v)) as [Ho|Ho]; [rewrite Ho in Hb; rewrite Ho, Hs1; lia|].
    by rewrite Hs2.
  - intros w m. destruct (decide (w = v)) as [->|Hw]; [|rewrite Hs2 by done; apply (q_sequence d Hwf)].
    intros Hm. rewrite Hm in Hs1. simpl in Hs1. lia.
Qed.

(** Changing the time of a row changes nothing else. *)
Lemma touch_same now id r :
  cr_id (touch now id r) = cr_id r /\ cr_owner (touch now id r) = cr_owner r /\
  cr_sequence_num (touch now id r) = cr_sequence_num r /\
  cr_command (touch now id r) = cr_command r.
Proof. unfold touch. by destruct (cr_id r =? id). Qed.

Lemma touch_ids now id rows : map cr_id (map (touch now id) rows) = map cr_id rows.
Proof. rewrite map_map. apply map_ext. intros r. apply touch_same. Qed.

Lemma queue_wf_touch now id d :
  queue_wf d -> queue_wf (updatetime_contract_command now d id).
Proof.
  intros Hwf.
  assert (forall r, r ∈ map (touch now id) (contract_commands d) ->
    exists r0, r0 ∈ contract_commands d /\ r = touch now id r0) as Hin.
  { intros r (r0 & -> & Hr0)%list_elem_of_fmap. eauto. }
  split; simpl.
  - apply (q_next d Hwf).
  - intros r (r0 & Hr & ->)%Hin. destruct (touch_same now id r0) as (-> & _). by apply q_ids.
  - rewrite touch_ids. apply (q_nodup d Hwf).
  - pose proof (q_order d Hwf) as Ho. clear Hin Hwf.
    induction Ho as [|r l Hr _ IH]; simpl; constructor; [|done].
    rewrite Forall_forall in Hr |- *. intros x (y & -> & Hy)%list_elem_of_fmap.
    destruct (touch_same now id r) as (_ & -> & -> & _).
    destruct (touch_same now id y) as (_ & -> & -> & _). by apply Hr.
  - intros r (r0 & Hr & ->)%Hin. destruct (touch_same now id r0) as (_ & -> & -> & _).
    by apply q_bound.
  - apply (q_sequence d Hwf).
Qed.

Lemma waiting_touch v now id d :
  waiting v (updatetime_contract_command now d id) = waiting v d.
Proof.
  unfold waiting. simpl. induction (contract_commands d) as [|r l IH]; [done|].
  rewrite map_cons, !filter_cons.
  destruct (touch_same now id r) as (_ & Ho & _ & Hc).
  rewrite (decide_ext (cr_owner (touch now id r) = v) (cr_owner r = v)) by (by rewrite Ho).
  destruct (decide (cr_owner r = v)); simpl; [|done]. by rewrite Hc, IH.
Qed.

(** The command that is handed out is the first of its owner. *)
Lemma get_first now d :
  queue_wf d -> contract_commands d <> [] ->
  exists r pre post,
    contract_commands d = pre ++ r :: post /\ (forall x, x ∈ pre -> cr_owner x <> cr_owner r) /\
    get_contract_command now d =
      (updatetime_contract_command now d (cr_id r), (cr_command r, cr_id r)).
Proof.
  intros Hwf Hne. unfold get_contract_command.
  destruct (limit_1 cr_update_time _) as [o|] eqn:Ho; [|by apply limit_1_none in Ho].
  apply limit_1_least in Ho as [Ho _].
  set (own := filter _ _). assert (o ∈ own) as Hown by (apply list_elem_of_filter; done).
  destruct (limit_1 cr_sequence_num own) as [r|] eqn:Hr.
  2:{ apply limit_1_none in Hr. rewrite Hr in Hown. by apply not_elem_of_nil in Hown. }
  apply limit_1_least in Hr as [[Hor Hr]%list_elem_of_filter Hleast].
  destruct (list_elem_of_split _ _ Hr) as (pre & post & Hs).
  exists r, pre, post. split; [done|]. split; [|done]. intros x Hx Hox.
  pose proof (q_order d Hwf) as Hord. rewrite Hs in Hord.
  pose proof (ForallOrdPairs_app_cons _ _ _ _ _ Hord Hx Hox).
  assert (x ∈ own) as Hxo.
  { apply list_elem_of_filter. split; [congruence|]. rewrite Hs. apply elem_of_app. by left. }
  pose proof (Hleast x Hxo). lia.
Qed.

Lemma get_none now d : contract_commands d = [] -> get_contract_command now d = (d, (""%string, 0)).
Proof.
  intros Hd. unfold get_contract_command. rewrite Hd.
  by rewrite (proj2 (limit_1_none cr_update_time []) eq_refl).
Qed.

(** Deleting a row by its key. *)
Lemma delete_row d r pre post :
  queue_wf d -> contract_commands d = pre ++ r :: post ->
  contract_commands (delete_contract_command d (cr_id r)) = pre ++ post.
Proof.
  intros Hwf Hs. simpl. pose proof (q_nodup d Hwf) as Hnd. rewrite Hs in Hnd |- *.
  rewrite map_app, map_cons in Hnd. apply NoDup_app in Hnd as (_ & Hpre & [Hr _]%NoDup_cons).
  rewrite filter_app, filter_cons, decide_False by (by intros []).
  rewrite !list_filter_all; [done| |].
  - intros x Hx He. apply Hr. rewrite <- He. by apply list_elem_of_fmap_2.
  - intros x Hx He. apply (Hpre (cr_id x)); [by apply list_elem_of_fmap_2|].
    rewrite He. apply list_elem_of_here.
Qed.

Lemma queue_wf_delete d id : queue_wf d -> queue_wf (delete_contract_command d id).
Proof.
  intros Hwf. split; simpl.
  - apply (q_next d Hwf).
  - intros r [_ Hr]%list_elem_of_filter. by apply q_ids.
  - apply (sublist_NoDup _ (map cr_id (contract_commands d))); [apply (q_nodup d Hwf)|].
    apply (fmap_sublist cr_id), sublist_filter.
  - pose proof (q_order d Hwf) as Ho. clear Hwf. induction Ho as [|r l Hr _ IH]; [constructor|].
    rewrite filter_cons. destruct (decide _); [|done]. constructor; [|done].
    rewrite Forall_forall in Hr |- *. intros x [_ Hx]%list_elem_of_filter. by apply Hr.
  - intros r [_ Hr]%list_elem_of_filter. by apply q_bound.
  - apply (q_sequence d Hwf).
Qed.

Lemma waiting_delete d r pre post v :
  queue_wf d -> contract_commands d = pre ++ r :: post ->
  (forall x, x ∈ pre -> cr_owner x <> cr_owner r) ->
  waiting v d =
    (if bool_decide (cr_owner r = v) then [cr_command r] else []) ++
    waiting v (delete_contract_command d (cr_id r)).
Proof.
  intros Hwf Hs Hpre. unfold waiting. rewrite (delete_row d r pre post Hwf Hs), Hs.
  rewrite !filter_app, filter_cons. case_bool_decide as Hv.
  - rewrite decide_True by done. rewrite (list_filter_none _ pre); [done|].
    intros x Hx Hxv. apply (Hpre x Hx). congruence.
  - by rewrite decide_False.
Qed.
End queue.

(** ** The keys of an initiator are read back *)

Section store_facts.
Context `{BlstLaws}.

(** The keys of the records are below the next one. *)
Definition store_wf (d : db) : Prop :=
  (forall a, a ∈ initiator_store_record d -> sr_id a < next_record d) /\
  (forall b, b ∈ initiator_store_record_oppk d -> or_record_id b < next_record d).

Definition public_key_ok (p : p1) : Prop := torsion p /\ p <> g0.

Lemma store_wf_insert d r : store_wf d -> store_wf (insert_initiator_store d r).
Proof.
  intros [Ha Hb]. split; simpl.
  - intros a [Hin| ->%list_elem_of_singleton]%elem_of_app; [|simpl; lia].
    pose proof (Ha a Hin). lia.
  - intros b [Hin|(x & -> & _)%list_elem_of_fmap]%elem_of_app; [|simpl; lia].
    pose proof (Hb b Hin). lia.
Qed.

Lemma store_rows_other d r id :
  store_wf d -> id <> rec_id r -> store_rows (insert_initiator_store d r) id = store_rows d id.
Proof.
  intros [Ha _] Hid. unfold store_rows. simpl.
  rewrite filter_app, filter_cons, decide_False, filter_nil, app_nil_r by (simpl; congruence).
  apply Forall_bind_ext, Forall_forall. intros a [_ Hin]%list_elem_of_filter. f_equal.
  rewrite filter_app, (list_filter_none _ (map _ _)), app_nil_r; [done|].
  intros b (x & -> & _)%list_elem_of_fmap. simpl. pose proof (Ha a Hin). lia.
Qed.

Lemma store_rows_new d r :
  store_wf d -> (forall a, a ∈ initiator_store_record d -> sr_initiator_id a <> rec_id r) ->
  exists a, sr_share_bls_sk a = SecretKey_serialize (rec_share_bls_sk r) /\
    sr_validator_pk a = PublicKey_serialize (rec_validator_pk r) /\
    store_rows (insert_initiator_store d r) (rec_id r) =
      map (fun x => (a, mkOppkRow x.1 (PublicKey_serialize x.2) (next_record d)))
        (map_to_list (rec_share_bls_pks r)).
Proof.
  intros [_ Hb] Hfresh. unfold store_rows. simpl.
  rewrite filter_app, (list_filter_none _ (initiator_store_record d)) by done.
  rewrite filter_cons, decide_True by done. rewrite filter_nil. simpl. rewrite app_nil_r.
  eexists. split; [|split].
  3:{ rewrite filter_app, (list_filter_none _ (initiator_store_record_oppk d)).
      - rewrite list_filter_all; [by rewrite app_nil_l, map_map|].
        by intros b (x & -> & _)%list_elem_of_fmap.
      - intros b Hin Heq. pose proof (Hb b Hin). lia. }
  all: done.
Qed.

Lemma foldl_insert_all (l : list (Z * p1)) (m : gmap Z p1) :
  NoDup l.*1 -> foldl (fun m x => <[x.1 := x.2]> m) m l = list_to_map l ∪ m.
Proof.
  revert m. induction l as [|[k v] l IH]; intros m Hnd; simpl; [by rewrite (left_id_L ∅ _)|].
  apply NoDup_cons in Hnd as [Hk Hnd]. rewrite (IH _ Hnd).
  rewrite <- insert_union_r; [by rewrite insert_union_l|]. by apply not_elem_of_list_to_map_1.
Qed.

Lemma store_loop_rows a n l sk pk m :
  SecretKey_deserialize (sr_share_bls_sk a) = Some sk ->
  PublicKey_deserialize (sr_validator_pk a) = Some pk ->
  (forall x, x ∈ l -> public_key_ok x.2) ->
  forall sk0 pk0, (sk0 = None \/ sk0 = Some sk) -> (pk0 = None \/ pk0 = Some pk) ->
  store_loop (map (fun x => (a, mkOppkRow x.1 (PublicKey_serialize x.2) n)) l) sk0 pk0 m =
  Ok (match l with [] => (sk0, pk0) | _ => (Some sk, Some pk) end,
      foldl (fun m x => <[x.1 := x.2]> m) m l).
Proof.
  intros Hsk Hpk. revert m. induction l as [|[i p] l IH]; intros m Hl sk0 pk0 H1' H2'; [done|].
  cbn [map store_loop foldl fst snd or_operator_id or_share_bls_pk].
  destruct (Hl (i, p)) as [Ht Hn]; [apply list_elem_of_here|]. cbn [snd] in Ht, Hn.
  assert (once sk0 SecretKey_deserialize (sr_share_bls_sk a) = Ok (Some sk)) as ->.
  { destruct H1' as [->| ->]; [|done]. unfold once. by rewrite Hsk. }
  assert (once pk0 PublicKey_deserialize (sr_validator_pk a) = Ok (Some pk)) as ->.
  { destruct H2' as [->| ->]; [|done]. unfold once. by rewrite Hpk. }
  rewrite public_roundtrip by done. cbn [mbind outcome_bind unwrap].
  rewrite IH; [by destruct l| |by right|by right].
  intros x Hx. apply Hl. by apply list_elem_of_further.
Qed.

(** The keys that a node keeps for an initiator after the key generation are read
    back as they were stored, and the keys of other initiators are not touched. *)
Lemma initiator_keys_stored d r :
  store_wf d -> (forall a, a ∈ initiator_store_record d -> sr_initiator_id a <> rec_id r) ->
  is_secret (rec_share_bls_sk r) -> public_key_ok (rec_validator_pk r) ->
  rec_share_bls_pks r <> ∅ -> (forall i p, rec_share_bls_pks r !! i = Some p -> public_key_ok p) ->
  store_wf (insert_initiator_store d r) /\
  query_initiator_store (insert_initiator_store d r) (rec_id r) = Ok (Some r) /\
  forall id, id <> rec_id r ->
    query_initiator_store (insert_initiator_store d r) id = query_initiator_store d id.
Proof.
  intros Hwf Hfresh Hsk [Ht Hn] Hne Hpks. split; [by apply store_wf_insert|]. split.
  - destruct (store_rows_new d r Hwf Hfresh) as (a & Ha1 & Ha2 & Hrows).
    unfold query_initiator_store. rewrite Hrows.
    rewrite (store_loop_rows a _ _ (rec_share_bls_sk r) (rec_validator_pk r));
      [|rewrite Ha1; by apply secret_roundtrip|rewrite Ha2; by apply public_roundtrip| |by left|by left].
    + rewrite foldl_insert_all by apply NoDup_fst_map_to_list.
      rewrite list_to_map_to_list, (right_id_L ∅ _).
      destruct (map_to_list (rec_share_bls_pks r)) as [|x l] eqn:Hl.
      { by apply map_to_list_empty_iff in Hl. }
      by destruct r.
    + intros [i p] Hx%elem_of_map_to_list. by apply (Hpks i).
  - intros id Hid. unfold query_initiator_store. by rewrite store_rows_other.
Qed.
End store_facts.

(** ** A concrete database engine, for the witnesses *)

(** The first of the smallest rows. *)
Fixpoint first_least (f : command_row -> Z) (l : list command_row) : option command_row :=
  match l with
  | [] => None
  | r :: l =>
      match first_least f l with
      | Some r' => if f r <=? f r' then Some r else Some r'
      | None => Some r
      end
  end.

Definition ideal_sqlite : Sqlite := {| foreign_keys := true; limit_1 := first_least |}.

Lemma ideal_sqlite_laws : SqliteLaws (H := ideal_sqlite).
Proof.
  split.
  - intros f l. cbn. destruct l as [|r l]; [done|]. simpl.
    destruct (first_least f l) as [r'|]; [|done]. by destruct (f r <=? f r').
  - cbn. intros f l. induction l as [|r l IH]; [done|]. intros x. simpl.
    destruct (first_least f l) as [r'|] eqn:Hl.
    + destruct (IH r' eq_refl) as [Hin Hle]. destruct (Z.leb_spec (f r) (f r')); intros [= <-].
      * split; [apply list_elem_of_here|]. intros y [->|Hy]%elem_of_cons; [lia|].
        pose proof (Hle y Hy). lia.
      * split; [by apply list_elem_of_further|]. intros y [->|Hy]%elem_of_cons; [lia|].
        by apply Hle.
    + intros [= <-]. split; [apply list_elem_of_here|].
      destruct l as [|z l]; [by intros y ->%list_elem_of_singleton|]. simpl in Hl.
      destruct (first_least f l); [|done]. by destruct (f z <=? _).
Qed.

Section witnesses.
#[local] Existing Instances ideal_blst ideal_blst_laws.

Lemma demo_key_ok k : 0 < k < 100 -> public_key_ok (gmul k ffi_p1_generator).
Proof.
  intros Hk. split; [apply gmul_torsion, generator_order|].
  apply generator_mul_nonzero. unfold is_secret. pose proof modulus_bits. lia.
Qed.
End witnesses.
