(* ===== verification/Contract.v ===== *)
(** * Events of the contract

    Models [src/node/contract.rs]: the handlers of the events of the SafeStake
    contracts, which fill the database and the queue of commands, the loop that asks
    an Ethereum node for new events, and the watch over paid accounts.  The Ethereum
    node and the decoding of events by [ethabi] are parameters. *)

From S2P Require Import Prelude Network Scalars Blst Database.

(** ** Commands and errors *)

Inductive ContractError : Type :=
| StoreError
| Web3Error
| BlockNumberError
| LogError
| RecordFileError
| LogParseError
| NoEnoughOperatorError
| DatabaseError
| InvalidArgumentError
| FileError
| ContractParseError
| QueryError.

Inductive ContractCommand : Type :=
| StartValidator (validator : Validator) (operator_pks shared_pks encrypted_sks : list bytes)
| RemoveValidator (validator : Validator)
| ActivateValidator (validator : Validator)
| StopValidator (validator : Validator)
| StartInitiator (initiator : Initiator) (operator_pks : list bytes)
| MiniPoolCreated (id : Z) (validator_pk : bytes) (operator_pks : list bytes)
    (operator_ids : list Z) (minipool_address : Address)
| MiniPoolReady (id : Z) (validator_pk : bytes) (operator_pks : list bytes)
    (operator_ids : list Z) (minipool_address : Address)
| RemoveInitiator (initiator : Initiator) (operator_pks : list bytes).

(** ** Logs *)

(** A value of [ethabi]. *)
Inductive Token : Type :=
| TokAddress (a : Address)
| TokBytes (b : bytes)
| TokUint (n : Z)
| TokArray (l : list Token)
| TokOther.

Definition into_address (t : Token) : option Address :=
  match t with TokAddress a => Some a | _ => None end.
Definition into_bytes (t : Token) : option bytes :=
  match t with TokBytes b => Some b | _ => None end.
Definition into_uint (t : Token) : option Z :=
  match t with TokUint n => Some n | _ => None end.
Definition into_array (t : Token) : option (list Token) :=
  match t with TokArray l => Some l | _ => None end.

Inductive ParamType : Type := PAddress | PBytes | PUint (bits : Z) | PArray (p : ParamType).

Record Event := mkEvent { ev_name : string; ev_inputs : list (string * ParamType * bool) }.

Record Log := mkLog { log_block_number : option Z; log_topics : list Z; log_data : bytes }.

(** [Event::parse_log], and the JSON text of a command. *)
Class Web3 := {
  parse_log : Event -> list Z -> bytes -> option (list Token);
  to_json : ContractCommand -> string;
  from_json : string -> option ContractCommand
}.

Class Web3Laws `{Web3} : Prop := {
  from_to_json c : from_json (to_json c) = Some c
}.

Definition validator_reg_event : Event :=
  mkEvent "ValidatorRegistration"
    [("ownerAddress"%string, PAddress, true); ("publicKey"%string, PBytes, false);
     ("operatorIds"%string, PArray (PUint 32), false);
     ("sharesPublicKeys"%string, PArray PBytes, false);
     ("encryptedKeys"%string, PArray PBytes, false);
     ("paidBlockNumber"%string, PUint 256, false)].
Definition validator_rm_event : Event :=
  mkEvent "ValidatorRemoval"
    [("ownerAddress"%string, PAddress, true); ("publicKey"%string, PBytes, false)].
Definition ini_reg_event : Event :=
  mkEvent "InitiatorRegistration"
    [("initiatorId"%string, PUint 32, false); ("ownerAddress"%string, PAddress, false);
     ("operatorIds"%string, PArray (PUint 32), false)].
Definition ini_rm_event : Event :=
  mkEvent "InitiatorRemoval" [("initiatorId"%string, PUint 32, false)].
Definition minipool_created_event : Event :=
  mkEvent "InitiatorMiniPoolCreated"
    [("initiatorId"%string, PUint 32, false); ("validatorPublicKey"%string, PBytes, false);
     ("minipoolAddress"%string, PAddress, false)].
Definition minipool_ready_event : Event :=
  mkEvent "InitiatorMiniPoolReady" [("initiatorId"%string, PUint 32, false)].

(** [src/node/utils.rs]: the first eight bytes of the key; a shorter key panics. *)
Definition convert_va_pk_to_u64 {E} (pk : bytes) : outcome E Z :=
  if (length pk <? 8)%nat then Panic "index out of bounds" else Ok (le_val (take 8 pk)).

(** [U256::as_u32] and [U256::as_u64]. *)
Definition as_u32 {E} (n : Z) : outcome E Z :=
  if n <=? u32_max then Ok n else Panic "Integer overflow when casting to u32".
Definition as_u64 {E} (n : Z) : outcome E Z :=
  if n <=? u64_max then Ok n else Panic "Integer overflow when casting to u64".

Section contract.
Context `{Sqlite} `{Web3}.

(** A handler changes the database. *)
Abbreviation handler := (prog db ContractError).

(** [.ok_or(e)?] and [.unwrap()]. *)
Definition ok_or {A} (o : option A) (e : ContractError) : handler A :=
  match o with Some a => mret a | None => fail e end.

(** [log.params[i].value] *)
Definition param (params : list Token) (i : nat) : handler Token :=
  lift (unwrap (params !! i)).

Definition parse (e : Event) (raw : Log) : handler (list Token) :=
  ok_or (parse_log e (log_topics raw) (log_data raw)) LogParseError.

(** The ids of an array of operators. *)
Definition operator_id_of (t : Token) : outcome ContractError Z :=
  n ← unwrap (into_uint t); as_u32 n.
Definition operator_ids_of (ts : list Token) : outcome ContractError (list Z) :=
  mapM operator_id_of ts.

Definition parse_bytes_token (t : Token) : outcome ContractError (list bytes) :=
  match into_array t with
  | None => Err LogParseError
  | Some ts => mapM (fun t => unwrap (into_bytes t)) ts
  end.

(** [query id] is what the registry contract answers for an operator. *)
Definition query_operator_from_contract (query : Z -> option (string * Address * bytes)) (id : Z)
  : handler Operator :=
  match query id with
  | Some (name, address, pk) => mret (mkOperator id name address pk)
  | None => fail QueryError
  end.

(** The keys of the operators, from the database or else from the contract. *)
Fixpoint operator_keys (query : Z -> option (string * Address * bytes)) (op_ids : list Z)
  : handler (list bytes) :=
  match op_ids with
  | [] => mret []
  | op_id :: op_ids =>
      d ← get;
      pk ← match query_operator_public_key_by_id d op_id with
           | inl _ => fail DatabaseError
           | inr (Some pk) => mret pk
           | inr None =>
               operator ← query_operator_from_contract query op_id;
               modify (fun d => insert_operator d operator);;
               mret (op_public_key operator)
           end;
      pks ← operator_keys query op_ids;
      mret (pk :: pks)
  end.

Definition insert_command (now : Z) (owner : Z) (cmd : ContractCommand) : handler () :=
  modify (fun d => insert_contract_command now d owner (to_json cmd)).

(** ** The handlers *)

Definition process_validator_registration (now : Z) (operator_pk : bytes)
  (query : Z -> option (string * Address * bytes)) (raw : Log) : handler () :=
  params ← parse validator_reg_event raw;
  p0 ← param params 0; address ← ok_or (into_address p0) LogParseError;
  p1 ← param params 1; va_pk ← ok_or (into_bytes p1) LogParseError;
  validator_id ← lift (convert_va_pk_to_u64 va_pk);
  p2 ← param params 2; operator_tokens ← ok_or (into_array p2) LogParseError;
  op_ids ← lift (operator_ids_of operator_tokens);
  operator_pks ← operator_keys query op_ids;
  if bool_decide (operator_pk ∈ operator_pks) then
    p3 ← param params 3; shared_pks ← lift (parse_bytes_token p3);
    p4 ← param params 4; encrypted_sks ← lift (parse_bytes_token p4);
    p5 ← param params 5; paid ← ok_or (into_uint p5) LogParseError;
    lift (as_u64 paid);;
    if bool_decide (length shared_pks = length encrypted_sks) then
      let validator := mkValidator validator_id address va_pk op_ids true in
      modify (fun d => insert_validator d validator);;
      insert_command now validator_id
        (StartValidator validator operator_pks shared_pks encrypted_sks)
    else fail InvalidArgumentError
  else mret ().

Definition process_validator_removal (now : Z) (raw : Log) : handler () :=
  params ← parse validator_rm_event raw;
  p0 ← param params 0; owner_address ← ok_or (into_address p0) LogParseError;
  p1 ← param params 1; va_pk ← ok_or (into_bytes p1) LogParseError;
  id ← lift (convert_va_pk_to_u64 va_pk);
  insert_command now id (RemoveValidator (mkValidator id owner_address va_pk [] true)).

Definition process_initiator_registration (now : Z) (operator_pk : bytes)
  (query : Z -> option (string * Address * bytes)) (raw : Log) : handler () :=
  params ← parse ini_reg_event raw;
  p0 ← param params 0; n ← ok_or (into_uint p0) LogParseError; id ← lift (as_u32 n);
  p1 ← param params 1; address ← ok_or (into_address p1) LogParseError;
  p2 ← param params 2; operator_tokens ← ok_or (into_array p2) LogParseError;
  op_ids ← lift (operator_ids_of operator_tokens);
  operator_pks ← operator_keys query op_ids;
  if bool_decide (operator_pk ∈ operator_pks) then
    let initiator := mkInitiator id address op_ids None None in
    modify (fun d => insert_initiator d initiator);;
    insert_command now id (StartInitiator initiator operator_pks)
  else mret ().

(** [?] on a result of the database. *)
Definition db_result {A} (r : DbError + A) : handler A :=
  match r with inl _ => fail DatabaseError | inr a => mret a end.

Definition process_initiator_removal (now : Z) (raw : Log) : handler () :=
  params ← parse ini_rm_event raw;
  p0 ← param params 0; n ← ok_or (into_uint p0) LogParseError; id ← lift (as_u32 n);
  d ← get; initiator ← db_result (query_initiator d id);
  match initiator with
  | Some initiator =>
      match ini_validator_pk initiator with
      | None => fail DatabaseError
      | Some _ =>
          d ← get; keys ← db_result (query_initiator_releated_operator_pks d id);
          insert_command now id (RemoveInitiator initiator keys.1)
      end
  | None => fail DatabaseError
  end.

Definition process_minipool_created (now : Z) (raw : Log) : handler () :=
  params ← parse minipool_created_event raw;
  p0 ← param params 0; n ← ok_or (into_uint p0) LogParseError; id ← lift (as_u32 n);
  p1 ← param params 1; va_pk ← ok_or (into_bytes p1) LogParseError;
  p2 ← param params 2; minipool_address ← ok_or (into_address p2) LogParseError;
  d ← get;
  let '(d', result) := update_initiator d id va_pk minipool_address in
  modify (fun _ => d');;
  updated ← db_result result;
  if bool_decide (updated <> 0%nat) then
    d ← get; keys ← db_result (query_initiator_releated_operator_pks d id);
    insert_command now id (MiniPoolCreated id va_pk keys.1 keys.2 minipool_address)
  else mret ().

Definition process_minipool_ready (now : Z) (raw : Log) : handler () :=
  params ← parse minipool_ready_event raw;
  p0 ← param params 0; n ← ok_or (into_uint p0) LogParseError; id ← lift (as_u32 n);
  d ← get; initiator ← db_result (query_initiator d id);
  match initiator with
  | Some initiator =>
      validator_pk ← ok_or (ini_validator_pk initiator) DatabaseError;
      minipool_address ← ok_or (ini_minipool_address initiator) DatabaseError;
      d ← get; keys ← db_result (query_initiator_releated_operator_pks d id);
      insert_command now id (MiniPoolReady id validator_pk keys.1 keys.2 minipool_address)
  | None => mret ()
  end.

(** ** Topics *)

Record ContractConfig := mkConfig {
  validator_registration_topic : Z;
  validator_removal_topic : Z;
  initiator_registration_topic : Z;
  initiator_minipool_created_topic : Z;
  initiator_minipool_ready_topic : Z;
  initiator_removal_topic : Z
}.

Inductive TopicHandler : Type :=
| ValidatorRegistrationHandler
| ValidatorRemovalHandler
| InitiatorRegistrationHandler
| MinipoolCreatedHandler
| MinipoolReadyHandler
| InitiatorRemovalHandler.

(** The handlers that [construct_filter] enters; the filters take the first two
    topics from the network contract and the others from the registry. *)
Definition handlers (c : ContractConfig) : gmap Z TopicHandler :=
  <[initiator_removal_topic c := InitiatorRemovalHandler]>
  (<[initiator_minipool_ready_topic c := MinipoolReadyHandler]>
  (<[initiator_minipool_created_topic c := MinipoolCreatedHandler]>
  (<[initiator_registration_topic c := InitiatorRegistrationHandler]>
  (<[validator_removal_topic c := ValidatorRemovalHandler]>
  (<[validator_registration_topic c := ValidatorRegistrationHandler]> ∅))))).

Definition process (now : Z) (operator_pk : bytes)
  (query : Z -> option (string * Address * bytes)) (h : TopicHandler) (raw : Log) : handler () :=
  match h with
  | ValidatorRegistrationHandler => process_validator_registration now operator_pk query raw
  | ValidatorRemovalHandler => process_validator_removal now raw
  | InitiatorRegistrationHandler => process_initiator_registration now operator_pk query raw
  | MinipoolCreatedHandler => process_minipool_created now raw
  | MinipoolReadyHandler => process_minipool_ready now raw
  | InitiatorRemovalHandler => process_initiator_removal now raw
  end.

(** ** The loop over new events *)

Definition block_of (l : Log) : Z := default 0 (log_block_number l).

(** [sort_by] on the block number is stable. *)
Fixpoint insert_log (x : Log) (l : list Log) : list Log :=
  match l with
  | [] => [x]
  | y :: l' => if block_of x <=? block_of y then x :: l else y :: insert_log x l'
  end.
Definition sort_logs (l : list Log) : list Log := foldr insert_log [] l.

(** A filter of the addresses and topics of one contract: the first block and the
    limit on the number of logs. *)
Record Filter := mkFilter { from_block : Z; filter_limit : Z }.

(** What a round meets: the answers of the Ethereum node to the two requests for logs
    and, later, for the current block, [None] for an error, and whether the record can
    be written to its file. *)
Record answers := mkAnswers {
  va_logs : Filter -> option (list Log);
  initiator_logs : Filter -> option (list Log);
  current_block : option Z;
  record_written : bool
}.

(** What the handler of a log meets: the time, and the registry contract. *)
Record conditions := mkConditions {
  env_now : Z;
  env_query : Z -> option (string * Address * bytes)
}.

Record Contract := mkContract { block_num : Z; database : db }.

(** The filters of a round, and the logs of both. *)
Definition log_filter (block_num : Z) : Filter := mkFilter block_num 20.
Definition asked_logs (block_num : Z) (a : answers) : list Log :=
  default [] (va_logs a (log_filter block_num)) ++
  default [] (initiator_logs a (log_filter block_num)).

(** An error is only reported. *)
Definition reported (m : handler ()) : handler () := fun d =>
  match m d with
  | (Err _, d) => (Ok (), d)
  | r => r
  end.

(** The handler of a log. *)
Definition handle_log (config : ContractConfig) (operator_pk : bytes) (env : Log -> conditions)
  (raw : Log) : handler () :=
  topic ← lift (unwrap (log_topics raw !! 0%nat));
  match handlers config !! topic with
  | Some h =>
      reported (process (env_now (env raw)) operator_pk (env_query (env raw)) h raw)
  | None => mret ()
  end.

Fixpoint handle_logs (config : ContractConfig) (operator_pk : bytes) (env : Log -> conditions)
  (logs : list Log) : handler () :=
  match logs with
  | [] => mret ()
  | raw :: logs => handle_log config operator_pk env raw;; handle_logs config operator_pk env logs
  end.

(** The loop over the sorted logs moves the block number before each handler. *)
Fixpoint logs_loop (config : ContractConfig) (operator_pk : bytes) (env : Log -> conditions)
  (logs : list Log) (c : Contract) : outcome ContractError () * Contract :=
  match logs with
  | [] => (Ok (), c)
  | raw :: logs =>
      let block_num := u64 (block_of raw + 1) in
      match handle_log config operator_pk env raw (database c) with
      | (Ok _, d) => logs_loop config operator_pk env logs (mkContract block_num d)
      | (r, d) => (r, mkContract block_num d)
      end
  end.

(** [update_record_file], whose error is unwrapped. *)
Definition update_record_file (a : answers) (r : outcome ContractError () * Contract)
  : outcome ContractError () * Contract :=
  match r with
  | (Ok _, c) =>
      if record_written a then (Ok (), c)
      else (Panic "called `Result::unwrap()` on an `Err` value", c)
  | r => r
  end.

(** A round of [get_logs_from_contract]. *)
Definition round (config : ContractConfig) (operator_pk : bytes) (env : Log -> conditions)
  (a : answers) (c : Contract) : outcome ContractError () * Contract :=
  let all_logs := asked_logs (block_num c) a in
  update_record_file a
    (if bool_decide (all_logs = []) then
       (Ok (), mkContract (default (block_num c) (current_block a)) (database c))
     else if forallb (fun l => bool_decide (is_Some (log_block_number l))) all_logs then
       logs_loop config operator_pk env (sort_logs all_logs) c
     else (Panic "called `Option::unwrap()` on a `None` value", c)).

Fixpoint rounds (config : ContractConfig) (operator_pk : bytes) (env : Log -> conditions)
  (l : list answers) (c : Contract) : outcome ContractError () * Contract :=
  match l with
  | [] => (Ok (), c)
  | a :: l =>
      match round config operator_pk env a c with
      | (Ok _, c) => rounds config operator_pk env l c
      | r => r
      end
  end.

(** ** Paid accounts *)

(** [expired] is the answer of [check_account] for the owner. *)
Definition stop_or_start (now : Z) (expired : bool) (d : db) (va : Validator) : db :=
  if expired then
    if va_active va then
      insert_contract_command now (disable_validator d (va_public_key va)) (va_id va)
        (to_json (StopValidator va))
    else d
  else
    if va_active va then d
    else
      insert_contract_command now (enable_validator d (va_public_key va)) (va_id va)
        (to_json (ActivateValidator va)).

Definition monitor_owner (now : Z) (check_account : Address -> option bool) (d : db)
  (owner : Address) : db :=
  match check_account owner with
  | Some expired =>
      match query_validator_by_address d owner with
      | inr validators => foldl (stop_or_start now expired) d validators
      | inl _ => d
      end
  | None => d
  end.

(** A tick of [monitor_validator_paidblock]. *)
Definition monitor_validator_paidblock (now : Z) (check_account : Address -> option bool) (d : db)
  : db :=
  match query_all_validator_address d with
  | inr owners => foldl (monitor_owner now check_account) d owners
  | inl _ => d
  end.

(** [check_account] from what the contract and the node answer. *)
Definition check_account (paid_block : option Z) (current_block : option Z)
  : outcome ContractError bool :=
  match paid_block with
  | None => Err QueryError
  | Some paid_block =>
      match current_block with
      | None => Err BlockNumberError
      | Some current_block =>
          paid_block ← as_u64 paid_block;
          mret (paid_block <=? current_block)
      end
  end.
End contract.

(** ** Sorting *)

Section sorting.

Lemma elem_of_insert_log x y l : y ∈ insert_log x l <-> y = x \/ y ∈ l.
Proof.
  induction l as [|z l IH]; simpl; [by rewrite list_elem_of_singleton, elem_of_nil; tauto|].
  destruct (_ <=? _); rewrite !elem_of_cons; [tauto|]. rewrite IH. tauto.
Qed.

Lemma elem_of_sort_logs y l : y ∈ sort_logs l <-> y ∈ l.
Proof.
  induction l as [|x l IH]; simpl; [done|]. by rewrite elem_of_insert_log, elem_of_cons, IH.
Qed.

Lemma sort_logs_nil l : sort_logs l = [] <-> l = [].
Proof.
  split; [|by intros ->]. destruct l as [|x l]; [done|]. intros Hs. exfalso.
  apply (not_elem_of_nil x). rewrite <- Hs. apply elem_of_sort_logs, list_elem_of_here.
Qed.

Lemma sort_logs_sorted l : StronglySorted (fun x y => block_of x <= block_of y) (sort_logs l).
Proof.
  induction l as [|x l IH]; simpl; [constructor|].
  induction IH as [|y l' Hs IH Hy]; simpl; [repeat constructor|].
  destruct (Z.leb_spec (block_of x) (block_of y)).
  - constructor; [by constructor|]. constructor; [done|].
    eapply Forall_impl; [exact Hy|]. simpl. lia.
  - constructor; [done|]. rewrite Forall_forall in Hy |- *.
    intros z [->|Hz]%elem_of_insert_log; [lia|]. by apply Hy.
Qed.

(** The last one is a largest one. *)
Lemma sort_logs_last l x : last (sort_logs l) = Some x -> x ∈ l /\ forall y, y ∈ l -> block_of y <= block_of x.
Proof.
  intros Hl. apply last_Some in Hl as [l' Hl]. split.
  - apply elem_of_sort_logs. rewrite Hl. apply elem_of_app. right. apply list_elem_of_here.
  - intros y Hy. apply elem_of_sort_logs in Hy. pose proof (sort_logs_sorted l) as Hs.
    rewrite Hl in Hs, Hy. apply elem_of_app in Hy as [Hy| ->%list_elem_of_singleton]; [|lia].
    exact (StronglySorted_app_1_elem_of _ _ _ _ _ Hs Hy (list_elem_of_here _ _)).
Qed.
End sorting.

(** ** The loop follows the chain *)

Section follow.
Context `{Sqlite} `{Web3} (config : ContractConfig) (operator_pk : bytes) (env : Log -> conditions).

Abbreviation handle_logs := (handle_logs config operator_pk env).
Abbreviation rounds := (rounds config operator_pk env).
Abbreviation round := (round config operator_pk env).

Lemma handle_logs_app l1 l2 d :
  handle_logs (l1 ++ l2) d =
  match handle_logs l1 d with (Ok _, d) => handle_logs l2 d | r => r end.
Proof.
  revert d. induction l1 as [|x l1 IH]; intros d; [done|]. simpl. unfold mbind, prog_bind.
  destruct (handle_log config operator_pk env x d) as [[[]|e|m|] d1]; [apply IH|done..].
Qed.

(** The number of the last block plus one. *)
Definition after_logs (from : Z) (l : list Log) : Z :=
  match last l with Some x => u64 (block_of x + 1) | None => from end.

Lemma logs_loop_handles l c :
  (logs_loop config operator_pk env l c).1 = (handle_logs l (database c)).1 /\
  database (logs_loop config operator_pk env l c).2 = (handle_logs l (database c)).2 /\
  forall u, (handle_logs l (database c)).1 = Ok u ->
    block_num (logs_loop config operator_pk env l c).2 = after_logs (block_num c) l.
Proof.
  revert c. induction l as [|x l IH]; intros c; [done|]. simpl. unfold mbind, prog_bind.
  destruct (handle_log config operator_pk env x (database c)) as [[[]|e|m|] d1]; [|done..].
  destruct (IH (mkContract (u64 (block_of x + 1)) d1)) as (H1' & H2' & H3').
  split; [done|]. split; [done|]. intros u Hu. rewrite (H3' u Hu). unfold after_logs.
  destruct l as [|y l]; [done|]. rewrite last_cons_cons.
  assert (is_Some (last (y :: l))) as [z ->]; [by apply last_is_Some|done].
Qed.

Context (chain : list Log) (is_va : Log -> bool).
Context (Hchain : forall l, l ∈ chain -> exists b, log_block_number l = Some b /\ 0 <= b < u64_max).

(** The logs of a contract that a filter selects when the head is [head]. *)
Definition matching (va : bool) (f : Filter) (head : Z) : list Log :=
  filter (fun l => from_block f <= block_of l <= head) (filter (fun l => is_va l = va) chain).

(** A request that an Ethereum node serves when its head is [head]: it returns all the
    logs, unless there are more than the limit. *)
Definition serves (va : bool) (head : Z) (request : Filter -> option (list Log)) : Prop :=
  forall f, Z.of_nat (length (matching va f head)) <= filter_limit f ->
    request f = Some (matching va f head).

(** The heads at the two requests for logs and at the one for the current block. *)
Record heads := mkHeads { va_head : Z; initiator_head : Z; block_head : Z }.

(** A round in which the node answers, the chain grows, the limits are kept and the
    record is written. *)
Definition answered (from : Z) (h : heads) (a : answers) : Prop :=
  va_head h <= initiator_head h <= block_head h /\
  serves true (va_head h) (va_logs a) /\ serves false (initiator_head h) (initiator_logs a) /\
  current_block a = Some (block_head h) /\ record_written a = true /\
  Z.of_nat (length (matching true (log_filter from) (va_head h))) <= 20 /\
  Z.of_nat (length (matching false (log_filter from) (initiator_head h))) <= 20.

Definition round_logs (from : Z) (a : answers) : list Log := sort_logs (asked_logs from a).

Definition next_block (from : Z) (a : answers) : Z :=
  match last (round_logs from a) with
  | Some x => block_of x + 1
  | None => default from (current_block a)
  end.

(** Rounds against a node that answers and whose head is not behind the record. *)
Fixpoint complete (from : Z) (l : list (heads * answers)) : Prop :=
  match l with
  | [] => True
  | (h, a) :: l =>
      from <= va_head h /\ answered from h a /\ complete (next_block from a) l
  end.

(** The logs of all rounds, and the block after them. *)
Fixpoint handled (from : Z) (l : list (heads * answers)) : list Log :=
  match l with
  | [] => []
  | (_, a) :: l => round_logs from a ++ handled (next_block from a) l
  end.
Fixpoint end_block (from : Z) (l : list (heads * answers)) : Z :=
  match l with
  | [] => from
  | (_, a) :: l => end_block (next_block from a) l
  end.

(** The head at the request that selects a log. *)
Definition head_for (h : heads) (x : Log) : Z := if is_va x then va_head h else initiator_head h.

(** A round passes over a log when the log is newer than the head at its request and
    the record still moves past its block. *)
Definition passed (from : Z) (h : heads) (a : answers) (x : Log) : bool :=
  (head_for h x <? block_of x) && (block_of x <? next_block from a).
Fixpoint passed_over (from : Z) (l : list (heads * answers)) (x : Log) : bool :=
  match l with
  | [] => false
  | (h, a) :: l =>
      (from <=? block_of x) && passed from h a x || passed_over (next_block from a) l x
  end.

Lemma insert_log_perm x l : insert_log x l ≡ₚ x :: l.
Proof.
  induction l as [|y l IH]; simpl; [done|]. destruct (_ <=? _); [done|].
  rewrite IH. apply Permutation_swap.
Qed.

Lemma sort_logs_perm l : sort_logs l ≡ₚ l.
Proof. induction l as [|x l IH]; simpl; [done|]. by rewrite insert_log_perm, IH. Qed.

Lemma asked_matching from h a :
  answered from h a ->
  asked_logs from a = matching true (log_filter from) (va_head h) ++
    matching false (log_filter from) (initiator_head h).
Proof.
  intros (_ & Hv & Hi & _ & _ & Lv & Li). unfold asked_logs. by rewrite Hv, Hi.
Qed.

(** What a round is told of the chain. *)
Lemma asked_perm from h a :
  answered from h a ->
  asked_logs from a ≡ₚ filter (fun x => from <= block_of x <= head_for h x) chain.
Proof.
  intros Ha. rewrite (asked_matching from h a Ha).
  rewrite <- (filter_app_complement (fun x => is_va x = true)
    (filter (fun x => from <= block_of x <= head_for h x) chain)).
  unfold matching, head_for. rewrite !list_filter_filter. apply reflexive_eq.
  f_equal; apply list_filter_iff; intros x; cbn [from_block log_filter];
    destruct (is_va x); naive_solver.
Qed.

Lemma elem_of_round_logs from h a x :
  answered from h a -> x ∈ round_logs from a <-> x ∈ chain /\ from <= block_of x <= head_for h x.
Proof.
  intros Ha. unfold round_logs. rewrite sort_logs_perm, (asked_perm from h a Ha).
  rewrite list_elem_of_filter. tauto.
Qed.

Lemma head_for_between from h a x :
  answered from h a -> va_head h <= head_for h x <= block_head h.
Proof. intros [? _]. unfold head_for. destruct (is_va x); lia. Qed.

(** The record moves past the logs of a round and not past the current block. *)
Lemma next_block_range from h a :
  from <= va_head h -> answered from h a ->
  from <= next_block from a <= block_head h + 1 /\
  forall x, x ∈ round_logs from a -> block_of x < next_block from a.
Proof.
  intros Hfrom Ha. unfold next_block. destruct (last (round_logs from a)) as [y|] eqn:Hl.
  - pose proof Hl as Hy. unfold round_logs in Hy. apply sort_logs_last in Hy as [_ Hmax].
    apply last_Some in Hl as [l' Hl].
    assert (y ∈ round_logs from a) as Hin
      by (rewrite Hl; apply elem_of_app; right; apply list_elem_of_here).
    apply (elem_of_round_logs from h a y Ha) in Hin as [_ Hr].
    pose proof (head_for_between from h a y Ha). split; [lia|]. intros x Hx.
    unfold round_logs in Hx. rewrite elem_of_sort_logs in Hx. specialize (Hmax x Hx). lia.
  - apply last_None in Hl. pose proof Ha as (Hh & _ & _ & -> & _). simpl. rewrite Hl.
    split; [lia|]. by intros x ?%elem_of_nil.
Qed.

Lemma round_perm from h a :
  from <= va_head h -> answered from h a ->
  round_logs from a
  ≡ₚ filter (fun x => from <= block_of x < next_block from a /\ passed from h a x = false) chain.
Proof.
  intros Hfrom Ha. destruct (next_block_range from h a Hfrom Ha) as [Hn Hlt].
  unfold round_logs at 1. rewrite sort_logs_perm, (asked_perm from h a Ha).
  apply reflexive_eq, list_filter_iff_on. intros x Hx. unfold passed.
  rewrite andb_false_iff, Z.ltb_ge, Z.ltb_ge. split; [|lia]. intros Hr.
  assert (x ∈ round_logs from a) as Hin by by apply (elem_of_round_logs from h a).
  specialize (Hlt x Hin). lia.
Qed.

Lemma round_handles from h a d :
  answered from h a ->
  (round a (mkContract from d)).1 = (handle_logs (round_logs from a) d).1 /\
  database (round a (mkContract from d)).2 = (handle_logs (round_logs from a) d).2 /\
  forall u, (handle_logs (round_logs from a) d).1 = Ok u ->
    block_num (round a (mkContract from d)).2 = next_block from a.
Proof.
  intros Ha. pose proof Ha as (_ & _ & _ & Hb & Hw & _).
  unfold Contract.round, update_record_file, next_block. cbn [block_num database]. rewrite Hw.
  case_bool_decide as Hl; [unfold round_logs; by rewrite Hl|].
  rewrite (proj2 (forallb_forall _ (asked_logs from a))).
  - fold (round_logs from a).
    destruct (logs_loop_handles (round_logs from a) (mkContract from d)) as (H1' & H2' & H3').
    cbn [database block_num] in *.
    destruct (logs_loop _ _ _ _ _) as [[[]|e|m|] c]; cbn [fst snd] in *; rewrite <- H1', <- H2';
      (split; [done|]; split; [done|]); intros u Hu; try done.
    rewrite (H3' () (eq_sym H1')). unfold after_logs.
    destruct (last (round_logs from a)) as [x|] eqn:Hx.
    + apply last_Some in Hx as [l' Hx].
      assert (x ∈ round_logs from a) as Hin
        by (rewrite Hx; apply elem_of_app; right; apply list_elem_of_here).
      apply (elem_of_round_logs from h a x Ha) in Hin as [Hin _].
      destruct (Hchain x Hin) as (b & Hbx & Hr). unfold block_of. rewrite Hbx. simpl.
      by rewrite u64_succ by lia.
    + apply last_None in Hx. by apply (proj1 (sort_logs_nil _)) in Hx.
  - intros x Hx%list_elem_of_In. apply bool_decide_eq_true.
    assert (x ∈ round_logs from a) as Hin by by apply elem_of_sort_logs.
    apply (elem_of_round_logs from h a x Ha) in Hin as [Hin _].
    destruct (Hchain x Hin) as (b & -> & _). done.
Qed.

Lemma rounds_handle l from d :
  complete from l ->
  (rounds (map snd l) (mkContract from d)).1 = (handle_logs (handled from l) d).1 /\
  database (rounds (map snd l) (mkContract from d)).2 = (handle_logs (handled from l) d).2 /\
  forall u, (handle_logs (handled from l) d).1 = Ok u ->
    block_num (rounds (map snd l) (mkContract from d)).2 = end_block from l.
Proof.
  revert from d. induction l as [|[h a] l IH]; intros from d; [done|].
  intros (Hf & Ha & Hc). destruct (round_handles from h a d Ha) as (H1' & H2' & H3').
  cbn [map snd Contract.rounds handled end_block]. rewrite handle_logs_app.
  destruct (round a (mkContract from d)) as [r [n d1]]. cbn [fst snd database block_num] in *.
  destruct (handle_logs (round_logs from a) d) as [r1 d2]. cbn [fst snd] in *. subst r1 d2.
  destruct r as [[]|e|m|]; [|done..]. rewrite (H3' () eq_refl). by apply IH.
Qed.

Lemma end_block_after l from : complete from l -> from <= end_block from l.
Proof.
  revert from. induction l as [|[h a] l IH]; intros from; [simpl; lia|]. intros (Hf & Ha & Hc).
  cbn [end_block]. destruct (next_block_range from h a Hf Ha) as [Hn _].
  specialize (IH _ Hc). lia.
Qed.



Lemma passed_over_range l from x :
  complete from l -> passed_over from l x = true ->
  from <= block_of x < end_block from l /\
  Exists (fun r => va_head r.1 < block_of x <= block_head r.1) l.
Proof.
  revert from. induction l as [|[h a] l IH]; intros from; [done|]. intros (Hf & Ha & Hc).
  cbn [passed_over end_block]. destruct (next_block_range from h a Hf Ha) as [Hn _].
  assert (next_block from a <= end_block (next_block from a) l) as Hend
    by by apply end_block_after.
  intros [[Hb [Hh Hx]%andb_true_iff]%andb_true_iff|Hx]%orb_true_iff.
  - apply Z.leb_le in Hb. apply Z.ltb_lt in Hh, Hx. split; [lia|].
    constructor. simpl. pose proof (head_for_between from h a x Ha). lia.
  - destruct (IH _ Hc Hx) as [Hr He]. split; [lia|]. by constructor 2.
Qed.

Lemma handled_perm l from :
  complete from l ->
  handled from l ≡ₚ filter (fun x => from <= block_of x < end_block from l /\
    passed_over from l x = false) chain.
Proof.
  revert from. induction l as [|[h a] l IH]; intros from.
  { intros _. cbn [handled end_block]. rewrite list_filter_none; [done|]. intros x _. lia. }
  intros Hall. pose proof Hall as (Hf & Ha & Hc). cbn [handled].
  destruct (next_block_range from h a Hf Ha) as [Hn _]. pose proof (end_block_after l _ Hc) as He.
  rewrite (IH _ Hc), (round_perm from h a Hf Ha).
  rewrite <- (filter_app_complement (fun x => block_of x < next_block from a)
    (filter (fun x => from <= block_of x < end_block from ((h, a) :: l) /\
      passed_over from ((h, a) :: l) x = false) chain)).
  rewrite !list_filter_filter. apply reflexive_eq.
  f_equal; apply list_filter_iff; intros x; cbn [passed_over end_block];
    rewrite orb_false_iff, andb_false_iff, Z.leb_gt.
  - assert (block_of x < next_block from a -> passed_over (next_block from a) l x = false) as Hp.
    { intros Hx. apply not_true_is_false. intros Hp.
      apply (passed_over_range l _ x Hc) in Hp as [? _]. lia. }
    split; [intros [? ?]; split_and!; auto; try lia; apply Hp; lia|].
    intros (? & ? & [?|?] & ?); [lia|]. split; [lia|done].
  - assert (next_block from a <= block_of x -> passed from h a x = false) as Hp.
    { intros Hx. unfold passed. apply andb_false_iff. right. by apply Z.ltb_ge. }
    split; [intros [? ?]; split_and!; auto; try lia; right; apply Hp; lia|].
    intros (? & ? & _ & ?). split; [lia|done].
Qed.


(** Two ways in which the loop does not follow the chain.  When the requests of a
    round fail but the current block is known, the record jumps to it, and the events
    before it are never handled, also if all later rounds are complete.  When a round
    finds no event and the head is still the last block that was handled, the record
    goes back, and the events of that block are handled again. *)
Theorem unreliable_node_loses_or_repeats_events l from b d :
  complete b l ->
  (forall a0 x, (forall f, va_logs a0 f = None /\ initiator_logs a0 f = None) ->
    current_block a0 = Some b -> record_written a0 = true ->
    x ∈ chain -> from <= block_of x < b ->
    x ∉ handled b l /\
    (rounds (a0 :: map snd l) (mkContract from d)).1 = (handle_logs (handled b l) d).1 /\
    database (rounds (a0 :: map snd l) (mkContract from d)).2 =
      (handle_logs (handled b l) d).2) /\
  (forall a0 x, answered (b + 1) (mkHeads b b b) a0 -> x ∈ chain -> block_of x = b ->
    b < end_block b l -> passed_over b l x = false ->
    x ∈ handled b l /\
    (rounds (a0 :: map snd l) (mkContract (b + 1) d)).1 = (handle_logs (handled b l) d).1 /\
    database (rounds (a0 :: map snd l) (mkContract (b + 1) d)).2 =
      (handle_logs (handled b l) d).2).
Proof.
  intros Hc. destruct (rounds_handle l b d Hc) as (H1' & H2' & _). split.
  - intros a0 x Hn Hb Hw Hx Hr. split.
    { rewrite (handled_perm l b Hc). intros [[Hr' _] _]%list_elem_of_filter. lia. }
    assert (asked_logs from a0 = []) as Hnil.
    { unfold asked_logs. by destruct (Hn (log_filter from)) as [-> ->]. }
    simpl. unfold Contract.round, update_record_file. cbn [block_num database].
    rewrite Hnil, Hb, Hw. simpl. done.
  - intros a0 x Ha Hx Hr Hend Hp.
    assert (round_logs (b + 1) a0 = []) as Hnil.
    { apply elem_of_nil_inv. intros y Hy. apply (elem_of_round_logs _ _ _ _ Ha) in Hy as [_ Hy].
      unfold head_for in Hy. simpl in Hy. destruct (is_va y); lia. }
    destruct (round_handles _ _ a0 d Ha) as (R1 & R2 & R3).
    rewrite Hnil in R1, R2, R3. simpl in R1, R2, R3. specialize (R3 () eq_refl).
    assert (next_block (b + 1) a0 = b) as Hn.
    { unfold next_block. rewrite Hnil. destruct Ha as (_ & _ & _ & -> & _). done. }
    rewrite Hn in R3. split.
    + rewrite (handled_perm l b Hc). apply list_elem_of_filter. split_and!; [lia..|done|done].
    + cbn [map Contract.rounds]. destruct (round a0 (mkContract (b + 1) d)) as [r [n d1]].
      cbn in R1, R2, R3. subst. done.
Qed.
End follow.

(** ** Paid accounts *)

Section accounts.
Context `{Sqlite} `{Web3}.

(** The owners and texts of the waiting commands. *)
Definition queue (d : db) : list (Z * string) :=
  map (fun r => (cr_owner r, cr_command r)) (contract_commands d).

Lemma queue_insert now d v c : queue (insert_contract_command now d v c) = queue d ++ [(v, c)].
Proof.
  destruct (insert_commands now d v c) as (n & _ & Hc). unfold queue. by rewrite Hc, map_app.
Qed.

(** The validator of a row, as it is read for an owner, and the row of a validator. *)
Definition validator_of (x : bytes * validator_row) : Validator :=
  mkValidator (vr_id x.2) (vr_owner_address x.2) x.1 [] (vr_active x.2).

Definition with_active (active : bool) (r : validator_row) : validator_row :=
  mkValidatorRow (vr_id r) (vr_owner_address r) active.

(** The command for a validator whose account is or is not expired. *)
Definition change (expired : bool) (va : Validator) : option (Z * string) :=
  if expired then
    if va_active va then Some (va_id va, to_json (StopValidator va)) else None
  else
    if va_active va then None else Some (va_id va, to_json (ActivateValidator va)).

Lemma validators_insert_command now d v c :
  validators (insert_contract_command now d v c) = validators d.
Proof. done. Qed.

Lemma stop_or_start_spec now e d va r :
  validators d !! va_public_key va = Some r -> vr_active r = va_active va ->
  validators (stop_or_start now e d va) =
    <[va_public_key va := with_active (negb e) r]> (validators d) /\
  queue (stop_or_start now e d va) = queue d ++ option_list (change e va).
Proof.
  intros Hr Ha. unfold stop_or_start, change.
  assert (forall b, vr_active r = b -> <[va_public_key va := with_active b r]> (validators d) = validators d)
    as Hsame.
  { intros b <-. apply insert_id. rewrite Hr. by destruct r. }
  assert (forall b, alter (with_active b) (va_public_key va) (validators d) =
                    <[va_public_key va := with_active b r]> (validators d)) as Halter.
  { intros b. apply map_eq. intros k. destruct (decide (k = va_public_key va)) as [->|Hk].
    - by rewrite lookup_alter_eq, lookup_insert_eq, Hr.
    - by rewrite lookup_alter_ne, lookup_insert_ne by done. }
  destruct e, (va_active va) eqn:Hva; simpl; rewrite ?app_nil_r, ?queue_insert;
    rewrite ?(Hsame _ Ha); split; try done.
  - apply Halter.
  - apply Halter.
Qed.

Lemma stop_or_start_all now e l d :
  NoDup (map va_public_key l) ->
  (forall va, va ∈ l -> exists r, validators d !! va_public_key va = Some r /\ vr_active r = va_active va) ->
  (forall pk, validators (foldl (stop_or_start now e) d l) !! pk =
    if decide (pk ∈ map va_public_key l) then with_active (negb e) <$> validators d !! pk
    else validators d !! pk) /\
  queue (foldl (stop_or_start now e) d l) = queue d ++ omap (change e) l.
Proof.
  revert d. induction l as [|va l IH]; intros d Hnd Hl.
  - simpl. rewrite app_nil_r. done.
  - apply NoDup_cons in Hnd as [Hva Hnd].
    destruct (Hl va) as (r & Hr & Ha); [apply list_elem_of_here|].
    destruct (stop_or_start_spec now e d va r Hr Ha) as [Hv Hq].
    destruct (IH (stop_or_start now e d va) Hnd) as [IHv IHq].
    { intros va' Hva'. destruct (Hl va') as (r' & Hr' & Ha'); [by apply list_elem_of_further|].
      exists r'. split; [|done]. rewrite Hv, lookup_insert_ne; [done|].
      intros Heq. apply Hva. rewrite Heq. by apply list_elem_of_fmap_2. }
    simpl. split.
    + intros pk. rewrite IHv, Hv. destruct (decide (pk = va_public_key va)) as [->|Hpk].
      * rewrite decide_False by done. rewrite decide_True by apply list_elem_of_here.
        by rewrite lookup_insert_eq, Hr.
      * rewrite lookup_insert_ne by done.
        destruct (decide (pk ∈ map va_public_key l)) as [Hin|Hin].
        -- rewrite decide_True by (by apply list_elem_of_further). done.
        -- rewrite decide_False; [done|]. by intros [?|?]%elem_of_cons.
    + rewrite IHq, Hq, <- app_assoc. f_equal. by destruct (change e va).
Qed.

Context (now : Z) (check_account : Address -> option bool).

(** What a row and the queue become. *)
Definition paid (r : validator_row) : validator_row :=
  match check_account (vr_owner_address r) with
  | Some expired => with_active (negb expired) r
  | None => r
  end.

Definition changes (l : list (bytes * validator_row)) : list (Z * string) :=
  omap (fun x =>
    match check_account (vr_owner_address x.2) with
    | Some expired => change expired (validator_of x)
    | None => None
    end) l.

Lemma paid_owner r : vr_owner_address (paid r) = vr_owner_address r.
Proof. unfold paid. by destruct (check_account _). Qed.

Lemma validators_of_owner d o :
  query_validator_by_address d o =
  inr (map validator_of (filter (fun x => vr_owner_address x.2 = o) (map_to_list (validators d)))).
Proof.
  unfold query_validator_by_address. f_equal. apply map_ext_in.
  intros x [<- _]%list_elem_of_In%list_elem_of_filter. done.
Qed.

Lemma owner_pks d o pk :
  pk ∈ map va_public_key (map validator_of
    (filter (fun x => vr_owner_address x.2 = o) (map_to_list (validators d)))) <->
  exists r, validators d !! pk = Some r /\ vr_owner_address r = o.
Proof.
  rewrite map_map, list_elem_of_fmap. split.
  - intros ([k r] & -> & [Ho Hx%elem_of_map_to_list]%list_elem_of_filter). eauto.
  - intros (r & Hr & Ho). exists (pk, r). split; [done|]. apply list_elem_of_filter.
    by rewrite elem_of_map_to_list.
Qed.

Lemma monitor_owner_spec d o :
  (forall pk, validators (monitor_owner now check_account d o) !! pk =
    (fun r => if decide (vr_owner_address r = o) then paid r else r) <$> validators d !! pk) /\
  queue (monitor_owner now check_account d o) =
    queue d ++ changes (filter (fun x => vr_owner_address x.2 = o) (map_to_list (validators d))).
Proof.
  unfold monitor_owner. rewrite validators_of_owner. set (l := filter _ _).
  assert (forall x, x ∈ l -> vr_owner_address x.2 = o /\ validators d !! x.1 = Some x.2) as Hl.
  { intros [k r] [Ho Hx%elem_of_map_to_list]%list_elem_of_filter. done. }
  destruct (check_account o) as [e|] eqn:He.
  - destruct (stop_or_start_all now e (map validator_of l) d) as [Hv Hq].
    + rewrite map_map. apply (sublist_NoDup _ (map_to_list (validators d)).*1);
        [apply NoDup_fst_map_to_list|]. apply (fmap_sublist fst), sublist_filter.
    + intros va (x & -> & Hx)%list_elem_of_fmap. destruct (Hl x Hx) as [_ Hr]. eauto.
    + split.
      * intros pk. rewrite Hv. destruct (validators d !! pk) as [r|] eqn:Hr.
        -- destruct (decide (vr_owner_address r = o)) as [Ho|Ho]; cbn [fmap option_fmap option_map].
           ++ rewrite decide_True by (apply owner_pks; eauto). rewrite decide_True by done.
              unfold paid. by rewrite Ho, He.
           ++ rewrite decide_False, decide_False; [done|done|].
              intros (r' & Hr' & Ho')%owner_pks. congruence.
        -- rewrite decide_False; [done|]. intros (r' & Hr' & _)%owner_pks. congruence.
      * rewrite Hq. f_equal. unfold changes. rewrite list_omap_map.
        apply list_omap_ext_on. intros x Hx. destruct (Hl x Hx) as [-> _]. by rewrite He.
  - split.
    + intros pk. destruct (validators d !! pk) as [r|]; [|done]. simpl. f_equal.
      destruct (decide _) as [Ho|]; [|done]. unfold paid. by rewrite Ho, He.
    + unfold changes. rewrite (list_omap_none _ l), app_nil_r; [done|].
      intros x Hx. destruct (Hl x Hx) as [-> _]. by rewrite He.
Qed.

(** Owners that were not met yet have their rows as at the start. *)
Lemma rows_of_next_owner (m m1 : gmap bytes validator_row) os o :
  o ∉ os ->
  (forall pk, m1 !! pk =
    (fun r => if decide (vr_owner_address r ∈ os) then paid r else r) <$> m !! pk) ->
  filter (fun x => vr_owner_address x.2 ∈ os) (map_to_list m) ++
  filter (fun x => vr_owner_address x.2 = o) (map_to_list m1) ≡ₚ
  filter (fun x => vr_owner_address x.2 ∈ os ++ [o]) (map_to_list m).
Proof.
  intros Ho Hm1. apply NoDup_Permutation.
  - apply NoDup_app. split; [apply NoDup_filter, NoDup_map_to_list|].
    split; [|apply NoDup_filter, NoDup_map_to_list].
    intros x [Hx _]%list_elem_of_filter [Hx' _]%list_elem_of_filter. congruence.
  - apply NoDup_filter, NoDup_map_to_list.
  - intros [k r]. rewrite elem_of_app, !list_elem_of_filter, !elem_of_map_to_list. simpl.
    rewrite Hm1, elem_of_app, list_elem_of_singleton, fmap_Some. split.
    + intros [[Hr Hk]|(Hr & r0 & Hk & ->)]; [tauto|].
      destruct (decide (vr_owner_address r0 ∈ os)) as [Hin|]; [|tauto].
      rewrite paid_owner in Hr. congruence.
    + intros [[Hin|Hr] Hk]; [tauto|]. right. split; [done|]. exists r. split; [done|].
      rewrite decide_False; [done|congruence].
Qed.

Lemma monitor_owners_spec d os :
  NoDup os ->
  (forall pk, validators (foldl (monitor_owner now check_account) d os) !! pk =
    (fun r => if decide (vr_owner_address r ∈ os) then paid r else r) <$> validators d !! pk) /\
  exists cmds, cmds ≡ₚ changes (filter (fun x => vr_owner_address x.2 ∈ os) (map_to_list (validators d))) /\
    queue (foldl (monitor_owner now check_account) d os) = queue d ++ cmds.
Proof.
  induction os as [|o os IH] using rev_ind; intros Hnd.
  - cbn [foldl]. split.
    + intros pk. destruct (validators d !! pk) as [r|]; [|done].
      cbn [fmap option_fmap option_map]. rewrite decide_False; [done|]. apply not_elem_of_nil.
    + exists []. rewrite app_nil_r. split; [|done]. rewrite list_filter_none; [done|].
      intros x _. apply not_elem_of_nil.
  - apply NoDup_app in Hnd as (Hnd & Ho & _).
    destruct (IH Hnd) as (Hv & cmds & Hcmds & Hq). rewrite foldl_app. simpl.
    set (d1 := foldl (monitor_owner now check_account) d os) in *.
    destruct (monitor_owner_spec d1 o) as [Hv1 Hq1]. split.
    + intros pk. rewrite Hv1, Hv. destruct (validators d !! pk) as [r|]; [|done]. simpl. f_equal.
      destruct (decide (vr_owner_address r ∈ os)) as [Hin|Hin].
      * rewrite paid_owner. rewrite (decide_True (P := _ ∈ os ++ [o])) by (apply elem_of_app; by left).
        rewrite decide_False; [done|]. intros Heq. rewrite Heq in Hin. apply (Ho _ Hin), list_elem_of_here.
      * destruct (decide (vr_owner_address r = o)) as [Heq|Hne].
        -- rewrite decide_True; [done|]. apply elem_of_app. right. apply list_elem_of_singleton, Heq.
        -- rewrite decide_False; [done|]. by intros [?|?%list_elem_of_singleton]%elem_of_app.
    + eexists (cmds ++ _). rewrite Hq1, Hq, <- app_assoc. split; [|reflexivity].
      rewrite Hcmds. unfold changes. rewrite <- list_omap_app. apply omap_Permutation.
      apply rows_of_next_owner; [|done]. intros Hin. apply (Ho o Hin), list_elem_of_here.
Qed.

Lemma stop_or_start_same t e d va : change e va = None -> stop_or_start t e d va = d.
Proof. unfold change, stop_or_start. by destruct e, (va_active va). Qed.

(** C28: after a look at the accounts, a validator of an owner whose account could be
    checked is active exactly if the account is paid, and the others are as before;
    one command to stop or to activate has been queued for every validator that
    changed and none for any other.  Looking again changes nothing. *)
Theorem accounts_followed d :
  let d' := monitor_validator_paidblock now check_account d in
  validators d' = paid <$> validators d /\
  (exists cmds, cmds ≡ₚ changes (map_to_list (validators d)) /\ queue d' = queue d ++ cmds) /\
  forall t, monitor_validator_paidblock t check_account d' = d'.
Proof.
  intros d'. assert (validators d' = paid <$> validators d /\
    exists cmds, cmds ≡ₚ changes (map_to_list (validators d)) /\ queue d' = queue d ++ cmds) as [Hv Hq].
  { unfold d', monitor_validator_paidblock, query_all_validator_address.
    set (os := remove_dups _).
    assert (forall k r, validators d !! k = Some r -> vr_owner_address r ∈ os) as Hos.
    { intros k r Hr. apply elem_of_remove_dups, list_elem_of_fmap. exists (k, r).
      by rewrite elem_of_map_to_list. }
    destruct (monitor_owners_spec d os (NoDup_remove_dups _)) as (Hv & cmds & Hc & Hq). split.
    - apply map_eq. intros pk. rewrite Hv, lookup_fmap.
      destruct (validators d !! pk) as [r|] eqn:Hr; [|done]. cbn [fmap option_fmap option_map].
      by rewrite decide_True by (by apply (Hos pk)).
    - exists cmds. split; [|done]. rewrite Hc, list_filter_all; [done|].
      intros [k r] Hr%elem_of_map_to_list. by apply (Hos k). }
  split; [done|]. split; [done|]. intros t. clear Hq.
  unfold monitor_validator_paidblock at 1, query_all_validator_address.
  apply foldl_same. intros o _. unfold monitor_owner.
  destruct (check_account o) as [e|] eqn:He; [|done]. rewrite validators_of_owner.
  apply foldl_same. intros va (x & -> & [Ho Hx]%list_elem_of_filter)%list_elem_of_fmap.
  destruct x as [k r]. rewrite elem_of_map_to_list, Hv, lookup_fmap, fmap_Some in Hx.
  destruct Hx as (r0 & _ & ->). simpl in Ho. rewrite paid_owner in Ho.
  apply stop_or_start_same. unfold paid. rewrite Ho, He. simpl. by destruct e.
Qed.
End accounts.

(** ** Concrete parameters, for the witnesses *)

(** Text for a number and back. *)
Fixpoint pos_text (p : positive) : string :=
  match p with
  | xH => String Ascii.one EmptyString
  | xO p => String Ascii.zero (pos_text p)
  | xI p => String Ascii.one (pos_text p)
  end.
Fixpoint text_pos (s : string) : option positive :=
  match s with
  | String c EmptyString => if bool_decide (c = Ascii.one) then Some xH else None
  | String c s => (if bool_decide (c = Ascii.one) then xI else xO) <$> text_pos s
  | EmptyString => None
  end.

Lemma text_pos_text p : text_pos (pos_text p) = Some p.
Proof.
  assert (forall p, exists c s, pos_text p = String c s) as Hne by (intros []; eauto).
  induction p as [p IH|p IH|]; [| |done]; simpl; rewrite IH;
    destruct (Hne p) as (c & s & ->); done.
Qed.

(** Commands as lists of lists of bytes. *)
Definition option_code (o : option bytes) : bytes :=
  match o with None => [0] | Some b => 1 :: b end.
Definition code_option (b : bytes) : option (option bytes) :=
  match b with 0 :: _ => Some None | 1 :: b => Some (Some b) | _ => None end.

Definition validator_code (v : Validator) : list bytes :=
  [[va_id v]; [va_owner_address v]; va_public_key v; va_releated_operators v;
   [if va_active v then 1 else 0]].
Definition code_validator (c : list bytes) : option Validator :=
  match c with
  | [[id]; [owner]; pk; ops; [active]] => Some (mkValidator id owner pk ops (active =? 1))
  | _ => None
  end.

Definition initiator_code (i : Initiator) : list bytes :=
  [[ini_id i]; [ini_owner_address i]; ini_releated_operators i;
   option_code (ini_validator_pk i); option_code ((fun a => [a]) <$> ini_minipool_address i)].
Definition code_initiator (c : list bytes) : option Initiator :=
  match c with
  | [[id]; [owner]; ops; pk; minipool] =>
      pk ← code_option pk; minipool ← code_option minipool;
      Some (mkInitiator id owner ops pk (minipool ≫= head))
  | _ => None
  end.

Definition command_code (c : ContractCommand) : list (list bytes) :=
  match c with
  | StartValidator v a b c => [[[0]]; validator_code v; a; b; c]
  | RemoveValidator v => [[[1]]; validator_code v]
  | ActivateValidator v => [[[2]]; validator_code v]
  | StopValidator v => [[[3]]; validator_code v]
  | StartInitiator i a => [[[4]]; initiator_code i; a]
  | MiniPoolCreated id pk a ops m => [[[5]]; [[id; m]]; [pk]; a; [ops]]
  | MiniPoolReady id pk a ops m => [[[6]]; [[id; m]]; [pk]; a; [ops]]
  | RemoveInitiator i a => [[[7]]; initiator_code i; a]
  end.
Definition code_command (c : list (list bytes)) : option ContractCommand :=
  match c with
  | [[[0]]; v; a; b; c] => v ← code_validator v; Some (StartValidator v a b c)
  | [[[1]]; v] => v ← code_validator v; Some (RemoveValidator v)
  | [[[2]]; v] => v ← code_validator v; Some (ActivateValidator v)
  | [[[3]]; v] => v ← code_validator v; Some (StopValidator v)
  | [[[4]]; i; a] => i ← code_initiator i; Some (StartInitiator i a)
  | [[[5]]; [[id; m]]; [pk]; a; [ops]] => Some (MiniPoolCreated id pk a ops m)
  | [[[6]]; [[id; m]]; [pk]; a; [ops]] => Some (MiniPoolReady id pk a ops m)
  | [[[7]]; i; a] => i ← code_initiator i; Some (RemoveInitiator i a)
  | _ => None
  end.

Lemma code_command_code c : code_command (command_code c) = Some c.
Proof.
  assert (forall v, code_validator (validator_code v) = Some v) as Hv by (by intros [? ? ? ? []]).
  assert (forall i, code_initiator (initiator_code i) = Some i) as Hi by (by intros [? ? ? [] []]).
  destruct c; unfold command_code, code_command; rewrite ?Hv, ?Hi; done.
Qed.

(** Events are decoded to an owner and the data. *)
Definition ideal_web3 : Web3 := {|
  parse_log e topics data := Some [TokAddress 9; TokBytes data];
  to_json c := pos_text (encode (command_code c));
  from_json s := p ← text_pos s; c ← decode p; code_command c
|}.

Lemma ideal_web3_laws : Web3Laws (H := ideal_web3).
Proof.
  split. intros c. unfold from_json, to_json, ideal_web3. rewrite text_pos_text. simpl.
  rewrite decode_encode. apply code_command_code.
Qed.

Section witnesses.
#[local] Existing Instances ideal_sqlite ideal_sqlite_laws ideal_web3 ideal_web3_laws.

Definition demo_config : ContractConfig := mkConfig 1 2 3 4 5 6.
Definition demo_env (l : Log) : conditions := mkConditions (block_of l) (fun _ => None).

(** Removals of two validators in the blocks 5 and 7. *)
Definition removal (block pk : Z) : Log := mkLog (Some block) [2] (replicate 48 pk).
Definition demo_chain : list Log := [removal 5 1; removal 7 2].
Definition demo_is_va (l : Log) : bool := true.

(** What a node answers whose heads are given. *)
Definition node_answers (h : heads) : answers :=
  mkAnswers (fun f => Some (matching demo_chain demo_is_va true f (va_head h)))
    (fun f => Some (matching demo_chain demo_is_va false f (initiator_head h)))
    (Some (block_head h)) true.
Definition demo_round (h : heads) : heads * answers := (h, node_answers h).

Lemma demo_chain_blocks l :
  l ∈ demo_chain -> exists b, log_block_number l = Some b /\ 0 <= b < u64_max.
Proof.
  intros [->|[->|[]%elem_of_nil]%elem_of_cons]%elem_of_cons; eexists; (split; [done|]);
    unfold u64_max; lia.
Qed.


Lemma demo_answered from h :
  va_head h <= initiator_head h <= block_head h -> answered demo_chain demo_is_va from h (node_answers h).
Proof.
  intros Hh. split; [done|]. split; [done|]. split; [done|]. split; [done|]. split; [done|].
  unfold matching. split.
  - etrans; [apply inj_le, length_filter|]. etrans; [apply inj_le, length_filter|].
    vm_compute. discriminate.
  - etrans; [apply inj_le, length_filter|]. etrans; [apply inj_le, length_filter|].
    vm_compute. discriminate.
Qed.



Lemma unreliable_node_loses_or_repeats_events_witness :
  removal 5 1 ∉ handled 6 [demo_round (mkHeads 9 9 9)] /\
  removal 7 2 ∈ handled 7 [demo_round (mkHeads 9 9 9)].
Proof.
  assert (forall from, from <= 9 -> complete demo_chain demo_is_va from [demo_round (mkHeads 9 9 9)])
    as Hc by (intros from Hf; split; [simpl; lia|]; split; [apply demo_answered; simpl; lia|done]).
  split.
  - destruct (unreliable_node_loses_or_repeats_events demo_config [] demo_env demo_chain demo_is_va
      demo_chain_blocks [demo_round (mkHeads 9 9 9)] 0 6 empty_db) as [Hlost _]; [apply Hc; lia|].
    apply (Hlost (mkAnswers (fun _ => None) (fun _ => None) (Some 6) true) (removal 5 1)); try done.
    apply list_elem_of_here.
  - destruct (unreliable_node_loses_or_repeats_events demo_config [] demo_env demo_chain demo_is_va
      demo_chain_blocks [demo_round (mkHeads 9 9 9)] 0 7 empty_db) as [_ Hagain]; [apply Hc; lia|].
    apply (Hagain (node_answers (mkHeads 7 7 7)) (removal 7 2)); try done.
    apply list_elem_of_further, list_elem_of_here.
Defined.
End witnesses.
