(* ===== verification/NodeCommands.v ===== *)
(** * The commands of a node

    Models the part of [src/node/node.rs] that runs an operator: the loop that takes
    the commands queued by the events of the contract ([Contract]) from the database
    ([Database]) and executes them.  Registering a validator decrypts the key share
    ([Elgamal]), writes its files ([KeyFiles]) and adds it to the validator store
    ([ValidatorStore]), which starts its signer ([DvfCore]); the other commands start,
    stop and remove it, or run the key generation of an initiator ([Dkg]).

    Discovery of addresses, the web server and the beacon nodes answer through the
    record [surroundings]. *)

From stdpp Require Import pretty.
From S2P Require Import Prelude Store Committee Messages Network Core Ideal Mempool.
From S2P Require Import Scalars Blst BlstIdeal Polynomial Threshold Processes IoCommittee Operator DvfCore.
From S2P Require Import Doppelganger KeyCache KeyFiles InitializedValidators ValidatorUpdates ValidatorStore.
From S2P Require Import Elgamal Database Contract.

Definition THRESHOLD : Z := 3.
Definition DB_FILENAME : string := "dvf_node_db".
Definition DKG_PORT_OFFSET : Z := 5.

Section node.
Context `{Eth2Keystore} `{Bincode} `{!SigCodec} `{MempoolCodec} `{Rocksdb Digest bytes}.
Context `{EthSpec} `{SlashingDatabase} `{Sqlite} `{Web3} `{Secp256k1} `{Aes}.

Record NodeConfig := mkNodeConfig {
  node_secret : bytes;
  node_name : PublicKey;
  base_address : SocketAddr;
  validator_dir : Path;
  secrets_dir : Path
}.

Record Node := mkNode {
  validator_store : option ValidatorStore;
  node_disk : Disk;
  node_maps : Handlers;
  node_db : db;
  executed : list ContractCommand
}.

Definition set_store (x : option ValidatorStore) (n : Node) : Node :=
  mkNode x (node_disk n) (node_maps n) (node_db n) (executed n).
Definition set_node_disk (d : Disk) (n : Node) : Node :=
  mkNode (validator_store n) d (node_maps n) (node_db n) (executed n).
Definition set_maps (h : Handlers) (n : Node) : Node :=
  mkNode (validator_store n) (node_disk n) h (node_db n) (executed n).
Definition set_db (d : db) (n : Node) : Node :=
  mkNode (validator_store n) (node_disk n) (node_maps n) d (executed n).
Definition record_command (cmd : ContractCommand) (n : Node) : Node :=
  mkNode (validator_store n) (node_disk n) (node_maps n) (node_db n) (executed n ++ [cmd]).

(** The answers to one command: the files, stores and draws, the address that is
    known for a node key, the clock, the id of this operator, the results of the key
    generation and of the distributed signing of a deposit (with its address and
    amount) or an exit, and whether the signed request to the web server can be made. *)
Record surroundings := mkSurroundings {
  sr_io : Io;
  sr_opened : Z -> option (Store.t Digest bytes);
  sr_random : Z;
  sr_query_ip : bytes -> option Z;
  sr_now : option Slot;
  sr_genesis_slot : Slot;
  sr_self_op_id : option Z;
  sr_dkg : list Z -> list SocketAddr -> option (Keypair * p1 * gmap Z p1);
  sr_signed : Keypair -> p1 -> gmap Z p1 -> list Z -> list SocketAddr -> option (Address * Z) -> bool;
  sr_ephemeral : Z * bytes;
  sr_request : bool
}.

Inductive NodeError : Type :=
| BadValidatorKey
| ValidatorExists
| BadOperatorKey
| NoSelfKey
| UnableToDecryptShare
| BadSecretKey
| UnableToBuildKeystore (e : KeystoreError)
| ShareBuildFailed (e : BuilderError)
| UnableToSaveCommittee
| NoParentOfSecrets
| UnableToRemoveDb
| UnableToDeleteDir
| UnableToReadSecretDir
| UnableToDeletePassword
| InsufficientOperators
| NoSelfOperator
| DkgFailed
| NoInitiatorStore
| KeysDontMatch
| DistributedSigningFailed
| UnableToRequest.

Definition node_prog (A : Type) : Type := prog Node NodeError A.

Definition ok_or_fail {A} (o : option A) (e : NodeError) : node_prog A :=
  match o with Some a => mret a | None => fail e end.

(** The bytes of a node key; [try_into().unwrap()] panics on another length. *)
Definition node_key {E} (bs : bytes) : outcome E PublicKey :=
  if (length bs =? 33)%nat then Ok (be_val bs) else Panic "called unwrap on an Err value".

(** A program on the disk. *)
Definition on_disk {A} (m : prog Disk BuilderError A) : node_prog A := fun n =>
  let '(r, d) := m (node_disk n) in
  (match r with
   | Ok a => Ok a
   | Err e => Err (ShareBuildFailed e)
   | Panic msg => Panic msg
   | Diverged => Diverged
   end, set_node_disk d n).

(** A call of the validator store whose result is only logged; a panic ends the
    task. *)
Definition on_store {E A} (f : ValidatorStore -> Disk -> Handlers ->
  ValidatorStore * outcome E A * Disk * Handlers) : node_prog () := fun n =>
  match validator_store n with
  | None => (Ok (), n)
  | Some vs =>
      let '(vs, r, d, h) := f vs (node_disk n) (node_maps n) in
      (match r with Panic msg => Panic msg | Diverged => Diverged | _ => Ok () end,
       mkNode (Some vs) d h (node_db n) (executed n))
  end.

(** ** [add_validator] *)

(** The positions of the node among the operators. *)
Definition self_index (cfg : NodeConfig) (operator_node_pks : list PublicKey) : list nat :=
  map fst (filter (fun x => node_name cfg = x.2) (imap pair operator_node_pks)).

Definition query_addrs (env : surroundings) (pks : list bytes) (base_port : Z)
  : list (option SocketAddr) :=
  map (fun pk => (fun ip => mkSocketAddr ip base_port) <$> sr_query_ip env pk) pks.

(** The share of this operator from its ciphertext. *)
Definition decrypt_share (secret_key : Z) (encrypted : bytes) : outcome NodeError Keypair :=
  ciphertext ← from_bytes encrypted;
  plain ← match elgamal_decrypt ciphertext secret_key with
          | Ok m => Ok m
          | Err _ => Err UnableToDecryptShare
          | Panic msg => Panic msg
          | Diverged => Diverged
          end;
  match SecretKey_deserialize plain with
  | Some sk => Ok (mkKeypair _ (SecretKey_public_key sk) sk)
  | None => Err BadSecretKey
  end.

Definition committee_definition (cfg : NodeConfig) (env : surroundings) (validator : Validator)
  (validator_pk : p1) (operator_public_keys : list bytes) (operator_bls_pks : list p1)
  (operator_node_pks : list PublicKey) : OperatorCommitteeDefinition :=
  mkDefinition (Z.of_nat (length operator_public_keys)) THRESHOLD (va_id validator) validator_pk
    (va_releated_operators validator) operator_bls_pks operator_node_pks
    (query_addrs env operator_public_keys (port (base_address cfg))).

Definition write_committee (io : Io) (p : Path) (def : OperatorCommitteeDefinition) : node_prog () :=
  d ← gets node_disk;
  d ← ok_or_fail (create_new io p (CommitteeFile def) d) UnableToSaveCommittee;
  modify (set_node_disk d).

Definition add_validator (cfg : NodeConfig) (env : surroundings) (validator : Validator)
  (operator_public_keys shared_public_keys encrypted_secret_keys : list bytes) : node_prog () :=
  let io := sr_io env in
  secret_key ← expect (secp_secret_from_slice (node_secret cfg)) "Unable to load secret key";
  validator_pk ← ok_or_fail (PublicKey_deserialize (va_public_key validator)) BadValidatorKey;
  d ← gets node_disk;
  if path_exists d (join (validator_dir cfg) (pk_text validator_pk)) then fail ValidatorExists
  else
    operator_bls_pks ← ok_or_fail (mapM PublicKey_deserialize shared_public_keys) BadOperatorKey;
    operator_node_pks ← lift (mapM node_key operator_public_keys);
    match self_index cfg operator_node_pks with
    | [i] =>
        encrypted ← expect (encrypted_secret_keys !! i) "index out of bounds";
        kp ← lift (decrypt_share secret_key encrypted);
        keystore ← lift (match build_keystore kp insecure_password (sr_random env) with
                         | inr k => Ok k
                         | inl e => Err (UnableToBuildKeystore e)
                         end);
        op_id ← expect (va_releated_operators validator !! i) "index out of bounds";
        let keystore_share := mkKeystoreShare keystore validator_pk (va_id validator) op_id in
        on_disk (build io (validator_dir cfg) (secrets_dir cfg) keystore_share insecure_password);;
        let committee_def_path :=
          default_operator_committee_definition_path validator_pk (validator_dir cfg) in
        write_committee io committee_def_path
          (committee_definition cfg env validator validator_pk operator_public_keys
             operator_bls_pks operator_node_pks);;
        on_store (fun vs =>
          add_validator_keystore_share vs io (sr_opened env)
            (default_keystore_share_path keystore_share (validator_dir cfg))
            (default_keystore_share_password_path keystore_share (secrets_dir cfg)) true
            None None None None committee_def_path (master_id keystore_share)
            (share_id keystore_share) (sr_now env) (sr_genesis_slot env))
    | _ => fail NoSelfKey
    end.

(** ** Starting, stopping and removing *)

Definition remove_handlers (id : Z) (h : Handlers) : Handlers :=
  mkHandlers (tx_handlers h ∖ {[id]}) (mempool_handlers h ∖ {[id]})
    (consensus_handlers h ∖ {[id]}) (signature_handlers h ∖ {[id]}).

Definition cleanup_handler (validator_id : Z) : node_prog () :=
  modify (fun n => set_maps (remove_handlers validator_id (node_maps n)) n).

Definition activate_validator (env : surroundings) (validator : Validator) : node_prog () :=
  validator_pk ← ok_or_fail (PublicKey_deserialize (va_public_key validator)) BadValidatorKey;
  on_store (fun vs => start_validator_keystore vs (sr_io env) (sr_opened env) validator_pk).

Definition stop_validator (env : surroundings) (validator : Validator) : node_prog () :=
  validator_pk ← ok_or_fail (PublicKey_deserialize (va_public_key validator)) BadValidatorKey;
  cleanup_handler (va_id validator);;
  on_store (fun vs => stop_validator_keystore vs (sr_io env) validator_pk).

(** Removing a directory that exists. *)
Definition cleanup_dir (io : Io) (p : Path) (e : NodeError) : node_prog () :=
  d ← gets node_disk;
  if path_exists d p then
    if io_writable io p then modify (set_node_disk (remove_dir_all p d)) else fail e
  else mret ().

Definition cleanup_db (io : Io) (base_dir : Path) (validator_id : Z) : node_prog () :=
  cleanup_dir io (join (join base_dir DB_FILENAME) (pretty validator_id)) UnableToRemoveDb.

Definition cleanup_validator_dir (io : Io) (dir : Path) (validator_pk : p1) : node_prog () :=
  cleanup_dir io (join dir (pk_text validator_pk)) UnableToDeleteDir.

(** The names in a directory. *)
Definition read_dir (d : Disk) (dir : Path) : list string :=
  omap (fun x => if bool_decide (parent x.1 = Some dir) then last x.1 else None) (map_to_list d).

Fixpoint password_loop (io : Io) (dir : Path) (prefix : string) (names : list string)
  : node_prog () :=
  match names with
  | [] => mret ()
  | name :: names =>
      d ← gets node_disk;
      if String.prefix prefix name then
        if path_exists d (join dir name) then
          if io_writable io (join dir name)
          then modify (set_node_disk (delete (join dir name) d))
          else fail UnableToDeletePassword
        else password_loop io dir prefix names
      else password_loop io dir prefix names
  end.

Definition cleanup_password_dir (io : Io) (dir : Path) (validator_pk : p1) : node_prog () :=
  d ← gets node_disk;
  if is_directory d dir then password_loop io dir (pk_text validator_pk) (read_dir d dir)
  else fail UnableToReadSecretDir.

Definition remove_validator (cfg : NodeConfig) (env : surroundings) (validator : Validator)
  : node_prog () :=
  let io := sr_io env in
  validator_pk ← ok_or_fail (PublicKey_deserialize (va_public_key validator)) BadValidatorKey;
  base_dir ← ok_or_fail (parent (secrets_dir cfg)) NoParentOfSecrets;
  cleanup_handler (va_id validator);;
  on_store (fun vs => remove_validator_keystore vs io validator_pk);;
  cleanup_db io base_dir (va_id validator);;
  cleanup_validator_dir io (validator_dir cfg) validator_pk;;
  cleanup_password_dir io (secrets_dir cfg) validator_pk.

(** ** Initiators *)

(** [query_ips], with the port of the key generation; [None] if one is unknown. *)
Definition operator_addrs (cfg : NodeConfig) (env : surroundings) (pks : list bytes)
  : option (list SocketAddr) :=
  mapM (fun pk => (fun ip => mkSocketAddr ip (u16 (port (base_address cfg) + DKG_PORT_OFFSET))) <$>
                  sr_query_ip env pk) pks.

Definition start_initiator (cfg : NodeConfig) (env : surroundings) (initiator : Initiator)
  (operator_public_keys : list bytes) : node_prog () :=
  secret_key ← expect (secp_secret_from_slice (node_secret cfg)) "Unable to load secret key";
  addrs ← ok_or_fail (operator_addrs cfg env operator_public_keys) InsufficientOperators;
  self_op_id ← ok_or_fail (sr_self_op_id env) NoSelfOperator;
  keys ← ok_or_fail (sr_dkg env (ini_releated_operators initiator) addrs) DkgFailed;
  let '(keypair, va_pk, shared_pks) := keys in
  lift (match elgamal_encrypt (sr_ephemeral env).1 (sr_ephemeral env).2
                (SecretKey_serialize (Keypair_sk keypair)) (secp_public_key secret_key) with
        | Ok _ => Ok ()
        | Err _ => Err UnableToDecryptShare
        | Panic msg => Panic msg
        | Diverged => Diverged
        end);;
  expect (shared_pks !! self_op_id) "called unwrap on a None value";;
  (if sr_request env then mret () else fail UnableToRequest);;
  modify (fun n => set_db (insert_initiator_store (node_db n)
    (mkRecord (ini_id initiator) (Keypair_sk keypair) va_pk shared_pks)) n).

(** The keys of the initiator, compared with the key of the validator. *)
Definition initiator_keys (initiator_id : Z) : node_prog (Keypair * p1 * gmap Z p1) :=
  d ← gets node_db;
  stored ← lift (match query_initiator_store d initiator_id with
                 | Ok (Some record) => Ok record
                 | Ok None | Err _ => Err NoInitiatorStore
                 | Panic msg => Panic msg
                 | Diverged => Diverged
                 end);
  mret (mkKeypair _ (SecretKey_public_key (rec_share_bls_sk stored)) (rec_share_bls_sk stored),
        rec_validator_pk stored, rec_share_bls_pks stored).

Definition minipool_deposit (cfg : NodeConfig) (env : surroundings) (initiator_id : Z)
  (validator_pk : bytes) (operator_public_keys : list bytes) (operator_ids : list Z)
  (minipool_address : Address) (amount : Z) : node_prog () :=
  addrs ← ok_or_fail (operator_addrs cfg env operator_public_keys) InsufficientOperators;
  self_op_id ← ok_or_fail (sr_self_op_id env) NoSelfOperator;
  keys ← initiator_keys initiator_id;
  let '(keypair, va_pk, op_bls_pks) := keys in
  mpk ← ok_or_fail (PublicKey_deserialize validator_pk) BadValidatorKey;
  if negb (bool_decide (mpk = va_pk)) then fail KeysDontMatch
  else
    (if sr_signed env keypair va_pk op_bls_pks operator_ids addrs (Some (minipool_address, amount))
     then mret () else fail DistributedSigningFailed);;
    (if sr_request env then mret () else fail UnableToRequest).

(** An operator that has not been discovered panics. *)
Definition remove_initiator (cfg : NodeConfig) (env : surroundings) (initiator : Initiator)
  (operator_public_keys : list bytes) : node_prog () :=
  addrs ← expect (operator_addrs cfg env operator_public_keys) "called unwrap on a None value";
  self_op_id ← ok_or_fail (sr_self_op_id env) NoSelfOperator;
  keys ← initiator_keys (ini_id initiator);
  let '(keypair, va_pk, op_bls_pks) := keys in
  validator_pk ← expect (ini_validator_pk initiator) "called unwrap on a None value";
  mpk ← ok_or_fail (PublicKey_deserialize validator_pk) BadValidatorKey;
  if negb (bool_decide (mpk = va_pk)) then fail KeysDontMatch
  else if sr_signed env keypair va_pk op_bls_pks (ini_releated_operators initiator) addrs None
  then mret () else fail DistributedSigningFailed.

(** ** The loop *)

(** The function that a command calls; [executed] records the call. *)
Definition run_command (cfg : NodeConfig) (env : surroundings) (cmd : ContractCommand)
  : node_prog () :=
  modify (record_command cmd);;
  match cmd with
  | StartValidator validator operator_pks shared_pks encrypted_sks =>
      add_validator cfg env validator operator_pks shared_pks encrypted_sks
  | RemoveValidator validator => remove_validator cfg env validator
  | ActivateValidator validator => activate_validator env validator
  | StopValidator validator => stop_validator env validator
  | StartInitiator initiator operator_pks => start_initiator cfg env initiator operator_pks
  | MiniPoolCreated initiator_id validator_pk op_pks op_ids minipool_address =>
      minipool_deposit cfg env initiator_id validator_pk op_pks op_ids minipool_address 1000000000
  | MiniPoolReady initiator_id validator_pk op_pks op_ids minipool_address =>
      minipool_deposit cfg env initiator_id validator_pk op_pks op_ids minipool_address 31000000000
  | RemoveInitiator initiator op_pks => remove_initiator cfg env initiator op_pks
  end.

(** One turn of [process_contract_command], at the time [now]. *)
Definition process_contract_command (cfg : NodeConfig) (env : surroundings) (now : Z)
  : node_prog () :=
  d ← gets node_db;
  let '(d, (command, id)) := get_contract_command now d in
  modify (set_db d);;
  if id =? 0 then mret ()
  else
    cmd ← expect (from_json command) "called unwrap on an Err value";
    r ← caught (run_command cfg env cmd);
    match r with
    | inr _ => modify (fun n => set_db (Api.delete_contract_command now (node_db n) id) n)
    | inl _ => modify (fun n => set_db (Api.updatetime_contract_command now (node_db n) id) n)
    end.

(** ** Changes of addresses *)

(** The loop of [spawn_committee_ip_monitor] over the operators: the addresses with
    the ips that are known now, and whether one has changed. *)
Definition refresh_addrs (query_ip : PublicKey -> option Z) (base_port : Z)
  (def : OperatorCommitteeDefinition) : outcome NodeError (list (option SocketAddr) * bool) :=
  foldl (fun acc x =>
    '(addrs, restart) ← acc;
    match query_ip x.2 with
    | None => mret (addrs, restart)
    | Some new_ip =>
        addr ← unwrap (addrs !! x.1);
        match addr with
        | Some socket =>
            if ip socket =? new_ip then mret (addrs, restart)
            else mret (<[x.1 := Some (mkSocketAddr new_ip (port socket))]> addrs, true)
        | None => mret (<[x.1 := Some (mkSocketAddr new_ip base_port)]> addrs, true)
        end
    end) (Ok (def_base_socket_addresses def, false)) (imap pair (def_node_public_keys def)).

Definition set_addresses (def : OperatorCommitteeDefinition) (addrs : list (option SocketAddr))
  : OperatorCommitteeDefinition :=
  mkDefinition (def_total def) (def_threshold def) (def_validator_id def)
    (def_validator_public_key def) (def_operator_ids def) (def_operator_public_keys def)
    (def_node_public_keys def) addrs.

(** [false] when the validator store is not ready. *)
Definition restart_validator (env : surroundings) (validator_id : Z) (validator_pk : p1)
  : node_prog bool :=
  cleanup_handler validator_id;;
  store ← gets validator_store;
  match store with
  | None => mret false
  | Some _ =>
      on_store (fun vs => stop_validator_keystore vs (sr_io env) validator_pk);;
      on_store (fun vs => start_validator_keystore vs (sr_io env) (sr_opened env) validator_pk);;
      mret true
  end.

(** The inner loop, with the surroundings of each try. *)
Fixpoint restart_loop (envs : list surroundings) (validator_id : Z) (validator_pk : p1)
  : node_prog () :=
  match envs with
  | [] => lift (Diverged : outcome NodeError ())
  | env :: envs =>
      restart_validator env validator_id validator_pk ≫= fun done : bool =>
      if done then mret () else restart_loop envs validator_id validator_pk
  end.

(** One tick of the monitor: a changed committee is saved and its validator
    restarted. *)
Definition monitor_tick (cfg : NodeConfig) (query_ip : PublicKey -> option Z) (io : Io)
  (envs : list surroundings) (def : OperatorCommitteeDefinition)
  : node_prog OperatorCommitteeDefinition :=
  lift (refresh_addrs query_ip (port (base_address cfg)) def) ≫=
    fun x : list (option SocketAddr) * bool =>
  let def := set_addresses def x.1 in
  if x.2 then
    d ← gets node_disk;
    match replace_file io
            (default_operator_committee_definition_path (def_validator_public_key def)
               (validator_dir cfg)) (CommitteeFile def) d with
    | None => mret def
    | Some d =>
        modify (set_node_disk d);;
        restart_loop envs (def_validator_id def) (def_validator_public_key def);;
        mret def
    end
  else mret def.
End node.
