(* ===== verification/NodeRuns.v ===== *)
(** * What the commands of a node do

    The theorems on [NodeCommands]: the commands of every owner are executed in the
    order in which the contract gave them and each once; the validators that run
    follow the commands; and a registered validator signs its duties. *)

From S2P Require Import Prelude Store Committee Messages Network Core Ideal Mempool.
From S2P Require Import Scalars Blst BlstIdeal Polynomial Threshold Processes IoCommittee Operator DvfCore.
From S2P Require Import Doppelganger KeyCache KeyFiles InitializedValidators ValidatorUpdates ValidatorStore.
From S2P Require Import Elgamal Database Contract NodeCommands.

(** ** The queue *)

Section queue.
Context `{Eth2Keystore} `{Bincode} `{!SigCodec} `{MempoolCodec} `{Rocksdb Digest bytes}.
Context `{EthSpec} `{SlashingDatabase} `{Sqlite} `{!SqliteLaws} `{Web3} `{Secp256k1} `{Aes}.

Definition same_queue (d d' : db) : Prop :=
  contract_commands d' = contract_commands d /\ next_command d' = next_command d /\
  contract_cmd_sequence d' = contract_cmd_sequence d.

Definition keeps_queue {A} (m : node_prog A) : Prop :=
  forall n, wp m (fun _ n' => same_queue (node_db n) (node_db n') /\ executed n' = executed n) n.

Lemma same_queue_refl d : same_queue d d.
Proof. done. Qed.

Lemma same_queue_trans d1 d2 d3 : same_queue d1 d2 -> same_queue d2 d3 -> same_queue d1 d3.
Proof. unfold same_queue. intuition congruence. Qed.

Lemma keeps_bind {A B} (m : node_prog A) (k : A -> node_prog B) :
  keeps_queue m -> (forall a, keeps_queue (k a)) -> keeps_queue (m ≫= k).
Proof.
  intros Hm Hk n. apply wp_bind. eapply wp_mono; [|apply Hm].
  intros [a|e|msg|] n' [Hn' Hx]; cbn [bind_post]; try done.
  eapply wp_mono; [|apply Hk]. intros r n'' [Hn'' ->]. split; [by eapply same_queue_trans|done].
Qed.

Lemma keeps_ret {A} (a : A) : keeps_queue (mret a).
Proof. done. Qed.
Lemma keeps_gets {A} (f : Node -> A) : keeps_queue (gets f).
Proof. done. Qed.
Lemma keeps_fail {A} e : keeps_queue (fail (A:=A) e).
Proof. done. Qed.
Lemma keeps_lift {A} (m : outcome NodeError A) : keeps_queue (lift m).
Proof. done. Qed.
Lemma keeps_expect {A} (o : option A) msg : keeps_queue (expect o msg).
Proof. by destruct o. Qed.
Lemma keeps_ok_or_fail {A} (o : option A) e : keeps_queue (ok_or_fail o e).
Proof. by destruct o. Qed.
Lemma keeps_modify (f : Node -> Node) :
  (forall n, same_queue (node_db n) (node_db (f n)) /\ executed (f n) = executed n) ->
  keeps_queue (modify f).
Proof. intros Hf n. apply Hf. Qed.
Lemma keeps_on_disk {A} (m : prog Disk BuilderError A) : keeps_queue (on_disk m).
Proof. intros n. unfold wp, on_disk. by destruct (m (node_disk n)). Qed.
Lemma keeps_on_store {E A} (f : ValidatorStore -> Disk -> Handlers ->
  ValidatorStore * outcome E A * Disk * Handlers) : keeps_queue (on_store f).
Proof.
  intros n. unfold wp, on_store. destruct (validator_store n); [|done].
  by destruct (f _ _ _) as [[[? ?] ?] ?].
Qed.
End queue.

Ltac queue_step :=
  first
    [ apply keeps_bind; [|intros] | apply keeps_ret | apply keeps_gets | apply keeps_fail
    | apply keeps_lift | apply keeps_expect | apply keeps_ok_or_fail | apply keeps_on_disk
    | apply keeps_on_store | apply keeps_modify; done | progress case_match ].

Section queue_facts.
Context `{Eth2Keystore} `{Bincode} `{!SigCodec} `{MempoolCodec} `{Rocksdb Digest bytes}.
Context `{EthSpec} `{SlashingDatabase} `{Sqlite} `{!SqliteLaws} `{Web3} `{Secp256k1} `{Aes}.

Lemma keeps_password_loop io dir prefix names : keeps_queue (password_loop io dir prefix names).
Proof. induction names as [|name names IH]; cbn [password_loop]; repeat queue_step; done. Qed.

(** A command leaves the queue alone and is recorded once. *)
Lemma run_command_keeps cfg env cmd n :
  wp (run_command cfg env cmd) (fun _ n' =>
    same_queue (node_db n) (node_db n') /\ executed n' = executed n ++ [cmd]) n.
Proof.
  unfold run_command. apply wp_bind, wp_modify. cbn [bind_post].
  match goal with |- wp ?m _ _ => assert (keeps_queue m) as Hk; [|exact (Hk (record_command cmd n))] end.
  destruct cmd;
    unfold NodeCommands.add_validator, remove_validator, activate_validator, stop_validator, start_initiator,
      minipool_deposit, remove_initiator, initiator_keys, cleanup_handler, cleanup_db, cleanup_validator_dir,
      cleanup_dir, cleanup_password_dir, write_committee;
    repeat first [queue_step | apply keeps_password_loop].
Qed.

(** ** Turns of the loop *)

(** The owner and the text of the command that a turn takes. *)
Definition handed (now : Z) (d : db) : option (Z * string) :=
  let '(_, (command, id)) := get_contract_command now d in
  if id =? 0 then None
  else
    match list_find (fun r => cr_id r = id) (contract_commands d) with
    | Some (_, r) => Some (cr_owner r, command)
    | None => None
    end.

(** The commands of an owner. *)
Definition of_owner (v : Z) (l : list (Z * string)) : list string :=
  omap (fun x => if bool_decide (x.1 = v) then Some x.2 else None) l.

Lemma queue_wf_same d d' : same_queue d d' -> queue_wf d -> queue_wf d'.
Proof.
  intros (Ec & En & Es) [H1' H2' H3' H4' H5' H6']. split; rewrite ?Ec, ?En, ?Es; try done.
Qed.

Lemma waiting_same v d d' : same_queue d d' -> waiting v d' = waiting v d.
Proof. unfold waiting. by intros (-> & _). Qed.

Lemma row_of_id d r :
  queue_wf d -> r ∈ contract_commands d ->
  exists i, list_find (fun x => cr_id x = cr_id r) (contract_commands d) = Some (i, r).
Proof.
  intros Hwf Hr.
  destruct (list_find_elem_of (fun x => cr_id x = cr_id r) (contract_commands d) r Hr)
    as [[i x] Ei]; [done|]. exists i. rewrite Ei. apply list_find_Some in Ei as (Hx & Hid & _).
  do 2 f_equal. apply list_elem_of_lookup in Hr as [j Hj].
  assert (i = j) as ->; [|congruence].
  eapply NoDup_lookup; [exact (q_nodup _ Hwf)| |]; rewrite list_lookup_fmap.
  - rewrite Hx. cbn. by rewrite Hid.
  - by rewrite Hj.
Qed.

(** A turn executes the first command of an owner and deletes it, unless the text
    or the command panics. *)
Lemma turn_takes cfg env now n :
  queue_wf (node_db n) -> contract_commands (node_db n) <> [] ->
  exists r pre post,
    contract_commands (node_db n) = pre ++ r :: post /\
    (forall x, x ∈ pre -> cr_owner x <> cr_owner r) /\
    handed now (node_db n) = Some (cr_owner r, cr_command r) /\
    (get_contract_command now (node_db n)).1 = updatetime_contract_command now (node_db n) (cr_id r) /\
    process_contract_command cfg env now n =
      let n1 := set_db (updatetime_contract_command now (node_db n) (cr_id r)) n in
      match from_json (cr_command r) with
      | None => (Panic "called unwrap on an Err value", n1)
      | Some cmd =>
          match run_command cfg env cmd n1 with
          | (Ok _, n2) | (Err _, n2) =>
              (Ok (), set_db (delete_contract_command (node_db n2) (cr_id r)) n2)
          | (Panic msg, n2) => (Panic msg, n2)
          | (Diverged, n2) => (Diverged, n2)
          end
      end.
Proof.
  intros Hwf Hne. destruct (get_first now (node_db n) Hwf Hne) as (r & pre & post & Hrows & Hpre & Hget).
  exists r, pre, post. do 2 (split; [done|]).
  assert (r ∈ contract_commands (node_db n)) as Hr.
  { rewrite Hrows. apply elem_of_app. right. apply list_elem_of_here. }
  pose proof (q_ids _ Hwf r Hr) as Hid. unfold handed, process_contract_command.
  destruct (row_of_id _ r Hwf Hr) as [i Hi]. rewrite Hget, (proj2 (Z.eqb_neq (cr_id r) 0)), Hi by lia.
  do 2 (split; [done|]). erewrite run_bind; [|reflexivity]. cbv beta. rewrite Hget.
  erewrite run_bind; [|reflexivity]. cbv beta. rewrite (proj2 (Z.eqb_neq (cr_id r) 0)) by lia.
  destruct (from_json (cr_command r)) as [cmd|]; [|done]. cbn zeta.
  erewrite run_bind; [|reflexivity]. cbv beta. unfold caught, mbind, prog_bind.
  by destruct (run_command cfg env cmd _) as [[]].
Qed.

(** The commands that were read from the texts [ran]. *)
Definition parsed (ran : list (Z * string)) (cmds : list ContractCommand) : Prop :=
  map (fun x => from_json x.2) ran = map Some cmds.

Lemma turn_spec cfg env now n n' :
  queue_wf (node_db n) -> process_contract_command cfg env now n = (Ok (), n') ->
  queue_wf (node_db n') /\
  (exists cmds, executed n' = executed n ++ cmds /\
     parsed (option_list (handed now (node_db n))) cmds) /\
  (forall v, waiting v (node_db n) =
     of_owner v (option_list (handed now (node_db n))) ++ waiting v (node_db n')) /\
  length (contract_commands (node_db n')) = pred (length (contract_commands (node_db n))).
Proof.
  intros Hwf Hp. destruct (decide (contract_commands (node_db n) = [])) as [Hnil|Hne].
  { unfold process_contract_command in Hp. erewrite run_bind in Hp; [|reflexivity].
    unfold handed. rewrite (get_none now _ Hnil) in Hp |- *. erewrite run_bind in Hp; [|reflexivity].
    cbn in Hp. injection Hp as <-. destruct n; cbn in *. rewrite Hnil. split_and!; try done.
    exists []. by rewrite app_nil_r. }
  destruct (turn_takes cfg env now n Hwf Hne) as (r & pre & post & Hrows & Hpre & Hh & _ & Ep).
  rewrite Ep in Hp. cbv zeta in Hp. destruct (from_json _) as [cmd|] eqn:Hcmd; [|done]. rewrite Hh.
  pose proof (run_command_keeps cfg env cmd
    (set_db (updatetime_contract_command now (node_db n) (cr_id r)) n)) as Hk. unfold wp in Hk.
  destruct (run_command cfg env cmd _) as [res n2]. cbn in Hk. destruct Hk as [Hk Hx].
  assert (n' = set_db (delete_contract_command (node_db n2) (cr_id r)) n2) as ->
    by (destruct res; naive_solver). clear Hp Ep.
  assert (queue_wf (node_db n2)) as Hwf2 by (eapply queue_wf_same; [done|by apply queue_wf_touch]).
  assert (contract_commands (node_db n2) =
    map (touch now (cr_id r)) pre ++ touch now (cr_id r) r :: map (touch now (cr_id r)) post) as Hrows2.
  { destruct Hk as (-> & _). cbn. by rewrite Hrows, map_app. }
  destruct (touch_same now (cr_id r) r) as (Ti & To & _ & Tc).
  split; [by apply queue_wf_delete|]. split; [|split].
  - exists [cmd]. split; [exact Hx|]. unfold parsed. cbn. by rewrite Hcmd.
  - intros v. rewrite <- (waiting_touch v now (cr_id r) (node_db n)), <- (waiting_same v _ _ Hk).
    rewrite (waiting_delete (node_db n2) (touch now (cr_id r) r) _ _ v Hwf2 Hrows2), Ti, To, Tc.
    + cbn. by destruct (bool_decide (cr_owner r = v)).
    + intros x (y & -> & Hy)%list_elem_of_fmap. rewrite To.
      destruct (touch_same now (cr_id r) y) as (_ & -> & _). by apply Hpre.
  - cbn [node_db set_db]. rewrite <- Ti at 1.
    rewrite (delete_row (node_db n2) _ _ _ Hwf2 Hrows2), Hrows.
    rewrite !length_app, !length_map. cbn. lia.
Qed.

(** A turn that panics keeps its command. *)
Lemma turn_panics cfg env now n msg n' :
  queue_wf (node_db n) -> process_contract_command cfg env now n = (Panic msg, n') ->
  forall v, waiting v (node_db n') = waiting v (node_db n).
Proof.
  intros Hwf Hp v. destruct (decide (contract_commands (node_db n) = [])) as [Hnil|Hne].
  { unfold process_contract_command in Hp. erewrite run_bind in Hp; [|reflexivity].
    rewrite (get_none now _ Hnil) in Hp. erewrite run_bind in Hp; [|reflexivity].
    by cbn in Hp. }
  destruct (turn_takes cfg env now n Hwf Hne) as (r & pre & post & _ & _ & _ & _ & Ep).
  rewrite Ep in Hp. cbv zeta in Hp.
  destruct (from_json _) as [cmd|]; [|injection Hp as _ <-; apply waiting_touch].
  pose proof (run_command_keeps cfg env cmd
    (set_db (updatetime_contract_command now (node_db n) (cr_id r)) n)) as [Hk _].
  destruct (run_command cfg env cmd _) as [[] n2]; try done. injection Hp as -> <-. cbn in Hk.
  by rewrite (waiting_same v _ _ Hk), waiting_touch.
Qed.

(** ** Runs: commands are queued and executed *)

Inductive node_event : Type :=
| Queued (now owner : Z) (command : string)
| Turn (env : surroundings) (now : Z).

Definition queued_by (v : Z) (events : list node_event) : list string :=
  omap (fun e => match e with
                 | Queued _ owner c => if bool_decide (owner = v) then Some c else None
                 | Turn _ _ => None
                 end) events.

Definition is_turn (e : node_event) : bool :=
  match e with Turn _ _ => true | Queued _ _ _ => false end.

(** The node after the events; it ends when a turn panics. *)
Fixpoint run_node (cfg : NodeConfig) (events : list node_event) (n : Node)
  : outcome NodeError () * Node :=
  match events with
  | [] => (Ok (), n)
  | Queued now owner command :: events =>
      run_node cfg events (set_db (insert_contract_command now (node_db n) owner command) n)
  | Turn env now :: events =>
      match process_contract_command cfg env now n with
      | (Ok _, n') => run_node cfg events n'
      | (r, n') => (r, n')
      end
  end.

(** The commands that were run between two states come from the texts [ran] of the
    queue, in the same order. *)
Definition ran_between (n n' : Node) (ran : list (Z * string)) : Prop :=
  exists cmds, executed n' = executed n ++ cmds /\ parsed ran cmds.

Lemma of_owner_app v l1 l2 : of_owner v (l1 ++ l2) = of_owner v l1 ++ of_owner v l2.
Proof. apply omap_app. Qed.

Lemma ran_between_trans n1 n2 n3 l1 l2 :
  ran_between n1 n2 l1 -> ran_between n2 n3 l2 -> ran_between n1 n3 (l1 ++ l2).
Proof.
  intros (c1 & E1 & P1) (c2 & E2 & P2). exists (c1 ++ c2). unfold parsed in *.
  by rewrite E2, E1, <- app_assoc, !map_app, P1, P2.
Qed.

Lemma run_node_order cfg events n n' :
  queue_wf (node_db n) -> run_node cfg events n = (Ok (), n') ->
  queue_wf (node_db n') /\
  exists ran, ran_between n n' ran /\ forall v,
    of_owner v ran ++ waiting v (node_db n') = waiting v (node_db n) ++ queued_by v events.
Proof.
  revert n. induction events as [|[now o c|env now] events IH]; intros n Hwf Hrun; cbn [run_node] in Hrun.
  - injection Hrun as <-. split; [done|]. exists []. split; [exists []; by rewrite app_nil_r|].
    intros v. by rewrite app_nil_r.
  - apply IH in Hrun as [Hwf' (ran & Hran & Hv)]; [|by apply queue_wf_insert]. split; [done|].
    exists ran. split; [exact Hran|]. intros v.
    rewrite Hv. cbn [node_db set_db]. rewrite waiting_insert, <- app_assoc. f_equal. cbn.
    by destruct (bool_decide (o = v)).
  - destruct (process_contract_command cfg env now n) as [[[]|e|msg|] n1] eqn:Ep; try done.
    destruct (turn_spec _ _ _ _ _ Hwf Ep) as (Hwf1 & Hx & Hw & _).
    destruct (IH n1 Hwf1 Hrun) as [Hwf2 (ran & Hran & Hv)]. split; [done|].
    exists (option_list (handed now (node_db n)) ++ ran).
    split; [by eapply ran_between_trans|]. intros v.
    by rewrite of_owner_app, <- app_assoc, Hv, Hw, <- app_assoc.
Qed.

Lemma run_node_drains cfg events n n' :
  queue_wf (node_db n) -> run_node cfg events n = (Ok (), n') ->
  (forall e, e ∈ events -> is_turn e = true) ->
  length (contract_commands (node_db n')) = (length (contract_commands (node_db n)) - length events)%nat.
Proof.
  revert n. induction events as [|[now o c|env now] events IH]; intros n Hwf Hrun Ht; cbn [run_node] in Hrun.
  - injection Hrun as <-. cbn. lia.
  - discriminate (Ht (Queued now o c) (list_elem_of_here _ _)).
  - destruct (process_contract_command cfg env now n) as [[[]|e|msg|] n1] eqn:Ep; try done.
    destruct (turn_spec _ _ _ _ _ Hwf Ep) as (Hwf1 & _ & _ & Hl).
    rewrite (IH n1 Hwf1 Hrun). { rewrite Hl. cbn. lia. }
    intros e He. apply Ht. by apply list_elem_of_further.
Qed.

Lemma queued_by_turns v events :
  (forall e, e ∈ events -> is_turn e = true) -> queued_by v events = [].
Proof.
  induction events as [|[now o c|env now] events IH]; intros Ht; [done| |].
  - discriminate (Ht (Queued now o c) (list_elem_of_here _ _)).
  - apply IH. intros e He. apply Ht. by apply list_elem_of_further.
Qed.

(** C15: the commands of every owner are run in the order in which they were queued,
    each once.  As long as no turn panics, the commands that the node has run since the
    start come from a sequence of queued texts in which, for every owner, those
    texts followed by the ones that wait are the texts that waited at the start
    followed by the ones queued since, whatever the commands do, whether they fail,
    and however the queueing interleaves with the turns of the loop; and as many turns
    as there are waiting commands run all of them.  A turn that panics, which ends
    the loop, leaves every command in the queue, the one it took included. *)
Theorem commands_in_order cfg events rest n n1 n2 :
  queue_wf (node_db n) ->
  run_node cfg events n = (Ok (), n1) ->
  run_node cfg rest n1 = (Ok (), n2) ->
  (forall e, e ∈ rest -> is_turn e = true) ->
  (length (contract_commands (node_db n1)) <= length rest)%nat ->
  (exists ran, ran_between n n1 ran /\ forall v,
     of_owner v ran ++ waiting v (node_db n1) = waiting v (node_db n) ++ queued_by v events) /\
  contract_commands (node_db n2) = [] /\
  (exists ran, ran_between n n2 ran /\ forall v,
     of_owner v ran = waiting v (node_db n) ++ queued_by v events) /\
  forall env now msg n3, process_contract_command cfg env now n1 = (Panic msg, n3) ->
    forall v, waiting v (node_db n3) = waiting v (node_db n1).
Proof.
  intros Hwf H1' H2' Ht Hl. destruct (run_node_order _ _ _ _ Hwf H1') as [Hwf1 (ran & Hran & Hv)].
  destruct (run_node_order _ _ _ _ Hwf1 H2') as [_ (ran' & Hran' & Hv')].
  assert (contract_commands (node_db n2) = []) as Hnil.
  { apply length_zero_iff_nil. rewrite (run_node_drains _ _ _ _ Hwf1 H2' Ht). lia. }
  split; [by exists ran|]. split; [done|]. split; [|intros ????; by apply turn_panics].
  exists (ran ++ ran'). split; [by eapply ran_between_trans|]. intros v.
  rewrite of_owner_app, <- Hv. f_equal.
  specialize (Hv' v). rewrite (queued_by_turns v rest Ht), app_nil_r in Hv'. rewrite <- Hv'.
  unfold waiting. by rewrite Hnil, filter_nil, app_nil_r.
Qed.

(** A command that fails is not tried again.  The turn that executed it ends
    without an error and its row is deleted as after a success, with everything else
    as the command left it. *)
Theorem failed_command_dropped cfg env now n v text cmd e n2 :
  queue_wf (node_db n) ->
  handed now (node_db n) = Some (v, text) ->
  from_json text = Some cmd ->
  run_command cfg env cmd (set_db (get_contract_command now (node_db n)).1 n) = (Err e, n2) ->
  exists d,
    process_contract_command cfg env now n = (Ok (), set_db d n2) /\
    waiting v (node_db n) = text :: waiting v d /\
    forall w, w <> v -> waiting w d = waiting w (node_db n).
Proof.
  intros Hwf Hh Hj Hrun.
  assert (contract_commands (node_db n) <> []) as Hne.
  { intros Hnil. unfold handed in Hh. by rewrite (get_none now _ Hnil) in Hh. }
  destruct (turn_takes cfg env now n Hwf Hne) as (r & pre & post & _ & _ & Hh' & Hget & Ep).
  rewrite Hh in Hh'. injection Hh' as -> ->. rewrite Hget in Hrun. cbv zeta in Ep.
  rewrite Hj, Hrun in Ep. eexists. split; [exact Ep|].
  destruct (turn_spec _ _ _ _ _ Hwf Ep) as (_ & _ & Hw & _). rewrite Hh in Hw. cbn in Hw. split.
  - rewrite Hw, bool_decide_true by done. done.
  - intros w Hv. rewrite Hw, bool_decide_false by done. done.
Qed.
End queue_facts.

(** ** A node whose commands fail *)

Section witnesses.
#[local] Existing Instances ideal_blst ideal_bincode ideal_sig_codec memory_db ideal_mempool.
#[local] Existing Instances ideal_keystore_crypto ideal_eth2_keystore mainnet demo_beacon history_db.
#[local] Existing Instances ideal_sqlite ideal_sqlite_laws ideal_web3 ideal_web3_laws ideal_secp ideal_aes.

Definition idle_surroundings : surroundings :=
  mkSurroundings local_io local_opened 9 (fun _ => None) None 0 None (fun _ _ => None)
    (fun _ _ _ _ _ _ => false) (6, []) true.
Definition idle_config : NodeConfig := mkNodeConfig [5] 11 demo_address ["v"] ["s"].
Definition idle_node (d : db) : Node := mkNode None ∅ (mkHandlers ∅ ∅ ∅ ∅) d [].

(** Commands on a validator without a public key, which end in an error. *)
Definition bad_command (id : Z) : ContractCommand := ActivateValidator (mkValidator id 7 [] [] true).
Definition bad_text (id : Z) : string := to_json (bad_command id).

Definition some_events : list node_event :=
  [Queued 1 7 (bad_text 1); Queued 2 7 (bad_text 2); Turn idle_surroundings 3].
Definition some_run := run_node idle_config some_events (idle_node empty_db).
Definition rest_run := run_node idle_config [Turn idle_surroundings 4] some_run.2.

Lemma run_ok (x : outcome NodeError () * Node) :
  match x.1 with Ok _ => true | _ => false end = true -> x = (Ok (), x.2).
Proof. by destruct x as [[[]| | |] n]. Qed.

Lemma some_run_ok :
  run_node idle_config some_events (idle_node empty_db) = (Ok (), some_run.2).
Proof. unfold some_run. apply run_ok. vm_compute. reflexivity. Qed.

Lemma rest_run_ok :
  run_node idle_config [Turn idle_surroundings 4] some_run.2 = (Ok (), rest_run.2).
Proof. unfold rest_run. apply run_ok. vm_compute. reflexivity. Qed.

Lemma commands_in_order_witness :
  contract_commands (node_db rest_run.2) = [] /\
  exists ran, ran_between (idle_node empty_db) rest_run.2 ran /\
    of_owner 7 ran = [bad_text 1; bad_text 2].
Proof.
  destruct (commands_in_order idle_config some_events [Turn idle_surroundings 4] (idle_node empty_db)
    some_run.2 rest_run.2) as (_ & Hnil & (ran & Hran & Hv) & _).
  - apply queue_wf_empty.
  - exact some_run_ok.
  - exact rest_run_ok.
  - by intros e ->%list_elem_of_singleton.
  - apply Nat.leb_le. vm_compute. reflexivity.
  - split; [exact Hnil|]. exists ran. split; [exact Hran|]. exact (Hv 7).
Defined.

Definition one_command : db := insert_contract_command 1 empty_db 7 (bad_text 1).

Lemma failed_command_dropped_witness :
  exists d n2, process_contract_command idle_config idle_surroundings 3 (idle_node one_command) =
      (Ok (), set_db d n2) /\ waiting 7 one_command = bad_text 1 :: waiting 7 d.
Proof.
  destruct (failed_command_dropped idle_config idle_surroundings 3 (idle_node one_command) 7 (bad_text 1)
    (bad_command 1) BadValidatorKey (record_command (bad_command 1)
      (set_db (get_contract_command 3 one_command).1 (idle_node one_command))))
    as (d & Hrun & Hw & _).
  - apply queue_wf_insert, queue_wf_empty.
  - reflexivity.
  - apply from_to_json.
  - reflexivity.
  - eauto.
Defined.
End witnesses.
