(* ===== verification/NodeValidators.v ===== *)
(** * The validators of a node follow its commands

    What the commands of [NodeCommands] do to the validators: those that run and the
    handlers that other operators reach, when validators are activated, stopped and
    removed, and what a registered validator signs. *)

From S2P Require Import Prelude Store Committee Messages Network Core Ideal Mempool.
From S2P Require Import Scalars Blst BlstIdeal Polynomial Threshold Processes IoCommittee Operator DvfCore.
From S2P Require Import Doppelganger KeyCache KeyFiles InitializedValidators ValidatorUpdates ValidatorStore.
From S2P Require Import Elgamal Database Contract NodeCommands.

Section validators.
Context `{Eth2Keystore} `{!BlstLaws} `{Bincode} `{!SigCodec} `{MempoolCodec} `{Rocksdb Digest bytes}.
Context `{EthSpec} `{SlashingDatabase} `{Sqlite} `{Web3} `{Secp256k1} `{Aes}.
Context (mat : p1 -> material).
Implicit Types (n : Node) (vs : ValidatorStore).

(** The validators that run. *)
Definition validators_of vs : gmap PublicKeyBytes InitializedValidator :=
  InitializedValidators.validators (initialized_validators vs).

(** The validators of the store with the disk and the handlers of the node. *)
Definition world_of vs n : world := mkWorld (initialized_validators vs) (node_disk n) (node_maps n).

Definition with_world vs (w : world) n : Node :=
  mkNode (Some (set_initialized vs (iv w))) (disk w) (InitializedValidators.handlers w) (node_db n)
    (executed n).

Lemma world_of_with vs w n : world_of (set_initialized vs (iv w)) (with_world vs w n) = w.
Proof. by destruct w. Qed.

Lemma on_store_validators {A} (m : prog world IvError A) vs n r w :
  validator_store n = Some vs -> m (world_of vs n) = (r, w) -> quiet r ->
  on_store (on_validators m) n = (Ok (), with_world vs w n).
Proof.
  intros Hvs Hm Hq. unfold on_store, on_validators. rewrite Hvs. fold (world_of vs n). rewrite Hm.
  by destruct Hq as [[a ->]|[e ->]].
Qed.

Lemma removed_handlers id h X :
  handlers_are h X -> handlers_are (remove_handlers id h) (X ∖ {[id]}).
Proof. intros (<- & E2 & E3 & E4). unfold handlers_are. cbn. by rewrite E2, E3, E4. Qed.

Lemma no_new_delete (p : Path) (d : Disk) : no_new_committees d (delete p d).
Proof. intros q c. unfold Disk in *. by intros [_ Hq]%lookup_delete_Some. Qed.

Lemma no_new_remove_dir (p : Path) (d : gmap Path file) : no_new_committees d (remove_dir_all p d).
Proof.
  intros q c Hq. unfold remove_dir_all, Disk in Hq. by apply map_lookup_filter_Some in Hq as [Hq _].
Qed.

(** Programs that change nothing but the disk, and write no committee. *)
Definition only_disk (m : node_prog ()) : Prop :=
  forall n, wp m (fun r n' => exists d, n' = set_node_disk d n /\ no_new_committees (node_disk n) d) n.

Lemma only_disk_same n : exists d, n = set_node_disk d n /\ no_new_committees (node_disk n) d.
Proof. exists (node_disk n). split; [by destruct n|apply no_new_refl]. Qed.

Lemma only_disk_bind m m' : only_disk m -> only_disk m' -> only_disk (m;; m').
Proof.
  intros Hm Hm' n. apply wp_bind. eapply wp_mono; [|apply Hm].
  intros [[]|e|msg|] n' (d & -> & Hd); cbn [bind_post]; eauto.
  eapply wp_mono; [|apply Hm']. intros r n' (d' & -> & Hd'). exists d'. split; [done|].
  by eapply no_new_trans.
Qed.

Lemma only_disk_cleanup_dir io p e : only_disk (cleanup_dir io p e).
Proof.
  intros n. apply wp_bind, wp_gets. cbn [bind_post].
  destruct (path_exists _ _); [|apply only_disk_same].
  destruct (io_writable _ _); [|apply only_disk_same].
  apply wp_modify. eexists. split; [done|]. apply no_new_remove_dir.
Qed.

Lemma only_disk_password_loop io dir prefix names : only_disk (password_loop io dir prefix names).
Proof.
  induction names as [|name names IH]; intros n; cbn [password_loop]; [apply only_disk_same|].
  apply wp_bind, wp_gets. cbn [bind_post]. destruct (String.prefix _ _); [|apply IH].
  destruct (path_exists _ _); [|apply IH]. destruct (io_writable _ _); [|apply only_disk_same].
  apply wp_modify. eexists. split; [done|]. apply no_new_delete.
Qed.

Lemma only_disk_cleanup_password io dir pk : only_disk (cleanup_password_dir io dir pk).
Proof.
  intros n. apply wp_bind, wp_gets. cbn [bind_post].
  destruct (is_directory _ _); [apply only_disk_password_loop|apply only_disk_same].
Qed.

Lemma iv_ok_maps (w : world) h : iv_ok w -> iv_ok (set_handlers h w).
Proof. by intros [Hk Hr Hf]. Qed.

(** A command after which the validator of the key does not run. *)
Definition halted (pk : p1) vs n' : Prop :=
  exists vs', validator_store n' = Some vs' /\ synced mat (world_of vs' n') /\
    validators_of vs' = delete (compress pk) (validators_of vs).

Lemma halted_disk pk vs n' d :
  no_new_committees (node_disk n') d -> halted pk vs n' -> halted pk vs (set_node_disk d n').
Proof.
  intros Hd (vs' & Hvs & [Hok Hall Hh] & Hv). exists vs'. split; [done|]. split; [|done].
  split; [|done|done]. by apply (iv_ok_disk (world_of vs' n')).
Qed.

(** The store and the validator that a command is about. *)
Record commanded (env : surroundings) (validator : Validator) (pk : p1) vs n : Prop := {
  cm_store : validator_store n = Some vs;
  cm_key : PublicKey_deserialize (va_public_key validator) = Some pk;
  cm_id : va_id validator = id_of mat pk;
  cm_synced : synced mat (world_of vs n);
  cm_distributed def : def ∈ definitions (initialized_validators vs) ->
    is_distributed_keystore (signing_definition def) = true;
  cm_ids def : def ∈ definitions (initialized_validators vs) ->
    validator_id_of mat def = id_of mat pk -> voting_public_key def = pk;
  cm_config : config_writable (sr_io env) (world_of vs n)
}.

(** The node after [cleanup_handler]. *)
Definition detached (validator : Validator) n : Node :=
  set_maps (remove_handlers (va_id validator) (node_maps n)) n.

Lemma stopped_halted env validator pk vs n w :
  commanded env validator pk vs n ->
  stopped pk (world_of vs (detached validator n)) w ->
  halted pk vs (with_world vs w (detached validator n)).
Proof.
  intros [Hvs Hk Hid [Hok Hall Hh] Hdist Hids Hcw] Hst. eexists. split; [reflexivity|].
  rewrite world_of_with. split; [|apply (st_validators _ _ _ Hst)].
  apply (stopped_synced mat pk (world_of vs (detached validator n))).
  - done.
  - cbn. rewrite Hid. by apply removed_handlers.
  - done.
  - apply (ok_keys _ Hok).
  - done.
Qed.

Lemma stop_validator_halts env validator pk vs n :
  commanded env validator pk vs n ->
  exists n', stop_validator env validator n = (Ok (), n') /\ halted pk vs n'.
Proof.
  intros Hc. pose proof Hc as [Hvs Hk Hid [Hok Hall Hh] Hdist Hids Hcw].
  destruct (disable_keystore_stops (sr_io env) pk (world_of vs (detached validator n)))
    as (s & w & E & Hst); [by apply (iv_ok_maps (world_of vs n))|done|done|].
  eexists. split; [|by eapply stopped_halted].
  unfold stop_validator, node_prog. rewrite Hk. erewrite run_bind; [|reflexivity]. cbv beta.
  erewrite run_bind; [|reflexivity]. cbv beta.
  apply (on_store_validators _ vs (detached validator n) _ _ Hvs E). left. eauto.
Qed.

Lemma remove_validator_halts cfg env validator pk vs n dir :
  commanded env validator pk vs n -> parent (secrets_dir cfg) = Some dir ->
  wp (remove_validator cfg env validator) (fun _ n' => halted pk vs n') n.
Proof.
  intros Hc Hdir. pose proof Hc as [Hvs Hk Hid [Hok Hall Hh] Hdist Hids Hcw].
  unfold remove_validator. rewrite Hk, Hdir.
  apply wp_bind, wp_ret. cbn [bind_post]. apply wp_bind, wp_ret. cbn [bind_post].
  apply wp_bind, wp_modify. cbn [bind_post]. apply wp_bind.
  pose proof (delete_stops (sr_io env) pk (world_of vs (detached validator n))) as Hd.
  unfold wp at 1 in Hd. destruct (delete_definition_and_keystore _ _ _) as [r w] eqn:E.
  destruct Hd as [Hst Hq]; [by apply (iv_ok_maps (world_of vs n))|done|done|]. cbn in Hst, Hq.
  unfold wp at 1. change (set_maps _ n) with (detached validator n).
  unfold remove_validator_keystore. erewrite (on_store_validators _ vs); [|exact Hvs|exact E|exact Hq].
  cbn [fst snd bind_post]. eapply wp_mono.
  2:{ repeat apply only_disk_bind; [apply only_disk_cleanup_dir|apply only_disk_cleanup_dir|].
      apply only_disk_cleanup_password. }
  intros r' n' (d & -> & Hd). apply halted_disk; [done|]. by eapply stopped_halted.
Qed.

(** A command after which the validator of the key runs, if the node has its
    definition, and no other one has changed. *)
Definition launched (pk : p1) vs n' : Prop :=
  exists vs', validator_store n' = Some vs' /\ synced mat (world_of vs' n') /\
    (forall def, def ∈ definitions (initialized_validators vs) -> voting_public_key def = pk ->
       validators_of vs' !! compress pk =
         Some (default (started_validator mat def) (validators_of vs !! compress pk))) /\
    forall k, k <> compress pk -> validators_of vs' !! k = validators_of vs !! k.

Lemma enabled_others pk w w' :
  synced mat w -> synced mat w' ->
  follows mat (update_first pk (set_enabled true) (definitions (iv w))) w w' ->
  forall k, k <> compress pk ->
    InitializedValidators.validators (iv w') !! k = InitializedValidators.validators (iv w) !! k.
Proof.
  intros Hs Hs' Hf k Hk. pose proof (ok_keys _ (sy_ok _ _ Hs)) as Hnd.
  assert (forall def, voting_public_key def <> pk -> def ∈ definitions (iv w) <->
    def ∈ update_first pk (set_enabled true) (definitions (iv w))) as Hin.
  { intros def Hne. rewrite elem_of_update_first by done. split.
    - intros Hin. exists def. by rewrite bool_decide_eq_false_2.
    - intros (e & He & Ee). destruct (bool_decide (voting_public_key e = pk)) eqn:Eb; [|by subst].
      apply bool_decide_eq_true_1 in Eb. by subst. }
  destruct (InitializedValidators.validators (iv w') !! k) as [v|] eqn:Ev.
  - destruct (ok_running _ (sy_ok _ _ Hs') k v Ev) as (-> & def & Hd & En & Hdesc).
    rewrite (fo_definitions _ _ _ _ Hf) in Hd. rewrite <- (desc_key _ _ Hdesc) in *.
    assert (voting_public_key def <> pk) as Hne by congruence.
    rewrite (fo_running _ _ _ _ Hf def Hd), En in Ev.
    destruct (sy_all _ _ Hs def (proj2 (Hin def Hne) Hd) En) as [v' Hv']. by rewrite Hv' in Ev |- *.
  - destruct (InitializedValidators.validators (iv w) !! k) as [v|] eqn:Ev'; [|done]. exfalso.
    destruct (ok_running _ (sy_ok _ _ Hs) k v Ev') as (-> & def & Hd & En & Hdesc).
    rewrite <- (desc_key _ _ Hdesc) in *. assert (voting_public_key def <> pk) as Hne by congruence.
    by rewrite (fo_running _ _ _ _ Hf def (proj1 (Hin def Hne) Hd)), En in Ev.
Qed.

Lemma activate_validator_launches env validator pk vs n :
  commanded env validator pk vs n ->
  ready mat (sr_io env) (sr_opened env) (node_disk n) (iv_node (initialized_validators vs))
    (definitions (initialized_validators vs)) ->
  cache_readable (world_of vs n) ->
  exists n', activate_validator env validator n = (Ok (), n') /\ launched pk vs n'.
Proof.
  intros [Hvs Hk Hid Hs Hdist Hids Hcw] Hr Hc.
  destruct (enable_keystore_follows mat (sr_io env) (sr_opened env) pk (world_of vs n) Hs Hr Hc Hcw)
    as (w & E & Hf & Hs').
  exists (with_world vs w n). split.
  - unfold activate_validator, node_prog. rewrite Hk. erewrite run_bind; [|reflexivity]. cbv beta.
    apply (on_store_validators _ vs n _ _ Hvs E). left. eauto.
  - exists (set_initialized vs (iv w)). rewrite world_of_with. split_and!; [done|done| |].
    + intros def Hin Epk.
      assert (set_enabled true def ∈ update_first pk (set_enabled true) (definitions (iv (world_of vs n)))) as Hin'.
      { apply elem_of_update_first; [apply (ok_keys _ (sy_ok _ _ Hs))|].
        exists def. by rewrite bool_decide_eq_true_2. }
      pose proof (fo_running _ _ _ _ Hf _ Hin') as Hrun. cbn in Hrun. by rewrite Epk in Hrun.
    + intros k Hne. by apply (enabled_others pk (world_of vs n) w).
Qed.

Lemma commanded_record env validator pk vs n cmd :
  commanded env validator pk vs n -> commanded env validator pk vs (record_command cmd n).
Proof. intros []. by split. Qed.

(** C14: the validators that run follow the commands of the contract.  With files
    that can be read, activating a validator succeeds and runs it with the signer of
    its committee; stopping and removing one end it, whatever fails while its files
    are removed; no other validator changes, and after each command the node has the
    handlers of exactly the validators that are enabled. *)
Theorem validators_follow_commands cfg env validator pk vs n dir :
  commanded env validator pk vs n ->
  ready mat (sr_io env) (sr_opened env) (node_disk n) (iv_node (initialized_validators vs))
    (definitions (initialized_validators vs)) ->
  cache_readable (world_of vs n) ->
  parent (secrets_dir cfg) = Some dir ->
  (exists n', run_command cfg env (ActivateValidator validator) n = (Ok (), n') /\
     launched pk vs n') /\
  (exists n', run_command cfg env (StopValidator validator) n = (Ok (), n') /\ halted pk vs n') /\
  wp (run_command cfg env (RemoveValidator validator)) (fun _ n' => halted pk vs n') n.
Proof.
  intros Hc Hr Hca Hdir. split_and!.
  - by apply (activate_validator_launches env validator pk vs
      (record_command (ActivateValidator validator) n)); [apply commanded_record|..].
  - by apply (stop_validator_halts env validator pk vs
      (record_command (StopValidator validator) n)), commanded_record.
  - by eapply (remove_validator_halts cfg env validator pk vs
      (record_command (RemoveValidator validator) n)); [apply commanded_record|].
Qed.
End validators.

(** ** A node with a validator that is stopped *)

Section witness.
#[local] Existing Instances ideal_blst ideal_blst_laws ideal_bincode ideal_round_trip.
#[local] Existing Instances ideal_sig_codec ideal_sig_roundtrip memory_db memory_db_reliable.
#[local] Existing Instances ideal_mempool ideal_keystore_crypto ideal_eth2_keystore.
#[local] Existing Instances mainnet demo_beacon history_db ideal_sqlite ideal_web3 ideal_secp ideal_aes.

Definition demo_io : Io := mkIo (fun _ => true) (fun _ => true) (fun _ => demo_params) (fun _ => []).
Definition demo_surroundings : surroundings :=
  mkSurroundings demo_io (fun _ => Some empty_store) 9 (fun _ => Some 3232235777) (Some 0) 0 (Some 1)
    (fun _ _ => None) (fun _ _ _ _ _ _ => false) (6, replicate 12 7) true.
Definition demo_node_config : NodeConfig := mkNodeConfig [5] 11 demo_address ["v"] ["s"].
Definition demo_validator : Validator :=
  mkValidator 5 9 (PublicKey_serialize (SecretKey_public_key 7)) [1; 2; 3] true.

Definition stopped_share : KeystoreShare :=
  mkKeystoreShare (1, [50], share_keys demo_share 1) (SecretKey_public_key 7) 5 1.
Definition stopped_definition : ValidatorDefinition :=
  mkValidatorDefinition false (SecretKey_public_key 7) None None None None ""
    (DistributedKeystore ["v"; "share"] (Some ["s"; "password"]) None (Some ["v"; "committee"]) 5 1).
Definition stopped_disk : Disk :=
  {[ ["v"] := Directory; ["v"; "share"] := ShareFile stopped_share;
     ["s"; "password"] := PasswordFile [50]; ["v"; "committee"] := CommitteeFile demo_definition ]}.
Definition stopped_store : ValidatorStore :=
  mkValidatorStore (mkIv [stopped_definition] ["v"] ∅ (Some (11, demo_address))) ([], []) 0 None.
Definition stopped_node : Node :=
  mkNode (Some stopped_store) stopped_disk (mkHandlers ∅ ∅ ∅ ∅) empty_db [].

Definition stopped_material (signer : DvfSigner) (_ : p1) : material :=
  mkMaterial stopped_share (share_keys demo_share 1) demo_definition signer.

Lemma stopped_ready signer consensus mempool :
  spawn 11 demo_address (share_keys demo_share 1) demo_definition (Some empty_store) =
    Ok (signer, consensus, mempool) ->
  ready (stopped_material signer) demo_io (sr_opened demo_surroundings) stopped_disk
    (Some (11, demo_address)) [stopped_definition].
Proof.
  intros Hs. split.
  - apply NoDup_singleton.
  - intros def ->%list_elem_of_singleton. unfold loads. cbn [stopped_definition signing_definition].
    split_and!; [done| |done|done| |by eexists].
    + exists [50]. reflexivity.
    + unfold start_signer. cbn [mat_keypair mat_committee stopped_material sr_opened demo_surroundings].
      by rewrite Hs.
  - done.
  - by intros e1 e2 p q ->%list_elem_of_singleton ->%list_elem_of_singleton.
  - by intros e1 e2 ->%list_elem_of_singleton ->%list_elem_of_singleton.
Qed.

Lemma stopped_synced_world signer :
  synced (stopped_material signer) (world_of stopped_store stopped_node).
Proof.
  split; [|by intros def ->%list_elem_of_singleton|done].
  split; [apply NoDup_singleton|done|].
  intros def ->%list_elem_of_singleton. unfold committee_matches. cbn [stopped_definition signing_definition].
  intros c Hc. by injection Hc as <-.
Qed.

Lemma validators_follow_commands_witness :
  exists n', run_command demo_node_config demo_surroundings (ActivateValidator demo_validator) stopped_node =
      (Ok (), n') /\
    exists vs', validator_store n' = Some vs' /\
      is_Some (validators_of vs' !! compress (SecretKey_public_key 7)).
Proof.
  destruct (spawn_ok demo_definition demo_definition_ok 11 demo_address (share_keys demo_share 1)
    empty_store 0 1) as (c & cc & mc & Hs & _); [reflexivity..|].
  destruct (validators_follow_commands (stopped_material (mkDvfSigner 1 c (share_keys demo_share 1) empty_store))
    demo_node_config demo_surroundings demo_validator (SecretKey_public_key 7) stopped_store stopped_node [])
    as [(n' & Hrun & vs' & Hvs & _ & Hnew & _) _].
  - split; try done.
    + apply stopped_synced_world.
    + by intros def ->%list_elem_of_singleton.
    + by intros def ->%list_elem_of_singleton.
  - by eapply stopped_ready.
  - done.
  - done.
  - exists n'. split; [exact Hrun|]. exists vs'. split; [exact Hvs|].
    rewrite (Hnew stopped_definition); [by eexists|apply list_elem_of_here|done].
Defined.
End witness.
