(* ===== verification/Registration.v ===== *)
(** * Registering a validator

    The path of a validator from its registration on the contract to its signatures:
    the command [StartValidator] of [NodeCommands] decrypts the share of the operator,
    writes the files of the validator and starts its signer, and the validator store
    then signs its duties with the committee. *)

From Stdlib Require Import Ascii.
From stdpp Require Import pretty.
From S2P Require Import Prelude Store Committee Messages Network Core Ideal Mempool.
From S2P Require Import Scalars Blst BlstIdeal Polynomial Threshold Processes IoCommittee Operator DvfCore.
From S2P Require Import Doppelganger KeyCache KeyFiles InitializedValidators ValidatorUpdates ValidatorStore.
From S2P Require Import Elgamal Database Contract NodeCommands NodeValidators.

(** ** Texts and paths *)

Lemma append_length a b :
  String.length (String.append a b) = (String.length a + String.length b)%nat.
Proof.
  induction a as [|x a IH]; [done|].
  change (S (String.length (String.append a b)) = S (String.length a + String.length b)). by rewrite IH.
Qed.

Lemma append_inj_r c a b : String.append a c = String.append b c -> a = b.
Proof.
  intros E. assert (String.length a = String.length b) as Hl.
  { apply (f_equal String.length) in E. rewrite !append_length in E. lia. }
  revert b E Hl. induction a as [|x a IH]; intros [|y b] E Hl; try done.
  cbn in E, Hl. injection E as -> E. f_equal. apply IH; [done|lia].
Qed.

(** The text of a number does not start with a letter. *)
Lemma pretty_go_head c x s t :
  (forall y, pretty_N_char y <> c) -> s <> String.String c t -> pretty_N_go x s <> String.String c t.
Proof.
  intros Hc. revert s. induction (N.lt_wf_0 x) as [x _ IH]; intros s Hs.
  assert (x = 0 \/ 0 < x)%N as [->|Hx] by lia; [by rewrite pretty_N_go_0|].
  rewrite pretty_N_go_step by done. apply IH; [by apply N.div_lt|].
  intros E. injection E as E _. by apply (Hc (x `mod` 10)%N).
Qed.

Lemma pretty_head c (x : N) t : (forall y, pretty_N_char y <> c) -> pretty x <> String.String c t.
Proof.
  intros Hc. unfold pretty, pretty_N. case_decide; [|by apply pretty_go_head].
  intros E. injection E as E _. by apply (Hc 0%N).
Qed.

Lemma digit_not_letter c :
  c ∈ ["o"; "v"]%char -> forall y, pretty_N_char y <> c.
Proof.
  intros Hc y. unfold pretty_N_char. repeat apply elem_of_cons in Hc as [->|Hc]; try by repeat case_match.
  by apply not_elem_of_nil in Hc.
Qed.

Lemma pretty_letter (z : Z) t : pretty z <> String.String "o"%char t.
Proof.
  destruct z as [|x|x]; cbn; [done| |done].
  apply (pretty_head _ (Npos x)), digit_not_letter, list_elem_of_here.
Qed.

Lemma removelast_join p a : removelast (join p a) = p.
Proof. apply removelast_last. Qed.

Lemma join_inj p q a b : join p a = join q b -> p = q /\ a = b.
Proof. apply app_inj_tail. Qed.

Lemma ancestors_join p a : ancestors (join p a) = ancestors p ++ [join p a].
Proof.
  unfold ancestors, join. rewrite length_app. cbn [length]. rewrite Nat.add_1_r, seq_S, map_app. cbn.
  f_equal.
  - apply map_ext_in. intros i Hi%in_seq. rewrite take_app_le; [done|lia].
  - f_equal. rewrite take_ge; [done|]. rewrite length_app. cbn. lia.
Qed.

Lemma lockfile_inj p q l : get_lockfile_path p = Some l -> get_lockfile_path q = Some l -> p = q.
Proof.
  unfold get_lockfile_path, file_name. intros Hp Hq.
  destruct (last p) as [a|] eqn:Ea; [|done]. destruct (last q) as [b|] eqn:Eb; [|done].
  destruct (String.eqb a _); [done|]. destruct (String.eqb b _); [done|]. cbn in Hp, Hq.
  rewrite <- Hq in Hp. injection Hp as Hp. apply join_inj in Hp as [Hr Hs].
  apply append_inj_r in Hs as ->.
  apply last_Some in Ea as [p' ->]. apply last_Some in Eb as [q' ->].
  rewrite !removelast_last in Hr. by subst.
Qed.

Section disk.
Context `{Eth2Keystore} `{!Eth2KeystoreLaws}.

Lemma path_new (d : Disk) p : d !! p = None -> path_exists d p = false.
Proof. unfold path_exists. intros ->. by apply bool_decide_eq_false_2; intros []. Qed.

Lemma create_new_run io p f (d : Disk) :
  d !! p = None -> is_directory d (removelast p) = true -> io_writable io p = true ->
  create_new io p f d = Some (<[p := f]> d).
Proof. intros Hp Hd Hw. unfold create_new. by rewrite path_new, Hd, Hw. Qed.

Lemma write_password_run io p bs (d : Disk) :
  d !! p = None -> is_directory d (removelast p) = true -> io_writable io p = true ->
  write_password_to_file io p bs d = (Ok (), <[p := PasswordFile bs]> d).
Proof.
  intros Hp Hd Hw. unfold write_password_to_file. erewrite run_bind; [|reflexivity]. cbv beta.
  by rewrite path_new, create_new_run.
Qed.

Lemma write_share_run io p s (d : Disk) :
  d !! p = None -> is_directory d (removelast p) = true -> io_writable io p = true ->
  write_keystore_share_to_file io p s d = (Ok (), <[p := ShareFile s]> d).
Proof.
  intros Hp Hd Hw. unfold write_keystore_share_to_file. erewrite run_bind; [|reflexivity]. cbv beta.
  by rewrite path_new, create_new_run.
Qed.

(** The place of a validator that is registered for the first time: the directories
    of the node exist, and nothing of the validator does. *)
Record fresh_place (vd sd : Path) (io : Io) (d : Disk) (s : KeystoreShare) : Prop := {
  fp_ancestors p : p ∈ ancestors vd -> is_directory d p = true;
  fp_dir : is_directory d vd = true;
  fp_secrets : is_directory d sd = true;
  fp_new p : join vd (pk_text (master_public_key s)) `prefix_of` p -> d !! p = None;
  fp_password : d !! default_keystore_share_password_path s sd = None;
  fp_writable p : io_writable io p = true
}.

Context (vd sd : Path) (io : Io) (d : gmap Path file) (s : KeystoreShare).
Context (Hf : fresh_place vd sd io d s).

Let pk_dir : Path := join vd (pk_text (master_public_key s)).
Let dir : Path := default_keystore_share_dir s vd.
Let share_path : Path := default_keystore_share_path s vd.
Let password_path : Path := default_keystore_share_password_path s sd.
Let committee_path : Path := default_operator_committee_definition_path (master_public_key s) vd.

Lemma exists_directory p : is_directory d p = true -> d !! p = Some Directory.
Proof. unfold is_directory, Disk. by destruct (d !! p) as [[]|]. Qed.

Lemma foldl_make_dir_exists l : (forall p, p ∈ l -> is_directory d p = true) -> foldl make_dir d l = d.
Proof.
  induction l as [|p l IH]; intros Hl; [done|]. cbn. unfold make_dir at 2, Disk.
  rewrite (exists_directory p) by (apply Hl, list_elem_of_here). apply IH.
  intros q Hq. by apply Hl, list_elem_of_further.
Qed.

Lemma pk_dir_prefix p : pk_dir `prefix_of` pk_dir ++ p.
Proof. by exists p. Qed.

Lemma dir_below : dir = pk_dir ++ [pretty (share_id s)].
Proof. done. Qed.

Lemma pk_dir_not_dir : pk_dir <> dir.
Proof. apply join_self. Qed.

(** The directory of the secrets is not below that of the validator. *)
Lemma secrets_elsewhere p : password_path = pk_dir ++ p -> p = [].
Proof.
  intros E. destruct p as [|x p] using rev_ind; [done|]. exfalso. rewrite app_assoc in E.
  apply (f_equal (removelast (A:=string))) in E. unfold password_path, default_keystore_share_password_path in E.
  rewrite removelast_join, removelast_last in E.
  pose proof (exists_directory sd (fp_secrets _ _ _ _ _ Hf)) as Hsd.
  rewrite E in Hsd. rewrite (fp_new _ _ _ _ _ Hf) in Hsd; [done|]. apply pk_dir_prefix.
Qed.

Lemma password_not_dir : password_path <> pk_dir.
Proof.
  intros E. apply join_inj in E as [_ E]. apply (f_equal String.length) in E.
  rewrite !append_length in E. cbn in E. lia.
Qed.

Lemma below_new p : d !! (pk_dir ++ p) = None.
Proof. apply (fp_new _ _ _ _ _ Hf), pk_dir_prefix. Qed.

Lemma create_dirs : create_dir_all dir d = <[dir := Directory]> (<[pk_dir := Directory]> d).
Proof.
  unfold create_dir_all. rewrite dir_below. fold (join pk_dir (pretty (share_id s))).
  rewrite ancestors_join. unfold pk_dir at 1. rewrite ancestors_join. fold pk_dir.
  rewrite !foldl_app, foldl_make_dir_exists by apply (fp_ancestors _ _ _ _ _ Hf). cbn.
  unfold make_dir at 2, Disk. rewrite <- (app_nil_r pk_dir), below_new, app_nil_r.
  unfold make_dir, Disk. rewrite lookup_insert_ne by apply pk_dir_not_dir.
  unfold join at 1. by rewrite below_new.
Qed.

(** The disk with the files of the validator. *)
Definition with_files (password : bytes) (def : OperatorCommitteeDefinition) : gmap Path file :=
  <[committee_path := CommitteeFile def]> (<[share_path := ShareFile s]>
    (<[password_path := PasswordFile password]>
      (<[dir := Directory]> (<[pk_dir := Directory]> d)))).
Lemma share_below : share_path = pk_dir ++ [pretty (share_id s); VOTING_KEYSTORE_SHARE_FILE].
Proof. unfold share_path, default_keystore_share_path, join. fold dir. by rewrite dir_below, <- app_assoc. Qed.

Lemma committee_below : committee_path = pk_dir ++ [OPERATOR_COMMITTEE_DEFINITION_FILENAME].
Proof. done. Qed.

Lemma password_apart p : password_path <> pk_dir ++ p.
Proof.
  intros E. pose proof (secrets_elsewhere p E) as ->. rewrite app_nil_r in E. by apply password_not_dir.
Qed.

Ltac below := rewrite ?dir_below, ?share_below, ?committee_below; intros E; apply app_inv_head in E.

Lemma dir_share : dir <> share_path.
Proof. by below. Qed.
Lemma dir_committee : dir <> committee_path.
Proof. below. injection E as E. by apply pretty_letter in E. Qed.
Lemma share_committee_paths : share_path <> committee_path.
Proof. by below. Qed.
Lemma pk_dir_apart p : p <> [] -> pk_dir <> pk_dir ++ p.
Proof. intros Hp E. rewrite <- (app_nil_r pk_dir) in E at 1. apply app_inv_head in E. by subst. Qed.

(** The builder and the file of the committee write these files. *)
Lemma files_written password def :
  exists d3, build io vd sd s password d = (Ok (), d3) /\
    create_new io committee_path (CommitteeFile def) d3 = Some (with_files password def).
Proof.
  pose proof (fp_writable _ _ _ _ _ Hf) as Hw.
  assert (d !! dir = None) as Hdir by (rewrite dir_below; apply below_new).
  pose proof (password_apart [pretty (share_id s)]) as Hpd. rewrite <- dir_below in Hpd.
  pose proof (password_apart []) as Hpk. rewrite app_nil_r in Hpk.
  pose proof (password_apart [pretty (share_id s); VOTING_KEYSTORE_SHARE_FILE]) as Hps.
  rewrite <- share_below in Hps.
  pose proof (password_apart [OPERATOR_COMMITTEE_DEFINITION_FILENAME]) as Hpc.
  rewrite <- committee_below in Hpc.
  assert (pk_dir <> share_path) as Hks by (rewrite share_below; by apply pk_dir_apart).
  assert (pk_dir <> committee_path) as Hkc by (rewrite committee_below; by apply pk_dir_apart).
  pose proof dir_share. pose proof dir_committee. pose proof share_committee_paths. pose proof pk_dir_not_dir.
  eexists. split.
  - unfold build. erewrite run_bind; [|reflexivity]. cbv beta. fold dir.
    rewrite path_new by done. rewrite Hw. erewrite run_bind; [|reflexivity]. rewrite create_dirs.
    erewrite run_bind.
    2:{ apply write_password_run. 
        - unfold Disk. rewrite !lookup_insert_ne by done. apply (fp_password _ _ _ _ _ Hf).
        - unfold default_keystore_share_password_path. rewrite removelast_join. unfold is_directory, Disk.
          destruct (decide (dir = sd)) as [<-|]; [by rewrite lookup_insert_eq|].
          destruct (decide (pk_dir = sd)) as [<-|]; [by rewrite lookup_insert_ne, lookup_insert_eq|].
          rewrite !lookup_insert_ne by done. apply (fp_secrets _ _ _ _ _ Hf).
        - apply Hw. }
    change (join dir VOTING_KEYSTORE_SHARE_FILE) with share_path. apply write_share_run.
    + unfold Disk. rewrite !lookup_insert_ne by done. rewrite share_below. apply below_new.
    + unfold share_path, default_keystore_share_path. rewrite removelast_join. fold dir.
      unfold is_directory, Disk. by rewrite lookup_insert_ne, lookup_insert_eq.
    + apply Hw.
  - apply create_new_run; [| |apply Hw].
    + unfold Disk. rewrite !lookup_insert_ne by done. rewrite committee_below. apply below_new.
    + rewrite committee_below, removelast_last. unfold is_directory, Disk.
      rewrite 3!lookup_insert_ne by done. by rewrite lookup_insert_eq.
Qed.

Lemma with_files_lookup password def :
  with_files password def !! share_path = Some (ShareFile s) /\
  with_files password def !! password_path = Some (PasswordFile password) /\
  with_files password def !! committee_path = Some (CommitteeFile def).
Proof.
  unfold with_files. pose proof share_committee_paths.
  pose proof (password_apart [pretty (share_id s); VOTING_KEYSTORE_SHARE_FILE]) as Hps.
  rewrite <- share_below in Hps.
  pose proof (password_apart [OPERATOR_COMMITTEE_DEFINITION_FILENAME]) as Hpc.
  rewrite <- committee_below in Hpc.
  split_and!.
  - by rewrite lookup_insert_ne, lookup_insert_eq.
  - by rewrite 2!lookup_insert_ne, lookup_insert_eq.
  - apply lookup_insert_eq.
Qed.

Lemma with_files_other password def p :
  ~ pk_dir `prefix_of` p -> p <> password_path -> with_files password def !! p = d !! p.
Proof.
  intros Hp Hne. unfold with_files.
  assert (forall q, pk_dir ++ q <> p) as Hq by (intros q <-; apply Hp, pk_dir_prefix).
  pose proof (Hq []) as Hk. rewrite app_nil_r in Hk.
  rewrite !lookup_insert_ne; try done.
  - rewrite dir_below. apply Hq.
  - rewrite share_below. apply Hq.
  - rewrite committee_below. apply Hq.
Qed.

Lemma with_files_extends password def p f : d !! p = Some f -> with_files password def !! p = Some f.
Proof.
  intros Hp. rewrite with_files_other; [done| |].
  - intros Hpre. assert (d !! p = None) by (by apply (fp_new _ _ _ _ _ Hf)). congruence.
  - intros ->. assert (d !! password_path = None) by apply (fp_password _ _ _ _ _ Hf). congruence.
Qed.
End disk.

(** ** The command *)

Section registration.
Context `{Eth2Keystore} `{!Eth2KeystoreLaws} `{!BlstLaws} `{Bincode} `{!BincodeRoundTrip} `{!SigCodec}.
Context `{MempoolCodec} `{Rocksdb Digest bytes} `{!RocksdbReliable Digest bytes}.
Context `{EthSpec} `{SlashingDatabase} `{Sqlite} `{Web3} `{Secp256k1Laws} `{AesLaws}.

(** What the contract says of the validator, for the operator at a position of its
    committee: the secret share [x] is encrypted for the key of the node. *)
Record invitation := mkInvitation {
  inv_validator : Validator;
  inv_operators : list bytes;
  inv_shared : list bytes;
  inv_encrypted : list bytes;
  inv_pk : p1;
  inv_bls_pks : list p1;
  inv_node_pks : list PublicKey;
  inv_position : nat;
  inv_own : Z;
  inv_share : Z
}.

Record invited (cfg : NodeConfig) (v : invitation) : Prop := {
  in_pk : PublicKey_deserialize (va_public_key (inv_validator v)) = Some (inv_pk v);
  in_shared : mapM PublicKey_deserialize (inv_shared v) = Some (inv_bls_pks v);
  in_nodes : mapM (node_key (E:=NodeError)) (inv_operators v) = Ok (inv_node_pks v);
  in_self : self_index cfg (inv_node_pks v) = [inv_position v];
  in_own : va_releated_operators (inv_validator v) !! inv_position v = Some (inv_own v);
  in_count : length (va_releated_operators (inv_validator v)) = length (inv_operators v);
  in_count_shared : length (inv_shared v) = length (inv_operators v);
  in_distinct : NoDup (va_releated_operators (inv_validator v));
  in_share : is_secret (inv_share v);
  in_encrypted : exists node_sk other_sk random ct,
    secp_secret_from_slice (node_secret cfg) = Some node_sk /\ (12 <= length random)%nat /\
    elgamal_encrypt other_sk random (SecretKey_serialize (inv_share v)) (secp_public_key node_sk) = Ok ct /\
    inv_encrypted v !! inv_position v = Some (to_bytes ct)
}.

Definition inv_keypair (v : invitation) : Keypair :=
  mkKeypair _ (SecretKey_public_key (inv_share v)) (inv_share v).

Definition inv_definition (cfg : NodeConfig) (env : surroundings) (v : invitation)
  : OperatorCommitteeDefinition :=
  committee_definition cfg env (inv_validator v) (inv_pk v) (inv_operators v) (inv_bls_pks v)
    (inv_node_pks v).

Definition inv_keystore_share (v : invitation) (ks : Keystore) : KeystoreShare :=
  mkKeystoreShare ks (inv_pk v) (va_id (inv_validator v)) (inv_own v).

Lemma mapM_outcome_length {E A B} (f : A -> outcome E B) l k : mapM f l = Ok k -> length k = length l.
Proof.
  revert k. induction l as [|x l IH]; intros k; cbn; [by intros [= <-]|].
  destruct (f x) as [y| | |]; cbn; try done. destruct (mapM f l) as [k'| | |]; cbn; try done.
  intros [= <-]. cbn. by rewrite (IH k').
Qed.

Section one.
Context (cfg : NodeConfig) (env : surroundings) (v : invitation) (Hv : invited cfg v).

Lemma share_decrypted :
  exists node_sk encrypted, secp_secret_from_slice (node_secret cfg) = Some node_sk /\
    inv_encrypted v !! inv_position v = Some encrypted /\
    decrypt_share node_sk encrypted = Ok (inv_keypair v).
Proof.
  destruct (in_encrypted _ _ Hv) as (node_sk & other_sk & random & ct & Hsk & Hr & Hct & Henc).
  exists node_sk, (to_bytes ct). do 2 (split; [done|]). unfold decrypt_share.
  destruct (decrypt_encrypted (E:=NodeError) _ _ _ _ _ Hr Hct) as [-> Hdec]. cbn.
  rewrite Hdec. cbn. by rewrite secret_roundtrip by apply (in_share _ _ Hv).
Qed.

Lemma inv_definition_ok : definition_ok (inv_definition cfg env v).
Proof.
  split; cbn; rewrite ?Nat2Z.id.
  - apply (in_count _ _ Hv).
  - pose proof (in_shared _ _ Hv) as Hs. apply length_mapM in Hs.
    rewrite <- Hs. apply (in_count_shared _ _ Hv).
  - by apply (mapM_outcome_length _ _ _ (in_nodes _ _ Hv)).
  - unfold query_addrs. by rewrite length_map.
  - apply (in_distinct _ _ Hv).
Qed.

Lemma inv_operator_index : operator_index (node_name cfg) (inv_definition cfg env v) = [inv_position v].
Proof.
  rewrite <- (in_self _ _ Hv). unfold operator_index, self_index. f_equal.
  apply list_filter_iff. intros x. split; congruence.
Qed.

(** The signer that is started for the validator. *)
Lemma signer_started opened st :
  opened (va_id (inv_validator v)) = Some st ->
  exists signer,
    start_signer (Some (node_name cfg, base_address cfg)) opened (inv_keypair v)
      (inv_definition cfg env v) = Ok signer /\
    started (inv_definition cfg env v) (inv_keypair v) (inv_own v) signer /\ store signer = st.
Proof.
  intros Ho.
  destruct (spawn_ok _ inv_definition_ok (node_name cfg) (base_address cfg) (inv_keypair v) st
    (inv_position v) (inv_own v) inv_operator_index (in_own _ _ Hv)) as (c & cc & mc & Hs & _).
  eexists. split; [|split].
  - unfold start_signer. cbn [def_validator_id inv_definition committee_definition]. by rewrite Ho, Hs.
  - exists (node_name cfg), (base_address cfg), st, (inv_position v), cc, mc.
    split; [apply inv_operator_index|]. split; [apply (in_own _ _ Hv)|done].
  - done.
Qed.

(** ** The node *)

Context (mat : p1 -> material).

(** A node that can take the validator: what runs follows the definitions, their
    files can be read, and the validator is new. *)
Record receptive (vs : ValidatorStore) (n : Node) (ks : Keystore) (st : Store.t Digest bytes) : Prop := {
  rc_store : validator_store n = Some vs;
  rc_registered : (register_validator (compress (inv_pk v)) (slashing_protection vs)).2 = inr ();
  rc_protected service : doppelganger_service vs = Some service ->
    exists service', register_new_validator (compress (inv_pk v)) (sr_now env) (sr_genesis_slot env)
      service = Ok service';
  rc_synced : synced mat (world_of vs n);
  rc_ready : ready mat (sr_io env) (sr_opened env) (node_disk n) (iv_node (initialized_validators vs))
    (definitions (initialized_validators vs));
  rc_cache : cache_readable (world_of vs n);
  rc_node : iv_node (initialized_validators vs) = Some (node_name cfg, base_address cfg);
  rc_dir : validators_dir (initialized_validators vs) = validator_dir cfg;
  rc_opened : sr_opened env (va_id (inv_validator v)) = Some st;
  rc_keystore : build_keystore (inv_keypair v) insecure_password (sr_random env) = inr ks;
  rc_place : fresh_place (validator_dir cfg) (secrets_dir cfg) (sr_io env) (node_disk n)
    (inv_keystore_share v ks);
  rc_names : pk_text (inv_pk v) <> CACHE_FILENAME /\ secrets_dir cfg <> validator_dir cfg;
  rc_new e : e ∈ definitions (initialized_validators vs) -> enabled e = true ->
    voting_public_key e <> inv_pk v;
  rc_uuid e : e ∈ definitions (initialized_validators vs) -> uuid_of mat (voting_public_key e) <> ks_uuid ks
}.

Context (vs : ValidatorStore) (n : Node) (ks : Keystore) (st : Store.t Digest bytes).
Context (Hn : receptive vs n ks st).

Definition new_disk : gmap Path file :=
  with_files (validator_dir cfg) (secrets_dir cfg) (node_disk n) (inv_keystore_share v ks)
    insecure_password (inv_definition cfg env v).

Definition new_definition : ValidatorDefinition :=
  mkValidatorDefinition true (inv_pk v) None None None None (default ""%string (ks_description ks))
    (DistributedKeystore (default_keystore_share_path (inv_keystore_share v ks) (validator_dir cfg))
       (Some (default_keystore_share_password_path (inv_keystore_share v ks) (secrets_dir cfg))) None
       (Some (default_operator_committee_definition_path (inv_pk v) (validator_dir cfg)))
       (va_id (inv_validator v)) (inv_own v)).

Definition new_material (signer : DvfSigner) (q : p1) : material :=
  if bool_decide (q = inv_pk v)
  then mkMaterial (inv_keystore_share v ks) (inv_keypair v) (inv_definition cfg env v) signer
  else mat q.

Lemma loads_extends m (d d' : Disk) io opened node def :
  (forall p f, d !! p = Some f -> d' !! p = Some f) ->
  loads m io opened d node def -> loads m io opened d' node def.
Proof.
  intros Hd. unfold loads. destruct (signing_definition def) as [| |p pp pw [q|] ci oi]; try done.
  intros (Hs & (password & Hu) & Hq & Hrest). split_and!; [auto| |auto|apply Hrest..].
  exists password. unfold unlock in *. destruct pp as [pp|], pw; try done.
  unfold read_password in *. destruct (d !! pp) as [f|] eqn:E; [|done]. by rewrite (Hd _ _ E).
Qed.

Lemma new_definition_loads signer :
  start_signer (Some (node_name cfg, base_address cfg)) (sr_opened env) (inv_keypair v)
    (inv_definition cfg env v) = Ok signer ->
  loads (new_material signer) (sr_io env) (sr_opened env) new_disk
    (iv_node (initialized_validators vs)) new_definition.
Proof.
  intros Hsig. unfold loads, new_definition, new_material. cbn [signing_definition voting_public_key].
  rewrite bool_decide_eq_true_2 by done. cbn [mat_share mat_keypair mat_committee mat_signer].
  destruct (with_files_lookup _ _ _ _ _ (rc_place _ _ _ _ Hn) insecure_password
    (inv_definition cfg env v)) as (Hs & Hp & Hc).
  split_and!; [exact Hs| |exact Hc|done|by rewrite (rc_node _ _ _ _ Hn)|].
  - exists insecure_password. unfold unlock, read_password, new_disk, Disk. rewrite Hp.
    rewrite (proj2 insecure_password_plain). unfold decrypt_keystore.
    erewrite built_keystore; [reflexivity|apply (in_share _ _ Hv)|done|apply (rc_keystore _ _ _ _ Hn)].
  - unfold get_lockfile_path, file_name, default_keystore_share_path, join. rewrite last_snoc. by eexists.
Qed.

(** The definitions that stay: a disabled one of the same key is replaced. *)
Definition kept : list ValidatorDefinition :=
  filter (fun e => ~ (enabled e = false /\ voting_public_key e = inv_pk v))
    (definitions (initialized_validators vs)).

Lemma elem_of_kept e :
  e ∈ kept -> e ∈ definitions (initialized_validators vs) /\ voting_public_key e <> inv_pk v.
Proof.
  intros [Hne Hin]%list_elem_of_filter. split; [done|]. intros E.
  destruct (enabled e) eqn:En; [by apply (rc_new _ _ _ _ Hn e)|]. by apply Hne.
Qed.

Lemma new_material_old signer q : q <> inv_pk v -> new_material signer q = mat q.
Proof. intros Hq. unfold new_material. by rewrite bool_decide_eq_false_2. Qed.

Lemma new_material_new signer :
  new_material signer (inv_pk v) =
  mkMaterial (inv_keystore_share v ks) (inv_keypair v) (inv_definition cfg env v) signer.
Proof. unfold new_material. by rewrite bool_decide_eq_true_2. Qed.

Lemma kept_loads signer e :
  e ∈ kept -> loads (new_material signer) (sr_io env) (sr_opened env) new_disk
    (iv_node (initialized_validators vs)) e.
Proof.
  intros [Hin Hne]%elem_of_kept. pose proof (rd_loads _ _ _ _ _ _ (rc_ready _ _ _ _ Hn) e Hin) as Hl.
  apply (loads_extends _ (node_disk n)); [apply (with_files_extends _ _ _ _ _ (rc_place _ _ _ _ Hn))|].
  unfold loads in *. by rewrite new_material_old.
Qed.

(** The lock file of the new keystore is not that of another one. *)
Lemma new_path_apart e p :
  e ∈ kept -> definition_path e = Some p ->
  get_lockfile_path p <> get_lockfile_path
    (default_keystore_share_path (inv_keystore_share v ks) (validator_dir cfg)).
Proof.
  intros [Hin _]%elem_of_kept Hp E.
  pose proof (rd_loads _ _ _ _ _ _ (rc_ready _ _ _ _ Hn) e Hin) as Hl. unfold loads in Hl.
  unfold definition_path in Hp.
  destruct (signing_definition e) as [| |p' pp pw [q|] ci oi]; try done. injection Hp as ->.
  destruct Hl as (Hs & _ & _ & _ & _ & [l Hl]). rewrite Hl in E.
  pose proof (lockfile_inj _ _ l Hl (eq_sym E)) as Ep. rewrite Ep in Hs.
  rewrite (fp_new _ _ _ _ _ (rc_place _ _ _ _ Hn)) in Hs; [done|].
  rewrite share_below. apply pk_dir_prefix.
Qed.

Lemma kept_keys : NoDup (map voting_public_key (kept ++ [new_definition])).
Proof.
  rewrite map_app. apply NoDup_app. split_and!.
  - eapply sublist_NoDup; [exact (rd_keys _ _ _ _ _ _ (rc_ready _ _ _ _ Hn))|].
    apply fmap_sublist, sublist_filter.
  - intros q (e & -> & [_ Hne]%elem_of_kept)%list_elem_of_fmap [E|E]%elem_of_cons; [done|].
    by apply not_elem_of_nil in E.
  - apply NoDup_singleton.
Qed.

Lemma new_ready signer :
  start_signer (Some (node_name cfg, base_address cfg)) (sr_opened env) (inv_keypair v)
    (inv_definition cfg env v) = Ok signer ->
  ready (new_material signer) (sr_io env) (sr_opened env) new_disk
    (iv_node (initialized_validators vs)) (kept ++ [new_definition]).
Proof.
  intros Hsig. pose proof (rc_ready _ _ _ _ Hn) as Hr.
  assert (forall e, e ∈ kept ++ [new_definition] -> e ∈ kept \/ e = new_definition) as Hcase.
  { intros e [He|He%list_elem_of_singleton]%elem_of_app; auto. }
  split.
  - apply kept_keys.
  - intros e [He| ->]%Hcase; [by apply kept_loads|by apply new_definition_loads].
  - apply (rd_lock _ _ _ _ _ _ Hr).
  - intros e1 e2 p q [H1'| ->]%Hcase [H2'| ->]%Hcase Hp Hq E; [| | |done].
    + apply (rd_paths _ _ _ _ _ _ Hr e1 e2 p q); [by apply elem_of_kept..|done|done|done].
    + injection Hq as <-. by apply (new_path_apart e1 p) in E.
    + injection Hp as <-. by apply (new_path_apart e2 q) in H2'.
  - intros e1 e2 [H1'| ->]%Hcase [H2'| ->]%Hcase; unfold uuid_of; [| | |done].
    + rewrite !new_material_old by (by apply elem_of_kept).
      apply (rd_uuids _ _ _ _ _ _ Hr); by apply elem_of_kept.
    + rewrite (new_material_old _ (voting_public_key e1)) by (by apply elem_of_kept).
      cbn [voting_public_key new_definition]. rewrite new_material_new. cbn. intros E.
      apply elem_of_kept in H1' as [Hin _]. by apply (rc_uuid _ _ _ _ Hn) in E.
    + rewrite (new_material_old _ (voting_public_key e2)) by (by apply elem_of_kept).
      cbn [voting_public_key new_definition]. rewrite new_material_new. cbn. intros E.
      apply elem_of_kept in H2' as [Hin _]. by destruct (rc_uuid _ _ _ _ Hn e2 Hin).
Qed.

Definition new_world : world := mkWorld (initialized_validators vs) new_disk (node_maps n).

Lemma new_world_ok : iv_ok new_world.
Proof.
  destruct (sy_ok _ _ (rc_synced _ _ _ _ Hn)) as [Hk Hrun _]. split; [done|done|].
  intros e Hin. pose proof (rd_loads _ _ _ _ _ _ (rc_ready _ _ _ _ Hn) e Hin) as Hl.
  unfold loads in Hl. unfold committee_matches.
  destruct (signing_definition e) as [| |p pp pw [q|] ci oi]; try done.
  destruct Hl as (_ & _ & Hq & Hpk & _). intros c Hc. cbn in Hc.
  apply (with_files_extends _ _ _ _ _ (rc_place _ _ _ _ Hn) insecure_password
    (inv_definition cfg env v)) in Hq. unfold new_disk, Disk in Hc. congruence.
Qed.

Lemma new_world_synced signer : synced (new_material signer) new_world.
Proof.
  destruct (rc_synced _ _ _ _ Hn) as [_ Hall Hh]. split; [apply new_world_ok|exact Hall|].
  replace (enabled_ids (new_material signer) _)
    with (enabled_ids mat (definitions (initialized_validators vs))); [exact Hh|].
  apply set_eq. intros i. rewrite !elem_of_enabled_ids.
  assert (forall e, e ∈ definitions (initialized_validators vs) -> enabled e = true ->
    validator_id_of (new_material signer) e = validator_id_of mat e) as He.
  { intros e Hin En. unfold validator_id_of. by rewrite new_material_old by (by apply (rc_new _ _ _ _ Hn)). }
  split; intros (e & Hin & En & ->); exists e; (split_and!; [done|done|]).
  - symmetry. by apply He.
  - by apply He.
Qed.

Lemma new_world_cache : cache_readable new_world.
Proof.
  intros f Hc. apply (rc_cache _ _ _ _ Hn f). rewrite <- Hc. symmetry.
  change (disk (world_of vs n)) with (node_disk n).
  change (cache_path (world_of vs n)) with (cache_path new_world).
  apply with_files_other; destruct (rc_names _ _ _ _ Hn) as [Hpk Hsd];
    unfold cache_path, new_world; cbn [iv]; rewrite (rc_dir _ _ _ _ Hn).
  - intros [k Hk]. unfold join in Hk. rewrite <- app_assoc in Hk. apply app_inv_head in Hk.
    injection Hk as Hk _. by symmetry in Hk.
  - intros [E _]%join_inj. by symmetry in E.
Qed.

Lemma new_world_config : config_writable (sr_io env) new_world.
Proof.
  split; [|apply (fp_writable _ _ _ _ _ (rc_place _ _ _ _ Hn))].
  unfold is_directory, new_world. cbn [iv disk]. rewrite (rc_dir _ _ _ _ Hn).
  unfold new_disk, Disk.
  rewrite (with_files_extends _ _ _ _ _ (rc_place _ _ _ _ Hn) _ _ (validator_dir cfg) Directory); [done|].
  apply exists_directory, (fp_dir _ _ _ _ _ (rc_place _ _ _ _ Hn)).
Qed.

(** The store after the validator is added. *)
Lemma added_to_store cmd w' :
  add_definition_replace_disabled (sr_io env) (sr_opened env) new_definition new_world = (Ok (), w') ->
  let n1 := set_node_disk new_disk (record_command cmd n) in
  exists vs1, initialized_validators vs1 = initialized_validators vs /\
    slashing_protection vs1 = (register_validator (compress (inv_pk v)) (slashing_protection vs)).1 /\
    (doppelganger_service vs = None -> doppelganger_service vs1 = None) /\
    on_store (fun vs =>
      add_validator_keystore_share vs (sr_io env) (sr_opened env)
        (default_keystore_share_path (inv_keystore_share v ks) (validator_dir cfg))
        (default_keystore_share_password_path (inv_keystore_share v ks) (secrets_dir cfg)) true
        None None None None (default_operator_committee_definition_path (inv_pk v) (validator_dir cfg))
        (va_id (inv_validator v)) (inv_own v) (sr_now env) (sr_genesis_slot env)) n1 =
      (Ok (), with_world vs1 w' n1).
Proof.
  intros Hadd n1. unfold on_store. cbn [validator_store n1 set_node_disk record_command]. rewrite (rc_store _ _ _ _ Hn).
  unfold add_validator_keystore_share, new_keystore_share_with_password_path.
  destruct (with_files_lookup _ _ _ _ _ (rc_place _ _ _ _ Hn) insecure_password
    (inv_definition cfg env v)) as (Hs & _ & _). fold new_disk in Hs.
  cbn [node_disk n1 set_node_disk record_command]. unfold Disk. rewrite Hs.
  unfold ValidatorStore.add_validator. cbn [set_enabled voting_public_key master_public_key inv_keystore_share].
  pose proof (rc_registered _ _ _ _ Hn) as Hreg.
  destruct (register_validator _ _) as [sd r]. cbn [fst snd] in Hreg |- *. subst r.
  cbn [doppelganger_service set_slashing].
  assert (exists service, match doppelganger_service vs with
      | None => Some None
      | Some st => match register_new_validator (compress (inv_pk v)) (sr_now env) (sr_genesis_slot env) st with
                   | Ok st' => Some (Some st')
                   | _ => None
                   end
      end = Some service /\ (doppelganger_service vs = None -> service = None)) as (service & Hservice & Hnone).
  { destruct (doppelganger_service vs) as [sv|] eqn:Es; [|by eexists].
    destruct (rc_protected _ _ _ _ Hn sv Es) as [sv' ->]. by eexists. }
  exists (mkValidatorStore (initialized_validators vs) sd (slashing_protection_last_prune vs) service).
  do 3 (split; [done|]). rewrite Hservice. unfold on_validators.
  change (mkWorld _ _ _) with new_world.
  change (set_enabled true _) with new_definition. by rewrite Hadd.
Qed.

Lemma start_validator_run w' :
  let cmd := StartValidator (inv_validator v) (inv_operators v) (inv_shared v) (inv_encrypted v) in
  add_definition_replace_disabled (sr_io env) (sr_opened env) new_definition new_world = (Ok (), w') ->
  exists vs1, initialized_validators vs1 = initialized_validators vs /\
    slashing_protection vs1 = (register_validator (compress (inv_pk v)) (slashing_protection vs)).1 /\
    (doppelganger_service vs = None -> doppelganger_service vs1 = None) /\
    run_command cfg env cmd n = (Ok (), with_world vs1 w' (record_command cmd n)).
Proof.
  intros cmd Hadd. destruct (added_to_store cmd w' Hadd) as (vs1 & Hi & Hsl & Hdop & Hon).
  exists vs1. do 3 (split; [done|]). unfold run_command, node_prog.
  erewrite run_bind; [|reflexivity]. cbv beta.
  change (match cmd with StartValidator _ _ _ _ => _ | _ => _ end) with
    (NodeCommands.add_validator cfg env (inv_validator v) (inv_operators v) (inv_shared v)
       (inv_encrypted v)).
  destruct share_decrypted as (node_sk & encrypted & Hsk & Henc & Hdec).
  destruct (files_written _ _ _ _ _ (rc_place _ _ _ _ Hn) insecure_password
    (inv_definition cfg env v)) as (d3 & Hbuild & Hcom).
  unfold NodeCommands.add_validator, node_prog. rewrite Hsk. erewrite run_bind; [|reflexivity]. cbv beta.
  rewrite (in_pk _ _ Hv). erewrite run_bind; [|reflexivity]. cbv beta.
  erewrite run_bind; [|reflexivity]. cbv beta.
  rewrite path_new by (by apply (fp_new _ _ _ _ _ (rc_place _ _ _ _ Hn))).
  rewrite (in_shared _ _ Hv). erewrite run_bind; [|reflexivity]. cbv beta.
  rewrite (in_nodes _ _ Hv). erewrite run_bind; [|reflexivity]. cbv beta.
  rewrite (in_self _ _ Hv), Henc. erewrite run_bind; [|reflexivity]. cbv beta.
  rewrite Hdec. erewrite run_bind; [|reflexivity]. cbv beta.
  rewrite (rc_keystore _ _ _ _ Hn). erewrite run_bind; [|reflexivity]. cbv beta.
  rewrite (in_own _ _ Hv). erewrite run_bind; [|reflexivity]. cbv beta zeta.
  fold (inv_keystore_share v ks). fold (inv_definition cfg env v).
  erewrite run_bind; [|unfold on_disk; cbn [node_disk record_command]; rewrite Hbuild; reflexivity]. cbv beta.
  erewrite run_bind.
  2:{ unfold write_committee, node_prog. erewrite run_bind; [|reflexivity]. cbv beta.
      cbn [node_disk set_node_disk].
      change (create_new _ _ _ _) with (create_new (sr_io env)
        (default_operator_committee_definition_path (master_public_key (inv_keystore_share v ks))
           (validator_dir cfg)) (CommitteeFile (inv_definition cfg env v)) d3).
      rewrite Hcom. erewrite run_bind; [|reflexivity]. reflexivity. }
  exact Hon.
Qed.

(** The command succeeds and the validator runs with the signer of its committee. *)
Lemma registered_runs :
  exists n' vs' signer,
    run_command cfg env (StartValidator (inv_validator v) (inv_operators v) (inv_shared v)
      (inv_encrypted v)) n = (Ok (), n') /\
    validator_store n' = Some vs' /\ synced (new_material signer) (world_of vs' n') /\
    started (inv_definition cfg env v) (inv_keypair v) (inv_own v) signer /\ store signer = st /\
    (exists r, validators_of vs' !! compress (inv_pk v) = Some r /\
       signing_method r = DistributedMethod
         (default_keystore_share_path (inv_keystore_share v ks) (validator_dir cfg))
         (inv_keystore_share v ks) (inv_pk v) signer) /\
    slashing_protection vs' = (register_validator (compress (inv_pk v)) (slashing_protection vs)).1 /\
    (doppelganger_service vs = None -> doppelganger_service vs' = None).
Proof.
  destruct (signer_started (sr_opened env) st (rc_opened _ _ _ _ Hn)) as (signer & Hsig & Hst & Hstore).
  destruct (add_definition_follows (new_material signer) (sr_io env) (sr_opened env) new_definition new_world)
    as (w' & Hadd & Hf & Hs').
  { apply new_world_synced. }
  { apply (rc_new _ _ _ _ Hn). }
  { by apply new_ready. }
  { apply new_world_cache. }
  { apply new_world_config. }
  destruct (start_validator_run w' Hadd) as (vs1 & Hi & Hsl & Hdop & Hrun).
  eexists (with_world vs1 w' (record_command _ n)), (set_initialized vs1 (iv w')), signer. rewrite world_of_with.
  do 5 (split; [done|]). split; [|done].
  assert (new_definition ∈ kept ++ [new_definition]) as Hin
    by (apply elem_of_app; right; apply list_elem_of_here).
  pose proof (fo_running _ _ _ _ Hf new_definition Hin) as Hr. eexists. split; [exact Hr|].
  replace (InitializedValidators.validators (iv new_world) !! _) with (@None InitializedValidator).
  - cbn [default started_validator signing_method]. cbn [voting_public_key new_definition].
    by rewrite new_material_new.
  - symmetry. destruct (InitializedValidators.validators (iv new_world) !! _) as [r|] eqn:Er; [|done].
    destruct (ok_running _ new_world_ok _ _ Er) as (Ek%compress_inj & e & He & En & Hd). exfalso.
    apply (rc_new _ _ _ _ Hn e He En). by rewrite (desc_key _ _ Hd), <- Ek.
Qed.
End one.

(** ** Duties *)

(** A running validator whose signer collects the signatures of its committee. *)
Lemma running_signs cfg env v `{!SigCodecRoundTrip} `{!SigCodecStrict} cs share sk vs r path s pk signer
  kind root epoch conds item attempts quorum :
  invited cfg v ->
  dealt (inv_definition cfg env v) cs share -> share (inv_own v) = inv_share v ->
  is_secret sk -> fr (horner cs 0) = fr sk -> is_hash root ->
  started (inv_definition cfg env v) (inv_keypair v) (inv_own v) signer ->
  validators_of vs !! compress pk = Some r -> signing_method r = DistributedMethod path s pk signer ->
  doppelganger_protection_allows_signing vs (compress pk) = true ->
  snd (duty_of kind) = false \/ is_aggregator signer epoch = Ok true ->
  (forall s, work conds s = Some (committee_sign (operator_committee s) root attempts)) ->
  can_report (report conds) ->
  NoDup quorum -> (3 <= length quorum)%nat ->
  Forall (available (inv_definition cfg env v) share (inv_own v) root attempts) quorum ->
  snd (fst (get_signature vs (compress pk) (doppelganger_checked_signing_method vs (compress pk))
    kind root epoch conds item)) = Ok (SecretKey_sign sk (hash_bytes root)).
Proof.
  intros Hv Hd Hshare Hsk Hsk0 Hm Hst Hr Hmeth Hdopp Hagg Hwork Hdigest Hnd Hlen Hq.
  assert (inv_keypair v = share_keys share (inv_own v)) as Hkp.
  { unfold inv_keypair, share_keys. by rewrite Hshare, Blst.public_key_ok. }
  rewrite Hkp in Hst.
  destruct (duty_work _ (inv_definition_ok cfg env v Hv) cs share sk (inv_own v) signer root attempts quorum)
    as [ids Hids]; try done.
  unfold doppelganger_checked_signing_method, doppelganger_bypassed_signing_method.
  fold (validators_of vs). rewrite Hdopp, Hr, Hmeth. cbn [mret outcome_ret get_signature].
  pose proof (duty_collected (debug conds) signer kind root epoch (work conds) (report conds)
    (SecretKey_sign sk (hash_bytes root)) ids Hagg Hdigest) as Hc.
  rewrite Hwork in Hc. cbn [operator_committee local_sign_and_store] in Hc. rewrite Hids in Hc.
  specialize (Hc eq_refl).
  destruct (get_signature_from_root _ _ _ _ _ _ _) as [signer' result]. cbn in Hc |- *. by rewrite Hc.
Qed.

(** C3: a validator that is registered on the contract signs.  The command of its
    registration succeeds on a node that is ready for it: the share is decrypted, the
    files are written, and the validator runs with the signer of its committee, as do
    the validators that ran before, with the handlers of exactly these.  From then on
    a block and an attestation that the slashing protection accepts are signed with
    the key of the validator, whenever the operator is an aggregator of the epoch and
    three operators of the committee are available. *)
Theorem registered_validator_signs `{!SigCodecRoundTrip} `{!SigCodecStrict}
  cfg env v mat vs n ks st cs share sk :
  invited cfg v -> receptive cfg env v mat vs n ks st ->
  dealt (inv_definition cfg env v) cs share -> share (inv_own v) = inv_share v ->
  is_secret sk -> fr (horner cs 0) = fr sk -> inv_pk v = gmul sk ffi_p1_generator ->
  exists n' vs' signer,
    run_command cfg env (StartValidator (inv_validator v) (inv_operators v) (inv_shared v)
      (inv_encrypted v)) n = (Ok (), n') /\
    validator_store n' = Some vs' /\
    synced (new_material cfg env v mat ks signer) (world_of vs' n') /\
    started (inv_definition cfg env v) (share_keys share (inv_own v)) (inv_own v) signer /\
    store signer = st /\
    slashing_protection vs' = (register_validator (compress (inv_pk v)) (slashing_protection vs)).1 /\
    (doppelganger_service vs = None -> doppelganger_service vs' = None) /\
    (forall root, Signature_verify (SecretKey_sign sk (hash_bytes root)) (inv_pk v) (hash_bytes root) = true) /\
    forall conds attempts quorum epoch root,
      is_hash root -> doppelganger_protection_allows_signing vs' (compress (inv_pk v)) = true ->
      is_aggregator signer epoch = Ok true ->
      (forall s, work conds s = Some (committee_sign (operator_committee s) root attempts)) ->
      can_report (report conds) -> NoDup quorum -> (3 <= length quorum)%nat ->
      Forall (available (inv_definition cfg env v) share (inv_own v) root attempts) quorum ->
      (forall block slot, root = block_signing_root block -> epoch = slot_epoch (block_slot block) ->
         block_slot block <= slot ->
         snd (check_and_insert_block_proposal (compress (inv_pk v)) block (slashing_protection vs')) = inr Valid ->
         snd (fst (sign_block vs' (compress (inv_pk v)) block slot conds)) =
           Ok (SecretKey_sign sk (hash_bytes root))) /\
      (forall att current, root = att_signing_root att -> epoch = att_target att -> epoch <= current ->
         snd (check_and_insert_attestation (compress (inv_pk v)) att (slashing_protection vs')) = inr Valid ->
         snd (fst (sign_attestation vs' (compress (inv_pk v)) att (fun _ => true) current conds)) =
           Ok (SecretKey_sign sk (hash_bytes root))).
Proof.
  intros Hv Hn Hd Hshare Hsk Hsk0 Hpk.
  destruct (registered_runs cfg env v Hv mat vs n ks st Hn)
    as (n' & vs' & signer & Hrun & Hvs & Hs & Hst & Hstore & (r & Hr & Hmeth) & Hsl & Hdop).
  assert (inv_keypair v = share_keys share (inv_own v)) as Hkp.
  { unfold inv_keypair, share_keys. by rewrite Hshare, Blst.public_key_ok. }
  exists n', vs', signer. split_and!; try done.
  { by rewrite <- Hkp. }
  { intros root. rewrite Hpk. by apply signature_verifies. }
  intros conds attempts quorum epoch root Hm Hdopp Hagg Hwork Hdig Hnd Hlen Hq.
  assert (forall d kind item, snd (fst (get_signature (set_slashing vs' d) (compress (inv_pk v))
    (doppelganger_checked_signing_method (set_slashing vs' d) (compress (inv_pk v)))
    kind root epoch conds item)) = Ok (SecretKey_sign sk (hash_bytes root))) as Hsign.
  { intros d kind item.
    eapply (running_signs cfg env v cs share sk (set_slashing vs' d) r _ _ _ signer kind root epoch conds
      item attempts quorum); eauto. }
  split.
  - intros block slot -> -> Hslot Hval. unfold sign_block.
    rewrite (proj2 (Z.ltb_ge _ _)) by done.
    destruct (check_and_insert_block_proposal _ _ _) as [d x]. cbn in Hval. subst x. apply Hsign.
  - intros att current -> -> Hep Hval. unfold sign_attestation.
    rewrite (proj2 (Z.ltb_ge _ _)) by done.
    destruct (check_and_insert_attestation _ _ _) as [d x]. cbn in Hval. subst x.
    specialize (Hsign d AttestationData (SignedAttestation att)).
    destruct (get_signature _ _ _ _ _ _ _ _) as [[self' res] l]. cbn in Hsign |- *. by subst res.
Qed.
End registration.

(** ** A concrete registration *)

Section witness.
#[local] Existing Instances ideal_blst ideal_blst_laws ideal_bincode ideal_round_trip.
#[local] Existing Instances ideal_sig_codec ideal_sig_roundtrip ideal_sig_strict memory_db memory_db_reliable.
#[local] Existing Instances ideal_mempool ideal_keystore_crypto ideal_eth2_keystore ideal_eth2_keystore_laws.
#[local] Existing Instances mainnet demo_beacon history_db ideal_sqlite ideal_web3.
#[local] Existing Instances ideal_secp ideal_secp_laws ideal_aes ideal_aes_laws.

(** Three operators with shares of the key 7; the node is the first of them. *)
Definition trio_share (id : Z) : Z := 7 + 12 * id + 5 * id * id.
Definition operator_key (name : Z) : bytes := replicate 32 0 ++ [name].
Definition trio_ciphertext : bytes :=
  match elgamal_encrypt 6 (replicate 12 7) (SecretKey_serialize (trio_share 1)) (secp_public_key 5) with
  | Ok ct => to_bytes ct
  | _ => []
  end.
Definition trio_invitation : invitation :=
  mkInvitation demo_validator (map operator_key [11; 12; 13])
    (map (fun id => PublicKey_serialize (SecretKey_public_key (trio_share id))) [1; 2; 3])
    [trio_ciphertext; []; []] (SecretKey_public_key 7)
    (map (fun id => SecretKey_public_key (trio_share id)) [1; 2; 3]) [11; 12; 13] 0 1 (trio_share 1).

Lemma trio_secret id : 0 < id < 4 -> is_secret (trio_share id).
Proof. intros Hid. pose proof modulus_bits. unfold is_secret, trio_share. nia. Qed.

Lemma trio_invited : invited demo_node_config trio_invitation.
Proof.
  split; try reflexivity.
  - by apply (bool_decide_unpack _).
  - by apply trio_secret.
  - exists 5, 6, (replicate 12 7). eexists. split_and!; try reflexivity.
Qed.

Definition empty_validators : ValidatorStore :=
  mkValidatorStore (mkIv [] ["v"] ∅ (Some (11, demo_address))) ([], []) 0 None.
Definition empty_node : Node :=
  mkNode (Some empty_validators) {[ ["v"] := Directory; ["s"] := Directory ]} (mkHandlers ∅ ∅ ∅ ∅) empty_db [].
Definition trio_keystore : Keystore := (9, [50], inv_keypair trio_invitation).

Lemma trio_place :
  fresh_place ["v"] ["s"] demo_io (node_disk empty_node) (inv_keystore_share trio_invitation trio_keystore).
Proof.
  split; try done.
  - by intros p ->%list_elem_of_singleton.
  - intros p [k ->]. cbn [node_disk empty_node]. unfold Disk.
    rewrite lookup_insert_ne by done. by apply lookup_singleton_None.
Qed.

Lemma trio_receptive mat :
  receptive demo_node_config demo_surroundings trio_invitation mat empty_validators empty_node
    trio_keystore empty_store.
Proof.
  assert (forall (P : Prop) (def : ValidatorDefinition), def ∈ [] -> P) as Hnil
    by (intros P def Hd; by apply not_elem_of_nil in Hd).
  split.
  - reflexivity.
  - reflexivity.
  - discriminate.
  - split; [split; [constructor|done|]|..].
    + intros def Hd. by apply (Hnil _ def).
    + intros def Hd. by apply (Hnil _ def).
    + done.
  - split.
    + constructor.
    + intros def Hd. by apply (Hnil _ def).
    + reflexivity.
    + intros e1 e2 p q Hd. by apply (Hnil _ e1).
    + intros e1 e2 Hd. by apply (Hnil _ e1).
  - intros f Hf. discriminate Hf.
  - reflexivity.
  - reflexivity.
  - reflexivity.
  - reflexivity.
  - apply trio_place.
  - split; [|discriminate]. apply (pretty_head "v"%char (Npos _)), digit_not_letter.
    apply list_elem_of_further, list_elem_of_here.
  - intros e Hd. by apply (Hnil _ e).
  - intros e Hd. by apply (Hnil _ e).
Qed.

Lemma trio_dealt :
  dealt (inv_definition demo_node_config demo_surroundings trio_invitation) [7; 12; 5] trio_share.
Proof.
  constructor; [reflexivity|simpl; lia|]. intros i id pk Hid Hpk.
  assert (pk = SecretKey_public_key (trio_share id) /\ 0 < id < 4) as [-> Hi].
  { destruct i as [|[|[|i]]]; cbn in Hid, Hpk; [| | |done];
      injection Hid as <-; injection Hpk as <-; (split; [done|lia]). }
  split; [|apply Blst.public_key_ok]. pose proof modulus_bits.
  split; [unfold is_u64, u64_max; lia|]. split; [lia|]. split; [by apply trio_secret|].
  apply (f_equal fr). unfold trio_share, horner. simpl. ring.
Qed.

(** The others have signed when they are first asked. *)
Definition trio_other (id : Z) : DvfSigner :=
  mkDvfSigner id (OperatorCommittee_new 5 (SecretKey_public_key 7) 3) (share_keys trio_share id) empty_store.
Definition trio_attempts (root : Hash256) (id : Z) (i : nat) : Operator.attempt :=
  Replied (request_reply (store (local_sign_and_store (trio_other id) root)) (dvf_request 5 root)).

Lemma trio_available root id :
  0 < id < 4 ->
  available (inv_definition demo_node_config demo_surroundings trio_invitation) trio_share 1 root
    (trio_attempts root) id.
Proof.
  intros Hid. exists (Z.to_nat (id - 1)).
  assert (id = 1 \/ id = 2 \/ id = 3) as [->|[->| ->]] by lia; (split; [reflexivity|]); [by left|right..].
  all: exists demo_address; do 2 (split; [reflexivity|]); eexists 0%nat, (trio_other _);
    (split; [lia|]); do 3 (split; [reflexivity|]); lia.
Qed.

(** A block of the first epoch. *)
Definition trio_block : BeaconBlockT := (5, 1).
Definition trio_root : Hash256 := block_signing_root trio_block.

Lemma trio_root_hash : is_hash trio_root.
Proof. unfold is_hash. vm_compute. split; congruence. Qed.

Lemma registered_validator_signs_witness :
  exists n' vs',
    run_command demo_node_config demo_surroundings (StartValidator demo_validator
      (inv_operators trio_invitation) (inv_shared trio_invitation) (inv_encrypted trio_invitation))
      empty_node = (Ok (), n') /\ validator_store n' = Some vs' /\
    snd (fst (sign_block vs' (compress (SecretKey_public_key 7)) trio_block 5
      (ValidatorStore.mkConditions true (fun _ => "")
         (fun s => Some (committee_sign (operator_committee s) trio_root (trio_attempts trio_root)))
         (mkReporting (inr ()) (Some ""))))) =
      Ok (SecretKey_sign 7 (hash_bytes trio_root)).
Proof.
  destruct (registered_validator_signs demo_node_config demo_surroundings trio_invitation
    (fun _ => mkMaterial stopped_share (share_keys demo_share 1) demo_definition second_signer)
    empty_validators empty_node trio_keystore empty_store [7; 12; 5] trio_share 7)
    as (n' & vs' & signer & Hrun & Hvs & _ & Hst & _ & Hsl & Hdop & _ & Hduty).
  - apply trio_invited.
  - apply trio_receptive.
  - apply trio_dealt.
  - reflexivity.
  - unfold is_secret. pose proof modulus_bits. lia.
  - apply (f_equal fr). reflexivity.
  - apply Blst.public_key_ok.
  - exists n', vs'. split; [exact Hrun|]. split; [exact Hvs|].
    assert (is_aggregator signer 0 = Ok true) as Hagg.
    { pose proof (inv_definition_ok _ demo_surroundings _ trio_invited) as Hok.
      unfold is_aggregator. rewrite (started_leader _ Hok _ _ _ 0) with (2 := Hst) by (simpl; lia).
      destruct (started_spec _ Hok _ _ _ Hst) as (-> & _). reflexivity. }
    destruct (Hduty (ValidatorStore.mkConditions true (fun _ => "")
      (fun s => Some (committee_sign (operator_committee s) trio_root (trio_attempts trio_root)))
         (mkReporting (inr ()) (Some "")))
      (trio_attempts trio_root) [1; 2; 3] 0 trio_root) as [Hblock _].
    + apply trio_root_hash.
    + unfold doppelganger_protection_allows_signing. by rewrite Hdop.
    + exact Hagg.
    + intros s. exact eq_refl.
    + split; [exact eq_refl|]. by eexists.
    + by apply (bool_decide_unpack _).
    + simpl. lia.
    + repeat constructor; apply trio_available; lia.
    + apply Hblock; [exact eq_refl|exact eq_refl|simpl; lia|]. rewrite Hsl. exact eq_refl.
Defined.
End witness.
