(* ===== verification/Initiators.v ===== *)
(** * Initiators

    The life of an initiator on a node, over [NodeCommands] and [Database]: the keys
    of its key generation are stored, and the deposits of its minipool are signed
    with them. *)

From S2P Require Import Prelude Store Committee Messages Network Core Ideal Mempool.
From S2P Require Import Scalars Blst BlstIdeal Polynomial Threshold Processes IoCommittee Operator DvfCore.
From S2P Require Import Doppelganger KeyCache KeyFiles InitializedValidators ValidatorUpdates ValidatorStore.
From S2P Require Import Elgamal Database Contract NodeCommands NodeRuns.

Section initiators.
Context `{Eth2Keystore} `{!BlstLaws} `{Bincode} `{!SigCodec} `{MempoolCodec} `{Rocksdb Digest bytes}.
Context `{EthSpec} `{SlashingDatabase} `{Sqlite} `{Web3} `{Secp256k1} `{Aes}.

(** Keys as a key generation gives them. *)
Record generated (kp : Keypair) (va_pk : p1) (pks : gmap Z p1) : Prop := {
  ge_secret : is_secret (Keypair_sk kp);
  ge_public : Keypair_pk kp = SecretKey_public_key (Keypair_sk kp);
  ge_validator : Database.public_key_ok va_pk;
  ge_some : pks <> ∅;
  ge_shares i p : pks !! i = Some p -> Database.public_key_ok p
}.

(** A command of an initiator that succeeds has stored the keys. *)
Lemma start_initiator_stores cfg env initiator ops n n' :
  start_initiator cfg env initiator ops n = (Ok (), n') ->
  exists addrs kp va_pk pks,
    operator_addrs cfg env ops = Some addrs /\
    sr_dkg env (ini_releated_operators initiator) addrs = Some (kp, va_pk, pks) /\
    n' = set_db (insert_initiator_store (node_db n)
                   (mkRecord (ini_id initiator) (Keypair_sk kp) va_pk pks)) n.
Proof.
  unfold start_initiator, node_prog. destruct (secp_secret_from_slice _) as [sk|]; [|done].
  erewrite run_bind; [|reflexivity]. cbv beta.
  destruct (operator_addrs cfg env ops) as [addrs|]; [|done].
  erewrite run_bind; [|reflexivity]. cbv beta.
  destruct (sr_self_op_id env) as [self|]; [|done]. erewrite run_bind; [|reflexivity]. cbv beta.
  destruct (sr_dkg _ _ _) as [[[kp va_pk] pks]|] eqn:Ed; [|done].
  erewrite run_bind; [|reflexivity]. cbv beta iota.
  destruct (elgamal_encrypt _ _ _ _); [|done..]. erewrite run_bind; [|reflexivity]. cbv beta.
  destruct (pks !! self); [|done]. erewrite run_bind; [|reflexivity]. cbv beta.
  destruct (sr_request env); [|done]. erewrite run_bind; [|reflexivity]. cbv beta.
  intros [= <-]. by exists addrs, kp, va_pk, pks.
Qed.

(** What a deposit does with keys that are read back. *)
Lemma minipool_deposit_run cfg env id vpk pk ops ids address amount n addrs self kp va_pk pks :
  operator_addrs cfg env ops = Some addrs -> sr_self_op_id env = Some self ->
  PublicKey_deserialize vpk = Some pk ->
  query_initiator_store (node_db n) id = Ok (Some (mkRecord id (Keypair_sk kp) va_pk pks)) ->
  Keypair_pk kp = SecretKey_public_key (Keypair_sk kp) ->
  minipool_deposit cfg env id vpk ops ids address amount n =
    (if negb (bool_decide (pk = va_pk)) then Err KeysDontMatch
     else if sr_signed env kp va_pk pks ids addrs (Some (address, amount))
     then if sr_request env then Ok () else Err UnableToRequest
     else Err DistributedSigningFailed, n).
Proof.
  intros Ha Hs Hpk Hq Hkp. unfold minipool_deposit, node_prog. rewrite Ha, Hs.
  erewrite run_bind; [|reflexivity]. cbv beta. erewrite run_bind; [|reflexivity]. cbv beta.
  erewrite run_bind.
  2:{ unfold initiator_keys, node_prog. erewrite run_bind; [|reflexivity]. cbv beta. rewrite Hq.
      erewrite run_bind; [|reflexivity]. reflexivity. }
  cbn [rec_share_bls_sk rec_validator_pk rec_share_bls_pks]. cbv beta iota. rewrite <- Hkp, Hpk.
  replace (mkKeypair _ (Keypair_pk kp) (Keypair_sk kp)) with kp by (by destruct kp).
  erewrite run_bind; [|reflexivity]. cbv beta.
  destruct (bool_decide (pk = va_pk)); cbn [negb]; [|done].
  destruct (sr_signed _ _ _ _ _ _ _); [|done]. erewrite run_bind; [|reflexivity]. cbv beta.
  by destruct (sr_request env).
Qed.

(** The deposits of a minipool are signed with the keys that were generated for its
    initiator.  When the command of an initiator succeeds, both deposits that follow
    are made with the share, the validator key and the public keys of that key
    generation, as long as the database keeps them, whatever happens in between; a
    deposit for another validator key is refused.  Neither changes the node but for the
    record of the call. *)
Theorem deposits_use_generated_keys cfg env initiator ops n n' :
  store_wf (node_db n) ->
  (forall a, a ∈ initiator_store_record (node_db n) -> sr_initiator_id a <> ini_id initiator) ->
  (forall ids addrs kp va_pk pks, sr_dkg env ids addrs = Some (kp, va_pk, pks) -> generated kp va_pk pks) ->
  run_command cfg env (StartInitiator initiator ops) n = (Ok (), n') ->
  store_wf (node_db n') /\
  exists addrs kp va_pk pks,
    sr_dkg env (ini_releated_operators initiator) addrs = Some (kp, va_pk, pks) /\
    forall env' n'' vpk pk ops' ids address addrs' self,
      query_initiator_store (node_db n'') (ini_id initiator) =
        query_initiator_store (node_db n') (ini_id initiator) ->
      operator_addrs cfg env' ops' = Some addrs' -> sr_self_op_id env' = Some self ->
      PublicKey_deserialize vpk = Some pk ->
      let result amount :=
        if negb (bool_decide (pk = va_pk)) then Err KeysDontMatch
        else if sr_signed env' kp va_pk pks ids addrs' (Some (address, amount))
        then if sr_request env' then Ok () else Err UnableToRequest
        else Err DistributedSigningFailed in
      let created := MiniPoolCreated (ini_id initiator) vpk ops' ids address in
      let ready := MiniPoolReady (ini_id initiator) vpk ops' ids address in
      run_command cfg env' created n'' = (result 1000000000, record_command created n'') /\
      run_command cfg env' ready n'' = (result 31000000000, record_command ready n'').
Proof.
  intros Hwf Hfresh Hgen Hrun.
  destruct (start_initiator_stores _ _ _ _ (record_command (StartInitiator initiator ops) n) _ Hrun)
    as (addrs & kp & va_pk & pks & _ & Hdkg & ->).
  destruct (Hgen _ _ _ _ _ Hdkg) as [Hsk Hkp Hva Hne Hpks].
  destruct (initiator_keys_stored (node_db n) (mkRecord (ini_id initiator) (Keypair_sk kp) va_pk pks))
    as (Hwf' & Hq & _); try done.
  split; [done|]. exists addrs, kp, va_pk, pks. split; [done|].
  intros env' n'' vpk pk ops' ids address addrs' self Hsame Ha Hs Hpk result created ready.
  cbn [rec_id] in Hq. cbn [node_db set_db record_command] in Hsame. rewrite <- Hsame in Hq.
  split; [apply (minipool_deposit_run _ _ _ _ _ _ _ _ _ (record_command created n'') _ self)
         |apply (minipool_deposit_run _ _ _ _ _ _ _ _ _ (record_command ready n'') _ self)];
    done.
Qed.
End initiators.

(** ** A concrete initiator *)

Section witness.
#[local] Existing Instances ideal_blst ideal_blst_laws ideal_bincode ideal_sig_codec memory_db ideal_mempool.
#[local] Existing Instances ideal_keystore_crypto ideal_eth2_keystore mainnet demo_beacon history_db.
#[local] Existing Instances ideal_sqlite ideal_web3 ideal_secp ideal_aes.

(** A key generation with one operator, and one that signs every deposit. *)
Definition demo_keys : Keypair * p1 * gmap Z p1 :=
  (mkKeypair _ (gmul 5 ffi_p1_generator) 5, gmul 5 ffi_p1_generator, {[ 3 := gmul 7 ffi_p1_generator ]}).
Definition key_surroundings : surroundings :=
  mkSurroundings local_io local_opened 9 (fun _ => Some 3232235777) None 0 (Some 3)
    (fun _ _ => Some demo_keys) (fun _ _ _ _ _ _ => true) (6, replicate 12 7) true.
Definition demo_initiator : Initiator := mkInitiator 1 9 [3] None None.
Definition keys_node : Node :=
  snd (run_command idle_config key_surroundings (StartInitiator demo_initiator []) (idle_node empty_db)).

Lemma keys_node_ok :
  run_command idle_config key_surroundings (StartInitiator demo_initiator []) (idle_node empty_db) =
  (Ok (), keys_node).
Proof.
  unfold keys_node. rewrite (surjective_pairing (run_command _ _ _ _)) at 1. f_equal.
Qed.

Lemma demo_keys_generated : generated demo_keys.1.1 demo_keys.1.2 demo_keys.2.
Proof.
  split; cbn [demo_keys fst snd].
  - unfold is_secret. cbn [Keypair_sk]. pose proof modulus_bits. lia.
  - symmetry. apply Blst.public_key_ok.
  - apply demo_key_ok. lia.
  - apply insert_non_empty.
  - intros i p [<- <-]%lookup_singleton_Some. apply demo_key_ok. lia.
Qed.

Lemma deposits_use_generated_keys_witness :
  run_command idle_config key_surroundings
    (MiniPoolCreated 1 (PublicKey_serialize (gmul 5 ffi_p1_generator)) [] [3] 8) keys_node =
    (Ok (), record_command
       (MiniPoolCreated 1 (PublicKey_serialize (gmul 5 ffi_p1_generator)) [] [3] 8) keys_node).
Proof.
  destruct (deposits_use_generated_keys idle_config key_surroundings demo_initiator [] (idle_node empty_db)
    keys_node) as (_ & addrs & kp & va_pk & pks & Hdkg & Hdep).
  - split; intros x Hx; by apply not_elem_of_nil in Hx.
  - intros a Ha. by apply not_elem_of_nil in Ha.
  - intros ids addrs kp va_pk pks [= <- <- <-]. apply demo_keys_generated.
  - exact keys_node_ok.
  - injection Hdkg as <- <- <-.
    destruct (Hdep key_surroundings keys_node (PublicKey_serialize (gmul 5 ffi_p1_generator))
      (gmul 5 ffi_p1_generator) [] [3] 8 [] 3) as [Hc _].
    + reflexivity.
    + reflexivity.
    + reflexivity.
    + destruct (demo_key_ok 5) as [Ht Hn]; [lia|]. by apply public_roundtrip.
    + rewrite bool_decide_eq_true_2 in Hc by reflexivity. exact Hc.
Defined.
End witness.
