(* ===== verification/BeaconNodes.v ===== *)
(** * Beacon nodes with fallback

    Models [src/validation/beacon_node_fallback.rs] and
    [src/validation/check_synced.rs]: the candidates with their shared statuses, the
    checks that refresh a status, and the requests that go to the first candidate
    that answers or to all of them.  The HTTP client of a beacon node belongs to
    another crate and is a class; a request may change everything, the statuses
    included, since other tasks run while it is awaited. *)

From stdpp Require Import functions.
From stdpp Require Import pretty.
From S2P Require Import Prelude.

Module RequireSynced.
Inductive t : Type := Yes | No.
End RequireSynced.

Module OfflineOnFailure.
Inductive t : Type := Yes | No.
End OfflineOnFailure.

(** Why a candidate might not be ready. *)
Inductive CandidateError : Type := Uninitialized | Offline | Incompatible | NotSynced.

#[global] Instance CandidateError_eq_dec : EqDecision CandidateError.
Proof. solve_decision. Defined.

Definition Status : Type := CandidateError + ().

Inductive FallbackError (E : Type) : Type :=
| Unavailable (e : CandidateError)
| RequestFailed (e : E).
Arguments Unavailable {E} e.
Arguments RequestFailed {E} e.

(** The errors of a request, with the endpoints that gave them. *)
Definition Errors (E : Type) : Type := list (string * FallbackError E).

Definition request_failure {E} (e : FallbackError E) : option E :=
  match e with
  | RequestFailed e => Some e
  | Unavailable _ => None
  end.

(** [Errors] as a text; [debug] is the text of an error. *)
Fixpoint display_entries {E} (debug : FallbackError E -> string) (l : Errors E) : string :=
  match l with
  | [] => ""
  | (id, error) :: l =>
      " " +:+ id +:+ " => " +:+ debug error +:+ (match l with [] => "" | _ => "," end) +:+
      display_entries debug l
  end.

Definition display {E} (debug : FallbackError E -> string) (errors : Errors E) : string :=
  match errors with
  | [] => ""
  | _ => "Some endpoints failed, num_failed: " +:+ pretty (length errors) +:+
         display_entries debug errors
  end.

(** The parts of the chain specification that are compared. *)
Record ChainSpec := mkChainSpec {
  genesis_fork_version : Z;
  altair_fork_epoch : option Z;
  bellatrix_fork_epoch : option Z
}.

Record SyncingData := mkSyncingData {
  is_syncing : bool;
  head_slot : Z;
  sync_distance : Z
}.

(** The statuses of the candidates by position, and the rest of the world. *)
Record nodes (W : Type) := mkNodes {
  statuses : nat -> Status;
  outside : W
}.
Arguments mkNodes {W} statuses outside.
Arguments statuses {W} n.
Arguments outside {W} n.

Class BeaconNodeHttpClient (W : Type) := {
  Client : Type;
  HttpError : Type;
  Config : Type;
  Clock : Type;
  endpoint : Client -> string;
  from_config : Config -> option ChainSpec;
  get_node_version : Client -> prog (nodes W) HttpError string;
  get_config_spec : Client -> prog (nodes W) HttpError Config;
  get_node_syncing : Client -> prog (nodes W) HttpError SyncingData
}.

Definition SYNC_TOLERANCE : Z := 4.

Section fallback.
Context {W : Type} `{BeaconNodeHttpClient W}.

(** A candidate: its client, and the position of its status. *)
Record CandidateBeaconNode := mkCandidate {
  position : nat;
  beacon_node : Client
}.

Record BeaconNodeFallback := mkFallback {
  clients : list Client;
  slot_clock : option Clock;
  disable_run_on_all : bool;
  spec : ChainSpec
}.

Definition candidates (self : BeaconNodeFallback) : list CandidateBeaconNode :=
  imap mkCandidate (clients self).

(** A new fallback has no clock, and its candidates are not initialized. *)
Definition new (clients : list Client) (disable_run_on_all : bool) (spec : ChainSpec) (w : W)
  : BeaconNodeFallback * nodes W :=
  (mkFallback clients None disable_run_on_all spec, mkNodes (fun _ => inl Uninitialized) w).

Definition set_slot_clock (self : BeaconNodeFallback) (clock : Clock) : BeaconNodeFallback :=
  mkFallback (clients self) (Some clock) (disable_run_on_all self) (spec self).

(** ** One candidate *)

Definition status_for (synced : RequireSynced.t) (st : Status) : Status :=
  match st, synced with
  | inl NotSynced, RequireSynced.No => inr ()
  | other, _ => other
  end.

Definition status {E} (c : CandidateBeaconNode) (synced : RequireSynced.t)
  : prog (nodes W) E Status :=
  gets (fun s => status_for synced (statuses s (position c))).

Definition set_status (c : CandidateBeaconNode) (st : Status) (s : nodes W) : nodes W :=
  mkNodes (<[position c := st]> (statuses s)) (outside s).

Definition set_offline {E} (c : CandidateBeaconNode) : prog (nodes W) E () :=
  modify (set_status c (inl Offline)).

Definition is_online {E} (c : CandidateBeaconNode) : prog (nodes W) E Status :=
  result ← caught (get_node_version (beacon_node c));
  mret (match result with inr _ => inr () | inl _ => inl Offline end).

(** Other fork epochs are only logged. *)
Definition is_compatible {E} (spec : ChainSpec) (c : CandidateBeaconNode)
  : prog (nodes W) E Status :=
  result ← caught (get_config_spec (beacon_node c));
  mret
    (match result with
     | inl _ => inl Offline
     | inr config =>
         match from_config config with
         | None => inl Incompatible
         | Some beacon_node_spec =>
             if genesis_fork_version beacon_node_spec =? genesis_fork_version spec
             then inr () else inl Incompatible
         end
     end).

(** The discrepancy with the clock is only logged. *)
Definition check_synced {E} (c : CandidateBeaconNode) : prog (nodes W) E Status :=
  result ← caught (get_node_syncing (beacon_node c));
  mret
    (match result with
     | inl _ => inl Offline
     | inr data =>
         if negb (is_syncing data) || (sync_distance data <? SYNC_TOLERANCE)
         then inr () else inl NotSynced
     end).

Definition is_synced {E} (slot_clock : option Clock) (c : CandidateBeaconNode)
  : prog (nodes W) E Status :=
  match slot_clock with
  | Some _ => check_synced c
  | None => mret (inr ())
  end.

(** The status that the checks of [refresh_status] give. *)
Definition new_status {E} (self : BeaconNodeFallback) (c : CandidateBeaconNode)
  : prog (nodes W) E Status :=
  online ← is_online c;
  match online with
  | inl e => mret (inl e)
  | inr _ =>
      compatible ← is_compatible (spec self) c;
      match compatible with
      | inl e => mret (inl e)
      | inr _ => is_synced (slot_clock self) c
      end
  end.

Definition refresh_status {E} (self : BeaconNodeFallback) (c : CandidateBeaconNode)
  : prog (nodes W) E Status :=
  st ← new_status self c;
  _ ← modify (set_status c st);
  mret st.

(** ** Counts *)

Definition is_ok (st : Status) : bool := match st with inr _ => true | inl _ => false end.

Definition count (synced : RequireSynced.t) (cs : list CandidateBeaconNode) (s : nodes W) : nat :=
  length (filter (fun c => is_ok (status_for synced (statuses s (position c)))) cs).

Definition num_total (self : BeaconNodeFallback) : nat := length (clients self).
Definition num_synced (self : BeaconNodeFallback) : nodes W -> nat :=
  count RequireSynced.Yes (candidates self).
Definition num_synced_fallback (self : BeaconNodeFallback) : nodes W -> nat :=
  count RequireSynced.Yes (drop 1 (candidates self)).
Definition num_available (self : BeaconNodeFallback) : nodes W -> nat :=
  count RequireSynced.No (candidates self).

(** ** Updates of the statuses *)

Fixpoint refresh_all {E} (self : BeaconNodeFallback) (cs : list CandidateBeaconNode)
  : prog (nodes W) E () :=
  match cs with
  | [] => mret ()
  | c :: cs => _ ← refresh_status self c; refresh_all self cs
  end.

(** The candidates are chosen first; their updates are joined. *)
Definition update_unready_candidates {E} (self : BeaconNodeFallback) : prog (nodes W) E () :=
  unready ← gets (fun s =>
    filter (fun c => negb (is_ok (statuses s (position c)))) (candidates self));
  refresh_all self unready.

(** ** [first_success] *)

Section first_success.
Context {E O : Type}.
Context (require_synced : RequireSynced.t) (offline_on_failure : OfflineOnFailure.t).
Context (func : Client -> prog (nodes W) E O).

Definition mark_failed (c : CandidateBeaconNode) : prog (nodes W) (Errors E) () :=
  match offline_on_failure with
  | OfflineOnFailure.Yes => set_offline c
  | OfflineOnFailure.No => mret ()
  end.

Definition failed (c : CandidateBeaconNode) (e : FallbackError E) : string * FallbackError E :=
  (endpoint (beacon_node c), e).

(** The macro [try_func]; like the loops, it gives the errors so far or the answer that
    ends the method. *)
Definition try_func (c : CandidateBeaconNode) (errors : Errors E)
  : prog (nodes W) (Errors E) (Errors E + O) :=
  result ← caught (func (beacon_node c));
  match result with
  | inr val => mret (inr val)
  | inl e =>
      _ ← mark_failed c;
      mret (inl (errors ++ [failed c (RequestFailed e)]))
  end.

(** The errors, the candidates to retry and the unsynced ones. *)
Definition sorted_out : Type :=
  Errors E * list CandidateBeaconNode * list CandidateBeaconNode.

Fixpoint first_pass (cs : list CandidateBeaconNode) (acc : sorted_out)
  : prog (nodes W) (Errors E) (sorted_out + O) :=
  match cs with
  | [] => mret (inl acc)
  | c :: cs =>
      let '(errors, to_retry, retry_unsynced) := acc in
      st ← status c RequireSynced.Yes;
      match st, require_synced with
      | inl NotSynced, RequireSynced.No =>
          first_pass cs (errors ++ [failed c (Unavailable NotSynced)], to_retry,
                         retry_unsynced ++ [c])
      | inl e, _ =>
          first_pass cs (errors ++ [failed c (Unavailable e)], to_retry ++ [c], retry_unsynced)
      | inr _, _ =>
          r ← try_func c errors;
          match r with
          | inr val => mret (inr val)
          | inl errors => first_pass cs (errors, to_retry, retry_unsynced)
          end
      end
  end.

Fixpoint second_pass (cs : list CandidateBeaconNode) (errors : Errors E)
  : prog (nodes W) (Errors E) (Errors E + O) :=
  match cs with
  | [] => mret (inl errors)
  | c :: cs =>
      r ← try_func c errors;
      match r with
      | inr val => mret (inr val)
      | inl errors => second_pass cs errors
      end
  end.

(** The status in the third pass: a candidate that is not ready is checked again. *)
Definition renewed_status (self : BeaconNodeFallback) (c : CandidateBeaconNode)
  : prog (nodes W) (Errors E) Status :=
  st ← status c require_synced;
  match st with
  | inr _ => mret (inr ())
  | inl _ => refresh_status self c
  end.

Definition try_renewed (c : CandidateBeaconNode) (errors : Errors E) (st : Status)
  : prog (nodes W) (Errors E) (Errors E + O) :=
  match st, require_synced with
  | inr _, _ => try_func c errors
  | inl NotSynced, RequireSynced.No => try_func c errors
  | inl e, _ => mret (inl (errors ++ [failed c (Unavailable e)]))
  end.

Definition retry (self : BeaconNodeFallback) (c : CandidateBeaconNode) (errors : Errors E)
  : prog (nodes W) (Errors E) (Errors E + O) :=
  st ← renewed_status self c;
  try_renewed c errors st.

Fixpoint third_pass (self : BeaconNodeFallback) (cs : list CandidateBeaconNode)
  (errors : Errors E) : prog (nodes W) (Errors E) (Errors E + O) :=
  match cs with
  | [] => mret (inl errors)
  | c :: cs =>
      r ← retry self c errors;
      match r with
      | inr val => mret (inr val)
      | inl errors => third_pass self cs errors
      end
  end.

Definition first_success (self : BeaconNodeFallback) : prog (nodes W) (Errors E) O :=
  r ← first_pass (candidates self) ([], [], []);
  match r with
  | inr val => mret val
  | inl (errors, to_retry, retry_unsynced) =>
      r ← match require_synced with
          | RequireSynced.No => second_pass retry_unsynced errors
          | RequireSynced.Yes => mret (inl errors)
          end;
      match r with
      | inr val => mret val
      | inl errors =>
          r ← third_pass self to_retry errors;
          match r with
          | inr val => mret val
          | inl errors => fail errors
          end
      end
  end.

(** ** [run_on_all] *)

Definition results : Type := list ((string * FallbackError E) + O).

Definition try_func_all (c : CandidateBeaconNode) (rs : results)
  : prog (nodes W) (Errors E) results :=
  result ← caught (func (beacon_node c));
  match result with
  | inr val => mret (rs ++ [inr val])
  | inl e =>
      _ ← mark_failed c;
      mret (rs ++ [inl (failed c (RequestFailed e))])
  end.

Fixpoint first_pass_all (cs : list CandidateBeaconNode)
  (acc : results * list CandidateBeaconNode * list CandidateBeaconNode)
  : prog (nodes W) (Errors E) (results * list CandidateBeaconNode * list CandidateBeaconNode) :=
  match cs with
  | [] => mret acc
  | c :: cs =>
      let '(rs, to_retry, retry_unsynced) := acc in
      st ← status c RequireSynced.Yes;
      match st, require_synced with
      | inl NotSynced, RequireSynced.No => first_pass_all cs (rs, to_retry, retry_unsynced ++ [c])
      | inl _, _ => first_pass_all cs (rs, to_retry ++ [c], retry_unsynced)
      | inr _, _ =>
          rs ← try_func_all c rs;
          first_pass_all cs (rs, to_retry, retry_unsynced)
      end
  end.

Fixpoint second_pass_all (cs : list CandidateBeaconNode) (rs : results)
  : prog (nodes W) (Errors E) results :=
  match cs with
  | [] => mret rs
  | c :: cs => rs ← try_func_all c rs; second_pass_all cs rs
  end.

Definition retry_all (self : BeaconNodeFallback) (c : CandidateBeaconNode) (rs : results)
  : prog (nodes W) (Errors E) results :=
  st ← renewed_status self c;
  match st, require_synced with
  | inr _, _ => try_func_all c rs
  | inl NotSynced, RequireSynced.No => try_func_all c rs
  | inl e, _ => mret (rs ++ [inl (failed c (Unavailable e))])
  end.

Fixpoint third_pass_all (self : BeaconNodeFallback) (cs : list CandidateBeaconNode) (rs : results)
  : prog (nodes W) (Errors E) results :=
  match cs with
  | [] => mret rs
  | c :: cs => rs ← retry_all self c rs; third_pass_all self cs rs
  end.

Definition errors_of (rs : results) : Errors E :=
  omap (fun r => match r with inl e => Some e | inr _ => None end) rs.

Definition run_on_all (self : BeaconNodeFallback) : prog (nodes W) (Errors E) () :=
  '(rs, to_retry, retry_unsynced) ← first_pass_all (candidates self) ([], [], []);
  rs ← match require_synced with
       | RequireSynced.No => second_pass_all retry_unsynced rs
       | RequireSynced.Yes => mret rs
       end;
  rs ← third_pass_all self to_retry rs;
  match errors_of rs with
  | [] => mret ()
  | errors => fail errors
  end.
End first_success.

Definition run {E} (require_synced : RequireSynced.t) (offline_on_failure : OfflineOnFailure.t)
  (func : Client -> prog (nodes W) E ()) (self : BeaconNodeFallback)
  : prog (nodes W) (Errors E) () :=
  if disable_run_on_all self
  then first_success require_synced offline_on_failure func self
  else run_on_all require_synced offline_on_failure func self.
End fallback.

(** ** A rule for requests

    A property of the world that the checks of the nodes, failed requests and changes
    of the statuses keep holds when a request has failed on all candidates. *)

Section rule.
Context {W : Type} `{BeaconNodeHttpClient W} {E O : Type}.
Context (require_synced : RequireSynced.t) (offline_on_failure : OfflineOnFailure.t).
Context (func : Client -> prog (nodes W) E O) (self : BeaconNodeFallback).

(** [I] holds between the requests, [Q] of an answer, [F] of a failure and [X] when the
    code panics or does not return. *)
Context (I : nodes W -> Prop) (Q : O -> nodes W -> Prop) (F : E -> Prop) (X : nodes W -> Prop).

Definition loop_post {A} (P : A -> Prop) (r : outcome (Errors E) (A + O)) (s : nodes W) : Prop :=
  match r with
  | Ok (inl a) => I s /\ P a
  | Ok (inr val) => Q val s
  | Err _ => False
  | Panic _ | Diverged => X s
  end.

Definition failures_ok (errors : Errors E) : Prop :=
  Forall (fun x => match x.2 with RequestFailed e => F e | Unavailable _ => True end) errors.

Hypothesis call_keeps : forall c s, I s ->
  wp (func c) (fun r s' =>
    match r with
    | Ok val => Q val s'
    | Err e => I s' /\ F e
    | Panic _ | Diverged => X s'
    end) s.
Hypothesis status_keeps : forall c st s, I s -> I (set_status c st s).
Hypothesis check_keeps : forall c s, I s ->
  wp (new_status (E:=Errors E) self c) (fun r s' =>
    match r with
    | Ok _ => I s'
    | Err _ => False
    | Panic _ | Diverged => X s'
    end) s.

Lemma wp_try_func c errors s :
  I s -> failures_ok errors ->
  wp (try_func offline_on_failure func c errors) (loop_post failures_ok) s.
Proof using call_keeps status_keeps.
  intros HI He. apply wp_bind, wp_caught.
  eapply wp_mono; [|by apply call_keeps]. intros [v|e|msg|] s'; cbn [bind_post]; [done| |done..].
  intros [HI' HF]. apply wp_bind.
  assert (failures_ok (errors ++ [failed c (RequestFailed e)])) as Hn.
  { apply Forall_app. split; [done|]. by apply Forall_singleton. }
  unfold mark_failed. destruct offline_on_failure.
  - apply wp_modify. cbn [bind_post]. split; [by apply status_keeps|done].
  - by split.
Qed.

Lemma wp_first_pass cs errors to_retry unsynced s :
  I s -> failures_ok errors ->
  wp (first_pass require_synced offline_on_failure func cs (errors, to_retry, unsynced))
    (loop_post (fun acc => failures_ok acc.1.1)) s.
Proof using call_keeps status_keeps.
  revert errors to_retry unsynced s. induction cs as [|c cs IH]; intros errors to_retry unsynced s HI He.
  { by split. }
  assert (forall e, failures_ok (errors ++ [failed c (Unavailable e)])) as Hu.
  { intros e. apply Forall_app. split; [done|]. by apply Forall_singleton. }
  apply wp_bind, wp_gets. cbn [bind_post]. destruct (status_for _ _) as [e|u].
  - destruct e, require_synced; apply IH; auto.
  - apply wp_bind. eapply wp_mono; [|by apply (wp_try_func c errors)].
    intros [[errs|v]|e|msg|] s'; cbn [bind_post loop_post]; [|done..].
    intros [HI' He']. by apply IH.
Qed.

Lemma wp_second_pass cs errors s :
  I s -> failures_ok errors ->
  wp (second_pass offline_on_failure func cs errors) (loop_post failures_ok) s.
Proof using call_keeps status_keeps.
  revert errors s. induction cs as [|c cs IH]; intros errors s HI He; [by split|].
  apply wp_bind. eapply wp_mono; [|by apply (wp_try_func c errors)].
  intros [[errs|v]|e|msg|] s'; cbn [bind_post loop_post]; [|done..].
  intros [HI' He']. by apply IH.
Qed.

Lemma wp_retry c errors s :
  I s -> failures_ok errors ->
  wp (retry require_synced offline_on_failure func self c errors) (loop_post failures_ok) s.
Proof using call_keeps status_keeps check_keeps.
  intros HI He. apply wp_bind.
  assert (forall st s', I s' ->
    wp (try_renewed require_synced offline_on_failure func c errors st)
      (loop_post failures_ok) s') as Hst.
  { intros st s' HI'. unfold try_renewed. destruct st as [e|u]; [|by apply wp_try_func].
    assert (failures_ok (errors ++ [failed c (Unavailable e)])) as Hu.
    { apply Forall_app. split; [done|]. by apply Forall_singleton. }
    destruct e, require_synced; try (by split); by apply wp_try_func. }
  apply wp_bind, wp_gets. cbn [bind_post].
  destruct (status_for _ _) as [e|u]; [|by apply Hst].
  apply wp_bind. eapply wp_mono; [|by apply check_keeps].
  intros [st|e'|msg|] s'; cbn [bind_post]; [|done..]. intros HI'.
  apply wp_bind, wp_modify. cbn [bind_post]. apply wp_ret. cbn [bind_post].
  apply Hst. by apply status_keeps.
Qed.

Lemma wp_third_pass cs errors s :
  I s -> failures_ok errors ->
  wp (third_pass require_synced offline_on_failure func self cs errors) (loop_post failures_ok) s.
Proof using call_keeps status_keeps check_keeps.
  revert errors s. induction cs as [|c cs IH]; intros errors s HI He; [by split|].
  apply wp_bind. eapply wp_mono; [|by apply (wp_retry c errors)].
  intros [[errs|v]|e|msg|] s'; cbn [bind_post loop_post]; [|done..].
  intros [HI' He']. by apply IH.
Qed.

Lemma wp_first_success s :
  I s ->
  wp (first_success require_synced offline_on_failure func self) (fun r s' =>
    match r with
    | Ok val => Q val s'
    | Err errors => I s' /\ failures_ok errors
    | Panic _ | Diverged => X s'
    end) s.
Proof using call_keeps status_keeps check_keeps.
  intros HI. apply wp_bind. eapply wp_mono; [|apply wp_first_pass; [done|by apply Forall_nil]].
  intros [[[[errs tr] un]|v]|e|msg|] s1; cbn [bind_post loop_post]; [|done..].
  intros [HI1 He1]. cbn in He1. apply wp_bind.
  assert (wp (match require_synced with
              | RequireSynced.No => second_pass offline_on_failure func un errs
              | RequireSynced.Yes => mret (inl errs)
              end) (loop_post failures_ok) s1) as H2.
  { destruct require_synced; [by split|by apply wp_second_pass]. }
  eapply wp_mono; [|exact H2].
  intros [[errs2|v]|e|msg|] s2; cbn [bind_post loop_post]; [|done..].
  intros [HI2 He2]. apply wp_bind. eapply wp_mono; [|by apply wp_third_pass].
  intros [[errs3|v]|e|msg|] s3; cbn [bind_post loop_post]; [|done..]. done.
Qed.
End rule.

(** ** What every request of a service keeps *)

Section kept.
Context {W : Type} `{BeaconNodeHttpClient W} (I : nodes W -> Prop).
Hypothesis version_keeps : forall c s, I s -> I (snd (get_node_version c s)).
Hypothesis spec_keeps : forall c s, I s -> I (snd (get_config_spec c s)).
Hypothesis syncing_keeps : forall c s, I s -> I (snd (get_node_syncing c s)).

Lemma wp_caught_kept {E E' A} (m : prog (nodes W) E A) s :
  I (snd (m s)) -> wp (caught (E':=E') m) (fun r s' => (forall e, r <> Err e) /\ I s') s.
Proof using.
  intros Hs. apply wp_caught. unfold wp. by destruct (m s) as [[] ?].
Qed.

(** The checks of a node do not fail. *)
Lemma new_status_kept {E} self c s :
  I s -> wp (new_status (E:=E) self c) (fun r s' => (forall e, r <> Err e) /\ I s') s.
Proof using version_keeps spec_keeps syncing_keeps.
  intros Hs. apply wp_bind, wp_bind.
  eapply wp_mono; [|apply wp_caught_kept, version_keeps, Hs].
  intros [r|e|msg|] s1; cbn [bind_post]; intros [Hr Hs1]; [|by destruct (Hr e)|by split..].
  apply wp_ret. cbn [bind_post]. destruct r as [e|u]; [by split|].
  apply wp_bind, wp_bind.
  eapply wp_mono; [|apply wp_caught_kept, spec_keeps, Hs1].
  intros [r|e|msg|] s2; cbn [bind_post]; intros [Hr2 Hs2]; [|by destruct (Hr2 e)|by split..].
  apply wp_ret. cbn [bind_post].
  destruct (match r with inl _ => _ | inr _ => _ end) as [e|u']; [by split|].
  unfold is_synced. destruct (slot_clock self); [|by split].
  apply wp_bind.
  eapply wp_mono; [|apply wp_caught_kept, syncing_keeps, Hs2].
  intros [r'|e|msg|] s3; cbn [bind_post]; intros [Hr3 Hs3]; [by split|by destruct (Hr3 e)|by split..].
Qed.

Hypothesis status_keeps : forall c st s, I s -> I (set_status c st s).

Lemma first_success_kept {E O} require_synced offline_on_failure
  (func : Client -> prog (nodes W) E O) self s :
  (forall c s, I s -> I (snd (func c s))) -> I s ->
  I (snd (first_success require_synced offline_on_failure func self s)).
Proof using version_keeps spec_keeps syncing_keeps status_keeps.
  intros Hf Hs.
  change (wp (first_success require_synced offline_on_failure func self) (fun _ s' => I s') s).
  eapply wp_mono; [|apply (wp_first_success require_synced offline_on_failure func self I
    (fun _ => I) (fun _ => True) I)]; [| |done| |done].
  - intros [a|e|msg|] s'; [done|by intros []|done..].
  - intros c s' Hs'. unfold wp. pose proof (Hf c s' Hs'). by destruct (func c s') as [[] ?].
  - intros c s' Hs'. eapply wp_mono; [|by apply new_status_kept].
    intros [st|e|msg|] s'' [Hr Hi]; [done|by destruct (Hr e)|done..].
Qed.
End kept.

(** ** Requests that fail everywhere

    A request that fails on every ready candidate, with the statuses otherwise left
    alone, marks all of them as offline. *)

Section all_fail.
Context {W : Type} `{BeaconNodeHttpClient W} {E O : Type}.
Context (require_synced : RequireSynced.t) (func : Client -> prog (nodes W) E O).
Context (self : BeaconNodeFallback) (I : nodes W -> Prop) (F : E -> Prop).

Hypothesis call_fails : forall c s, I s -> exists e s',
  func c s = (Err e, s') /\ I s' /\ F e /\ statuses s' = statuses s.
Hypothesis status_keeps : forall c st s, I s -> I (set_status c st s).

Lemma first_pass_fails cs errors s :
  I s -> NoDup (map position cs) ->
  (forall c, c ∈ cs -> statuses s (position c) = inr ()) ->
  exists errors' s',
    first_pass require_synced OfflineOnFailure.Yes func cs (errors, [], []) s =
    (Ok (inl (errors ++ errors', [], [])), s') /\ I s' /\
    Forall (fun x => exists e, x.2 = RequestFailed e /\ F e) errors' /\
    forall p, statuses s' p =
      if bool_decide (p ∈ map position cs) then inl Offline else statuses s p.
Proof using call_fails status_keeps.
  revert errors s. induction cs as [|c cs IH]; intros errors s HI Hnd Hst.
  { exists [], s. rewrite app_nil_r. split; [done|]. split; [done|]. split; [by apply Forall_nil|].
    intros p. by rewrite bool_decide_eq_false_2 by apply not_elem_of_nil. }
  simpl in Hnd. apply NoDup_cons in Hnd as [Hc Hnd].
  destruct (call_fails (beacon_node c) s HI) as (e & s1 & Hf & HI1 & He & Hs1).
  destruct (IH (errors ++ [failed c (RequestFailed e)]) (set_status c (inl Offline) s1))
    as (errors' & s' & Hrun & HI' & Herr & Hs').
  { by apply status_keeps. }
  { done. }
  { intros c' Hc'. simpl. rewrite Hs1, fn_lookup_insert_ne.
    - apply Hst. by apply list_elem_of_further.
    - intros Heq. apply Hc. rewrite Heq. by apply list_elem_of_fmap_2. }
  exists (failed c (RequestFailed e) :: errors'), s'. split; [|split; [done|split]].
  - cbn [first_pass]. unfold mbind at 1, prog_bind at 1, status, gets.
    rewrite (Hst c) by apply list_elem_of_here. cbn [status_for].
    unfold mbind, prog_bind, try_func, mbind, prog_bind, caught. rewrite Hf.
    cbn [mark_failed set_offline modify mret prog_ret]. rewrite Hrun. by rewrite <- app_assoc.
  - apply Forall_cons. split; [by exists e|done].
  - intros p. rewrite Hs'. simpl. rewrite Hs1. case_bool_decide as Hp.
    { by rewrite bool_decide_eq_true_2 by (by apply list_elem_of_further). }
    destruct (decide (p = position c)) as [->|Hne].
    + rewrite fn_lookup_insert. by rewrite bool_decide_eq_true_2 by apply list_elem_of_here.
    + rewrite fn_lookup_insert_ne by done. rewrite bool_decide_eq_false_2; [done|].
      by intros [?|?]%elem_of_cons.
Qed.

Lemma candidates_NoDup : NoDup (map position (candidates self)).
Proof using.
  apply NoDup_alt. intros i j p. unfold candidates. rewrite !list_lookup_fmap, !list_lookup_imap.
  destruct (clients self !! i), (clients self !! j); naive_solver.
Qed.

Lemma first_success_fails s :
  I s -> (forall c, c ∈ candidates self -> statuses s (position c) = inr ()) ->
  exists errors s',
    first_success require_synced OfflineOnFailure.Yes func self s = (Err errors, s') /\ I s' /\
    Forall (fun x => exists e, x.2 = RequestFailed e /\ F e) errors /\
    forall c, c ∈ candidates self -> statuses s' (position c) = inl Offline.
Proof using call_fails status_keeps.
  intros HI Hst.
  destruct (first_pass_fails (candidates self) [] s HI candidates_NoDup Hst)
    as (errors & s' & Hrun & HI' & He & Hs').
  exists errors, s'. split; [|split; [done|split; [done|]]].
  - unfold first_success. erewrite run_bind; [|exact Hrun]. by destruct require_synced.
  - intros c Hc. rewrite Hs'. by rewrite bool_decide_eq_true_2 by (by apply list_elem_of_fmap_2).
Qed.
End all_fail.

(** ** The contacts of a request

    What a request does to the candidates, one contact after the other, whatever the
    nodes answer and whatever changes the statuses in the meantime. *)

Section contacts.
Context {W : Type} `{BeaconNodeHttpClient W} {E O : Type}.
Context (require_synced : RequireSynced.t) (offline_on_failure : OfflineOnFailure.t).
Context (func : Client -> prog (nodes W) E O) (self : BeaconNodeFallback).

(** A candidate is put off for its status, found to be ready, checked or called. *)
Inductive contact : Type :=
| Skip (c : CandidateBeaconNode) (e : CandidateError)
| Ready (synced : RequireSynced.t) (c : CandidateBeaconNode)
| Probe (c : CandidateBeaconNode) (st : Status)
| Call (c : CandidateBeaconNode) (r : E + O).

(** A failed call marks its candidate if the caller asks for it; a check sets its status. *)
Definition happens (x : contact) (s s' : nodes W) : Prop :=
  match x with
  | Skip c e => statuses s (position c) = inl e /\ s' = s
  | Ready synced c => status_for synced (statuses s (position c)) = inr () /\ s' = s
  | Probe c st =>
      status_for require_synced (statuses s (position c)) <> inr () /\
      exists s1, new_status (E:=Errors E) self c s = (Ok st, s1) /\ s' = set_status c st s1
  | Call c (inr val) => func (beacon_node c) s = (Ok val, s')
  | Call c (inl e) =>
      exists s1, func (beacon_node c) s = (Err e, s1) /\
      s' = match offline_on_failure with
           | OfflineOnFailure.Yes => set_status c (inl Offline) s1
           | OfflineOnFailure.No => s1
           end
  end.

Fixpoint happen (l : list contact) (s s' : nodes W) : Prop :=
  match l with
  | [] => s' = s
  | x :: l => exists s1, happens x s s1 /\ happen l s1 s'
  end.

Definition usable (st : Status) : bool := is_ok (status_for require_synced st).

Definition answer_of (r : E + O) : option O :=
  match r with inr val => Some val | inl _ => None end.

Definition called (x : contact) : option CandidateBeaconNode :=
  match x with Call c _ => Some c | _ => None end.

Definition error_of (x : contact) : Errors E :=
  match x with
  | Skip c e => [failed c (Unavailable e)]
  | Probe c (inl e) => if usable (inl e) then [] else [failed c (Unavailable e)]
  | Call c (inl e) => [failed c (RequestFailed e)]
  | _ => []
  end.

(** The candidates of the second and of the third pass. *)
Definition waits (x : contact) : option CandidateBeaconNode :=
  match x, require_synced with Skip c NotSynced, RequireSynced.No => Some c | _, _ => None end.

Definition retried (x : contact) : option CandidateBeaconNode :=
  match x, require_synced with
  | Skip c NotSynced, RequireSynced.No => None
  | Skip c _, _ => Some c
  | _, _ => None
  end.

(** A candidate's turn in a pass: the contacts, and the answer if one ends the request. *)
Inductive first_turn (c : CandidateBeaconNode) : list contact -> option O -> Prop :=
| put_off e : first_turn c [Skip c e] None
| synced_called r : first_turn c [Ready RequireSynced.Yes c; Call c r] (answer_of r).

Inductive second_turn (c : CandidateBeaconNode) : list contact -> option O -> Prop :=
| unsynced_called r : second_turn c [Call c r] (answer_of r).

Inductive third_turn (c : CandidateBeaconNode) : list contact -> option O -> Prop :=
| now_ready r : third_turn c [Ready require_synced c; Call c r] (answer_of r)
| found_usable st r :
    usable st = true -> third_turn c [Probe c st; Call c r] (answer_of r)
| found_unusable st : usable st = false -> third_turn c [Probe c st] None.

(** The candidates have their turns in order, up to the first answer. *)
Inductive pass (turn : CandidateBeaconNode -> list contact -> option O -> Prop)
  : list CandidateBeaconNode -> list contact -> option O -> Prop :=
| pass_end : pass turn [] [] None
| pass_answer c cs l val : turn c l (Some val) -> pass turn (c :: cs) l (Some val)
| pass_next c cs l l' o :
    turn c l None -> pass turn cs l' o -> pass turn (c :: cs) (l ++ l') o.

(** The whole request. *)
Inductive course : list contact -> option O -> Prop :=
| by_synced l val : pass first_turn (candidates self) l (Some val) -> course l (Some val)
| by_unsynced l l' val :
    pass first_turn (candidates self) l None ->
    pass second_turn (omap waits l) l' (Some val) -> course (l ++ l') (Some val)
| by_retried l l' l'' o :
    pass first_turn (candidates self) l None -> pass second_turn (omap waits l) l' None ->
    pass third_turn (omap retried l) l'' o -> course (l ++ l' ++ l'') o.

(** A call or a check that does not return: the message if it panics. *)
Definition broken {X A} (r : outcome X A) : option (option string) :=
  match r with Panic msg => Some (Some msg) | Diverged => Some None | _ => None end.

Definition breaks (s : nodes W) (k : option string) (s' : nodes W) : Prop :=
  exists c, c ∈ candidates self /\
    ((broken (fst (func (beacon_node c) s)) = Some k /\ s' = snd (func (beacon_node c) s)) \/
     (broken (fst (new_status (E:=Errors E) self c s)) = Some k /\
      s' = snd (new_status (E:=Errors E) self c s))).

(** A program that makes contacts, with a result that fits them. *)
Definition makes {A} (m : prog (nodes W) (Errors E) A)
  (P : list contact -> outcome (Errors E) A -> Prop) (s : nodes W) : Prop :=
  wp m (fun r s' =>
    match broken r with
    | None => exists l, happen l s s' /\ P l r
    | Some k => exists l s1, happen l s s1 /\ breaks s1 k s'
    end) s.

Lemma happen_app l l' s s1 s2 : happen l s s1 -> happen l' s1 s2 -> happen (l ++ l') s s2.
Proof using.
  revert s. induction l as [|x l IH]; intros s; simpl; [by intros ->|].
  intros (s0 & Hx & Hl) Hl'. exists s0. eauto.
Qed.

Lemma makes_ret {A} (a : A) P s : P [] (Ok a) -> makes (mret a) P s.
Proof using. intros HP. by exists []. Qed.

Lemma makes_mono {A} (m : prog (nodes W) (Errors E) A) (P Q : _ -> _ -> Prop) s :
  (forall l r, P l r -> Q l r) -> makes m P s -> makes m Q s.
Proof using.
  intros HPQ. unfold makes. apply wp_mono. intros r s'. destruct (broken r); [done|].
  intros (l & Hl & HP). exists l. auto.
Qed.

Lemma makes_bind {A B} (m : prog (nodes W) (Errors E) A) (k : A -> prog _ _ B) P Q s :
  makes m (fun l r => exists a, r = Ok a /\ P l a) s ->
  (forall l a s1, happen l s s1 -> P l a -> makes (k a) (fun l' r => Q (l ++ l') r) s1) ->
  makes (m ≫= k) Q s.
Proof using.
  intros Hm Hk. unfold makes in Hm. apply wp_bind. eapply wp_mono; [|exact Hm].
  intros [a|e|msg|] s1; cbn [broken bind_post]; [|by intros (l & _ & ? & ? & _)|done..].
  intros (l & Hl & ? & [= <-] & HP). specialize (Hk l a s1 Hl HP).
  unfold makes in Hk. eapply wp_mono; [|exact Hk].
  intros r s2. cbv beta. destruct (broken r).
  - intros (l' & s3 & Hl' & Hb). exists (l ++ l'), s3. split; [by eapply happen_app|done].
  - intros (l' & Hl' & HQ). exists (l ++ l'). split; [by eapply happen_app|done].
Qed.

(** What a turn or a pass gives: its answer, or the errors so far with its own. *)
Definition gives (errors : Errors E) (l : list contact) (o : option O) : Errors E + O :=
  match o with Some val => inr val | None => inl (errors ++ flat_map error_of l) end.

Lemma try_func_makes c errors s :
  c ∈ candidates self ->
  makes (try_func offline_on_failure func c errors)
    (fun l a => exists r, l = [Call c r] /\ a = Ok (gives errors l (answer_of r))) s.
Proof using.
  intros Hc. apply wp_bind, wp_caught. unfold wp.
  destruct (func (beacon_node c) s) as [[val|e|msg|] s1] eqn:Hf; cbn [fst snd bind_post].
  - exists [Call c (inr val)]. split; [by exists s1|by exists (inr val)].
  - apply wp_bind. unfold mark_failed.
    destruct offline_on_failure eqn:Hoff; exists [Call c (inl e)];
      (split; [|by exists (inl e)]); eexists; (split; [|reflexivity]); eexists;
      (split; [exact Hf|]); by rewrite Hoff.
  - exists [], s. split; [done|]. exists c. rewrite Hf. auto.
  - exists [], s. split; [done|]. exists c. rewrite Hf. auto.
Qed.

Lemma renewed_status_makes c s :
  c ∈ candidates self ->
  makes (renewed_status require_synced self c) (fun l a => exists st, a = Ok st /\
    ((l = [Ready require_synced c] /\ st = inr ()) \/ l = [Probe c st])) s.
Proof using.
  intros Hc. unfold renewed_status, status. apply wp_bind. unfold gets. cbn.
  destruct (status_for require_synced (statuses s (position c))) as [e|[]] eqn:Hst.
  - apply wp_bind.
    pose proof (new_status_kept (E:=Errors E) (fun _ => True) (fun _ _ _ => I) (fun _ _ _ => I)
      (fun _ _ _ => I) self c s I) as Hn.
    unfold wp in Hn |- *. destruct (new_status self c s) as [[st|e'|msg|] s1] eqn:Hs; simpl in *.
    + exists [Probe c st]. split; [|by eauto].
      eexists. split; [|done]. split; [by rewrite Hst|]. by exists s1.
    + by destruct Hn as [Hn _]; destruct (Hn e').
    + exists [], s. split; [done|]. exists c. rewrite Hs. auto.
    + exists [], s. split; [done|]. exists c. rewrite Hs. auto.
  - exists [Ready require_synced c]. split; [by exists s|]. eauto.
Qed.

Lemma retry_makes c errors s :
  c ∈ candidates self ->
  makes (retry require_synced offline_on_failure func self c errors)
    (fun l a => exists o, third_turn c l o /\ a = Ok (gives errors l o)) s.
Proof using.
  intros Hc. eapply makes_bind.
  { eapply makes_mono; [|by apply renewed_status_makes].
    intros l r (st & -> & Hl). exists st. split; [done|exact Hl]. }
  intros l st s1 _ Hl. unfold try_renewed.
  assert (makes (if usable st then try_func offline_on_failure func c errors
                 else mret (inl (errors ++ error_of (Probe c st))))
    (fun l' a => exists o, third_turn c (l ++ l') o /\ a = Ok (gives errors (l ++ l') o)) s1) as Hm.
  { destruct (usable st) eqn:Hu.
    - eapply makes_mono; [|by apply try_func_makes]. intros l' a (r & -> & ->).
      exists (answer_of r).
      destruct Hl as [[-> ->]| ->]; (split; [by constructor|]); [done|].
      unfold gives. simpl. destruct st; [by rewrite Hu|done].
    - apply makes_ret. exists None. destruct Hl as [[-> ->]| ->]; [done|].
      split; [by constructor|]. unfold gives. simpl. by rewrite app_nil_r. }
  revert Hm. unfold usable, error_of, usable. by destruct st as [[]|[]], require_synced.
Qed.

Lemma pass_makes turn (body : CandidateBeaconNode -> Errors E -> prog _ _ (Errors E + O))
  (loop : list CandidateBeaconNode -> Errors E -> prog (nodes W) (Errors E) (Errors E + O)) :
  (forall errors, loop [] errors = mret (inl errors)) ->
  (forall c cs errors, loop (c :: cs) errors =
    r ← body c errors;
    match r with inr val => mret (inr val) | inl errors => loop cs errors end) ->
  (forall c errors s, c ∈ candidates self ->
    makes (body c errors) (fun l a => exists o, turn c l o /\ a = Ok (gives errors l o)) s) ->
  forall cs errors s, (forall c, c ∈ cs -> c ∈ candidates self) ->
  makes (loop cs errors) (fun l a => exists o, pass turn cs l o /\ a = Ok (gives errors l o)) s.
Proof using.
  intros Hnil Hcons Hbody cs. induction cs as [|c cs IH]; intros errors s Hcs.
  { rewrite Hnil. apply makes_ret. exists None. split; [constructor|].
    unfold gives. simpl. by rewrite app_nil_r. }
  rewrite Hcons.
  apply (makes_bind _ _ (fun l a => exists o, turn c l o /\ a = gives errors l o)).
  { eapply makes_mono; [|apply Hbody, Hcs, list_elem_of_here]. naive_solver. }
  intros l a s1 _ (o & Ht & ->). destruct o as [val|]; cbn [gives].
  - apply makes_ret. exists (Some val). rewrite app_nil_r. by split; [constructor|].
  - eapply makes_mono; [|apply IH; intros c' Hc'; apply Hcs, list_elem_of_further, Hc'].
    intros l' r (o & Hp & ->). exists o. split; [by constructor|].
    unfold gives. by rewrite flat_map_app, app_assoc.
Qed.

Lemma second_pass_makes cs errors s :
  (forall c, c ∈ cs -> c ∈ candidates self) ->
  makes (second_pass offline_on_failure func cs errors)
    (fun l a => exists o, pass second_turn cs l o /\ a = Ok (gives errors l o)) s.
Proof using.
  apply (pass_makes _ (try_func offline_on_failure func)); [done..|].
  intros c errors' s' Hc. eapply makes_mono; [|by apply try_func_makes].
  intros l a (r & -> & ->). exists (answer_of r). by split; [constructor|].
Qed.

Lemma third_pass_makes cs errors s :
  (forall c, c ∈ cs -> c ∈ candidates self) ->
  makes (third_pass require_synced offline_on_failure func self cs errors)
    (fun l a => exists o, pass third_turn cs l o /\ a = Ok (gives errors l o)) s.
Proof using.
  apply (pass_makes _ (retry require_synced offline_on_failure func self)); [done..|].
  apply retry_makes.
Qed.

(** The first pass also sorts out the candidates of the other two. *)
Definition sorts (acc : sorted_out) (l : list contact) (o : option O) : sorted_out + O :=
  let '(errors, to_retry, retry_unsynced) := acc in
  match o with
  | Some val => inr val
  | None => inl (errors ++ flat_map error_of l, to_retry ++ omap retried l,
                 retry_unsynced ++ omap waits l)
  end.

Lemma makes_gets {A B} (f : nodes W -> A) (k : A -> prog (nodes W) (Errors E) B) P s :
  makes (k (f s)) P s -> makes (gets f ≫= k) P s.
Proof using. done. Qed.

(** A contact that only reads a status. *)
Lemma makes_read {A} x (m : prog (nodes W) (Errors E) A) P s :
  happens x s s -> makes m (fun l r => P (x :: l) r) s -> makes m P s.
Proof using.
  intros Hx Hm. unfold makes in *. eapply wp_mono; [|exact Hm].
  intros r s'. cbv beta. destruct (broken r).
  - intros (l & s1 & Hl & Hb). exists (x :: l), s1. split; [by exists s|done].
  - intros (l & Hl & HP). exists (x :: l). split; [by exists s|done].
Qed.

Lemma sorts_skip c e cs errors to_retry retry_unsynced l
  (r : outcome (Errors E) (sorted_out + O)) :
  (exists o, pass first_turn cs l o /\
     r = Ok (sorts (errors ++ [failed c (Unavailable e)],
                    to_retry ++ option_list (retried (Skip c e)),
                    retry_unsynced ++ option_list (waits (Skip c e))) l o)) ->
  exists o, pass first_turn (c :: cs) (Skip c e :: l) o /\
    r = Ok (sorts (errors, to_retry, retry_unsynced) (Skip c e :: l) o).
Proof using.
  intros (o & Hp & ->). exists o.
  split; [apply (pass_next _ c cs [Skip c e]); [constructor|done]|].
  destruct o; [done|]. unfold sorts. simpl. rewrite <- !app_assoc. do 3 f_equal.
  - f_equal. by destruct e, require_synced.
  - by destruct e, require_synced.
Qed.

Lemma first_pass_makes cs acc s :
  (forall c, c ∈ cs -> c ∈ candidates self) ->
  makes (first_pass require_synced offline_on_failure func cs acc)
    (fun l a => exists o, pass first_turn cs l o /\ a = Ok (sorts acc l o)) s.
Proof using.
  revert acc s. induction cs as [|c cs IH]; intros [[errors to_retry] retry_unsynced] s Hcs.
  { apply makes_ret. exists None. split; [constructor|]. simpl. by rewrite !app_nil_r. }
  assert (forall c, c ∈ cs -> c ∈ candidates self) as Hcs'
    by (intros c' Hc'; apply Hcs, list_elem_of_further, Hc').
  cbn [first_pass]. apply makes_gets.
  destruct (statuses s (position c)) as [e|[]] eqn:Hst.
  - apply (makes_read (Skip c e)); [done|].
    eapply makes_mono; [intros l r; apply sorts_skip|].
    destruct e, require_synced eqn:Hr; cbn [status_for retried waits option_list];
      rewrite ?Hr; cbn [option_list]; rewrite ?app_nil_r; by apply IH.
  - cbn [status_for]. apply (makes_read (Ready RequireSynced.Yes c)); [by simpl; rewrite Hst|].
    apply (makes_bind _ _ (fun l a => exists r, l = [Call c r] /\
      a = gives errors l (answer_of r))).
    { eapply makes_mono; [|apply try_func_makes, Hcs, list_elem_of_here]. naive_solver. }
    intros l a s1 _ (r & -> & ->). pose proof (synced_called c r) as Hturn.
    destruct r as [e|val]; cbn [gives answer_of] in *.
    + eapply makes_mono; [|by apply IH]. intros l r (o & Hp & ->). exists o.
      split; [by apply (pass_next _ c cs [_; _])|].
      destruct o; [done|]. simpl. by rewrite <- app_assoc.
    + apply makes_ret. exists (Some val). by split; [constructor|].
Qed.

(** A turn of the first pass calls its candidate or leaves it to one of the other passes. *)
Lemma first_turn_sorts c l o :
  first_turn c l o ->
  omap called l ++ omap waits l ++ omap retried l = [c].
Proof using. intros []; simpl; [by destruct e, require_synced|done]. Qed.

Lemma first_pass_sorts cs l o :
  pass first_turn cs l o -> omap called l ++ omap waits l ++ omap retried l ⊆+ cs.
Proof using.
  induction 1 as [|c cs l val Ht%first_turn_sorts|c cs l l' o Ht%first_turn_sorts Hp IH]; [done| |].
  - rewrite Ht. apply submseteq_skip, submseteq_nil_l.
  - rewrite !omap_app. change (c :: cs) with ([c] ++ cs). rewrite <- Ht.
    etransitivity; [|by apply submseteq_skips_l]. apply Permutation_submseteq. solve_Permutation.
Qed.

Lemma pass_calls turn cs l o :
  (forall c l o, turn c l o -> omap called l ⊆+ [c]) ->
  pass turn cs l o -> omap called l ⊆+ cs.
Proof using.
  intros Hturn. induction 1 as [|c cs l val Ht%Hturn|c cs l l' o Ht%Hturn Hp IH]; [done| |].
  - etransitivity; [exact Ht|]. apply submseteq_skip, submseteq_nil_l.
  - rewrite omap_app. by apply (submseteq_app _ [c]).
Qed.

Lemma second_turn_calls c l o : second_turn c l o -> omap called l ⊆+ [c].
Proof using. by intros []. Qed.

Lemma third_turn_calls c l o : third_turn c l o -> omap called l ⊆+ [c].
Proof using. intros []; simpl; [done..|apply submseteq_nil_l]. Qed.

Lemma request_calls_once l o : course l o -> omap called l ⊆+ candidates self.
Proof using.
  intros [? val H1%first_pass_sorts|? l' val H1%first_pass_sorts H2|? l' l'' ? H1%first_pass_sorts H2 H3].
  - etransitivity; [|exact H1]. apply submseteq_inserts_r. done.
  - apply (pass_calls _ _ _ _ second_turn_calls) in H2.
    rewrite omap_app. etransitivity; [|exact H1].
    apply submseteq_app; [done|]. by apply submseteq_inserts_r.
  - apply (pass_calls _ _ _ _ second_turn_calls) in H2.
    apply (pass_calls _ _ _ _ third_turn_calls) in H3.
    rewrite !omap_app. etransitivity; [|exact H1]. by repeat apply submseteq_app.
Qed.

(** What is left of a candidate without an answer. *)
Definition gone_through (l : list contact) (c : CandidateBeaconNode) : Prop :=
  (exists e, Call c (inl e) ∈ l) \/ (exists st, usable st = false /\ Probe c st ∈ l).

Lemma pass_None turn (P : list contact -> CandidateBeaconNode -> Prop) cs l :
  (forall c l, turn c l None -> P l c) ->
  (forall c l l', P l c -> P (l ++ l') c) -> (forall c l l', P l' c -> P (l ++ l') c) ->
  pass turn cs l None -> forall c, c ∈ cs -> P l c.
Proof using.
  intros Hturn Hl Hr. remember None as o eqn:Ho. induction 1 as [|?|c cs l l' o Ht Hp IH];
    intros c' Hc'; [by apply not_elem_of_nil in Hc'|done|].
  subst o. apply elem_of_cons in Hc' as [->|Hc']; auto.
Qed.

Lemma gone_through_l c l l' : gone_through l c -> gone_through (l ++ l') c.
Proof using. unfold gone_through. setoid_rewrite elem_of_app. naive_solver. Qed.

Lemma gone_through_r c l l' : gone_through l' c -> gone_through (l ++ l') c.
Proof using. unfold gone_through. setoid_rewrite elem_of_app. naive_solver. Qed.

Lemma first_pass_None cs l :
  pass first_turn cs l None -> forall c, c ∈ cs ->
  gone_through l c \/ c ∈ omap waits l \/ c ∈ omap retried l.
Proof using.
  apply (pass_None _ (fun l c => gone_through l c \/ c ∈ omap waits l \/ c ∈ omap retried l)).
  - intros c l' Ht. pose proof (first_turn_sorts _ _ _ Ht) as Hc.
    inversion Ht as [e Hl|r Hl Hr]; subst l'.
    + right. apply elem_of_app. simpl omap at 1 in Hc. rewrite app_nil_l in Hc.
      rewrite Hc. apply list_elem_of_here.
    + left. left. destruct r as [e|]; [|done]. exists e. apply list_elem_of_further, list_elem_of_here.
  - intros c l1 l2. rewrite !omap_app, !elem_of_app. pose proof (gone_through_l c l1 l2). tauto.
  - intros c l1 l2. rewrite !omap_app, !elem_of_app. pose proof (gone_through_r c l1 l2). tauto.
Qed.

Lemma second_pass_None cs l :
  pass second_turn cs l None -> forall c, c ∈ cs -> gone_through l c.
Proof using.
  apply pass_None; [|apply gone_through_l|apply gone_through_r].
  intros c l' Ht. inversion Ht as [r Hl Hr]. destruct r as [e|]; [|done].
  left. exists e. apply list_elem_of_here.
Qed.

Lemma third_pass_None cs l :
  pass third_turn cs l None -> forall c, c ∈ cs -> gone_through l c.
Proof using.
  apply pass_None; [|apply gone_through_l|apply gone_through_r].
  intros c l' Ht. inversion Ht as [r Hl Hr|st r Hu Hl Hr|st Hu Hl].
  - destruct r as [e|]; [|done]. left. exists e. apply list_elem_of_further, list_elem_of_here.
  - destruct r as [e|]; [|done]. left. exists e. apply list_elem_of_further, list_elem_of_here.
  - right. exists st. split; [done|]. apply list_elem_of_here.
Qed.

Lemma request_complete l : course l None -> forall c, c ∈ candidates self -> gone_through l c.
Proof using.
  intros Hreq c Hc. inversion Hreq as [| |l1 l2 l3 o H1 H2 H3]; subst.
  destruct (first_pass_None _ _ H1 c Hc) as [Hg|[Hw|Hr]].
  - by apply gone_through_l.
  - apply gone_through_r, gone_through_l. by apply (second_pass_None _ _ H2).
  - do 2 apply gone_through_r. by apply (third_pass_None _ _ H3).
Qed.

Lemma first_success_makes s :
  makes (first_success require_synced offline_on_failure func self)
    (fun l r => exists o, course l o /\
       r = match o with Some val => Ok val | None => Err (flat_map error_of l) end) s.
Proof using.
  apply (makes_bind _ _ (fun l a => exists o,
    pass first_turn (candidates self) l o /\ a = sorts ([], [], []) l o)).
  { eapply makes_mono; [|by apply first_pass_makes]. naive_solver. }
  intros l a s1 _ (o & H1 & ->). destruct o as [val|]; cbn [sorts].
  { apply makes_ret. exists (Some val). rewrite app_nil_r. by split; [constructor|]. }
  rewrite !app_nil_l. pose proof (first_pass_sorts _ _ _ H1) as Hsub.
  assert (forall c, c ∈ omap waits l \/ c ∈ omap retried l -> c ∈ candidates self) as Hcs.
  { intros c Hc. eapply elem_of_submseteq; [|exact Hsub]. rewrite !elem_of_app. tauto. }
  apply (makes_bind _ _ (fun l' a => exists o,
    pass second_turn (omap waits l) l' o /\ a = gives (flat_map error_of l) l' o)).
  { destruct require_synced eqn:Hrs.
    - apply makes_ret. eexists. split; [done|]. exists None.
      assert (omap waits l = []) as ->; [|split; [constructor|simpl; by rewrite app_nil_r]].
      clear -Hrs. induction l as [|[]  l IH]; simpl; rewrite ?Hrs; [done| |done..]. by destruct e.
    - eapply makes_mono; [|apply second_pass_makes; auto]. naive_solver. }
  intros l' a s2 _ (o & H2 & ->). destruct o as [val|]; cbn [gives].
  { apply makes_ret. exists (Some val). rewrite app_nil_r. split; [by apply by_unsynced|done]. }
  apply (makes_bind _ _ (fun l'' a => exists o, pass third_turn (omap retried l) l'' o /\
    a = gives (flat_map error_of l ++ flat_map error_of l') l'' o)).
  { eapply makes_mono; [|apply third_pass_makes; auto]. naive_solver. }
  intros l'' a s3 _ (o & H3 & ->). pose proof (by_retried _ _ _ _ H1 H2 H3) as Hreq.
  destruct o as [val|]; cbn [gives].
  - apply makes_ret. exists (Some val). by rewrite app_nil_r.
  - exists []. split; [done|]. exists None. rewrite app_nil_r. split; [done|].
    by rewrite !flat_map_app, app_assoc.
Qed.

(** C22: whatever the nodes answer, whatever they do to the statuses meanwhile, a request
    is a sequence of contacts: the candidates that are synced are called in their order,
    then, if this is allowed, those that were only not synced, then those of the others
    that are ready by now or that a new check finds usable.  It ends with the first
    answer, which is its result; without one its result is the errors of all contacts, in
    order, and every candidate was called in vain or found unusable by a check.  No
    candidate is called twice; a failed call marks its candidate as offline if the caller
    asks for it, and a check sets the status that it finds.  The request does not return
    only if a call or a check of a candidate does not. *)
Theorem first_success_answers s :
  let '(r, s') := first_success require_synced offline_on_failure func self s in
  match r with
  | Ok val => exists l, happen l s s' /\ course l (Some val)
  | Err errors => exists l, happen l s s' /\ course l None /\ errors = flat_map error_of l
  | Panic msg => exists l s1, happen l s s1 /\ breaks s1 (Some msg) s'
  | Diverged => exists l s1, happen l s s1 /\ breaks s1 None s'
  end /\
  forall l o, course l o ->
    omap called l ⊆+ candidates self /\
    (o = None -> forall c, c ∈ candidates self ->
       (exists e, Call c (inl e) ∈ l) \/ (exists st, usable st = false /\ Probe c st ∈ l)).
Proof using.
  pose proof (first_success_makes s) as Hm. unfold makes, wp in Hm.
  destruct (first_success require_synced offline_on_failure func self s) as [r s'].
  split; [|intros l o Hreq; split; [by eapply request_calls_once|]].
  - destruct r as [val|errors|msg|]; cbn [fst snd broken] in Hm; [| |done..];
      destruct Hm as (l & Hl & o & Hreq & Ho); exists l; destruct o; simplify_eq; auto.
  - intros ->. by apply request_complete.
Qed.
End contacts.

(** ** Three nodes *)

Section witness.

(** The world is the log of the calls and checks. *)
#[local] Instance demo_clients : BeaconNodeHttpClient (list (bool * Z)) := {|
  Client := Z;
  HttpError := ();
  Config := Z;
  Clock := ();
  endpoint c := pretty c;
  from_config version := Some (mkChainSpec version None None);
  get_node_version c := fun s =>
    (Ok "v1", mkNodes (statuses s) (outside s ++ [(false, c)]));
  get_config_spec c := mret 1;
  get_node_syncing c := mret (mkSyncingData false 100 0)
|}.

Definition demo_fallback : BeaconNodeFallback :=
  mkFallback [10; 11; 12] (Some ()) true (mkChainSpec 1 None None).

Definition demo_func (c : Client) : prog (nodes (list (bool * Z))) string Z := fun s =>
  (if (c : Z) =? 11 then Ok 7 else Err "no block", mkNodes (statuses s) (outside s ++ [(true, c)])).

(** The first node is not synced, the second is offline. *)
Definition demo_statuses (i : nat) : Status :=
  match i with 0%nat => inl NotSynced | 1%nat => inl Offline | _ => inr () end.

(** The synced node is called first, then the unsynced one; the offline one is checked
    and answers. *)
Lemma demo_calls_in_order :
  let '(r, s') := first_success RequireSynced.No OfflineOnFailure.Yes demo_func demo_fallback
                    (mkNodes demo_statuses []) in
  (r, outside s') = (Ok 7, [(true, 12); (true, 10); (false, 11); (true, 11)]).
Proof. reflexivity. Qed.
End witness.
