(* ===== verification/Services.v ===== *)
(** * The world of the validator client services

    What the services of the validator client share: the validator store, the duties
    that were downloaded, the beacon nodes with their requests, and the clock.  The
    tasks of the client run concurrently; while a task waits for a beacon node or for a
    signature the others go on, and what they do to the validator store is a sequence
    of requests to it.  A class states this of the environment, so that the theorems
    on a service hold in whatever way it is interleaved with the others. *)

From S2P Require Import Prelude Store Committee Messages Network Core Ideal Mempool.
From S2P Require Import Scalars Blst BlstIdeal Polynomial Threshold Operator DvfCore.
From S2P Require Import Doppelganger KeyCache KeyFiles InitializedValidators ValidatorStore.
From S2P Require Import BeaconNodes.

(** ** Types of the beacon chain *)

Inductive BlockType : Type := Full | Blinded.

#[global] Instance BlockType_eq_dec : EqDecision BlockType.
Proof. solve_decision. Defined.

Record AttesterData := mkAttesterData {
  duty_pubkey : PublicKeyBytes;
  validator_index : Z;
  committees_at_slot : Z;
  committee_index : Z;
  committee_length : Z;
  validator_committee_index : Z;
  duty_slot : Slot
}.

Record ProposerData := mkProposerData {
  proposer_pubkey : PublicKeyBytes;
  proposer_slot : Slot
}.

Record SyncDuty := mkSyncDuty {
  sync_pubkey : PublicKeyBytes;
  sync_index : Z;
  sync_committee_indices : list Z
}.

(** [ValidatorRegistrationKey]: the fee recipient, the gas limit and the public key. *)
Definition RegistrationKey : Type := Z * Z * PublicKeyBytes.

#[global] Instance RegistrationKey_eq_dec : EqDecision RegistrationKey.
Proof. unfold RegistrationKey. apply _. Defined.
#[global] Instance RegistrationKey_countable : Countable RegistrationKey.
Proof. unfold RegistrationKey. apply _. Defined.

Section types.
Context `{Blst}.

Record DutyAndProof := mkDutyAndProof {
  duty : AttesterData;
  selection_proof : option BlsSignature
}.

(** The duties of a member of a sync committee, with the epoch up to which its selection
    proofs were requested and the proofs by slot and subnet. *)
Record ValidatorDuties := mkValidatorDuties {
  sync_duty : SyncDuty;
  pre_compute_epoch : option Epoch;
  proofs : gmap (Slot * Z) BlsSignature
}.

(** A task that computes selection proofs: the duties with the epochs to start from, the
    period, and the first and the last epoch. *)
Record proof_job := mkProofJob {
  job_duties : list (Epoch * SyncDuty);
  job_period : Z;
  job_current : Epoch;
  job_last : Epoch
}.

(** The members by period and index, [None] for a validator that is not a member, the
    tasks that were spawned, and the latch of the subscriptions. *)
Record sync_state := mkSyncState {
  committees : gmap Z (gmap Z (option ValidatorDuties));
  jobs : list proof_job;
  first_subscription_done : bool
}.
End types.

(** The fields of blocks and attestation data that the services read, the messages that
    they sign, and the aggregators that a selection proof elects. *)
Class ServiceTypes `{Blst} `{BeaconTypes} := {
  proposer_index : BeaconBlockT -> Z;
  att_slot : AttestationT -> Slot;
  att_index : AttestationT -> Z;
  att_root : AttestationT -> Hash256;
  Aggregate : Type;
  aggregate_data : Aggregate -> AttestationT;
  randao_message : Epoch -> OtherT;
  selection_message : Slot -> OtherT;
  aggregate_and_proof : Z -> Aggregate -> BlsSignature -> OtherT;
  is_selected : BlsSignature -> Z -> option bool;
  Contribution : Type;
  contribution_slot : Contribution -> Slot;
  sync_message : Slot -> Hash256 -> OtherT;
  sync_selection_message : Slot -> Z -> OtherT;
  contribution_and_proof : Z -> Contribution -> BlsSignature -> OtherT;
  registration_message : RegistrationKey -> Z -> OtherT;
  is_sync_aggregator : BlsSignature -> option bool;
  subnet_ids : SyncDuty -> option (list Z);
  sync_committee_period : Epoch -> option Z;
  epochs_per_sync_committee_period : Z;
  slots_per_epoch : Z;
  slot_iter : Epoch -> list Slot;
  bitlist_fits : Z -> bool;
  add_signature : Z -> Z -> BlsSignature -> bool
}.

(** An attestation with one signature: the length of the committee, the position of the
    validator and the data. *)
Section attestation.
Context `{ServiceTypes}.

Record Attestation := mkAttestation {
  bits_length : Z;
  bits_position : Z;
  att_data : AttestationT;
  att_signature : BlsSignature
}.
End attestation.

(** ** The shared state *)

Section services.
Context `{Eth2Keystore} `{Bincode} `{!SigCodec} `{MempoolCodec} `{Rocksdb Digest bytes}.
Context `{EthSpec} `{SlashingDatabase} `{!ServiceTypes}.

Record services (N : Type) := mkServices {
  validator_store : ValidatorStore;
  attesters_map : gmap PublicKeyBytes (gmap Epoch (Hash256 * DutyAndProof));
  proposers_map : gmap Epoch (Hash256 * list ProposerData);
  sync_duties : sync_state;
  registration_cache : gmap RegistrationKey (Z * BlsSignature);
  net : N
}.
#[global] Arguments mkServices {N} validator_store attesters_map proposers_map sync_duties
  registration_cache net.
#[global] Arguments validator_store {N} s.
#[global] Arguments attesters_map {N} s.
#[global] Arguments proposers_map {N} s.
#[global] Arguments sync_duties {N} s.
#[global] Arguments registration_cache {N} s.
#[global] Arguments net {N} s.

Definition the_store {N} (s : nodes (services N)) : ValidatorStore := validator_store (outside s).

Definition set_store {N} (v : ValidatorStore) (s : nodes (services N)) : nodes (services N) :=
  mkNodes (statuses s)
    (mkServices v (attesters_map (outside s)) (proposers_map (outside s)) (sync_duties (outside s))
       (registration_cache (outside s)) (net (outside s))).

(** The requests of the services to a beacon node, the clock, what a signature meets, and
    the texts of errors. *)
Class BeaconApi (N : Type) `{!BeaconNodeHttpClient (services N)} := {
  get_validator_blocks : BlockType -> Client -> Slot -> BlsSignature -> option bytes ->
    prog (nodes (services N)) HttpError BeaconBlockT;
  post_beacon_blocks : BlockType -> Client -> BeaconBlockT -> BlsSignature ->
    prog (nodes (services N)) HttpError ();
  get_validator_attestation_data : Client -> Slot -> Z ->
    prog (nodes (services N)) HttpError AttestationT;
  post_beacon_pool_attestations : Client -> list Attestation ->
    prog (nodes (services N)) HttpError ();
  get_validator_aggregate_attestation : Client -> Slot -> Hash256 ->
    prog (nodes (services N)) HttpError (option Aggregate);
  post_validator_aggregate_and_proof : Client -> list (OtherT * BlsSignature) ->
    prog (nodes (services N)) HttpError ();
  get_beacon_states_validator_id : Client -> PublicKeyBytes ->
    prog (nodes (services N)) HttpError (option Z);
  post_validator_duties_attester : Client -> Epoch -> list Z ->
    prog (nodes (services N)) HttpError (Hash256 * list AttesterData);
  get_validator_duties_proposer : Client -> Epoch ->
    prog (nodes (services N)) HttpError (Hash256 * list ProposerData);
  post_subscriptions : Client -> list (AttesterData * bool) ->
    prog (nodes (services N)) HttpError ();
  post_validator_duties_sync : Client -> Epoch -> list Z ->
    prog (nodes (services N)) HttpError (list SyncDuty);
  get_beacon_blocks_root : Client -> prog (nodes (services N)) HttpError (option Hash256);
  post_sync_committee_signatures : Client -> list (Slot * Hash256 * Z * BlsSignature) ->
    prog (nodes (services N)) HttpError ();
  get_sync_committee_contribution : Client -> Slot -> Hash256 -> Z ->
    prog (nodes (services N)) HttpError (option Contribution);
  post_contribution_and_proofs : Client -> list (OtherT * BlsSignature) ->
    prog (nodes (services N)) HttpError ();
  post_sync_subscriptions : Client -> list (Z * list Z * Epoch) ->
    prog (nodes (services N)) HttpError ();
  post_validator_prepare_beacon_proposer : Client -> list (Z * Z) ->
    prog (nodes (services N)) HttpError ();
  post_validator_register_validator : Client -> list (RegistrationKey * (Z * BlsSignature)) ->
    prog (nodes (services N)) HttpError ();
  now : nodes (services N) -> option Slot;
  unix_time : nodes (services N) -> string + Z;
  duration_to_next_slot : nodes (services N) -> option Z;
  awaits_signature : nodes (services N) -> conditions * nodes (services N);
  sleeps : nodes (services N) -> nodes (services N);
  debug_http : HttpError -> string;
  debug_store : StoreErrorV -> string
}.

(** ** Requests to the validator store *)

Definition get_index (self : InitializedValidators) (pubkey : PublicKeyBytes) : option Z :=
  validators self !! pubkey ≫= iv_index.

Definition index_of (self : ValidatorStore) (pubkey : PublicKeyBytes) : option Z :=
  get_index (initialized_validators self) pubkey.

Definition graffiti_of (self : ValidatorStore) (pubkey : PublicKeyBytes) : option bytes :=
  validators (initialized_validators self) !! pubkey ≫= iv_graffiti.

Definition sign_with {N A} `{BeaconApi N} (request : ValidatorStore -> conditions -> signing A)
  : prog (nodes (services N)) StoreErrorV A := fun s =>
  let '(env, s) := awaits_signature s in
  let '(v, r, _) := request (the_store s) env in
  (r, set_store v s).

(** ** Interleaving *)

Definition after (self : ValidatorStore) (rs : list request) : ValidatorStore :=
  foldl (fun v r => fst (handle v r)) self rs.

(** [v'] is [v] after requests that satisfy [P]. *)
Definition reached (P : request -> Prop) (v v' : ValidatorStore) : Prop :=
  exists rs, Forall P rs /\ v' = after v rs.

(** While a task waits, the others make requests of their own to the store. *)
Class Interleaved (theirs : request -> Prop) (N : Type) `{BeaconApi N} : Prop := {
  version_waits c s :
    reached theirs (the_store s) (the_store (snd (get_node_version c s)));
  spec_waits c s :
    reached theirs (the_store s) (the_store (snd (get_config_spec c s)));
  syncing_waits c s :
    reached theirs (the_store s) (the_store (snd (get_node_syncing c s)));
  get_block_waits t c slot randao graffiti s :
    reached theirs (the_store s)
      (the_store (snd (get_validator_blocks t c slot randao graffiti s)));
  post_block_waits t c b sig s :
    reached theirs (the_store s) (the_store (snd (post_beacon_blocks t c b sig s)));
  get_attestation_waits c slot i s :
    reached theirs (the_store s) (the_store (snd (get_validator_attestation_data c slot i s)));
  post_attestations_waits c l s :
    reached theirs (the_store s) (the_store (snd (post_beacon_pool_attestations c l s)));
  get_aggregate_waits c slot root s :
    reached theirs (the_store s)
      (the_store (snd (get_validator_aggregate_attestation c slot root s)));
  post_aggregates_waits c l s :
    reached theirs (the_store s) (the_store (snd (post_validator_aggregate_and_proof c l s)));
  validator_id_waits c pubkey s :
    reached theirs (the_store s) (the_store (snd (get_beacon_states_validator_id c pubkey s)));
  attester_duties_waits c epoch l s :
    reached theirs (the_store s) (the_store (snd (post_validator_duties_attester c epoch l s)));
  proposer_duties_waits c epoch s :
    reached theirs (the_store s) (the_store (snd (get_validator_duties_proposer c epoch s)));
  subscriptions_wait c l s :
    reached theirs (the_store s) (the_store (snd (post_subscriptions c l s)));
  sync_duties_wait c epoch l s :
    reached theirs (the_store s) (the_store (snd (post_validator_duties_sync c epoch l s)));
  block_root_waits c s :
    reached theirs (the_store s) (the_store (snd (get_beacon_blocks_root c s)));
  post_signatures_waits c l s :
    reached theirs (the_store s) (the_store (snd (post_sync_committee_signatures c l s)));
  contribution_waits c slot root i s :
    reached theirs (the_store s)
      (the_store (snd (get_sync_committee_contribution c slot root i s)));
  post_contributions_waits c l s :
    reached theirs (the_store s) (the_store (snd (post_contribution_and_proofs c l s)));
  sync_subscriptions_wait c l s :
    reached theirs (the_store s) (the_store (snd (post_sync_subscriptions c l s)));
  prepare_waits c l s :
    reached theirs (the_store s) (the_store (snd (post_validator_prepare_beacon_proposer c l s)));
  register_waits c l s :
    reached theirs (the_store s) (the_store (snd (post_validator_register_validator c l s)));
  sleep_waits s : reached theirs (the_store s) (the_store (sleeps s));
  signature_waits s :
    reached theirs (the_store s) (the_store (snd (awaits_signature s)))
}.
End services.

(** ** Sequences of requests *)

Section requests.
Context `{Eth2Keystore} `{Bincode} `{!SigCodec} `{MempoolCodec} `{Rocksdb Digest bytes}.
Context `{EthSpec} `{SlashingDatabase} `{!ServiceTypes}.

Lemma after_app v rs rs' : after v (rs ++ rs') = after (after v rs) rs'.
Proof. apply foldl_app. Qed.

Lemma log_app v rs rs' : log v (rs ++ rs') = log v rs ++ log (after v rs) rs'.
Proof.
  revert v. induction rs as [|r rs IH]; intros v; [done|]. simpl.
  destruct (handle v r) as [v' l] eqn:Hh. simpl. by rewrite IH, app_assoc.
Qed.

Lemma reached_refl P v : reached P v v.
Proof. exists []. by split. Qed.

Lemma reached_trans P v1 v2 v3 : reached P v1 v2 -> reached P v2 v3 -> reached P v1 v3.
Proof.
  intros (rs & Hrs & ->) (rs' & Hrs' & ->). exists (rs ++ rs').
  by rewrite Forall_app, after_app.
Qed.

Lemma reached_mono (P P' : request -> Prop) v v' :
  (forall r, P r -> P' r) -> reached P v v' -> reached P' v v'.
Proof. intros HP (rs & Hrs & ->). exists rs. split; [|done]. by eapply Forall_impl. Qed.

(** A signature that is returned was logged. *)
Lemma get_signature_ok self pk method kind root e env item self' sig l :
  get_signature self pk method kind root e env item = (self', Ok sig, l) -> l = [(pk, item)].
Proof.
  unfold get_signature. destruct method as [[]|e'|msg|]; try done.
  - by destruct (executor_runs env); intros [= _ _ <-].
  - destruct (get_signature_from_root _ _ _ _ _ _ _). by intros [= _ _ <-].
Qed.

Lemma reached_step (P : request -> Prop) v r : P r -> reached P v (fst (handle v r)).
Proof. intros HP. exists [r]. split; [by apply Forall_singleton|done]. Qed.
End requests.

Section waits.
Context `{Eth2Keystore} `{Bincode} `{!SigCodec} `{MempoolCodec} `{Rocksdb Digest bytes}.
Context `{EthSpec} `{SlashingDatabase} `{!ServiceTypes}.
Context {N : Type} `{!BeaconNodeHttpClient (services N)} `{!BeaconApi N}.
Context (theirs : request -> Prop) `{!Interleaved theirs N}.

(** The request for a signature that a task makes comes after those of the others. *)
Lemma sign_with_requests {A} (f : ValidatorStore -> conditions -> signing A)
  (req : conditions -> request) s :
  (forall v env, handle v (req env) = signed_by (f v env)) ->
  exists rs env, Forall theirs rs /\
    the_store (snd (sign_with f s)) = after (the_store s) (rs ++ [req env]) /\
    fst (sign_with f s) = snd (fst (f (after (the_store s) rs) env)).
Proof.
  intros Hf. destruct (signature_waits s) as (rs & Hrs & Hs). unfold sign_with.
  destruct (awaits_signature s) as [env s1]. simpl in Hs. exists rs, env. split; [done|].
  rewrite after_app, <- Hs. cbn [after foldl]. rewrite Hf.
  destruct (f (the_store s1) env) as [[v r] l]. done.
Qed.

(** The checks of a node only wait. *)
Lemma new_status_waits {E} self c v s :
  reached theirs v (the_store s) ->
  wp (new_status (E:=E) self c) (fun r s' =>
    (forall e, r <> Err e) /\ reached theirs v (the_store s')) s.
Proof using Interleaved0.
  apply (new_status_kept (fun s => reached theirs v (the_store s)));
    intros c' s' Hs; (eapply reached_trans; [exact Hs|]).
  - apply version_waits.
  - apply spec_waits.
  - apply syncing_waits.
Qed.

(** The form in which the rule for requests to the beacon nodes takes it. *)
Lemma new_status_keeps {E} (P : request -> Prop) self c v s :
  (forall r, theirs r -> P r) -> reached P v (the_store s) ->
  wp (new_status (E:=E) self c) (fun r s' =>
    match r with
    | Ok _ => reached P v (the_store s')
    | Err _ => False
    | Panic _ | Diverged => reached P v (the_store s')
    end) s.
Proof using Interleaved0.
  intros HP Hs. eapply wp_mono; [|apply (new_status_waits self c (the_store s)), reached_refl].
  intros r s' [Hr Hs'].
  assert (reached P v (the_store s')) as Hv.
  { eapply reached_trans; [exact Hs|]. by eapply reached_mono. }
  destruct r as [st|e|msg|]; [done|by destruct (Hr e)|done..].
Qed.

Lemma waits_then {E A} (P : request -> Prop) (m : prog (nodes (services N)) E A) v s :
  (forall s, reached theirs (the_store s) (the_store (snd (m s)))) ->
  (forall r, theirs r -> P r) -> reached P v (the_store s) ->
  wp m (fun _ s' => reached P v (the_store s')) s.
Proof.
  intros Hm HP Hs. unfold wp. eapply reached_trans; [exact Hs|].
  eapply reached_mono; [exact HP|apply Hm].
Qed.

(** ** A rule for programs that make requests

    [does P m Q s]: from [s], [m] makes requests [rs] that satisfy [P], those of the
    others included, and ends in an outcome that satisfies [Q rs]. *)

Definition does {E A} (P : request -> Prop) (m : prog (nodes (services N)) E A)
  (Q : list request -> outcome E A -> Prop) (s : nodes (services N)) : Prop :=
  exists rs, Forall P rs /\ the_store (snd (m s)) = after (the_store s) rs /\ Q rs (fst (m s)).

Definition bind_does {E A B} (P : request -> Prop) (k : A -> prog (nodes (services N)) E B)
  (Q : list request -> outcome E B -> Prop) (s : nodes (services N)) (rs : list request)
  (r : outcome E A) : Prop :=
  match r with
  | Ok a =>
      forall s1, the_store s1 = after (the_store s) rs ->
        does P (k a) (fun rs' => Q (rs ++ rs')) s1
  | Err e => Q rs (Err e)
  | Panic msg => Q rs (Panic msg)
  | Diverged => Q rs Diverged
  end.

Lemma does_bind {E A B} P (m : prog (nodes (services N)) E A)
  (k : A -> prog (nodes (services N)) E B) Q s :
  does P m (bind_does P k Q s) s -> does P (m ≫= k) Q s.
Proof using.
  intros (rs & Hrs & Hs & Hb). unfold does, mbind, prog_bind.
  destruct (m s) as [[a|e|msg|] s1]; cbn in *; [|by exists rs..].
  destruct (Hb s1 Hs) as (rs' & Hrs' & Hs' & HQ). exists (rs ++ rs').
  rewrite Forall_app, after_app, <- Hs. done.
Qed.

Lemma does_mono {E A} P (m : prog (nodes (services N)) E A)
  (Q Q' : list request -> outcome E A -> Prop) s :
  (forall rs r, Q rs r -> Q' rs r) -> does P m Q s -> does P m Q' s.
Proof using. intros HQ (rs & Hrs & Hs & Hr). exists rs. auto. Qed.

(** Programs that leave the store alone. *)
Lemma does_nothing {E A} P (m : prog (nodes (services N)) E A) Q s :
  the_store (snd (m s)) = the_store s -> Q [] (fst (m s)) -> does P m Q s.
Proof using. intros Hs HQ. exists []. done. Qed.

Lemma does_caught {E E' A} P (m : prog (nodes (services N)) E A)
  (Q : list request -> outcome E' (E + A) -> Prop) s :
  does P m (fun rs r =>
    match r with
    | Ok a => Q rs (Ok (inr a))
    | Err e => Q rs (Ok (inl e))
    | Panic msg => Q rs (Panic msg)
    | Diverged => Q rs Diverged
    end) s ->
  does P (caught m) Q s.
Proof using.
  intros (rs & Hrs & Hs & HQ). exists rs. unfold caught. by destruct (m s) as [[] ?].
Qed.

Lemma does_map_err {E E' A} P (f : E -> E') (m : prog (nodes (services N)) E A)
  (Q : list request -> outcome E' A -> Prop) s :
  does P m (fun rs r =>
    match r with
    | Ok a => Q rs (Ok a)
    | Err e => Q rs (Err (f e))
    | Panic msg => Q rs (Panic msg)
    | Diverged => Q rs Diverged
    end) s ->
  does P (map_err f m) Q s.
Proof using.
  intros (rs & Hrs & Hs & HQ). exists rs. unfold map_err, caught, mbind, prog_bind.
  by destruct (m s) as [[] ?].
Qed.

Lemma does_wait {E A} (P : request -> Prop) (m : prog (nodes (services N)) E A) s :
  (forall s, reached theirs (the_store s) (the_store (snd (m s)))) ->
  (forall r, theirs r -> P r) -> does P m (fun _ _ => True) s.
Proof using.
  intros Hm HP. destruct (Hm s) as (rs & Hrs & Hs). exists rs.
  split; [by eapply Forall_impl|done].
Qed.

(** A request to the beacon nodes only waits when its calls do. *)
Lemma does_first_success {E A} (P : request -> Prop) synced off
  (func : Client -> prog (nodes (services N)) E A) self s :
  (forall c s, reached theirs (the_store s) (the_store (snd (func c s)))) ->
  (forall r, theirs r -> P r) -> does P (first_success synced off func self) (fun _ _ => True) s.
Proof using Interleaved0.
  intros Hf HP.
  assert (reached P (the_store s) (the_store (snd (first_success synced off func self s))))
    as (rs & Hrs & Hs); [|by exists rs].
  assert (forall s1 s2 : nodes (services N), reached P (the_store s) (the_store s1) ->
    reached theirs (the_store s1) (the_store s2) -> reached P (the_store s) (the_store s2)) as Hstep.
  { intros s1 s2 Hs1 Hs2. eapply reached_trans; [exact Hs1|]. by eapply reached_mono. }
  apply (first_success_kept (fun s' => reached P (the_store s) (the_store s'))).
  - intros c s' Hs'. eapply Hstep, version_waits; done.
  - intros c s' Hs'. eapply Hstep, spec_waits; done.
  - intros c s' Hs'. eapply Hstep, syncing_waits; done.
  - done.
  - intros c s' Hs'. by eapply Hstep, Hf.
  - apply reached_refl.
Qed.
End waits.
