(* ===== verification/ServicesIdeal.v ===== *)
(** * A concrete world for the services

    Two beacon nodes, of which the first has nothing to offer, one validator with a key
    of its own, and no other task: the instances with which the theorems on the services
    are applied to concrete inputs. *)

From S2P Require Import Prelude Store Committee Messages Network Core Ideal Mempool.
From S2P Require Import Scalars Blst BlstIdeal Polynomial Threshold Operator DvfCore.
From S2P Require Import Doppelganger KeyCache KeyFiles InitializedValidators ValidatorStore.
From S2P Require Import BeaconNodes Services.

#[local] Existing Instances ideal_blst ideal_blst_laws ideal_bincode ideal_round_trip.
#[local] Existing Instances ideal_sig_codec ideal_sig_roundtrip memory_db memory_db_reliable.
#[local] Existing Instances ideal_mempool ideal_keystore_crypto ideal_eth2_keystore.
#[local] Existing Instances mainnet demo_beacon history_db history_protection.

Definition plain_types : ServiceTypes := {|
  proposer_index _ := 3;
  att_slot a := a.2;
  att_index _ := 0;
  att_root a := Zpos (encode a);
  Aggregate := Z * Z * Z;
  aggregate_data a := a;
  randao_message e := e;
  selection_message slot := slot;
  aggregate_and_proof i a _ := Zpos (encode (i, a));
  is_selected _ _ := Some true;
  Contribution := Z;
  contribution_slot c := c;
  sync_message slot root := Zpos (encode (slot, root));
  sync_selection_message slot i := Zpos (encode (slot, i));
  contribution_and_proof i c _ := Zpos (encode (i, c));
  registration_message k t := Zpos (encode (k, t));
  is_sync_aggregator _ := Some true;
  subnet_ids d := Some (remove_dups (map (fun i => i / 128) (sync_committee_indices d)));
  sync_committee_period e := Some (e / 256);
  epochs_per_sync_committee_period := 256;
  slots_per_epoch := 32;
  slot_iter e := map (fun i => 32 * e + Z.of_nat i) (seq 0 32);
  bitlist_fits n := n <=? 2048;
  add_signature n i _ := i <? n
|}.
#[local] Existing Instance plain_types.

(** The rest of the world is the list of what was posted. *)
Definition plain_client : BeaconNodeHttpClient (services (list Z)) := {|
  Client := Z;
  HttpError := string;
  Config := Z;
  Clock := ();
  endpoint c := if c =? 10 then "first" else "second";
  from_config version := Some (mkChainSpec version None None);
  get_node_version c := mret "v1";
  get_config_spec c := mret 1;
  get_node_syncing c := mret (mkSyncingData false 100 0)
|}.
#[local] Existing Instance plain_client.

Definition plain_post (x : Z) : prog (nodes (services (list Z))) string () :=
  modify (fun s => mkNodes (statuses s)
    (mkServices (the_store s) (attesters_map (outside s)) (proposers_map (outside s))
       (sync_duties (outside s)) (registration_cache (outside s)) (net (outside s) ++ [x]))).

Definition plain_answer {A} (c : Z) (x : A) : prog (nodes (services (list Z))) string A :=
  if c =? 10 then fail "nothing" else mret x.

(** [env] is what signatures meet. *)
Definition plain_api_with (env : conditions) : BeaconApi (list Z) := {|
  get_validator_blocks _ c slot _ _ := plain_answer c (slot, c);
  post_beacon_blocks _ c b _ := plain_post b.2;
  get_validator_attestation_data c slot _ := plain_answer c (4, 5, slot);
  post_beacon_pool_attestations c l := plain_post (Z.of_nat (length l));
  get_validator_aggregate_attestation c slot _ := plain_answer c (Some (4, 5, slot));
  post_validator_aggregate_and_proof c l := plain_post (Z.of_nat (length l));
  get_beacon_states_validator_id c pubkey := plain_answer c (Some pubkey);
  post_validator_duties_attester c epoch indices :=
    plain_answer c (7, [mkAttesterData 5 3 1 0 64 2 (32 * epoch + 1)]);
  get_validator_duties_proposer c epoch :=
    plain_answer c (7, [mkProposerData 5 (32 * epoch + 1)]);
  post_subscriptions c l := plain_post (Z.of_nat (length l));
  post_validator_duties_sync c epoch l := plain_answer c [mkSyncDuty 5 3 [130]];
  get_beacon_blocks_root c := plain_answer c (Some 99);
  post_sync_committee_signatures c l := plain_post (Z.of_nat (length l));
  get_sync_committee_contribution c slot _ _ := plain_answer c (Some slot);
  post_contribution_and_proofs c l := plain_post (Z.of_nat (length l));
  post_sync_subscriptions c l := plain_post (Z.of_nat (length l));
  post_validator_prepare_beacon_proposer c l := plain_post (Z.of_nat (length l));
  post_validator_register_validator c l := plain_post (Z.of_nat (length l));
  now _ := Some 161;
  unix_time _ := inr 1700000000;
  duration_to_next_slot _ := Some 8000;
  awaits_signature s := (env, s);
  sleeps s := s;
  debug_http e := e;
  debug_store _ := "store"
|}.

Definition plain_api : BeaconApi (list Z) := plain_api_with demo_env.
#[local] Existing Instance plain_api.

Lemma plain_answer_waits {A} (P : request -> Prop) c (x : A) (s : nodes (services (list Z))) :
  reached P (the_store s) (the_store (snd (plain_answer c x s))).
Proof. unfold plain_answer. destruct (c =? 10); apply reached_refl. Qed.

Lemma plain_interleaved : Interleaved (fun _ => False) (list Z).
Proof. split; intros; (apply plain_answer_waits || apply reached_refl). Qed.

(** A validator with a key of its own and the index 3. *)
Definition plain_store : ValidatorStore :=
  mkValidatorStore
    (mkIv [] [] {[5 := mkInitialized (LocalMethod [] (1, [50], local_keypair second_signer)
                                       (local_keypair second_signer)) None None None None (Some 3)]}
       None) ([], []) 0 None.

Definition plain_fallback : BeaconNodeFallback :=
  mkFallback [10; 11] (Some ()) true (mkChainSpec 1 None None).

Definition plain_world : nodes (services (list Z)) :=
  mkNodes (fun _ => inr ()) (mkServices plain_store ∅ ∅ (mkSyncState ∅ [] false) ∅ []).
