(* ===== verification/BlockService.v ===== *)
(** * Block proposals

    Models [src/validation/block_service.rs] and [src/validation/graffiti_file.rs]: the
    notifications of the duties service, the proposal of a validator, with its randao
    reveal, its graffiti, the block of a beacon node and its signature, and the fallback
    from blinded to full blocks.

    The theorems show that whatever the beacon nodes answer, and however the proposals
    are interleaved with other tasks, all that reaches the validator store are requests
    for the proposers, a published block was signed by it and belongs to the validator,
    and no two blocks are slashable; and that a proposal on an operator that is not an
    aggregator of the epoch marks every beacon node as offline. *)

From S2P Require Import Prelude Store Committee Messages Network Core Ideal Mempool.
From S2P Require Import Scalars Blst BlstIdeal Polynomial Threshold Operator DvfCore.
From S2P Require Import Doppelganger KeyCache KeyFiles InitializedValidators ValidatorStore.
From S2P Require Import BeaconNodes Services ServicesIdeal.

(** ** [GraffitiFile] *)

Inductive GraffitiError : Type :=
| InvalidFile
| InvalidLine (line : string)
| InvalidPublicKey (key : string)
| InvalidGraffiti (value : string).

(** Whitespace of ASCII. *)
Definition is_space (a : Ascii.ascii) : bool :=
  let n := Ascii.N_of_ascii a in
  bool_decide (n = 32 \/ 9 <= n <= 13)%N.

Fixpoint trim_start (s : string) : string :=
  match s with
  | String a s' => if is_space a then trim_start s' else s
  | EmptyString => EmptyString
  end.

Definition trim (s : string) : string :=
  String.rev (trim_start (String.rev (trim_start s))).

(** The text before the first colon and the text after it. *)
Fixpoint split_colon (s : string) : option (string * string) :=
  match s with
  | EmptyString => None
  | String a s' =>
      if bool_decide (Ascii.N_of_ascii a = 58%N) then Some ("", s')
      else
        match split_colon s' with
        | Some (key, value) => Some (String a key, value)
        | None => None
        end
  end.

(** Texts of graffiti and keys, and the files of the disk, with [None] for a line that
    cannot be read. *)
Class GraffitiText := {
  graffiti_from_str : string -> option bytes;
  public_key_from_str : string -> option PublicKeyBytes
}.

Section graffiti.
Context `{GraffitiText}.

Record GraffitiFile := mkGraffitiFile {
  graffiti_path : Path;
  graffitis : gmap PublicKeyBytes bytes;
  default_graffiti : option bytes
}.

Definition new_graffiti_file (p : Path) : GraffitiFile := mkGraffitiFile p ∅ None.

Definition read_line (line : string) : outcome GraffitiError (option PublicKeyBytes * bytes) :=
  match split_colon line with
  | None => Err (InvalidLine line)
  | Some (key, value) =>
      match graffiti_from_str (trim value) with
      | None => Err (InvalidGraffiti (trim value))
      | Some graffiti =>
          if String.eqb key "default" then mret (None, graffiti)
          else
            match public_key_from_str key with
            | None => Err (InvalidPublicKey key)
            | Some pk => mret (Some pk, graffiti)
            end
      end
  end.

Fixpoint read_lines (lines : list (option string)) (self : GraffitiFile)
  : outcome GraffitiError GraffitiFile :=
  match lines with
  | [] => mret self
  | None :: _ => Err (InvalidLine "")
  | Some line :: lines =>
      '(pk_opt, graffiti) ← read_line line;
      read_lines lines
        (match pk_opt with
         | Some pk =>
             mkGraffitiFile (graffiti_path self) (<[pk := graffiti]> (graffitis self))
               (default_graffiti self)
         | None => mkGraffitiFile (graffiti_path self) (graffitis self) (Some graffiti)
         end)
  end.

Definition read_graffiti_file (open : Path -> option (list (option string))) (self : GraffitiFile)
  : outcome GraffitiError GraffitiFile :=
  match open (graffiti_path self) with
  | None => Err InvalidFile
  | Some lines => read_lines lines self
  end.

(** [Option::or] of the graffiti of the key and the default. *)
Definition load_graffiti (open : Path -> option (list (option string))) (self : GraffitiFile)
  (public_key : PublicKeyBytes) : outcome GraffitiError (option bytes) :=
  self ← read_graffiti_file open self;
  mret (match graffitis self !! public_key with
        | Some g => Some g
        | None => default_graffiti self
        end).
End graffiti.

(** ** [BlockService] *)

Inductive BlockError : Type :=
| Recoverable (msg : string)
| Irrecoverable (msg : string)
| RandaoNotLeader
| SignBlockNotLeader.

Record BlockServiceNotification := mkNotification {
  notified_slot : Slot;
  block_proposers : list PublicKeyBytes
}.

(** A request that failed with an irrecoverable error. *)
Definition irrecoverable (x : string * FallbackError BlockError) : bool :=
  match x.2 with RequestFailed (Irrecoverable _) => true | _ => false end.

Definition from_errors (debug : FallbackError BlockError -> string) (e : Errors BlockError)
  : BlockError :=
  if existsb irrecoverable e then Irrecoverable (display debug e)
  else Recoverable (display debug e).

Section block_service.
Context `{Eth2Keystore} `{Bincode} `{!SigCodec} `{MempoolCodec} `{Rocksdb Digest bytes}.
Context `{EthSpec} `{SlashingDatabase} `{!ServiceTypes} `{GraffitiText}.
Context {N : Type} `{!BeaconNodeHttpClient (services N)} `{!BeaconApi N}.

(** The service; [open_file] reads the disk. *)
Record BlockService := mkBlockService {
  beacon_nodes : BeaconNodeFallback;
  process_graffiti : option bytes;
  graffiti_file : option GraffitiFile;
  private_tx_proposals : bool;
  genesis_slot : Slot;
  fork_epoch : option Epoch;
  open_file : N -> Path -> option (list (option string));
  debug_errors : FallbackError BlockError -> string
}.

Definition randao_error (e : StoreErrorV) : BlockError :=
  match e with
  | UnableToSign NotLeader => RandaoNotLeader
  | e => Recoverable ("Unable to produce randao reveal signature: " +:+ debug_store e)
  end.

Definition sign_error (e : StoreErrorV) : BlockError :=
  match e with
  | UnableToSign NotLeader => SignBlockNotLeader
  | e => Recoverable ("Unable to sign block: " +:+ debug_store e)
  end.

(** The graffiti of the file, of the validator or of the process. *)
Definition graffiti_for (self : BlockService) (pubkey : PublicKeyBytes) (s : nodes (services N))
  : option bytes :=
  let from_file :=
    match graffiti_file self with
    | None => None
    | Some g =>
        match load_graffiti (open_file self (net (outside s))) g pubkey with
        | Ok g => g
        | _ => None
        end
    end in
  match from_file with
  | Some g => Some g
  | None =>
      match graffiti_of (the_store s) pubkey with
      | Some g => Some g
      | None => process_graffiti self
      end
  end.

(** The closure that is run on a beacon node. *)
Definition produce_block (t : BlockType) (slot : Slot) (pubkey : PublicKeyBytes)
  (current_slot : Slot) (randao_reveal : BlsSignature) (graffiti : option bytes)
  (proposer : option Z) (c : Client)
  : prog (nodes (services N)) BlockError (BeaconBlockT * BlsSignature) :=
  block ← map_err
    (fun e => Recoverable ("Error from beacon node when producing block: " +:+ debug_http e))
    (get_validator_blocks t c slot randao_reveal graffiti);
  if bool_decide (proposer = Some (proposer_index block)) then
    signature ← map_err sign_error
      (sign_with (fun v env => sign_block v pubkey block current_slot env));
    _ ← map_err
      (fun e => Irrecoverable ("Error from beacon node when publishing block: " +:+ debug_http e))
      (post_beacon_blocks t c block signature);
    mret (block, signature)
  else
    fail (Recoverable "Proposer index does not match block proposer. Beacon chain re-orged").

(** Returns the signed block, which is logged. *)
Definition publish_block (self : BlockService) (t : BlockType) (slot : Slot)
  (pubkey : PublicKeyBytes)
  : prog (nodes (services N)) BlockError (BeaconBlockT * BlsSignature) :=
  clock ← gets now;
  match clock with
  | None => fail (Recoverable "Unable to determine current slot from clock")
  | Some current_slot =>
      let epoch := slot_epoch slot in
      reveal ← map_err randao_error
        (sign_with (fun v env => randao_reveal v pubkey epoch (randao_message epoch) env));
      graffiti ← gets (graffiti_for self pubkey);
      proposer ← gets (fun s => index_of (the_store s) pubkey);
      map_err (from_errors (debug_errors self))
        (first_success RequireSynced.No OfflineOnFailure.Yes
           (produce_block t slot pubkey current_slot reveal graffiti proposer)
           (beacon_nodes self))
  end.

Definition merge_slot (self : BlockService) : Slot :=
  epoch_start_slot (default u64_max (fork_epoch self)).

(** The task of one proposer. *)
Definition propose (self : BlockService) (slot : Slot) (pubkey : PublicKeyBytes)
  : prog (nodes (services N)) BlockError (BeaconBlockT * BlsSignature) :=
  if private_tx_proposals self && (merge_slot self <=? slot) then
    result ← caught (publish_block self Blinded slot pubkey);
    match result with
    | inr block => mret block
    | inl (Recoverable _) => publish_block self Full slot pubkey
    | inl e => fail e
    end
  else publish_block self Full slot pubkey.

(** The proposers for which [do_update] spawns a task. *)
Definition do_update (self : BlockService) (notification : BlockServiceNotification)
  (s : nodes (services N)) : outcome () (list PublicKeyBytes) :=
  match now s with
  | None => Err ()
  | Some slot =>
      if negb (notified_slot notification =? slot) then mret []
      else if slot =? genesis_slot self then mret []
      else mret (block_proposers notification)
  end.

(** The tasks of a notification, with their results. *)
Fixpoint run_proposals (self : BlockService) (slot : Slot) (pubkeys : list PublicKeyBytes)
  (s : nodes (services N))
  : list (PublicKeyBytes * outcome BlockError (BeaconBlockT * BlsSignature)) * nodes (services N) :=
  match pubkeys with
  | [] => ([], s)
  | pubkey :: pubkeys =>
      let '(r, s) := propose self slot pubkey s in
      let '(rs, s) := run_proposals self slot pubkeys s in
      ((pubkey, r) :: rs, s)
  end.

(** Notifications are handled one after the other. *)
Fixpoint run_notifications (self : BlockService) (l : list BlockServiceNotification)
  (s : nodes (services N))
  : list (PublicKeyBytes * outcome BlockError (BeaconBlockT * BlsSignature)) * nodes (services N) :=
  match l with
  | [] => ([], s)
  | notification :: l =>
      let '(rs, s) :=
        match do_update self notification s with
        | Ok proposers => run_proposals self (notified_slot notification) proposers s
        | _ => ([], s)
        end in
      let '(rs', s) := run_notifications self l s in
      (rs ++ rs', s)
  end.
End block_service.

(** ** What the service requests *)

Section requests.
Context `{Eth2Keystore} `{Bincode} `{!SigCodec} `{MempoolCodec} `{Rocksdb Digest bytes}.
Context `{EthSpec} `{SlashingDatabase} `{!ServiceTypes} `{GraffitiText}.
Context {N : Type} `{!BeaconNodeHttpClient (services N)} `{!BeaconApi N}.
Context (theirs : request -> Prop) `{!Interleaved theirs N}.

(** The requests of a proposal. *)
Definition proposal_of (pubkey : PublicKeyBytes) (r : request) : Prop :=
  match r with
  | ReqRandao pk _ _ _ | ReqBlock pk _ _ _ => pk = pubkey
  | _ => False
  end.

(** A beacon node has taken the block. *)
Definition posted (b : BeaconBlockT) (signature : BlsSignature) : Prop :=
  exists t c s, fst (post_beacon_blocks t c b signature s) = Ok ().

(** A block that was published in the course of some requests: it was signed by one of
    them, and its proposer is the index that the validator had after some of them. *)
Definition published (v : ValidatorStore) (rs : list request) (pubkey : PublicKeyBytes)
  (x : BeaconBlockT * BlsSignature) : Prop :=
  exists before later, rs = before ++ later /\
    index_of (after v before) pubkey = Some (proposer_index x.1) /\
    (pubkey, SignedBlock x.1) ∈ log v rs /\ posted x.1 x.2.

Lemma published_app v rs rs' pubkey x :
  published v rs pubkey x -> published v (rs ++ rs') pubkey x.
Proof.
  intros (before & later & -> & Hi & Hin & Hp). exists before, (later ++ rs').
  rewrite log_app, elem_of_app, app_assoc. auto.
Qed.

Lemma published_after v rs rs' pubkey x :
  published (after v rs) rs' pubkey x -> published v (rs ++ rs') pubkey x.
Proof.
  intros (before & later & -> & Hi & Hin & Hp). exists (rs ++ before), later.
  rewrite after_app, log_app, elem_of_app, app_assoc. auto.
Qed.

Lemma sign_block_ok self pk b cs env self' sig l :
  sign_block self pk b cs env = (self', Ok sig, l) -> l = [(pk, SignedBlock b)].
Proof.
  unfold sign_block. destruct (_ <? _); [done|].
  destruct (check_and_insert_block_proposal _ _ _) as [d [e|[]]]; try done.
  apply get_signature_ok.
Qed.

Section publish.
Context (P : request -> Prop) (P_theirs : forall r, theirs r -> P r).
Context (pubkey : PublicKeyBytes) (P_ours : forall r, proposal_of pubkey r -> P r).

(** One beacon node: what is signed is requested, and what is returned is posted. *)
Lemma produce_block_requests t slot cs randao graffiti proposer c v s :
  reached P v (the_store s) ->
  wp (produce_block t slot pubkey cs randao graffiti proposer c) (fun r s' =>
    match r with
    | Ok x =>
        exists later, the_store s' = after v later /\ Forall P later /\
          proposer = Some (proposer_index x.1) /\ (pubkey, SignedBlock x.1) ∈ log v later /\
          posted x.1 x.2
    | Err e => reached P v (the_store s') /\ True
    | Panic _ | Diverged => reached P v (the_store s')
    end) s.
Proof using Interleaved0 P_theirs P_ours.
  intros Hs. apply wp_bind, wp_map_err.
  eapply wp_mono; [|apply (waits_then theirs P _ v); [intros; apply get_block_waits|done|exact Hs]].
  intros [b|e|msg|] s1 Hs1; cbn [bind_post]; [|by split|done..].
  case_bool_decide as Hi; [|by split].
  apply wp_bind, wp_map_err. destruct Hs1 as (rs1 & Hrs1 & Hv1).
  destruct (sign_with_requests theirs (fun v env => sign_block v pubkey b cs env)
    (ReqBlock pubkey b cs) s1) as (rs & env & Hrs & Hs2 & Hr); [done|].
  unfold wp. destruct (sign_with _ s1) as [r s2]. cbn [fst snd] in *.
  assert (Forall P (rs1 ++ rs ++ [ReqBlock pubkey b cs env])) as Hall.
  { rewrite !Forall_app. split; [done|]. split; [by eapply Forall_impl|].
    apply Forall_singleton. by apply P_ours. }
  rewrite Hv1, <- after_app in Hs2.
  assert (reached P v (the_store s2)) as Hs2' by (eexists; by split).
  destruct r as [sig|e|msg|]; cbn [bind_post]; [|by split|done..].
  apply wp_bind, wp_map_err.
  destruct (post_block_waits t c b sig s2) as (rs3 & Hrs3 & Hs3).
  assert (Forall P ((rs1 ++ rs ++ [ReqBlock pubkey b cs env]) ++ rs3)) as Hall3.
  { rewrite Forall_app. split; [done|]. by eapply Forall_impl. }
  rewrite Hs2, <- after_app in Hs3. unfold wp.
  destruct (post_beacon_blocks t c b sig s2) as [r s3] eqn:Hpost. cbn [fst snd] in *.
  assert (reached P v (the_store s3)) as Hs3' by (eexists; by split).
  destruct r as [[]|e|msg|]; cbn [bind_post]; [|by split|done..].
  eexists. split; [exact Hs3|]. split; [done|]. split; [done|]. split.
  - rewrite log_app. apply elem_of_app. left. rewrite log_app. apply elem_of_app. right.
    rewrite log_app. apply elem_of_app. right. rewrite <- after_app. cbn [log handle signed_by].
    rewrite Hv1, <- after_app in Hr.
    destruct (sign_block _ pubkey b cs env) as [[v' r'] l] eqn:Hsign. cbn [fst snd] in *.
    subst r'. apply sign_block_ok in Hsign as ->. apply list_elem_of_here.
  - exists t, c, s2. cbn [fst snd]. by rewrite Hpost.
Qed.

Definition makes (v : ValidatorStore) (r : outcome BlockError (BeaconBlockT * BlsSignature))
  (s : nodes (services N)) : Prop :=
  exists rs, Forall P rs /\ the_store s = after v rs /\
    forall x, r = Ok x -> published v rs pubkey x.

Lemma reached_makes v r s :
  reached P v (the_store s) -> (forall x, r <> Ok x) -> makes v r s.
Proof using.
  intros (rs & Hrs & Hv) Hr. exists rs. split; [done|]. split; [done|]. intros x Hx. by destruct (Hr x).
Qed.

Lemma publish_block_requests self t slot s :
  wp (publish_block self t slot pubkey) (makes (the_store s)) s.
Proof using Interleaved0 P_theirs P_ours.
  apply wp_bind, wp_gets. cbn [bind_post]. destruct (now s) as [cs|];
    [|apply reached_makes; [apply reached_refl|done]].
  apply wp_bind, wp_map_err.
  destruct (sign_with_requests theirs
    (fun v env => randao_reveal v pubkey (slot_epoch slot) (randao_message (slot_epoch slot)) env)
    (ReqRandao pubkey (slot_epoch slot) (randao_message (slot_epoch slot))) s)
    as (rs & env & Hrs & Hs1 & _); [done|].
  unfold wp at 1. destruct (sign_with _ s) as [r s1]. cbn [fst snd] in *.
  set (req := ReqRandao _ _ _ env) in *. set (before := rs ++ [req]) in *.
  assert (Forall P before) as Hbefore.
  { unfold before. rewrite !Forall_app. split; [by eapply Forall_impl|].
    apply Forall_singleton. by apply P_ours. }
  assert (reached P (the_store s) (the_store s1)) as Hs1' by (eexists; by split).
  destruct r as [reveal|e|msg|]; cbn [bind_post]; [|by apply reached_makes..].
  apply wp_bind, wp_gets. cbn [bind_post]. apply wp_bind, wp_gets. cbn [bind_post].
  apply wp_map_err. set (v1 := the_store s1) in *.
  eapply wp_mono; [|apply (wp_first_success _ _ _ (beacon_nodes self)
    (fun s => reached P v1 (the_store s))
    (fun x s => exists later, the_store s = after v1 later /\ Forall P later /\
       index_of v1 pubkey = Some (proposer_index x.1) /\
       (pubkey, SignedBlock x.1) ∈ log v1 later /\ posted x.1 x.2) (fun _ => True)
    (fun s => reached P v1 (the_store s)))].
  - intros [x|e|msg|] s';
      [|intros Hs'; apply reached_makes; [|done]; by eapply reached_trans; [|apply Hs']..].
    intros (later & Hv & Hlater & Hi & Hin & Hp). exists (before ++ later).
    rewrite after_app, <- Hs1, Forall_app. split; [done|]. split; [done|].
    intros x' [= <-]. exists before, later. rewrite log_app, <- Hs1, elem_of_app. auto.
  - intros c s' Hs'. by apply produce_block_requests.
  - done.
  - intros c s' Hs'. by apply (new_status_keeps theirs).
  - apply reached_refl.
Qed.

Lemma propose_requests self slot s : wp (propose self slot pubkey) (makes (the_store s)) s.
Proof using Interleaved0 P_theirs P_ours.
  unfold propose. destruct (_ && _); [|apply publish_block_requests].
  apply wp_bind, wp_caught. eapply wp_mono; [|apply publish_block_requests].
  intros r s1 (rs1 & Hrs1 & Hs1 & Hp1).
  assert (forall r', (forall x, r' = Ok x -> r = Ok x) -> makes (the_store s) r' s1) as Hend.
  { intros r' Hr'. exists rs1. split; [done|]. split; [done|]. intros x Hx. by apply Hp1, Hr'. }
  destruct r as [x|e|msg|]; cbn [bind_post]; [by apply Hend| |by apply Hend..].
  destruct e; try (by apply Hend).
  eapply wp_mono; [|apply publish_block_requests].
  intros r s2 (rs2 & Hrs2 & Hs2 & Hp2). exists (rs1 ++ rs2). rewrite Hs1 in *.
  split; [by apply Forall_app|]. split; [by rewrite after_app|].
  intros x Hx. by apply published_after, Hp2.
Qed.
End publish.

(** The tasks of some proposers, and the notifications. *)
Definition all_published (v : ValidatorStore) (rs : list request)
  (l : list (PublicKeyBytes * outcome BlockError (BeaconBlockT * BlsSignature))) : Prop :=
  forall pubkey x, (pubkey, Ok x) ∈ l -> published v rs pubkey x.

Lemma run_proposals_requests (P : request -> Prop) self slot pubkeys s :
  (forall r, theirs r -> P r) ->
  (forall pubkey r, pubkey ∈ pubkeys -> proposal_of pubkey r -> P r) ->
  exists rs, Forall P rs /\
    the_store (snd (run_proposals self slot pubkeys s)) = after (the_store s) rs /\
    all_published (the_store s) rs (fst (run_proposals self slot pubkeys s)).
Proof using Interleaved0.
  intros HP. revert s. induction pubkeys as [|pubkey pubkeys IH]; intros s Hours.
  { exists []. split; [done|]. split; [done|]. by intros pk x ?%elem_of_nil. }
  cbn [run_proposals].
  destruct (propose_requests P HP pubkey (fun r => Hours pubkey r (list_elem_of_here _ _)) self slot s)
    as (rs1 & Hrs1 & Hs1 & Hp1).
  destruct (propose self slot pubkey s) as [r s1]. cbn [fst snd] in *.
  destruct (IH s1) as (rs2 & Hrs2 & Hs2 & Hp2).
  { intros pk r' Hpk. apply Hours. by apply list_elem_of_further. }
  destruct (run_proposals self slot pubkeys s1) as [l s2]. cbn [fst snd] in *.
  exists (rs1 ++ rs2). rewrite Hs1 in *. split; [by apply Forall_app|].
  split; [by rewrite after_app|].
  intros pk x [[= -> <-]|Hx]%elem_of_cons; [by apply published_app, Hp1|].
  by apply published_after, Hp2.
Qed.

Lemma run_notifications_requests (P : request -> Prop) self l s :
  (forall r, theirs r -> P r) ->
  (forall n pubkey r, n ∈ l -> pubkey ∈ block_proposers n -> proposal_of pubkey r -> P r) ->
  exists rs, Forall P rs /\
    the_store (snd (run_notifications self l s)) = after (the_store s) rs /\
    all_published (the_store s) rs (fst (run_notifications self l s)).
Proof using Interleaved0.
  intros HP. revert s. induction l as [|n l IH]; intros s Hours.
  { exists []. split; [done|]. split; [done|]. by intros pk x ?%elem_of_nil. }
  cbn [run_notifications].
  set (first := match do_update self n s with Ok _ => _ | _ => _ end).
  assert (exists rs, Forall P rs /\ the_store (snd first) = after (the_store s) rs /\
    all_published (the_store s) rs (fst first)) as (rs1 & Hrs1 & Hs1 & Hp1).
  { assert (exists rs, Forall P rs /\ the_store s = after (the_store s) rs /\
      all_published (the_store s) rs []) as Hnone.
    { exists []. split; [done|]. split; [done|]. by intros pk x ?%elem_of_nil. }
    unfold first, do_update. destruct (now s) as [slot|]; [|done].
    destruct (negb _); [done|]. destruct (_ =? _); [done|]. cbn [mret outcome_ret].
    apply run_proposals_requests; [done|]. intros pk r Hpk.
    by apply (Hours n pk r), Hpk; apply list_elem_of_here. }
  destruct first as [l1 s1]. cbn [fst snd] in *.
  destruct (IH s1) as (rs2 & Hrs2 & Hs2 & Hp2).
  { intros n' pk r Hn'. apply Hours. by apply list_elem_of_further. }
  destruct (run_notifications self l s1) as [l2 s2]. cbn [fst snd] in *.
  exists (rs1 ++ rs2). rewrite Hs1 in *. split; [by apply Forall_app|].
  split; [by rewrite after_app|].
  intros pk x [Hx|Hx]%elem_of_app; [by apply published_app, Hp1|].
  by apply published_after, Hp2.
Qed.

(** C4: all that reaches the validator store while block proposals are handled are
    requests of other tasks and requests for the notified proposers; a published block
    was signed by one of them for the validator that its index names, and a beacon node
    has taken it; and no two blocks that were signed, by whatever task, are slashable
    together, although the failure of a beacon node makes the service sign the block of
    another one. *)
Theorem proposals_never_slashable `{!SlashingProtection} self l s :
  exists rs,
    the_store (snd (run_notifications self l s)) = after (the_store s) rs /\
    Forall (fun r => theirs r \/ exists n pubkey,
      n ∈ l /\ pubkey ∈ block_proposers n /\ proposal_of pubkey r) rs /\
    (forall pubkey x, (pubkey, Ok x) ∈ fst (run_notifications self l s) ->
       published (the_store s) rs pubkey x) /\
    forall pubkey b b', (pubkey, SignedBlock b) ∈ log (the_store s) rs ->
      (pubkey, SignedBlock b') ∈ log (the_store s) rs -> ~ slashable_blocks b b'.
Proof using Interleaved0.
  destruct (run_notifications_requests (fun r => theirs r \/ exists n pubkey,
    n ∈ l /\ pubkey ∈ block_proposers n /\ proposal_of pubkey r) self l s)
    as (rs & Hrs & Hs & Hp); [by left|by right; eauto|].
  exists rs. split; [done|]. split; [done|]. split; [done|].
  destruct (log_run_empty (the_store s) rs) as [d Hd]. intros pk b b'. apply (safe_blocks d _ Hd).
Qed.
End requests.

(** ** Operators that do not aggregate *)

Section not_leader.
Context `{Eth2Keystore} `{Bincode} `{!SigCodec} `{MempoolCodec} `{Rocksdb Digest bytes}.
Context `{EthSpec} `{SlashingDatabase} `{!ServiceTypes} `{GraffitiText}.
Context {N : Type} `{!BeaconNodeHttpClient (services N)} `{!BeaconApi N}.
Context (pubkey : PublicKeyBytes) (slot : Slot).

(** The validator is run by a committee in which the operator does not aggregate the
    messages of the epoch. *)
Definition not_leading (v : ValidatorStore) : Prop :=
  exists p share pk signer g fee gas builder index,
    validators (initialized_validators v) !! pubkey =
      Some (mkInitialized (DistributedMethod p share pk signer) g fee gas builder index) /\
    is_aggregator signer (slot_epoch slot) = Ok false.

(** A signer stays on its committee. *)
Lemma get_signature_not_leading v method kind root e env item v' r l :
  not_leading v ->
  method = doppelganger_checked_signing_method v pubkey \/ (forall m, method <> Ok m) ->
  get_signature v pubkey method kind root e env item = (v', r, l) -> not_leading v'.
Proof using.
  intros (p & share & pk & signer & g & fee & gas & builder & index & Hv & Hagg) Hm.
  assert (not_leading v) as Hsame by (repeat eexists; eauto).
  unfold get_signature. destruct method as [m|e'|msg|]; try (by intros [= <- _ _]).
  destruct Hm as [Hm|Hm]; [|by destruct (Hm m)].
  unfold doppelganger_checked_signing_method, doppelganger_bypassed_signing_method in Hm.
  rewrite Hv in Hm. destruct (doppelganger_protection_allows_signing v pubkey); [|done].
  injection Hm as ->. unfold get_signature_from_root. destruct (duty_of kind) as [duty only].
  intros [= <- _ _]. repeat eexists; cbn.
  - rewrite lookup_alter_eq, Hv. reflexivity.
  - exact Hagg.
Qed.

Lemma set_slashing_not_leading v d : not_leading v -> not_leading (set_slashing v d).
Proof using. done. Qed.

(** No block of the slot is signed. *)
Lemma sign_block_not_leading v b cs env :
  not_leading v -> block_slot b = slot ->
  exists v' e l, sign_block v pubkey b cs env = (v', Err e, l) /\ not_leading v'.
Proof using.
  intros Hv Hb. unfold sign_block. destruct (_ <? _); [do 3 eexists; by split|].
  destruct (check_and_insert_block_proposal _ _ _) as [d [e|[]]]; try (do 3 eexists; by split).
  apply (set_slashing_not_leading _ d) in Hv. set (v1 := set_slashing v d) in *.
  destruct (get_signature _ _ _ _ _ _ _ _) as [[v' r] l] eqn:Hg.
  pose proof (get_signature_not_leading _ _ _ _ _ _ _ _ _ _ Hv (or_introl eq_refl) Hg) as Hv'.
  assert (exists e, r = Err e) as [e ->]; [|do 3 eexists; by split].
  destruct Hv as (p & share & pk & signer & g & fee & gas & builder & index & Hl & Hagg).
  unfold get_signature, doppelganger_checked_signing_method, doppelganger_bypassed_signing_method in Hg.
  rewrite Hl in Hg. destruct (doppelganger_protection_allows_signing v1 pubkey);
    [|injection Hg as _ <- _; by eexists].
  cbn in Hg. rewrite Hb in Hg. unfold is_aggregator, local_sign_and_store in *. cbn in *.
  rewrite Hagg in Hg. injection Hg as _ <- _. by eexists.
Qed.

(** The beacon nodes give blocks of the slot or errors, and no other task interferes. *)
Record quiet_nodes : Prop := {
  blocks_given t c randao graffiti s : exists r s',
    get_validator_blocks t c slot randao graffiti s = (r, s') /\
    the_store s' = the_store s /\ statuses s' = statuses s /\
    match r with Ok b => block_slot b = slot | Err _ => True | _ => False end;
  signature_quiet s :
    the_store (snd (awaits_signature s)) = the_store s /\
    statuses (snd (awaits_signature s)) = statuses s
}.

Lemma sign_with_quiet {A} (f : ValidatorStore -> conditions -> signing A) s :
  quiet_nodes ->
  statuses (snd (sign_with f s)) = statuses s /\
  exists env, fst (sign_with f s) = snd (fst (f (the_store s) env)) /\
    the_store (snd (sign_with f s)) = fst (fst (f (the_store s) env)).
Proof using.
  intros Hq. destruct (signature_quiet Hq s) as [Hst Hss]. unfold sign_with.
  destruct (awaits_signature s) as [env s1]. cbn in Hst, Hss. rewrite Hst.
  destruct (f (the_store s) env) as [[v r] l] eqn:Hf. split; [done|]. exists env. by rewrite Hf.
Qed.

Definition recoverable (e : BlockError) : Prop :=
  match e with Irrecoverable _ => False | _ => True end.

Lemma produce_block_not_leading t cs reveal graffiti proposer c s :
  quiet_nodes -> not_leading (the_store s) ->
  exists e s', produce_block t slot pubkey cs reveal graffiti proposer c s = (Err e, s') /\
    not_leading (the_store s') /\ recoverable e /\ statuses s' = statuses s.
Proof using.
  intros Hq Hv. destruct (blocks_given Hq t c reveal graffiti s) as (r & s1 & Hget & Hs1 & Hst1 & Hr).
  unfold produce_block, map_err, caught, mbind, prog_bind. rewrite Hget.
  destruct r as [b|e| |]; [|by do 2 eexists; rewrite Hs1|done..]. cbn [mret prog_ret].
  case_bool_decide; [|by do 2 eexists; rewrite Hs1].
  destruct (sign_with_quiet (fun v env => sign_block v pubkey b cs env) s1 Hq)
    as (Hst2 & env & Hr2 & Hs2).
  rewrite Hs1 in *. destruct (sign_block_not_leading (the_store s) b cs env Hv Hr)
    as (v' & e & l & Hsign & Hv').
  destruct (sign_with _ s1) as [r2 s2]. rewrite Hsign in Hr2, Hs2. cbn in Hr2, Hs2, Hst2. subst r2.
  do 2 eexists. split; [reflexivity|]. rewrite Hs2, Hst2. split; [done|]. split; [|done].
  by destruct e as [| | | | | | |[]].
Qed.

(** C38: when a validator is to propose on an operator that does not aggregate the
    messages of the epoch, the proposal fails on every beacon node: the partial signature
    is made, but the refusal to aggregate counts as a failure of the node, so that all
    nodes that were ready are marked as offline.  The error is reported as recoverable,
    not as that of an operator that is not the leader. *)
Theorem not_leader_loses_nodes self t s cs reveal :
  quiet_nodes -> now s = Some cs -> not_leading (the_store s) ->
  (forall c, c ∈ candidates (beacon_nodes self) -> statuses s (position c) = inr ()) ->
  fst (sign_with (fun v env =>
    randao_reveal v pubkey (slot_epoch slot) (randao_message (slot_epoch slot)) env) s) = Ok reveal ->
  exists msg s', publish_block self t slot pubkey s = (Err (Recoverable msg), s') /\
    num_available (beacon_nodes self) s' = 0%nat /\
    forall c, c ∈ candidates (beacon_nodes self) -> statuses s' (position c) = inl Offline.
Proof using.
  intros Hq Hnow Hv Hst Hreveal. unfold publish_block.
  erewrite run_bind; [|reflexivity]. rewrite Hnow.
  set (f := fun v env => randao_reveal v pubkey _ _ env) in *.
  destruct (sign_with_quiet f s Hq) as (Hst1 & env & Hr1 & Hs1).
  destruct (sign_with f s) as [r1 s1] eqn:Hsign. cbn in Hreveal, Hst1, Hr1, Hs1. subst r1.
  erewrite run_bind by (unfold map_err, caught, mbind, prog_bind; by rewrite Hsign).
  erewrite run_bind; [|reflexivity]. erewrite run_bind; [|reflexivity].
  assert (not_leading (the_store s1)) as Hv1.
  { rewrite Hs1. destruct (f (the_store s) env) as [[v' r'] l] eqn:Hf.
    by apply (get_signature_not_leading _ _ _ _ _ _ _ _ _ _ Hv (or_introl eq_refl) Hf). }
  destruct (first_success_fails RequireSynced.No
    (produce_block t slot pubkey cs reveal (graffiti_for self pubkey s1)
       (index_of (the_store s1) pubkey)) (beacon_nodes self)
    (fun s => not_leading (the_store s)) recoverable) with (s := s1)
    as (errors & s' & Hrun & _ & He & Hoff).
  - intros c s2 Hv2. by apply produce_block_not_leading.
  - done.
  - done.
  - by rewrite Hst1.
  - unfold map_err, caught, mbind, prog_bind. rewrite Hrun. cbn [mret prog_ret fail].
    exists (display (debug_errors self) errors), s'. split; [|split; [|done]].
    + unfold from_errors. assert (existsb irrecoverable errors = false) as ->; [|done].
      apply not_true_iff_false. intros (x & Hx%list_elem_of_In & Hi)%existsb_exists.
      rewrite Forall_forall in He. destruct (He x Hx) as (e & Hxe & Hrec).
      unfold irrecoverable in Hi. rewrite Hxe in Hi. by destruct e.
    + unfold num_available, count. rewrite list_filter_none; [done|].
      intros c Hc. rewrite (Hoff c Hc). intros [].
Qed.
End not_leader.

(** ** A proposal with two beacon nodes *)

Section witness.
#[local] Existing Instances ideal_blst ideal_blst_laws ideal_bincode ideal_round_trip.
#[local] Existing Instances ideal_sig_codec ideal_sig_roundtrip memory_db memory_db_reliable.
#[local] Existing Instances ideal_mempool ideal_keystore_crypto ideal_eth2_keystore.
#[local] Existing Instances mainnet demo_beacon history_db history_protection.
#[local] Existing Instances plain_types plain_client plain_api plain_interleaved.

#[local] Instance no_graffiti : GraffitiText := {|
  graffiti_from_str _ := None;
  public_key_from_str _ := None
|}.

Definition plain_service : BlockService :=
  mkBlockService plain_fallback None None false 0 (Some 1) (fun _ _ => None) (fun _ => "error").

Definition plain_notifications : list BlockServiceNotification := [mkNotification 161 [5]].

(** The second node gives the block and takes it. *)
Lemma plain_proposed : exists signature,
  fst (run_notifications plain_service plain_notifications plain_world) =
  [(5, Ok ((161, 11), signature))].
Proof. eexists. reflexivity. Qed.

Lemma proposals_never_slashable_witness : exists rs signature,
  published plain_store rs 5 ((161, 11), signature) /\
  forall b b', (5, SignedBlock b) ∈ log plain_store rs ->
    (5, SignedBlock b') ∈ log plain_store rs -> ~ slashable_blocks b b'.
Proof.
  destruct plain_proposed as [signature Hp].
  destruct (proposals_never_slashable (fun _ => False) plain_service plain_notifications plain_world)
    as (rs & _ & _ & Hpub & Hsafe).
  exists rs, signature. split.
  - apply (Hpub 5 ((161, 11), signature)). rewrite Hp. apply list_elem_of_here.
  - apply (Hsafe 5).
Defined.

(** Operator 2 of three does not aggregate in epoch 5. *)
Definition idle_signer : DvfSigner :=
  mkDvfSigner 2 trio_committee (share_keys demo_share 2) empty_store.

Definition committee_env : conditions :=
  mkConditions true (fun _ => "") (fun _ => Some (Ok (SecretKey_sign 7 [], [1; 2])))
    (mkReporting (inr ()) (Some "")).

Definition committee_world : nodes (services (list Z)) :=
  mkNodes (fun _ => inr ())
    (mkServices
       (mkValidatorStore
          (mkIv [] [] {[5 := mkInitialized
             (DistributedMethod [] demo_share_file (SecretKey_public_key 7) idle_signer)
             None None None None (Some 3)]} None) ([], []) 0 None) ∅ ∅ (mkSyncState ∅ [] false) ∅ []).

#[local] Instance committee_api : BeaconApi (list Z) := plain_api_with committee_env.

Lemma not_leader_loses_nodes_witness : exists msg s',
  publish_block plain_service Full 161 5 committee_world = (Err (Recoverable msg), s') /\
  num_available plain_fallback s' = 0%nat.
Proof.
  destruct (not_leader_loses_nodes 5 161 plain_service Full committee_world 161
    (SecretKey_sign 7 [])) as (msg & s' & Hrun & Hn & _).
  - split.
    + intros t c randao graffiti s. exists (fst (plain_answer c (161, c) s)), s.
      cbn [get_validator_blocks committee_api plain_api_with]. unfold plain_answer.
      by destruct (c =? 10).
    + intros s. split; reflexivity.
  - reflexivity.
  - do 9 eexists. split; reflexivity.
  - intros c _. reflexivity.
  - reflexivity.
  - exists msg, s'. split; [exact Hrun|exact Hn].
Defined.
End witness.
