(* ===== verification/Duties.v ===== *)
(** * Duties of the local validators

    Models [src/validation/duties_service.rs]: the maps of attester and proposer duties,
    what the block and attestation services read from them, the polls that keep them up
    to date, the selection proofs, and the notifications to the block service.

    The theorem shows that a poll of the proposer duties notifies the block service of
    exactly the validators that may sign and have a duty in the slot, in the duties that
    were known before or that were downloaded, and of none twice. *)

From S2P Require Import Prelude Store Committee Messages Network Core Ideal Mempool.
From S2P Require Import Scalars Blst BlstIdeal Polynomial Threshold Operator DvfCore.
From S2P Require Import Doppelganger KeyCache KeyFiles InitializedValidators ValidatorStore.
From S2P Require Import BeaconNodes Services ServicesIdeal BlockService.

Definition SUBSCRIPTION_BUFFER_SLOTS : Z := 2.
Definition HISTORICAL_DUTIES_EPOCHS : Z := 2.

Inductive DutiesError : Type :=
| UnableToReadSlotClock
| FailedToDownloadAttesters (msg : string)
| FailedToProduceSelectionProof (e : StoreErrorV)
| InvalidModulo
| Arith
| SyncDutiesNotFound (index : Z)
| Negligible.

Section duties.
Context `{Eth2Keystore} `{Bincode} `{!SigCodec} `{MempoolCodec} `{Rocksdb Digest bytes}.
Context `{EthSpec} `{SlashingDatabase} `{!ServiceTypes}.
Context {N : Type} `{!BeaconNodeHttpClient (services N)} `{!BeaconApi N}.

(** The service; its maps are in the shared state. *)
Record DutiesService := mkDutiesService {
  duties_nodes : BeaconNodeFallback;
  require_synced : RequireSynced.t;
  duties_spec : ChainSpec;
  debug_duties : FallbackError HttpError -> string
}.

Definition set_attesters (m : gmap PublicKeyBytes (gmap Epoch (Hash256 * DutyAndProof)))
  (s : nodes (services N)) : nodes (services N) :=
  mkNodes (statuses s)
    (mkServices (the_store s) m (proposers_map (outside s)) (sync_duties (outside s))
       (registration_cache (outside s)) (net (outside s))).

Definition set_proposers (m : gmap Epoch (Hash256 * list ProposerData))
  (s : nodes (services N)) : nodes (services N) :=
  mkNodes (statuses s)
    (mkServices (the_store s) (attesters_map (outside s)) m (sync_duties (outside s))
       (registration_cache (outside s)) (net (outside s))).

(** ** What the other services read *)

(** The validators that doppelganger protection lets sign. *)
Definition signing_pubkeys (s : nodes (services N)) : gset PublicKeyBytes :=
  list_to_set (voting_pubkeys (the_store s) only_safe).

(** All validators, also those under protection. *)
Definition local_pubkeys (s : nodes (services N)) : gset PublicKeyBytes :=
  list_to_set (voting_pubkeys (the_store s) ignored).

Definition total_validator_count (s : nodes (services N)) : nat :=
  size (validators (initialized_validators (the_store s))).

Definition doppelganger_detecting_count (s : nodes (services N)) : nat :=
  size (list_to_set (voting_pubkeys (the_store s) only_unsafe) : gset PublicKeyBytes).

Definition proposers_of (epoch : Epoch) (s : nodes (services N)) : list ProposerData :=
  match proposers_map (outside s) !! epoch with
  | Some (_, proposers) => proposers
  | None => []
  end.

Definition attesters_of (epoch : Epoch) (s : nodes (services N)) : list DutyAndProof :=
  omap (fun x => snd <$> x.2 !! epoch) (map_to_list (attesters_map (outside s))).

Definition proposer_count (epoch : Epoch) (s : nodes (services N)) : nat :=
  length (filter (fun p => proposer_pubkey p ∈ signing_pubkeys s) (proposers_of epoch s)).

Definition attester_count (epoch : Epoch) (s : nodes (services N)) : nat :=
  length (filter (fun d => duty_pubkey (duty d) ∈ signing_pubkeys s) (attesters_of epoch s)).

Definition slot_proposers (slot : Slot) (s : nodes (services N)) : gset PublicKeyBytes :=
  list_to_set (map proposer_pubkey
    (filter (fun p => proposer_slot p = slot /\ proposer_pubkey p ∈ signing_pubkeys s)
       (proposers_of (slot_epoch slot) s))).

Definition attesters (slot : Slot) (s : nodes (services N)) : list DutyAndProof :=
  filter (fun d => duty_slot (duty d) = slot /\ duty_pubkey (duty d) ∈ signing_pubkeys s)
    (attesters_of (slot_epoch slot) s).

(** ** [poll_validator_indices] *)

Definition resolve_index (self : DutiesService) (pubkey : PublicKeyBytes)
  : prog (nodes (services N)) DutiesError () :=
  known ← gets (fun s => index_of (the_store s) pubkey);
  match known with
  | Some _ => mret ()
  | None =>
      r ← caught (first_success (require_synced self) OfflineOnFailure.Yes
                    (fun c => get_beacon_states_validator_id c pubkey) (duties_nodes self));
      match r with
      | inr (Some index) =>
          modify (fun s => set_store (fst (handle (the_store s) (ReqIndex pubkey index))) s)
      | inr None => mret ()
      | inl _ => mret ()
      end
  end.

Fixpoint resolve_indices (self : DutiesService) (pubkeys : list PublicKeyBytes)
  : prog (nodes (services N)) DutiesError () :=
  match pubkeys with
  | [] => mret ()
  | pubkey :: pubkeys => resolve_index self pubkey;; resolve_indices self pubkeys
  end.

Definition poll_validator_indices (self : DutiesService)
  : prog (nodes (services N)) DutiesError () :=
  all_pubkeys ← gets (fun s => voting_pubkeys (the_store s) ignored);
  resolve_indices self all_pubkeys.

(** ** [DutyAndProof::new] *)

Definition selection_error (e : StoreErrorV) : DutiesError :=
  match e with
  | UnableToSign NotLeader => Negligible
  | e => FailedToProduceSelectionProof e
  end.

Definition new_duty (d : AttesterData) : prog (nodes (services N)) DutiesError DutyAndProof :=
  proof ← map_err selection_error
    (sign_with (fun v env =>
       produce_selection_proof v (duty_pubkey d) (duty_slot d) (selection_message (duty_slot d)) env));
  match is_selected proof (committee_length d) with
  | None => fail InvalidModulo
  | Some true => mret (mkDutyAndProof d (Some proof))
  | Some false => mret (mkDutyAndProof d None)
  end.

(** ** Attester duties *)

(** Duties of local validators that are not known with this dependent root. *)
Definition is_new (epoch : Epoch) (dependent_root : Hash256)
  (m : gmap PublicKeyBytes (gmap Epoch (Hash256 * DutyAndProof))) (d : AttesterData) : bool :=
  match m !! duty_pubkey d with
  | None => true
  | Some duties =>
      match duties !! epoch with
      | None => true
      | Some (prior, _) => negb (prior =? dependent_root)
      end
  end.

(** The proofs of all duties; those that fail are left out. *)
Fixpoint new_duties (l : list AttesterData)
  : prog (nodes (services N)) DutiesError (list DutyAndProof) :=
  match l with
  | [] => mret []
  | d :: l =>
      r ← caught (new_duty d);
      ds ← new_duties l;
      mret (match r with inr d => d :: ds | inl _ => ds end)
  end.

Definition store_duty (epoch : Epoch) (dependent_root : Hash256)
  (m : gmap PublicKeyBytes (gmap Epoch (Hash256 * DutyAndProof))) (d : DutyAndProof)
  : gmap PublicKeyBytes (gmap Epoch (Hash256 * DutyAndProof)) :=
  let pubkey := duty_pubkey (duty d) in
  <[pubkey := <[epoch := (dependent_root, d)]> (default ∅ (m !! pubkey))]> m.

Definition poll_beacon_attesters_for_epoch (self : DutiesService) (epoch : Epoch)
  (local_indices : list Z) (local : gset PublicKeyBytes)
  : prog (nodes (services N)) DutiesError () :=
  match local_indices with
  | [] => mret ()
  | _ =>
      '(dependent_root, data) ← map_err
        (fun e => FailedToDownloadAttesters (display (debug_duties self) e))
        (first_success (require_synced self) OfflineOnFailure.Yes
           (fun c => post_validator_duties_attester c epoch local_indices) (duties_nodes self));
      known ← gets (fun s => attesters_map (outside s));
      ds ← new_duties
        (filter (fun d => is_new epoch dependent_root known d)
           (filter (fun d => duty_pubkey d ∈ local) data));
      modify (fun s =>
        set_attesters (foldl (store_duty epoch dependent_root) (attesters_map (outside s)) ds) s)
  end.

(** The subscriptions of the duties that are far enough ahead. *)
Definition subscriptions_for (current_slot : Slot) (epoch : Epoch) (s : nodes (services N))
  : list (AttesterData * bool) :=
  map (fun d => (duty d, bool_decide (is_Some (selection_proof d))))
    (filter (fun d => saturating_add current_slot SUBSCRIPTION_BUFFER_SLOTS < duty_slot (duty d))
       (attesters_of epoch s)).

Definition prune_attesters (current_epoch : Epoch)
  (m : gmap PublicKeyBytes (gmap Epoch (Hash256 * DutyAndProof)))
  : gmap PublicKeyBytes (gmap Epoch (Hash256 * DutyAndProof)) :=
  (filter (fun x => current_epoch <= saturating_add x.1 HISTORICAL_DUTIES_EPOCHS)) <$> m.

Definition poll_beacon_attesters (self : DutiesService)
  : prog (nodes (services N)) DutiesError () :=
  clock ← gets now;
  match clock with
  | None => fail UnableToReadSlotClock
  | Some current_slot =>
      let current_epoch := slot_epoch current_slot in
      let next_epoch := saturating_add current_epoch 1 in
      local ← gets local_pubkeys;
      local_indices ← gets (fun s => omap (index_of (the_store s)) (elements local));
      _ ← caught (poll_beacon_attesters_for_epoch self current_epoch local_indices local);
      _ ← caught (poll_beacon_attesters_for_epoch self next_epoch local_indices local);
      subscriptions ← gets (fun s =>
        subscriptions_for current_slot current_epoch s ++ subscriptions_for current_slot next_epoch s);
      _ ← match subscriptions with
          | [] => mret ()
          | _ =>
              _ ← caught (first_success (require_synced self) OfflineOnFailure.Yes
                            (fun c => post_subscriptions c subscriptions) (duties_nodes self));
              mret ()
          end;
      modify (fun s => set_attesters (prune_attesters current_epoch (attesters_map (outside s))) s)
  end.

(** ** Proposer duties *)

(** The notification that is sent, when there is one. *)
Definition notify_block_production_service (current_slot : Slot) (proposers : gset PublicKeyBytes)
  (v : ValidatorStore) : list BlockServiceNotification :=
  match filter (fun pubkey => doppelganger_protection_allows_signing v pubkey)
          (elements proposers) with
  | [] => []
  | l => [mkNotification current_slot l]
  end.

(** What the poll does with downloaded duties. *)
Definition store_proposers (epoch : Epoch) (local : gset PublicKeyBytes)
  (response : Hash256 * list ProposerData) (s : nodes (services N)) : nodes (services N) :=
  set_proposers
    (<[epoch := (response.1, filter (fun p => proposer_pubkey p ∈ local) response.2)]>
       (proposers_map (outside s))) s.

Definition prune_proposers (current_epoch : Epoch) (s : nodes (services N)) : nodes (services N) :=
  set_proposers (filter (fun x => current_epoch <= saturating_add x.1 HISTORICAL_DUTIES_EPOCHS)
                   (proposers_map (outside s))) s.

(** The download of the duties, and the notification for the validators that were not
    notified before. *)
Definition poll_additional (self : DutiesService) (current_slot : Slot)
  (initial local : gset PublicKeyBytes)
  : prog (nodes (services N)) DutiesError (list BlockServiceNotification) :=
  let current_epoch := slot_epoch current_slot in
  r ← caught (first_success (require_synced self) OfflineOnFailure.Yes
                (fun c => get_validator_duties_proposer c current_epoch) (duties_nodes self));
  _ ← match r with
      | inr response => modify (store_proposers current_epoch local response)
      | inl _ => mret ()
      end;
  additional ← gets (fun s => slot_proposers current_slot s ∖ initial);
  if bool_decide (additional = ∅) then mret []
  else gets (fun s => notify_block_production_service current_slot additional (the_store s)).

(** Returns the notifications that are sent to the block service. *)
Definition poll_beacon_proposers (self : DutiesService)
  : prog (nodes (services N)) DutiesError (list BlockServiceNotification) :=
  clock ← gets now;
  match clock with
  | None => fail UnableToReadSlotClock
  | Some current_slot =>
      initial ← gets (slot_proposers current_slot);
      first ← gets (fun s => notify_block_production_service current_slot initial (the_store s));
      local ← gets local_pubkeys;
      second ←
        (if bool_decide (local = ∅) then mret []
         else poll_additional self current_slot initial local);
      _ ← modify (prune_proposers (slot_epoch current_slot));
      mret (first ++ second)
  end.
End duties.

(** ** Notifications *)

Section notifications.
Context `{Eth2Keystore} `{Bincode} `{!SigCodec} `{MempoolCodec} `{Rocksdb Digest bytes}.
Context `{EthSpec} `{SlashingDatabase} `{!ServiceTypes}.
Context {N : Type} `{!BeaconNodeHttpClient (services N)} `{!BeaconApi N}.
Implicit Types s : nodes (services N).

Definition all_proposers (l : list BlockServiceNotification) : list PublicKeyBytes :=
  concat (map block_proposers l).

(** A validator that is safe may sign, and is one of the local validators. *)
Lemma safe_allowed s pubkey :
  pubkey ∈ signing_pubkeys s ->
  doppelganger_protection_allows_signing (the_store s) pubkey = true /\ pubkey ∈ local_pubkeys s.
Proof.
  unfold signing_pubkeys, local_pubkeys. rewrite !elem_of_list_to_set. unfold voting_pubkeys.
  rewrite !list_elem_of_omap. unfold doppelganger_protection_allows_signing.
  intros (st & Hin & Hsafe). pose proof Hin as (pk & -> & _)%list_elem_of_fmap.
  destruct (doppelganger_service (the_store s)) as [service|].
  - destruct (validator_status service pk) as [pk'|pk'|pk'] eqn:Hst; simplify_eq/=.
    assert (pubkey = pk) as ->.
    { unfold validator_status in Hst. repeat case_match; by simplify_eq. }
    split; [by rewrite Hst|]. eexists. by split.
  - simplify_eq/=. split; [done|]. eexists. by split.
Qed.

Lemma slot_proposers_safe slot s pubkey :
  pubkey ∈ slot_proposers slot s -> pubkey ∈ signing_pubkeys s.
Proof.
  unfold slot_proposers.
  by intros (p & -> & [[_ Hp] _]%list_elem_of_filter)%elem_of_list_to_set%list_elem_of_fmap.
Qed.

(** The notification for a set of validators that may sign. *)
Lemma notify_spec slot (X : gset PublicKeyBytes) s :
  X ⊆ signing_pubkeys s ->
  all_proposers (notify_block_production_service slot X (the_store s)) = elements X /\
  forall n, n ∈ notify_block_production_service slot X (the_store s) -> notified_slot n = slot.
Proof.
  intros HX. unfold notify_block_production_service.
  rewrite list_filter_all.
  2:{ intros pk Hpk%elem_of_elements. by rewrite (proj1 (safe_allowed s pk (HX pk Hpk))). }
  destruct (elements X) as [|pk l] eqn:He; [split; [done|by intros n ?%elem_of_nil]|].
  split; [by cbn; rewrite app_nil_r|]. by intros n ->%list_elem_of_singleton.
Qed.

(** The duties of the current epoch are not pruned. *)
Lemma pruned_current epoch s :
  epoch <= u64_max ->
  proposers_map (outside (prune_proposers epoch s)) !! epoch = proposers_map (outside s) !! epoch.
Proof.
  intros Hu. unfold prune_proposers, set_proposers. cbn. rewrite map_lookup_filter.
  destruct (proposers_map (outside s) !! epoch) as [x|]; [|done]. cbn.
  rewrite option_guard_True; [done|]. cbn. unfold saturating_add, HISTORICAL_DUTIES_EPOCHS. lia.
Qed.

Lemma slot_proposers_pruned slot s :
  slot_epoch slot <= u64_max ->
  slot_proposers slot (prune_proposers (slot_epoch slot) s) = slot_proposers slot s.
Proof. intros Hu. unfold slot_proposers, proposers_of. by rewrite pruned_current. Qed.

(** The second part of the poll. *)
Lemma additional_notified self slot initial local s l s' :
  poll_additional self slot initial local s = (Ok l, s') ->
  all_proposers l = elements (slot_proposers slot s' ∖ initial) /\
  (forall n, n ∈ l -> notified_slot n = slot) /\
  (forall response s1,
     first_success (require_synced self) OfflineOnFailure.Yes
       (fun c => get_validator_duties_proposer c (slot_epoch slot)) (duties_nodes self) s =
       (Ok response, s1) ->
     proposers_map (outside s') !! slot_epoch slot =
       Some (response.1, filter (fun p => proposer_pubkey p ∈ local) response.2)).
Proof.
  unfold poll_additional, caught, mbind at 1, prog_bind at 1.
  destruct (first_success _ _ _ _ s) as [r s1].
  set (s2 := match r with Ok response => store_proposers (slot_epoch slot) local response s1
                        | _ => s1 end).
  intros Hrun.
  assert ((additional ← gets (fun s => slot_proposers slot s ∖ initial);
           if bool_decide (additional = ∅) then mret []
           else gets (fun s => notify_block_production_service slot additional (the_store s))) s2
          = (Ok (E:=DutiesError) l, s')) as Hnotify.
  { destruct r as [response|e|msg|]; [exact Hrun|exact Hrun|done..]. }
  erewrite run_bind in Hnotify; [|reflexivity]. cbv beta in Hnotify.
  assert (s' = s2 /\ l = notify_block_production_service slot (slot_proposers slot s2 ∖ initial)
    (the_store s2)) as [-> ->].
  { case_bool_decide as He; [|by injection Hnotify as <- <-].
    injection Hnotify as <- <-. split; [done|]. rewrite He. unfold notify_block_production_service.
    by rewrite elements_empty. }
  destruct (notify_spec slot (slot_proposers slot s2 ∖ initial) s2) as [Hall Hslot].
  { intros pk [Hpk _]%elem_of_difference. by eapply slot_proposers_safe. }
  split; [done|]. split; [done|]. intros response s1' [= -> ->]. cbn. apply lookup_insert_eq.
Qed.

(** C18: a poll of the proposer duties notifies the block service, for the current slot,
    of exactly the validators that doppelganger protection lets sign and that have a duty
    in the slot, by the duties that were known before the poll or by those known after
    it, each of them once; the duties known after it are those of the local validators
    in the answer of a beacon node, when one answers. *)
Theorem proposers_notified self s l s' :
  poll_beacon_proposers self s = (Ok l, s') ->
  exists slot, now s = Some slot /\
    (forall n, n ∈ l -> notified_slot n = slot) /\ NoDup (all_proposers l) /\
    (slot_epoch slot <= u64_max -> forall pubkey,
       pubkey ∈ all_proposers l <-> pubkey ∈ slot_proposers slot s \/ pubkey ∈ slot_proposers slot s') /\
    (slot_epoch slot <= u64_max -> forall response s1, local_pubkeys s <> ∅ ->
       first_success (require_synced self) OfflineOnFailure.Yes
         (fun c => get_validator_duties_proposer c (slot_epoch slot)) (duties_nodes self) s =
         (Ok response, s1) ->
       proposers_map (outside s') !! slot_epoch slot =
         Some (response.1, filter (fun p => proposer_pubkey p ∈ local_pubkeys s) response.2)).
Proof.
  unfold poll_beacon_proposers. erewrite run_bind; [|reflexivity]. cbv beta.
  destruct (now s) as [slot|] eqn:Hnow; [|done].
  do 3 (erewrite run_bind; [|reflexivity]; cbv beta).
  set (initial := slot_proposers slot s). set (first := notify_block_production_service _ _ _).
  destruct (notify_spec slot initial s) as [Hall1 Hslot1].
  { intros pk. apply slot_proposers_safe. }
  fold first in Hall1, Hslot1. set (part := if bool_decide _ then _ else _). intros Hrun.
  destruct (part s) as [r s2] eqn:Hpart. unfold mbind, prog_bind in Hrun. rewrite Hpart in Hrun.
  destruct r as [second|e|msg|]; [|done..]. injection Hrun as <- <-.
  assert (all_proposers second = elements (slot_proposers slot s2 ∖ initial) /\
    (forall n, n ∈ second -> notified_slot n = slot) /\
    (forall response s1, local_pubkeys s <> ∅ ->
       first_success (require_synced self) OfflineOnFailure.Yes
         (fun c => get_validator_duties_proposer c (slot_epoch slot)) (duties_nodes self) s =
         (Ok response, s1) ->
       proposers_map (outside s2) !! slot_epoch slot =
         Some (response.1, filter (fun p => proposer_pubkey p ∈ local_pubkeys s) response.2)))
    as (Hall2 & Hslot2 & Hresp).
  { unfold part in Hpart. case_bool_decide as Hl.
    - injection Hpart as <- <-. split; [|split; [by intros n ?%elem_of_nil|done]].
      unfold initial. by rewrite difference_diag_L, elements_empty.
    - apply additional_notified in Hpart as (? & ? & Hresp). split; [done|]. split; [done|].
      intros response s1 _. apply Hresp. }
  assert (all_proposers (first ++ second) =
    elements initial ++ elements (slot_proposers slot s2 ∖ initial)) as Hall.
  { unfold all_proposers in *. by rewrite map_app, concat_app, Hall1, Hall2. }
  exists slot. split; [done|]. split; [|split; [|split]].
  - intros n [Hn|Hn]%elem_of_app; auto.
  - rewrite Hall. apply NoDup_app. split; [apply NoDup_elements|]. split; [|apply NoDup_elements].
    intros pk Hpk%elem_of_elements Hpk'%elem_of_elements. set_solver.
  - intros Hu pubkey. rewrite Hall, elem_of_app, !elem_of_elements, slot_proposers_pruned by done.
    fold initial. destruct (decide (pubkey ∈ initial)); set_solver.
  - intros Hu response s1 Hl Hfirst. rewrite pruned_current by done. by apply (Hresp _ s1).
Qed.
End notifications.

(** ** A poll of one duty *)

Section witness.
#[local] Existing Instances ideal_blst ideal_blst_laws ideal_bincode ideal_round_trip.
#[local] Existing Instances ideal_sig_codec ideal_sig_roundtrip memory_db memory_db_reliable.
#[local] Existing Instances ideal_mempool ideal_keystore_crypto ideal_eth2_keystore.
#[local] Existing Instances mainnet demo_beacon history_db history_protection.
#[local] Existing Instances plain_types plain_client plain_api.

Definition plain_duties : DutiesService :=
  mkDutiesService plain_fallback RequireSynced.No (mkChainSpec 1 (Some 0) None) (fun _ => "error").

(** No duty is known; the second node gives that of validator 5. *)
Lemma plain_polled : exists s',
  poll_beacon_proposers plain_duties plain_world = (Ok [mkNotification 161 [5]], s').
Proof. eexists. reflexivity. Qed.

Lemma proposers_notified_witness : exists s',
  poll_beacon_proposers plain_duties plain_world = (Ok [mkNotification 161 [5]], s') /\
  (5 ∈ slot_proposers 161 plain_world \/ 5 ∈ slot_proposers 161 s').
Proof.
  destruct plain_polled as [s' Hp]. exists s'. split; [exact Hp|].
  destruct (proposers_notified plain_duties plain_world [mkNotification 161 [5]] s' Hp)
    as (slot & Hnow & _ & _ & Hin & _).
  injection Hnow as <-. apply Hin; [|apply list_elem_of_here].
  change (5 <= u64_max). unfold u64_max. lia.
Defined.
End witness.
