(* ===== verification/SyncDuties.v ===== *)
(** * Duties of the sync committees

    Models [src/validation/duties_service/sync.rs]: the members of the sync committees by
    period, the polls that keep them up to date and hand out the computation of selection
    proofs, the tasks that compute the proofs, and what the sync committee service reads.

    The theorem shows that successive polls ask for the selection proofs of every epoch
    in their reach once, and for no others. *)

From S2P Require Import Prelude Store Committee Messages Network Core Ideal Mempool.
From S2P Require Import Scalars Blst BlstIdeal Polynomial Threshold Operator DvfCore.
From S2P Require Import Doppelganger KeyCache KeyFiles InitializedValidators ValidatorStore.
From S2P Require Import BeaconNodes Services ServicesIdeal BlockService Duties.

Definition AGGREGATION_PRE_COMPUTE_EPOCHS : Z := 2.

Definition saturating_mul (a b : Z) : Z := Z.min u64_max (a * b).

Section sync_duties_map.
Context `{ServiceTypes}.

(** What the sync committee service is given for a slot. *)
Record SlotDuties := mkSlotDuties {
  slot_duties : list SyncDuty;
  aggregators : gmap Z (list (Z * PublicKeyBytes * BlsSignature))
}.

(** ** Periods *)

Definition epoch_offset : Z := epochs_per_sync_committee_period / 2.

Definition first_epoch_of_period (period : Z) : Epoch :=
  saturating_mul epochs_per_sync_committee_period period.

Definition last_epoch_of_period (period : Z) : Epoch :=
  saturating_sub (first_epoch_of_period (u64 (period + 1))) 1.

(** ** The map of duties *)

Definition all_duties_known (m : gmap Z (gmap Z (option ValidatorDuties))) (period : Z)
  (indices : list Z) : bool :=
  match m !! period with
  | None => false
  | Some vs => forallb (fun index => bool_decide (is_Some (vs !! index))) indices
  end.

(** One member: its computation of proofs when there is one, and its new record. *)
Definition prepare_member (default_start_epoch epoch : Epoch) (d : ValidatorDuties)
  : option (Epoch * SyncDuty) * ValidatorDuties :=
  (match pre_compute_epoch d with
   | None => Some (default_start_epoch, sync_duty d)
   | Some prev => if prev <? epoch then Some (saturating_add prev 1, sync_duty d) else None
   end,
   mkValidatorDuties (sync_duty d) (Some epoch) (proofs d)).

Definition default_start_epoch (period : Z) (current_epoch : Epoch) : Epoch :=
  Z.max current_epoch (first_epoch_of_period period).

Definition last_pre_compute_epoch (period : Z) (current_epoch : Epoch) : Epoch :=
  Z.min (saturating_add current_epoch AGGREGATION_PRE_COMPUTE_EPOCHS) (last_epoch_of_period period).

Definition prepare_for_aggregator_pre_compute (period : Z) (current_epoch : Epoch)
  (m : gmap Z (gmap Z (option ValidatorDuties)))
  : Epoch * list (Epoch * SyncDuty) * gmap Z (gmap Z (option ValidatorDuties)) :=
  let epoch := last_pre_compute_epoch period current_epoch in
  let prepare := prepare_member (default_start_epoch period current_epoch) epoch in
  (epoch,
   match m !! period with
   | None => []
   | Some vs => omap (fun x => x.2 ≫= (fun d => fst (prepare d))) (map_to_list vs)
   end,
   alter (fmap (fmap (fun d => snd (prepare d)))) period m).

(** [CommitteeDuties::init] *)
Definition init_members (indices : list Z) (vs : gmap Z (option ValidatorDuties))
  : gmap Z (option ValidatorDuties) :=
  foldl (fun vs index => match vs !! index with Some _ => vs | None => <[index := None]> vs end)
    vs indices.

Definition get_or_create_committee_duties (period : Z) (indices : list Z)
  (m : gmap Z (gmap Z (option ValidatorDuties)))
  : gmap Z (gmap Z (option ValidatorDuties)) :=
  <[period := init_members indices (default ∅ (m !! period))]> m.

(** The proofs that make a validator an aggregator, added to those of its subnets. *)
Definition add_aggregator (slot : Slot) (d : ValidatorDuties)
  (m : gmap Z (list (Z * PublicKeyBytes * BlsSignature))) (subnet_id : Z)
  : gmap Z (list (Z * PublicKeyBytes * BlsSignature)) :=
  match proofs d !! (slot, subnet_id) with
  | Some proof =>
      <[subnet_id := default [] (m !! subnet_id) ++
          [(sync_index (sync_duty d), sync_pubkey (sync_duty d), proof)]]> m
  | None => m
  end.

(** Members whose subnets can be computed. *)
Definition with_subnets (d : option ValidatorDuties) : option (ValidatorDuties * list Z) :=
  d ≫= (fun d => (fun ids => (d, ids)) <$> subnet_ids (sync_duty d)).

Definition get_duties_for_slot `{EthSpec} (m : gmap Z (gmap Z (option ValidatorDuties)))
  (wall_clock_slot : Slot) : option SlotDuties :=
  period ← sync_committee_period (slot_epoch (saturating_add wall_clock_slot 1));
  vs ← m !! period;
  let ds := omap (fun x => with_subnets x.2) (map_to_list vs) in
  Some (mkSlotDuties (map (fun x => sync_duty x.1) ds)
    (foldl (fun agg x => foldl (add_aggregator wall_clock_slot x.1) agg x.2) ∅ ds)).

Definition prune_committees (period : Z) (m : gmap Z (gmap Z (option ValidatorDuties)))
  : gmap Z (gmap Z (option ValidatorDuties)) :=
  filter (fun x => period <= x.1) m.

Definition new_validator_duties (d : SyncDuty) : ValidatorDuties := mkValidatorDuties d None ∅.

(** Whether a downloaded duty replaces what is known. *)
Definition is_updated (existing : option ValidatorDuties) (d : SyncDuty) : bool :=
  match existing with
  | None => true
  | Some known => bool_decide (sync_committee_indices (sync_duty known) <> sync_committee_indices d)
  end.

(** The downloaded duties one after the other, up to the first of a validator that is not
    among the members, whose index is returned. *)
Fixpoint store_sync_duties (l : list SyncDuty) (vs : gmap Z (option ValidatorDuties))
  : gmap Z (option ValidatorDuties) * option Z :=
  match l with
  | [] => (vs, None)
  | d :: l =>
      match vs !! sync_index d with
      | None => (vs, Some (sync_index d))
      | Some existing =>
          store_sync_duties l
            (if is_updated existing d
             then <[sync_index d := Some (new_validator_duties d)]> vs else vs)
      end
  end.

(** The proofs of an epoch, added to those of the members. *)
Definition store_proofs (vs : gmap Z (option ValidatorDuties))
  (x : Z * list (Slot * Z * BlsSignature)) : gmap Z (option ValidatorDuties) :=
  match vs !! x.1 with
  | Some (Some d) =>
      <[x.1 := Some (mkValidatorDuties (sync_duty d) (pre_compute_epoch d)
                       (foldl (fun m p => <[p.1 := p.2]> m) (proofs d) x.2))]> vs
  | _ => vs
  end.
End sync_duties_map.

Section polls.
Context `{Eth2Keystore} `{Bincode} `{!SigCodec} `{MempoolCodec} `{Rocksdb Digest bytes}.
Context `{EthSpec} `{SlashingDatabase} `{!ServiceTypes}.
Context {N : Type} `{!BeaconNodeHttpClient (services N)} `{!BeaconApi N}.

Definition sync (s : nodes (services N)) : sync_state := sync_duties (outside s).

Definition set_sync (x : sync_state) (s : nodes (services N)) : nodes (services N) :=
  mkNodes (statuses s)
    (mkServices (the_store s) (attesters_map (outside s)) (proposers_map (outside s)) x
       (registration_cache (outside s)) (net (outside s))).

Definition set_committees (m : gmap Z (gmap Z (option ValidatorDuties)))
  (s : nodes (services N)) : nodes (services N) :=
  set_sync (mkSyncState m (jobs (sync s)) (first_subscription_done (sync s))) s.

(** ** Polls *)

(** The indices of the local validators, of those under doppelganger protection too. *)
Definition local_sync_indices (s : nodes (services N)) : list Z :=
  omap (index_of (the_store s)) (elements (local_pubkeys s)).

Definition poll_sync_committee_duties_for_period (self : DutiesService) (local_indices : list Z)
  (period : Z) : prog (nodes (services N)) DutiesError () :=
  match local_indices with
  | [] => mret ()
  | _ =>
      r ← caught (first_success (require_synced self) OfflineOnFailure.Yes
            (fun c => post_validator_duties_sync c
                        (saturating_mul epochs_per_sync_committee_period period) local_indices)
            (duties_nodes self));
      match r with
      | inl _ => mret ()
      | inr duties =>
          m ← gets (fun s =>
            get_or_create_committee_duties period local_indices (committees (sync s)));
          let '(vs, unknown) := store_sync_duties duties (default ∅ (m !! period)) in
          modify (set_committees (<[period := vs]> m));;
          match unknown with
          | Some index => fail (SyncDutiesNotFound index)
          | None => mret ()
          end
      end
  end.

(** The preparation for a period, and the task that is spawned when there is work. *)
Definition pre_compute (period : Z) (current_epoch : Epoch) (x : sync_state) : sync_state :=
  let '(epoch, duties, m) :=
    prepare_for_aggregator_pre_compute period current_epoch (committees x) in
  mkSyncState m
    (match duties with
     | [] => jobs x
     | _ => jobs x ++ [mkProofJob duties period current_epoch epoch]
     end) (first_subscription_done x).

(** The downloads for a period that is not known. *)
Definition poll_unknown (self : DutiesService) (local_indices : list Z) (period current_period : Z)
  : prog (nodes (services N)) DutiesError () :=
  known ← gets (fun s => all_duties_known (committees (sync s)) period local_indices);
  if known : bool then mret ()
  else
    poll_sync_committee_duties_for_period self local_indices period;;
    modify (fun s => set_committees (prune_committees current_period (committees (sync s))) s).

(** [x?] on the result of safe arithmetic. *)
Definition safe_arith {A} (o : option A) : prog (nodes (services N)) DutiesError A :=
  match o with Some a => mret a | None => fail Arith end.

Definition poll_sync_committee_duties (self : DutiesService)
  : prog (nodes (services N)) DutiesError () :=
  clock ← gets now;
  match clock with
  | None => fail UnableToReadSlotClock
  | Some slot =>
      let current_epoch := slot_epoch slot in
      if match altair_fork_epoch (duties_spec self) with
         | None => true
         | Some altair_epoch => current_epoch <? altair_epoch
         end
      then mret ()
      else
        current_period ← safe_arith (sync_committee_period current_epoch);
        let next_period := u64 (current_period + 1) in
        local_indices ← gets local_sync_indices;
        poll_unknown self local_indices current_period current_period;;
        modify (fun s => set_sync (pre_compute current_period current_epoch (sync s)) s);;
        (if epoch_offset <=? current_epoch mod epochs_per_sync_committee_period
         then poll_unknown self local_indices next_period current_period
         else mret ());;
        ahead ← safe_arith (sync_committee_period
          (saturating_add current_epoch AGGREGATION_PRE_COMPUTE_EPOCHS));
        if ahead =? next_period
        then modify (fun s => set_sync (pre_compute next_period current_epoch (sync s)) s)
        else mret ()
  end.

(** ** Selection proofs *)

(** The future of a slot and a subnet. *)
Definition sync_selection_proof (d : SyncDuty) (x : Slot * Z)
  : prog (nodes (services N)) () (option (Slot * Z * BlsSignature)) :=
  let slot := saturating_sub x.1 1 in
  r ← caught (sign_with (fun v env =>
        produce_sync_selection_proof v (sync_pubkey d) slot (sync_selection_message slot x.2) env));
  mret (match r with
        | inr proof =>
            match is_sync_aggregator proof with
            | Some true => Some (slot, x.2, proof)
            | _ => None
            end
        | inl _ => None
        end).

Fixpoint sync_selection_proofs (d : SyncDuty) (l : list (Slot * Z))
  : prog (nodes (services N)) () (list (Slot * Z * BlsSignature)) :=
  match l with
  | [] => mret []
  | x :: l =>
      p ← sync_selection_proof d x;
      rest ← sync_selection_proofs d l;
      mret (match p with Some p => p :: rest | None => rest end)
  end.

Definition slots_and_subnets (epoch : Epoch) (ids : list Z) : list (Slot * Z) :=
  duty_slot ← slot_iter epoch; map (pair duty_slot) ids.

(** The proofs of an epoch, by validator. *)
Fixpoint epoch_proofs (epoch : Epoch) (l : list (Epoch * SyncDuty))
  : prog (nodes (services N)) () (list (Z * list (Slot * Z * BlsSignature))) :=
  match l with
  | [] => mret []
  | (start, d) :: l =>
      if epoch <? start then epoch_proofs epoch l
      else
        match subnet_ids d with
        | None => epoch_proofs epoch l
        | Some ids =>
            ps ← sync_selection_proofs d (slots_and_subnets epoch ids);
            rest ← epoch_proofs epoch l;
            mret ((sync_index d, ps) :: rest)
        end
  end.

Definition add_proofs (period : Z) (ps : list (Z * list (Slot * Z * BlsSignature)))
  (m : gmap Z (gmap Z (option ValidatorDuties))) : gmap Z (gmap Z (option ValidatorDuties)) :=
  alter (fun vs => foldl store_proofs vs ps) period m.

Fixpoint fill_in_epochs (l : list (Epoch * SyncDuty)) (period : Z) (epochs : list Epoch)
  : prog (nodes (services N)) () () :=
  match epochs with
  | [] => mret ()
  | epoch :: epochs =>
      ps ← epoch_proofs epoch l;
      modify (fun s => set_committees (add_proofs period ps (committees (sync s))) s);;
      fill_in_epochs l period epochs
  end.

Definition fill_in_aggregation_proofs (j : proof_job) : prog (nodes (services N)) () () :=
  fill_in_epochs (job_duties j) (job_period j)
    (seqZ (job_current j) (job_last j - job_current j + 1)).
End polls.

(** ** The members *)

Section members.
Context `{ServiceTypes}.

Definition member (m : gmap Z (gmap Z (option ValidatorDuties))) (period index : Z)
  : option ValidatorDuties :=
  match m !! period with
  | Some vs => match vs !! index with Some (Some d) => Some d | _ => None end
  | None => None
  end.

(** The duties are kept under the index of their validator. *)
Definition keyed (m : gmap Z (gmap Z (option ValidatorDuties))) : Prop :=
  forall period index d, member m period index = Some d -> sync_index (sync_duty d) = index.

Lemma member_prepared period c m p i :
  member (prepare_for_aggregator_pre_compute period c m).2 p i =
  if decide (p = period) then
    (fun d => snd (prepare_member (default_start_epoch period c)
                     (last_pre_compute_epoch period c) d)) <$> member m p i
  else member m p i.
Proof.
  unfold member, prepare_for_aggregator_pre_compute. cbn. destruct (decide (p = period)) as [->|Hp].
  - rewrite lookup_alter_eq. destruct (m !! period) as [vs|]; [|done]. cbn.
    rewrite lookup_fmap. by destruct (vs !! i) as [[d|]|].
  - by rewrite lookup_alter_ne.
Qed.

Lemma keyed_prepared period c m :
  keyed m -> keyed (prepare_for_aggregator_pre_compute period c m).2.
Proof.
  intros Hm p i d. rewrite member_prepared. destruct (decide (p = period)); [|apply Hm].
  destruct (member m p i) as [d'|] eqn:Hd; [|done]. intros [= <-].
  exact (Hm p i d' Hd).
Qed.

(** Proofs that are added change nothing else. *)
Definition duty_and_epoch (d : ValidatorDuties) : SyncDuty * option Epoch :=
  (sync_duty d, pre_compute_epoch d).

Lemma store_proofs_keeps vs x i :
  (fmap duty_and_epoch) <$> store_proofs vs x !! i = (fmap duty_and_epoch) <$> vs !! i.
Proof.
  unfold store_proofs. destruct (vs !! x.1) as [[d|]|] eqn:Hx; [|done..].
  destruct (decide (i = x.1)) as [->|Hi]; [by rewrite lookup_insert_eq, Hx|].
  by rewrite lookup_insert_ne.
Qed.

Lemma all_proofs_keep ps vs i :
  (fmap duty_and_epoch) <$> foldl store_proofs vs ps !! i = (fmap duty_and_epoch) <$> vs !! i.
Proof.
  revert vs. induction ps as [|x ps IH]; intros vs; [done|]. cbn. by rewrite IH, store_proofs_keeps.
Qed.

Lemma member_add_proofs period ps m p i :
  duty_and_epoch <$> member (add_proofs period ps m) p i = duty_and_epoch <$> member m p i.
Proof.
  unfold member, add_proofs. destruct (decide (p = period)) as [->|Hp].
  - rewrite lookup_alter_eq. destruct (m !! period) as [vs|]; [|done]. cbn.
    pose proof (all_proofs_keep ps vs i) as Hi.
    destruct (foldl store_proofs vs ps !! i) as [[d|]|], (vs !! i) as [[d'|]|]; cbn in *;
      congruence.
  - by rewrite lookup_alter_ne.
Qed.
End members.

(** The operations on the map keep the duties under their index. *)

Lemma keyed_add_proofs `{ServiceTypes} period ps m : keyed m -> keyed (add_proofs period ps m).
Proof.
  intros Hk p i d Hd. pose proof (member_add_proofs period ps m p i) as Heq. rewrite Hd in Heq.
  destruct (member m p i) as [d'|] eqn:Hd'; [|done]. apply Hk in Hd'.
  unfold duty_and_epoch in Heq. cbn in Heq. congruence.
Qed.

Lemma keyed_prune `{ServiceTypes} period m : keyed m -> keyed (prune_committees period m).
Proof.
  intros Hk p i d. unfold member, prune_committees. rewrite map_lookup_filter.
  specialize (Hk p i d). unfold member in Hk. destruct (m !! p) as [vs|]; [|done]. cbn.
  by case_guard.
Qed.

(** The members of one committee. *)
Definition members_keyed `{ServiceTypes} (vs : gmap Z (option ValidatorDuties)) : Prop :=
  forall index d, vs !! index = Some (Some d) -> sync_index (sync_duty d) = index.

Lemma keyed_insert `{ServiceTypes} m p vs : keyed m -> members_keyed vs -> keyed (<[p := vs]> m).
Proof.
  intros Hk Hvs p' i d. unfold member. destruct (decide (p' = p)) as [->|Hp].
  - rewrite lookup_insert_eq. destruct (vs !! i) as [[d'|]|] eqn:Hi; [|done..].
    intros [= <-]. by apply Hvs.
  - rewrite lookup_insert_ne by done. apply Hk.
Qed.

Lemma keyed_members `{ServiceTypes} m p : keyed m -> members_keyed (default ∅ (m !! p)).
Proof.
  intros Hk i d Hd. apply (Hk p). unfold member. destruct (m !! p) as [vs|]; [|done].
  cbn in Hd. by rewrite Hd.
Qed.

Lemma keyed_init `{ServiceTypes} indices vs :
  members_keyed vs -> members_keyed (init_members indices vs).
Proof.
  unfold init_members. revert vs. induction indices as [|j indices IH]; intros vs Hvs; [done|].
  cbn. apply IH. destruct (vs !! j); [done|]. intros i d Hd.
  apply lookup_insert_Some in Hd as [[_ ?]|[_ Hd]]; [done|by apply Hvs].
Qed.

Lemma keyed_stored `{ServiceTypes} l vs :
  members_keyed vs -> members_keyed (store_sync_duties l vs).1.
Proof.
  revert vs. induction l as [|d l IH]; intros vs Hvs; [done|]. cbn.
  destruct (vs !! sync_index d) as [o|]; [|done]. apply IH. destruct (is_updated o d); [|done].
  intros i d' Hd. apply lookup_insert_Some in Hd as [[<- [= <-]]|[_ Hd]]; [done|by apply Hvs].
Qed.

Lemma keyed_download `{ServiceTypes} p indices l m :
  keyed m ->
  keyed (<[p := (store_sync_duties l (default ∅
    (get_or_create_committee_duties p indices m !! p))).1]>
    (get_or_create_committee_duties p indices m)).
Proof.
  intros Hk. unfold get_or_create_committee_duties. rewrite lookup_insert_eq. cbn.
  pose proof (keyed_init indices _ (keyed_members m p Hk)).
  apply keyed_insert; [by apply keyed_insert|by apply keyed_stored].
Qed.

(** ** Which proofs are asked for *)

(** Laws of the periods: those of [Epoch::sync_committee_period], which divides. *)
Class SyncPeriods `{ServiceTypes} : Prop := {
  period_length : 2 <= epochs_per_sync_committee_period;
  period_of e : 0 <= e -> sync_committee_period e = Some (e / epochs_per_sync_committee_period)
}.

Section requested.
Context `{ServiceTypes} `{!SyncPeriods}.

(** A proof that a task asks for: the epoch in whose turn it does, the duty, the slot of
    the duty and the subnet. *)
Record ask := mkAsk {
  ask_epoch : Epoch;
  ask_duty : SyncDuty;
  ask_slot : Slot;
  ask_subnet : Z
}.

(** The proofs of a member for an epoch: one for every slot and subnet. *)
Definition epoch_asks (e : Epoch) (d : SyncDuty) : list ask :=
  map (fun x => mkAsk e d x.1 x.2) (slots_and_subnets e (default [] (subnet_ids d))).

(** All that a task asks for, in its order. *)
Definition asks (j : proof_job) : list ask :=
  e ← seqZ (job_current j) (job_last j - job_current j + 1);
  x ← filter (fun x => x.1 <= e) (job_duties j);
  epoch_asks e x.2.

(** What the tasks for a period ask for a validator in the turn of an epoch. *)
Definition proof_requests (js : list proof_job) (period index : Z) (e : Epoch) : list ask :=
  filter (fun a => ask_epoch a = e /\ sync_index (ask_duty a) = index)
    (filter (fun j => job_period j = period) js ≫= asks).

Lemma epoch_asks_filter e' index e d :
  filter (fun a => ask_epoch a = e /\ sync_index (ask_duty a) = index) (epoch_asks e' d) =
  if bool_decide (e' = e /\ sync_index d = index) then epoch_asks e' d else [].
Proof using.
  unfold epoch_asks. induction (slots_and_subnets _ _) as [|x l IH]; [by case_bool_decide|].
  cbn [map]. rewrite filter_cons. cbn [ask_epoch ask_duty]. rewrite IH.
  case_bool_decide as Hb; [by rewrite decide_True|by rewrite decide_False].
Qed.

Lemma duties_asks_filter e' (P : Epoch * SyncDuty -> Prop) `{!forall x, Decision (P x)} index e l :
  filter (fun a => ask_epoch a = e /\ sync_index (ask_duty a) = index)
    (x ← filter P l; epoch_asks e' x.2) =
  if bool_decide (e' = e)
  then x ← filter (fun x => P x /\ sync_index x.2 = index) l; epoch_asks e x.2 else [].
Proof using.
  induction l as [|x l IH]; [by case_bool_decide|]. rewrite !filter_cons.
  destruct (decide (P x)) as [HP|HP].
  - rewrite bind_cons, filter_app, IH, epoch_asks_filter.
    destruct (decide (e' = e)) as [->|He].
    + rewrite (bool_decide_eq_true_2 (e = e)) by done.
      destruct (decide (sync_index x.2 = index)).
      * by rewrite bool_decide_eq_true_2, decide_True, bind_cons by done.
      * rewrite bool_decide_eq_false_2 by tauto. by rewrite decide_False by tauto.
    + by rewrite !bool_decide_eq_false_2 by tauto.
  - rewrite IH. by rewrite (decide_False (P:=P x /\ _)) by tauto.
Qed.

Lemma epochs_asks_filter l duties index e :
  NoDup l ->
  filter (fun a => ask_epoch a = e /\ sync_index (ask_duty a) = index)
    (e' ← l; x ← filter (fun x => x.1 <= e') duties; epoch_asks e' x.2) =
  if bool_decide (e ∈ l)
  then x ← filter (fun x => x.1 <= e /\ sync_index x.2 = index) duties; epoch_asks e x.2
  else [].
Proof using.
  induction 1 as [|e' l He' Hl IH]; [done|].
  rewrite bind_cons, filter_app, IH, duties_asks_filter.
  destruct (decide (e' = e)) as [->|He].
  - rewrite (bool_decide_eq_true_2 (e = e)), (bool_decide_eq_false_2 (e ∈ l)) by done.
    by rewrite bool_decide_eq_true_2, app_nil_r by apply list_elem_of_here.
  - rewrite (bool_decide_eq_false_2 (e' = e)) by done. cbn [app].
    rewrite (bool_decide_ext (e ∈ e' :: l) (e ∈ l)); [done|].
    rewrite elem_of_cons. intuition congruence.
Qed.

Lemma asks_filter j index e :
  filter (fun a => ask_epoch a = e /\ sync_index (ask_duty a) = index) (asks j) =
  if bool_decide (job_current j <= e <= job_last j)
  then x ← filter (fun x => x.1 <= e /\ sync_index x.2 = index) (job_duties j); epoch_asks e x.2
  else [].
Proof using.
  unfold asks. rewrite epochs_asks_filter by apply NoDup_seqZ.
  rewrite (bool_decide_ext _ (job_current j <= e <= job_last j)); [done|].
  rewrite elem_of_seqZ. lia.
Qed.

(** The length of a period. *)
Definition plen : Z := epochs_per_sync_committee_period.

(** Epochs far enough from the end of their type. *)
Definition in_range (e : Epoch) : Prop := 0 <= e /\ e + 2 * plen + 2 <= u64_max.

Lemma period_bounds c p :
  in_range c -> p = c / plen \/ p = c / plen + 1 ->
  u64 (c / plen + 1) = c / plen + 1 /\
  first_epoch_of_period p = plen * p /\ last_epoch_of_period p = plen * (p + 1) - 1.
Proof.
  intros [Hc0 Hmax] Hp. pose proof period_length as Hn. fold plen in Hn.
  pose proof (Z.div_mod c plen ltac:(lia)) as Hc.
  pose proof (Z.mod_pos_bound c plen ltac:(lia)) as Hr.
  assert (0 <= c / plen) as Hq by (apply Z.div_pos; lia).
  assert (c / plen <= c) as Hle by (apply Z.div_le_upper_bound; nia).
  unfold last_epoch_of_period, first_epoch_of_period, saturating_mul, saturating_sub. fold plen.
  rewrite !u64_id by (unfold is_u64; destruct Hp as [->| ->]; lia).
  split; [done|]. destruct Hp as [->| ->]; nia.
Qed.

(** What a preparation asks for is decided by the member itself. *)
Lemma prepared_requests p c m i e :
  keyed m ->
  filter (fun x => x.1 <= e /\ sync_index x.2 = i)
    (prepare_for_aggregator_pre_compute p c m).1.2 ≡ₚ
  match member m p i with
  | Some d =>
      match fst (prepare_member (default_start_epoch p c) (last_pre_compute_epoch p c) d) with
      | Some (start, d') => if bool_decide (start <= e) then [(start, d')] else []
      | None => []
      end
  | None => []
  end.
Proof using.
  intros Hk. unfold prepare_for_aggregator_pre_compute, member. cbn [fst snd].
  destruct (m !! p) as [vs|] eqn:Hp; [|done].
  set (prepare := prepare_member (default_start_epoch p c) (last_pre_compute_epoch p c)).
  set (f := fun x : Z * option ValidatorDuties => x.2 ≫= (fun d => fst (prepare d))).
  assert (forall j o, vs !! j = Some o -> forall x, f (j, o) = Some x -> sync_index x.2 = j) as Hf.
  { intros j [d|] Hj x Hx; [|done].
    assert (sync_index (sync_duty d) = j) as <-.
    { apply (Hk p). unfold member. by rewrite Hp, Hj. }
    unfold f, prepare, prepare_member in Hx. cbn in Hx.
    destruct (pre_compute_epoch d) as [q|]; [destruct (_ <? _)|]; by simplify_eq/=. }
  assert (forall l : list (Z * option ValidatorDuties),
    (forall j o, (j, o) ∈ l -> vs !! j = Some o /\ j <> i) ->
    filter (fun x => x.1 <= e /\ sync_index x.2 = i) (omap f l) = []) as Hrest.
  { induction l as [|[j o] l IH]; intros Hl; [done|]. cbn [omap list_omap].
    assert (filter (fun x => x.1 <= e /\ sync_index x.2 = i) (omap f l) = []) as Hz.
    { apply IH. intros j' o' Hin. apply Hl. by apply list_elem_of_further. }
    destruct (Hl j o) as [Hj Hi]; [apply list_elem_of_here|].
    destruct (f (j, o)) as [x|] eqn:Hx; [|exact Hz]. rewrite filter_cons_False; [exact Hz|].
    intros [_ Hxi]. apply Hi. by rewrite <- (Hf j o Hj x Hx). }
  destruct (vs !! i) as [o|] eqn:Hi.
  - rewrite <- (insert_delete_id vs i o Hi), map_to_list_insert by apply lookup_delete_eq.
    cbn [omap list_omap].
    assert (filter (fun x => x.1 <= e /\ sync_index x.2 = i)
      (omap f (map_to_list (delete i vs))) = []) as Hz.
    { apply Hrest. intros j o' Hj%elem_of_map_to_list.
      by apply lookup_delete_Some in Hj as [? ?]. }
    destruct o as [d|]; [|cbn; by rewrite Hz]. change (f (i, Some d)) with (fst (prepare d)).
    destruct (fst (prepare d)) as [[start d']|] eqn:Hd; [|by rewrite Hz].
    pose proof (Hf i (Some d) Hi (start, d') Hd) as Hin. cbn in Hin.
    case_bool_decide as Hs.
    + by rewrite filter_cons_True, Hz by done.
    + rewrite filter_cons_False; [by rewrite Hz|]. by intros [? _].
  - rewrite Hrest; [done|]. intros j o Hj%elem_of_map_to_list. split; [done|]. intros ->. congruence.
Qed.

(** The same, as what a task asks for. *)
Lemma prepared_asks p c m i e :
  keyed m -> 
  (x ← filter (fun x => x.1 <= e /\ sync_index x.2 = i)
    (prepare_for_aggregator_pre_compute p c m).1.2; epoch_asks e x.2) =
  match member m p i with
  | Some d =>
      match fst (prepare_member (default_start_epoch p c) (last_pre_compute_epoch p c) d) with
      | Some (start, _) => if bool_decide (start <= e) then epoch_asks e (sync_duty d) else []
      | None => []
      end
  | None => []
  end.
Proof using.
  intros Hk. pose proof (prepared_requests p c m i e Hk) as Hperm.
  destruct (member m p i) as [d|]; [|by apply Permutation_nil_r in Hperm as ->].
  unfold prepare_member in *. cbn [fst] in *.
  assert (forall start : Epoch, (if bool_decide (start <= e) then epoch_asks e (sync_duty d) else []) =
    (x ← if bool_decide (start <= e) then [(start, sync_duty d)] else []; epoch_asks e x.2)) as Hone.
  { intros start. case_bool_decide; cbn; [by rewrite app_nil_r|done]. }
  destruct (pre_compute_epoch d) as [q|]; [destruct (q <? _)|]; rewrite ?Hone; clear Hone;
    repeat case_bool_decide;
    solve [by apply Permutation_singleton_r in Hperm as -> | by apply Permutation_nil_r in Hperm as ->].
Qed.

(** An epoch is in the reach of a poll from the poll's own epoch on, up to two epochs
    later. *)
Definition in_reach (es : list Epoch) (e : Epoch) : Prop :=
  Exists (fun c => c <= e <= c + AGGREGATION_PRE_COMPUTE_EPOCHS) es.

#[global] Instance in_reach_dec es e : Decision (in_reach es e).
Proof. apply _. Defined.

(** What the record of a member says after polls at the epochs [es]. *)
Definition follows (es : list Epoch) (prev : option Epoch) (e : Epoch) : Prop :=
  (forall c, c ∈ es -> c <= e) -> (in_reach es e <-> exists q, prev = Some q /\ e <= q).

Lemma in_reach_app es c e :
  in_reach (es ++ [c]) e <-> in_reach es e \/ c <= e <= c + AGGREGATION_PRE_COMPUTE_EPOCHS.
Proof. unfold in_reach. rewrite Exists_app, Exists_cons, Exists_nil. tauto. Qed.

Lemma in_reach_later es e c :
  (forall c', c' ∈ es -> c' <= c) -> c <= e -> in_reach es e -> e <= c + 2.
Proof.
  intros Hes Hc (c' & Hin & Hr)%Exists_exists. apply Hes in Hin.
  unfold AGGREGATION_PRE_COMPUTE_EPOCHS in Hr. lia.
Qed.

(** The record of a member after a poll that prepares its period; [e] is an epoch of the
    period that is not over. *)
Lemma follows_prepared es p c d e :
  in_range c -> p = c / plen \/ p = c / plen + 1 -> e / plen = p ->
  (forall c', c' ∈ es -> c' <= c) ->
  follows (es ++ [c]) (pre_compute_epoch (snd (prepare_member (default_start_epoch p c)
    (last_pre_compute_epoch p c) d))) e.
Proof.
  intros Hc Hp He Hes Hlast. cbn. pose proof period_length as Hn. fold plen in Hn.
  destruct (period_bounds c p Hc Hp) as (_ & _ & Hl). destruct Hc as [Hc0 Hcm].
  assert (c <= e) as Hce by (apply Hlast, elem_of_app; right; apply list_elem_of_here).
  unfold last_pre_compute_epoch. rewrite Hl.
  unfold saturating_add, AGGREGATION_PRE_COMPUTE_EPOCHS.
  pose proof (Z.div_mod e plen ltac:(lia)). pose proof (Z.mod_pos_bound e plen ltac:(lia)).
  assert (e <= plen * (p + 1) - 1) by (subst p; lia).
  rewrite in_reach_app. unfold AGGREGATION_PRE_COMPUTE_EPOCHS. split.
  - intros Hr. eexists. split; [done|].
    destruct Hr as [Hr|Hr]; [apply (in_reach_later es e c Hes Hce) in Hr|]; lia.
  - intros (q & [= <-] & Hq). right. lia.
Qed.

(** What a poll that prepares the period asks for. *)
Lemma asked_when_prepared es p c d e :
  in_range c -> p = c / plen \/ p = c / plen + 1 -> e / plen = p ->
  (forall c', c' ∈ es -> c' <= c) -> follows es (pre_compute_epoch d) e ->
  c <= e <= last_pre_compute_epoch p c ->
  match fst (prepare_member (default_start_epoch p c) (last_pre_compute_epoch p c) d) with
  | Some (start, _) => if bool_decide (start <= e) then epoch_asks e (sync_duty d) else []
  | None => []
  end = if decide (in_reach es e) then [] else epoch_asks e (sync_duty d).
Proof.
  intros Hc Hp He Hes Hf Hr. pose proof period_length as Hn. fold plen in Hn.
  destruct (period_bounds c p Hc Hp) as (_ & Hfirst & Hl). destruct Hc as [Hc0 Hcm].
  specialize (Hf ltac:(intros c' Hc'%Hes; lia)).
  pose proof (Z.div_mod e plen ltac:(lia)). pose proof (Z.mod_pos_bound e plen ltac:(lia)).
  assert (plen * p <= e) by (subst p; lia).
  cbn. destruct (pre_compute_epoch d) as [q|]; cbn.
  - destruct (decide (in_reach es e)) as [Hin|Hin].
    + apply Hf in Hin as (q' & [= <-] & Hq).
      destruct (Z.ltb_spec q (last_pre_compute_epoch p c)); [|done].
      rewrite bool_decide_eq_false_2; [done|].
      unfold last_pre_compute_epoch, saturating_add, AGGREGATION_PRE_COMPUTE_EPOCHS in *. lia.
    + assert (q < e) as Hq.
      { destruct (decide (q < e)); [done|]. destruct Hin. apply Hf. exists q. split; [done|lia]. }
      destruct (Z.ltb_spec q (last_pre_compute_epoch p c)); [|lia].
      rewrite bool_decide_eq_true_2; [done|]. unfold saturating_add. lia.
  - destruct (decide (in_reach es e)) as [Hin|Hin]; [by apply Hf in Hin as (q & ? & _)|].
    rewrite bool_decide_eq_true_2; [done|]. unfold default_start_epoch. lia.
Qed.

(** The task that a preparation spawns. *)
Lemma pre_compute_jobs q c x :
  exists new, jobs (pre_compute q c x) = jobs x ++ new /\
    forall p i e, proof_requests new p i e =
      if bool_decide (q = p /\ c <= e <= last_pre_compute_epoch q c)
      then x ← filter (fun x => x.1 <= e /\ sync_index x.2 = i)
             (prepare_for_aggregator_pre_compute q c (committees x)).1.2; epoch_asks e x.2
      else [].
Proof.
  unfold pre_compute, prepare_for_aggregator_pre_compute. cbn [fst snd].
  destruct (match committees x !! q with None => [] | Some vs => _ end) as [|y l]; cbn [jobs].
  - exists []. rewrite app_nil_r. split; [done|]. intros p i e. by case_bool_decide.
  - eexists [_]. split; [done|]. intros p i e. unfold proof_requests. rewrite filter_cons.
    cbn [job_period]. destruct (decide (q = p)) as [Hq|Hq].
    + rewrite filter_nil, bind_cons. change ([] ≫= asks) with (@nil ask).
      rewrite app_nil_r, asks_filter.
      cbn [job_current job_last job_duties].
      by rewrite (bool_decide_ext (q = p /\ _) (c <= e <= last_pre_compute_epoch q c)) by tauto.
    + by rewrite bool_decide_eq_false_2 by tauto.
Qed.

Lemma pre_compute_committees q c x :
  committees (pre_compute q c x) = (prepare_for_aggregator_pre_compute q c (committees x)).2.
Proof. done. Qed.

Lemma proof_requests_app js js' p i e :
  proof_requests (js ++ js') p i e = proof_requests js p i e ++ proof_requests js' p i e.
Proof. unfold proof_requests. by rewrite filter_app, bind_app, filter_app. Qed.

(** Since the tasks [js], the proofs of a member of the committee of period [p] were asked
    for as polls at the epochs [es] require. *)
Definition asked_for (p i : Z) (duty : SyncDuty) (js : list proof_job) (es : list Epoch)
  (x : sync_state) : Prop :=
  keyed (committees x) /\
  exists new d, jobs x = js ++ new /\
    member (committees x) p i = Some d /\ sync_duty d = duty /\
    forall e, e / plen = p ->
      proof_requests new p i e = (if decide (in_reach es e) then epoch_asks e duty else []) /\
      follows es (pre_compute_epoch d) e.

Lemma asked_prepared p i duty js es c x :
  in_range c -> p = c / plen \/ p = c / plen + 1 -> (forall c', c' ∈ es -> c' <= c) ->
  asked_for p i duty js es x -> asked_for p i duty js (es ++ [c]) (pre_compute p c x).
Proof.
  intros Hc Hp Hes (Hk & new & d & Hjs & Hd & Hduty & He).
  split; [rewrite pre_compute_committees; by apply keyed_prepared|].
  destruct (pre_compute_jobs p c x) as (more & Hmore & Hasks).
  eexists (new ++ more), _. split; [by rewrite Hmore, Hjs, app_assoc|].
  split; [by rewrite pre_compute_committees, member_prepared, decide_True, Hd|].
  split; [done|]. intros e Hep. destruct (He e Hep) as [Hcount Hf].
  split; [|by apply follows_prepared].
  rewrite proof_requests_app, Hcount, Hasks, prepared_asks, Hd by done.
  assert (c <= e <= last_pre_compute_epoch p c <-> c <= e <= c + AGGREGATION_PRE_COMPUTE_EPOCHS)
    as Hreach.
  { pose proof period_length as Hn. fold plen in Hn.
    destruct (period_bounds c p Hc Hp) as (_ & _ & Hl). destruct Hc as [Hc0 Hcm].
    pose proof (Z.div_mod e plen ltac:(lia)). pose proof (Z.mod_pos_bound e plen ltac:(lia)).
    assert (e <= plen * (p + 1) - 1) by (subst p; lia).
    unfold last_pre_compute_epoch, saturating_add, AGGREGATION_PRE_COMPUTE_EPOCHS. lia. }
  destruct (decide (c <= e <= last_pre_compute_epoch p c)) as [Hce|Hce].
  - rewrite bool_decide_eq_true_2, (asked_when_prepared es), Hduty by done.
    rewrite (decide_True (P:=in_reach (es ++ [c]) e)) by (apply in_reach_app; tauto).
    destruct (decide (in_reach es e)); [by rewrite app_nil_r|done].
  - rewrite bool_decide_eq_false_2 by (by intros [_ ?]). rewrite app_nil_r.
    apply decide_ext. rewrite in_reach_app. tauto.
Qed.

(** A preparation of another period. *)
Lemma asked_elsewhere p i duty js es q c x :
  q <> p -> asked_for p i duty js es x -> asked_for p i duty js es (pre_compute q c x).
Proof.
  intros Hq (Hk & new & d & Hjs & Hd & Hduty & He).
  split; [rewrite pre_compute_committees; by apply keyed_prepared|].
  destruct (pre_compute_jobs q c x) as (more & Hmore & Hasks).
  exists (new ++ more), d. split; [by rewrite Hmore, Hjs, app_assoc|].
  split; [by rewrite pre_compute_committees, member_prepared, decide_False|].
  split; [done|]. intros e Hep. destruct (He e Hep) as [Hcount Hf]. split; [|done].
  rewrite proof_requests_app, Hcount, Hasks.
  rewrite bool_decide_eq_false_2 by (by intros [? _]). apply app_nil_r.
Qed.

(** A poll at an epoch whose reach ends before the period, or that comes after it. *)
Lemma asked_out_of_reach p i duty js es c x :
  (forall c', c' ∈ es -> c' <= c) ->
  (forall e, e / plen = p -> ~ c <= e <= c + AGGREGATION_PRE_COMPUTE_EPOCHS) ->
  asked_for p i duty js es x -> asked_for p i duty js (es ++ [c]) x.
Proof.
  intros Hes Hc (Hk & new & d & Hjs & Hd & Hduty & He). split; [done|]. exists new, d.
  split; [done|]. split; [done|]. split; [done|].
  intros e Hep. destruct (He e Hep) as [Hcount Hf].
  assert (in_reach (es ++ [c]) e <-> in_reach es e) as Hr.
  { rewrite in_reach_app. specialize (Hc e Hep). tauto. }
  split; [rewrite Hcount; by apply decide_ext|]. intros Hlast. rewrite Hr. apply Hf.
  intros c' Hc'. apply Hlast, elem_of_app. by left.
Qed.

(** Tasks that add proofs. *)
Lemma asked_add_proofs p i duty js es m ps latch x :
  asked_for p i duty js es x ->
  asked_for p i duty js es (mkSyncState (add_proofs m ps (committees x)) (jobs x) latch).
Proof.
  intros (Hk & new & d & Hjs & Hd & Hduty & He). split.
  - by apply keyed_add_proofs.
  - pose proof (member_add_proofs m ps (committees x) p i) as Heq. rewrite Hd in Heq.
    destruct (member (add_proofs m ps (committees x)) p i) as [d'|] eqn:Hd'; [|done].
    injection Heq as Hd1 Hpre. exists new, d'. split; [done|]. split; [done|].
    split; [by rewrite Hd1|]. intros e Hep. rewrite Hpre. by apply He.
Qed.
End requested.

(** ** What a task asks for *)

Section computed.
Context `{Eth2Keystore} `{Bincode} `{!SigCodec} `{MempoolCodec} `{Rocksdb Digest bytes}.
Context `{EthSpec} `{SlashingDatabase} `{!ServiceTypes}.
Context {N : Type} `{!BeaconNodeHttpClient (services N)} `{!BeaconApi N}.
Implicit Types s : nodes (services N).

(** The request to the validator store: the proof is one for the slot before. *)
Definition ask_proof (a : ask) : prog (nodes (services N)) StoreErrorV BlsSignature :=
  let slot := saturating_sub (ask_slot a) 1 in
  sign_with (fun v env => produce_sync_selection_proof v (sync_pubkey (ask_duty a)) slot
                            (sync_selection_message slot (ask_subnet a)) env).

(** From [s] to [s'], the proofs [l] are asked for, one request after the other; in
    between proofs are added to the members of the period, and nothing else happens. *)
Inductive asked (period : Z) : list ask -> nodes (services N) -> nodes (services N) -> Prop :=
| asked_nothing s : asked period [] s s
| asked_proof a l s s' :
    ask_slot a ∈ slot_iter (ask_epoch a) -> broken (fst (ask_proof a s)) = None ->
    asked period l (snd (ask_proof a s)) s' -> asked period (a :: l) s s'
| asked_added ps l s s' :
    asked period l (set_committees (add_proofs period ps (committees (sync s))) s) s' ->
    asked period l s s'.

(** [m] asks for the proofs [l]; only a request that does not return ends it early. *)
Definition performs {A} (period : Z) (m : prog (nodes (services N)) () A) (l : list ask) s : Prop :=
  let '(r, s') := m s in
  match broken r with
  | None => (exists a, r = Ok a) /\ asked period l s s'
  | Some k => exists l1 a l2 s1, l = l1 ++ a :: l2 /\ asked period l1 s s1 /\
      broken (fst (ask_proof a s1)) = Some k /\ s' = snd (ask_proof a s1)
  end.

Lemma asked_app period l l' s s1 s2 :
  asked period l s s1 -> asked period l' s1 s2 -> asked period (l ++ l') s s2.
Proof. induction 1; intros Hl'; [done|econstructor; eauto|eapply asked_added; eauto]. Qed.

Lemma performs_bind {A B} period (m : prog (nodes (services N)) () A)
  (k : A -> prog (nodes (services N)) () B) l l' s :
  performs period m l s -> (forall a s1, performs period (k a) l' s1) ->
  performs period (m ≫= k) (l ++ l') s.
Proof.
  unfold performs, mbind, prog_bind. intros Hm Hk.
  destruct (m s) as [[a|e|msg|] s1]; cbn [broken] in Hm |- *.
  - destruct Hm as [_ Hl]. specialize (Hk a s1). destruct (k a s1) as [r s2].
    destruct (broken r).
    + destruct Hk as (l1 & x & l2 & s3 & -> & Hl1 & Hb). exists (l ++ l1), x, l2, s3.
      rewrite app_assoc. split; [done|]. split; [by eapply asked_app|done].
    + destruct Hk as [Hr Hl']. split; [done|by eapply asked_app].
  - by destruct Hm as [[? ?] _].
  - destruct Hm as (l1 & x & l2 & s3 & -> & Hl1 & Hb). exists l1, x, (l2 ++ l'), s3.
    by rewrite <- app_assoc.
  - destruct Hm as (l1 & x & l2 & s3 & -> & Hl1 & Hb). exists l1, x, (l2 ++ l'), s3.
    by rewrite <- app_assoc.
Qed.

Lemma performs_ret {A} period (a : A) s : performs period (mret a) [] s.
Proof. split; [by exists a|constructor]. Qed.

Lemma performs_then {A B} period (m : prog (nodes (services N)) () A) (f : A -> B) l s :
  performs period m l s -> performs period (m ≫= (fun a => mret (f a))) l s.
Proof.
  intros Hm. rewrite <- (app_nil_r l). apply performs_bind; [done|].
  intros a s1. apply performs_ret.
Qed.

Lemma sync_selection_proof_asks period e d x s :
  x.1 ∈ slot_iter e -> performs period (sync_selection_proof d x) [mkAsk e d x.1 x.2] s.
Proof.
  intros Hx. apply performs_then. unfold performs, caught.
  change (sign_with _ s) with (ask_proof (mkAsk e d x.1 x.2) s).
  destruct (ask_proof (mkAsk e d x.1 x.2) s) as [[sig|err|msg|] s1] eqn:Hs.
  1, 2: split; [by eexists|apply asked_proof; [done|by rewrite Hs|rewrite Hs; constructor]].
  1, 2: exists [], (mkAsk e d x.1 x.2), [], s; rewrite Hs; split; [done|]; split; [constructor|done].
Qed.

Lemma sync_selection_proofs_ask period e d l s :
  (forall x, x ∈ l -> x.1 ∈ slot_iter e) ->
  performs period (sync_selection_proofs d l) (map (fun x => mkAsk e d x.1 x.2) l) s.
Proof.
  revert s. induction l as [|x l IH]; intros s Hl; [apply performs_ret|].
  cbn [sync_selection_proofs map].
  apply (performs_bind _ _ _ [_]).
  { apply sync_selection_proof_asks, Hl, list_elem_of_here. }
  intros p s1. apply performs_then, IH. intros y Hy. by apply Hl, list_elem_of_further.
Qed.

Lemma epoch_asks_none e d : subnet_ids d = None -> epoch_asks e d = [].
Proof.
  intros Hd. unfold epoch_asks. rewrite Hd. cbn [default].
  assert (slots_and_subnets e [] = []) as ->; [|done].
  unfold slots_and_subnets. by induction (slot_iter e).
Qed.

Lemma slots_of_epoch e ids x : x ∈ slots_and_subnets e ids -> x.1 ∈ slot_iter e.
Proof.
  intros (slot & (id & -> & _)%list_elem_of_fmap & Hslot)%list_elem_of_bind. done.
Qed.

Lemma epoch_proofs_ask period e l s :
  performs period (epoch_proofs e l) (x ← filter (fun x => x.1 <= e) l; epoch_asks e x.2) s.
Proof.
  revert s. induction l as [|[start d] l IH]; intros s; [apply performs_ret|].
  cbn [epoch_proofs]. destruct (Z.ltb_spec e start) as [He|He].
  { rewrite filter_cons_False by (cbn; lia). apply IH. }
  rewrite filter_cons_True, bind_cons by (cbn; lia). cbn [snd].
  destruct (subnet_ids d) as [ids|] eqn:Hd; [|rewrite epoch_asks_none by done; apply IH].
  apply performs_bind.
  - unfold epoch_asks. rewrite Hd. apply sync_selection_proofs_ask, slots_of_epoch.
  - intros ps s1. apply performs_then, IH.
Qed.

Lemma fill_in_epochs_asks period l es s :
  performs period (fill_in_epochs l period es)
    (e ← es; x ← filter (fun x => x.1 <= e) l; epoch_asks e x.2) s.
Proof.
  revert s. induction es as [|e es IH]; intros s; [apply performs_ret|].
  cbn [fill_in_epochs]. rewrite bind_cons. apply performs_bind; [apply epoch_proofs_ask|].
  intros ps s1. apply (performs_bind _ _ _ []); [|intros _; apply IH].
  split; [by eexists|]. apply (asked_added _ ps). constructor.
Qed.

Lemma task_asks j s : performs (job_period j) (fill_in_aggregation_proofs j) (asks j) s.
Proof. apply fill_in_epochs_asks. Qed.
End computed.

(** ** Duties of validators that were not asked for *)

Section unknown.
Context `{Eth2Keystore} `{Bincode} `{!SigCodec} `{MempoolCodec} `{Rocksdb Digest bytes}.
Context `{EthSpec} `{SlashingDatabase} `{!ServiceTypes}.
Context {N : Type} `{!BeaconNodeHttpClient (services N)} `{!BeaconApi N}.
Implicit Types s : nodes (services N).

Lemma init_members_lookup indices (vs : gmap Z (option ValidatorDuties)) i :
  init_members indices vs !! i =
  match vs !! i with
  | Some o => Some o
  | None => if decide (i ∈ indices) then Some None else None
  end.
Proof.
  unfold init_members. revert vs. induction indices as [|j indices IH]; intros vs; cbn.
  { by destruct (vs !! i). }
  rewrite IH. destruct (decide (i = j)) as [->|Hij].
  - rewrite (decide_True (P:=j ∈ j :: indices)) by apply list_elem_of_here.
    destruct (vs !! j) eqn:Hj; [by rewrite Hj|by rewrite lookup_insert_eq].
  - assert ((match vs !! j with Some _ => vs | None => <[j:=None]> vs end) !! i = vs !! i) as ->.
    { destruct (vs !! j); [done|]. by rewrite lookup_insert_ne. }
    destruct (vs !! i); [done|]. apply decide_ext. rewrite elem_of_cons. tauto.
Qed.

(** When the first duty of an answer is that of a validator that was not asked for, the
    other duties of the answer are dropped, and all the validators count as known not to
    be members. *)
Lemma unknown_duty_hides_members self p l d duties s s1 :
  l <> [] -> sync_index d ∉ l -> committees (sync s1) !! p = None ->
  first_success (require_synced self) OfflineOnFailure.Yes
    (fun c => post_validator_duties_sync c
                (saturating_mul epochs_per_sync_committee_period p) l) (duties_nodes self) s =
    (Ok (d :: duties), s1) ->
  exists s', poll_sync_committee_duties_for_period self l p s =
    (Err (SyncDutiesNotFound (sync_index d)), s') /\
    all_duties_known (committees (sync s')) p l = true /\
    forall i, member (committees (sync s')) p i = None.
Proof.
  intros Hl Hd Hp Hfirst. set (vs := init_members l ∅).
  assert (forall i, vs !! i = if decide (i ∈ l) then Some None else None) as Hvs.
  { intros i. unfold vs. by rewrite init_members_lookup, lookup_empty. }
  assert (get_or_create_committee_duties p l (committees (sync s1)) =
    <[p := vs]> (committees (sync s1))) as Hm.
  { unfold get_or_create_committee_duties. by rewrite Hp. }
  clearbody vs.
  assert (store_sync_duties (d :: duties) (default ∅ (<[p := vs]> (committees (sync s1)) !! p)) =
    (vs, Some (sync_index d))) as Hst.
  { rewrite lookup_insert_eq. cbn. by rewrite Hvs, decide_False. }
  exists (set_committees (<[p := vs]> (<[p := vs]> (committees (sync s1)))) s1). split; [|split].
  - unfold poll_sync_committee_duties_for_period. destruct l as [|i0 l]; [done|].
    erewrite run_bind; [|unfold caught; by rewrite Hfirst]. cbv beta iota.
    erewrite run_bind; [|reflexivity]. cbv beta. rewrite Hm, Hst. reflexivity.
  - unfold all_duties_known. cbn. rewrite lookup_insert_eq. apply forallb_forall.
    intros i Hi%list_elem_of_In. apply bool_decide_eq_true_2. by rewrite Hvs, decide_True.
  - intros i. unfold member. cbn. rewrite lookup_insert_eq, Hvs. by destruct (decide (i ∈ l)).
Qed.
End unknown.

Section successive_polls.
Context `{Eth2Keystore} `{Bincode} `{!SigCodec} `{MempoolCodec} `{Rocksdb Digest bytes}.
Context `{EthSpec} `{SlashingDatabase} `{!ServiceTypes} `{!SyncPeriods}.
Context {N : Type} `{!BeaconNodeHttpClient (services N)} `{!BeaconApi N}.
Implicit Types s : nodes (services N).

(** The duties that a poll needs were downloaded before. *)
Definition settled (c : Epoch) s : Prop :=
  forall p, p = c / plen \/ p = c / plen + 1 /\ epoch_offset <= c mod plen ->
    all_duties_known (committees (sync s)) p (local_sync_indices s) = true.

Definition altair_active (self : DutiesService) (c : Epoch) : bool :=
  match altair_fork_epoch (duties_spec self) with Some a => a <=? c | None => false end.

(** Polls at the epochs [es], between which other tasks add proofs, and whatever else
    changes that is not a duty of a sync committee. *)
Inductive polled (self : DutiesService) s : list Epoch -> nodes (services N) -> Prop :=
| polled_start : polled self s [] s
| polled_poll es s1 s2 slot :
    polled self s es s1 -> now s1 = Some slot -> settled (slot_epoch slot) s1 ->
    poll_sync_committee_duties self s1 = (Ok (), s2) ->
    polled self s (es ++ [slot_epoch slot]) s2
| polled_others es s1 s2 period ps latch :
    polled self s es s1 ->
    sync s2 = mkSyncState (add_proofs period ps (committees (sync s1))) (jobs (sync s1)) latch ->
    polled self s es s2.

(** What a poll does to the duties when nothing is to be downloaded. *)
Definition poll_effect (c : Epoch) (x : sync_state) : sync_state :=
  let x := pre_compute (c / plen) c x in
  if (c + AGGREGATION_PRE_COMPUTE_EPOCHS) / plen =? c / plen + 1
  then pre_compute (c / plen + 1) c x else x.

Lemma known_elsewhere q c x p l :
  p <> q -> all_duties_known (committees (pre_compute q c x)) p l =
            all_duties_known (committees x) p l.
Proof.
  intros Hp. unfold all_duties_known. rewrite pre_compute_committees.
  unfold prepare_for_aggregator_pre_compute. cbn. by rewrite lookup_alter_ne.
Qed.

Lemma poll_unknown_known self l p q s :
  all_duties_known (committees (sync s)) p l = true -> poll_unknown self l p q s = (Ok (), s).
Proof. intros Hk. unfold poll_unknown. erewrite run_bind; [|reflexivity]. by rewrite Hk. Qed.

Lemma poll_settled self s slot :
  now s = Some slot -> altair_active self (slot_epoch slot) = true -> in_range (slot_epoch slot) ->
  settled (slot_epoch slot) s ->
  poll_sync_committee_duties self s = (Ok (), set_sync (poll_effect (slot_epoch slot) (sync s)) s).
Proof.
  set (c := slot_epoch slot). intros Hnow Ha Hc Hs. unfold poll_sync_committee_duties.
  erewrite run_bind; [|reflexivity]. rewrite Hnow. fold c.
  replace (match altair_fork_epoch (duties_spec self) with None => true | Some a => c <? a end)
    with false.
  2:{ unfold altair_active in Ha. destruct (altair_fork_epoch _) as [a|]; [|done]. lia. }
  destruct (period_bounds c (c / plen) Hc (or_introl eq_refl)) as (Hu & _ & _).
  pose proof Hc as [Hc0 Hcm]. pose proof period_length as Hn. fold plen in Hn.
  rewrite (period_of c Hc0). fold plen. erewrite run_bind; [|reflexivity]. cbv beta zeta.
  rewrite Hu. erewrite run_bind; [|reflexivity].
  erewrite run_bind; [|apply poll_unknown_known, Hs; by left].
  erewrite run_bind; [|reflexivity].
  set (s1 := set_sync (pre_compute (c / plen) c (sync s)) s).
  erewrite (run_bind _ _ s1 () s1).
  2:{ destruct (Z.leb_spec epoch_offset (c mod plen)) as [Ho|Ho]; fold plen; [|done].
      apply poll_unknown_known. change (sync s1) with (pre_compute (c / plen) c (sync s)).
      rewrite known_elsewhere by lia. apply Hs. by right. }
  assert (saturating_add c AGGREGATION_PRE_COMPUTE_EPOCHS = c + AGGREGATION_PRE_COMPUTE_EPOCHS) as ->.
  { unfold saturating_add, AGGREGATION_PRE_COMPUTE_EPOCHS. lia. }
  rewrite period_of by (unfold AGGREGATION_PRE_COMPUTE_EPOCHS; lia). fold plen.
  erewrite run_bind; [|reflexivity]. cbv beta. unfold poll_effect. by destruct (_ =? _).
Qed.

(** One poll. *)
Lemma asked_polled p i duty js es c x :
  in_range c -> (forall c', c' ∈ es -> c' <= c) ->
  asked_for p i duty js es x -> asked_for p i duty js (es ++ [c]) (poll_effect c x).
Proof.
  intros Hc Hes Hx. pose proof period_length as Hn. fold plen in Hn. unfold poll_effect.
  assert (0 < plen) as Hpos by lia.
  destruct (decide (p = c / plen)) as [->|Hp].
  - assert (asked_for (c / plen) i duty js (es ++ [c]) (pre_compute (c / plen) c x)) as Hx1
      by (apply asked_prepared; auto).
    destruct (_ =? _); [|done]. apply asked_elsewhere; [lia|done].
  - assert (asked_for p i duty js es (pre_compute (c / plen) c x)) as Hx1 by (by apply asked_elsewhere).
    unfold AGGREGATION_PRE_COMPUTE_EPOCHS.
    destruct (Z.eqb_spec ((c + 2) / plen) (c / plen + 1)) as [Hg|Hg].
    + destruct (decide (p = c / plen + 1)) as [->|Hp']; [apply asked_prepared; auto|].
      apply asked_elsewhere; [lia|]. apply asked_out_of_reach; [done| |done].
      intros e <- [He1 He2]. pose proof (Z.div_le_mono _ _ plen Hpos He1).
      pose proof (Z.div_le_mono _ _ plen Hpos He2).
      unfold AGGREGATION_PRE_COMPUTE_EPOCHS in *. lia.
    + apply asked_out_of_reach; [done| |done].
      intros e <- [He1 He2]. pose proof (Z.div_le_mono _ _ plen Hpos He1).
      pose proof (Z.div_le_mono _ _ plen Hpos He2) as Hle.
      unfold AGGREGATION_PRE_COMPUTE_EPOCHS in *.
      assert ((c + 2) / plen <= (c + 1 * plen) / plen) as Hle' by (apply Z.div_le_mono; lia).
      rewrite Z.div_add in Hle' by lia. lia.
Qed.

(** C20: polls at epochs that do not decrease, from the fork of the sync committees on and
    far enough from the end of their type, find the duties of the committees downloaded;
    tasks add proofs in between.  Then every task that the polls spawn asks the validator
    store for the proofs [asks j] and no others, one request for each, unless a request
    does not return; and for a member whose proofs no poll prepared before, the tasks of
    its period together ask, in the turns of each epoch of the period, for one proof for
    every slot of the epoch and every subnet of the member if the epoch is at most two
    epochs after a poll, and for none otherwise. *)
Theorem proofs_asked_once self s es s' p i d :
  polled self s es s' ->
  StronglySorted Z.le es -> Forall in_range es -> Forall (altair_active self) es ->
  keyed (committees (sync s)) -> member (committees (sync s)) p i = Some d ->
  pre_compute_epoch d = None ->
  exists new, jobs (sync s') = jobs (sync s) ++ new /\
    (forall j s1, j ∈ new ->
       performs (job_period j) (fill_in_aggregation_proofs j) (asks j) s1) /\
    forall e, e / plen = p ->
      filter (fun a => ask_epoch a = e /\ sync_index (ask_duty a) = i)
        (filter (fun j => job_period j = p) new ≫= asks) =
      if decide (in_reach es e) then epoch_asks e (sync_duty d) else [].
Proof.
  intros Hp Hsort Hrange Halt Hk Hd Hnone.
  assert (asked_for p i (sync_duty d) (jobs (sync s)) es (sync s'))
    as (_ & new & d' & Hjs & _ & _ & He).
  2:{ exists new. split; [done|]. split; [intros j s1 _; apply task_asks|].
      intros e Hep. by apply He. }
  induction Hp as [|es s1 s2 slot Hp IH Hnow Hs Hpoll|es s1 s2 q ps latch Hp IH Hs2].
  - split; [done|]. exists [], d. rewrite app_nil_r. do 3 (split; [done|]).
    intros e _. split.
    + rewrite decide_False; [done|]. by intros ?%Exists_nil.
    + intros _. rewrite Hnone. split; [by intros ?%Exists_nil|by intros (? & ? & _)].
  - apply Forall_app in Hrange as [Hr1 Hr2]. rewrite Forall_singleton in Hr2.
    apply Forall_app in Halt as [Ha1 Ha2]. rewrite Forall_singleton in Ha2.
    rewrite (poll_settled self s1 slot Hnow) in Hpoll; [|exact (Is_true_eq_true _ Ha2)|done..].
    injection Hpoll as <-. apply asked_polled; [done| |].
    + intros c Hc. apply StronglySorted_app in Hsort as [Hle _]. apply Hle; [done|].
      apply list_elem_of_here.
    + apply IH; [|done..]. by apply StronglySorted_app in Hsort as (_ & ? & _).
  - rewrite Hs2. by apply asked_add_proofs, IH.
Qed.
End successive_polls.

(** ** A poll of one member *)

Section witness.
#[local] Existing Instances ideal_blst ideal_blst_laws ideal_bincode ideal_round_trip.
#[local] Existing Instances ideal_sig_codec ideal_sig_roundtrip memory_db memory_db_reliable.
#[local] Existing Instances ideal_mempool ideal_keystore_crypto ideal_eth2_keystore.
#[local] Existing Instances mainnet demo_beacon history_db history_protection.
#[local] Existing Instances plain_types plain_client plain_api.

Lemma plain_periods : SyncPeriods.
Proof. by split. Qed.

(** Validator 3 is a member of the committee of the first period. *)
Definition plain_member : ValidatorDuties := mkValidatorDuties (mkSyncDuty 5 3 [130]) None ∅.

Definition member_world : nodes (services (list Z)) :=
  mkNodes (fun _ => inr ()) (mkServices plain_store ∅ ∅
    (mkSyncState {[0 := {[3 := Some plain_member]}]} [] false) ∅ []).

Lemma member_world_keyed : keyed (committees (sync member_world)).
Proof.
  intros p i d. unfold member, sync, member_world. cbn.
  destruct (decide (p = 0)) as [->|Hp]; [|by rewrite lookup_singleton_ne].
  rewrite lookup_singleton_eq.
  destruct (decide (i = 3)) as [->|Hi]; [|by rewrite lookup_singleton_ne].
  rewrite lookup_singleton_eq. by intros [= <-].
Qed.

Lemma plain_in_range : in_range 5.
Proof. split; [done|]. change (5 + 2 * 256 + 2 <= u64_max). unfold u64_max. lia. Qed.

Lemma member_world_polled : exists s', polled plain_duties member_world [5] s'.
Proof.
  pose proof plain_periods as Hper. eexists. change [5] with ([] ++ [slot_epoch 161]).
  assert (settled 5 member_world) as Hs.
  { intros p [->|[-> Hp]]; [reflexivity|]. by destruct Hp. }
  eapply polled_poll; [apply polled_start|reflexivity|exact Hs|].
  apply poll_settled; [reflexivity|reflexivity|exact plain_in_range|exact Hs].
Qed.

Lemma proofs_asked_once_witness : exists s', polled plain_duties member_world [5] s' /\
  exists new, jobs (sync s') = new /\
    length (proof_requests new 0 3 6) = 32%nat /\ proof_requests new 0 3 8 = [].
Proof.
  destruct member_world_polled as [s' Hp]. exists s'. split; [exact Hp|].
  pose proof plain_periods as Hper.
  destruct (proofs_asked_once plain_duties member_world [5] s' 0 3 plain_member Hp)
    as (new & Hnew & _ & He).
  - repeat constructor.
  - apply Forall_singleton, plain_in_range.
  - by apply Forall_singleton.
  - exact member_world_keyed.
  - reflexivity.
  - reflexivity.
  - exists new. split; [exact Hnew|]. split; [|exact (He 8 eq_refl)].
    unfold proof_requests. rewrite (He 6 eq_refl). reflexivity.
Defined.
End witness.
