(* ===== verification/SyncService.v ===== *)
(** * Messages and contributions of the sync committees

    Models [src/validation/sync_committee_service.rs]: the tasks of a slot, which sign and
    publish the messages of the local members of the sync committee and the contributions
    of the aggregators among them, and the subscriptions to the subnets.

    The theorem shows that all that the tasks ask of the validator store are messages for
    the head of the chain by the members of the committee, and contributions by those
    members that have a proof of their selection, and that the messages that are
    published were signed, one for a member. *)

From S2P Require Import Prelude Store Committee Messages Network Core Ideal Mempool.
From S2P Require Import Scalars Blst BlstIdeal Polynomial Threshold Operator DvfCore.
From S2P Require Import Doppelganger KeyCache KeyFiles InitializedValidators ValidatorStore.
From S2P Require Import BeaconNodes Services ServicesIdeal BlockService Duties SyncDuties.

Definition SUBSCRIPTION_LOOKAHEAD_EPOCHS : Z := 4.

Section sync_committee_service.
Context `{Eth2Keystore} `{Bincode} `{!SigCodec} `{MempoolCodec} `{Rocksdb Digest bytes}.
Context `{EthSpec} `{SlashingDatabase} `{!ServiceTypes}.
Context {N : Type} `{!BeaconNodeHttpClient (services N)} `{!BeaconApi N}.

(** The service; the latch of the subscriptions is in the shared state.  The functions
    are those that print errors and slots. *)
Record SyncCommitteeService := mkSyncCommitteeService {
  sync_nodes : BeaconNodeFallback;
  sync_spec : ChainSpec;
  debug_sync : FallbackError HttpError -> string;
  debug_arith : string;
  display_slot : Slot -> string
}.

Definition altair_fork_activated (self : SyncCommitteeService) (s : nodes (services N)) : bool :=
  match altair_fork_epoch (sync_spec self) with
  | None => false
  | Some fork_epoch =>
      match now s with
      | Some slot => fork_epoch <=? slot_epoch slot
      | None => false
      end
  end.

(** ** The tasks of a slot *)

(** Returns what the tasks that are spawned are given: the slot, the root of the head
    and the duties. *)
Definition spawn_contribution_tasks (self : SyncCommitteeService)
  : prog (nodes (services N)) string (option (Slot * Hash256 * SlotDuties)) :=
  clock ← gets now;
  match clock with
  | None => fail "Failed to read slot clock"
  | Some slot =>
      duration ← gets duration_to_next_slot;
      match duration with
      | None => fail "Unable to determine duration to next slot"
      | Some _ =>
          known ← gets (fun s => get_duties_for_slot (committees (sync s)) slot);
          match known with
          | None => mret None
          | Some duties =>
              match slot_duties duties with
              | [] => mret None
              | _ =>
                  root ← map_err (display (debug_sync self))
                    (first_success RequireSynced.Yes OfflineOnFailure.Yes get_beacon_blocks_root
                       (sync_nodes self));
                  match root with
                  | None => fail ("No block root found for slot " +:+ display_slot self slot)
                  | Some root => mret (Some (slot, root, duties))
                  end
              end
          end
      end
  end.

(** ** Messages *)

(** The future of one duty. *)
Definition sync_signature (slot : Slot) (root : Hash256) (d : SyncDuty)
  : prog (nodes (services N)) () (option (Slot * Hash256 * Z * BlsSignature)) :=
  r ← caught (sign_with (fun v env =>
        produce_sync_committee_signature v (sync_pubkey d) slot (sync_message slot root) env));
  mret (match r with
        | inr signature => Some (slot, root, sync_index d, signature)
        | inl _ => None
        end).

Fixpoint sync_signatures (slot : Slot) (root : Hash256) (l : list SyncDuty)
  : prog (nodes (services N)) () (list (Slot * Hash256 * Z * BlsSignature)) :=
  match l with
  | [] => mret []
  | d :: l =>
      a ← sync_signature slot root d;
      rest ← sync_signatures slot root l;
      mret (match a with Some a => a :: rest | None => rest end)
  end.

(** Returns the messages too, which are posted. *)
Definition publish_sync_committee_signatures (self : SyncCommitteeService) (slot : Slot)
  (root : Hash256) (l : list SyncDuty)
  : prog (nodes (services N)) () (list (Slot * Hash256 * Z * BlsSignature)) :=
  signatures ← sync_signatures slot root l;
  map_err (fun _ => ())
    (first_success RequireSynced.No OfflineOnFailure.Yes
       (fun c => post_sync_committee_signatures c signatures) (sync_nodes self));;
  mret signatures.

(** ** Contributions *)

Definition sign_contribution (contribution : Contribution)
  (x : Z * PublicKeyBytes * BlsSignature)
  : prog (nodes (services N)) () (option (OtherT * BlsSignature)) :=
  let '(index, pubkey, proof) := x in
  let message := contribution_and_proof index contribution proof in
  r ← caught (sign_with (fun v env =>
        produce_signed_contribution_and_proof v pubkey (contribution_slot contribution) message env));
  mret (match r with
        | inr signature => Some (message, signature)
        | inl _ => None
        end).

Fixpoint sign_contributions (contribution : Contribution)
  (l : list (Z * PublicKeyBytes * BlsSignature))
  : prog (nodes (services N)) () (list (OtherT * BlsSignature)) :=
  match l with
  | [] => mret []
  | x :: l =>
      a ← sign_contribution contribution x;
      rest ← sign_contributions contribution l;
      mret (match a with Some a => a :: rest | None => rest end)
  end.

Definition publish_sync_committee_aggregate_for_subnet (self : SyncCommitteeService)
  (slot : Slot) (root : Hash256) (subnet_id : Z)
  (subnet_aggregators : list (Z * PublicKeyBytes * BlsSignature))
  : prog (nodes (services N)) () () :=
  modify sleeps;;
  response ← map_err (fun _ => ())
    (first_success RequireSynced.No OfflineOnFailure.Yes
       (fun c => get_sync_committee_contribution c slot root subnet_id) (sync_nodes self));
  match response with
  | None => fail ()
  | Some contribution =>
      signed ← sign_contributions contribution subnet_aggregators;
      map_err (fun _ => ())
        (first_success RequireSynced.No OfflineOnFailure.Yes
           (fun c => post_contribution_and_proofs c signed) (sync_nodes self))
  end.

(** The tasks of the subnets; their results are dropped. *)
Fixpoint publish_sync_committee_aggregates (self : SyncCommitteeService) (slot : Slot)
  (root : Hash256) (l : list (Z * list (Z * PublicKeyBytes * BlsSignature)))
  (s : nodes (services N)) : nodes (services N) :=
  match l with
  | [] => s
  | (subnet_id, subnet_aggregators) :: l =>
      publish_sync_committee_aggregates self slot root l
        (snd (publish_sync_committee_aggregate_for_subnet self slot root subnet_id
                subnet_aggregators s))
  end.

(** ** Subscriptions *)

Definition sync_period_of_slot (self : SyncCommitteeService) (slot : Slot) : outcome string Z :=
  match sync_committee_period (slot_epoch slot) with
  | Some period => Ok period
  | None => Err ("Error computing sync period: " +:+ debug_arith self)
  end.

Definition subscriptions_from_sync_duties (l : list SyncDuty) (period : Z)
  : list (Z * list Z * Epoch) :=
  let until_epoch := saturating_mul epochs_per_sync_committee_period (u64 (period + 1)) in
  map (fun d => (sync_index d, sync_committee_indices d, until_epoch)) l.

(** The subscriptions, and whether the duties of all slots are known. *)
Fixpoint collect_subscriptions (m : gmap Z (gmap Z (option ValidatorDuties)))
  (l : list (Slot * Z)) : list (Z * list Z * Epoch) * bool :=
  match l with
  | [] => ([], true)
  | (slot, period) :: l =>
      let '(rest, all_known) := collect_subscriptions m l in
      match get_duties_for_slot m slot with
      | Some duties => (subscriptions_from_sync_duties (slot_duties duties) period ++ rest, all_known)
      | None => (rest, false)
      end
  end.

Definition publish_subscriptions (self : SyncCommitteeService)
  : prog (nodes (services N)) string () :=
  clock ← gets now;
  match clock with
  | None => fail "Failed to read slot clock"
  | Some slot =>
      current_period ← lift (sync_period_of_slot self slot);
      done_once ← gets (fun s => first_subscription_done (sync s));
      let now_slots :=
        if negb done_once || (slot mod slots_per_epoch =? 0) then [(slot, current_period)] else [] in
      let lookahead_slot :=
        saturating_add slot (u64 (SUBSCRIPTION_LOOKAHEAD_EPOCHS * slots_per_epoch)) in
      lookahead_period ← lift (sync_period_of_slot self lookahead_slot);
      let duty_slots :=
        now_slots ++
        (if current_period <? lookahead_period then [(lookahead_slot, lookahead_period)] else []) in
      match duty_slots with
      | [] => mret ()
      | _ =>
          '(subscriptions, all_known) ←
            gets (fun s => collect_subscriptions (committees (sync s)) duty_slots);
          match subscriptions with
          | [] => mret ()
          | _ =>
              r ← caught (first_success RequireSynced.No OfflineOnFailure.Yes
                            (fun c => post_sync_subscriptions c subscriptions) (sync_nodes self));
              if all_known && (match r with inr _ => true | inl _ => false end)
              then modify (fun s => set_sync
                     (mkSyncState (committees (sync s)) (jobs (sync s)) true) s)
              else mret ()
          end
      end
  end.

(** ** The loop of the service *)

(** The tasks that a call to [spawn_contribution_tasks] spawns; returns the messages that
    are published, when they are. *)
Definition contribute (self : SyncCommitteeService) (s : nodes (services N))
  : option (list (Slot * Hash256 * Z * BlsSignature)) * nodes (services N) :=
  match spawn_contribution_tasks self s with
  | (Ok (Some (slot, root, duties)), s) =>
      let '(r, s) := publish_sync_committee_signatures self slot root (slot_duties duties) s in
      (match r with Ok l => Some l | _ => None end,
       publish_sync_committee_aggregates self slot root (map_to_list (aggregators duties)) s)
  | (_, s) => (None, s)
  end.

(** One iteration. *)
Definition sync_iteration (self : SyncCommitteeService) (s : nodes (services N))
  : nodes (services N) :=
  match duration_to_next_slot s with
  | None => sleeps s
  | Some _ =>
      let s := sleeps s in
      if altair_fork_activated self s
      then snd (publish_subscriptions self (snd (contribute self s)))
      else s
  end.
End sync_committee_service.

(** ** The duties of a slot *)

Section slot_duties.
Context `{ServiceTypes} `{EthSpec}.

(** The committee that is on duty in a slot is that of the following slot. *)
Definition on_duty (m : gmap Z (gmap Z (option ValidatorDuties))) (slot : Slot) (i : Z)
  (d : ValidatorDuties) : Prop :=
  exists period, sync_committee_period (slot_epoch (saturating_add slot 1)) = Some period /\
    member m period i = Some d.

Lemma with_subnets_some o d ids :
  with_subnets o = Some (d, ids) -> o = Some d /\ subnet_ids (sync_duty d) = Some ids.
Proof.
  unfold with_subnets. destruct o as [d'|]; [|done]. cbn.
  destruct (subnet_ids (sync_duty d')) as [ids'|] eqn:Hids; [|done]. cbn. by intros [= <- <-].
Qed.

(** The aggregators of a subnet. *)
Definition aggregators_of (agg : gmap Z (list (Z * PublicKeyBytes * BlsSignature))) (subnet : Z)
  : list (Z * PublicKeyBytes * BlsSignature) := default [] (agg !! subnet).

(** What a member adds to the aggregators of its subnets. *)
Definition aggregates (slot : Slot) (x : ValidatorDuties * list Z) (subnet : Z)
  (y : Z * PublicKeyBytes * BlsSignature) : Prop :=
  subnet ∈ x.2 /\ proofs x.1 !! (slot, subnet) = Some y.2 /\
  y.1 = (sync_index (sync_duty x.1), sync_pubkey (sync_duty x.1)).

Lemma add_aggregator_in slot d agg id subnet y :
  y ∈ aggregators_of (add_aggregator slot d agg id) subnet <->
  y ∈ aggregators_of agg subnet \/ aggregates slot (d, [id]) subnet y.
Proof.
  unfold aggregates, add_aggregator. cbn [fst snd]. rewrite list_elem_of_singleton.
  destruct (decide (subnet = id)) as [->|Hid].
  - destruct (proofs d !! (slot, id)) as [proof|]; [|naive_solver]. unfold aggregators_of.
    rewrite lookup_insert_eq. cbn. rewrite elem_of_app, list_elem_of_singleton.
    destruct y as [[i pk] p]. cbn. naive_solver.
  - destruct (proofs d !! (slot, id)); [|naive_solver]. unfold aggregators_of.
    rewrite lookup_insert_ne by done. naive_solver.
Qed.

Lemma add_aggregators_in slot d ids agg subnet y :
  y ∈ aggregators_of (foldl (add_aggregator slot d) agg ids) subnet <->
  y ∈ aggregators_of agg subnet \/ aggregates slot (d, ids) subnet y.
Proof.
  revert agg. induction ids as [|id ids IH]; intros agg; cbn.
  - unfold aggregates. cbn. rewrite elem_of_nil. tauto.
  - rewrite IH, add_aggregator_in. unfold aggregates. cbn.
    rewrite !elem_of_cons, elem_of_nil. tauto.
Qed.

Lemma all_aggregators_in slot (ds : list (ValidatorDuties * list Z)) agg subnet y :
  y ∈ aggregators_of
        (foldl (fun agg x => foldl (add_aggregator slot x.1) agg x.2) agg ds) subnet <->
  y ∈ aggregators_of agg subnet \/ exists x, x ∈ ds /\ aggregates slot x subnet y.
Proof.
  revert agg. induction ds as [|[d ids] ds IH]; intros agg; cbn.
  - split; [by left|]. intros [?|(x & ?%elem_of_nil & _)]; done.
  - rewrite IH, add_aggregators_in. setoid_rewrite elem_of_cons. naive_solver.
Qed.

Lemma members_nodup (l : list (Z * option ValidatorDuties)) :
  NoDup (map fst l) -> (forall i d, (i, Some d) ∈ l -> sync_index (sync_duty d) = i) ->
  NoDup (map (fun x => sync_index (sync_duty x.1)) (omap (fun x => with_subnets x.2) l)).
Proof.
  induction l as [|[i o] l IH]; [constructor|]. cbn [map fst]. rewrite NoDup_cons.
  intros [Hi Hl] Hk.
  assert (forall j d, (j, Some d) ∈ l -> sync_index (sync_duty d) = j) as Hk'.
  { intros j d Hj. apply Hk. by apply list_elem_of_further. }
  cbn [omap list_omap snd]. destruct (with_subnets o) as [[d ids]|] eqn:Ho; [|by apply IH].
  apply with_subnets_some in Ho as [-> _]. cbn [map fst]. constructor; [|by apply IH].
  rewrite (Hk i d) by apply list_elem_of_here.
  intros ([d' ids'] & -> & ([j o'] & Hj & Ho')%list_elem_of_omap)%list_elem_of_fmap.
  apply with_subnets_some in Ho' as [Ho' _]. cbn in Ho'. subst o'. apply Hi. cbn.
  rewrite (Hk' j d' Hj). apply list_elem_of_fmap. by exists (j, Some d').
Qed.

(** The duties of a slot are those of the members of one committee whose subnets can be
    computed, each member once, and the aggregators are those with a proof. *)
Lemma slot_duties_members m slot duties :
  keyed m -> get_duties_for_slot m slot = Some duties ->
  NoDup (map sync_index (slot_duties duties)) /\
  (forall x, x ∈ slot_duties duties <-> exists d, on_duty m slot (sync_index x) d /\
     sync_duty d = x /\ is_Some (subnet_ids x)) /\
  (forall subnet i pubkey proof, (i, pubkey, proof) ∈ aggregators_of (aggregators duties) subnet <->
     exists d ids, on_duty m slot i d /\ sync_pubkey (sync_duty d) = pubkey /\
       subnet_ids (sync_duty d) = Some ids /\ subnet ∈ ids /\
       proofs d !! (slot, subnet) = Some proof).
Proof.
  intros Hk. unfold get_duties_for_slot.
  destruct (sync_committee_period _) as [period|] eqn:Hperiod; [|done]. cbn.
  destruct (m !! period) as [vs|] eqn:Hvs; [|done]. cbn. intros [= <-]. cbn [slot_duties aggregators].
  assert (forall i d, on_duty m slot i d <-> vs !! i = Some (Some d)) as Hon.
  { intros i d. unfold on_duty, member. rewrite Hperiod. split.
    - intros (p & [= <-] & Hd). rewrite Hvs in Hd. by destruct (vs !! i) as [[d'|]|]; simplify_eq.
    - intros Hd. exists period. by rewrite Hvs, Hd. }
  assert (forall i d, on_duty m slot i d -> sync_index (sync_duty d) = i) as Hi.
  { intros i d (p & _ & Hd). by apply (Hk p). }
  assert (forall d ids, (d, ids) ∈ omap (fun x => with_subnets x.2) (map_to_list vs) <->
    on_duty m slot (sync_index (sync_duty d)) d /\ subnet_ids (sync_duty d) = Some ids) as Hin.
  { intros d ids. rewrite list_elem_of_omap. split.
    - intros ([i o] & Hio%elem_of_map_to_list & Ho). apply with_subnets_some in Ho as [Ho Hids].
      cbn in Ho. subst o. apply Hon in Hio. by rewrite (Hi i d Hio).
    - intros [Hd%Hon Hids]. exists (sync_index (sync_duty d), Some d).
      rewrite elem_of_map_to_list. split; [done|]. unfold with_subnets. cbn. by rewrite Hids. }
  split; [|split].
  - rewrite map_map. apply members_nodup; [apply NoDup_fst_map_to_list|].
    intros i d Hd%elem_of_map_to_list. by apply Hi, Hon.
  - intros x. rewrite list_elem_of_fmap. split.
    + intros ([d ids] & -> & [Hd Hids]%Hin). exists d. cbn. rewrite Hids. eauto.
    + intros (d & Hd & <- & [ids Hids]). exists (d, ids). split; [done|]. by apply Hin.
  - intros subnet i pubkey proof. rewrite all_aggregators_in. unfold aggregators_of at 1, aggregates.
    rewrite lookup_empty. cbn. rewrite elem_of_nil. split.
    + intros [[]|([d ids] & [Hd Hids]%Hin & Hs & Hp & [= -> ->])]. exists d, ids. auto.
    + intros (d & ids & Hd & <- & Hids & Hs & Hp). right. exists (d, ids).
      pose proof (Hi i d Hd) as <-. split; [by apply Hin|]. auto.
Qed.
End slot_duties.

(** ** What the tasks request *)

Section requests.
Context `{Eth2Keystore} `{Bincode} `{!SigCodec} `{MempoolCodec} `{Rocksdb Digest bytes}.
Context `{EthSpec} `{SlashingDatabase} `{!ServiceTypes}.
Context {N : Type} `{!BeaconNodeHttpClient (services N)} `{!BeaconApi N}.
Context (theirs : request -> Prop) `{!Interleaved theirs N}.

(** A message of a member of the committee for the head of the chain, or a contribution
    of an aggregator with its proof. *)
Definition request_of_sync (slot : Slot) (root : Hash256) (duties : SlotDuties) (r : request)
  : Prop :=
  match r with
  | ReqSync pubkey slot' message _ =>
      slot' = slot /\ message = sync_message slot root /\
      exists d, d ∈ slot_duties duties /\ sync_pubkey d = pubkey
  | ReqContribution pubkey slot' message _ =>
      exists subnet i proof contribution,
        (i, pubkey, proof) ∈ aggregators_of (aggregators duties) subnet /\
        slot' = contribution_slot contribution /\
        message = contribution_and_proof i contribution proof
  | _ => False
  end.

(** A message that was signed for a duty in the course of some requests. *)
Definition message_signed (v : ValidatorStore) (rs : list request) (slot : Slot) (root : Hash256)
  (l : list SyncDuty) (x : Slot * Hash256 * Z * BlsSignature) : Prop :=
  exists d, d ∈ l /\ x.1 = (slot, root, sync_index d) /\
    (sync_pubkey d, SignedOther (sync_message slot root)) ∈ log v rs.

Lemma message_signed_app v rs rs' slot root l x :
  message_signed v rs slot root l x -> message_signed v (rs ++ rs') slot root l x.
Proof.
  intros (d & Hd & Hx & Hin). exists d. rewrite log_app, elem_of_app. auto.
Qed.

Lemma message_signed_after v rs rs' slot root l x :
  message_signed (after v rs) rs' slot root l x -> message_signed v (rs ++ rs') slot root l x.
Proof.
  intros (d & Hd & Hx & Hin). exists d. rewrite log_app, elem_of_app. auto.
Qed.

Lemma message_signed_more v rs slot root l l' x :
  (forall d, d ∈ l -> d ∈ l') ->
  message_signed v rs slot root l x -> message_signed v rs slot root l' x.
Proof. intros Hl (d & Hd & Hx). exists d. auto. Qed.

(** What the signatures for some duties are: at most one for a duty, and all are asked
    for. *)
Definition messages_for (v : ValidatorStore) (rs : list request) (slot : Slot) (root : Hash256)
  (l : list SyncDuty) (xs : list (Slot * Hash256 * Z * BlsSignature)) : Prop :=
  map (fun x => x.1.2) xs `sublist_of` map sync_index l /\
  (forall x, x ∈ xs -> message_signed v rs slot root l x) /\
  forall d, d ∈ l -> exists env, ReqSync (sync_pubkey d) slot (sync_message slot root) env ∈ rs.

Section tasks.
Context (P : request -> Prop) (P_theirs : forall r, theirs r -> P r).

Lemma sync_signature_does slot root d s :
  (forall env, P (ReqSync (sync_pubkey d) slot (sync_message slot root) env)) ->
  does P (sync_signature slot root d) (fun rs r =>
    (exists env, ReqSync (sync_pubkey d) slot (sync_message slot root) env ∈ rs) /\
    forall x, r = Ok (Some x) -> x.1.2 = sync_index d /\
      message_signed (the_store s) rs slot root [d] x) s.
Proof using Interleaved0 P_theirs.
  intros Hours. apply does_bind, does_caught.
  set (f := fun v env => produce_sync_committee_signature v _ _ _ env).
  destruct (sign_with_requests theirs f
    (ReqSync (sync_pubkey d) slot (sync_message slot root)) s)
    as (rs & env & Hrs & Hs & Hr); [done|].
  eexists. split; [|split; [exact Hs|]].
  - apply Forall_app. split; [by eapply Forall_impl|]. apply Forall_singleton, Hours.
  - rewrite Hr. unfold f.
    assert (forall rs', exists env', ReqSync (sync_pubkey d) slot (sync_message slot root) env' ∈
      (rs ++ [ReqSync (sync_pubkey d) slot (sync_message slot root) env]) ++ rs') as Hreq.
    { intros rs'. exists env. rewrite !elem_of_app, list_elem_of_singleton. auto. }
    pose proof (Hreq []) as Hreq'. rewrite app_nil_r in Hreq'.
    destruct (produce_sync_committee_signature _ _ _ _ env) as [[v' [sig|e|msg|]] l] eqn:Hsign;
      cbn; try done; intros s1 _; (apply does_nothing; [done|]); (split; [apply Hreq|]); [|done].
    intros x [= <-]. split; [done|]. exists d. rewrite app_nil_r.
    split; [apply list_elem_of_here|]. split; [done|].
    rewrite log_app, elem_of_app. right. cbn. rewrite Hsign.
    apply get_signature_ok in Hsign as ->. apply list_elem_of_here.
Qed.

Lemma sync_signatures_does slot root l s :
  (forall d env, d ∈ l -> P (ReqSync (sync_pubkey d) slot (sync_message slot root) env)) ->
  does P (sync_signatures slot root l) (fun rs r =>
    forall xs, r = Ok xs -> messages_for (the_store s) rs slot root l xs) s.
Proof using Interleaved0 P_theirs.
  revert s. induction l as [|d l IH]; intros s Hours.
  { apply does_nothing; [done|]. intros xs [= <-]. split; [done|]. by split; intros x ?%elem_of_nil. }
  apply does_bind. eapply does_mono; [|apply (sync_signature_does slot root d s)].
  2:{ intros env. apply Hours, list_elem_of_here. }
  intros rs [o|e|msg|] [Hreq Ho]; cbn; try done. intros s1 Hs1.
  apply does_bind. eapply does_mono; [|apply (IH s1)].
  2:{ intros d' env Hd. apply Hours. by apply list_elem_of_further. }
  intros rs' [rest|e|msg|] Hrest; cbn; try done. intros s2 _. apply does_nothing; [done|].
  cbn. rewrite app_nil_r. intros xs [= <-]. destruct (Hrest rest eq_refl) as (Hsub & Hall & Hreqs).
  rewrite Hs1 in Hall.
  assert (forall y, y ∈ d :: l -> exists env,
    ReqSync (sync_pubkey y) slot (sync_message slot root) env ∈ rs ++ rs') as Hasked.
  { setoid_rewrite elem_of_app.
    intros y [->|[env ?]%Hreqs]%elem_of_cons; [destruct Hreq as [env ?]|]; eauto. }
  assert (forall x, x ∈ rest -> message_signed (the_store s) (rs ++ rs') slot root (d :: l) x)
    as Hr.
  { intros x Hx. eapply message_signed_more; [|by apply message_signed_after, Hall].
    intros y Hy. by apply list_elem_of_further. }
  destruct o as [x0|]; [|split; [by constructor|done]].
  destruct (Ho x0 eq_refl) as [Hi Hx0]. split; [cbn; rewrite Hi; by constructor|].
  split; [|done]. intros x [->|Hx]%elem_of_cons; [|by apply Hr].
  eapply message_signed_more; [|by apply message_signed_app].
  intros y ->%list_elem_of_singleton. apply list_elem_of_here.
Qed.

Lemma signatures_does self slot root l s :
  (forall d env, d ∈ l -> P (ReqSync (sync_pubkey d) slot (sync_message slot root) env)) ->
  does P (publish_sync_committee_signatures self slot root l) (fun rs r =>
    forall xs, r = Ok xs -> messages_for (the_store s) rs slot root l xs) s.
Proof using Interleaved0 P_theirs.
  intros Hours. apply does_bind. eapply does_mono; [|by apply (sync_signatures_does slot root l s)].
  intros rs [xs|e|msg|] Hxs; cbn; try done. intros s1 Hs1.
  apply does_bind, does_map_err. eapply does_mono; [|apply (does_first_success theirs P)]; [|..|done].
  2:{ intros c s'. apply post_signatures_waits. }
  intros rs' [[]|e|msg|] _; cbn; try done. intros s2 _. apply does_nothing; [done|].
  cbn. rewrite app_nil_r. intros xs' [= <-]. destruct (Hxs xs eq_refl) as (Hsub & Hall & Hreqs).
  split; [done|]. split; [intros x Hx; by apply message_signed_app, Hall|].
  intros d [env Hd]%Hreqs. exists env. apply elem_of_app. by left.
Qed.

Lemma sign_contribution_does contribution i pubkey proof s :
  (forall env, P (ReqContribution pubkey (contribution_slot contribution)
                    (contribution_and_proof i contribution proof) env)) ->
  does P (sign_contribution contribution (i, pubkey, proof)) (fun _ _ => True) s.
Proof using Interleaved0 P_theirs.
  intros Hours. apply does_bind, does_caught.
  set (f := fun v env => produce_signed_contribution_and_proof v _ _ _ env).
  destruct (sign_with_requests theirs f
    (ReqContribution pubkey (contribution_slot contribution)
       (contribution_and_proof i contribution proof)) s) as (rs & env & Hrs & Hs & Hr); [done|].
  eexists. split; [|split; [exact Hs|]].
  - apply Forall_app. split; [by eapply Forall_impl|]. apply Forall_singleton, Hours.
  - destruct (fst (sign_with f s)); cbn; try done; intros s1 _; by apply does_nothing.
Qed.

Lemma sign_contributions_does contribution l s :
  (forall i pubkey proof env, (i, pubkey, proof) ∈ l ->
     P (ReqContribution pubkey (contribution_slot contribution)
          (contribution_and_proof i contribution proof) env)) ->
  does P (sign_contributions contribution l) (fun _ _ => True) s.
Proof using Interleaved0 P_theirs.
  revert s. induction l as [|[[i pubkey] proof] l IH]; intros s Hours; [by apply does_nothing|].
  apply does_bind. eapply does_mono; [|apply (sign_contribution_does contribution i pubkey proof s)].
  2:{ intros env. apply Hours, list_elem_of_here. }
  intros rs [o|e|msg|] _; cbn; try done. intros s1 _.
  apply does_bind. eapply does_mono; [|apply (IH s1)].
  2:{ intros j pk p env Hin. apply Hours. by apply list_elem_of_further. }
  intros rs' [rest|e|msg|] _; cbn; try done. intros s2 _. by apply does_nothing.
Qed.

Lemma subnet_does self slot root subnet l s :
  (forall contribution i pubkey proof env, (i, pubkey, proof) ∈ l ->
     P (ReqContribution pubkey (contribution_slot contribution)
          (contribution_and_proof i contribution proof) env)) ->
  does P (publish_sync_committee_aggregate_for_subnet self slot root subnet l) (fun _ _ => True) s.
Proof using Interleaved0 P_theirs.
  intros Hours.
  apply does_bind. eapply does_mono; [|apply (does_wait theirs P (modify sleeps))]; [|..|done].
  2:{ intros s'. apply sleep_waits. }
  intros rs1 [[]|e|msg|] _; cbn; try done. intros s1 _.
  apply does_bind, does_map_err. eapply does_mono; [|apply (does_first_success theirs P)]; [|..|done].
  2:{ intros c s'. apply contribution_waits. }
  intros rs2 [[contribution|]|e|msg|] _; cbn; try done; intros s2 _; [|by apply does_nothing].
  apply does_bind. eapply does_mono; [|apply (sign_contributions_does contribution l s2)].
  2:{ intros i pubkey proof env. apply Hours. }
  intros rs3 [signed|e|msg|] _; cbn; try done. intros s3 _.
  apply does_map_err. eapply does_mono; [|apply (does_first_success theirs P)]; [|..|done].
  2:{ intros c s'. apply post_contributions_waits. }
  by intros rs4 [].
Qed.
End tasks.

Lemma subnets_requests (P : request -> Prop) self slot root l s :
  (forall r, theirs r -> P r) ->
  (forall subnet agg contribution i pubkey proof env, (subnet, agg) ∈ l ->
     (i, pubkey, proof) ∈ agg ->
     P (ReqContribution pubkey (contribution_slot contribution)
          (contribution_and_proof i contribution proof) env)) ->
  reached P (the_store s) (the_store (publish_sync_committee_aggregates self slot root l s)).
Proof using Interleaved0.
  intros HP. revert s. induction l as [|[subnet agg] l IH]; intros s Hours; [apply reached_refl|].
  cbn [publish_sync_committee_aggregates]. eapply reached_trans.
  - destruct (subnet_does P HP self slot root subnet agg s) as (rs & Hrs & Hs & _).
    { intros c i pk p env. apply (Hours subnet), list_elem_of_here. }
    by exists rs.
  - apply IH. intros subnet' agg' c i pk p env Hin. apply (Hours subnet').
    by apply list_elem_of_further.
Qed.

(** The root of the head is all that the tasks wait for before they are spawned. *)
Lemma spawn_reached self s slot root duties s1 :
  spawn_contribution_tasks self s = (Ok (Some (slot, root, duties)), s1) ->
  reached theirs (the_store s) (the_store s1) /\ now s = Some slot /\
  get_duties_for_slot (committees (sync s)) slot = Some duties.
Proof using Interleaved0.
  unfold spawn_contribution_tasks. erewrite run_bind; [|reflexivity].
  destruct (now s) as [slot'|] eqn:Hnow; [|done]. erewrite run_bind; [|reflexivity].
  destruct (duration_to_next_slot s); [|done]. erewrite run_bind; [|reflexivity].
  destruct (get_duties_for_slot (committees (sync s)) slot') as [duties'|] eqn:Hd; [|done].
  destruct (slot_duties duties') as [|d l]; [done|].
  set (download := map_err _ _). unfold mbind, prog_bind. intros Hrun.
  assert (does theirs download (fun _ _ => True) s) as (rs & Hrs & Hs & _).
  { apply does_map_err. eapply does_mono; [|apply (does_first_success theirs theirs)]; [|..|done].
    2:{ intros c s'. apply block_root_waits. }
    by intros rs []. }
  destruct (download s) as [[[root'|]|e|msg|] s2]; [|done..]. injection Hrun as <- <- <- <-.
  split; [by exists rs|done].
Qed.

(** C19: when the duties are kept under the index of their validator, the tasks of a slot
    are given the duties of exactly the members of the committee that is on duty whose
    subnets can be computed, and as aggregators exactly those with a proof of selection
    for the slot and the subnet; all that they ask of the validator store are messages of
    these members for the root of the head, and contributions of the aggregators; the
    messages that are published are for this slot and root and were signed by the member
    whose index they have, no two of them have the same index, and that of every member
    was asked for. *)
Theorem sync_messages_of_members self s slot root duties s1 :
  keyed (committees (sync s)) ->
  spawn_contribution_tasks self s = (Ok (Some (slot, root, duties)), s1) ->
  now s = Some slot /\
  (forall x, x ∈ slot_duties duties <-> exists d,
     on_duty (committees (sync s)) slot (sync_index x) d /\ sync_duty d = x /\
     is_Some (subnet_ids x)) /\
  (forall subnet i pubkey proof, (i, pubkey, proof) ∈ aggregators_of (aggregators duties) subnet <->
     exists d ids, on_duty (committees (sync s)) slot i d /\ sync_pubkey (sync_duty d) = pubkey /\
       subnet_ids (sync_duty d) = Some ids /\ subnet ∈ ids /\
       proofs d !! (slot, subnet) = Some proof) /\
  exists rs,
    the_store (snd (contribute self s)) = after (the_store s) rs /\
    Forall (fun r => theirs r \/ request_of_sync slot root duties r) rs /\
    forall xs, fst (contribute self s) = Some xs ->
      NoDup (map (fun x => x.1.2) xs) /\
      (forall x, x ∈ xs -> message_signed (the_store s) rs slot root (slot_duties duties) x) /\
      forall d, d ∈ slot_duties duties ->
        exists env, ReqSync (sync_pubkey d) slot (sync_message slot root) env ∈ rs.
Proof using Interleaved0.
  intros Hk Hspawn. unfold contribute. rewrite Hspawn.
  destruct (spawn_reached self s slot root duties s1 Hspawn) as ((rs0 & Hrs0 & Hs0) & Hnow & Hd).
  destruct (slot_duties_members _ slot duties Hk Hd) as (Hnd & Hmem & Hagg).
  do 3 (split; [done|]). set (P := fun r => theirs r \/ request_of_sync slot root duties r).
  assert (forall r, theirs r -> P r) as HP by (by left).
  destruct (signatures_does P HP self slot root (slot_duties duties) s1) as (rs1 & Hrs1 & Hs1 & Hq).
  { intros d env Hin. right. split; [done|]. split; [done|]. by exists d. }
  destruct (publish_sync_committee_signatures self slot root (slot_duties duties) s1) as [r s2].
  cbn [fst snd] in *.
  destruct (subnets_requests P self slot root (map_to_list (aggregators duties)) s2 HP)
    as (rs2 & Hrs2 & Hs2).
  { intros subnet agg c i pk p env Hin%elem_of_map_to_list Hi. right.
    exists subnet, i, p, c. unfold aggregators_of. by rewrite Hin. }
  exists (rs0 ++ rs1 ++ rs2). split; [by rewrite !after_app, <- Hs0, <- Hs1|]. split.
  { rewrite !Forall_app. split; [by eapply Forall_impl|done]. }
  intros xs Hxs. destruct r as [xs'|e|msg|]; [|done..]. injection Hxs as <-.
  destruct (Hq xs' eq_refl) as (Hsub & Hall & Hreqs). split; [by eapply sublist_NoDup|]. split.
  - intros x Hx. apply message_signed_after, message_signed_app. rewrite <- Hs0. by apply Hall.
  - intros d [env Hin]%Hreqs. exists env. rewrite !elem_of_app. auto.
Qed.
End requests.

(** ** One member *)

Section witness.
#[local] Existing Instances ideal_blst ideal_blst_laws ideal_bincode ideal_round_trip.
#[local] Existing Instances ideal_sig_codec ideal_sig_roundtrip memory_db memory_db_reliable.
#[local] Existing Instances ideal_mempool ideal_keystore_crypto ideal_eth2_keystore.
#[local] Existing Instances mainnet demo_beacon history_db history_protection.
#[local] Existing Instances plain_types plain_client plain_api plain_interleaved.

Definition plain_sync : SyncCommitteeService :=
  mkSyncCommitteeService plain_fallback (mkChainSpec 1 (Some 0) None) (fun _ => "error") "division"
    (fun _ => "slot").

(** The message of validator 3 for the head of the second node is signed and published. *)
Lemma plain_contributed : exists duties s1 signature,
  spawn_contribution_tasks plain_sync member_world = (Ok (Some (161, 99, duties)), s1) /\
  fst (contribute plain_sync member_world) = Some [(161, 99, 3, signature)].
Proof. do 3 eexists. split; reflexivity. Qed.

Lemma sync_messages_of_members_witness : exists rs duties signature,
  message_signed plain_store rs 161 99 (slot_duties duties) (161, 99, 3, signature).
Proof.
  destruct plain_contributed as (duties & s1 & signature & Hspawn & Hout).
  destruct (sync_messages_of_members (fun _ => False) plain_sync member_world 161 99 duties s1
    member_world_keyed Hspawn) as (_ & _ & _ & rs & _ & _ & Hxs).
  exists rs, duties, signature. destruct (Hxs _ Hout) as (_ & Hall & _).
  apply Hall, list_elem_of_here.
Defined.
End witness.
