(* ===== verification/PreparationService.v ===== *)
(** * Preparation of proposals and registration with builders

    Models [src/validation/preparation_service.rs], with the defaults of proposals in
    [src/validation/validator_store.rs] and the file of fee recipients in
    [src/validation/fee_recipient_file.rs]: the fee recipients that are given to the beacon
    nodes, and the registrations that are signed, cached and published for the builders.

    The theorem shows which registrations a round of the service signs, keeps and
    publishes. *)

From S2P Require Import Prelude Store Committee Messages Network Core Ideal Mempool.
From S2P Require Import Scalars Blst BlstIdeal Polynomial Threshold Operator DvfCore.
From S2P Require Import Doppelganger KeyCache KeyFiles InitializedValidators ValidatorStore.
From S2P Require Import BeaconNodes Services ServicesIdeal BlockService.

Definition PROPOSER_PREPARATION_LOOKAHEAD_EPOCHS : Z := 2.
Definition EPOCHS_PER_VALIDATOR_REGISTRATION_SUBMISSION : Z := 1.
Definition VALIDATOR_REGISTRATION_BATCH_SIZE : nat := 500.
Definition DEFAULT_GAS_LIMIT : Z := 30000000.

Record ProposalData := mkProposalData {
  proposal_index : option Z;
  proposal_fee_recipient : option Z;
  proposal_gas_limit : Z;
  proposal_builder : bool
}.

(** [slice::chunks]; the length of the list is enough fuel. *)
Fixpoint chunks_of {A} (fuel : nat) (size : nat) (l : list A) : list (list A) :=
  match fuel, l with
  | S fuel, _ :: _ => take size l :: chunks_of fuel size (drop size l)
  | _, _ => []
  end.

Definition chunks {A} (size : nat) (l : list A) : list (list A) := chunks_of (length l) size l.

(** ** [FeeRecipientFile] *)

Inductive FeeRecipientError : Type :=
| InvalidFeeFile
| InvalidFeeLine (line : string)
| InvalidFeePublicKey (key : string)
| InvalidFeeRecipient (value : string).

Section fee_recipient_file.
(** The texts of addresses and keys. *)
Context (address_from_str : string -> option Z) (key_from_str : string -> option PublicKeyBytes).

Record FeeRecipientFile := mkFeeRecipientFile {
  fee_recipient_path : Path;
  fee_recipients : gmap PublicKeyBytes Z;
  default_fee_recipient : option Z
}.

Definition new_fee_recipient_file (p : Path) : FeeRecipientFile := mkFeeRecipientFile p ∅ None.

Definition get_fee_recipient (self : FeeRecipientFile) (public_key : PublicKeyBytes) : option Z :=
  match fee_recipients self !! public_key with
  | Some a => Some a
  | None => default_fee_recipient self
  end.

Definition read_fee_line (line : string)
  : outcome FeeRecipientError (option PublicKeyBytes * Z) :=
  match split_colon line with
  | None => Err (InvalidFeeLine ("Missing delimiter: " +:+ line))
  | Some (key, value) =>
      match address_from_str (trim value) with
      | None => Err (InvalidFeeRecipient (trim value))
      | Some a =>
          if String.eqb key "default" then mret (None, a)
          else
            match key_from_str key with
            | None => Err (InvalidFeePublicKey key)
            | Some pk => mret (Some pk, a)
            end
      end
  end.

Definition set_fee_line (self : FeeRecipientFile) (x : option PublicKeyBytes * Z)
  : FeeRecipientFile :=
  match x.1 with
  | Some pk =>
      mkFeeRecipientFile (fee_recipient_path self) (<[pk := x.2]> (fee_recipients self))
        (default_fee_recipient self)
  | None => mkFeeRecipientFile (fee_recipient_path self) (fee_recipients self) (Some x.2)
  end.

(** A line that cannot be read is [None]. *)
Fixpoint read_fee_lines (lines : list (option string))
  : prog FeeRecipientFile FeeRecipientError () :=
  match lines with
  | [] => mret ()
  | None :: _ => fail (InvalidFeeLine "")
  | Some line :: lines =>
      x ← lift (read_fee_line line);
      modify (fun self => set_fee_line self x);;
      read_fee_lines lines
  end.

Definition read_fee_recipient_file (open : Path -> option (list (option string)))
  : prog FeeRecipientFile FeeRecipientError () :=
  file ← gets (fun self => open (fee_recipient_path self));
  match file with
  | None => fail InvalidFeeFile
  | Some lines =>
      modify (fun self => new_fee_recipient_file (fee_recipient_path self));;
      read_fee_lines lines
  end.

Definition load_fee_recipient (open : Path -> option (list (option string)))
  (public_key : PublicKeyBytes) : prog FeeRecipientFile FeeRecipientError (option Z) :=
  read_fee_recipient_file open;;
  gets (fun self => get_fee_recipient self public_key).

(** The entries of a file that can be read. *)
Fixpoint fee_entries (lines : list (option string))
  : outcome FeeRecipientError (list (option PublicKeyBytes * Z)) :=
  match lines with
  | [] => mret []
  | None :: _ => Err (InvalidFeeLine "")
  | Some line :: lines =>
      x ← read_fee_line line;
      rest ← fee_entries lines;
      mret (x :: rest)
  end.

Lemma read_fee_lines_entries lines self :
  fst (read_fee_lines lines self) = (_ ← fee_entries lines; mret ()) /\
  forall l, fee_entries lines = Ok l ->
    snd (read_fee_lines lines self) = foldl set_fee_line self l.
Proof.
  revert self. induction lines as [|[line|] lines IH]; intros self; [|..|done].
  { split; [done|]. by intros l [= <-]. }
  cbn [read_fee_lines fee_entries]. destruct (read_fee_line line) as [x|e|msg|] eqn:Hx; [|done..].
  destruct (IH (set_fee_line self x)) as [Hr Hs].
  erewrite run_bind; [|reflexivity]. erewrite run_bind; [|reflexivity]. rewrite Hr. cbn.
  split; [by destruct (fee_entries lines)|]. intros l Hl.
  destruct (fee_entries lines) as [rest|e|msg|] eqn:He; [|done..]. injection Hl as <-. by apply Hs.
Qed.

(** The recipient of a key is that of the last line for it, and otherwise that of the last
    default, whatever was read before. *)
Definition last_entry (pk : option PublicKeyBytes) (l : list (option PublicKeyBytes * Z))
  : option Z := last (omap (fun x => if decide (x.1 = pk) then Some x.2 else None) l).

Lemma last_entry_snoc pk l x :
  last_entry pk (l ++ [x]) = if decide (x.1 = pk) then Some x.2 else last_entry pk l.
Proof.
  unfold last_entry. rewrite omap_app, last_app. cbn. by destruct (decide (x.1 = pk)).
Qed.

Lemma fee_entries_lookup l p :
  let self := foldl set_fee_line (new_fee_recipient_file p) l in
  (forall pk, fee_recipients self !! pk = last_entry (Some pk) l) /\
  default_fee_recipient self = last_entry None l.
Proof.
  induction l as [|[[pk'|] a] l [IH1 IH2]] using rev_ind; [done|..]; cbn zeta;
    rewrite foldl_app; cbn [foldl]; unfold set_fee_line; cbn;
    (split; [intros pk|]); rewrite last_entry_snoc; cbn; [|done..].
  destruct (decide (Some pk' = Some pk)) as [[= ->]|Hne]; [by rewrite lookup_insert_eq|].
  rewrite lookup_insert_ne by congruence. apply IH1.
Qed.

Lemma loaded_fee_recipient open lines l pk self :
  open (fee_recipient_path self) = Some lines -> fee_entries lines = Ok l ->
  fst (load_fee_recipient open pk self) =
  Ok (match last_entry (Some pk) l with Some a => Some a | None => last_entry None l end).
Proof.
  intros Ho Hl. set (self' := new_fee_recipient_file (fee_recipient_path self)).
  destruct (read_fee_lines_entries lines self') as [Hr Hs]. rewrite Hl in Hr.
  assert (read_fee_recipient_file open self = read_fee_lines lines self') as Hrun.
  { unfold read_fee_recipient_file. erewrite run_bind; [|reflexivity]. by rewrite Ho. }
  unfold load_fee_recipient. destruct (read_fee_lines lines self') as [r s'] eqn:Hread.
  cbn [fst snd] in Hr, Hs. subst r. erewrite run_bind; [|exact Hrun]. cbn.
  unfold get_fee_recipient. rewrite (Hs l Hl).
  destruct (fee_entries_lookup l (fee_recipient_path self)) as [H1 H2]. fold self' in H1, H2.
  by rewrite H1, H2.
Qed.
End fee_recipient_file.

Section preparation_service.
Context `{Eth2Keystore} `{Bincode} `{!SigCodec} `{MempoolCodec} `{Rocksdb Digest bytes}.
Context `{EthSpec} `{SlashingDatabase} `{!ServiceTypes}.
Context {N : Type} `{!BeaconNodeHttpClient (services N)} `{!BeaconApi N}.

(** The service, with the defaults of the validator store; the cache of registrations is
    in the shared state. *)
Record PreparationService := mkPreparationService {
  preparation_nodes : BeaconNodeFallback;
  preparation_spec : ChainSpec;
  fee_recipient_process : option Z;
  gas_limit_process : option Z;
  builder_proposals_process : bool;
  builder_registration_timestamp_override : option Z
}.

(** ** The data of proposals *)

Definition get_fee_recipient_defaulting (self : PreparationService) (x : option Z) : option Z :=
  match x with Some a => Some a | None => fee_recipient_process self end.

Definition get_gas_limit_defaulting (self : PreparationService) (x : option Z) : Z :=
  match x with
  | Some limit => limit
  | None => default DEFAULT_GAS_LIMIT (gas_limit_process self)
  end.

Definition get_builder_proposals_defaulting (self : PreparationService) (x : option bool) : bool :=
  default (builder_proposals_process self) x.

Definition proposal_data (self : PreparationService) (v : ValidatorStore) (pubkey : PublicKeyBytes)
  : option ProposalData :=
  (fun validator => mkProposalData (iv_index validator)
     (get_fee_recipient_defaulting self (iv_suggested_fee_recipient validator))
     (get_gas_limit_defaulting self (iv_gas_limit validator))
     (get_builder_proposals_defaulting self (iv_builder_proposals validator)))
  <$> validators (initialized_validators v) !! pubkey.

Definition collect_proposal_data {U} (self : PreparationService)
  (map_fn : PublicKeyBytes -> ProposalData -> option U) (v : ValidatorStore) : list U :=
  omap (fun pubkey => proposal_data self v pubkey ≫= map_fn pubkey) (voting_pubkeys v ignored).

(** The index and the fee recipient of every active validator that has one. *)
Definition collect_preparation_data (self : PreparationService) (v : ValidatorStore)
  : list (Z * Z) :=
  collect_proposal_data self (fun _ data =>
    match proposal_fee_recipient data with
    | Some fee_recipient => (fun index => (index, fee_recipient)) <$> proposal_index data
    | None => None
    end) v.

Definition collect_validator_registration_keys (self : PreparationService) (v : ValidatorStore)
  : list RegistrationKey :=
  collect_proposal_data self (fun pubkey data =>
    match proposal_index data with
    | None => None
    | Some _ =>
        match proposal_fee_recipient data with
        | Some fee_recipient =>
            if proposal_builder data
            then Some (fee_recipient, proposal_gas_limit data, pubkey) else None
        | None => None
        end
    end) v.

(** ** Preparation of proposers *)

Definition should_publish_at_current_slot (self : PreparationService) (s : nodes (services N))
  : bool :=
  let current_epoch := match now s with Some slot => slot_epoch slot | None => 0 end in
  match bellatrix_fork_epoch (preparation_spec self) with
  | None => false
  | Some fork_epoch =>
      fork_epoch <=? saturating_add current_epoch PROPOSER_PREPARATION_LOOKAHEAD_EPOCHS
  end.

(** A failure is logged. *)
Definition publish_preparation_data (self : PreparationService) (l : list (Z * Z))
  : prog (nodes (services N)) string () :=
  _ ← caught (BeaconNodes.run RequireSynced.Yes OfflineOnFailure.Yes
                (fun c => post_validator_prepare_beacon_proposer c l) (preparation_nodes self));
  mret ().

Definition prepare_proposers_and_publish (self : PreparationService)
  : prog (nodes (services N)) string () :=
  l ← gets (fun s => collect_preparation_data self (the_store s));
  match l with
  | [] => mret ()
  | _ => publish_preparation_data self l
  end.

(** An iteration of the service. *)
Definition proposer_prepare_iteration (self : PreparationService)
  : prog (nodes (services N)) string () :=
  publish ← gets (should_publish_at_current_slot self);
  _ ← (if publish : bool then caught (prepare_proposers_and_publish self) else mret (inr ()));
  modify sleeps.

(** ** Registration of validators *)

Definition cache (s : nodes (services N)) : gmap RegistrationKey (Z * BlsSignature) :=
  registration_cache (outside s).

Definition set_cache (m : gmap RegistrationKey (Z * BlsSignature)) (s : nodes (services N))
  : nodes (services N) :=
  mkNodes (statuses s)
    (mkServices (the_store s) (attesters_map (outside s)) (proposers_map (outside s))
       (sync_duties (outside s)) m (net (outside s))).

Definition registration_timestamp (self : PreparationService)
  : prog (nodes (services N)) string Z :=
  match builder_registration_timestamp_override self with
  | Some timestamp => mret timestamp
  | None =>
      time ← gets unix_time;
      match time with
      | inl e => fail e
      | inr seconds => mret seconds
      end
  end.

(** The registration of a key, from the cache or signed and put there. *)
Definition signed_registration (self : PreparationService) (key : RegistrationKey)
  : prog (nodes (services N)) string (option (RegistrationKey * (Z * BlsSignature))) :=
  cached ← gets (fun s => cache s !! key);
  match cached with
  | Some data => mret (Some (key, data))
  | None =>
      timestamp ← registration_timestamp self;
      r ← caught (sign_with (fun v env =>
            sign_validator_registration_data v key.2 (registration_message key timestamp) env));
      match r with
      | inl _ => mret None
      | inr signature =>
          modify (fun s => set_cache (<[key := (timestamp, signature)]> (cache s)) s);;
          mret (Some (key, (timestamp, signature)))
      end
  end.

Fixpoint signed_registrations (self : PreparationService) (keys : list RegistrationKey)
  : prog (nodes (services N)) string (list (RegistrationKey * (Z * BlsSignature))) :=
  match keys with
  | [] => mret []
  | key :: keys =>
      x ← signed_registration self key;
      rest ← signed_registrations self keys;
      mret (match x with Some x => x :: rest | None => rest end)
  end.

(** Failures are logged. *)
Fixpoint post_batches (self : PreparationService)
  (batches : list (list (RegistrationKey * (Z * BlsSignature))))
  : prog (nodes (services N)) string () :=
  match batches with
  | [] => mret ()
  | batch :: batches =>
      _ ← caught (first_success RequireSynced.Yes OfflineOnFailure.No
                    (fun c => post_validator_register_validator c batch) (preparation_nodes self));
      post_batches self batches
  end.

(** Returns the registrations too, which are posted in batches. *)
Definition publish_validator_registration_data (self : PreparationService)
  (keys : list RegistrationKey)
  : prog (nodes (services N)) string (list (RegistrationKey * (Z * BlsSignature))) :=
  signed ← signed_registrations self keys;
  match signed with
  | [] => mret []
  | _ =>
      post_batches self (chunks VALIDATOR_REGISTRATION_BATCH_SIZE signed);;
      mret signed
  end.

Definition register_validators (self : PreparationService)
  : prog (nodes (services N)) string (list (RegistrationKey * (Z * BlsSignature))) :=
  keys ← gets (fun s => collect_validator_registration_keys self (the_store s));
  changed ← gets (fun s => filter (fun key => cache s !! key = None) keys);
  clock ← gets now;
  match clock with
  | None => mret []
  | Some slot =>
      if slot mod (slots_per_epoch * EPOCHS_PER_VALIDATOR_REGISTRATION_SUBMISSION) =? 0
      then publish_validator_registration_data self keys
      else
        match changed with
        | [] => mret []
        | _ => publish_validator_registration_data self changed
        end
  end.
End preparation_service.

(** ** Batches *)

Lemma chunks_of_concat {A} fuel size (l : list A) :
  (0 < size)%nat -> (length l <= fuel)%nat ->
  concat (chunks_of fuel size l) = l /\
  Forall (fun c => (0 < length c <= size)%nat) (chunks_of fuel size l).
Proof.
  intros Hsize. revert l. induction fuel as [|fuel IH]; intros l Hl.
  { destruct l; [done|]. cbn in Hl. lia. }
  destruct l as [|a l]; [done|]. cbn [chunks_of concat].
  destruct (IH (drop size (a :: l))) as [Hc Hf].
  { rewrite length_drop. cbn in *. lia. }
  split; [by rewrite Hc, take_drop|]. constructor; [|done]. rewrite length_take. cbn [length]. lia.
Qed.

Lemma chunks_concat {A} size (l : list A) :
  (0 < size)%nat ->
  concat (chunks size l) = l /\ Forall (fun c => (0 < length c <= size)%nat) (chunks size l).
Proof. intros Hsize. by apply chunks_of_concat. Qed.

(** ** What a round signs and publishes *)

Section registrations.
Context `{Eth2Keystore} `{Bincode} `{!SigCodec} `{MempoolCodec} `{Rocksdb Digest bytes}.
Context `{EthSpec} `{SlashingDatabase} `{!ServiceTypes}.
Context {N : Type} `{!BeaconNodeHttpClient (services N)} `{!BeaconApi N}.
Implicit Types s : nodes (services N).

(** The cache is private to the service: what happens while it waits leaves it alone. *)
Class CacheKept : Prop := {
  version_keeps_cache c s : cache (snd (get_node_version c s)) = cache s;
  spec_keeps_cache c s : cache (snd (get_config_spec c s)) = cache s;
  syncing_keeps_cache c s : cache (snd (get_node_syncing c s)) = cache s;
  register_keeps_cache c l s : cache (snd (post_validator_register_validator c l s)) = cache s;
  signature_keeps_cache s : cache (snd (awaits_signature s)) = cache s
}.

Context (theirs : request -> Prop) `{!Interleaved theirs N} {kept : CacheKept}.

(** A request for the signature of the registration of a key. *)
Definition registers (key : RegistrationKey) (r : request) : Prop :=
  match r with
  | ReqRegistration pubkey message _ =>
      pubkey = key.2 /\ exists timestamp, message = registration_message key timestamp
  | _ => False
  end.

Definition registration_request (keys : list RegistrationKey) s (r : request) : Prop :=
  theirs r \/ exists key, key ∈ keys /\ cache s !! key = None /\ registers key r.

(** Among the requests [rs] from [s] on is one for the registration of [key] with the time
    stamp of [d], and the store answered it with the signature of [d]. *)
Definition signed_among (rs : list request) s (key : RegistrationKey) (d : Z * BlsSignature)
  : Prop :=
  exists before env later,
    rs = before ++ ReqRegistration key.2 (registration_message key d.1) env :: later /\
    (sign_validator_registration_data (after (the_store s) before) key.2
       (registration_message key d.1) env).1.2 = Ok d.2.

(** From [s] to [s'] the batches are posted, one after the other, each to the first beacon
    node that takes it. *)
Inductive posted (self : PreparationService)
  : list (list (RegistrationKey * (Z * BlsSignature))) ->
    nodes (services N) -> nodes (services N) -> Prop :=
| posted_none s : posted self [] s s
| posted_batch batch batches s s' :
    let post := first_success RequireSynced.Yes OfflineOnFailure.No
      (fun c => post_validator_register_validator c batch) (preparation_nodes self) s in
    broken (fst post) = None -> posted self batches (snd post) s' ->
    posted self (batch :: batches) s s'.

Lemma signed_among_later rs rs' s key d :
  signed_among rs s key d -> signed_among (rs ++ rs') s key d.
Proof using.
  intros (before & env & later & -> & Hsig). exists before, env, (later ++ rs').
  by rewrite <- app_assoc.
Qed.

Lemma signed_among_before rs rs' s s1 key d :
  the_store s1 = after (the_store s) rs ->
  signed_among rs' s1 key d -> signed_among (rs ++ rs') s key d.
Proof using.
  intros Hs (before & env & later & -> & Hsig). exists (rs ++ before), env, later.
  rewrite app_assoc, after_app, <- Hs. done.
Qed.

Lemma sign_with_keeps_cache {A} (f : ValidatorStore -> conditions -> signing A) s :
  cache (snd (sign_with f s)) = cache s.
Proof using kept.
  unfold sign_with. pose proof (signature_keeps_cache s) as Hs.
  destruct (awaits_signature s) as [env s1]. by destruct (f (the_store s1) env) as [[v r] l].
Qed.

(** One key. *)
Lemma signed_registration_ok self key s x s' :
  signed_registration self key s = (Ok x, s') ->
  exists rs, Forall (registration_request [key] s) rs /\
  the_store s' = after (the_store s) rs /\
  match x with
  | Some (k, d) => k = key /\ cache s' = <[key := d]> (cache s) /\
      (cache s !! key = None /\ signed_among rs s key d \/ cache s !! key = Some d)
  | None => cache s' = cache s /\ cache s !! key = None
  end.
Proof using kept Interleaved0.
  unfold signed_registration. erewrite run_bind; [|reflexivity]. cbv beta.
  destruct (cache s !! key) as [d|] eqn:Hkey.
  { intros [= <- <-]. exists []. split; [done|]. split; [done|]. split; [done|].
    by rewrite insert_id by done; auto. }
  destruct (registration_timestamp self s) as [[timestamp|e|msg|] s0] eqn:Ht;
    [|unfold mbind, prog_bind; by rewrite Ht..].
  assert (s0 = s) as ->.
  { unfold registration_timestamp in Ht. destruct (builder_registration_timestamp_override self).
    - by injection Ht as _ <-.
    - erewrite run_bind in Ht; [|reflexivity]. destruct (unix_time s); [done|].
      by injection Ht as _ <-. }
  erewrite run_bind; [|exact Ht]. cbv beta.
  set (f := fun v env => sign_validator_registration_data v _ _ env).
  destruct (sign_with_requests theirs f
    (ReqRegistration key.2 (registration_message key timestamp)) s)
    as (rs & env & Hrs & Hs & Hsig); [done|].
  pose proof (sign_with_keeps_cache f s) as Hc. unfold caught, mbind, prog_bind.
  destruct (sign_with f s) as [r s1]. cbn [fst snd] in Hs, Hc, Hsig.
  set (ours := rs ++ [_]) in Hs.
  assert (Forall (registration_request [key] s) ours) as Hours.
  { apply Forall_app. split.
    - eapply Forall_impl; [exact Hrs|]. by left.
    - apply Forall_singleton. right. exists key. split; [apply list_elem_of_here|].
      split; [done|]. split; [done|]. by exists timestamp. }
  destruct r as [signature|e|msg|]; [| |done..]; intros [= <- <-]; exists ours;
    (split; [exact Hours|]); (split; [exact Hs|]); [|by split].
  split; [done|]. split; [unfold cache, set_cache at 1; cbn; unfold cache in Hc; by rewrite Hc|].
  left. split; [done|]. exists rs, env, []. by split.
Qed.

(** Requests of later keys. *)
Lemma registration_request_mono keys keys' s s' r :
  (forall key, key ∈ keys -> key ∈ keys') -> cache s ⊆ cache s' ->
  registration_request keys s' r -> registration_request keys' s r.
Proof using.
  intros Hk Hc [Hr|(key & Hin & Hnone & Hr)]; [by left|]. right. exists key.
  split; [auto|]. split; [|done]. by eapply lookup_weaken_None.
Qed.

(** What signing the registrations of some keys does to the cache, and returns. *)
Definition signing_done (keys : list RegistrationKey) s
  (out : list (RegistrationKey * (Z * BlsSignature))) s' : Prop :=
  cache s ⊆ cache s' /\
  (forall key, key ∉ keys -> cache s' !! key = cache s !! key) /\
  (forall key d, (key, d) ∈ out <-> key ∈ keys /\ cache s' !! key = Some d) /\
  sublist (map fst out) keys /\
  exists rs, Forall (registration_request keys s) rs /\ the_store s' = after (the_store s) rs /\
    forall key d, cache s !! key = None -> cache s' !! key = Some d -> signed_among rs s key d.

Lemma signing_nothing s : signing_done [] s [] s.
Proof using.
  split; [done|]. split; [done|]. split; [intros key d; rewrite !elem_of_nil; tauto|].
  split; [done|]. exists []. split; [done|]. split; [done|]. congruence.
Qed.

Lemma signed_registration_grows key s x s1 rs :
  the_store s1 = after (the_store s) rs ->
  match x with
  | Some (k, d) => k = key /\ cache s1 = <[key := d]> (cache s) /\
      (cache s !! key = None /\ signed_among rs s key d \/ cache s !! key = Some d)
  | None => cache s1 = cache s /\ cache s !! key = None
  end ->
  cache s ⊆ cache s1 /\
  (forall k, k <> key -> cache s1 !! k = cache s !! k) /\
  forall k d, cache s !! k = None -> cache s1 !! k = Some d -> signed_among rs s k d.
Proof using.
  intros Hs Hx. destruct x as [[k d]|]; [|destruct Hx as [-> _]; naive_solver].
  destruct Hx as (_ & -> & Hk). split; [|split].
  - destruct Hk as [[Hk _]|Hk]; [by apply insert_subseteq|by rewrite insert_id].
  - intros k' Hk'. by rewrite lookup_insert_ne.
  - intros k' d' Hnone [[<- <-]|[_ Hd]]%lookup_insert_Some; [|congruence].
    destruct Hk as [[_ Hk]|Hk]; [done|congruence].
Qed.

Lemma signed_registrations_ok self keys s out s' :
  signed_registrations self keys s = (Ok out, s') -> signing_done keys s out s'.
Proof using kept Interleaved0.
  revert s out s'. induction keys as [|key keys IH]; intros s out s' Hrun.
  { injection Hrun as <- <-. apply signing_nothing. }
  cbn [signed_registrations] in Hrun. unfold mbind, prog_bind in Hrun.
  destruct (signed_registration self key s) as [[x|e|msg|] s1] eqn:Hx; [|done..].
  destruct (signed_registrations self keys s1) as [[rest|e|msg|] s2] eqn:Hrest; [|done..].
  injection Hrun as <- <-. apply signed_registration_ok in Hx as (rs1 & Hrs1 & Hs1 & Hx).
  apply IH in Hrest as (Hsub & Hout & Hin & Hord & rs2 & Hrs2 & Hs2 & Hsig2).
  pose proof (signed_registration_grows key s x s1 rs1 Hs1 Hx) as (Hsub1 & Hout1 & Hsig1).
  split; [by etrans|]. split; [|split; [|split]].
  - intros k [Hne Hk]%not_elem_of_cons. rewrite Hout by done. by apply Hout1.
  - intros k d. rewrite elem_of_cons. destruct x as [[k' d']|].
    + destruct Hx as (-> & Hc1 & _). rewrite elem_of_cons, Hin.
      assert (cache s2 !! key = Some d') as Hd'.
      { eapply lookup_weaken; [|exact Hsub]. by rewrite Hc1, lookup_insert_eq. }
      split; [intros [[= -> ->]|[? ?]]; auto|]. intros [[->|Hk] Hd]; [|auto]. left. congruence.
    + destruct Hx as [Hc1 Hnone]. rewrite Hin. split; [intros [? ?]; auto|].
      intros [[->|Hk] Hd]; [|done]. split; [|done].
      destruct (decide (key ∈ keys)) as [|Hk]; [done|]. rewrite Hout, Hc1 in Hd by done. congruence.
  - destruct x as [[k d]|]; [|by apply sublist_cons]. destruct Hx as [-> _].
    by apply sublist_skip.
  - exists (rs1 ++ rs2). split; [apply Forall_app; split|split; [by rewrite after_app, <- Hs1|]].
    + eapply Forall_impl; [exact Hrs1|]. intros r. apply registration_request_mono; [|done].
      intros k ->%list_elem_of_singleton. apply list_elem_of_here.
    + eapply Forall_impl; [exact Hrs2|]. intros r. apply registration_request_mono; [|done].
      intros k Hk. by apply list_elem_of_further.
    + intros k d Hnone Hd. destruct (cache s1 !! k) as [d1|] eqn:Hk1.
      * assert (d1 = d) as -> by (eapply lookup_weaken in Hk1; [|exact Hsub]; congruence).
        by apply signed_among_later, Hsig1.
      * by apply (signed_among_before _ _ _ s1), Hsig2.
Qed.

(** Publication posts the batches, and only waits. *)
Lemma post_batches_posts self batches s u s' :
  post_batches self batches s = (Ok u, s') ->
  posted self batches s s' /\ reached theirs (the_store s) (the_store s') /\ cache s' = cache s.
Proof using kept Interleaved0.
  revert s. induction batches as [|batch batches IH]; intros s Hrun.
  { injection Hrun as _ <-. split; [constructor|]. split; [apply reached_refl|done]. }
  cbn [post_batches] in Hrun.
  set (func := fun c => post_validator_register_validator c batch) in Hrun.
  destruct (does_first_success theirs theirs RequireSynced.Yes OfflineOnFailure.No func
    (preparation_nodes self) s) as (rs & Hrs & Hs & _); [intros; apply register_waits|done|].
  assert (cache (snd (first_success RequireSynced.Yes OfflineOnFailure.No func
    (preparation_nodes self) s)) = cache s) as Hc.
  { apply (first_success_kept (fun s' => cache s' = cache s)); [| | |done| |done];
      intros c s1 <-; [apply version_keeps_cache|apply spec_keeps_cache|apply syncing_keeps_cache
        |apply register_keeps_cache]. }
  unfold caught, mbind, prog_bind in Hrun.
  pose proof (posted_batch self batch batches s s') as Hpost. cbv zeta in Hpost. fold func in Hpost.
  destruct (first_success _ _ func _ s) as [r1 s1]. cbn [fst snd] in *.
  assert (reached theirs (the_store s) (the_store s1)) as Hreach by (by exists rs).
  destruct r1 as [v|e|msg|]; [| |done..]; apply IH in Hrun as (Hp2 & Hr2 & Hc2);
    (split; [by apply Hpost|split; [by eapply reached_trans|congruence]]).
Qed.

(** The two parts of a publication. *)
Definition publication (self : PreparationService) (keys : list RegistrationKey) s
  (out : list (RegistrationKey * (Z * BlsSignature))) s' : Prop :=
  exists s1 batches, signing_done keys s out s1 /\
    concat batches = out /\
    Forall (fun b => (0 < length b <= VALIDATOR_REGISTRATION_BATCH_SIZE)%nat) batches /\
    posted self batches s1 s' /\ reached theirs (the_store s1) (the_store s') /\
    cache s' = cache s1.

Lemma publish_registrations_ok self keys s out s' :
  publish_validator_registration_data self keys s = (Ok out, s') -> publication self keys s out s'.
Proof using kept Interleaved0.
  unfold publish_validator_registration_data, mbind, prog_bind.
  destruct (signed_registrations self keys s) as [[signed|e|msg|] s1] eqn:Hsigned; [|done..].
  apply signed_registrations_ok in Hsigned. destruct signed as [|x signed].
  { intros [= <- <-]. exists s1, []. split; [done|]. split; [done|]. split; [done|].
    split; [constructor|]. split; [apply reached_refl|done]. }
  destruct (post_batches _ _ s1) as [[u|e|msg|] s2] eqn:Hpost; [|done..]. intros [= <- <-].
  apply post_batches_posts in Hpost as (Hp & Hreach & Hc).
  destruct (chunks_concat VALIDATOR_REGISTRATION_BATCH_SIZE (x :: signed)) as [Hcat Hlen].
  { unfold VALIDATOR_REGISTRATION_BATCH_SIZE. lia. }
  by exists s1, (chunks VALIDATOR_REGISTRATION_BATCH_SIZE (x :: signed)).
Qed.

Lemma register_validators_publishes self s slot out s' :
  now s = Some slot -> register_validators self s = (Ok out, s') ->
  let keys := collect_validator_registration_keys self (the_store s) in
  let all := slot mod (slots_per_epoch * EPOCHS_PER_VALIDATOR_REGISTRATION_SUBMISSION) = 0 in
  exists wanted, sublist wanted keys /\
    (forall key, key ∈ wanted <-> key ∈ keys /\ (all \/ cache s !! key = None)) /\
    publication self wanted s out s'.
Proof using kept Interleaved0.
  intros Hnow Hrun keys all.
  unfold register_validators in Hrun. do 3 (erewrite run_bind in Hrun; [|reflexivity]).
  rewrite Hnow in Hrun. fold keys in Hrun. subst all.
  destruct (Z.eqb_spec
    (slot mod (slots_per_epoch * EPOCHS_PER_VALIDATOR_REGISTRATION_SUBMISSION)) 0) as [Hall|Hall].
  - exists keys. split; [done|]. split; [tauto|by apply publish_registrations_ok].
  - set (changed := filter (fun key => cache s !! key = None) keys) in Hrun. exists changed.
    split; [apply sublist_filter|].
    split; [intros key; unfold changed; rewrite list_elem_of_filter; tauto|].
    destruct changed as [|k l]; [|by apply publish_registrations_ok].
    injection Hrun as <- <-. exists s, []. split; [apply signing_nothing|].
    split; [done|]. split; [done|]. split; [constructor|]. split; [apply reached_refl|done].
Qed.

(** C21: a round of the registration service first asks the validator store for
    registrations, only of validators that the builders are to know and that are not in the
    cache; what was in the cache stays there, and what is added was asked for with the time
    stamp that is kept and carries the signature that the store returned.  The
    registrations that are published are those then in the cache, of all these validators
    at the start of an epoch and otherwise of those whose registration is new, in the order
    of the validators; they are posted in that order, in batches of one to 500, each to the
    first beacon node that takes it, and remain in the cache whether one does or not.  The
    comment on the cache calls it a record of unpublished changes. *)
Theorem registrations_published self s slot out s' :
  now s = Some slot -> register_validators self s = (Ok out, s') ->
  let keys := collect_validator_registration_keys self (the_store s) in
  let all := slot mod (slots_per_epoch * EPOCHS_PER_VALIDATOR_REGISTRATION_SUBMISSION) = 0 in
  exists rs s1 batches,
    Forall (registration_request keys s) rs /\ the_store s1 = after (the_store s) rs /\
    cache s ⊆ cache s1 /\
    (forall key, key ∉ keys -> cache s1 !! key = cache s !! key) /\
    (forall key d, cache s !! key = None -> cache s1 !! key = Some d ->
       signed_among rs s key d) /\
    (forall key d, (key, d) ∈ out <->
       key ∈ keys /\ cache s1 !! key = Some d /\ (all \/ cache s !! key = None)) /\
    sublist (map fst out) keys /\
    concat batches = out /\
    Forall (fun b => (0 < length b <= VALIDATOR_REGISTRATION_BATCH_SIZE)%nat) batches /\
    posted self batches s1 s' /\ reached theirs (the_store s1) (the_store s') /\
    cache s' = cache s1.
Proof using kept Interleaved0.
  intros Hnow Hrun keys all.
  destruct (register_validators_publishes self s slot out s' Hnow Hrun)
    as (wanted & Hsubl & Hwanted & s1 & batches & Hsigning & Hcat & Hlen & Hposted).
  destruct Hsigning as (Hsub & Hout & Hin & Hord & rs & Hrs & Hs1 & Hsig).
  exists rs, s1, batches. split; [|split; [done|split; [done|split; [|split; [done|split; [|split]]]]]].
  - eapply Forall_impl; [exact Hrs|]. intros r. apply registration_request_mono; [|done].
    intros key Hkey. by apply Hwanted in Hkey as [? _].
  - intros key Hkey. apply Hout. intros [? _]%Hwanted. done.
  - intros key d. rewrite Hin, Hwanted. tauto.
  - by etrans.
  - done.
Qed.

(** A registration that is in the cache is not published again before the next epoch,
    whether it was published or not. *)
Lemma registrations_wait self s slot :
  now s = Some slot ->
  slot mod (slots_per_epoch * EPOCHS_PER_VALIDATOR_REGISTRATION_SUBMISSION) <> 0 ->
  (forall key, key ∈ collect_validator_registration_keys self (the_store s) ->
     is_Some (cache s !! key)) ->
  register_validators self s = (Ok [], s).
Proof using.
  intros Hnow Hslot Hkeys. unfold register_validators. do 3 (erewrite run_bind; [|reflexivity]).
  rewrite Hnow. apply Z.eqb_neq in Hslot as ->.
  destruct (filter _ _) as [|key l] eqn:Hf; [done|].
  assert (key ∈ key :: l) as Hin by apply list_elem_of_here. rewrite <- Hf in Hin.
  apply list_elem_of_filter in Hin as [Hnone Hin]. apply Hkeys in Hin as [d Hd]. congruence.
Qed.
End registrations.

(** ** One validator *)

Section witness.
#[local] Existing Instances ideal_blst ideal_blst_laws ideal_bincode ideal_round_trip.
#[local] Existing Instances ideal_sig_codec ideal_sig_roundtrip memory_db memory_db_reliable.
#[local] Existing Instances ideal_mempool ideal_keystore_crypto ideal_eth2_keystore.
#[local] Existing Instances mainnet demo_beacon history_db history_protection.
#[local] Existing Instances plain_types plain_client plain_api plain_interleaved.

Definition plain_preparation : PreparationService :=
  mkPreparationService plain_fallback (mkChainSpec 1 None None) (Some 77) None true None.

Lemma plain_cache_kept : CacheKept (N:=list Z).
Proof. by split. Qed.

(** The validator has no settings of its own: its registration has the defaults. *)
Lemma plain_registered : exists signature s',
  register_validators plain_preparation plain_world =
  (Ok [((77, 30000000, 5), (1700000000, signature))], s').
Proof. do 2 eexists. reflexivity. Qed.

Lemma registrations_published_witness : exists signature s',
  register_validators plain_preparation plain_world =
    (Ok [((77, 30000000, 5), (1700000000, signature))], s') /\
  cache s' !! (77, 30000000, 5) = Some (1700000000, signature) /\
  exists rs, signed_among rs plain_world (77, 30000000, 5) (1700000000, signature).
Proof.
  destruct plain_registered as (signature & s' & Hrun). exists signature, s'. split; [exact Hrun|].
  pose proof plain_cache_kept as Hkept.
  assert (now plain_world = Some 161) as Hnow by reflexivity.
  destruct (registrations_published (fun _ => False) plain_preparation plain_world 161
    [((77, 30000000, 5), (1700000000, signature))] s' Hnow Hrun)
    as (rs & s1 & batches & _ & _ & _ & _ & Hsig & Hin & _ & _ & _ & _ & _ & Hc).
  assert (cache s1 !! (77, 30000000, 5) = Some (1700000000, signature)) as Hkey.
  { by apply Hin, list_elem_of_here. }
  split; [by rewrite Hc|]. exists rs. by apply Hsig.
Defined.
End witness.
