(* ===== verification/AttestationService.v ===== *)
(** * Attestations and aggregates

    Models [src/validation/attestation_service.rs]: the tasks of a slot, one for every
    committee that has a local validator, the download of the attestation data, its
    signature for every duty, its publication, and the aggregates that follow.

    The theorem shows that the tasks share out the duties of the slot, that all they ask
    of the validator store are signatures for these duties, that what is published was
    signed for a duty whose slot and committee it has, and that no two attestations are
    slashable together, whatever the beacon nodes answer and the other tasks do. *)

From S2P Require Import Prelude Store Committee Messages Network Core Ideal Mempool.
From S2P Require Import Scalars Blst BlstIdeal Polynomial Threshold Operator DvfCore.
From S2P Require Import Doppelganger KeyCache KeyFiles InitializedValidators ValidatorStore.
From S2P Require Import BeaconNodes Services ServicesIdeal BlockService Duties.

Section attestation_service.
Context `{Eth2Keystore} `{Bincode} `{!SigCodec} `{MempoolCodec} `{Rocksdb Digest bytes}.
Context `{EthSpec} `{SlashingDatabase} `{!ServiceTypes}.
Context {N : Type} `{!BeaconNodeHttpClient (services N)} `{!BeaconApi N}.

Record AttestationService := mkAttestationService {
  attestation_nodes : BeaconNodeFallback;
  debug_attestation : FallbackError string -> string;
  debug_data : AttestationT -> string
}.

(** ** The tasks of a slot *)

Definition add_duty (m : gmap Z (list DutyAndProof)) (d : DutyAndProof)
  : gmap Z (list DutyAndProof) :=
  let index := committee_index (duty d) in
  <[index := default [] (m !! index) ++ [d]]> m.

Definition duties_by_committee_index (l : list DutyAndProof) : gmap Z (list DutyAndProof) :=
  foldl add_duty ∅ l.

(** The slot, the time to the production of aggregates, and the tasks that are spawned. *)
Definition spawn_attestation_tasks (slot_duration : Z) (s : nodes (services N))
  : outcome string (Slot * Z * list (Z * list DutyAndProof)) :=
  match now s with
  | None => Err "Failed to read slot clock"
  | Some slot =>
      match duration_to_next_slot s with
      | None => Err "Unable to determine duration to next slot"
      | Some duration =>
          let third := slot_duration / 3 in
          mret (slot, if third <=? duration then duration - third else 0,
                map_to_list (duties_by_committee_index (attesters slot s)))
      end
  end.

(** ** Attestations *)

Definition matches_duty (d : AttesterData) (data : AttestationT) : bool :=
  (duty_slot d =? att_slot data) && (committee_index d =? att_index data).

(** The future of one duty. *)
Definition sign_duty (data : AttestationT) (current_epoch : Epoch) (x : DutyAndProof)
  : prog (nodes (services N)) string (option Attestation) :=
  let d := duty x in
  if negb (matches_duty d data) then mret None
  else if negb (bitlist_fits (committee_length d)) then
    panic "called `Result::unwrap()` on an `Err` value"
  else
    r ← caught (sign_with (fun v env =>
          sign_attestation v (duty_pubkey d) data
            (add_signature (committee_length d) (validator_committee_index d)) current_epoch env));
    mret (match r with
          | inr signature =>
              Some (mkAttestation (committee_length d) (validator_committee_index d) data signature)
          | inl _ => None
          end).

Fixpoint sign_duties (data : AttestationT) (current_epoch : Epoch) (l : list DutyAndProof)
  : prog (nodes (services N)) string (list Attestation) :=
  match l with
  | [] => mret []
  | x :: l =>
      a ← sign_duty data current_epoch x;
      rest ← sign_duties data current_epoch l;
      mret (match a with Some a => a :: rest | None => rest end)
  end.

(** Returns the attestations too, which are posted and logged. *)
Definition produce_and_publish_attestations (self : AttestationService) (slot : Slot) (index : Z)
  (l : list DutyAndProof)
  : prog (nodes (services N)) string (option (AttestationT * list Attestation)) :=
  match l with
  | [] => mret None
  | _ =>
      clock ← gets now;
      match clock with
      | None => fail "Unable to determine current slot from clock"
      | Some current_slot =>
          data ← map_err (display (debug_attestation self))
            (first_success RequireSynced.No OfflineOnFailure.Yes
               (fun c => map_err (fun e => "Failed to produce attestation data: " +:+ debug_http e)
                           (get_validator_attestation_data c slot index))
               (attestation_nodes self));
          attestations ← sign_duties data (slot_epoch current_slot) l;
          match attestations with
          | [] => mret None
          | _ =>
              _ ← caught (first_success RequireSynced.No OfflineOnFailure.Yes
                            (fun c => post_beacon_pool_attestations c attestations)
                            (attestation_nodes self));
              mret (Some (data, attestations))
          end
      end
  end.

(** ** Aggregates *)

Definition sign_aggregate (data : AttestationT) (aggregate : Aggregate) (x : DutyAndProof)
  : prog (nodes (services N)) string (option (OtherT * BlsSignature)) :=
  match selection_proof x with
  | None => mret None
  | Some proof =>
      let d := duty x in
      if negb (matches_duty d data) then mret None
      else
        let message := aggregate_and_proof (validator_index d) aggregate proof in
        r ← caught (sign_with (fun v env =>
              produce_signed_aggregate_and_proof v (duty_pubkey d) (aggregate_data aggregate)
                message env));
        mret (match r with
              | inr signature => Some (message, signature)
              | inl _ => None
              end)
  end.

Fixpoint sign_aggregates (data : AttestationT) (aggregate : Aggregate) (l : list DutyAndProof)
  : prog (nodes (services N)) string (list (OtherT * BlsSignature)) :=
  match l with
  | [] => mret []
  | x :: l =>
      a ← sign_aggregate data aggregate x;
      rest ← sign_aggregates data aggregate l;
      mret (match a with Some a => a :: rest | None => rest end)
  end.

(** The closure that downloads an aggregate. *)
Definition download_aggregate (self : AttestationService) (data : AttestationT) (c : Client)
  : prog (nodes (services N)) string Aggregate :=
  response ← map_err (fun e => "Failed to produce an aggregate attestation: " +:+ debug_http e)
    (get_validator_aggregate_attestation c (att_slot data) (att_root data));
  match response with
  | Some aggregate => mret aggregate
  | None => fail ("No aggregate available for " +:+ debug_data self data)
  end.

Definition produce_and_publish_aggregates (self : AttestationService) (data : AttestationT)
  (l : list DutyAndProof) : prog (nodes (services N)) string () :=
  aggregate ← map_err (display (debug_attestation self))
    (first_success RequireSynced.No OfflineOnFailure.Yes (download_aggregate self data)
       (attestation_nodes self));
  signed ← sign_aggregates data aggregate l;
  match signed with
  | [] => mret ()
  | _ =>
      _ ← caught (first_success RequireSynced.No OfflineOnFailure.Yes
                    (fun c => post_validator_aggregate_and_proof c signed)
                    (attestation_nodes self));
      mret ()
  end.

(** The task of a committee.  Besides its outcome, gives the attestations that it published,
    however the step that follows them ends. *)
Definition task_result : Type := option (AttestationT * list Attestation) * outcome () ().

Definition publish_attestations_and_aggregates (self : AttestationService) (slot : Slot) (index : Z)
  (l : list DutyAndProof) (s : nodes (services N)) : task_result * nodes (services N) :=
  match l with
  | [] => ((None, Ok ()), s)
  | _ =>
      match produce_and_publish_attestations self slot index l s with
      | (Ok None, s) => ((None, Ok ()), s)
      | (Ok (Some (data, attestations)), s) =>
          let '(r, s) :=
            map_err (fun _ => ()) (produce_and_publish_aggregates self data l) (sleeps s) in
          ((Some (data, attestations), r), s)
      | (Err _, s) => ((None, Err ()), s)
      | (Panic msg, s) => ((None, Panic msg), s)
      | (Diverged, s) => ((None, Diverged), s)
      end
  end.

(** The task that prunes the slashing protection database. *)
Definition prune_task (slot : Slot) (s : nodes (services N)) : nodes (services N) :=
  let s := sleeps s in
  set_store (fst (handle (the_store s) (ReqPrune (slot_epoch slot)))) s.

(** The tasks of the committees, with their results. *)
Fixpoint run_committees (self : AttestationService) (slot : Slot)
  (tasks : list (Z * list DutyAndProof)) (s : nodes (services N))
  : list task_result * nodes (services N) :=
  match tasks with
  | [] => ([], s)
  | (index, l) :: tasks =>
      let '(r, s) := publish_attestations_and_aggregates self slot index l s in
      let '(rs, s) := run_committees self slot tasks s in
      (r :: rs, s)
  end.

(** All that is done for a slot. *)
Definition attest (self : AttestationService) (slot_duration : Z) (s : nodes (services N))
  : list task_result * nodes (services N) :=
  match spawn_attestation_tasks slot_duration s with
  | Ok (slot, _, tasks) =>
      let '(rs, s) := run_committees self slot tasks s in
      (rs, prune_task slot s)
  | _ => ([], s)
  end.
End attestation_service.

(** ** The tasks share out the duties *)

Section grouping.
Context `{ServiceTypes}.

Lemma add_duty_members m d :
  concat (map snd (map_to_list (add_duty m d))) ≡ₚ d :: concat (map snd (map_to_list m)).
Proof.
  unfold add_duty. set (i := committee_index (duty d)).
  destruct (m !! i) as [l|] eqn:Hi; cbn.
  - rewrite <- (insert_delete_id m i l) at 2 by done.
    rewrite <- insert_delete_eq, !map_to_list_insert by apply lookup_delete_eq.
    cbn. rewrite <- app_assoc. cbn. symmetry. apply Permutation_middle.
  - rewrite map_to_list_insert by done. done.
Qed.

Lemma duties_by_committee_members l :
  concat (map snd (map_to_list (duties_by_committee_index l))) ≡ₚ l.
Proof.
  unfold duties_by_committee_index. rewrite <- (app_nil_r l) at 2.
  assert (concat (map snd (map_to_list (∅ : gmap Z (list DutyAndProof)))) = []) as <-
    by (by rewrite map_to_list_empty).
  generalize (∅ : gmap Z (list DutyAndProof)). induction l as [|d l IH]; intros m; [done|].
  cbn. rewrite IH, add_duty_members. symmetry. apply Permutation_middle.
Qed.

Lemma duties_by_committee_index_of l i ds d :
  duties_by_committee_index l !! i = Some ds -> d ∈ ds -> committee_index (duty d) = i.
Proof.
  unfold duties_by_committee_index. revert i ds d.
  assert (forall i ds d, (∅ : gmap Z (list DutyAndProof)) !! i = Some ds -> d ∈ ds ->
    committee_index (duty d) = i) as Hm by (intros i ds d; by rewrite lookup_empty).
  revert Hm. generalize (∅ : gmap Z (list DutyAndProof)).
  induction l as [|x l IH]; intros m Hm; [done|]. cbn. apply IH. clear IH.
  intros i ds d. unfold add_duty. rewrite lookup_insert_Some. intros [[Hi <-]|[_ Hl]]; [|by eapply Hm].
  intros [Hd| ->%list_elem_of_singleton]%elem_of_app; [|done].
  destruct (m !! committee_index (duty x)) as [ds'|] eqn:Hx; [|by apply elem_of_nil in Hd].
  rewrite <- Hi. by apply (Hm _ ds').
Qed.
End grouping.

(** ** What the tasks request *)

Section requests.
Context `{Eth2Keystore} `{Bincode} `{!SigCodec} `{MempoolCodec} `{Rocksdb Digest bytes}.
Context `{EthSpec} `{SlashingDatabase} `{!ServiceTypes}.
Context {N : Type} `{!BeaconNodeHttpClient (services N)} `{!BeaconApi N}.
Context (theirs : request -> Prop) `{!Interleaved theirs N}.

(** The signatures that some duties call for. *)
Definition request_for (l : list DutyAndProof) (r : request) : Prop :=
  match r with
  | ReqAttestation pubkey a _ _ _ =>
      exists x, x ∈ l /\ duty_pubkey (duty x) = pubkey /\ matches_duty (duty x) a = true
  | ReqAggregate pubkey _ _ _ =>
      exists x, x ∈ l /\ duty_pubkey (duty x) = pubkey /\ is_Some (selection_proof x)
  | _ => False
  end.

(** An attestation that was signed for a duty in the course of some requests. *)
Definition signed_for (v : ValidatorStore) (rs : list request) (l : list DutyAndProof)
  (a : Attestation) : Prop :=
  exists x, x ∈ l /\ matches_duty (duty x) (att_data a) = true /\
    bits_length a = committee_length (duty x) /\
    bits_position a = validator_committee_index (duty x) /\
    (duty_pubkey (duty x), SignedAttestation (att_data a)) ∈ log v rs.

Lemma signed_for_app v rs rs' l a : signed_for v rs l a -> signed_for v (rs ++ rs') l a.
Proof.
  intros (x & Hx & Hm & Hl & Hp & Hin). exists x. rewrite log_app, elem_of_app. auto 10.
Qed.

Lemma signed_for_after v rs rs' l a :
  signed_for (after v rs) rs' l a -> signed_for v (rs ++ rs') l a.
Proof.
  intros (x & Hx & Hm & Hl & Hp & Hin). exists x. rewrite log_app, elem_of_app. auto 10.
Qed.

Lemma signed_for_more v rs l l' a :
  (forall x, x ∈ l -> x ∈ l') -> signed_for v rs l a -> signed_for v rs l' a.
Proof. intros Hl (x & Hx & Ha). exists x. auto. Qed.

Lemma sign_attestation_ok self pk a add ce env self' sig l :
  sign_attestation self pk a add ce env = (self', Ok sig, l) -> l = [(pk, SignedAttestation a)].
Proof.
  unfold sign_attestation. destruct (_ <? _); [done|].
  destruct (check_and_insert_attestation _ _ _) as [d [e|[]]]; try done.
  destruct (get_signature _ _ _ _ _ _ _ _) as [[v r] l'] eqn:Hg.
  destruct r as [sig'|e|msg|]; [|done..]. destruct (add sig'); [|done]. intros [= _ _ <-].
  by apply get_signature_ok in Hg.
Qed.

Section committee.
Context (P : request -> Prop) (P_theirs : forall r, theirs r -> P r).

Lemma sign_duty_does data ce x s :
  (forall r, request_for [x] r -> P r) ->
  does P (sign_duty data ce x) (fun rs r =>
    forall a, r = Ok (Some a) -> att_data a = data /\ signed_for (the_store s) rs [x] a) s.
Proof using Interleaved0 P_theirs.
  intros Hours. unfold sign_duty. destruct (matches_duty (duty x) data) eqn:Hm; [|by apply does_nothing].
  destruct (bitlist_fits _); [|by apply does_nothing]. cbn [negb].
  apply does_bind, does_caught.
  set (f := fun v env => sign_attestation v _ _ _ _ env).
  destruct (sign_with_requests theirs f
    (ReqAttestation (duty_pubkey (duty x)) data
       (add_signature (committee_length (duty x)) (validator_committee_index (duty x))) ce) s)
    as (rs & env & Hrs & Hs & Hr); [done|].
  eexists. split; [|split; [exact Hs|]].
  - apply Forall_app. split; [by eapply Forall_impl|]. apply Forall_singleton, Hours.
    exists x. split; [apply list_elem_of_here|done].
  - rewrite Hr. unfold f.
    destruct (sign_attestation _ _ _ _ _ env) as [[v' [sig|e|msg|]] l] eqn:Hsign; cbn; try done.
    + intros s1 _. apply does_nothing; [done|]. intros a [= <-]. split; [done|].
      exists x. rewrite app_nil_r. split; [apply list_elem_of_here|]. do 3 (split; [done|]).
      rewrite log_app, elem_of_app. right. cbn. rewrite Hsign.
      apply sign_attestation_ok in Hsign as ->. apply list_elem_of_here.
    + intros s1 _. by apply does_nothing.
Qed.

Lemma sign_duties_does data ce l s :
  (forall r, request_for l r -> P r) ->
  does P (sign_duties data ce l) (fun rs r =>
    forall atts a, r = Ok atts -> a ∈ atts ->
      att_data a = data /\ signed_for (the_store s) rs l a) s.
Proof using Interleaved0 P_theirs.
  revert s. induction l as [|x l IH]; intros s Hours.
  { apply does_nothing; [done|]. by intros atts a [= <-] ?%elem_of_nil. }
  assert (forall sub r, (forall y, y ∈ sub -> y ∈ x :: l) -> request_for sub r -> P r) as Hsub.
  { intros sub r Hin Hr. apply Hours. destruct r; try done;
      destruct Hr as (y & Hy & Hr); exists y; auto. }
  apply does_bind. eapply does_mono; [|apply (sign_duty_does data ce x s)].
  2:{ intros r. apply Hsub. intros y ->%list_elem_of_singleton. apply list_elem_of_here. }
  intros rs [o|e|msg|] Ho; cbn; try done. intros s1 Hs1.
  apply does_bind. eapply does_mono; [|apply (IH s1)].
  2:{ intros r. apply Hsub. intros y Hy. by apply list_elem_of_further. }
  intros rs' [rest|e|msg|] Hrest; cbn; try done. intros s2 _. apply does_nothing; [done|].
  cbn. rewrite app_nil_r. intros atts a [= <-] Ha.
  assert (a ∈ rest \/ o = Some a) as [Hin| ->].
  { destruct o; [|by left]. apply elem_of_cons in Ha as [->|Ha]; auto. }
  - destruct (Hrest _ a eq_refl Hin) as [Hd Hf]. split; [done|]. rewrite Hs1 in Hf.
    eapply signed_for_more; [|by apply signed_for_after]. intros y Hy. by apply list_elem_of_further.
  - destruct (Ho a eq_refl) as [Hd Hf]. split; [done|].
    eapply signed_for_more; [|by apply signed_for_app].
    intros y ->%list_elem_of_singleton. apply list_elem_of_here.
Qed.

Lemma request_for_part l sub r :
  (forall y, y ∈ sub -> y ∈ l) -> request_for sub r -> request_for l r.
Proof using. intros Hin Hr. destruct r; try done; destruct Hr as (y & Hy & Hr); exists y; auto. Qed.

(** What a task returns. *)
Definition task_signed {E} (v : ValidatorStore) (l : list DutyAndProof) (rs : list request)
  (r : outcome E (option (AttestationT * list Attestation))) : Prop :=
  forall data atts a, r = Ok (Some (data, atts)) -> a ∈ atts ->
    att_data a = data /\ signed_for v rs l a.

Lemma attestations_does self slot index l s :
  (forall r, request_for l r -> P r) ->
  does P (produce_and_publish_attestations self slot index l)
    (task_signed (the_store s) l) s.
Proof using Interleaved0 P_theirs.
  intros Hours. destruct l as [|x l]; [by apply does_nothing|]. set (duties := x :: l) in *.
  apply does_bind, does_nothing; [done|]. cbn. intros s0 Hs0.
  destruct (now s) as [slot_now|]; [|by apply does_nothing].
  apply does_bind, does_map_err. eapply does_mono; [|apply (does_first_success theirs P)]; [|..|done].
  2:{ intros c s'. unfold map_err, caught, mbind, prog_bind.
      pose proof (get_attestation_waits c slot index s') as Hw.
      by destruct (get_validator_attestation_data c slot index s') as [[] ?]. }
  intros rs1 [data|e|msg|] _; cbn; try done. intros s1 Hs1.
  apply does_bind. eapply does_mono; [|by apply (sign_duties_does data _ duties s1)].
  intros rs2 [atts|e|msg|] Hatts; cbn; try done. intros s2 Hs2.
  destruct atts as [|a0 atts]; [by apply does_nothing|].
  apply does_bind, does_caught. eapply does_mono; [|apply (does_first_success theirs P)]; [|..|done].
  2:{ intros c s'. apply post_attestations_waits. }
  assert (forall rs3 (s3 : nodes (services N)), does P (mret (Some (data, a0 :: atts)))
    (fun rs4 => task_signed (E:=string) (the_store s) duties (rs1 ++ rs2 ++ rs3 ++ rs4)) s3) as Hend.
  { intros rs3 s3. apply does_nothing; [done|]. intros data' atts' a [= <- <-] Ha.
    destruct (Hatts _ a eq_refl Ha) as [Hd Hf]. split; [done|].
    rewrite app_assoc. apply signed_for_app, signed_for_after. by rewrite <- Hs0, <- Hs1. }
  intros rs3 [[]|e|msg|] _; cbn; try done; intros s3 _; apply Hend.
Qed.

Lemma sign_aggregate_does data aggregate x s :
  (forall r, request_for [x] r -> P r) ->
  does P (sign_aggregate data aggregate x) (fun _ _ => True) s.
Proof using Interleaved0 P_theirs.
  intros Hours. unfold sign_aggregate. destruct (selection_proof x) as [proof|] eqn:Hx;
    [|by apply does_nothing].
  destruct (matches_duty (duty x) data); [|by apply does_nothing]. cbn [negb].
  apply does_bind, does_caught.
  set (f := fun v env => produce_signed_aggregate_and_proof v _ _ _ env).
  destruct (sign_with_requests theirs f
    (ReqAggregate (duty_pubkey (duty x)) (aggregate_data aggregate)
       (aggregate_and_proof (validator_index (duty x)) aggregate proof)) s)
    as (rs & env & Hrs & Hs & Hr); [done|].
  eexists. split; [|split; [exact Hs|]].
  - apply Forall_app. split; [by eapply Forall_impl|]. apply Forall_singleton, Hours.
    exists x. split; [apply list_elem_of_here|]. split; [done|]. by rewrite Hx.
  - destruct (fst (sign_with f s)); cbn; try done; intros s1 _; by apply does_nothing.
Qed.

Lemma sign_aggregates_does data aggregate l s :
  (forall r, request_for l r -> P r) ->
  does P (sign_aggregates data aggregate l) (fun _ _ => True) s.
Proof using Interleaved0 P_theirs.
  revert s. induction l as [|x l IH]; intros s Hours; [by apply does_nothing|].
  apply does_bind. eapply does_mono; [|apply (sign_aggregate_does data aggregate x s)].
  2:{ intros r Hr. apply Hours. eapply request_for_part; [|exact Hr].
      intros y ->%list_elem_of_singleton. apply list_elem_of_here. }
  intros rs [o|e|msg|] _; cbn; try done. intros s1 _.
  apply does_bind. eapply does_mono; [|apply (IH s1)].
  2:{ intros r Hr. apply Hours. eapply request_for_part; [|exact Hr].
      intros y Hy. by apply list_elem_of_further. }
  intros rs' [rest|e|msg|] _; cbn; try done. intros s2 _. by apply does_nothing.
Qed.

Lemma aggregates_does self data l s :
  (forall r, request_for l r -> P r) ->
  does P (produce_and_publish_aggregates self data l) (fun _ _ => True) s.
Proof using Interleaved0 P_theirs.
  intros Hours. apply does_bind, does_map_err.
  eapply does_mono; [|apply (does_first_success theirs P)]; [|..|done].
  2:{ intros c s'. unfold download_aggregate, map_err, caught, mbind, prog_bind.
      pose proof (get_aggregate_waits c (att_slot data) (att_root data) s') as Hw.
      by destruct (get_validator_aggregate_attestation c _ _ s') as [[[]| | |] ?]. }
  intros rs1 [aggregate|e|msg|] _; cbn; try done. intros s1 _.
  apply does_bind. eapply does_mono; [|by apply (sign_aggregates_does data aggregate l s1)].
  intros rs2 [signed|e|msg|] _; cbn; try done. intros s2 _.
  destruct signed as [|x signed]; [by apply does_nothing|].
  apply does_bind, does_caught. eapply does_mono; [|apply (does_first_success theirs P)]; [|..|done].
  2:{ intros c s'. apply post_aggregates_waits. }
  intros rs3 [[]|e|msg|] _; cbn; try done; intros s3 _; by apply does_nothing.
Qed.

Lemma committee_does self slot index l s :
  (forall r, request_for l r -> P r) ->
  let '((published, _), s') := publish_attestations_and_aggregates self slot index l s in
  exists rs, Forall P rs /\ the_store s' = after (the_store s) rs /\
    forall data atts a, published = Some (data, atts) -> a ∈ atts ->
      att_data a = data /\ signed_for (the_store s) rs l a.
Proof using Interleaved0 P_theirs.
  intros Hours. destruct l as [|x l]; [by exists []|]. set (duties := x :: l) in *.
  unfold publish_attestations_and_aggregates. change duties with (x :: l) at 1. cbv iota.
  destruct (attestations_does self slot index duties s Hours) as (rs & Hrs & Hs & Hr).
  destruct (produce_and_publish_attestations self slot index duties s)
    as [[[[data atts]|]|e|msg|] s1]; cbn [fst snd] in *; [|by exists rs..].
  destruct (sleep_waits s1) as (rs1 & Hrs1 & Hs1).
  destruct (aggregates_does self data duties (sleeps s1) Hours) as (rs2 & Hrs2 & Hs2 & _).
  assert (the_store (snd (map_err (fun _ => ()) (produce_and_publish_aggregates self data duties)
    (sleeps s1))) = after (the_store s) (rs ++ rs1 ++ rs2)) as Hend.
  { rewrite !after_app, <- Hs, <- Hs1, <- Hs2. unfold map_err, caught, mbind, prog_bind.
    by destruct (produce_and_publish_aggregates self data duties (sleeps s1)) as [[] ?]. }
  destruct (map_err _ _ (sleeps s1)) as [r s2]. exists (rs ++ rs1 ++ rs2).
  split; [|split; [exact Hend|]].
  - rewrite !Forall_app. split; [done|]. split; [by eapply Forall_impl|done].
  - intros data' atts' a [= <- <-] Ha. destruct (Hr data atts a eq_refl Ha) as [Hd Hf].
    split; [done|]. by apply signed_for_app.
Qed.
End committee.

Lemma run_committees_requests (P : request -> Prop) self slot tasks s :
  (forall r, theirs r -> P r) ->
  (forall r, request_for (concat (map snd tasks)) r -> P r) ->
  exists rs, Forall P rs /\
    the_store (snd (run_committees self slot tasks s)) = after (the_store s) rs /\
    forall data atts r a, (Some (data, atts), r) ∈ fst (run_committees self slot tasks s) ->
      a ∈ atts -> att_data a = data /\ signed_for (the_store s) rs (concat (map snd tasks)) a.
Proof using Interleaved0.
  intros HP. revert s. induction tasks as [|[index l] tasks IH]; intros s Hours.
  { exists []. split; [done|]. split; [done|]. by intros data atts r a ?%elem_of_nil. }
  cbn [run_committees map concat snd] in *.
  pose proof (committee_does P HP self slot index l s) as Htask.
  destruct (publish_attestations_and_aggregates self slot index l s) as [[published r] s1].
  destruct Htask as (rs1 & Hrs1 & Hs1 & Hf1).
  { intros r' Hr. apply Hours. eapply request_for_part; [|exact Hr].
    intros y Hy. apply elem_of_app. by left. }
  destruct (IH s1) as (rs2 & Hrs2 & Hs2 & Hf2).
  { intros r' Hr. apply Hours. eapply request_for_part; [|exact Hr].
    intros y Hy. apply elem_of_app. by right. }
  destruct (run_committees self slot tasks s1) as [out s2]. cbn [fst snd] in *.
  exists (rs1 ++ rs2). rewrite Hs1 in *. split; [by apply Forall_app|].
  split; [by rewrite after_app|]. intros data atts r0 a [[= Hr _]|Hr]%elem_of_cons Ha.
  - destruct (Hf1 data atts a (eq_sym Hr) Ha) as [Hd Hf]. split; [done|].
    eapply signed_for_more; [|by apply signed_for_app]. intros y Hy. apply elem_of_app. by left.
  - destruct (Hf2 data atts r0 a Hr Ha) as [Hd Hf]. split; [done|].
    eapply signed_for_more; [|by apply signed_for_after]. intros y Hy. apply elem_of_app. by right.
Qed.

(** The requests of a slot: its signatures, and the pruning. *)
Definition request_of_slot (slot : Slot) (l : list DutyAndProof) (r : request) : Prop :=
  request_for l r \/ r = ReqPrune (slot_epoch slot).

(** C17: the tasks of a slot share out the duties of the validators that may sign, each
    duty going to the task of its committee; all that they ask of the validator store are
    signatures for these duties, of attestation data with the slot and the committee of
    the duty and of aggregates for the selected aggregators, and its pruning; what they
    publish, however they end, was signed for such a duty, at the position of its validator;
    and no two
    attestations that were signed, by whatever task, are slashable together. *)
Theorem attestations_never_slashable `{!SlashingProtection} self duration s slot delay tasks :
  spawn_attestation_tasks duration s = Ok (slot, delay, tasks) ->
  let duties := attesters slot s in
  concat (map snd tasks) ≡ₚ duties /\
  (forall index l x, (index, l) ∈ tasks -> x ∈ l -> committee_index (duty x) = index) /\
  exists rs,
    the_store (snd (attest self duration s)) = after (the_store s) rs /\
    Forall (fun r => theirs r \/ request_of_slot slot duties r) rs /\
    (forall data atts r a, (Some (data, atts), r) ∈ fst (attest self duration s) -> a ∈ atts ->
       att_data a = data /\ signed_for (the_store s) rs duties a) /\
    forall pubkey a a', (pubkey, SignedAttestation a) ∈ log (the_store s) rs ->
      (pubkey, SignedAttestation a') ∈ log (the_store s) rs -> ~ slashable_attestations a a'.
Proof using Interleaved0.
  intros Hspawn duties. unfold attest. rewrite Hspawn. unfold spawn_attestation_tasks in Hspawn.
  destruct (now s) as [slot'|]; [|done]. destruct (duration_to_next_slot s); [|done].
  injection Hspawn as -> _ <-. fold duties.
  pose proof (duties_by_committee_members duties) as Hperm.
  split; [exact Hperm|]. split.
  { intros index l x Hin%elem_of_map_to_list. by apply (duties_by_committee_index_of duties). }
  destruct (run_committees_requests (fun r => theirs r \/ request_of_slot slot duties r) self slot
    (map_to_list (duties_by_committee_index duties)) s) as (rs & Hrs & Hs & Hf).
  { by left. }
  { intros r Hr. right. left. eapply request_for_part; [|exact Hr]. intros y. by rewrite Hperm. }
  destruct (run_committees _ _ _ s) as [out s1]. cbn [fst snd] in *.
  destruct (sleep_waits s1) as (rs' & Hrs' & Hs').
  exists (rs ++ rs' ++ [ReqPrune (slot_epoch slot)]). split; [|split; [|split]].
  - by rewrite !after_app, <- Hs, <- Hs'.
  - rewrite !Forall_app, Forall_singleton. split; [done|]. split; [|by right; right].
    eapply Forall_impl; [exact Hrs'|]. by left.
  - intros data atts r a Hr Ha. destruct (Hf data atts r a Hr Ha) as [Hd Hsig]. split; [done|].
    apply signed_for_app. eapply signed_for_more; [|exact Hsig]. intros y. by rewrite Hperm.
  - destruct (log_run_empty (the_store s) (rs ++ rs' ++ [ReqPrune (slot_epoch slot)])) as [d Hd].
    intros pk a a'. apply (safe_atts d _ Hd).
Qed.
End requests.

(** ** One duty *)

Section witness.
#[local] Existing Instances ideal_blst ideal_blst_laws ideal_bincode ideal_round_trip.
#[local] Existing Instances ideal_sig_codec ideal_sig_roundtrip memory_db memory_db_reliable.
#[local] Existing Instances ideal_mempool ideal_keystore_crypto ideal_eth2_keystore.
#[local] Existing Instances mainnet demo_beacon history_db history_protection.
#[local] Existing Instances plain_types plain_client plain_api plain_interleaved.

Definition plain_attester : AttestationService :=
  mkAttestationService plain_fallback (fun _ => "error") (fun _ => "data").

Definition plain_duty : DutyAndProof := mkDutyAndProof (mkAttesterData 5 3 1 0 64 2 161) None.

Definition plain_data : AttestationT := (4, 5, 161).

Definition duty_world : nodes (services (list Z)) :=
  mkNodes (fun _ => inr ()) (mkServices plain_store {[5 := {[5 := (7, plain_duty)]}]} ∅
    (mkSyncState ∅ [] false) ∅ []).

(** The attestation of the second node is signed and published. *)
Lemma plain_attested : exists signature,
  fst (attest plain_attester 12000 duty_world) =
  [(Some (plain_data, [mkAttestation 64 2 plain_data signature]), Ok ())].
Proof. eexists. reflexivity. Qed.

Lemma attestations_never_slashable_witness : exists rs signature,
  signed_for plain_store rs [plain_duty] (mkAttestation 64 2 plain_data signature) /\
  forall a a', (5, SignedAttestation a) ∈ log plain_store rs ->
    (5, SignedAttestation a') ∈ log plain_store rs -> ~ slashable_attestations a a'.
Proof.
  destruct plain_attested as [signature Hp].
  assert (attesters 161 duty_world = [plain_duty]) as Hd by reflexivity.
  assert (spawn_attestation_tasks 12000 duty_world =
    Ok (161, 4000, map_to_list (duties_by_committee_index (attesters 161 duty_world)))) as Hspawn
    by reflexivity.
  destruct (attestations_never_slashable (fun _ => False) plain_attester 12000 duty_world _ _ _ Hspawn)
    as (_ & _ & rs & _ & _ & Hf & Hsafe).
  exists rs, signature. split; [|exact (Hsafe 5)]. rewrite Hd in Hf.
  apply (Hf plain_data [mkAttestation 64 2 plain_data signature] (Ok ())); [|apply list_elem_of_here].
  rewrite Hp. apply list_elem_of_here.
Defined.
End witness.
